(* ===== verification/_CoqProject ===== *)
-Q . S2P
Prelude.v
BTree.v
Logic.v
LogicTheory.v
LogicNormal.v
GoStd.v
Value.v
Cmp.v
Ast.v
ExtValue.v
Shards.v
Range.v
Topology.v
DatabaseTable.v
Rule.v
Calc.v
CalcTheory.v
Routing.v
RoutingTotal.v
Visitor.v
VisitorTheory.v
Encoding.v
Packet.v
WireTheory.v
Sha.v
Auth.v
Handshake.v
HandshakeTheory.v
Row.v
Heap.v
Aggregate.v
Dataset.v
DatasetTheory.v
Sequence.v
GroupSequence.v
Snowflake.v
MysqlText.v
RowCodec.v
RowTheory.v
ResultSet.v
ResultSetTheory.v
Statement.v
StatementTheory.v
Commands.v
CommandsTheory.v
Redirect.v
ServingTheory.v
RedirectTheory.v
Optimize.v
OptimizeTheory.v
Utf8.v
Escape.v
Base58.v
Pool.v
PoolTheory.v
Lru.v
Namespace.v
Transaction.v
TransactionTheory.v
TransactionSpecs.v
