(* ===== verification/Prelude.v ===== *)
(** * Arana: a verification library

    Arana is a MySQL proxy that shards tables: it takes a client's statement,
    finds out which physical tables can hold the rows the statement is about,
    runs it there and merges the answers.  This library models the server from
    the login to the answers of its commands, the routing core, the planning of
    INSERT, UPDATE and DELETE, the merging of results, the transactions over
    several databases, the generators of identifiers and the wire layer as
    executable definitions, one per Go function, and proves what they guarantee.
    Paths below are under src/.

    ** The parts and how they interact

    The server ([pkg/mysql/server.go]) greets a client, checks its scrambled
    password against the users of the tenants ([pkg/mysql/auth.go],
    [pkg/security/tenant.go]) and then hands each command to a handler
    ([pkg/mysql/execute_handle.go]), which asks the executor
    ([pkg/executor/redirect.go]) and writes its results.  The executor keeps the
    transaction of each connection and gives a statement to it or to the runtime
    of the schema.  A transaction ([pkg/runtime/tx.go]) has a branch on each
    database it touches, over connections from pools ([third_party/pools]) of
    nodes a namespace chooses ([pkg/runtime/namespace]); as a client of these
    databases the proxy logs in, prepares and executes statements and reads
    their results lazily ([pkg/mysql/client.go], [pkg/mysql/statement.go],
    [pkg/mysql/result.go]).

    A statement's WHERE clause ([pkg/runtime/ast]) is walked by the shard
    visitor ([pkg/runtime/optimize/shard_visitor.go]), which evaluates constant
    operands ([pkg/runtime/misc/extvalue]) into values ([pkg/proto/value.go]),
    turns each comparison of a column into a comparative ([pkg/runtime/cmp])
    and combines them with the formula algebra
    ([pkg/runtime/calc/logic]).  The calculus ([pkg/runtime/calc]) folds the
    formula into a set of shards ([pkg/proto/rule/shards.go]): it asks the
    sharding rule ([pkg/proto/rule/rule.go]) for the virtual shards and their
    computers, walks the values of a range with steppers
    ([pkg/proto/rule/range.go]) and keeps the shards that exist in the topology
    ([pkg/proto/rule/topology.go]).  The visitor renders the shards as names
    ([pkg/proto/rule/database_table.go]), and the optimizer
    ([pkg/runtime/optimize]) makes a plan of them, with the tables of an UPDATE
    or DELETE or with an INSERT split by table, whose generated keys come from
    the sequences ([pkg/sequence]).  The plan ([pkg/runtime/plan]) runs a
    statement on each table.  The rows the shards answer are streams
    ([pkg/dataset]) that are fused, filtered, merged in order and grouped, with
    aggregates combined by [pkg/merge] and [pkg/reduce].  Statements and results
    travel over [pkg/mysql/conn.go], which frames payloads written and read by
    [pkg/mysql/encoding.go]; rows are written and scanned by [pkg/mysql/rows].

    ** The files

    - [Prelude]: the outcome monad ([Ok], [Err], [Panic], [OutOfFuel]), errors,
      machine integers ([wrapU], [wrapS], [inU], [inS]), tactics, hints and
      generic lemmas.
    - [BTree]: the interface of the external ordered-tree package and its laws.
    - [GoStd]: [strconv], [sort], and the interfaces of date parsing, binary
      search and map iteration.
    - [Logic], [LogicTheory], [LogicNormal]: calc/logic.  The Go interface
      value is the type [Logic]; [AND], [OR], [NOT] and [Eval] are the Go
      functions with each of their cases; [sat] gives formulas a meaning.
    - [Value]: proto/value.go.  One constructor of [ProtoValue] per Go type,
      one function per method of the interface.
    - [Cmp]: cmp/cmp.go and the order of comparatives of calc/misc.go.
    - [Ast]: the node types of expressions.
    - [ExtValue]: the visitor of extvalue over those nodes.
    - [Shards], [Range], [Topology], [DatabaseTable], [Rule]: the files of
      proto/rule with the same names; attributes.go is in [Rule].
    - [Calc], [CalcTheory], [Routing], [RoutingTotal]: calc/calculus.go,
      calc/misc.go and util/misc/misc.go; evaluation of a formula of
      comparatives, its soundness and when it answers.
    - [Visitor], [VisitorTheory]: shard_visitor.go, and the meaning of a WHERE
      clause on a row.
    - [Encoding], [Packet], [WireTheory]: mysql/encoding.go and the packet layer
      of mysql/conn.go, whose state is the record [Conn]; packets as lists of
      fields.
    - [Sha], [Auth]: the digests of Go's library, the scrambles of mysql/auth.go,
      the registry of security/tenant.go and the decision on a login.
    - [Handshake], [HandshakeTheory]: the login on the server ([Server]) and on
      the client ([BackendConnection]), packet by packet.
    - [Row]: mysql/fields.go, the column types and the rows of
      mysql/rows/virtual_row.go.
    - [MysqlText], [RowCodec], [RowTheory]: mysql/utils.go, mysql/rows/codec.go
      and mysql/rows.go, the binary and the text form of rows.
    - [ResultSet], [ResultSetTheory]: what server.go writes for a result, and
      its lazy reading by client.go and result.go, whose state is [RawResult].
    - [Statement], [StatementTheory]: mysql/statement.go, the decoding of
      arguments in server.go and their order in proto/interface.go.
    - [Commands], [CommandsTheory]: mysql/execute_handle.go and the loop of
      server.go, over any instance of the class [Executor].
    - [Redirect], [RedirectTheory]: executor/redirect.go, an instance of that
      class over any [Parser] and [Runtime].
    - [ServingTheory]: the operations of the server and the loops of the client
      return; a class states what this asks of an executor, and that of
      executor/redirect.go satisfies it.
    - [Heap], [Aggregate]: container/heap, the aggregators of merge/aggregator
      and reduce.
    - [Dataset], [DatasetTheory]: the files of dataset.  A dataset is an
      instance of a class with [Fields], [Next] and [Close]; [yields] says which
      rows it streams.
    - [Sequence], [GroupSequence], [Snowflake]: the manager of sequence.go and
      the generators of sequence/group and sequence/snowflake, with the
      transactions they run on the database.
    - [Optimize], [OptimizeTheory]: optimize/hints.go, optimize/optimizer.go,
      optimize/dml (insert.go, update.go, delete.go), plan/dml/simple_delete.go,
      plan/dml/simple_insert.go and plan/dml/update.go; hints, plans and their execution.
    - [Utf8], [Escape], [Base58]: Go's runes, the quoting of runtime/misc and
      ast/misc.go, and third_party/base58.
    - [Pool], [PoolTheory], [Lru]: third_party/pools and third_party/cache; the
      methods of a pool are steps of a state machine.
    - [Namespace]: runtime/namespace, selector and the choice of a node.
    - [Transaction], [TransactionTheory], [TransactionSpecs]: runtime/tx.go,
      runtime/conn_pool.go, the atom databases of runtime/runtime.go and
      runtime/transaction.  Goroutines are programs of atomic effects that a
      machine interleaves; a logic of tokens reasons about them.

    Where the code mutates an object the model passes the new state on: trees,
    topologies and attributes are values returned by their operations,
    iterators return their successor, and a connection runs in a state monad
    that keeps the state reached when an error or a panic ends the operation.
    A nil pointer or nil interface is a value of its own ([None], [nilLogic]),
    and dereferencing it is the outcome [Panic].

    ** What the theorems show

    - Statements.  [update_reaches_rows] and [delete_reaches_rows]: a plan runs
      the statement on the physical table of every row its WHERE selects.
      [insert_places_row] and [insert_shares_rows_out]: a plan inserts every
      row once, in that table.  [delete_runs_statements]: executing the plan of
      a DELETE runs one statement per table, and [update_any_schedule] that of
      an UPDATE does so in every interleaving of its goroutines.  The lemmas
      [insert_batch_faults] and [update_hint_faults] show where generated keys,
      rows without a shard and hints go wrong.
    - Transactions.  [transactions_balanced]: in every interleaving of clients
      every connection goes back to its pool and every request is undone;
      [commit_spec]: a commit that succeeds has committed every branch;
      [closing_waits_for_others]: closing a database waits for the work of
      others alone.  [pool_sound]: the counters of a pool are exact and what was
      taken can be put back.
    - The server.  [login_protocol]: a login runs to its end on both sides with
      the verdict of the server, which [login_decision] characterizes over the
      registry ([registry_refines]); [client_response_safe]: no response of a
      client makes its parser fail beyond an error.  [query_answered]: the
      results of a query are sent in order, the last one marked;
      [result_set_roundtrip]: a client reads them as they are.
      [execution_types] and [execute_roundtrip]: the arguments of a statement.
      [connection_isolated]: serving a connection uses and changes no
      transaction but its own, and comes to an end.  [unknown_command_ends],
      [ten_arguments_reordered] and the lemmas [set_option_two_answers],
      [long_data_misframed], [row_error_lost], [refused_once],
      [begin_abandons] and [failed_begin_hidden] are defects.
    - Routing.  [where_sound]: the tables a WHERE clause is routed to include
      the table of every row the clause selects.  It rests on [routing_sound]
      (no formula loses a row), [AND_sound] and [OR_exact] (the algebra means
      conjunction and disjunction) and [insert_then_select] (the shard of an
      inserted row is among those a select by its key visits).
      [routing_answers] shows evaluation returns on the formulas it supports.
      [where_conditions_needed], [null_comparison_panics] and the theorems on
      panics and lost rows show that the conditions cannot be dropped.
    - Data structures.  Shard sets refine finite sets
      ([Shards_refines_set] and the theorems on unions and intersections);
      topologies keep their tables sorted and enumerate exactly their pairs for
      every iteration order of the map; named sets cover what they should;
      steppers walk their arithmetic progression with the wrap-around.
    - Results.  [order_by_merges]: ordered streams merge into one ordered stream
      of all rows; [group_by_over_shards] and [aggregation_distributes]: groups
      and aggregates over the shards are those over all rows;
      [pipeline_yields]: fusing, filtering and transforming.
    - Identifiers.  [group_sequence_unique] and [snowflake_unique]: nodes never
      hand out an identifier twice; [worker_ids_distinct] and
      [snowflake_answers] give the assignment of numbers and progress;
      [group_failed_commit_repeats] and [number_1024_repeats] are the cases in
      which identifiers repeat; [sequence_manager_refines]: the manager is one
      registry.
    - Values.  Integers compare as integers whatever their types, and constant
      arithmetic evaluates to the exact integer.
    - Caches and text.  [lru_refines]: the cache is a list in the order of use;
      [literal_roundtrip]: a quoted text is read back by the lexer's rules;
      base 58 decodes what it encoded; an identifier pool hands out no
      identifier twice.
    - Wire.  Every encoding of integers and strings is read back from where it
      was written; a payload of any length survives the framing, and the
      generic responses reach the peer with their fields; readers stay inside
      the buffer on any bytes, and the lengths that make them panic are stated.
      [binary_row_roundtrip] and [text_row_roundtrip]: rows scan back to the
      cells written.  [old_scramble_exact]: the old scramble does not overflow.

    ** Bounds and fuel

    Machine integers are [Z] with explicit wrap-around.  Recursion that is not
    structural runs on fuel that the caller computes and a theorem shows to
    suffice: [AND] starts with [AND_bound] of its arguments ([AND_terminates]);
    the walk of a range with the number of its values; [ReverseSlice] with the
    length of the slice; [readPacket] with the bytes that have arrived and
    [writePacket] with the length of the payload ([packet_roundtrip]).  [Next] of
    a dataset takes a bound on the rows its loops skip, and [yields] asks that
    every bound from some number on gives the rows, so nothing is said of a loop
    cut short; fusing counts its generators, and the loops of a heap its
    elements.  Waiting for the clock consumes the list of the times it answers.
    The loops that read packets (attributes, columns, rows, discarding) start
    with the bytes they can consume plus one, and the command loop with the
    bytes that arrive, since every turn consumes at least a header
    ([handle_returned], [DrainResults_returns], [Discard_returns]).  The loop
    over a long text starts with its length plus one, which suffices if a packet
    has room for a byte of it ([writeCommandLongData_returns]).  A number of 64
    bits prints in twenty digits.  The theorems on buffers assume they are
    shorter than 2^62 bytes, which no Go slice exceeds.

    ** Code outside the repository

    The ordered tree, the decimal package, the text form of floats, dates, the
    generic binary search, Go's map iteration, the parser's operator names, the
    buffer pool, the databases, the parser of SQL, encryption with public keys,
    random bytes, the clock, the calendar of
    the host ([Location]) and the registered functions are arguments, with the documented
    behaviour the code relies on as laws.  Each has a concrete instance that
    satisfies the laws and on which the examples run.

    ** What is not modelled

    The planning of SELECT and of the statements that define data or
    administer the server, INSERT ... SELECT, joins, the SQL functions, the
    conversion of the parser's trees, the configuration and its comparison, TLS,
    data source names and session variables of the client, and parts that are
    input and output only (boot, administration, registry, logging, metrics,
    traces).  Memory is not exhausted.  The printing of SQL, the
    schema loader and the connection that runs a statement are arguments of the
    plans, and the theorems hold for all of them.  Outside of [Pool] and
    [Transaction] locks are left out: the modelled operations are sequential,
    the interleaving of nodes is the order of their calls, and the goroutines of
    an UPDATE interleave whole turns of their loops.  The methods of a pool are
    atomic but for a shrinking [SetCapacity]; within a transaction the calls of
    one plan come one after the other, and whether the log of transactions can be
    written is an answer of the environment.  A server serves one connection at
    a time, between the commands of which the others may have changed the shared
    state.  The write buffering of a connection, which delays
    bytes without changing them, is left out too. *)
From stdpp Require Export base list strings sets gmap sorting.
From Stdlib Require Export Ascii ZArith Lia Bool.
From stdpp Require Import options.

#[global] Unset Default Goal Selector.

Open Scope Z_scope.
Open Scope list_scope.

(** ** Go errors and outcomes *)

(** The sentinel errors the modelled packages compare with [errors.Is], an
    error made on the spot ([errors.New], [errors.Errorf]), an error that
    wraps another ([errors.Wrap], [errors.WithStack]), and the error of a MySQL
    server with its number, state and message (strings as their bytes). *)
Inductive error :=
| EOF
| ErrEmptyUnion
| ErrEmptyIntersection
| ErrNoShardMatched
| ErrTxClosed
| errNotValue
| NewError (msg : string)
| WrapError (inner : error)
| SQLError (num : Z) (state msg : list Z).

(** The result of a Go call: a value, a non-nil [error], a panic, or, for a
    definition that runs on fuel, exhausted fuel. *)
Inductive outcome (A : Type) :=
| Ok (a : A)
| Err (e : error)
| Panic
| OutOfFuel.
Arguments Ok {_} _.
Arguments Err {_} _.
Arguments Panic {_}.
Arguments OutOfFuel {_}.

#[global] Instance error_eq_dec : EqDecision error.
Proof. solve_decision. Defined.

(** [errors.Is]: the error itself or one it wraps is the target. *)
Fixpoint errors_Is (e target : error) : bool :=
  bool_decide (e = target) ||
  match e with
  | WrapError inner => errors_Is inner target
  | _ => false
  end.

#[global] Instance outcome_ret : MRet outcome := @Ok.
#[global] Instance outcome_bind : MBind outcome := λ A B f m,
  match m with
  | Ok a => f a
  | Err e => Err e
  | Panic => Panic
  | OutOfFuel => OutOfFuel
  end.

Definition is_ok {A} (m : outcome A) : bool :=
  match m with Ok _ => true | _ => false end.

Lemma bind_Ok_inv {A B} (m : outcome A) (f : A → outcome B) b :
  m ≫= f = Ok b → ∃ a, m = Ok a ∧ f a = Ok b.
Proof. destruct m; simpl; try discriminate. eauto. Qed.

(** A computation that does not run out of fuel. *)
Lemma bind_returns {A B} (m : outcome A) (f : A → outcome B) :
  m ≠ OutOfFuel → (∀ a, m = Ok a → f a ≠ OutOfFuel) → m ≫= f ≠ OutOfFuel.
Proof. destruct m; simpl; auto. Qed.

Lemma mapM_returns {A B} (f : A → outcome B) l :
  (∀ x, x ∈ l → f x ≠ OutOfFuel) → mapM f l ≠ OutOfFuel.
Proof.
  induction l as [|x l IH]; intros H; simpl; [done|].
  apply bind_returns; [apply H; set_solver|]. intros y _.
  apply bind_returns; [apply IH; set_solver|done].
Qed.

Lemma mapM_Ok {A B} (f : A → outcome B) l k :
  mapM f l = Ok k ↔ Forall2 (λ x y, f x = Ok y) l k.
Proof.
  revert k. induction l as [|x l IH]; intros k; simpl.
  - split; [intros [= <-]; constructor|by intros ->%Forall2_nil_inv_l].
  - split.
    + intros (y & Hy & (ys & Hys & [= <-])%bind_Ok_inv)%bind_Ok_inv.
      constructor; [done|by apply IH].
    + intros (y & ys & Hy & Hys & ->)%Forall2_cons_inv_l. rewrite Hy. simpl.
      apply IH in Hys. by rewrite Hys.
Qed.

(** Break the binds of every hypothesis [_ = Ok _]. *)
Ltac inv_ok :=
  repeat match goal with
  | H : Ok _ = Ok _ |- _ => injection H as H
  | H : _ ≫= _ = Ok _ |- _ =>
      let a := fresh "a" in let Ha := fresh "Ha" in
      apply bind_Ok_inv in H as (a & Ha & H)
  | H : Err _ = Ok _ |- _ => discriminate H
  | H : Panic = Ok _ |- _ => discriminate H
  | H : OutOfFuel = Ok _ |- _ => discriminate H
  | H : mret _ = Ok _ |- _ => injection H as H
  end.

(** ** Machine integers *)

Definition wrapU (w z : Z) : Z := z mod 2 ^ w.
Definition wrapS (w z : Z) : Z := (z + 2 ^ (w - 1)) mod 2 ^ w - 2 ^ (w - 1).

Abbreviation u8 := (wrapU 8).
Abbreviation u16 := (wrapU 16).
Abbreviation u32 := (wrapU 32).
Abbreviation u64 := (wrapU 64).
Abbreviation i32 := (wrapS 32).
Abbreviation i64 := (wrapS 64).

Definition inU (w z : Z) : Prop := 0 ≤ z < 2 ^ w.
Definition inS (w z : Z) : Prop := - 2 ^ (w - 1) ≤ z < 2 ^ (w - 1).

Lemma wrapU_id w z : inU w z → wrapU w z = z.
Proof. unfold inU, wrapU. intros ?. by apply Z.mod_small. Qed.

Lemma wrapU_range w z : 0 ≤ w → inU w (wrapU w z).
Proof. intros ?. unfold inU, wrapU. apply Z.mod_pos_bound. lia. Qed.

Lemma wrapS_id w z : 0 < w → inS w z → wrapS w z = z.
Proof.
  unfold inS, wrapS. intros Hw ?.
  assert (2 ^ w = 2 * 2 ^ (w - 1)) as E.
  { rewrite <- Z.pow_succ_r by lia. f_equal. lia. }
  rewrite Z.mod_small by lia. lia.
Qed.

Lemma wrapS_range w z : 0 < w → inS w (wrapS w z).
Proof.
  unfold inS, wrapS. intros Hw.
  assert (2 ^ w = 2 * 2 ^ (w - 1)) as E.
  { rewrite <- Z.pow_succ_r by lia. f_equal. lia. }
  pose proof (Z.mod_pos_bound (z + 2 ^ (w - 1)) (2 ^ w)). lia.
Qed.

(** Wrapping early or late is the same. *)
Lemma wrapS_add_l w a b : 0 < w → wrapS w (wrapS w a + b) = wrapS w (a + b).
Proof.
  intros Hw. unfold wrapS. f_equal.
  replace ((a + 2 ^ (w - 1)) mod 2 ^ w - 2 ^ (w - 1) + b + 2 ^ (w - 1))
    with ((a + 2 ^ (w - 1)) mod 2 ^ w + b) by lia.
  rewrite Z.add_mod_idemp_l by lia. f_equal. lia.
Qed.

Lemma wrapS_add_r w a b : 0 < w → wrapS w (a + wrapS w b) = wrapS w (a + b).
Proof. intros Hw. rewrite Z.add_comm, wrapS_add_l by done. f_equal. lia. Qed.

Lemma wrapS_period w a q : wrapS w (a + q * 2 ^ w) = wrapS w a.
Proof.
  unfold wrapS. f_equal.
  replace (a + q * 2 ^ w + 2 ^ (w - 1)) with (a + 2 ^ (w - 1) + q * 2 ^ w) by lia.
  apply Z_mod_plus_full.
Qed.

Lemma wrapS_shift w a : 0 < w → ∃ q, wrapS w a = a + q * 2 ^ w.
Proof.
  intros Hw. unfold wrapS. exists (- ((a + 2 ^ (w - 1)) / 2 ^ w)).
  pose proof (Z.div_mod (a + 2 ^ (w - 1)) (2 ^ w)). lia.
Qed.

Lemma wrapS_mul_r w a k b : 0 < w → wrapS w (a + k * wrapS w b) = wrapS w (a + k * b).
Proof.
  intros Hw. destruct (wrapS_shift w b Hw) as [q ->].
  replace (a + k * (b + q * 2 ^ w)) with (a + k * b + k * q * 2 ^ w) by lia. apply wrapS_period.
Qed.

(** ** Strings *)

(** [strings.Compare]: byte-wise lexicographic order as -1, 0 or 1. *)
Definition comparison_Z (c : comparison) : Z :=
  match c with Lt => -1 | Eq => 0 | Gt => 1 end.

Definition strings_Compare (a b : string) : Z := comparison_Z (String.compare a b).

Lemma comparison_Z_range c : comparison_Z c = -1 ∨ comparison_Z c = 0 ∨ comparison_Z c = 1.
Proof. destruct c; auto. Qed.

Lemma comparison_Z_opp c : comparison_Z (CompOpp c) = - comparison_Z c.
Proof. by destruct c. Qed.

Lemma strings_Compare_antisym a b : strings_Compare b a = - strings_Compare a b.
Proof. unfold strings_Compare. rewrite (String.compare_antisym b a). apply comparison_Z_opp. Qed.

Lemma strings_Compare_eq a b : strings_Compare a b = 0 ↔ a = b.
Proof.
  unfold strings_Compare. split.
  - intros H. apply String.compare_eq_iff. by destruct (String.compare a b).
  - intros ->. pose proof (String.compare_antisym b b) as H.
    by destruct (String.compare b b).
Qed.

(** The three-way answer of [x < y], [x > y], otherwise. *)
Definition compareZ (x y : Z) : Z := if x <? y then -1 else if x >? y then 1 else 0.

Lemma compareZ_antisym x y : compareZ y x = - compareZ x y.
Proof. unfold compareZ. repeat case_match; lia. Qed.

Lemma compareZ_eq x y : compareZ x y = 0 ↔ x = y.
Proof. unfold compareZ. repeat case_match; lia. Qed.

(** Bits below a shifted number. *)
Lemma lor_low n x y : 0 ≤ n → 0 ≤ y < 2 ^ n → Z.lor (Z.shiftl x n) y = x * 2 ^ n + y.
Proof.
  intros Hn Hy. rewrite Z.shiftl_mul_pow2 by lia.
  assert (Z.land (x * 2 ^ n) y = 0) as E; [|by rewrite Z.add_nocarry_lxor, Z.lxor_lor].
  rewrite <- (Z.mod_small y (2 ^ n)) by lia. apply Z.bits_inj'. intros m Hm. rewrite Z.land_spec, Z.bits_0.
  destruct (Z.lt_ge_cases m n).
  - by rewrite Z.mul_pow2_bits_low by lia.
  - by rewrite Z.mod_pow2_bits_high, andb_false_r by lia.
Qed.

(** Appending a byte to a number. *)
Lemma byte_lor acc v : 0 ≤ acc → Z.lor (Z.shiftl acc 8) (wrapU 8 v) = acc * 256 + v mod 256.
Proof. intros Ha. unfold wrapU. apply (lor_low 8); [lia|]. apply Z.mod_pos_bound. lia. Qed.
