(* ===== verification/BTree.v ===== *)
(** * The ordered-tree interface

    [pkg/proto/rule/shards.go] and [pkg/runtime/calc/logic/logic.go] keep
    their sets in the third-party package [github.com/google/btree].  Its code
    is not part of the repository, so a tree is a parameter here: [BTree] holds
    the operations the two packages call and [BTreeLaws] the behaviour the
    package documents for them.  [ListTree] is a concrete instance, used to
    evaluate the clients and to show that the laws can hold together. *)
From S2P Require Import Prelude.

(** A tree is observed through the list its [Ascend] walks.  [less] is the
    client's comparison; it may panic, and the panic crosses the tree. *)
Class BTree := {
  tree : Type → Type;
  bt_new : ∀ {A}, tree A;
  bt_items : ∀ {A}, tree A → list A;
  bt_insert : ∀ {A}, (A → A → outcome bool) → A → tree A → outcome (tree A);
  bt_delete : ∀ {A}, (A → A → outcome bool) → A → tree A → outcome (tree A);
}.

(** Two items the package treats as equal: neither is less than the other. *)
Definition bt_equal {A} (less : A → A → outcome bool) (x y : A) : Prop :=
  less x y = Ok false ∧ less y x = Ok false.

(** [less] always answers, and answers by the strict order [lt]. *)
Definition orders {A} (less : A → A → outcome bool) (lt : A → A → Prop) : Prop :=
  (∀ x y, ∃ b, less x y = Ok b ∧ (b = true ↔ lt x y)) ∧
  (∀ x, ¬ lt x x) ∧ (∀ x y z, lt x y → lt y z → lt x z) ∧
  (∀ x y, ¬ lt x y → ¬ lt y x → x = y).

Class BTreeLaws (B : BTree) : Prop := {
  bt_items_new A : bt_items (bt_new (A := A)) = [];
  (** [ReplaceOrInsert] adds the item; it displaces only an equal one. *)
  bt_insert_mem A (less : A → A → outcome bool) x (t t' : tree A) :
    bt_insert less x t = Ok t' →
    x ∈ bt_items t' ∧
    (∀ y, y ∈ bt_items t' → y = x ∨ y ∈ bt_items t) ∧
    (∀ y, y ∈ bt_items t → y ∈ bt_items t' ∨ bt_equal less x y);
  (** The tree itself never fails: it returns when the comparison does. *)
  bt_insert_total A (less : A → A → outcome bool) x (t : tree A) :
    (∀ y, y ∈ bt_items t → is_ok (less x y) = true ∧ is_ok (less y x) = true) →
    ∃ t', bt_insert less x t = Ok t';
  (** ... and it returns whenever the comparison returns. *)
  bt_insert_returns A (less : A → A → outcome bool) x (t : tree A) :
    (∀ y z, less y z ≠ OutOfFuel) → bt_insert less x t ≠ OutOfFuel;
  (** Under a strict order [Ascend] walks the items in that order. *)
  bt_insert_sorted A (less : A → A → outcome bool) lt x (t t' : tree A) :
    orders less lt → StronglySorted lt (bt_items t) →
    bt_insert less x t = Ok t' → StronglySorted lt (bt_items t');
  (** [Delete] removes the equal item and nothing else. *)
  bt_delete_mem A (less : A → A → outcome bool) lt x (t : tree A) :
    orders less lt → StronglySorted lt (bt_items t) →
    ∃ t', bt_delete less x t = Ok t' ∧ StronglySorted lt (bt_items t') ∧
      ∀ y, y ∈ bt_items t' ↔ y ∈ bt_items t ∧ y ≠ x;
}.

(** Inserting a batch of items one after the other. *)
Section BTreeFold.
Context {B : BTree} {BL : BTreeLaws B} {A : Type} (less : A → A → outcome bool).

Fixpoint bt_insert_all (xs : list A) (t : tree A) : outcome (tree A) :=
  match xs with
  | [] => Ok t
  | x :: xs => t ← bt_insert less x t; bt_insert_all xs t
  end.

(** What a batch leaves behind: every item is in the tree, or a chain of equal
    items of the batch and the tree displaced it. *)
Lemma bt_insert_all_mem (P : A → A → Prop) xs t t' :
  (∀ x, P x x) → (∀ x y z, P x y → P y z → P x z) →
  (∀ x y, x ∈ xs ++ bt_items t → y ∈ xs ++ bt_items t → bt_equal less x y → P y x) →
  bt_insert_all xs t = Ok t' →
  (∀ y, y ∈ bt_items t' → y ∈ xs ∨ y ∈ bt_items t) ∧
  (∀ y, y ∈ xs ∨ y ∈ bt_items t → ∃ z, z ∈ bt_items t' ∧ P y z).
Proof using BL.
  intros Hrefl Htrans. revert t. induction xs as [|x xs IH]; intros t Heq H; simpl in H.
  - injection H as <-. split; [auto|]. intros y [Hy|Hy]; [set_solver|eauto].
  - apply bind_Ok_inv in H as (t1 & H1 & H).
    destruct (bt_insert_mem _ _ _ _ _ H1) as (Hx & Hback & Hkeep).
    assert (∀ y, y ∈ xs ++ bt_items t1 → y ∈ (x :: xs) ++ bt_items t) as Hsub.
    { intros y [Hy|Hy]%elem_of_app; [set_solver|]. destruct (Hback y Hy); set_solver. }
    destruct (IH t1) as [IHb IHf]; [auto|done|]. split.
    + intros y Hy. destruct (IHb y Hy) as [?|Hy1]; [set_solver|].
      destruct (Hback y Hy1) as [->|?]; set_solver.
    + intros y Hy.
      assert (∃ z, (z ∈ xs ∨ z ∈ bt_items t1) ∧ P y z) as (z & Hz & Pyz).
      { rewrite elem_of_cons in Hy. destruct Hy as [[->|Hy]|Hy].
        - eauto.
        - eauto.
        - destruct (Hkeep y Hy) as [?|He]; [eauto|]. exists x. split; [auto|].
          apply Heq; [set_solver|set_solver|done]. }
      destruct (IHf z Hz) as (u & Hu & Pzu). eauto.
Qed.

Lemma bt_insert_all_total xs t :
  (∀ x y, x ∈ xs → y ∈ xs ∨ y ∈ bt_items t →
    is_ok (less x y) = true ∧ is_ok (less y x) = true) →
  ∃ t', bt_insert_all xs t = Ok t'.
Proof using BL.
  revert t. induction xs as [|x xs IH]; intros t H; simpl; [eauto|].
  destruct (bt_insert_total _ less x t) as [t1 H1].
  { intros y Hy. apply H; set_solver. }
  rewrite H1. simpl. apply IH. intros a b Ha Hb.
  destruct (bt_insert_mem _ _ _ _ _ H1) as (_ & Hback & _).
  apply H; [set_solver|]. destruct Hb as [Hb|Hb]; [set_solver|].
  destruct (Hback b Hb) as [->|?]; set_solver.
Qed.

Lemma bt_insert_all_returns xs t :
  (∀ y z, less y z ≠ OutOfFuel) → bt_insert_all xs t ≠ OutOfFuel.
Proof using BL.
  intros Hl. revert t. induction xs as [|x xs IH]; intros t; simpl; [done|].
  pose proof (bt_insert_returns _ less x t Hl) as Hr.
  destruct (bt_insert less x t); simpl; [auto|done..].
Qed.

Lemma bt_insert_all_sorted lt xs t t' :
  orders less lt → StronglySorted lt (bt_items t) →
  bt_insert_all xs t = Ok t' → StronglySorted lt (bt_items t').
Proof using BL.
  intros Ho. revert t. induction xs as [|x xs IH]; intros t Hs H; simpl in H.
  - congruence.
  - apply bind_Ok_inv in H as (t1 & H1 & H). eauto using bt_insert_sorted.
Qed.
End BTreeFold.

(** ** A concrete instance: ascending lists *)
Module ListTree.

Fixpoint insert {A} (less : A → A → outcome bool) (x : A) (l : list A) : outcome (list A) :=
  match l with
  | [] => Ok [x]
  | y :: l' =>
      xy ← less x y;
      if xy : bool then Ok (x :: y :: l') else
      yx ← less y x;
      if yx : bool then r ← insert less x l'; Ok (y :: r) else Ok (x :: l')
  end.

Fixpoint delete {A} (less : A → A → outcome bool) (x : A) (l : list A) : outcome (list A) :=
  match l with
  | [] => Ok []
  | y :: l' =>
      xy ← less x y;
      if xy : bool then Ok (y :: l') else
      yx ← less y x;
      if yx : bool then r ← delete less x l'; Ok (y :: r) else Ok l'
  end.

#[export] Instance instance : BTree := {|
  tree := list;
  bt_new := @nil;
  bt_items := λ A l, l;
  bt_insert := @insert;
  bt_delete := @delete;
|}.

Lemma insert_mem {A} (less : A → A → outcome bool) x t t' :
  insert less x t = Ok t' →
  x ∈ t' ∧ (∀ y, y ∈ t' → y = x ∨ y ∈ t) ∧
  (∀ y, y ∈ t → y ∈ t' ∨ bt_equal less x y).
Proof.
  revert t'. induction t as [|y l IH]; intros t' H; simpl in H.
  - injection H as <-. set_solver.
  - apply bind_Ok_inv in H as (xy & Hxy & H). destruct xy.
    + injection H as <-. set_solver.
    + apply bind_Ok_inv in H as (yx & Hyx & H). destruct yx.
      * apply bind_Ok_inv in H as (r & Hr & H). injection H as <-.
        destruct (IH r Hr) as (? & ? & IH3).
        split; [set_solver|]. split; [set_solver|].
        intros z Hz. rewrite elem_of_cons in Hz. destruct Hz as [->|Hz]; [set_solver|].
        destruct (IH3 z Hz); set_solver.
      * injection H as <-. split; [set_solver|]. split; [set_solver|].
        intros z Hz. rewrite elem_of_cons in Hz. destruct Hz as [->|Hz]; [|set_solver].
        right. by split.
Qed.

Lemma insert_sorted {A} (less : A → A → outcome bool) lt x t t' :
  orders less lt → StronglySorted lt t → insert less x t = Ok t' → StronglySorted lt t'.
Proof.
  intros (Hl & Hirr & Htr & Htot) Hs. revert t'.
  induction Hs as [|y l Hs IH Hy]; intros t' H; simpl in H.
  - injection H as <-. repeat constructor.
  - destruct (Hl x y) as (xy & Exy & Hxy). rewrite Exy in H. simpl in H. destruct xy.
    + injection H as <-. assert (lt x y) by (by apply Hxy).
      repeat constructor; auto. eapply Forall_impl; [exact Hy|]. eauto.
    + destruct (Hl y x) as (yx & Eyx & Hyx). rewrite Eyx in H. simpl in H. destruct yx.
      * apply bind_Ok_inv in H as (r & Hr & H). injection H as <-.
        destruct (insert_mem _ _ _ _ Hr) as (_ & Hback & _). constructor; [eauto|].
        apply Forall_forall. intros z Hz. destruct (Hback z Hz) as [->|Hz'].
        { by apply Hyx. } rewrite Forall_forall in Hy. auto.
      * injection H as <-. assert (x = y) as ->.
        { apply Htot; [rewrite <- Hxy; auto|rewrite <- Hyx; auto]. }
        by constructor.
Qed.

Lemma insert_total {A} (less : A → A → outcome bool) x t :
  (∀ y, y ∈ t → is_ok (less x y) = true ∧ is_ok (less y x) = true) →
  ∃ t', insert less x t = Ok t'.
Proof.
  induction t as [|y l IH]; intros H; simpl; [eauto|].
  destruct (H y) as [H1 H2]; [set_solver|].
  destruct (less x y) as [[]| | |] eqn:E1; try discriminate; simpl; [eauto|].
  destruct (less y x) as [[]| | |] eqn:E2; try discriminate; simpl; [|eauto].
  destruct IH as [r ->]; [set_solver|]. simpl. eauto.
Qed.

Lemma insert_returns {A} (less : A → A → outcome bool) x t :
  (∀ y z, less y z ≠ OutOfFuel) → insert less x t ≠ OutOfFuel.
Proof.
  intros Hl. induction t as [|y l IH]; simpl; [done|].
  pose proof (Hl x y) as H1. pose proof (Hl y x) as H2.
  destruct (less x y) as [[]| | |]; simpl; try done.
  destruct (less y x) as [[]| | |]; simpl; try done.
  destruct (insert less x l); simpl; done.
Qed.

Lemma delete_mem {A} (less : A → A → outcome bool) lt x t :
  orders less lt → StronglySorted lt t →
  ∃ t', delete less x t = Ok t' ∧ StronglySorted lt t' ∧
    ∀ y, y ∈ t' ↔ y ∈ t ∧ y ≠ x.
Proof.
  intros (Hl & Hirr & Htr & Htot) Hs.
  induction Hs as [|y l Hs IH Hy]; simpl.
  - exists []. split; [done|]. split; [constructor|set_solver].
  - rewrite Forall_forall in Hy.
    destruct (Hl x y) as (xy & Exy & Hxy). rewrite Exy. simpl. destruct xy.
    + assert (lt x y) as Hlt by (by apply Hxy).
      exists (y :: l). split; [done|].
      split; [constructor; [done|by apply Forall_forall]|].
      intros z. split; [|tauto]. intros Hz. split; [done|]. intros ->.
      rewrite elem_of_cons in Hz. destruct Hz as [->|Hz]; [by eapply Hirr|].
      eapply Hirr, Htr; eauto.
    + destruct (Hl y x) as (yx & Eyx & Hyx). rewrite Eyx. simpl. destruct yx.
      * destruct IH as (r & -> & Hr & Hm). simpl. exists (y :: r). split; [done|].
        assert (lt y x) as Hlt by (by apply Hyx). split.
        { constructor; [done|]. apply Forall_forall. set_solver. }
        intros z. rewrite !elem_of_cons, Hm. split; [|tauto].
        intros [->|?]; [|tauto]. split; [auto|]. intros ->. by eapply Hirr.
      * assert (x = y) as <-.
        { apply Htot; [rewrite <- Hxy; auto|rewrite <- Hyx; auto]. }
        exists l. split; [done|]. split; [done|]. intros z. rewrite elem_of_cons.
        split; [|tauto]. intros Hz. split; [auto|]. intros ->. eapply Hirr, Hy, Hz.
Qed.

#[export] Instance laws : BTreeLaws instance.
Proof.
  split; simpl; eauto using @insert_mem, @insert_total, @insert_returns, @insert_sorted, @delete_mem.
Qed.
End ListTree.
