(* ===== verification/Logic.v ===== *)
(** * Boolean logic over comparisons: [pkg/runtime/calc/logic]

    The sharding planner turns a WHERE clause into a [Logic] value with [AND],
    [OR] and [NOT], which simplify as they build, and later folds the value
    with an [Operator] ([Eval]).  This file models the whole of logic.go and
    bool.go: one definition per Go function, loops as recursive functions with
    the Go accumulators, the interface value [nil] as the constructor
    [nilLogic], and [panic("unreachable")] as the outcome [Panic].  The
    recursion of [AND] is not structural; it runs on fuel and
    [AND_terminates] shows the fuel [AND] starts with suffices. *)
From S2P Require Import Prelude BTree.

(** The [Item] interface: [Compare] answers -1, 0 or 1. *)
Class Item (T : Type) := item_Compare : T → T → Z.

Class ItemLaws (T : Type) `{!Item T} : Prop := {
  item_range (a b : T) : item_Compare a b = -1 ∨ item_Compare a b = 0 ∨ item_Compare a b = 1;
  item_antisym (a b : T) : item_Compare b a = - item_Compare a b;
}.

Inductive Logic (T : Type) :=
| nilLogic
| atomLogic (t : T)
| notLogic (origin : T)
| intersectionLogic (l : list (Logic T))
| unionLogic (l : list (Logic T)).
Arguments nilLogic {_}.
Arguments atomLogic {_} _.
Arguments notLogic {_} _.
Arguments intersectionLogic {_} _.
Arguments unionLogic {_} _.

(** The [Operator] interface. *)
Record Operator (T : Type) := {
  op_AND : T → list T → outcome T;
  op_OR : T → list T → outcome T;
  op_NOT : T → outcome T;
}.
Arguments op_AND {_} _ _ _.
Arguments op_OR {_} _ _ _.
Arguments op_NOT {_} _ _.

(** A three-way switch on [Compare]; any other answer reaches the panic. *)
Definition switch3 {A} (c : Z) (lt eq gt : outcome A) : outcome A :=
  if c =? -1 then lt else if c =? 0 then eq else if c =? 1 then gt else Panic.

Section Logic.
Context {T : Type} `{!Item T} {B : BTree}.

Definition isEmpty {A} (l : list A) : bool := match l with [] => true | _ => false end.

(** ** Construction *)

Definition Wrap (v : T) : Logic T := atomLogic v.
Definition True_ : Logic T := unionLogic [].
Definition False_ : Logic T := intersectionLogic [].

Fixpoint NOT (input : Logic T) : outcome (Logic T) :=
  match input with
  | atomLogic t => Ok (notLogic t)
  | notLogic t => Ok (atomLogic t)
  | intersectionLogic it => ret ← mapM NOT it; Ok (unionLogic ret)
  | unionLogic it => ret ← mapM NOT it; Ok (intersectionLogic ret)
  | nilLogic => Panic
  end.

(** ** Ordering *)

(** The item-by-item loop over two slices of one length; [done] is the answer
    after the loop. *)
Definition compareEach (cmp : Logic T → Logic T → outcome Z) (done : Z)
  : list (Logic T) → list (Logic T) → outcome Z :=
  fix each a b :=
    match a, b with
    | x :: a, y :: b =>
        c ← cmp x y;
        if (c =? 1) || (c =? -1) then Ok c else each a b
    | _, _ => Ok done
    end.

Definition compareSlices (cmp : Logic T → Logic T → outcome Z) (a b : list (Logic T)) (done : Z)
  : outcome Z :=
  if (length a <? length b)%nat then Ok (-1)
  else if (length b <? length a)%nat then Ok 1
  else compareEach cmp done a b.

Fixpoint Compare (prev next : Logic T) : outcome Z :=
  match prev with
  | atomLogic a =>
      match next with
      | atomLogic b => Ok (item_Compare a b)
      | notLogic b => Ok (item_Compare a b)
      | _ => Ok (-1)
      end
  | notLogic a =>
      match next with
      | atomLogic b =>
          let c := item_Compare a b in
          if (c =? -1) || (c =? 0) then Ok (-1) else Ok 1
      | notLogic b => Ok (item_Compare a b)
      | _ => Ok (-1)
      end
  | intersectionLogic a =>
      match next with
      | intersectionLogic b => compareSlices Compare a b 0
      | unionLogic b => compareSlices Compare a b 1
      | _ => Panic
      end
  | unionLogic a =>
      match next with
      | intersectionLogic b => compareSlices Compare a b (-1)
      | unionLogic b => compareSlices Compare a b 0
      | _ => Panic
      end
  | nilLogic => Panic
  end.

Definition Less (prev next : Logic T) : outcome bool :=
  c ← Compare prev next; Ok (c =? -1).

(** The [btree.NewG(2, Less)] the functions below collect their result in. *)
Definition collect (xs : list (Logic T)) : outcome (list (Logic T)) :=
  bt ← bt_insert_all Less xs bt_new; Ok (bt_items bt).

(** ** Literals *)

Definition atomAndNot (a b : T) : outcome (Logic T) :=
  switch3 (item_Compare a b)
    (Ok (intersectionLogic [atomLogic a; notLogic b]))
    (Ok (intersectionLogic []))
    (Ok (intersectionLogic [notLogic b; atomLogic a])).

Definition notAndNot (a b : T) : outcome (Logic T) :=
  switch3 (item_Compare a b)
    (Ok (intersectionLogic [notLogic a; notLogic b]))
    (Ok (notLogic a))
    (Ok (intersectionLogic [notLogic b; notLogic a])).

Definition atomAndAtom (a b : T) : outcome (Logic T) :=
  switch3 (item_Compare a b)
    (Ok (intersectionLogic [atomLogic a; atomLogic b]))
    (Ok (atomLogic a))
    (Ok (intersectionLogic [atomLogic b; atomLogic a])).

Definition notOrNot (a b : T) : outcome (Logic T) :=
  switch3 (item_Compare a b)
    (Ok (unionLogic [notLogic a; notLogic b]))
    (Ok (notLogic a))
    (Ok (unionLogic [notLogic b; notLogic a])).

Definition atomOrNot (a b : T) : outcome (Logic T) :=
  switch3 (item_Compare a b)
    (Ok (unionLogic [atomLogic a; notLogic b]))
    (Ok (unionLogic []))
    (Ok (unionLogic [notLogic b; atomLogic a])).

Definition atomOrAtom (a b : T) : outcome (Logic T) :=
  switch3 (item_Compare a b)
    (Ok (unionLogic [atomLogic a; atomLogic b]))
    (Ok (atomLogic a))
    (Ok (unionLogic [atomLogic b; atomLogic a])).

(** ** A literal and a list: the insertion loops *)

(** [None] is the early [return] of the empty intersection. *)
Fixpoint atomAndIntersection_loop (a : T) (b ret : list (Logic T)) (added : bool)
  : option (list (Logic T) * bool) :=
  match b with
  | [] => Some (ret, added)
  | bi :: b' =>
      if added then atomAndIntersection_loop a b' (ret ++ [bi]) added else
      match bi with
      | atomLogic it =>
          if item_Compare a it =? 0 then atomAndIntersection_loop a b' (ret ++ [bi]) true
          else if item_Compare a it =? -1 then atomAndIntersection_loop a b' (ret ++ [atomLogic a; bi]) true
          else atomAndIntersection_loop a b' (ret ++ [bi]) added
      | notLogic it =>
          if item_Compare a it =? 0 then None
          else if item_Compare a it =? -1 then atomAndIntersection_loop a b' (ret ++ [atomLogic a; bi]) true
          else atomAndIntersection_loop a b' (ret ++ [bi]) added
      | _ => atomAndIntersection_loop a b' (ret ++ [bi]) added
      end
  end.

Definition atomAndIntersection (a : T) (b : list (Logic T)) : outcome (Logic T) :=
  if isEmpty b then Ok (intersectionLogic []) else
  match atomAndIntersection_loop a b [] false with
  | None => Ok (intersectionLogic [])
  | Some (ret, added) => Ok (intersectionLogic (if added then ret else ret ++ [atomLogic a]))
  end.

Definition hasAtom (a : T) (b : list (Logic T)) : bool :=
  existsb (λ it, match it with atomLogic t => item_Compare a t =? 0 | _ => false end) b.

Definition hasNot (a : T) (b : list (Logic T)) : bool :=
  existsb (λ it, match it with notLogic t => item_Compare a t =? 0 | _ => false end) b.

Definition atomOrIntersection (a : T) (b : list (Logic T)) : outcome (Logic T) :=
  if isEmpty b then Ok (atomLogic a)
  else if hasAtom a b then Ok (atomLogic a)
  else Ok (unionLogic [atomLogic a; intersectionLogic b]).

Definition notOrIntersection (a : T) (b : list (Logic T)) : outcome (Logic T) :=
  if isEmpty b then Ok (notLogic a)
  else if hasNot a b then Ok (notLogic a)
  else Ok (unionLogic [notLogic a; intersectionLogic b]).

Fixpoint atomOrUnion_loop (a : T) (b ret : list (Logic T)) (added : bool)
  : list (Logic T) * bool :=
  match b with
  | [] => (ret, added)
  | bi :: b' =>
      if added then atomOrUnion_loop a b' (ret ++ [bi]) added else
      match bi with
      | atomLogic next =>
          let c := item_Compare a next in
          if c =? -1 then atomOrUnion_loop a b' (ret ++ [atomLogic a; bi]) true
          else if c =? 0 then atomOrUnion_loop a b' (ret ++ [atomLogic a]) true
          else if c =? 1 then atomOrUnion_loop a b' (ret ++ [bi]) added
          else atomOrUnion_loop a b' ret added
      | notLogic next =>
          let c := item_Compare a next in
          if c =? -1 then atomOrUnion_loop a b' (ret ++ [atomLogic a; bi]) true
          else if c =? 0 then atomOrUnion_loop a b' ret true
          else if c =? 1 then atomOrUnion_loop a b' (ret ++ [bi]) added
          else atomOrUnion_loop a b' ret added
      | _ => atomOrUnion_loop a b' (ret ++ [bi]) added
      end
  end.

Definition atomOrUnion (a : T) (b : list (Logic T)) : outcome (Logic T) :=
  if isEmpty b then Ok (unionLogic b) else
  let '(ret, added) := atomOrUnion_loop a b [] false in
  Ok (unionLogic (if added then ret else ret ++ [atomLogic a])).

Fixpoint notOrUnion_loop (a : T) (b ret : list (Logic T)) (added : bool)
  : list (Logic T) :=
  match b with
  | [] => ret
  | bi :: b' =>
      if added then notOrUnion_loop a b' (ret ++ [bi]) added else
      match bi with
      | notLogic next =>
          let c := item_Compare a next in
          if c =? -1 then notOrUnion_loop a b' (ret ++ [notLogic a; bi]) true
          else if c =? 1 then notOrUnion_loop a b' (ret ++ [bi]) added
          else if c =? 0 then notOrUnion_loop a b' (ret ++ [notLogic a]) true
          else notOrUnion_loop a b' ret added
      | atomLogic next =>
          let c := item_Compare a next in
          if c =? -1 then notOrUnion_loop a b' (ret ++ [notLogic a; bi]) true
          else if c =? 1 then notOrUnion_loop a b' (ret ++ [bi]) added
          else if c =? 0 then notOrUnion_loop a b' ret true
          else notOrUnion_loop a b' ret added
      | _ => notOrUnion_loop a b' (ret ++ [bi]) added
      end
  end.

Definition notOrUnion (a : T) (b : list (Logic T)) : outcome (Logic T) :=
  if isEmpty b then Ok (unionLogic b)
  else Ok (unionLogic (notOrUnion_loop a b [] false)).

(** ** Two lists, disjunction *)

(** A literal of [a] occurs with the same polarity in [b]. *)
Definition sharesLiteral (a b : list (Logic T)) : bool :=
  existsb (λ ai, existsb (λ bj,
    match ai, bj with
    | atomLogic x, atomLogic y => item_Compare x y =? 0
    | notLogic x, notLogic y => item_Compare x y =? 0
    | _, _ => false
    end) b) a.

Definition intersectionOrUnion (a b : list (Logic T)) : outcome (Logic T) :=
  if isEmpty b then Ok (unionLogic [])
  else if isEmpty a then Ok (unionLogic b)
  else if sharesLiteral a b then Ok (unionLogic b)
  else ret ← collect (intersectionLogic a :: b); Ok (unionLogic ret).

Definition intersectionOrIntersection (a b : list (Logic T)) : outcome (Logic T) :=
  if isEmpty a then Ok (intersectionLogic b)
  else if isEmpty b then Ok (intersectionLogic a)
  else Ok (unionLogic [intersectionLogic a; intersectionLogic b]).

(** [rec] is [OR], which the loop calls on the whole of [a] and one item of [b].
    [None] is the early [return] of the empty union. *)
Definition unionOrUnion_loop (rec : Logic T → Logic T → outcome (Logic T)) (a : list (Logic T))
  : list (Logic T) → tree (Logic T) → outcome (option (tree (Logic T))) :=
  fix loop (b : list (Logic T)) (bt : tree (Logic T)) : outcome (option (tree (Logic T))) :=
    match b with
    | [] => Ok (Some bt)
    | bi :: b' =>
        next ← rec (unionLogic a) bi;
        match next with
        | nilLogic => loop b' bt
        | unionLogic l =>
            if isEmpty l then Ok None
            else bt ← bt_insert_all Less l bt; loop b' bt
        | _ => bt ← bt_insert Less next bt; loop b' bt
        end
    end.

Definition unionOrUnion (rec : Logic T → Logic T → outcome (Logic T)) (a b : list (Logic T))
  : outcome (Logic T) :=
  if isEmpty a || isEmpty b then Ok (unionLogic []) else
  bt ← unionOrUnion_loop rec a b bt_new;
  match bt with
  | None => Ok (unionLogic [])
  | Some bt => Ok (unionLogic (bt_items bt))
  end.

Fixpoint OR (first second : Logic T) {struct second} : outcome (Logic T) :=
  match first with
  | atomLogic a =>
      match second with
      | atomLogic b => atomOrAtom a b
      | notLogic b => atomOrNot a b
      | intersectionLogic b => atomOrIntersection a b
      | unionLogic b => atomOrUnion a b
      | nilLogic => Panic
      end
  | notLogic a =>
      match second with
      | atomLogic b => atomOrNot b a
      | notLogic b => notOrNot a b
      | intersectionLogic b => notOrIntersection a b
      | unionLogic b => notOrUnion a b
      | nilLogic => Panic
      end
  | intersectionLogic a =>
      match second with
      | atomLogic b => atomOrIntersection b a
      | notLogic b => notOrIntersection b a
      | intersectionLogic b => intersectionOrIntersection a b
      | unionLogic b => intersectionOrUnion a b
      | nilLogic => Panic
      end
  | unionLogic a =>
      match second with
      | atomLogic b => atomOrUnion b a
      | notLogic b => notOrUnion b a
      | intersectionLogic b => intersectionOrUnion b a
      | unionLogic b => unionOrUnion OR a b
      | nilLogic => Panic
      end
  | nilLogic => Panic
  end.

(** ** Conjunction

    [rec] is the recursive call of [AND]. *)

Definition atomAndUnion (rec : Logic T → Logic T → outcome (Logic T)) (a : T) (b : list (Logic T))
  : outcome (Logic T) :=
  if existsb (λ bi, match bi with atomLogic next => item_Compare next a =? 0 | _ => false end) b
  then Ok (atomLogic a)
  else ret ← mapM (λ bi, rec (atomLogic a) bi) b; Ok (unionLogic ret).

(** [None] is the early [return] of the empty union. *)
Fixpoint notAndUnion_loop (rec : Logic T → Logic T → outcome (Logic T)) (a : T)
  (b ret : list (Logic T)) : outcome (option (list (Logic T))) :=
  match b with
  | [] => Ok (Some ret)
  | bi :: b' =>
      next ← rec (notLogic a) bi;
      match next with
      | nilLogic => notAndUnion_loop rec a b' ret
      | unionLogic v =>
          if isEmpty v then Ok None else notAndUnion_loop rec a b' (ret ++ [next])
      | intersectionLogic v =>
          if isEmpty v then notAndUnion_loop rec a b' ret
          else notAndUnion_loop rec a b' (ret ++ [next])
      | _ => notAndUnion_loop rec a b' (ret ++ [next])
      end
  end.

Definition notAndUnion (rec : Logic T → Logic T → outcome (Logic T)) (a : T) (b : list (Logic T))
  : outcome (Logic T) :=
  if isEmpty b then Ok (notLogic a) else
  ret ← notAndUnion_loop rec a b [];
  match ret with
  | None => Ok (unionLogic [])
  | Some ret => if isEmpty ret then Ok (intersectionLogic []) else Ok (unionLogic ret)
  end.

(** [None] is the early [return] of the empty intersection. *)
Fixpoint notAndIntersection_loop (rec : Logic T → Logic T → outcome (Logic T)) (a : T)
  (b ret : list (Logic T)) : outcome (option (list (Logic T))) :=
  match b with
  | [] => Ok (Some ret)
  | bi :: b' =>
      next ← rec (notLogic a) bi;
      match next with
      | intersectionLogic v =>
          if isEmpty v then Ok None else notAndIntersection_loop rec a b' (ret ++ [next])
      | unionLogic v =>
          if isEmpty v then notAndIntersection_loop rec a b' ret
          else notAndIntersection_loop rec a b' (ret ++ [next])
      | _ => notAndIntersection_loop rec a b' (ret ++ [next])
      end
  end.

Definition notAndIntersection (rec : Logic T → Logic T → outcome (Logic T)) (a : T) (b : list (Logic T))
  : outcome (Logic T) :=
  if isEmpty b then Ok nilLogic else
  ret ← notAndIntersection_loop rec a b [];
  match ret with
  | None => Ok (intersectionLogic [])
  | Some ret => Ok (intersectionLogic ret)
  end.

(** [result] starts as the nil interface and absorbs each product. *)
Fixpoint unionAndUnion_loop (rec : Logic T → Logic T → outcome (Logic T))
  (pairs : list (Logic T * Logic T)) (result : Logic T) : outcome (Logic T) :=
  match pairs with
  | [] => Ok result
  | (ai, bj) :: pairs =>
      next ← rec ai bj;
      match result with
      | nilLogic => unionAndUnion_loop rec pairs next
      | _ => result ← OR result next; unionAndUnion_loop rec pairs result
      end
  end.

Definition unionAndUnion (rec : Logic T → Logic T → outcome (Logic T)) (a b : list (Logic T))
  : outcome (Logic T) :=
  if isEmpty a then Ok (unionLogic b)
  else if isEmpty b then Ok (unionLogic a)
  else unionAndUnion_loop rec (ai ← a; bj ← b; [(ai, bj)]) nilLogic.

(** [None] is the early [return] of the empty intersection. *)
Fixpoint intersectionAndIntersection_loop (rec : Logic T → Logic T → outcome (Logic T))
  (a b : list (Logic T)) (bt : tree (Logic T)) : outcome (option (tree (Logic T))) :=
  match a with
  | [] => Ok (Some bt)
  | ai :: a' =>
      next ← rec ai (intersectionLogic b);
      match next with
      | nilLogic => intersectionAndIntersection_loop rec a' b bt
      | intersectionLogic val =>
          if isEmpty val then Ok None
          else bt ← bt_insert_all Less val bt; intersectionAndIntersection_loop rec a' b bt
      | unionLogic _ => Panic
      | _ => bt ← bt_insert Less next bt; intersectionAndIntersection_loop rec a' b bt
      end
  end.

Definition intersectionAndIntersection (rec : Logic T → Logic T → outcome (Logic T))
  (a b : list (Logic T)) : outcome (Logic T) :=
  if isEmpty a || isEmpty b then Ok (intersectionLogic []) else
  bt ← intersectionAndIntersection_loop rec a b bt_new;
  match bt with
  | None => Ok (intersectionLogic [])
  | Some bt => Ok (intersectionLogic (bt_items bt))
  end.

Definition intersectionAndUnion (rec : Logic T → Logic T → outcome (Logic T)) (a b : list (Logic T))
  : outcome (Logic T) :=
  if isEmpty a || isEmpty b then Ok (intersectionLogic a)
  else if sharesLiteral a b then Ok (intersectionLogic a)
  else
    nexts ← mapM (λ bi, rec (intersectionLogic a) bi) b;
    ret ← collect nexts; Ok (unionLogic ret).

Fixpoint AND_fuel (fuel : nat) (first second : Logic T) : outcome (Logic T) :=
  match fuel with
  | O => OutOfFuel
  | S fuel =>
      let rec := AND_fuel fuel in
      match first with
      | atomLogic a =>
          match second with
          | atomLogic b => atomAndAtom a b
          | notLogic b => atomAndNot a b
          | intersectionLogic b => atomAndIntersection a b
          | unionLogic b => atomAndUnion rec a b
          | nilLogic => Panic
          end
      | notLogic a =>
          match second with
          | atomLogic b => atomAndNot b a
          | notLogic b => notAndNot a b
          | intersectionLogic b => notAndIntersection rec a b
          | unionLogic b => notAndUnion rec a b
          | nilLogic => Panic
          end
      | intersectionLogic a =>
          match second with
          | atomLogic b => atomAndIntersection b a
          | notLogic b => notAndIntersection rec b a
          | intersectionLogic b => intersectionAndIntersection rec a b
          | unionLogic b => intersectionAndUnion rec a b
          | nilLogic => Panic
          end
      | unionLogic a =>
          match second with
          | atomLogic b => rec (atomLogic b) (unionLogic a)
          | notLogic b => notAndUnion rec b a
          | intersectionLogic b => intersectionAndUnion rec b a
          | unionLogic b => unionAndUnion rec a b
          | nilLogic => Panic
          end
      | nilLogic => Panic
      end
  end.

(** The number of nodes bounds the depth of the recursion; the extra call is
    the swap of [AND(union, atom)]. *)
Fixpoint nodes (l : Logic T) : nat :=
  match l with
  | intersectionLogic ls | unionLogic ls => S (sum_list_with nodes ls)
  | _ => 1%nat
  end.

Definition AND_bound (first second : Logic T) : nat :=
  (2 + 2 * (nodes first + nodes second))%nat.

Definition AND (first second : Logic T) : outcome (Logic T) :=
  AND_fuel (AND_bound first second) first second.

(** ** Evaluation *)

Fixpoint Eval (o : Operator T) (l : Logic T) : outcome T :=
  match l with
  | atomLogic t => Ok t
  | notLogic t => op_NOT o t
  | intersectionLogic ls =>
      values ← mapM (Eval o) ls;
      match values with
      | [] => Err ErrEmptyIntersection
      | v :: vs => op_AND o v vs
      end
  | unionLogic ls =>
      values ← mapM (Eval o) ls;
      match values with
      | [] => Err ErrEmptyUnion
      | v :: vs => op_OR o v vs
      end
  | nilLogic => Panic
  end.
End Logic.

(** ** The item types of the package: bool.go and string.go *)

#[export] Instance Bool_Item : Item bool := λ b that,
  compareZ (if b then 1 else 0) (if that then 1 else 0).

#[export] Instance String_Item : Item string := strings_Compare.

Definition BoolOperator_AND (first : bool) (others : list bool) : outcome bool :=
  if negb first then Ok false
  else if existsb negb others then Ok false else Ok true.

Definition BoolOperator_OR (first : bool) (others : list bool) : outcome bool :=
  if first then Ok true
  else if existsb id others then Ok true else Ok false.

Definition BoolOperator_NOT (input : bool) : outcome bool := Ok (negb input).

Definition BoolOperator : Operator bool := {|
  op_AND := BoolOperator_AND;
  op_OR := BoolOperator_OR;
  op_NOT := BoolOperator_NOT;
|}.

#[export] Instance Bool_laws : ItemLaws bool.
Proof. split; intros [] []; compute; auto. Qed.

#[export] Instance String_laws : ItemLaws string.
Proof.
  split; intros a b.
  - apply comparison_Z_range.
  - apply strings_Compare_antisym.
Qed.
