(* ===== verification/LogicTheory.v ===== *)
(** * What [AND], [OR], [NOT] and [Eval] mean

    [sat v l] is the truth of a formula under a valuation [v] of its items.
    The theorems relate every constructor function of [Logic.v] to it. *)
From S2P Require Import Prelude BTree Logic.
From Stdlib Require Import Btauto.

(** The empty intersection is False and the empty union is True (logic.go,
    [True] and [False]). *)
Fixpoint sat {T} (v : T → bool) (l : Logic T) : bool :=
  match l with
  | nilLogic => false
  | atomLogic t => v t
  | notLogic t => negb (v t)
  | intersectionLogic ls => negb (isEmpty ls) && forallb (sat v) ls
  | unionLogic ls => isEmpty ls || existsb (sat v) ls
  end.

(** No [notLogic] and no nil interface anywhere, and every item in [d]. *)
Fixpoint positiveIn {T} (d : T → bool) (l : Logic T) : bool :=
  match l with
  | nilLogic | notLogic _ => false
  | atomLogic t => d t
  | intersectionLogic ls | unionLogic ls => forallb (positiveIn d) ls
  end.

(** No nil interface anywhere. *)
Fixpoint nilFree {T} (l : Logic T) : bool :=
  match l with
  | nilLogic => false
  | atomLogic _ | notLogic _ => true
  | intersectionLogic ls | unionLogic ls => forallb nilFree ls
  end.

(** No empty union, that is no [True], anywhere. *)
Fixpoint noTrue {T} (l : Logic T) : bool :=
  match l with
  | intersectionLogic ls => forallb noTrue ls
  | unionLogic ls => negb (isEmpty ls) && forallb noTrue ls
  | _ => true
  end.

Create HintDb logic.

Lemma Logic_nested_ind {T} (P : Logic T → Prop) :
  P nilLogic → (∀ t, P (atomLogic t)) → (∀ t, P (notLogic t)) →
  (∀ ls, Forall P ls → P (intersectionLogic ls)) →
  (∀ ls, Forall P ls → P (unionLogic ls)) →
  ∀ l, P l.
Proof.
  intros Hnil Hatom Hnot Hint Huni. fix IH 1. intros [|t|t|ls|ls].
  - exact Hnil.
  - apply Hatom.
  - apply Hnot.
  - apply Hint. induction ls as [|x ls IHls]; constructor; [apply IH|exact IHls].
  - apply Huni. induction ls as [|x ls IHls]; constructor; [apply IH|exact IHls].
Qed.

Lemma forallb_forall_elem {A} (f : A → bool) l :
  forallb f l = true ↔ ∀ x, x ∈ l → f x = true.
Proof. rewrite forallb_forall. by setoid_rewrite list_elem_of_In. Qed.

Lemma existsb_exists_elem {A} (f : A → bool) l :
  existsb f l = true ↔ ∃ x, x ∈ l ∧ f x = true.
Proof. rewrite existsb_exists. by setoid_rewrite list_elem_of_In. Qed.

(** Two lists whose items match, up to [sat], in both directions. *)
Lemma satAll_match {A} (f : A → bool) xs ys :
  (∀ y, y ∈ ys → ∃ x, x ∈ xs ∧ f x = f y) →
  (∀ x, x ∈ xs → ∃ y, y ∈ ys ∧ f x = f y) →
  forallb f ys = forallb f xs ∧ existsb f ys = existsb f xs.
Proof.
  intros H1 H2. split; apply eq_true_iff_eq.
  - rewrite !forallb_forall_elem. split.
    + intros H x Hx. destruct (H2 x Hx) as (y & Hy & ->). auto.
    + intros H y Hy. destruct (H1 y Hy) as (x & Hx & <-). auto.
  - rewrite !existsb_exists_elem. split.
    + intros (y & Hy & Hf). destruct (H1 y Hy) as (x & Hx & E). rewrite <- E in Hf. eauto.
    + intros (x & Hx & Hf). destruct (H2 x Hx) as (y & Hy & E). rewrite E in Hf. eauto.
Qed.

Lemma isEmpty_false {A} (l : list A) x : x ∈ l → isEmpty l = false.
Proof. destruct l; [set_solver|done]. Qed.

Section Theory.
Context {T : Type} `{!Item T} {IL : ItemLaws T} {B : BTree} {BL : BTreeLaws B}.
Context (d : T → bool) (v : T → bool).
Context (v_ok : ∀ a b, d a = true → d b = true → item_Compare a b = 0 → v a = v b).

Abbreviation positive := (positiveIn d).
Abbreviation satAll := (forallb (sat v)).
Abbreviation satAny := (existsb (sat v)).

(** [Compare] terminates. *)
Lemma Compare_returns (x y : Logic T) : Compare x y ≠ OutOfFuel.
Proof using.
  assert (∀ ls l done, Forall (λ x, ∀ y, Compare x y ≠ OutOfFuel) ls →
    compareSlices Compare ls l done ≠ OutOfFuel) as Hls.
  { intros ls l done H. unfold compareSlices. repeat case_match; try done.
    clear -H. revert l. induction H as [|x ls Hx _ IH]; intros [|y l]; simpl; try done.
    pose proof (Hx y). destruct (Compare x y); simpl; try done. by case_match. }
  revert y. induction x using Logic_nested_ind; intros []; simpl; auto; try done.
  by case_match.
Qed.

Lemma Less_returns (x y : Logic T) : Less x y ≠ OutOfFuel.
Proof using.
  unfold Less. pose proof (Compare_returns x y). by destruct (Compare x y).
Qed.

Lemma compareEach_equal xs ys d1 d2 c e :
  Forall (λ x, ∀ y c e, positive y = true → Compare x y = Ok c → Compare y x = Ok e → c ≠ -1 → e ≠ -1 →
    c = 0 ∧ e = 0 ∧ sat v x = sat v y) xs →
  length xs = length ys → forallb positive ys = true →
  compareEach Compare d1 xs ys = Ok c → compareEach Compare d2 ys xs = Ok e →
  c ≠ -1 → e ≠ -1 →
  c = d1 ∧ e = d2 ∧ Forall2 (λ x y, sat v x = sat v y) xs ys.
Proof using.
  intros H. revert ys. induction H as [|x xs Hx _ IH]; intros [|y ys] Hlen; try discriminate; simpl.
  - intros _ [= <-] [= <-] _ _. repeat split; constructor.
  - intros [Hy Hys]%andb_true_iff H1 H2 Hc Hd. injection Hlen as Hlen.
    apply bind_Ok_inv in H1 as (c1 & Ec & H1). apply bind_Ok_inv in H2 as (c2 & Ed & H2).
    destruct (Z.eq_dec c1 (-1)) as [->|Hc1]; [by injection H1 as <-|].
    destruct (Z.eq_dec c2 (-1)) as [->|Hc2]; [by injection H2 as <-|].
    destruct (Hx _ _ _ Hy Ec Ed Hc1 Hc2) as (-> & -> & E). simpl in *.
    destruct (IH _ Hlen Hys H1 H2 Hc Hd) as (-> & -> & ?). repeat split; by constructor.
Qed.

Lemma compareSlices_equal xs ys d1 d2 c e :
  Forall (λ x, ∀ y c e, positive y = true → Compare x y = Ok c → Compare y x = Ok e → c ≠ -1 → e ≠ -1 →
    c = 0 ∧ e = 0 ∧ sat v x = sat v y) xs →
  forallb positive ys = true →
  compareSlices Compare xs ys d1 = Ok c → compareSlices Compare ys xs d2 = Ok e →
  c ≠ -1 → e ≠ -1 →
  c = d1 ∧ e = d2 ∧ Forall2 (λ x y, sat v x = sat v y) xs ys.
Proof using.
  unfold compareSlices. intros H Hp H1 H2 Hc Hd.
  destruct (Nat.ltb_spec (length xs) (length ys)); [by injection H1 as <-|].
  destruct (Nat.ltb_spec (length ys) (length xs)); [by injection H2 as <-|].
  eapply compareEach_equal; eauto. lia.
Qed.

Lemma sat_Forall2 xs ys :
  Forall2 (λ x y, sat v x = sat v y) xs ys →
  sat v (intersectionLogic xs) = sat v (intersectionLogic ys) ∧
  sat v (unionLogic xs) = sat v (unionLogic ys).
Proof using.
  intros H. simpl. enough (isEmpty xs = isEmpty ys ∧ satAll xs = satAll ys ∧ satAny xs = satAny ys)
    as (-> & -> & ->) by done.
  induction H as [|x y xs ys E _ (_ & IH1 & IH2)]; simpl; [done|]. by rewrite E, IH1, IH2.
Qed.

(** Formulas the ordering does not separate have the same truth value: the
    trees never drop a formula for one of another meaning. *)
Lemma Compare_equal (x y : Logic T) c e :
  positive x = true → positive y = true →
  Compare x y = Ok c → Compare y x = Ok e → c ≠ -1 → e ≠ -1 →
  c = 0 ∧ e = 0 ∧ sat v x = sat v y.
Proof using IL v_ok.
  revert y c e. induction x as [|a|a|xs IH|xs IH] using Logic_nested_ind;
    intros y c e Hx Hy Hxy Hyx Hc Hd; try discriminate Hx.
  { destruct y as [|b|b|ys|ys]; simpl in *; try discriminate; simplify_eq.
    pose proof (item_range a b). rewrite (item_antisym a b) in *.
    assert (item_Compare a b = 0) as E by lia. by rewrite E, (v_ok _ _ Hx Hy E). }
  all: assert (Forall (λ x, ∀ y c e, positive y = true → Compare x y = Ok c → Compare y x = Ok e →
      c ≠ -1 → e ≠ -1 → c = 0 ∧ e = 0 ∧ sat v x = sat v y) xs) as IH'
    by (rewrite Forall_forall in IH |- *; simpl in Hx; rewrite forallb_forall_elem in Hx; eauto);
    destruct y as [|b|b|ys|ys]; simpl in Hxy, Hyx, Hy; try discriminate; simplify_eq;
    destruct (compareSlices_equal _ _ _ _ _ _ IH' Hy Hxy Hyx Hc Hd) as (-> & -> & HF); try done;
    apply sat_Forall2 in HF as []; auto.
Qed.

Lemma Less_equal (x y : Logic T) :
  positive x = true → positive y = true → bt_equal Less x y → sat v y = sat v x.
Proof using IL v_ok.
  unfold bt_equal, Less. intros Hx Hy [H1 H2].
  apply bind_Ok_inv in H1 as (c & Hc & E1). apply bind_Ok_inv in H2 as (e & Hd & E2).
  injection E1 as E1. injection E2 as E2. symmetry.
  eapply (Compare_equal x y c e); eauto; lia.
Qed.

(** What a batch of insertions into a tree of formulas preserves. *)
Lemma insert_all_sat xs t t' :
  forallb positive xs = true → forallb positive (bt_items t) = true → bt_insert_all Less xs t = Ok t' →
  (∀ y, y ∈ bt_items t' → y ∈ xs ++ bt_items t) ∧
  satAll (bt_items t') = satAll (xs ++ bt_items t) ∧
  satAny (bt_items t') = satAny (xs ++ bt_items t) ∧
  (isEmpty (bt_items t') = isEmpty (xs ++ bt_items t)).
Proof using IL BL v_ok.
  intros Hxs Ht H.
  destruct (bt_insert_all_mem Less (λ x y, sat v x = sat v y) xs t t') as [H1 H2]; [done|congruence| |done|].
  { assert (∀ z, z ∈ xs ++ bt_items t → positive z = true) as Hz.
    { rewrite <- forallb_forall_elem, forallb_app, Hxs, Ht. done. }
    intros x y Hx Hy. apply Less_equal; auto. }
  assert (∀ y, y ∈ bt_items t' → y ∈ xs ++ bt_items t) as Hin.
  { intros y Hy. apply elem_of_app. auto. }
  split; [exact Hin|].
  destruct (satAll_match (sat v) (xs ++ bt_items t) (bt_items t')) as [-> ->].
  { intros y Hy. eauto. }
  { intros x Hx. apply elem_of_app in Hx. auto. }
  split; [done|]. split; [done|].
  destruct (xs ++ bt_items t) as [|x l] eqn:E; simpl.
  - destruct (bt_items t') as [|y l]; [done|]. specialize (Hin y). set_solver.
  - destruct (H2 x) as (z & Hz & _). { apply elem_of_app. rewrite E. set_solver. }
    by eapply isEmpty_false.
Qed.

Lemma collect_sat xs ys :
  forallb positive xs = true → collect xs = Ok ys →
  (∀ y, y ∈ ys → y ∈ xs) ∧ satAll ys = satAll xs ∧ satAny ys = satAny xs ∧
  isEmpty ys = isEmpty xs.
Proof using IL BL v_ok.
  unfold collect. intros Hp H. apply bind_Ok_inv in H as (t & Ht & E). injection E as <-.
  apply insert_all_sat in Ht; [|done|by rewrite bt_items_new]. by rewrite bt_items_new, app_nil_r in Ht.
Qed.

(** ** Disjunction *)

(** [r] is the disjunction of [a] and [b], in the fragment they are in. *)
Definition OR_spec (a b r : Logic T) : Prop :=
  positive r = true ∧ sat v r = sat v a || sat v b ∧
  (noTrue a = true → noTrue b = true → noTrue r = true).

Lemma switch3_Ok {A} (a b : T) (x y z : outcome A) r :
  switch3 (item_Compare a b) x y z = Ok r →
  (item_Compare a b = -1 ∧ x = Ok r) ∨ (item_Compare a b = 0 ∧ y = Ok r) ∨
  (item_Compare a b = 1 ∧ z = Ok r).
Proof using.
  unfold switch3.
  destruct (Z.eqb_spec (item_Compare a b) (-1)); [auto|].
  destruct (Z.eqb_spec (item_Compare a b) 0); [auto|].
  destruct (Z.eqb_spec (item_Compare a b) 1); [auto|discriminate].
Qed.

(** Case analysis on a finished three-way switch. *)
Ltac inv_switch H :=
  apply switch3_Ok in H as [(?Hc & [= <-])|[(?Hc & [= <-])|(?Hc & [= <-])]].

(** Decide a boolean identity in the atoms it mentions. *)
Ltac btaut := simpl; btauto.

Lemma atomOrAtom_spec a b r :
  d a = true → d b = true → atomOrAtom a b = Ok r → OR_spec (atomLogic a) (atomLogic b) r.
Proof using v_ok.
  unfold atomOrAtom, OR_spec. intros Ha Hb H. inv_switch H; simpl; rewrite ?Ha, ?Hb.
  - split; [done|]. split; [btaut|done].
  - rewrite (v_ok _ _ Ha Hb Hc). split; [done|]. split; [btaut|done].
  - split; [done|]. split; [btaut|done].
Qed.

Lemma hasAtom_spec a b :
  d a = true → forallb positive b = true → hasAtom a b = true → v a = true ∨ satAll b = false.
Proof using v_ok.
  unfold hasAtom. rewrite existsb_exists_elem. intros Ha Hp (x & Hx & E).
  destruct x as [|t|t|l|l]; try discriminate. apply Z.eqb_eq, v_ok in E; [|done|].
  2: { rewrite forallb_forall_elem in Hp. apply (Hp _ Hx). }
  destruct (satAll b) eqn:Hb; [|auto]. rewrite forallb_forall_elem in Hb.
  specialize (Hb _ Hx). simpl in Hb. left. congruence.
Qed.

Lemma atomOrIntersection_spec a b r :
  d a = true → positive (intersectionLogic b) = true → atomOrIntersection a b = Ok r →
  OR_spec (atomLogic a) (intersectionLogic b) r.
Proof using v_ok.
  unfold atomOrIntersection, OR_spec. simpl. intros Hda Hp H.
  destruct (isEmpty b) eqn:E; [injection H as <-; simpl; split; [done|]; split; [btaut|done]|].
  destruct (hasAtom a b) eqn:Ha; injection H as <-; simpl.
  - apply hasAtom_spec in Ha; [|done..]. split; [done|]. split; [|done].
    destruct Ha as [->| ->]; btaut.
  - rewrite Hda, Hp, E. split; [done|]. split; [btaut|]. intros _ ->. done.
Qed.

(** The value an insertion loop carries: its list, or the pending literal. *)
Lemma atomOrUnion_loop_spec a b ret added ret' added' :
  d a = true → forallb positive b = true →
  atomOrUnion_loop a b ret added = (ret', added') →
  satAny ret' || (negb added' && v a) = satAny ret || (negb added && v a) || satAny b ∧
  (∀ f, f (atomLogic a) = true → forallb f ret = true → forallb f b = true →
    forallb f ret' = true) ∧
  ((added = true → isEmpty ret = false) → added' = true → isEmpty ret' = false).
Proof using IL v_ok.
  intros Hda. revert ret added. induction b as [|bi b IH]; intros ret added Hp; simpl.
  { intros [= -> ->]. split; [btaut|]. split; auto. }
  simpl in Hp. apply andb_true_iff in Hp as [Hbi Hp]. intros H.
  assert (∀ ret1 added1,
    atomOrUnion_loop a b ret1 added1 = (ret', added') →
    satAny ret1 || (negb added1 && v a) = satAny ret || (negb added && v a) || sat v bi →
    (∀ f, f (atomLogic a) = true → f bi = true → forallb f ret = true → forallb f ret1 = true) →
    ((added = true → isEmpty ret = false) → added1 = true → isEmpty ret1 = false) →
    satAny ret' || (negb added' && v a) = satAny ret || (negb added && v a) || (sat v bi || satAny b) ∧
    (∀ f, f (atomLogic a) = true → forallb f ret = true → f bi && forallb f b = true →
      forallb f ret' = true) ∧
    ((added = true → isEmpty ret = false) → added' = true → isEmpty ret' = false)) as Hstep.
  { intros ret1 added1 H1 Hs Hf He. destruct (IH _ _ Hp H1) as (IHs & IHf & IHe).
    split; [rewrite IHs, Hs; btaut|]. split; [|auto].
    intros f Ha Hr Hb. apply andb_true_iff in Hb as []. auto. }
  assert (∀ l1 l2 : list (Logic T), l2 ≠ [] → isEmpty (l1 ++ l2) = false) as Happ.
  { intros [] [] ?; done. }
  destruct added.
  { eapply Hstep; [exact H|..]; rewrite ?existsb_app; simpl; [btaut| |auto].
    intros f ? Hb Hr. rewrite forallb_app. simpl. by rewrite Hr, Hb. }
  destruct bi as [|t|t|l|l]; try discriminate; simpl in H.
  - pose proof (item_range a t). repeat case_match; try lia.
    + eapply Hstep; [exact H|..]; rewrite ?existsb_app; simpl; [btaut| |auto].
      intros f Ha Hb Hr. rewrite forallb_app. simpl. by rewrite Hr, Ha, Hb.
    + assert (v a = v t) as E by (apply v_ok; done || lia).
      eapply Hstep; [exact H|..]; rewrite ?existsb_app; simpl; rewrite <- ?E; [btaut| |auto].
      intros f Ha Hb Hr. rewrite forallb_app. simpl. by rewrite Hr, Ha.
    + eapply Hstep; [exact H|..]; rewrite ?existsb_app; simpl; [btaut| |done].
      intros f Ha Hb Hr. rewrite forallb_app. simpl. by rewrite Hr, Hb.
  - eapply Hstep; [exact H|..]; rewrite ?existsb_app; simpl; [btaut| |done].
    intros f Ha Hb Hr. rewrite forallb_app. simpl. by rewrite Hr, Hb.
  - eapply Hstep; [exact H|..]; rewrite ?existsb_app; simpl; [btaut| |done].
    intros f Ha Hb Hr. rewrite forallb_app. simpl. by rewrite Hr, Hb.
Qed.

Lemma atomOrUnion_spec a b r :
  d a = true → positive (unionLogic b) = true → atomOrUnion a b = Ok r →
  OR_spec (atomLogic a) (unionLogic b) r.
Proof using IL v_ok.
  unfold atomOrUnion, OR_spec. simpl. intros Hda Hp H.
  destruct (isEmpty b) eqn:E.
  { injection H as <-. simpl. rewrite Hp, E. split; [done|]. split; [btaut|auto]. }
  destruct (atomOrUnion_loop a b [] false) as [ret added] eqn:Hl.
  apply atomOrUnion_loop_spec in Hl as (Hs & Hf & He); [|done..]. simpl in Hs, Hf, He.
  injection H as <-. destruct added; simpl in *.
  - rewrite He by done. split; [by apply Hf|]. split.
    + rewrite orb_false_r in Hs. rewrite Hs. btaut.
    + intros _ Hb. simpl. by apply Hf.
  - assert (isEmpty (ret ++ [atomLogic a]) = false) as Hne by (by destruct ret).
    rewrite forallb_app, existsb_app, Hne. simpl. rewrite Hda. split; [by rewrite Hf|]. split.
    + rewrite orb_false_r. exact Hs.
    + intros _ Hb. rewrite forallb_app. simpl. by rewrite (Hf noTrue).
Qed.

Lemma OR_spec_comm a b r : OR_spec a b r → OR_spec b a r.
Proof using. intros (? & Hs & ?). split; [done|]. split; [|auto]. rewrite Hs. apply orb_comm. Qed.

Lemma intersectionOrIntersection_spec a b r :
  positive (intersectionLogic a) = true → positive (intersectionLogic b) = true →
  intersectionOrIntersection a b = Ok r → OR_spec (intersectionLogic a) (intersectionLogic b) r.
Proof using.
  unfold intersectionOrIntersection, OR_spec. simpl. intros Ha Hb H.
  destruct (isEmpty a) eqn:Ea; [|destruct (isEmpty b) eqn:Eb]; injection H as <-; simpl;
    rewrite ?Ha, ?Hb, ?Ea, ?Eb; (split; [done|]); (split; [btaut|]); intros; try done.
  by rewrite andb_true_r; apply andb_true_iff.
Qed.

Lemma sharesLiteral_spec a b :
  forallb positive a = true → forallb positive b = true → sharesLiteral a b = true → satAll a = true → satAny b = true.
Proof using v_ok.
  unfold sharesLiteral. rewrite existsb_exists_elem. intros Hpa Hpb (x & Hx & H) Ha.
  rewrite forallb_forall_elem in Ha. specialize (Ha x Hx).
  apply existsb_exists_elem in H as (y & Hy & H). apply existsb_exists_elem.
  exists y. split; [done|]. rewrite forallb_forall_elem in Hpa, Hpb.
  specialize (Hpa x Hx). specialize (Hpb y Hy).
  destruct x, y; try discriminate; simpl in *; apply Z.eqb_eq, v_ok in H; congruence.
Qed.

Lemma intersectionOrUnion_spec a b r :
  positive (intersectionLogic a) = true → positive (unionLogic b) = true →
  intersectionOrUnion a b = Ok r → OR_spec (intersectionLogic a) (unionLogic b) r.
Proof using IL BL v_ok.
  unfold intersectionOrUnion, OR_spec. simpl. intros Ha Hb H.
  destruct (isEmpty b) eqn:Eb.
  { injection H as <-. simpl. split; [done|]. split; [btaut|]. intros _ Hx. discriminate Hx. }
  destruct (isEmpty a) eqn:Ea.
  { injection H as <-. simpl. rewrite Eb. auto. }
  destruct (sharesLiteral a b) eqn:Es.
  { injection H as <-. simpl. rewrite Eb. split; [done|]. split; [|auto].
    pose proof (sharesLiteral_spec _ _ Ha Hb Es) as Hab. simpl.
    destruct (satAll a); [by rewrite Hab|done]. }
  apply bind_Ok_inv in H as (ret & Hc & H). injection H as <-.
  apply collect_sat in Hc as (Hin & _ & Hs & He); [|simpl; by rewrite Ha, Hb]. simpl in Hs, He |- *.
  rewrite He, Hs, Ea. split; [|split; [btaut|]].
  - apply forallb_forall_elem. intros y Hy. apply Hin in Hy.
    rewrite elem_of_cons in Hy. destruct Hy as [->|Hy]; [done|].
    rewrite forallb_forall_elem in Hb. auto.
  - intros HTa HTb. simpl. apply forallb_forall_elem. intros y Hy. apply Hin in Hy.
    rewrite elem_of_cons in Hy. destruct Hy as [->|Hy]; [done|].
    rewrite forallb_forall_elem in HTb. auto.
Qed.

(** One step of the loop of [unionOrUnion]: the tree takes in a disjunct. *)
Lemma unionOrUnion_loop_spec rec a b bt r :
  (∀ bi r, bi ∈ b → rec (unionLogic a) bi = Ok r → OR_spec (unionLogic a) bi r) →
  forallb positive (bt_items bt) = true → unionOrUnion_loop rec a b bt = Ok r →
  match r with
  | None => negb (isEmpty b) && sat v (unionLogic a) || satAny b = true ∧
            (noTrue (unionLogic a) = true → forallb noTrue b = true → False)
  | Some bt' =>
      satAny (bt_items bt') =
        satAny (bt_items bt) || (negb (isEmpty b) && sat v (unionLogic a)) || satAny b ∧
      isEmpty (bt_items bt') = isEmpty (bt_items bt) && isEmpty b ∧
      forallb positive (bt_items bt') = true ∧
      (noTrue (unionLogic a) = true → forallb noTrue b = true →
        forallb noTrue (bt_items bt) = true → forallb noTrue (bt_items bt') = true)
  end.
Proof using IL BL v_ok.
  revert bt. induction b as [|bi b IH]; intros bt Hrec Hbt H; simpl in H.
  { injection H as <-. simpl. split; [btaut|]. split; [btaut|auto]. }
  apply bind_Ok_inv in H as (next & Hn & H).
  destruct (Hrec bi next) as (Hpos & Hsat & HT); [set_solver|done|].
  assert (∀ bi r, bi ∈ b → rec (unionLogic a) bi = Ok r → OR_spec (unionLogic a) bi r) as Hrec'.
  { intros. apply Hrec; set_solver. }
  assert (∀ xs bt1, bt_insert_all Less xs bt = Ok bt1 → isEmpty xs = false →
    satAny xs = sat v next → forallb positive xs = true →
    (noTrue next = true → forallb noTrue xs = true) →
    unionOrUnion_loop rec a b bt1 = Ok r →
    match r with
    | None => negb (isEmpty (bi :: b)) && sat v (unionLogic a) || satAny (bi :: b) = true ∧
        (noTrue (unionLogic a) = true → forallb noTrue (bi :: b) = true → False)
    | Some bt' =>
      satAny (bt_items bt') =
        satAny (bt_items bt) || (negb (isEmpty (bi :: b)) && sat v (unionLogic a)) || satAny (bi :: b) ∧
      isEmpty (bt_items bt') = isEmpty (bt_items bt) && isEmpty (bi :: b) ∧
      forallb positive (bt_items bt') = true ∧
      (noTrue (unionLogic a) = true → forallb noTrue (bi :: b) = true →
        forallb noTrue (bt_items bt) = true → forallb noTrue (bt_items bt') = true)
    end) as Hins.
  { intros xs bt1 H1 He Hs Hp Ht Hloop.
    apply insert_all_sat in H1 as (Hin & _ & Hany & Hemp); [|done..].
    assert (∀ f : Logic T → bool, forallb f xs = true → forallb f (bt_items bt) = true →
      forallb f (bt_items bt1) = true) as Hf.
    { intros f H1 H2. apply forallb_forall_elem. intros y Hy. apply Hin, elem_of_app in Hy.
      rewrite forallb_forall_elem in H1, H2. destruct Hy; auto. }
    specialize (IH bt1 Hrec' (Hf _ Hp Hbt) Hloop). rewrite existsb_app in Hany.
    assert (isEmpty (xs ++ bt_items bt) = false) as Hne by (by destruct xs).
    rewrite Hne in Hemp. destruct r as [bt'|]; simpl in *.
    - destruct IH as (IH1 & IH2 & IH3 & IH4). split; [|split; [|split]].
      + rewrite IH1, Hany, Hs, Hsat. btaut.
      + rewrite IH2, Hemp. btaut.
      + auto.
      + intros HTa HTb HTt. apply andb_true_iff in HTb as []. auto 6.
    - destruct IH as [IH1 IH2]. split; [|intros HTa HTb; apply andb_true_iff in HTb as []; auto].
      apply orb_true_iff in IH1 as [E|E]; [|rewrite E; btaut].
      apply andb_true_iff in E as [_ E]. rewrite E. btaut. }
  assert (bt_insert_all Less [next] bt = bt1 ← bt_insert Less next bt; Ok bt1) as Hone.
  { simpl. by destruct (bt_insert Less next bt). }
  destruct next as [|t|t|l|l]; try discriminate.
  - apply bind_Ok_inv in H as (bt1 & H1 & H). rewrite H1 in Hone.
    eapply (Hins _ _ Hone); simpl; rewrite ?andb_true_r, ?orb_false_r; auto.
  - apply bind_Ok_inv in H as (bt1 & H1 & H). rewrite H1 in Hone.
    eapply (Hins _ _ Hone); simpl; rewrite ?andb_true_r, ?orb_false_r; auto.
  - destruct (isEmpty l) eqn:El.
    + injection H as <-. simpl in Hsat, HT |- *. rewrite El in Hsat, HT. simpl in Hsat.
      rewrite orb_assoc, <- Hsat. split; [btaut|]. intros HTa HTb.
      apply andb_true_iff in HTb as [HTbi _]. by specialize (HT HTa HTbi).
    + apply bind_Ok_inv in H as (bt1 & H1 & H). clear Hone.
      eapply (Hins _ _ H1); simpl; rewrite ?El; auto.
Qed.

Lemma OR_meaning (a b r : Logic T) :
  positive a = true → positive b = true → OR a b = Ok r → OR_spec a b r.
Proof using IL BL v_ok.
  revert a r. induction b as [|b|b|b IH|b IH] using Logic_nested_ind; intros [|a|a|a|a] r Ha Hb H;
    try discriminate; cbn [OR] in H.
  - by apply atomOrAtom_spec.
  - by apply OR_spec_comm, atomOrIntersection_spec.
  - by apply OR_spec_comm, atomOrUnion_spec.
  - by apply atomOrIntersection_spec.
  - by apply intersectionOrIntersection_spec.
  - by apply OR_spec_comm, intersectionOrUnion_spec.
  - by apply atomOrUnion_spec.
  - by apply intersectionOrUnion_spec.
  - unfold unionOrUnion in H. unfold OR_spec. simpl in Ha, Hb |- *.
    destruct (isEmpty a) eqn:Ea; [injection H as <-; simpl; auto|].
    destruct (isEmpty b) eqn:Eb; [injection H as <-; simpl; rewrite orb_true_r; auto|].
    apply bind_Ok_inv in H as (bt & Hl & H).
    apply unionOrUnion_loop_spec in Hl; [| |by rewrite bt_items_new].
    2: { intros bi r' Hbi. rewrite Forall_forall in IH. apply IH; [done|done|].
         rewrite forallb_forall_elem in Hb. auto. }
    rewrite Eb, bt_items_new in Hl. simpl in Hl. rewrite Ea in Hl. simpl in *.
    destruct bt as [bt|]; injection H as <-; simpl.
    + destruct Hl as (Hs & He & Hp & HT). rewrite He, Hs, Hp.
      split; [done|]. split; [done|]. auto.
    + destruct Hl as [Hs HT]. split; [done|]. split; [done|].
      intros. exfalso. auto.
Qed.

(** ** Conjunction *)

(** [r] is implied by the conjunction of [a] and [b], and equal to it when
    neither contains the constant [True]. *)
Definition AND_spec (a b r : Logic T) : Prop :=
  positive r = true ∧
  (sat v a && sat v b = true → sat v r = true) ∧
  (noTrue a = true → noTrue b = true → noTrue r = true ∧ sat v r = sat v a && sat v b).

Lemma AND_spec_comm a b r : AND_spec a b r → AND_spec b a r.
Proof using.
  intros (Hp & Hs & HT). split; [done|]. split.
  - by rewrite andb_comm.
  - intros Hb Ha. destruct (HT Ha Hb) as [? ->]. split; [done|apply andb_comm].
Qed.

Lemma AND_spec_exact a b r :
  positive r = true → sat v r = sat v a && sat v b →
  (noTrue a = true → noTrue b = true → noTrue r = true) → AND_spec a b r.
Proof using.
  intros Hp Hs HT. split; [done|]. split; [|split; auto]. by rewrite Hs.
Qed.

Lemma atomAndAtom_spec a b r :
  d a = true → d b = true → atomAndAtom a b = Ok r → AND_spec (atomLogic a) (atomLogic b) r.
Proof using v_ok.
  unfold atomAndAtom. intros Ha Hb H. inv_switch H; apply AND_spec_exact; simpl; rewrite ?Ha, ?Hb; try done.
  - btaut.
  - rewrite (v_ok _ _ Ha Hb Hc). btaut.
  - btaut.
Qed.

(** The loop of [atomAndIntersection], for any items: the list it returns and
    the pending literal are together the conjunction of [a] and [b]. *)
Lemma atomAndIntersection_loop_spec a b ret added :
  d a = true → forallb positive b = true →
  match atomAndIntersection_loop a b ret added with
  | None => satAll ret && (added || v a) && satAll b = false
  | Some (ret', added') =>
      satAll ret' && (added' || v a) = satAll ret && (added || v a) && satAll b ∧
      (∀ f, f (atomLogic a) = true → forallb f ret = true → forallb f b = true →
        forallb f ret' = true) ∧
      (length ret + length b ≤ length ret')%nat
  end.
Proof using v_ok.
  intros Hda. revert ret added. induction b as [|bi b IH]; intros ret added Hp; simpl.
  { split; [btaut|]. split; [auto|lia]. }
  simpl in Hp. apply andb_true_iff in Hp as [Hbi Hp].
  assert (∀ ret1 added1,
    satAll ret1 && (added1 || v a) = satAll ret && (added || v a) && sat v bi →
    (∀ f, f (atomLogic a) = true → f bi = true → forallb f ret = true → forallb f ret1 = true) →
    (length ret < length ret1)%nat →
    match atomAndIntersection_loop a b ret1 added1 with
    | None => satAll ret && (added || v a) && (sat v bi && satAll b) = false
    | Some (ret', added') =>
        satAll ret' && (added' || v a) = satAll ret && (added || v a) && (sat v bi && satAll b) ∧
        (∀ f, f (atomLogic a) = true → forallb f ret = true → f bi && forallb f b = true →
          forallb f ret' = true) ∧
        (length ret + S (length b) ≤ length ret')%nat
    end) as Hstep.
  { intros ret1 added1 Hs Hf Hl. specialize (IH ret1 added1 Hp).
    rewrite andb_assoc, <- Hs. case_match; [|done].
    destruct p as [ret' added']. destruct IH as (IHs & IHf & IHl).
    split; [done|]. split; [|lia].
    intros f Ha Hr Hb. apply andb_true_iff in Hb as []. auto. }
  assert (∀ c, (∀ f : Logic T → bool, f (atomLogic a) = true → f bi = true →
      forallb f ret = true → forallb f c = true → forallb f (ret ++ c) = true)) as Hf.
  { intros c f _ _ Hr Hc. by rewrite forallb_app, Hr, Hc. }
  assert (∀ c : list (Logic T), c ≠ [] → (length ret < length (ret ++ c))%nat) as Hlen.
  { intros c Hc. rewrite length_app. destruct c; [done|]. simpl. lia. }
  assert (∀ f : Logic T → bool, f (atomLogic a) = true → f bi = true →
    forallb f [bi] = true ∧ forallb f [atomLogic a; bi] = true) as Hone.
  { intros f H1 H2. simpl. by rewrite H1, H2. }
  destruct added.
  { apply Hstep; [rewrite forallb_app; btaut| |by apply Hlen].
    intros f H1 H2 H3. apply Hf; auto. by apply Hone. }
  destruct bi as [|t|t|l|l]; try discriminate Hbi;
    try (apply Hstep; [rewrite forallb_app; btaut| |by apply Hlen];
         intros f H1 H2 H3; apply Hf; auto; by apply Hone).
  - destruct (Z.eqb_spec (item_Compare a t) 0) as [E|_].
    { apply Hstep; [rewrite forallb_app; simpl; rewrite (v_ok _ _ Hda Hbi E); btaut| |by apply Hlen].
      intros f H1 H2 H3. apply Hf; auto. by apply Hone. }
    destruct (Z.eqb_spec (item_Compare a t) (-1)) as [E|_];
      (apply Hstep; [rewrite forallb_app; btaut| |by apply Hlen]);
      intros f H1 H2 H3; apply Hf; auto; by apply Hone.
Qed.

Lemma atomAndIntersection_spec a b r :
  d a = true → positive (intersectionLogic b) = true → atomAndIntersection a b = Ok r →
  AND_spec (atomLogic a) (intersectionLogic b) r.
Proof using v_ok.
  unfold atomAndIntersection. intros Hda Hp H.
  destruct (isEmpty b) eqn:E.
  { injection H as <-. apply AND_spec_exact; simpl; rewrite ?E; [done|btaut|done]. }
  pose proof (atomAndIntersection_loop_spec a b [] false Hda Hp) as Hl.
  destruct (atomAndIntersection_loop a b [] false) as [[ret added]|].
  - destruct Hl as (Hs & Hf & Hlen). injection H as <-. simpl in Hs.
    assert (isEmpty ret = false) as Hne.
    { destruct ret; [|done]. destruct b; [done|]. simpl in Hlen. lia. }
    assert (∀ l : list (Logic T), isEmpty (ret ++ l) = false) as Hne' by (by destruct ret).
    apply AND_spec_exact; destruct added; simpl; rewrite ?forallb_app, ?Hne', ?Hne, ?E; simpl.
    + by apply Hf.
    + by rewrite Hf, Hda.
    + rewrite andb_true_r in Hs. by rewrite Hs.
    + by rewrite andb_true_r.
    + intros _ Hb. by apply Hf.
    + intros _ Hb. by rewrite Hf.
  - injection H as <-. apply AND_spec_exact; simpl; rewrite ?E; [done| |done].
    symmetry. exact Hl.
Qed.

Section AndRec.
Context (rec : Logic T → Logic T → outcome (Logic T)).
Context (rec_spec : ∀ a b r, positive a = true → positive b = true →
  rec a b = Ok r → AND_spec a b r).

(** The products of one formula with every item of a list. *)
Lemma products_spec a bs rs :
  positive a = true → forallb positive bs = true →
  Forall2 (λ bi r, rec a bi = Ok r) bs rs →
  isEmpty rs = isEmpty bs ∧ forallb positive rs = true ∧
  (sat v a && satAny bs = true → satAny rs = true) ∧
  (noTrue a = true → forallb noTrue bs = true →
    forallb noTrue rs = true ∧ satAny rs = sat v a && satAny bs).
Proof using rec_spec.
  intros Ha Hbs H. induction H as [|bi r bs rs Hr _ IH]; simpl.
  { split; [done|]. split; [done|]. split; [by rewrite andb_false_r|].
    by rewrite andb_false_r. }
  simpl in Hbs. apply andb_true_iff in Hbs as [Hbi Hbs].
  destruct (IH Hbs) as (_ & IH1 & IH2 & IH3).
  destruct (rec_spec _ _ _ Ha Hbi Hr) as (H1 & H2 & H3).
  split; [done|]. split; [by rewrite H1|]. split.
  - rewrite andb_orb_distrib_r. intros [H|H]%orb_true_iff; [by rewrite H2|].
    rewrite IH2 by done. apply orb_true_r.
  - intros HT [HT1 HT2]%andb_true_iff. destruct (H3 HT HT1) as [-> ->].
    destruct (IH3 HT HT2) as [-> ->]. split; [done|]. symmetry. apply andb_orb_distrib_r.
Qed.

Lemma atomAndUnion_spec a b r :
  d a = true → positive (unionLogic b) = true → atomAndUnion rec a b = Ok r →
  AND_spec (atomLogic a) (unionLogic b) r.
Proof using rec_spec v_ok.
  unfold atomAndUnion. intros Hda Hp H. simpl in Hp.
  destruct (existsb _ b) eqn:E.
  - injection H as <-. apply existsb_exists_elem in E as (x & Hx & E).
    destruct x as [|t|t|l|l]; try discriminate.
    assert (d t = true) as Hdt by (rewrite forallb_forall_elem in Hp; apply (Hp _ Hx)).
    apply Z.eqb_eq, v_ok in E; [|done..]. apply AND_spec_exact; [done| |done]. simpl. rewrite (isEmpty_false _ _ Hx). simpl.
    destruct (v a) eqn:Ha; [|done]. symmetry. apply existsb_exists_elem.
    exists (atomLogic t). simpl. split; congruence.
  - apply bind_Ok_inv in H as (rs & Hm & H). injection H as <-. apply mapM_Ok in Hm.
    destruct (products_spec (atomLogic a) b rs Hda Hp Hm) as (He & H1 & H2 & H3).
    simpl in H2, H3. split; [done|]. simpl. rewrite He.
    destruct (isEmpty b); simpl; [split; [done|]; intros; discriminate|].
    split; [auto|]. intros _ HT. by apply H3.
Qed.

Lemma intersectionAndUnion_spec a b r :
  positive (intersectionLogic a) = true → positive (unionLogic b) = true →
  intersectionAndUnion rec a b = Ok r → AND_spec (intersectionLogic a) (unionLogic b) r.
Proof using IL BL rec_spec v_ok.
  unfold intersectionAndUnion. intros Ha Hb H.
  destruct (isEmpty a) eqn:Ea.
  { injection H as <-. apply AND_spec_exact; [done| |auto]. simpl. by rewrite Ea. }
  destruct (isEmpty b) eqn:Eb.
  { injection H as <-. apply AND_spec_exact; [done| |auto]. simpl. rewrite Eb. btaut. }
  simpl in H. destruct (sharesLiteral a b) eqn:Es.
  { injection H as <-. apply AND_spec_exact; [done| |auto]. simpl. rewrite Ea, Eb. simpl.
    pose proof (sharesLiteral_spec _ _ Ha Hb Es) as Hab. destruct (satAll a); [by rewrite Hab|done]. }
  apply bind_Ok_inv in H as (rs & Hm & H). apply bind_Ok_inv in H as (ret & Hc & H).
  injection H as <-. apply mapM_Ok in Hm.
  destruct (products_spec (intersectionLogic a) b rs) as (He & H1 & H2 & H3); [done..|].
  apply collect_sat in Hc as (Hin & _ & Hs & He'); [|done].
  assert (∀ f : Logic T → bool, forallb f rs = true → forallb f ret = true) as Hsub.
  { intros f Hf. rewrite forallb_forall_elem in *. auto. }
  split; [by apply Hsub|]. simpl in *. rewrite He', He, Hs, Eb, Ea in *. simpl in *.
  split; [auto|]. intros HT1 HT2. destruct (H3 HT1 HT2). auto.
Qed.

Lemma pairs_spec (a b : list (Logic T)) :
  existsb (λ '(x, y), sat v x && sat v y) (ai ← a; bj ← b; [(ai, bj)]) = satAny a && satAny b.
Proof using.
  apply eq_true_iff_eq. rewrite andb_true_iff, !existsb_exists_elem. split.
  - intros ([x y] & Hxy & [Hx Hy]%andb_true_iff).
    apply list_elem_of_bind in Hxy as (x' & Hxy & Hx').
    apply list_elem_of_bind in Hxy as (y' & Hxy & Hy').
    apply list_elem_of_singleton in Hxy as [= -> ->]. split; eauto.
  - intros [(x & Hx & Sx) (y & Hy & Sy)]. exists (x, y). rewrite Sx, Sy. split; [|done].
    apply list_elem_of_bind. exists x. split; [|done]. apply list_elem_of_bind. exists y.
    split; [by apply list_elem_of_singleton|done].
Qed.

Lemma unionAndUnion_loop_spec pairs result r :
  forallb (λ '(x, y), positive x && positive y) pairs = true →
  result = nilLogic ∧ pairs ≠ [] ∨ positive result = true →
  unionAndUnion_loop rec pairs result = Ok r →
  positive r = true ∧
  (sat v result || existsb (λ '(x, y), sat v x && sat v y) pairs = true → sat v r = true) ∧
  (noTrue result = true → forallb (λ '(x, y), noTrue x && noTrue y) pairs = true →
    noTrue r = true ∧
    sat v r = sat v result || existsb (λ '(x, y), sat v x && sat v y) pairs).
Proof using IL BL rec_spec v_ok.
  revert result. induction pairs as [|[ai bj] pairs IH]; intros result Hp Hres H; simpl in H.
  { injection H as <-. destruct Hres as [[_ ?]|Hres]; [done|]. simpl. rewrite orb_false_r. auto. }
  simpl in Hp. apply andb_true_iff in Hp as [[Hai Hbj]%andb_true_iff Hp].
  apply bind_Ok_inv in H as (next & Hn & H).
  destruct (rec_spec _ _ _ Hai Hbj Hn) as (N1 & N2 & N3).
  destruct Hres as [[-> _]|Hres].
  - destruct (IH next Hp (or_intror N1) H) as (R1 & R2 & R3). split; [done|]. split.
    + simpl. intros [Hs|Hs]%orb_true_iff; apply R2; [by rewrite N2|].
      rewrite Hs. apply orb_true_r.
    + simpl. intros _ [[T1 T2]%andb_true_iff T3]%andb_true_iff. destruct (N3 T1 T2) as [T4 E4].
      destruct (R3 T4 T3) as [T5 E5]. split; [done|]. by rewrite E5, E4.
  - assert (OR result next ≫= unionAndUnion_loop rec pairs = Ok r) as H'.
    { destruct result; [discriminate|exact H..]. }
    clear H. apply bind_Ok_inv in H' as (res' & Ho & H).
    destruct (OR_meaning _ _ _ Hres N1 Ho) as (O1 & O2 & O3).
    destruct (IH res' Hp (or_intror O1) H) as (R1 & R2 & R3). split; [done|]. split.
    + simpl. intros Hs. apply R2. rewrite O2.
      apply orb_true_iff in Hs as [->|[Hs|Hs]%orb_true_iff]; [done| |rewrite Hs; btaut].
      rewrite N2 by done. btaut.
    + simpl. intros T0 [[T1 T2]%andb_true_iff T3]%andb_true_iff. destruct (N3 T1 T2) as [T4 E4].
      destruct (R3 (O3 T0 T4) T3) as [T5 E5]. split; [done|]. rewrite E5, O2, E4. simpl. btaut.
Qed.

Lemma pairs_forallb (f : Logic T → bool) a b :
  forallb f a = true → forallb f b = true →
  forallb (λ '(x, y), f x && f y) (ai ← a; bj ← b; [(ai, bj)]) = true.
Proof using.
  rewrite !forallb_forall_elem. intros Ha Hb [x y] Hxy.
  apply list_elem_of_bind in Hxy as (x' & Hxy & Hx').
  apply list_elem_of_bind in Hxy as (y' & Hxy & Hy').
  apply list_elem_of_singleton in Hxy as [= -> ->]. by rewrite Ha, Hb.
Qed.

Lemma unionAndUnion_spec a b r :
  positive (unionLogic a) = true → positive (unionLogic b) = true →
  unionAndUnion rec a b = Ok r → AND_spec (unionLogic a) (unionLogic b) r.
Proof using IL BL rec_spec v_ok.
  unfold unionAndUnion. intros Ha Hb H.
  destruct (isEmpty a) eqn:Ea.
  { injection H as <-. apply AND_spec_exact; [done| |auto]. simpl. by rewrite Ea. }
  destruct (isEmpty b) eqn:Eb.
  { injection H as <-. apply AND_spec_exact; [done| |auto]. simpl. rewrite Eb. btaut. }
  apply unionAndUnion_loop_spec in H as (R1 & R2 & R3).
  - rewrite pairs_spec in R2, R3. split; [done|]. simpl in *. rewrite Ea, Eb. simpl.
    split; [auto|]. intros T1 T2. apply R3; [done|]. by apply pairs_forallb.
  - by apply pairs_forallb.
  - left. split; [done|]. destruct a, b; done.
Qed.

Lemma intersectionAndIntersection_loop_spec a b bt r :
  forallb positive a = true → positive (intersectionLogic b) = true → isEmpty b = false →
  forallb positive (bt_items bt) = true → intersectionAndIntersection_loop rec a b bt = Ok r →
  match r with
  | None => satAll a && satAll b = false
  | Some bt' =>
      (satAll (bt_items bt) && satAll a && satAll b = true → satAll (bt_items bt') = true) ∧
      (isEmpty (bt_items bt') = isEmpty (bt_items bt) && isEmpty a) ∧
      forallb positive (bt_items bt') = true ∧
      (forallb noTrue a = true → forallb noTrue b = true →
       forallb noTrue (bt_items bt) = true →
       forallb noTrue (bt_items bt') = true ∧
       satAll (bt_items bt') = satAll (bt_items bt) && satAll a && (isEmpty a || satAll b))
  end.
Proof using IL BL rec_spec v_ok.
  intros Ha Hb Eb. revert bt. induction a as [|ai a IH]; intros bt Hbt H; simpl in H.
  { injection H as <-. simpl. split; [by intros [[? _]%andb_true_iff _]%andb_true_iff|].
    split; [btaut|]. split; [done|]. intros. split; [done|btaut]. }
  simpl in Ha. apply andb_true_iff in Ha as [Hai Ha]. specialize (IH Ha).
  apply bind_Ok_inv in H as (next & Hn & H).
  destruct (rec_spec _ _ _ Hai Hb Hn) as (N1 & N2 & N3).
  simpl in N2, N3. rewrite Eb in N2, N3. simpl in N2, N3.
  assert (∀ xs bt1, bt_insert_all Less xs bt = Ok bt1 → isEmpty xs = false →
    satAll xs = sat v next → forallb positive xs = true →
    (noTrue next = true → forallb noTrue xs = true) →
    intersectionAndIntersection_loop rec a b bt1 = Ok r →
    match r with
    | None => satAll (ai :: a) && satAll b = false
    | Some bt' =>
        (satAll (bt_items bt) && satAll (ai :: a) && satAll b = true → satAll (bt_items bt') = true) ∧
        (isEmpty (bt_items bt') = isEmpty (bt_items bt) && isEmpty (ai :: a)) ∧
        forallb positive (bt_items bt') = true ∧
        (forallb noTrue (ai :: a) = true → forallb noTrue b = true →
         forallb noTrue (bt_items bt) = true →
         forallb noTrue (bt_items bt') = true ∧
         satAll (bt_items bt') =
           satAll (bt_items bt) && satAll (ai :: a) && (isEmpty (ai :: a) || satAll b))
    end) as Hins.
  { intros xs bt1 H1 He Hs Hp Ht Hloop.
    apply insert_all_sat in H1 as (Hin & Hall & _ & Hemp); [|done..].
    assert (∀ f : Logic T → bool, forallb f xs = true → forallb f (bt_items bt) = true →
      forallb f (bt_items bt1) = true) as Hf.
    { intros f H1 H2. apply forallb_forall_elem. intros y Hy. apply Hin, elem_of_app in Hy.
      rewrite forallb_forall_elem in H1, H2. destruct Hy; auto. }
    specialize (IH bt1 (Hf _ Hp Hbt) Hloop). rewrite forallb_app in Hall.
    assert (isEmpty (xs ++ bt_items bt) = false) as Hne by (by destruct xs).
    rewrite Hne in Hemp. destruct r as [bt'|]; simpl in *.
    - destruct IH as (I1 & I2 & I3 & I4). split; [|split; [|split]].
      + intros [[Sbt [Sai Sa]%andb_true_iff]%andb_true_iff Sb]%andb_true_iff.
        apply I1. rewrite Hall, Hs, N2, Sbt, Sa, Sb; [done|by rewrite Sai, Sb].
      + rewrite I2, Hemp. btaut.
      + auto.
      + intros [T1 T2]%andb_true_iff T3 T4. destruct (N3 T1 T3) as [T5 E5].
        destruct (I4 T2 T3) as [T6 E6]; [by apply Hf; auto|]. split; [done|].
        rewrite E6, Hall, Hs, E5. btaut.
    - rewrite <- andb_assoc, IH. apply andb_false_r. }
  assert (bt_insert_all Less [next] bt = bt1 ← bt_insert Less next bt; Ok bt1) as Hone.
  { simpl. by destruct (bt_insert Less next bt). }
  destruct next as [|t|t|l|l]; try discriminate.
  - apply bind_Ok_inv in H as (bt1 & H1 & H). rewrite H1 in Hone.
    eapply (Hins _ _ Hone); simpl; rewrite ?andb_true_r; auto.
  - destruct (isEmpty l) eqn:El.
    + injection H as <-. simpl in N2. rewrite El in N2. simpl in *.
      destruct (sat v ai), (satAll b); try done; [by specialize (N2 eq_refl)|btaut].
    + apply bind_Ok_inv in H as (bt1 & H1 & H). clear Hone.
      eapply (Hins _ _ H1); simpl; rewrite ?El; auto.
Qed.

Lemma intersectionAndIntersection_spec a b r :
  positive (intersectionLogic a) = true → positive (intersectionLogic b) = true →
  intersectionAndIntersection rec a b = Ok r →
  AND_spec (intersectionLogic a) (intersectionLogic b) r.
Proof using IL BL rec_spec v_ok.
  unfold intersectionAndIntersection. intros Ha Hb H.
  destruct (isEmpty a) eqn:Ea.
  { injection H as <-. apply AND_spec_exact; simpl; rewrite ?Ea; auto. }
  destruct (isEmpty b) eqn:Eb.
  { injection H as <-. apply AND_spec_exact; simpl; rewrite ?Eb; [done|btaut|auto]. }
  apply bind_Ok_inv in H as (bt & Hl & H).
  apply intersectionAndIntersection_loop_spec in Hl; [|done|done|done|by rewrite bt_items_new].
  destruct bt as [bt|]; injection H as <-.
  - destruct Hl as (H1 & H2 & H3 & H4). rewrite bt_items_new, Ea in *.
    split; [exact H3|]. simpl. rewrite H2, Ea, Eb. simpl. split; [by apply H1|].
    intros T1 T2. by apply H4.
  - apply AND_spec_exact; simpl; rewrite ?Ea, ?Eb; auto.
Qed.
End AndRec.

Lemma AND_fuel_meaning fuel (a b r : Logic T) :
  positive a = true → positive b = true → AND_fuel fuel a b = Ok r → AND_spec a b r.
Proof using IL BL v_ok.
  revert a b r. induction fuel as [|fuel IH]; [done|].
  intros [|a|a|a|a] [|b|b|b|b] r Ha Hb H; try discriminate; cbn [AND_fuel] in H.
  - by apply atomAndAtom_spec.
  - by apply atomAndIntersection_spec.
  - by eapply atomAndUnion_spec.
  - by apply AND_spec_comm, atomAndIntersection_spec.
  - by eapply intersectionAndIntersection_spec.
  - by eapply intersectionAndUnion_spec.
  - apply AND_spec_comm. by apply IH.
  - by eapply AND_spec_comm, intersectionAndUnion_spec.
  - by eapply unionAndUnion_spec.
Qed.
End Theory.

(** ** Termination *)
Section Termination.
Context {T : Type} `{!Item T} {B : BTree} {BL : BTreeLaws B}.
Implicit Types (x y : Logic T) (ls : list (Logic T)).

#[local] Hint Resolve bind_returns mapM_returns Less_returns : logic.

Lemma insert_all_returns xs (t : tree (Logic T)) : bt_insert_all Less xs t ≠ OutOfFuel.
Proof using BL. apply bt_insert_all_returns, Less_returns. Qed.

Lemma tree_insert_returns x (t : tree (Logic T)) : bt_insert Less x t ≠ OutOfFuel.
Proof using BL. apply bt_insert_returns, Less_returns. Qed.

Lemma collect_returns xs : collect (T := T) xs ≠ OutOfFuel.
Proof using BL. apply bind_returns; [apply insert_all_returns|done]. Qed.

#[local] Hint Resolve insert_all_returns tree_insert_returns collect_returns : logic.

(** Walk through the binds and tests of a call none of whose parts runs out of
    fuel. *)
Ltac returns :=
  repeat first
    [ discriminate
    | solve [auto with logic]
    | apply bind_returns; [solve [auto with logic]|intros ? _]
    | progress case_match ].

Lemma OR_returns x y : OR x y ≠ OutOfFuel.
Proof using BL.
  revert x. induction y as [|b|b|b IH|b IH] using Logic_nested_ind; intros [|a|a|a|a]; cbn [OR];
    unfold atomOrAtom, atomOrNot, notOrNot, atomOrIntersection, notOrIntersection, atomOrUnion,
      notOrUnion, intersectionOrUnion, intersectionOrIntersection, switch3; try solve [returns].
  unfold unionOrUnion. case_match; [done|]. apply bind_returns; [|intros []; done].
  generalize (bt_new (A := Logic T)). clear -IH BL.
  induction IH as [|bi b Hbi _ IHb]; intros bt; [done|].
  simpl. apply bind_returns; [apply Hbi|]. intros next _. returns.
Qed.

Lemma nodes_elem x ls : x ∈ ls → (nodes x ≤ sum_list_with nodes ls)%nat.
Proof using. induction 1; simpl; lia. Qed.

Lemma nodes_pos x : (1 ≤ nodes x)%nat.
Proof using. destruct x; simpl; lia. Qed.

(** [rec] answers on every pair below the bound. *)
Definition returns_below (rec : Logic T → Logic T → outcome (Logic T)) (n : nat) : Prop :=
  ∀ x y, (2 * (nodes x + nodes y) < n)%nat → rec x y ≠ OutOfFuel.

Lemma notAndUnion_loop_returns rec a b ret n :
  returns_below rec n → (2 * (1 + sum_list_with nodes b) < n)%nat →
  notAndUnion_loop rec a b ret ≠ OutOfFuel.
Proof using.
  intros Hrec. revert ret. induction b as [|bi b IH]; intros ret Hn; simpl; [done|].
  simpl in Hn. apply bind_returns; [apply Hrec; simpl; lia|]. intros next _.
  assert (∀ ret, notAndUnion_loop rec a b ret ≠ OutOfFuel) by (intros; apply IH; lia). returns.
Qed.

Lemma notAndIntersection_loop_returns rec a b ret n :
  returns_below rec n → (2 * (1 + sum_list_with nodes b) < n)%nat →
  notAndIntersection_loop rec a b ret ≠ OutOfFuel.
Proof using.
  intros Hrec. revert ret. induction b as [|bi b IH]; intros ret Hn; simpl; [done|].
  simpl in Hn. apply bind_returns; [apply Hrec; simpl; lia|]. intros next _.
  assert (∀ ret, notAndIntersection_loop rec a b ret ≠ OutOfFuel) by (intros; apply IH; lia). returns.
Qed.

Lemma intersectionAndIntersection_loop_returns rec a b bt n :
  returns_below rec n → (2 * (sum_list_with nodes a + nodes (intersectionLogic b)) < n)%nat →
  intersectionAndIntersection_loop rec a b bt ≠ OutOfFuel.
Proof using BL.
  intros Hrec. revert bt. induction a as [|ai a IH]; intros bt Hn; simpl; [done|].
  simpl in Hn. apply bind_returns; [apply Hrec; simpl; lia|]. intros next _.
  assert (∀ bt, intersectionAndIntersection_loop rec a b bt ≠ OutOfFuel)
    by (intros; apply IH; simpl; lia). returns.
Qed.

Lemma unionAndUnion_loop_returns rec pairs result :
  (∀ x y, (x, y) ∈ pairs → rec x y ≠ OutOfFuel) →
  unionAndUnion_loop rec pairs result ≠ OutOfFuel.
Proof using BL.
  revert result. induction pairs as [|[x y] pairs IH]; intros result H; simpl; [done|].
  apply bind_returns; [apply H; set_solver|]. intros next _.
  assert (∀ r, unionAndUnion_loop rec pairs r ≠ OutOfFuel) as Hr by (intros; apply IH; set_solver).
  destruct result; [auto|apply bind_returns; [apply OR_returns|auto]..].
Qed.

Lemma AND_fuel_returns fuel x y :
  (2 * (nodes x + nodes y) +
    match x, y with unionLogic _, atomLogic _ => 1 | _, _ => 0 end < fuel)%nat →
  AND_fuel fuel x y ≠ OutOfFuel.
Proof using BL.
  revert x y. induction fuel as [|fuel IH]; intros x y Hn; [lia|].
  assert (returns_below (AND_fuel fuel) (fuel - 1)) as Hrec.
  { intros x' y' H. apply IH. destruct x', y'; lia. }
  assert (∀ x' y', (2 * (nodes x' + nodes y') + 1 < fuel)%nat → AND_fuel fuel x' y' ≠ OutOfFuel) as Hrec'.
  { intros x' y' H. apply IH. destruct x', y'; lia. }
  destruct x as [|a|a|a|a], y as [|b|b|b|b]; cbn [AND_fuel]; simpl in Hn;
    unfold atomAndAtom, atomAndNot, notAndNot, atomAndIntersection, switch3; try solve [returns].
  - unfold atomAndUnion. case_match; [done|]. apply bind_returns; [|done].
    apply mapM_returns. intros bi Hbi%nodes_elem. apply Hrec'. simpl. lia.
  - unfold notAndIntersection. case_match; [done|]. apply bind_returns; [|intros []; done].
    eapply notAndIntersection_loop_returns; [exact Hrec|lia].
  - unfold notAndUnion. case_match; [done|]. apply bind_returns; [|intros []; returns].
    eapply notAndUnion_loop_returns; [exact Hrec|lia].
  - unfold notAndIntersection. case_match; [done|]. apply bind_returns; [|intros []; done].
    eapply notAndIntersection_loop_returns; [exact Hrec|lia].
  - unfold intersectionAndIntersection. case_match; [done|]. apply bind_returns; [|intros []; done].
    eapply intersectionAndIntersection_loop_returns; [exact Hrec|simpl; lia].
  - unfold intersectionAndUnion. repeat (case_match; [done|]). apply bind_returns; [|returns].
    apply mapM_returns. intros bi Hbi%nodes_elem. apply Hrec'. simpl. lia.
  - apply IH. simpl. lia.
  - unfold notAndUnion. case_match; [done|]. apply bind_returns; [|intros []; returns].
    eapply notAndUnion_loop_returns; [exact Hrec|lia].
  - unfold intersectionAndUnion. repeat (case_match; [done|]). apply bind_returns; [|returns].
    apply mapM_returns. intros bi Hbi%nodes_elem. apply Hrec'. simpl. lia.
  - unfold unionAndUnion. repeat (case_match; [done|]). apply unionAndUnion_loop_returns.
    intros u w Hxy. apply list_elem_of_bind in Hxy as (u' & Hxy & Hu%nodes_elem).
    apply list_elem_of_bind in Hxy as (w' & Hxy & Hw%nodes_elem).
    apply list_elem_of_singleton in Hxy as [= -> ->]. apply Hrec'. lia.
Qed.
End Termination.

(** ** Negation *)
Section Negation.
Context {T : Type} `{!Item T}.

Lemma NOT_list ls :
  Forall (λ l : Logic T, nilFree l = true →
    ∃ r, NOT l = Ok r ∧ NOT r = Ok l ∧ nilFree r = true ∧ ∀ v, sat v r = negb (sat v l)) ls →
  forallb nilFree ls = true →
  ∃ rs, mapM NOT ls = Ok rs ∧ mapM NOT rs = Ok ls ∧ forallb nilFree rs = true ∧
    isEmpty rs = isEmpty ls ∧
    ∀ v, existsb (sat v) rs = negb (forallb (sat v) ls) ∧
         forallb (sat v) rs = negb (existsb (sat v) ls).
Proof using.
  induction 1 as [|l ls Hl _ IH]; simpl; [intros _; by exists []|].
  intros [H1 H2]%andb_true_iff.
  destruct (Hl H1) as (r & E1 & E1' & N1 & S1).
  destruct (IH H2) as (rs & E2 & E2' & N2 & _ & S2).
  exists (r :: rs). rewrite E1, E2. simpl. rewrite E1', E2', N1, N2. simpl.
  repeat split; destruct (S2 v) as [Sa Sb]; rewrite S1, ?Sa, ?Sb; btauto.
Qed.

Lemma NOT_correct (l : Logic T) :
  nilFree l = true →
  ∃ r, NOT l = Ok r ∧ NOT r = Ok l ∧ nilFree r = true ∧ ∀ v, sat v r = negb (sat v l).
Proof using.
  induction l as [|a|a|ls IH|ls IH] using Logic_nested_ind; intros H; [done|..]; simpl in *.
  - exists (notLogic a). auto.
  - exists (atomLogic a). repeat split. intros v. simpl. by rewrite negb_involutive.
  - destruct (NOT_list ls IH H) as (rs & E1 & E2 & N & Em & S). rewrite E1. simpl.
    exists (unionLogic rs). simpl. rewrite E2. repeat split; [done|]. intros v.
    destruct (S v) as [-> _]. rewrite Em. btauto.
  - destruct (NOT_list ls IH H) as (rs & E1 & E2 & N & Em & S). rewrite E1. simpl.
    exists (intersectionLogic rs). simpl. rewrite E2. repeat split; [done|]. intros v.
    destruct (S v) as [_ ->]. rewrite Em. btauto.
Qed.
End Negation.

(** ** Evaluation over booleans *)

(** No empty list anywhere: [Eval] refuses those with an error. *)
Fixpoint noEmpty {T} (l : Logic T) : bool :=
  match l with
  | nilLogic => false
  | atomLogic _ | notLogic _ => true
  | intersectionLogic ls | unionLogic ls => negb (isEmpty ls) && forallb noEmpty ls
  end.

Lemma mapM_Eval_bool (ls : list (Logic bool)) :
  Forall (λ l, noEmpty l = true → Eval BoolOperator l = Ok (sat id l)) ls →
  forallb noEmpty ls = true → mapM (Eval BoolOperator) ls = Ok (map (sat id) ls).
Proof.
  induction 1 as [|l ls Hl _ IH]; simpl; [done|]. intros [H1 H2]%andb_true_iff.
  by rewrite Hl, IH.
Qed.

Lemma existsb_map {A C} (f : C → bool) (g : A → C) l :
  existsb f (map g l) = existsb (λ x, f (g x)) l.
Proof. induction l as [|x l IH]; simpl; [done|]. by rewrite IH. Qed.

Lemma existsb_negb {A} (f : A → bool) l : existsb (λ x, negb (f x)) l = negb (forallb f l).
Proof. induction l as [|x l IH]; simpl; [done|]. rewrite IH. btauto. Qed.

Lemma Eval_bool_correct (l : Logic bool) :
  noEmpty l = true → Eval BoolOperator l = Ok (sat id l).
Proof.
  induction l as [|a|a|ls IH|ls IH] using Logic_nested_ind; intros H; try done; simpl in *.
  - apply andb_true_iff in H as [He H]. rewrite (mapM_Eval_bool _ IH H).
    destruct ls as [|x ls]; [done|]. simpl. unfold BoolOperator_AND.
    destruct (sat id x); simpl; [|done]. rewrite existsb_map, existsb_negb.
    by destruct (forallb (sat id) ls).
  - apply andb_true_iff in H as [He H]. rewrite (mapM_Eval_bool _ IH H).
    destruct ls as [|x ls]; [done|]. simpl. unfold BoolOperator_OR.
    destruct (sat id x); simpl; [done|]. rewrite existsb_map. unfold id at 1.
    by destruct (existsb (sat id) ls).
Qed.

(** Every valuation of strings respects [String.Compare]. *)
Lemma String_valuation (v : string → bool) a b : item_Compare a b = 0 → v a = v b.
Proof. intros H. apply strings_Compare_eq in H. by rewrite H. Qed.

(** ** Properties *)

(** C13: [OR] is exact on formulas without [NOT]: whenever it returns, the
    result is again such a formula, over the same set [d] of items, and is true
    under a valuation exactly when one of the operands is, whatever
    simplification (absorption, merging of duplicates, collection in an ordered
    tree) produced it.  The valuation need only give equal items of [d] the same
    value. *)
Theorem OR_exact {T} `{!Item T, !ItemLaws T} {B : BTree} {BL : BTreeLaws B}
  (d v : T → bool) (v_ok : ∀ a b, d a = true → d b = true → item_Compare a b = 0 → v a = v b)
  (x y r : Logic T) :
  positiveIn d x = true → positiveIn d y = true → OR x y = Ok r →
  positiveIn d r = true ∧ sat v r = sat v x || sat v y.
Proof. intros Hx Hy H. destruct (OR_meaning d v v_ok x y r Hx Hy H) as (? & ? & _). auto. Qed.

Lemma OR_exact_witness :
  sat (String.eqb "C") (unionLogic [atomLogic "A"; intersectionLogic [atomLogic "B"; atomLogic "C"]])
  = sat (String.eqb "C") (atomLogic "A")
    || sat (String.eqb "C") (intersectionLogic [atomLogic "B"; atomLogic "C"]).
Proof.
  exact (proj2 (OR_exact (BL := ListTree.laws) (λ _, true) (String.eqb "C") (λ a b _ _, String_valuation _ a b)
    (atomLogic "A") (intersectionLogic [atomLogic "B"; atomLogic "C"]) _
    eq_refl eq_refl eq_refl)).
Defined.

(** C14: [AND] never loses a row: on formulas without [NOT], whenever it
    returns, the result is true wherever both operands are, and it is exactly
    their conjunction when neither mentions the constant [True]. *)
Theorem AND_sound {T} `{!Item T, !ItemLaws T} {B : BTree} {BL : BTreeLaws B}
  (d v : T → bool) (v_ok : ∀ a b, d a = true → d b = true → item_Compare a b = 0 → v a = v b)
  (x y r : Logic T) :
  positiveIn d x = true → positiveIn d y = true → AND x y = Ok r →
  positiveIn d r = true ∧
  (sat v x && sat v y = true → sat v r = true) ∧
  (noTrue x = true → noTrue y = true → sat v r = sat v x && sat v y).
Proof.
  intros Hx Hy H. destruct (AND_fuel_meaning d v v_ok _ x y r Hx Hy H) as (? & ? & HT).
  split; [done|]. split; [done|]. intros. by apply HT.
Qed.

Lemma AND_sound_witness :
  sat (String.eqb "A") (unionLogic [intersectionLogic [atomLogic "A"; atomLogic "B"];
                                    intersectionLogic [atomLogic "A"; atomLogic "C"]])
  = sat (String.eqb "A") (atomLogic "A") && sat (String.eqb "A") (unionLogic [atomLogic "B"; atomLogic "C"]).
Proof.
  exact (proj2 (proj2 (AND_sound (BL := ListTree.laws) (λ _, true) (String.eqb "A") (λ a b _ _, String_valuation _ a b)
    (atomLogic "A") (unionLogic [atomLogic "B"; atomLogic "C"]) _
    eq_refl eq_refl eq_refl)) eq_refl eq_refl).
Defined.

(** C15: [AND] always comes back: the mutual recursion of its sixteen cases
    ends within [AND_bound] calls, for all operands, negations and nil
    interfaces included. *)
Theorem AND_terminates {T} `{!Item T} {B : BTree} {BL : BTreeLaws B} (x y : Logic T) :
  AND x y ≠ OutOfFuel.
Proof. apply AND_fuel_returns. unfold AND_bound. destruct x, y; lia. Qed.

Lemma AND_terminates_witness :
  AND (B := ListTree.instance) (unionLogic [atomLogic "A"; notLogic "B"]) (atomLogic "C") ≠ OutOfFuel.
Proof. apply (AND_terminates (BL := ListTree.laws)). Defined.

(** [NOT] succeeds on every formula without a nil interface, is undone by
    a second [NOT], and negates the truth value under every valuation. *)
Theorem NOT_exact {T} `{!Item T} (l : Logic T) :
  nilFree l = true →
  ∃ r, NOT l = Ok r ∧ NOT r = Ok l ∧ ∀ v, sat v r = negb (sat v l).
Proof. intros H. destruct (NOT_correct l H) as (r & ? & ? & _ & ?). eauto. Qed.

Lemma NOT_exact_witness :
  ∃ r, NOT (unionLogic [atomLogic "A"; intersectionLogic [atomLogic "B"; notLogic "C"]]) = Ok r ∧
       NOT r = Ok (unionLogic [atomLogic "A"; intersectionLogic [atomLogic "B"; notLogic "C"]]) ∧
       ∀ v, sat v r = negb (sat v (unionLogic [atomLogic "A"; intersectionLogic [atomLogic "B"; notLogic "C"]])).
Proof. apply NOT_exact. reflexivity. Defined.

(** Folding a formula with [BoolOperator] gives its truth value; the only
    formulas it refuses are those with an empty list. *)
Theorem Eval_BoolOperator (l : Logic bool) :
  noEmpty l = true → Eval BoolOperator l = Ok (sat id l).
Proof. apply Eval_bool_correct. Qed.

Lemma Eval_BoolOperator_witness :
  Eval BoolOperator (unionLogic [notLogic true; intersectionLogic [atomLogic true; notLogic false]])
  = Ok true.
Proof. apply (Eval_BoolOperator (unionLogic [notLogic true; intersectionLogic [atomLogic true; notLogic false]])). reflexivity. Defined.

(** [OR] drops a negated literal that is greater than every literal of the
    union it is added to: the loop of [notOrUnion] has no counterpart of the
    final append of [atomOrUnion], so the rows only the negation selects are
    lost. *)
Theorem OR_drops_negation {T} `{!Item T} {B : BTree} (a : T) (bs : list T) :
  bs ≠ [] → (∀ b, b ∈ bs → item_Compare a b = 1) →
  OR (notLogic a) (unionLogic (map atomLogic bs)) = Ok (unionLogic (map atomLogic bs)).
Proof.
  intros Hne Hgt. cbn [OR]. unfold notOrUnion.
  assert (isEmpty (map (@atomLogic T) bs) = false) as -> by (by destruct bs).
  do 2 f_equal. clear Hne.
  enough (∀ ret, notOrUnion_loop a (map atomLogic bs) ret false = ret ++ map atomLogic bs) as H
    by apply (H []).
  induction bs as [|b bs IH]; intros ret; simpl; [by rewrite app_nil_r|].
  rewrite (Hgt b) by set_solver. simpl. rewrite IH by set_solver. by rewrite <- app_assoc.
Qed.

Lemma OR_drops_negation_witness :
  OR (B := ListTree.instance) (notLogic "C") (unionLogic [atomLogic "A"; atomLogic "B"])
  = Ok (unionLogic [atomLogic "A"; atomLogic "B"]) ∧
  sat (λ _, false) (notLogic "C") = true ∧
  sat (λ _, false) (unionLogic [atomLogic "A"; atomLogic "B"]) = false.
Proof.
  split; [|by split].
  apply (OR_drops_negation "C" ["A"; "B"]); [discriminate|].
  intros b Hb. rewrite elem_of_cons, list_elem_of_singleton in Hb. destruct Hb as [->| ->]; reflexivity.
Defined.

(** A literal meeting its own negation inside a union removes both,
    instead of making the union [True]: the rows outside the rest of the union
    are lost. *)
Theorem OR_cancels_complement {T} `{!Item T} {B : BTree} (a : T) (rest : list (Logic T)) :
  item_Compare a a = 0 →
  OR (atomLogic a) (unionLogic (notLogic a :: rest)) = Ok (unionLogic rest).
Proof.
  intros Ha. cbn [OR]. unfold atomOrUnion. simpl. rewrite Ha. simpl.
  enough (∀ ret, atomOrUnion_loop a rest ret true = (ret ++ rest, true)) as -> by done.
  induction rest as [|x rest IH]; intros ret; simpl; [by rewrite app_nil_r|].
  by rewrite IH, <- app_assoc.
Qed.

Lemma OR_cancels_complement_witness :
  OR (B := ListTree.instance) (atomLogic "A") (unionLogic [notLogic "A"; atomLogic "B"])
  = Ok (unionLogic [atomLogic "B"]).
Proof. apply (OR_cancels_complement "A" [atomLogic "B"]). reflexivity. Defined.

(** The conjunction of a negated literal with [False] is the nil interface,
    not [False]; conjoining, negating or evaluating that value panics. *)
Theorem AND_not_False_nil {T} `{!Item T} {B : BTree} (a : T) (o : Operator T) (l : Logic T) :
  AND (notLogic a) False_ = Ok nilLogic ∧ AND False_ (notLogic a) = Ok nilLogic ∧
  AND nilLogic l = Panic ∧ NOT (T := T) nilLogic = Panic ∧ Eval o nilLogic = Panic.
Proof. repeat split; reflexivity. Qed.
