(* ===== verification/LogicNormal.v ===== *)
(** * The constants stay outside

    [True] and [False] are the empty union and the empty intersection.  On
    formulas without [NOT], [AND] and [OR] never leave an empty list inside a
    result: it is a constant, or a formula without empty lists.  Evaluation
    relies on it, since an empty list anywhere ends it. *)
From S2P Require Import Prelude BTree Logic LogicTheory.

(** Only atoms and non-empty lists. *)
Fixpoint full {T} (l : Logic T) : bool :=
  match l with
  | nilLogic | notLogic _ => false
  | atomLogic _ => true
  | intersectionLogic ls | unionLogic ls => negb (isEmpty ls) && forallb full ls
  end.

Definition normal {T} (l : Logic T) : Prop := full l = true ∨ l = True_ ∨ l = False_.

Lemma full_noEmpty {T} (l : Logic T) : full l = true → noEmpty l = true.
Proof.
  induction l as [|a|a|ls IH|ls IH] using Logic_nested_ind; simpl; try done;
    intros [-> H]%andb_true_iff; simpl; rewrite forallb_forall_elem in *;
    rewrite Forall_forall in IH; auto.
Qed.

(** Every such formula holds when all atoms do. *)
Lemma full_positive {T} (l : Logic T) :
  full l = true → positiveIn (λ _, true) l = true ∧ sat (λ _, true) l = true.
Proof.
  induction l as [|a|a|ls IH|ls IH] using Logic_nested_ind; simpl; try done;
    intros [Hn H]%andb_true_iff; apply negb_true_iff in Hn; rewrite Hn, ?forallb_forall_elem in *;
    rewrite Forall_forall in IH; (split; [intros x Hx; by apply IH; auto|]).
  - rewrite andb_true_l, forallb_forall_elem. intros x Hx. apply IH; auto.
  - destruct ls as [|l ls]; [done|]. simpl. destruct (IH l) as [_ ->]; [by left|apply H; by left|done].
Qed.

Lemma fulls_positive {T} (ls : list (Logic T)) :
  forallb full ls = true →
  forallb (positiveIn (λ _, true)) ls = true ∧ forallb (sat (λ _, true)) ls = true.
Proof.
  rewrite !forallb_forall_elem. intros H. split; intros x Hx; by apply full_positive, H.
Qed.

Section Normal.
Context {T : Type} `{!Item T} {IL : ItemLaws T} {B : BTree} {BL : BTreeLaws B}.

(** A tree keeps a batch of such formulas, and is not empty after one. *)
Lemma insert_all_full xs (t t' : tree (Logic T)) :
  forallb full xs = true → forallb full (bt_items t) = true → isEmpty xs = false →
  bt_insert_all Less xs t = Ok t' → forallb full (bt_items t') = true ∧ isEmpty (bt_items t') = false.
Proof using BL.
  intros Hx Ht He H.
  destruct (bt_insert_all_mem Less (λ _ _, True) xs t t') as [H1 H2]; [done..|].
  split.
  - rewrite forallb_forall_elem in *. intros y Hy. destruct (H1 y Hy); auto.
  - destruct xs as [|x xs]; [done|]. destruct (H2 x) as (z & Hz & _); [left; by left|].
    by eapply isEmpty_false.
Qed.

Lemma insert_full x (t t' : tree (Logic T)) :
  full x = true → forallb full (bt_items t) = true →
  bt_insert Less x t = Ok t' → forallb full (bt_items t') = true ∧ isEmpty (bt_items t') = false.
Proof using BL.
  intros Hx Ht H. apply (insert_all_full [x] t t'); simpl; [by rewrite Hx|done|done|by rewrite H].
Qed.

Lemma collect_full xs ys :
  forallb full xs = true → isEmpty xs = false → collect xs = Ok ys →
  forallb full ys = true ∧ isEmpty ys = false.
Proof using BL.
  unfold collect. intros Hx He H. apply bind_Ok_inv in H as (t & Ht & E). injection E as <-.
  eapply insert_all_full; [exact Hx| |exact He|exact Ht]. by rewrite bt_items_new.
Qed.

Lemma full_union ls : forallb full ls = true ∧ isEmpty ls = false → full (T := T) (unionLogic ls) = true.
Proof using. intros [H1 H2]. simpl. by rewrite H1, H2. Qed.

Lemma full_intersection ls :
  forallb full ls = true ∧ isEmpty ls = false → full (T := T) (intersectionLogic ls) = true.
Proof using. intros [H1 H2]. simpl. by rewrite H1, H2. Qed.

Lemma full_list {ls : list (Logic T)} :
  negb (isEmpty ls) && forallb full ls = true → forallb full ls = true ∧ isEmpty ls = false.
Proof using. intros [H1 H2]%andb_true_iff. apply negb_true_iff in H1. auto. Qed.

Lemma switch3_full c (x y z r : Logic T) :
  full x = true → full y = true → full z = true → switch3 c (Ok x) (Ok y) (Ok z) = Ok r → full r = true.
Proof using. unfold switch3. intros. repeat case_match; by simplify_eq. Qed.

Lemma atomOrUnion_full a b r :
  full (unionLogic b) = true → atomOrUnion a b = Ok r → full r = true.
Proof using IL.
  intros [Hb He]%full_list H. unfold atomOrUnion in H. rewrite He in H.
  destruct (atomOrUnion_loop a b [] false) as [ret added] eqn:El.
  apply (atomOrUnion_loop_spec (λ _, true) (λ _, true)) in El as (_ & Hf & Hne);
    [|done|done|by apply fulls_positive].
  injection H as <-. apply full_union. specialize (Hf full eq_refl eq_refl Hb).
  destruct added; [split; [done|by apply Hne]|].
  split; [by rewrite forallb_app, Hf|by destruct ret].
Qed.

Lemma intersectionOrUnion_full a b r :
  full (intersectionLogic a) = true → full (unionLogic b) = true →
  intersectionOrUnion a b = Ok r → full r = true.
Proof using BL.
  intros Ha Hb H. destruct (full_list Ha) as [Ha' Ea], (full_list Hb) as [Hb' Eb].
  unfold intersectionOrUnion in H. rewrite Ea, Eb in H. destruct (sharesLiteral a b); [by injection H as <-|].
  apply bind_Ok_inv in H as (ret & Hc & H). injection H as <-. apply full_union.
  apply (collect_full (intersectionLogic a :: b)); [simpl; by rewrite Ea, Ha', Hb'|done|exact Hc].
Qed.

Lemma unionOrUnion_loop_full rec a b (bt : tree (Logic T)) r :
  (∀ bi r, bi ∈ b → rec (unionLogic a) bi = Ok r → full r = true) →
  forallb full (bt_items bt) = true → unionOrUnion_loop rec a b bt = Ok r →
  ∃ bt', r = Some bt' ∧ forallb full (bt_items bt') = true ∧
    (isEmpty b = false ∨ isEmpty (bt_items bt) = false → isEmpty (bt_items bt') = false).
Proof using BL.
  intros Hrec. revert bt. induction b as [|bi b IH]; intros bt Hbt H; simpl in H.
  { injection H as <-. exists bt. split; [done|]. split; [done|]. by intros [?|?]. }
  apply bind_Ok_inv in H as (next & Hn & H).
  assert (full next = true) as Hf by (apply (Hrec bi); [by left|done]).
  assert (∀ bt1, forallb full (bt_items bt1) = true ∧ isEmpty (bt_items bt1) = false →
    unionOrUnion_loop rec a b bt1 = Ok r → ∃ bt', r = Some bt' ∧ forallb full (bt_items bt') = true ∧
    (isEmpty (bi :: b) = false ∨ isEmpty (bt_items bt) = false → isEmpty (bt_items bt') = false)) as Hgo.
  { intros bt1 [H1 H2] Hl. destruct (IH (λ bi r Hbi, Hrec bi r ltac:(by right)) bt1 H1 Hl) as (bt' & -> & ? & He).
    exists bt'. split; [done|]. split; [done|]. intros _. apply He. by right. }
  destruct next as [|t|t|l|l]; try done.
  - apply bind_Ok_inv in H as (bt1 & H1 & H). apply (Hgo bt1); [|done]. by eapply insert_full.
  - apply bind_Ok_inv in H as (bt1 & H1 & H). apply (Hgo bt1); [|done]. by eapply insert_full.
  - destruct (full_list Hf) as [Hl El]. rewrite El in H.
    apply bind_Ok_inv in H as (bt1 & H1 & H). apply (Hgo bt1); [|done]. by eapply insert_all_full.
Qed.

Lemma OR_full (a b r : Logic T) : full a = true → full b = true → OR a b = Ok r → full r = true.
Proof using IL BL.
  revert a r. induction b as [|b|b|b IH|b IH] using Logic_nested_ind; intros [|a|a|a|a] r Ha Hb H;
    try discriminate; cbn [OR] in H.
  - unfold atomOrAtom in H. eapply switch3_full in H; [exact H|done..].
  - unfold atomOrIntersection in H. repeat case_match; simplify_eq; try done. simpl in *. by rewrite Ha.
  - by eapply atomOrUnion_full.
  - unfold atomOrIntersection in H. repeat case_match; simplify_eq; try done. simpl in *. by rewrite Hb.
  - unfold intersectionOrIntersection in H. repeat case_match; simplify_eq; try done. simpl in *. by rewrite Ha, Hb.
  - eapply intersectionOrUnion_full; [..|exact H]; done.
  - by eapply atomOrUnion_full.
  - eapply intersectionOrUnion_full; [..|exact H]; done.
  - destruct (full_list Ha) as [Ha' Ea], (full_list Hb) as [Hb' Eb].
    unfold unionOrUnion in H. rewrite Ea, Eb in H. simpl in H. apply bind_Ok_inv in H as (bt & Hl & H).
    apply unionOrUnion_loop_full in Hl as (bt' & -> & H1 & H2).
    + injection H as <-. apply full_union. auto.
    + intros bi r' Hbi. rewrite Forall_forall in IH. apply IH; [done|done|].
      rewrite forallb_forall_elem in Hb'. auto.
    + by rewrite bt_items_new.
Qed.

Lemma atomAndIntersection_full a b r :
  full (intersectionLogic b) = true → atomAndIntersection a b = Ok r → full r = true.
Proof using.
  intros [Hb He]%full_list H. unfold atomAndIntersection in H. rewrite He in H.
  destruct (fulls_positive b Hb) as [Hp Hs].
  pose proof (atomAndIntersection_loop_spec (λ _, true) (λ _, true) ltac:(done) a b [] false eq_refl Hp) as Hl.
  destruct (atomAndIntersection_loop a b [] false) as [[ret added]|]; [|simpl in Hl; by rewrite Hs in Hl].
  destruct Hl as (_ & Hf & Hlen). injection H as <-. specialize (Hf full eq_refl eq_refl Hb).
  apply full_intersection. destruct b; [done|]. destruct ret; [simpl in Hlen; lia|].
  destruct added; [done|]. by rewrite forallb_app, Hf.
Qed.

Section AndRec.
Context (rec : Logic T → Logic T → outcome (Logic T)).
Context (rec_full : ∀ a b r, full a = true → full b = true → rec a b = Ok r → full r = true).

Lemma products_full a b rs :
  full a = true → full (unionLogic b) = true → mapM (λ bi, rec a bi) b = Ok rs →
  forallb full rs = true ∧ isEmpty rs = false.
Proof using rec_full.
  intros Ha [Hb He]%full_list H. apply mapM_Ok in H. rewrite !forallb_forall_elem in *. split.
  - intros r Hr. apply list_elem_of_lookup in Hr as [i Hi].
    destruct (Forall2_lookup_r _ _ _ _ _ H Hi) as (bi & Hbi & E).
    apply (rec_full a bi); [done| |done]. apply Hb. by eapply list_elem_of_lookup_2.
  - by destruct H.
Qed.

Lemma atomAndUnion_full a b r :
  full (unionLogic b) = true → atomAndUnion rec a b = Ok r → full r = true.
Proof using rec_full.
  unfold atomAndUnion. intros Hb H. destruct (existsb _ _); [by injection H as <-|].
  apply bind_Ok_inv in H as (ret & Hm & H). injection H as <-.
  by apply full_union, (products_full (atomLogic a) b).
Qed.

Lemma intersectionAndUnion_full a b r :
  full (intersectionLogic a) = true → full (unionLogic b) = true →
  intersectionAndUnion rec a b = Ok r → full r = true.
Proof using BL rec_full.
  unfold intersectionAndUnion. intros Ha Hb H.
  destruct (isEmpty a || isEmpty b); [by injection H as <-|].
  destruct (sharesLiteral a b); [by injection H as <-|].
  apply bind_Ok_inv in H as (nexts & Hm & H). apply bind_Ok_inv in H as (ret & Hc & H). injection H as <-.
  apply products_full in Hm as [H1 H2]; [|done..].
  by apply full_union, (collect_full nexts).
Qed.

Lemma unionAndUnion_loop_full pairs result r :
  forallb (λ '(x, y), full x && full y) pairs = true →
  result = nilLogic ∧ pairs ≠ [] ∨ full result = true →
  unionAndUnion_loop rec pairs result = Ok r → full r = true.
Proof using IL BL rec_full.
  revert result. induction pairs as [|[ai bj] pairs IH]; intros result Hp Hres H; simpl in H.
  { injection H as <-. by destruct Hres as [[_ ?]|]. }
  simpl in Hp. apply andb_true_iff in Hp as [[Hai Hbj]%andb_true_iff Hp].
  apply bind_Ok_inv in H as (next & Hn & H). pose proof (rec_full _ _ _ Hai Hbj Hn) as Hf.
  destruct Hres as [[-> _]|Hres]; [by apply (IH next Hp (or_intror Hf))|].
  assert (OR result next ≫= unionAndUnion_loop rec pairs = Ok r) as H'.
  { destruct result; [discriminate|exact H..]. }
  clear H. apply bind_Ok_inv in H' as (res' & Ho & H).
  apply (IH res' Hp); [|done]. right. by apply (OR_full result next).
Qed.

Lemma intersectionAndIntersection_loop_full a b (bt : tree (Logic T)) r :
  forallb full a = true → full (intersectionLogic b) = true → forallb full (bt_items bt) = true →
  intersectionAndIntersection_loop rec a b bt = Ok r →
  ∃ bt', r = Some bt' ∧ forallb full (bt_items bt') = true ∧
    (isEmpty a = false ∨ isEmpty (bt_items bt) = false → isEmpty (bt_items bt') = false).
Proof using BL rec_full.
  revert bt. induction a as [|ai a IH]; intros bt Ha Hb Hbt H; simpl in H.
  { injection H as <-. exists bt. split; [done|]. split; [done|]. by intros [?|?]. }
  simpl in Ha. apply andb_true_iff in Ha as [Hai Ha]. apply bind_Ok_inv in H as (next & Hn & H).
  pose proof (rec_full _ _ _ Hai Hb Hn) as Hf.
  assert (∀ bt1, forallb full (bt_items bt1) = true ∧ isEmpty (bt_items bt1) = false →
    intersectionAndIntersection_loop rec a b bt1 = Ok r →
    ∃ bt', r = Some bt' ∧ forallb full (bt_items bt') = true ∧
    (isEmpty (ai :: a) = false ∨ isEmpty (bt_items bt) = false → isEmpty (bt_items bt') = false)) as Hgo.
  { intros bt1 [H1 H2] Hl. destruct (IH bt1 Ha Hb H1 Hl) as (bt' & -> & ? & He).
    exists bt'. split; [done|]. split; [done|]. intros _. apply He. by right. }
  destruct next as [|t|t|l|l]; try done.
  - apply bind_Ok_inv in H as (bt1 & H1 & H). apply (Hgo bt1); [|done]. by eapply insert_full.
  - destruct (full_list Hf) as [Hl El]. rewrite El in H.
    apply bind_Ok_inv in H as (bt1 & H1 & H). apply (Hgo bt1); [|done]. by eapply insert_all_full.
Qed.

Lemma intersectionAndIntersection_full a b r :
  full (intersectionLogic a) = true → full (intersectionLogic b) = true →
  intersectionAndIntersection rec a b = Ok r → full r = true.
Proof using BL rec_full.
  intros Ha Hb H. destruct (full_list Ha) as [Ha' Ea], (full_list Hb) as [Hb' Eb].
  unfold intersectionAndIntersection in H. rewrite Ea, Eb in H. simpl in H.
  apply bind_Ok_inv in H as (bt & Hl & H).
  apply intersectionAndIntersection_loop_full in Hl as (bt' & -> & H1 & H2); [|done|done|by rewrite bt_items_new].
  injection H as <-. apply full_intersection. auto.
Qed.
End AndRec.

Lemma AND_fuel_full fuel (a b r : Logic T) :
  full a = true → full b = true → AND_fuel fuel a b = Ok r → full r = true.
Proof using IL BL.
  revert a b r. induction fuel as [|fuel IH]; [done|].
  intros [|a|a|a|a] [|b|b|b|b] r Ha Hb H; try discriminate; cbn [AND_fuel] in H.
  - unfold atomAndAtom in H. eapply switch3_full in H; [exact H|done..].
  - by eapply atomAndIntersection_full.
  - eapply (atomAndUnion_full (AND_fuel fuel)); [exact IH|exact Hb|exact H].
  - by eapply atomAndIntersection_full.
  - eapply (intersectionAndIntersection_full (AND_fuel fuel)); [exact IH|exact Ha|exact Hb|exact H].
  - eapply (intersectionAndUnion_full (AND_fuel fuel)); [exact IH| | |exact H]; done.
  - by apply (IH (atomLogic b) (unionLogic a)).
  - eapply (intersectionAndUnion_full (AND_fuel fuel)); [exact IH| | |exact H]; done.
  - destruct (full_list Ha) as [Ha' Ea], (full_list Hb) as [Hb' Eb].
    unfold unionAndUnion in H. rewrite Ea, Eb in H.
    eapply unionAndUnion_loop_full; [exact IH| | |exact H]; [by apply pairs_forallb|].
    left. split; [done|]. by destruct a, b.
Qed.

(** ** With the constants *)

Lemma OR_normal (a b r : Logic T) : normal a → normal b → OR a b = Ok r → normal r.
Proof using IL BL.
  unfold normal. intros [Ha|[->| ->]] [Hb|[->| ->]] H; [left; by apply (OR_full a b)|..];
    try (destruct a as [|t|t|l|l]; try discriminate); try (destruct b as [|t'|t'|l'|l']; try discriminate);
    unfold True_, False_ in *; cbn in H;
    unfold intersectionOrUnion, unionOrUnion, intersectionOrIntersection in H; cbn in H;
    repeat case_match; simplify_eq; auto.
  by rewrite orb_true_r in *.
Qed.

Lemma AND_fuel_normal fuel (a b r : Logic T) : normal a → normal b → AND_fuel fuel a b = Ok r → normal r.
Proof using IL BL.
  unfold normal. intros [Ha|[->| ->]] [Hb|[->| ->]] H; [left; by apply (AND_fuel_full fuel a b)|..];
    (destruct fuel as [|fuel]; [done|]);
    try (destruct a as [|t|t|l|l]; try discriminate); try (destruct b as [|t'|t'|l'|l']; try discriminate);
    unfold True_, False_ in *; cbn in H;
    unfold intersectionAndUnion, unionAndUnion, intersectionAndIntersection, atomAndUnion in H; cbn in H;
    repeat case_match; simplify_eq; rewrite ?orb_true_r in *; auto; try done.
  destruct fuel; [done|]. injection H as <-. auto.
Qed.
End Normal.
