(* ===== verification/GoStd.v ===== *)
(** * The Go library calls the models use

    [strconv] and [sort] are modelled by executable definitions.  The date
    parser depends on the host's time zone and the binary search comes from
    [golang.org/x/exp]; both are interfaces here, with the behaviour the
    callers rely on as laws, and a concrete instance of each. *)
From S2P Require Import Prelude.
From Stdlib Require Import DecimalString DecimalZ DecimalPos.

(** ** strconv *)

(** [strconv.FormatInt(z, 10)]. *)
Definition FormatInt (z : Z) : string := NilZero.string_of_int (Z.to_int z).

(** The digits [strconv.ParseInt(s, 10, 64)] accepts: an optional sign and at
    least one digit. *)
Definition parse_int (s : string) : option Z :=
  match s with
  | String "+"%char s => (λ d, Z.of_int (Decimal.Pos d)) <$> NilZero.uint_of_string s
  | _ => Z.of_int <$> NilZero.int_of_string s
  end.

(** [strconv.ParseInt(s, 10, 64)]: a syntax error or a range error. *)
Definition ParseInt (s : string) : outcome Z :=
  match parse_int s with
  | None => Err (NewError "invalid syntax")
  | Some z =>
      if (- 2 ^ 63 <=? z) && (z <? 2 ^ 63) then Ok z
      else Err (NewError "value out of range")
  end.

Lemma to_int_nonnil z : Z.to_int z ≠ Decimal.Pos Decimal.Nil ∧ Z.to_int z ≠ Decimal.Neg Decimal.Nil.
Proof.
  destruct z as [|p|p]; simpl; split; try discriminate;
    intros [= H]; by apply Unsigned.to_uint_nonnil in H.
Qed.

Lemma parse_format z : parse_int (FormatInt z) = Some z.
Proof.
  destruct (to_int_nonnil z) as [H1 H2].
  pose proof (NilZero.isi _ H1 H2) as E. fold (FormatInt z) in E.
  assert (Z.of_int <$> NilZero.int_of_string (FormatInt z) = Some z) as E'.
  { rewrite E. simpl. by rewrite DecimalZ.of_to. }
  clear E H1 H2. unfold parse_int. destruct (FormatInt z) as [|c s] eqn:Ez; [done|].
  enough (c ≠ "+"%char) as Hc.
  { destruct c as [[] [] [] [] [] [] [] []]; try exact E'. done. }
  unfold FormatInt in Ez. destruct (Z.to_int z) as [u|u]; simpl in Ez.
  - destruct u; simpl in Ez; congruence.
  - congruence.
Qed.

Lemma ParseInt_FormatInt z : inS 64 z → ParseInt (FormatInt z) = Ok z.
Proof.
  unfold inS. intros Hz. unfold ParseInt. rewrite parse_format.
  replace (64 - 1) with 63 in Hz by lia.
  destruct (Z.leb_spec (- 2 ^ 63) z), (Z.ltb_spec z (2 ^ 63)); done || lia.
Qed.

(** [strconv.ParseUint(s, 10, 64)]: digits only. *)
Definition ParseUint (s : string) : outcome Z :=
  match NilZero.uint_of_string s with
  | None => Err (NewError "invalid syntax")
  | Some d =>
      let z := Z.of_int (Decimal.Pos d) in
      if z <? 2 ^ 64 then Ok z else Err (NewError "value out of range")
  end.

(** The first result of [strconv.ParseInt] and [strconv.ParseUint] when the
    error is ignored: zero for bad syntax, the nearest limit out of range. *)
Definition ParseInt_value (s : string) : Z :=
  match parse_int s with
  | None => 0
  | Some z => Z.max (- 2 ^ 63) (Z.min z (2 ^ 63 - 1))
  end.

Definition ParseUint_value (s : string) : Z :=
  match NilZero.uint_of_string s with
  | None => 0
  | Some d => Z.min (Z.of_int (Decimal.Pos d)) (2 ^ 64 - 1)
  end.

(** ** sort *)

(** [sort.Ints]. *)
Definition sort_Ints (l : list Z) : list Z := merge_sort Z.le l.

Lemma sort_Ints_sorted l : StronglySorted Z.le (sort_Ints l).
Proof. apply StronglySorted_merge_sort; apply _. Qed.

Lemma sort_Ints_perm l : sort_Ints l ≡ₚ l.
Proof. apply merge_sort_Permutation. Qed.

(** ** time *)

(** An instant, in nanoseconds since the Unix epoch. *)
Definition Time := Z.

(** The parts of package time that depend on the host: parsing in the local
    zone and in UTC, formatting and printing. *)
Class TimeLib := {
  ParseInLocation : string → string → option Time;
  time_Parse : string → string → option Time;
  Format : string → Time → string;
  Time_Sprint : Time → string;
}.

(** A host on which no text is a date. *)
Module NoDates.
#[export] Instance instance : TimeLib := {|
  ParseInLocation := λ _ _, None;
  time_Parse := λ _ _, None;
  Format := λ _ _, "";
  Time_Sprint := FormatInt;
|}.
End NoDates.

Definition Hour : Z := 3600000000000.

(** ** golang.org/x/exp/slices *)

(** [slices.BinarySearch] on ints; only the [bool] of its answer is used. *)
Class SliceLib := BinarySearch : list Z → Z → bool.

(** It finds the target exactly when a sorted slice contains it. *)
Class SliceLaws (S : SliceLib) : Prop :=
  BinarySearch_spec l x : StronglySorted Z.le l → BinarySearch l x = true ↔ x ∈ l.

Module LinearSearch.
#[export] Instance instance : SliceLib := λ l x, bool_decide (x ∈ l).
#[export] Instance laws : SliceLaws instance.
Proof. intros l x _. apply bool_decide_eq_true. Qed.
End LinearSearch.

(** ** Dynamic values *)

(** The dynamic types an [interface{}] holds on its way from a comparison to a
    shard computer. *)
Inductive iface :=
| Inil
| Iint (n : Z)
| Iint32 (n : Z)
| Iint64 (n : Z)
| Istring (s : string)
| Itime (t : Time).

#[global] Instance iface_eq_dec : EqDecision iface.
Proof. solve_decision. Defined.

(** ** Iteration over a map *)

(** The order in which [range] and [sync.Map.Range] visit a map is not
    specified: it is some arrangement of the entries. *)
Class MapIter := iter_order : ∀ {K V} `{Countable K}, gmap K V → list (K * V).

Class MapIterLaws (I : MapIter) : Prop :=
  iter_order_perm : ∀ K V `{Countable K} (m : gmap K V), iter_order m ≡ₚ map_to_list m.

Module ForwardIter.
#[export] Instance instance : MapIter := λ K V _ _ m, map_to_list m.
#[export] Instance laws : MapIterLaws instance.
Proof. intros K V ?? m. done. Qed.
End ForwardIter.

Module BackwardIter.
#[export] Instance instance : MapIter := λ K V _ _ m, reverse (map_to_list m).
#[export] Instance laws : MapIterLaws instance.
Proof. intros K V ?? m. apply reverse_Permutation. Qed.
End BackwardIter.

Section MapIterFacts.
Context {I : MapIter} {IL : MapIterLaws I} {K V : Type} `{Countable K}.

Lemma iter_order_lookup (m : gmap K V) k v : (k, v) ∈ iter_order m ↔ m !! k = Some v.
Proof using IL. rewrite iter_order_perm. apply elem_of_map_to_list. Qed.

Lemma iter_order_NoDup (m : gmap K V) : NoDup (iter_order m).*1.
Proof using IL. rewrite iter_order_perm. apply NoDup_fst_map_to_list. Qed.

Lemma iter_order_length (m : gmap K V) : length (iter_order m) = size m.
Proof using IL. rewrite iter_order_perm. apply length_map_to_list. Qed.

Lemma list_find_iter (m : gmap K V) k :
  snd <$> list_find (λ kv, kv.1 = k) (iter_order m) = (λ v, (k, v)) <$> m !! k.
Proof using IL.
  destruct (list_find _ _) as [[i [d v]]|] eqn:Ef; simpl.
  - apply list_find_Some in Ef as (Ei & Ed & _). simpl in Ed. subst d.
    apply list_elem_of_lookup_2, iter_order_lookup in Ei. by rewrite Ei.
  - destruct (m !! k) as [v|] eqn:E; [|done]. apply iter_order_lookup in E.
    apply list_find_None in Ef. rewrite Forall_forall in Ef. by destruct (Ef _ E).
Qed.
End MapIterFacts.

(** ** Order of strings *)

Definition string_le (a b : string) : Prop := strings_Compare a b ≤ 0.

#[global] Instance string_le_dec : RelDecision string_le.
Proof. intros a b. apply Z.le_dec. Defined.

(** [sort.Strings]. *)
Definition sort_Strings (l : list string) : list string := merge_sort string_le l.

Lemma ascii_compare_trans a b c : Ascii.compare a b ≠ Gt → Ascii.compare b c ≠ Gt →
  Ascii.compare a c ≠ Gt ∧ (Ascii.compare a c = Eq → Ascii.compare a b = Eq ∧ Ascii.compare b c = Eq).
Proof.
  unfold Ascii.compare. rewrite !N.compare_eq_iff.
  change (N_of_ascii a ?= N_of_ascii b)%N with (N.compare (N_of_ascii a) (N_of_ascii b)).
  intros H1%N.compare_ngt_iff H2%N.compare_ngt_iff. split; [apply N.compare_ngt_iff; lia|]. lia.
Qed.

Lemma string_compare_trans a b c : String.compare a b ≠ Gt → String.compare b c ≠ Gt →
  String.compare a c ≠ Gt.
Proof.
  revert b c. induction a as [|x a IH]; intros [|y b] [|z c]; simpl; try done.
  intros H1 H2. destruct (ascii_compare_trans x y z) as [H H'].
  - by destruct (Ascii.compare x y).
  - by destruct (Ascii.compare y z).
  - destruct (Ascii.compare x z) eqn:E; try done. destruct (H' eq_refl) as [E1 E2].
    rewrite E1 in H1. rewrite E2 in H2. eauto.
Qed.

Lemma string_le_compare a b : string_le a b ↔ String.compare a b ≠ Gt.
Proof. unfold string_le, strings_Compare. destruct (String.compare a b); simpl; split; done || lia. Qed.

#[global] Instance string_le_trans : Transitive string_le.
Proof. intros a b c. rewrite !string_le_compare. apply string_compare_trans. Qed.

#[global] Instance string_le_total : Total string_le.
Proof.
  intros a b. unfold string_le. rewrite (strings_Compare_antisym a b). lia.
Qed.

#[global] Instance string_le_antisym : AntiSymm (=) string_le.
Proof.
  intros a b. unfold string_le. rewrite (strings_Compare_antisym a b). intros ??.
  apply strings_Compare_eq. lia.
Qed.

Lemma sort_Strings_perm l : sort_Strings l ≡ₚ l.
Proof. apply merge_sort_Permutation. Qed.

(** Sorting forgets the order it was given. *)
Lemma sort_Strings_eq l l' : l ≡ₚ l' → sort_Strings l = sort_Strings l'.
Proof.
  intros H. apply (StronglySorted_unique string_le); try apply StronglySorted_merge_sort; try apply _.
  unfold sort_Strings. by rewrite !merge_sort_Permutation.
Qed.
