(* ===== verification/Value.v ===== *)
(** * Values: [pkg/proto/value.go]

    [proto.Value] is the interface of a cell, an argument or a literal.  Each
    Go type that implements it is a constructor, each method a function by
    cases.  A [float64] is an IEEE number of 53 bits; its text form and the
    decimal package are interfaces. *)
From S2P Require Import Prelude GoStd.
From Stdlib Require Import SpecFloat.

(** ** Floats *)

Abbreviation float64 := spec_float.

(** [float64(i)]: to the nearest, ties to even. *)
Definition float_of_int (i : Z) : float64 := binary_normalize 53 1024 i 0 false.

(** The integer part, towards zero; nothing for NaN and the infinities. *)
Definition float_trunc (f : float64) : option Z :=
  match f with
  | S754_zero _ => Some 0
  | S754_finite s m e =>
      let a := if 0 <=? e then Zpos m * 2 ^ e else Zpos m / 2 ^ (- e) in
      Some (if s then - a else a)
  | _ => None
  end.

(** [int64(f)] and [uint64(f)]; out of range the language leaves the result to
    the machine, here the indefinite integer of amd64. *)
Definition int64_of_float (f : float64) : Z :=
  match float_trunc f with
  | Some z => if (- 2 ^ 63 <=? z) && (z <? 2 ^ 63) then z else - 2 ^ 63
  | None => - 2 ^ 63
  end.

Definition uint64_of_float (f : float64) : Z :=
  match float_trunc f with
  | Some z => if (0 <=? z) && (z <? 2 ^ 64) then z else 2 ^ 63
  | None => 2 ^ 63
  end.

(** [f != 0]. *)
Definition float_nonzero (f : float64) : bool :=
  match f with S754_zero _ => false | _ => true end.

(** [strconv.FormatFloat(f, 'g', -1, 64)] and [strconv.ParseFloat(s, 64)], which
    returns a number with an error out of range. *)
Class FloatText := {
  FormatFloat : float64 → string;
  ParseFloat : string → float64 * option error;
}.

(** ** [github.com/shopspring/decimal] *)

(** [Coefficient() * 10 ^ Exponent()]. *)
Record decimal := mkDecimal { Coefficient : Z; Exponent : Z }.

#[global] Instance decimal_eq_dec : EqDecision decimal.
Proof. solve_decision. Defined.

(** [dec_Invalid] is the number a failed conversion returns beside its error. *)
Class DecimalLib := {
  dec_NewFromInt : Z → decimal;
  dec_NewFromString : string → outcome decimal;
  dec_Invalid : decimal;
  dec_NewFromFloat : float64 → outcome decimal;
  dec_String : decimal → string;
  dec_InexactFloat64 : decimal → float64;
  dec_IntPart : decimal → Z;
  dec_LessThan : decimal → decimal → bool;
  dec_GreaterThan : decimal → decimal → bool;
  dec_IsZero : decimal → bool;
  dec_Add : decimal → decimal → decimal;
  dec_Sub : decimal → decimal → decimal;
  dec_Mul : decimal → decimal → decimal;
  dec_Div : decimal → decimal → decimal;
  dec_Floor : decimal → decimal;
}.

(** [x] is the integer [n]. *)
Definition dec_int (x : decimal) (n : Z) : Prop := Coefficient x * 10 ^ Z.max 0 (Exponent x) = n * 10 ^ Z.max 0 (- Exponent x).

(** The documented behaviour the callers rely on, on integers. *)
Class DecimalLaws (D : DecimalLib) : Prop := {
  dec_Invalid_int : dec_int dec_Invalid 0;
  dec_NewFromInt_int n : inS 64 n → dec_int (dec_NewFromInt n) n;
  dec_NewFromString_int n : ∃ x, dec_NewFromString (FormatInt n) = Ok x ∧ dec_int x n;
  dec_LessThan_int x y m n : dec_int x m → dec_int y n → dec_LessThan x y = (m <? n);
  dec_GreaterThan_int x y m n : dec_int x m → dec_int y n → dec_GreaterThan x y = (n <? m);
  dec_IsZero_int x n : dec_int x n → dec_IsZero x = (n =? 0);
  dec_IntPart_int x n : dec_int x n → inS 64 n → dec_IntPart x = n;
  dec_Mul_int x y m n : dec_int x m → dec_int y n → dec_int (dec_Mul x y) (m * n);
  dec_Add_int x y m n : dec_int x m → dec_int y n → dec_int (dec_Add x y) (m + n);
  dec_Sub_int x y m n : dec_int x m → dec_int y n → dec_int (dec_Sub x y) (m - n);
}.

Definition dec_Zero {D : DecimalLib} : decimal := dec_NewFromInt 0.

(** ** Families *)

Inductive ValueFamily :=
| ValueFamilyZero
| ValueFamilyString | ValueFamilySign | ValueFamilyUnsigned | ValueFamilyFloat
| ValueFamilyDecimal | ValueFamilyBool | ValueFamilyTime | ValueFamilyDuration.

#[global] Instance ValueFamily_eq_dec : EqDecision ValueFamily.
Proof. solve_decision. Defined.

Definition _valueFamilyNames (v : ValueFamily) : string * bool :=
  match v with
  | ValueFamilyZero => ("", false)
  | ValueFamilyString => ("STRING", false)
  | ValueFamilySign => ("SIGNED", true)
  | ValueFamilyUnsigned => ("UNSIGNED", true)
  | ValueFamilyFloat => ("FLOAT", true)
  | ValueFamilyDecimal => ("DECIMAL", true)
  | ValueFamilyBool => ("BOOL", true)
  | ValueFamilyTime => ("TIME", false)
  | ValueFamilyDuration => ("DURATION", false)
  end.

Definition IsNumberic (v : ValueFamily) : bool := snd (_valueFamilyNames v).

Definition ValueFamily_String (v : ValueFamily) : string := fst (_valueFamilyNames v).

(** ** Values *)

Inductive ProtoValue :=
| int64Value (i : Z)
| uint64Value (u : Z)
| float64Value (f : float64)
| stringValue (s : string)
| boolValue (b : bool)
| decimalValue (d : decimal)
| timeValue (t : Time)
| typedValue (v : ProtoValue) (typed : ValueFamily).

#[global] Instance ProtoValue_eq_dec : EqDecision ProtoValue.
Proof. assert (EqDecision float64) by solve_decision. solve_decision. Defined.

(** The dynamic types [NewValue] is given; [basic] are those of the shard
    calculation, [Dother] is any other type. *)
Inductive dynamic :=
| basic (x : iface)
| Dnull
| Dint8 (n : Z) | Dint16 (n : Z)
| Duint8 (n : Z) | Duint16 (n : Z) | Duint32 (n : Z) | Duint64 (n : Z) | Duint (n : Z)
| Dbool (b : bool)
| Dfloat32 (f : float64) | Dfloat64 (f : float64)
| Ddecimal (d : decimal)
| DNullDecimal (d : option decimal)
| Dgxbig (text : option string)
| Dother.

(** [NewValue] on the types of the shard calculation; [None] is the nil
    interface. *)
Definition NewValue_basic (input : iface) : outcome (option ProtoValue) :=
  Ok match input with
     | Inil => None
     | Iint n | Iint32 n | Iint64 n => Some (int64Value n)
     | Istring s => Some (stringValue s)
     | Itime t => Some (timeValue t)
     end.

Section Value.
Context {TL : TimeLib} {FT : FloatText} {D : DecimalLib}.

(** [MustNewValueDecimalString]. *)
Definition MustNewValueDecimalString (s : string) : outcome ProtoValue :=
  match dec_NewFromString s with
  | Ok d => Ok (decimalValue d)
  | _ => Panic
  end.

Definition NewValue (input : dynamic) : outcome (option ProtoValue) :=
  match input with
  | basic x => NewValue_basic x
  | Dnull => Ok None
  | Dint8 n | Dint16 n => Ok (Some (int64Value n))
  | Duint8 n | Duint16 n | Duint32 n | Duint64 n | Duint n => Ok (Some (uint64Value n))
  | Dbool b => Ok (Some (boolValue b))
  | Dfloat32 f | Dfloat64 f => Ok (Some (float64Value f))
  | Ddecimal d => Ok (Some (decimalValue d))
  | DNullDecimal None => Ok None
  | DNullDecimal (Some d) => Ok (Some (decimalValue d))
  | Dgxbig None => Ok None
  | Dgxbig (Some s) => v ← MustNewValueDecimalString s; Ok (Some v)
  | Dother => Err (NewError "unsupported constant value type")
  end.

Definition MustNewValue (input : dynamic) : outcome (option ProtoValue) :=
  match NewValue input with
  | Err _ => Panic
  | r => r
  end.

Fixpoint Family (v : ProtoValue) : ValueFamily :=
  match v with
  | int64Value _ => ValueFamilySign
  | uint64Value _ => ValueFamilyUnsigned
  | float64Value _ => ValueFamilyFloat
  | stringValue _ => ValueFamilyString
  | boolValue _ => ValueFamilyBool
  | decimalValue _ => ValueFamilyDecimal
  | timeValue _ => ValueFamilyTime
  | typedValue _ f => f
  end.

Fixpoint Value_String (v : ProtoValue) : string :=
  match v with
  | int64Value i => FormatInt i
  | uint64Value u => FormatInt u
  | float64Value f => FormatFloat f
  | stringValue s => s
  | boolValue b => if b then "1" else "0"
  | decimalValue d => dec_String d
  | timeValue t => Format "2006-01-02 15:04:05" t
  | typedValue v _ => Value_String v
  end.

Definition compactLayout : string := "20060102150405".

Fixpoint Float64 (v : ProtoValue) : outcome float64 :=
  match v with
  | int64Value i => Ok (float_of_int i)
  | uint64Value u => Ok (float_of_int u)
  | float64Value f => Ok f
  | stringValue s =>
      match ParseFloat s with
      | (f, None) => Ok f
      | (_, Some e) => Err e
      end
  | boolValue b => Ok (float_of_int (if b then 1 else 0))
  | decimalValue d => Ok (dec_InexactFloat64 d)
  | timeValue t => Ok (ParseFloat (Format compactLayout t)).1
  | typedValue v _ => Float64 v
  end.

(** The part of a string before its first dot. *)
Fixpoint beforeDot (s : string) : string :=
  match s with
  | EmptyString => EmptyString
  | String c s => if (c =? ".")%char then EmptyString else String c (beforeDot s)
  end.

Fixpoint Int64 (v : ProtoValue) : outcome Z :=
  match v with
  | int64Value i => Ok i
  | uint64Value u => Ok (wrapS 64 u)
  | float64Value f => Ok (int64_of_float f)
  | stringValue s => ParseInt (beforeDot s)
  | boolValue b => Ok (if b then 1 else 0)
  | decimalValue d => Ok (dec_IntPart d)
  | timeValue t => Ok (ParseInt_value (Format compactLayout t))
  | typedValue v _ => Int64 v
  end.

Fixpoint Uint64 (v : ProtoValue) : outcome Z :=
  match v with
  | int64Value i => Ok (i mod 2 ^ 64)
  | uint64Value u => Ok u
  | float64Value f => Ok (uint64_of_float f)
  | stringValue s => ParseUint s
  | boolValue b => Ok (if b then 1 else 0)
  | decimalValue d => Ok (dec_IntPart d mod 2 ^ 64)
  | timeValue t => Ok (ParseUint_value (Format compactLayout t))
  | typedValue v _ => Uint64 v
  end.

Fixpoint Decimal (v : ProtoValue) : outcome decimal :=
  match v with
  | int64Value i => Ok (dec_NewFromInt i)
  | uint64Value u => dec_NewFromString (FormatInt u)
  | float64Value f => dec_NewFromFloat f
  | stringValue s => dec_NewFromString s
  | boolValue b => Ok (if b then dec_NewFromInt 1 else dec_Zero)
  | decimalValue d => Ok d
  | timeValue t => dec_NewFromString (Format compactLayout t)
  | typedValue v _ => Decimal v
  end.

(** A leading space of Unicode or NUL, by its UTF-8 bytes. *)
Definition stripSpace (s : string) : option string :=
  let code c := Z.of_N (N_of_ascii c) in
  match s with
  | String a s1 =>
      let a := code a in
      if (a =? 0) || ((9 <=? a) && (a <=? 13)) || (a =? 32) then Some s1 else
      match s1 with
      | String b s2 =>
          let b := code b in
          if (a =? 0xC2) && ((b =? 0x85) || (b =? 0xA0)) then Some s2 else
          match s2 with
          | String c s3 =>
              let c := code c in
              if ((a =? 0xE1) && (b =? 0x9A) && (c =? 0x80))
                 || ((a =? 0xE2) && (b =? 0x80) &&
                     (((0x80 <=? c) && (c <=? 0x8A)) || (c =? 0xA8) || (c =? 0xA9) || (c =? 0xAF)))
                 || ((a =? 0xE2) && (b =? 0x81) && (c =? 0x9F))
                 || ((a =? 0xE3) && (b =? 0x80) && (c =? 0x80))
              then Some s3 else None
          | EmptyString => None
          end
      | EmptyString => None
      end
  | EmptyString => None
  end.

(** [strings.TrimFunc(s, ...) == ""]: nothing but spaces. *)
Fixpoint onlySpaces (fuel : nat) (s : string) : bool :=
  match fuel with
  | O => false
  | S fuel =>
      match s with
      | EmptyString => true
      | _ => match stripSpace s with Some s => onlySpaces fuel s | None => false end
      end
  end.

Fixpoint Bool (v : ProtoValue) : outcome bool :=
  match v with
  | int64Value i => Ok (negb (i =? 0))
  | uint64Value u => Ok (negb (u =? 0))
  | float64Value f => Ok (float_nonzero f)
  | stringValue s => Ok (negb (onlySpaces (S (String.length s)) s))
  | boolValue b => Ok b
  | decimalValue d => Ok (negb (dec_IsZero d))
  | timeValue _ => Ok true
  | typedValue v _ => Bool v
  end.

(** The zero [time.Time], the first instant of year 1. *)
Definition zeroTime : Time := -62135596800 * 1000000000.

Definition valueLayouts : list string := [
  "2006-01-02"; "2006-01-02 15:04:05"; "2006-01-02 15:04:05.000"; "2006-01-02 15:04:05.000000"].

Fixpoint parseValueTime (layouts : list string) (input : string) : outcome Time :=
  match layouts with
  | [] => Err (NewError "cannot parse time")
  | layout :: layouts =>
      match time_Parse layout input with
      | Some t => Ok t
      | None => parseValueTime layouts input
      end
  end.

Fixpoint Value_Time (v : ProtoValue) : outcome Time :=
  match v with
  | int64Value _ => Err (NewError "cannot convert int64 to time")
  | uint64Value _ => Err (NewError "cannot convert uint64 to time")
  | float64Value _ => Err (NewError "cannot convert float64 to time")
  | stringValue s => if (s =? "")%string then Ok zeroTime else parseValueTime valueLayouts s
  | boolValue _ => Err (NewError "cannot convert bool to time")
  | decimalValue _ => Err (NewError "cannot convert decimal to time")
  | timeValue t => Ok t
  | typedValue v _ => Value_Time v
  end.

(** [x, err := v.Decimal(); if err != nil { x = decimal.Zero }]. *)
Definition DecimalOrZero (v : ProtoValue) : outcome decimal :=
  match Decimal v with
  | Err _ => Ok dec_Zero
  | r => r
  end.

Definition CompareValue (a b : option ProtoValue) : outcome Z :=
  match a, b with
  | Some a, Some b =>
      if IsNumberic (Family a) || IsNumberic (Family b) then
        x ← DecimalOrZero a;
        y ← DecimalOrZero b;
        Ok (if dec_LessThan x y then -1 else if dec_GreaterThan x y then 1 else 0)
      else Ok (strings_Compare (Value_String a) (Value_String b))
  | _, _ => Panic
  end.
End Value.

(** ** Integers *)

(** The integer a value of an integer type stands for. *)
Definition integer (v : ProtoValue) : option Z :=
  match v with
  | int64Value i => if (- 2 ^ 63 <=? i) && (i <? 2 ^ 63) then Some i else None
  | uint64Value u => if (0 <=? u) && (u <? 2 ^ 64) then Some u else None
  | boolValue b => Some (if b then 1 else 0)
  | _ => None
  end.

Section Integers.
Context {TL : TimeLib} {FT : FloatText} {D : DecimalLib} {DL : DecimalLaws D}.

Lemma integer_inv v n : integer v = Some n →
  IsNumberic (Family v) = true ∧ ∃ x, Decimal v = Ok x ∧ dec_int x n.
Proof using DL.
  destruct v as [i|u|f|s|b|d|t|v fam]; simpl; try done.
  - destruct (Z.leb_spec (- 2 ^ 63) i), (Z.ltb_spec i (2 ^ 63)); simpl; try done.
    intros [= <-]. split; [done|]. eexists. split; [done|]. apply dec_NewFromInt_int. unfold inS. lia.
  - destruct (Z.leb_spec 0 u), (Z.ltb_spec u (2 ^ 64)); simpl; try done.
    intros [= <-]. split; [done|]. apply dec_NewFromString_int.
  - intros [= <-]. split; [done|]. eexists. split; [done|].
    destruct b; apply dec_NewFromInt_int; unfold inS; lia.
Qed.

(** Values of the integer types are ordered as integers, whatever the
    types: no signed or unsigned wrap-around disturbs the order, also between
    [int64] and [uint64]. *)
Theorem CompareValue_integers a b m n :
  integer a = Some m → integer b = Some n →
  CompareValue (Some a) (Some b) = Ok (compareZ m n).
Proof using DL.
  intros (Ha & x & Hx & Ix)%integer_inv (_ & y & Hy & Iy)%integer_inv.
  unfold CompareValue, DecimalOrZero. rewrite Ha, Hx, Hy. simpl.
  rewrite (dec_LessThan_int x y m n), (dec_GreaterThan_int x y m n) by done.
  unfold compareZ. by rewrite Z.gtb_ltb.
Qed.
End Integers.

(** ** A concrete decimal package *)
Module ExactDecimal.

(** The coefficient at a smaller exponent. *)
Definition rescale (x : decimal) (e : Z) : Z := Coefficient x * 10 ^ (Exponent x - e).

Definition common (x y : decimal) : Z := Z.min 0 (Z.min (Exponent x) (Exponent y)).

Definition parse (s : string) : outcome decimal :=
  match parse_int s with
  | Some z => Ok (mkDecimal z 0)
  | None => Err (NewError "can't convert to decimal")
  end.

Definition intPart (x : decimal) : Z :=
  if 0 <=? Exponent x then Coefficient x * 10 ^ Exponent x else Z.quot (Coefficient x) (10 ^ (- Exponent x)).

#[export] Instance instance : DecimalLib := {|
  dec_NewFromInt n := mkDecimal n 0;
  dec_NewFromString := parse;
  dec_Invalid := mkDecimal 0 0;
  dec_NewFromFloat f := Ok (mkDecimal (default 0 (float_trunc f)) 0);
  dec_String x := FormatInt (intPart x);
  dec_InexactFloat64 x := float_of_int (intPart x);
  dec_IntPart := intPart;
  dec_LessThan x y := rescale x (common x y) <? rescale y (common x y);
  dec_GreaterThan x y := rescale y (common x y) <? rescale x (common x y);
  dec_IsZero x := Coefficient x =? 0;
  dec_Add x y := mkDecimal (rescale x (common x y) + rescale y (common x y)) (common x y);
  dec_Sub x y := mkDecimal (rescale x (common x y) - rescale y (common x y)) (common x y);
  dec_Mul x y := mkDecimal (Coefficient x * Coefficient y) (Exponent x + Exponent y);
  dec_Div x y := mkDecimal (Z.quot (intPart x) (intPart y)) 0;
  dec_Floor x := mkDecimal (if 0 <=? Exponent x then intPart x else Coefficient x / 10 ^ (- Exponent x)) 0;
|}.

Lemma pow_cancel a b k : 0 ≤ k → a * 10 ^ k = b * 10 ^ k ↔ a = b.
Proof. intros Hk. pose proof (Z.pow_pos_nonneg 10 k). split; [|by intros ->]. intros H'. nia. Qed.

(** The integer, at any exponent that is small enough. *)
Lemma dec_int_rescale x n e : e ≤ 0 → e ≤ Exponent x → dec_int x n ↔ rescale x e = n * 10 ^ (- e).
Proof.
  intros H0 He. unfold dec_int, rescale.
  rewrite <- (pow_cancel _ _ (Z.min 0 (Exponent x) - e)) by lia.
  rewrite <- !Z.mul_assoc, <- !Z.pow_add_r by lia.
  by replace (Z.max 0 (Exponent x) + (Z.min 0 (Exponent x) - e)) with (Exponent x - e) by lia;
    replace (Z.max 0 (- Exponent x) + (Z.min 0 (Exponent x) - e)) with (- e) by lia.
Qed.

Lemma rescale_common x y m n : dec_int x m → dec_int y n →
  rescale x (common x y) = m * 10 ^ (- common x y) ∧ rescale y (common x y) = n * 10 ^ (- common x y).
Proof. unfold common. intros Hx Hy. split; apply dec_int_rescale; done || lia. Qed.

Lemma rescale_ltb m n k : 0 ≤ k → (m * 10 ^ k <? n * 10 ^ k) = (m <? n).
Proof.
  intros Hk. pose proof (Z.pow_pos_nonneg 10 k). destruct (Z.ltb_spec m n), (Z.ltb_spec (m * 10 ^ k) (n * 10 ^ k)); nia.
Qed.

Lemma dec_int_common x y c n : c = n * 10 ^ (- common x y) → dec_int (mkDecimal c (common x y)) n.
Proof.
  intros ->. apply (dec_int_rescale _ _ (common x y)); unfold rescale, common; simpl; [lia..|].
  rewrite Z.sub_diag, Z.mul_1_r. done.
Qed.

#[export] Instance laws : DecimalLaws instance.
Proof.
  split; simpl.
  - done.
  - intros n _. done.
  - intros n. unfold parse. rewrite parse_format. eexists. split; [done|]. done.
  - intros x y m n Hx Hy. destruct (rescale_common x y m n Hx Hy) as [-> ->].
    apply rescale_ltb. unfold common. lia.
  - intros x y m n Hx Hy. destruct (rescale_common x y m n Hx Hy) as [-> ->].
    apply rescale_ltb. unfold common. lia.
  - intros x n. unfold dec_int. intros H.
    pose proof (Z.pow_pos_nonneg 10 (Z.max 0 (Exponent x))). pose proof (Z.pow_pos_nonneg 10 (Z.max 0 (- Exponent x))).
    destruct (Z.eqb_spec (Coefficient x) 0), (Z.eqb_spec n 0); nia.
  - intros x n. unfold dec_int, intPart. intros H _. destruct (Z.leb_spec 0 (Exponent x)).
    + rewrite Z.max_r, Z.max_l in H by lia. lia.
    + rewrite Z.max_l, Z.max_r in H by lia. rewrite Z.mul_1_r in H. rewrite H.
      apply Z.quot_mul. pose proof (Z.pow_pos_nonneg 10 (- Exponent x)). lia.
  - intros x y m n Hx Hy.
    apply (dec_int_rescale x m (Z.min 0 (Exponent x))) in Hx; [|lia..].
    apply (dec_int_rescale y n (Z.min 0 (Exponent y))) in Hy; [|lia..].
    apply (dec_int_rescale _ _ (Z.min 0 (Exponent x) + Z.min 0 (Exponent y))); unfold rescale in *; simpl; [lia..|].
    replace (Exponent x + Exponent y - _) with
      ((Exponent x - Z.min 0 (Exponent x)) + (Exponent y - Z.min 0 (Exponent y))) by lia.
    replace (- (Z.min 0 (Exponent x) + Z.min 0 (Exponent y))) with (- Z.min 0 (Exponent x) + - Z.min 0 (Exponent y)) by lia.
    rewrite !Z.pow_add_r by lia. rewrite Z.mul_shuffle1, Hx, Hy. ring.
  - intros x y m n Hx Hy. destruct (rescale_common x y m n Hx Hy) as [-> ->]. apply dec_int_common. lia.
  - intros x y m n Hx Hy. destruct (rescale_common x y m n Hx Hy) as [-> ->]. apply dec_int_common. lia.
Qed.
End ExactDecimal.

(** A host that prints no floats. *)
Module NoFloats.
#[export] Instance instance : FloatText := {|
  FormatFloat := λ _, "";
  ParseFloat := λ _, (S754_zero false, Some (NewError "invalid syntax"));
|}.
End NoFloats.

Module ValueExamples.
Import NoDates NoFloats ExactDecimal.

(** The least [int64] is below the greatest [uint64]. *)
Lemma CompareValue_integers_witness :
  CompareValue (Some (int64Value (- 2 ^ 63))) (Some (uint64Value (2 ^ 64 - 1))) = Ok (-1).
Proof. exact (CompareValue_integers (DL := laws) (int64Value (- 2 ^ 63)) (uint64Value (2 ^ 64 - 1)) (- 2 ^ 63) (2 ^ 64 - 1) eq_refl eq_refl). Defined.
End ValueExamples.
