(* ===== verification/Cmp.v ===== *)
(** * Comparisons: [pkg/runtime/cmp] and their order in [pkg/runtime/calc/misc.go]

    A [Comparative] is a column, an operator and a value kept as text with a
    kind that says how to read it.  The second half is the order the formula
    builder sorts comparisons by. *)
From S2P Require Import Prelude BTree Logic GoStd.

(** [Kzero] and [Czero] are the zero values of the two enumerations. *)
Inductive Kind := Kzero | Kint | Kstring | Kdate.
Inductive Comparison := Czero | Ceq | Cne | Cgt | Cgte | Clt | Clte.

#[global] Instance Kind_eq_dec : EqDecision Kind.
Proof. solve_decision. Defined.
#[global] Instance Comparison_eq_dec : EqDecision Comparison.
Proof. solve_decision. Defined.

Definition comparison_index (c : Comparison) : Z :=
  match c with
  | Czero => 0 | Ceq => 1 | Cne => 2 | Cgt => 3 | Cgte => 4 | Clt => 5 | Clte => 6
  end.

Definition Kind_String (k : Kind) : string :=
  match k with Kint => "int" | Kstring => "string" | Kdate => "date" | Kzero => "" end.

Definition Comparison_String (c : Comparison) : string :=
  match c with
  | Cgt => ">" | Cgte => ">=" | Clt => "<" | Clte => "<=" | Ceq => "=" | Cne => "<>"
  | Czero => ""
  end.

(** The name index is built from the names, with [!=] as a second name. *)
Definition ParseComparison (s : string) : option Comparison :=
  if String.eqb s "!=" then Some Cne
  else list_find (λ c, Comparison_String c = s) [Ceq; Cne; Cgt; Cgte; Clt; Clte] ≫= λ p, Some p.2.

Record Comparative := mkComparative {
  cmp_k : Kind;
  cmp_key : string;
  cmp_c : Comparison;
  cmp_v : string;
}.

#[global] Instance Comparative_eq_dec : EqDecision Comparative.
Proof. solve_decision. Defined.

Definition New (ky : string) (comparison : Comparison) (value : string) (kind : Kind) : Comparative :=
  {| cmp_k := kind; cmp_key := ky; cmp_c := comparison; cmp_v := value |}.

Definition NewInt64 (ky : string) (comparison : Comparison) (value : Z) : Comparative :=
  New ky comparison (FormatInt value) Kint.

Definition NewString (ky : string) (comparison : Comparison) (value : string) : Comparative :=
  New ky comparison value Kstring.

Definition SetComparison (x : Comparative) (comparison : Comparison) : Comparative :=
  {| cmp_k := cmp_k x; cmp_key := cmp_key x; cmp_c := comparison; cmp_v := cmp_v x |}.

Definition SetKind (x : Comparative) (kind : Kind) : Comparative :=
  {| cmp_k := kind; cmp_key := cmp_key x; cmp_c := cmp_c x; cmp_v := cmp_v x |}.

Definition Comparative_String (x : Comparative) : string :=
  "(" +:+ cmp_key x +:+ Comparison_String (cmp_c x) +:+ cmp_v x +:+ ")".

Definition _timeLayouts : list string := [
  "2006-01-02"; "15:04:05"; "2006-01-02 15:04:05"; "2006-01-02 15:04:05.000";
  "Mon Jan 02 15:04:05 MST 2006" ].

Section Cmp.
Context {TL : TimeLib}.

Definition NewDate (ky : string) (comparison : Comparison) (value : Time) : Comparative :=
  New ky comparison (Format "2006-01-02 15:04:05" value) Kdate.

(** The first layout that fits. *)
Fixpoint parseDate (layouts : list string) (s : string) : outcome Time :=
  match layouts with
  | [] => Err (NewError "invalid date string")
  | it :: rest =>
      match ParseInLocation it s with
      | Some t => Ok t
      | None => parseDate rest s
      end
  end.

Definition parseDateAuto (s : string) : outcome Time := parseDate _timeLayouts s.

Definition Value (x : Comparative) : outcome iface :=
  match cmp_k x with
  | Kint => n ← ParseInt (cmp_v x); Ok (Iint64 n)
  | Kdate => d ← parseDateAuto (cmp_v x); Ok (Itime d)
  | Kstring => Ok (Istring (cmp_v x))
  | Kzero => Err (NewError "invalid comparative kind")
  end.

Definition MustValue (x : Comparative) : outcome iface :=
  match Value x with Err _ => Panic | r => r end.

(** ** [calc/misc.go]: ordering *)

(** [v, _ := x.Value()]: the value, nil on error. *)
Definition ValueOrNil (x : Comparative) : iface :=
  match Value x with Ok i => i | _ => Inil end.

Definition innerCompareComparative (prev next : Comparative) (valueOnly : bool) : Z :=
  let byValue :=
    if String.eqb (cmp_v prev) (cmp_v next) then 0 else
    match ValueOrNil prev, ValueOrNil next with
    | Inil, Inil => 0
    | Inil, _ => -1
    | _, Inil => 1
    | Itime a, Itime b => compareZ a b
    | Iint64 a, Iint64 b => compareZ a b
    | _, _ => strings_Compare (cmp_v prev) (cmp_v next)
    end in
  if valueOnly then byValue else
  let c0 := strings_Compare (cmp_key prev) (cmp_key next) in
  if negb (c0 =? 0) then c0
  else if comparison_index (cmp_c prev) <? comparison_index (cmp_c next) then -1
  else if comparison_index (cmp_c prev) >? comparison_index (cmp_c next) then 1
  else byValue.

Definition compareComparativeValue (prev next : Comparative) : Z :=
  innerCompareComparative prev next true.

Definition compareComparative (prev next : Comparative) : Z :=
  innerCompareComparative prev next false.

(** [fmt.Sprint] of a value. *)
Definition Sprint (x : iface) : string :=
  match x with
  | Inil => "<nil>"
  | Iint n | Iint32 n | Iint64 n => FormatInt n
  | Istring s => s
  | Itime t => Time_Sprint t
  end.

Definition compareValue (prev next : iface) : Z :=
  match prev, next with
  | Inil, Inil => 0
  | Inil, _ => -1
  | _, Inil => 1
  | Iint64 x, Iint64 y => compareZ x y
  | Itime x, Itime y => compareZ x y
  | _, _ => strings_Compare (Sprint prev) (Sprint next)
  end.

(** Comparisons are the items of the planner's formulas. *)
#[export] Instance Comparative_Item : Item Comparative := compareComparative.

Lemma innerCompare_range x y b :
  innerCompareComparative x y b = -1 ∨ innerCompareComparative x y b = 0 ∨
  innerCompareComparative x y b = 1.
Proof using.
  unfold innerCompareComparative, compareZ, strings_Compare.
  pose proof (comparison_Z_range (String.compare (cmp_key x) (cmp_key y))).
  pose proof (comparison_Z_range (String.compare (cmp_v x) (cmp_v y))).
  repeat case_match; simplify_eq; auto; lia.
Qed.

Lemma innerCompare_antisym x y b :
  innerCompareComparative y x b = - innerCompareComparative x y b.
Proof using.
  unfold innerCompareComparative.
  rewrite (String.eqb_sym (cmp_v y) (cmp_v x)), !(strings_Compare_antisym (cmp_v x) (cmp_v y)),
    !(strings_Compare_antisym (cmp_key x) (cmp_key y)).
  destruct b.
  - destruct (String.eqb (cmp_v x) (cmp_v y)); [done|].
    destruct (ValueOrNil x), (ValueOrNil y); try done; apply compareZ_antisym.
  - destruct (Z.eqb_spec (strings_Compare (cmp_key x) (cmp_key y)) 0) as [->|Hne]; simpl.
    + destruct (Z.ltb_spec (comparison_index (cmp_c x)) (comparison_index (cmp_c y)));
      destruct (Z.ltb_spec (comparison_index (cmp_c y)) (comparison_index (cmp_c x)));
      rewrite ?Z.gtb_ltb; try lia.
      * destruct (Z.ltb_spec (comparison_index (cmp_c x)) (comparison_index (cmp_c y))); lia.
      * destruct (Z.ltb_spec (comparison_index (cmp_c y)) (comparison_index (cmp_c x))); lia.
      * destruct (Z.ltb_spec (comparison_index (cmp_c x)) (comparison_index (cmp_c y))); [lia|].
        destruct (Z.ltb_spec (comparison_index (cmp_c y)) (comparison_index (cmp_c x))); [lia|].
        destruct (String.eqb (cmp_v x) (cmp_v y)); [done|].
        destruct (ValueOrNil x), (ValueOrNil y); try done; apply compareZ_antisym.
    + destruct (Z.eqb_spec (- strings_Compare (cmp_key x) (cmp_key y)) 0); [lia|]. done.
Qed.

#[export] Instance Comparative_laws : ItemLaws Comparative.
Proof using. split; intros; [apply innerCompare_range|apply innerCompare_antisym]. Qed.
End Cmp.
