(* ===== verification/Ast.v ===== *)
(** * Expressions: [pkg/runtime/ast]

    The nodes of a WHERE clause: [expression.go], [predicate.go],
    [expression_atom.go] and [function.go].  The Go interfaces [ExpressionNode],
    [PredicateNode] and [ExpressionAtom] are mutual inductive types whose
    constructors are the node types.  A function argument carries a tag and a
    value of the tagged type, one constructor for each. *)
From S2P Require Import Prelude GoStd Value Cmp.

Inductive FunctionType := Fudf | Fscalar | Fspec | Fpasswd.

Inductive CastType :=
| CastToBinary | CastToNChar | CastToChar | CastToDate | CastToDateTime | CastToTime | CastToJson
| CastToDecimal | CastToSigned | CastToUnsigned | CastToSignedInteger | CastToUnsignedInteger.

Record ConvertDataType := mkConvertDataType {
  typ : CastType;
  dimension0 : Z;
  dimension1 : Z;
  charset : string;
}.

Inductive ExpressionNode :=
| LogicalExpressionNode (Or : bool) (Left Right : ExpressionNode)
| NotExpressionNode (E : ExpressionNode)
| PredicateExpressionNode (P : PredicateNode)
with PredicateNode :=
| LikePredicateNode (Not : bool) (Left Right : PredicateNode)
| RegexpPredicationNode (Left Right : PredicateNode) (Not : bool)
| BinaryComparisonPredicateNode (Left Right : PredicateNode) (Op : Comparison)
| AtomPredicateNode (A : ExpressionAtom)
| BetweenPredicateNode (Not : bool) (Key Left Right : PredicateNode)
| InPredicateNode (Not : bool) (P : PredicateNode) (E : list ExpressionNode)
with ExpressionAtom :=
| IntervalExpressionAtom (Unit : string) (Value : PredicateNode)
| SystemVariableExpressionAtom (Name : string) (System Global : bool)
| UnaryExpressionAtom (Operator : string) (Inner : UnaryNode)
| ConstantExpressionAtom (Inner : dynamic)
| ColumnNameExpressionAtom (c : list string)
| VariableExpressionAtom (n : Z)
| MathExpressionAtom (Left : ExpressionAtom) (Operator : string) (Right : ExpressionAtom)
| NestedExpressionAtom (First : ExpressionNode)
| FunctionCallExpressionAtom (F : FunctionNode)
with UnaryNode :=
| UnaryAtom (a : ExpressionAtom)
| UnaryComparison (Left Right : PredicateNode) (Op : Comparison)
with FunctionNode :=
| Function_ (typ : FunctionType) (name : string) (args : list FunctionArg)
| AggrFunction (flag : Z) (name aggregator : string) (args : list FunctionArg)
| CaseWhenElseFunction (CaseBlock : option ExpressionNode) (BranchBlocks : list (FunctionArg * FunctionArg))
    (ElseBlock : option FunctionArg)
| CastFunction (isCast : bool) (src : ExpressionNode) (cast : string + ConvertDataType)
with FunctionArg :=
| FunctionArgConstant (v : dynamic)
| FunctionArgColumn (c : list string)
| FunctionArgExpression (e : ExpressionNode)
| FunctionArgCall (f : FunctionNode).

(** Induction along the nodes a visitor of WHERE clauses descends into. *)
Scheme ExpressionNode_mind := Induction for ExpressionNode Sort Prop
with PredicateNode_mind := Induction for PredicateNode Sort Prop
with ExpressionAtom_mind := Induction for ExpressionAtom Sort Prop
with UnaryNode_mind := Induction for UnaryNode Sort Prop.

Combined Scheme where_ind from ExpressionNode_mind, PredicateNode_mind, ExpressionAtom_mind, UnaryNode_mind.

(** ** Names *)

(** [Suffix] of a column or table name: the last part; an empty name panics. *)
Definition Suffix (c : list string) : outcome string :=
  match last c with
  | Some s => Ok s
  | None => Panic
  end.

(** [Prefix]: the first of several parts. *)
Definition Prefix (c : list string) : string :=
  match c with
  | p :: _ :: _ => p
  | _ => ""
  end.

(** [strings.ToUpper] on ASCII letters, which function names consist of. *)
Definition upper (c : ascii) : ascii :=
  let n := N_of_ascii c in
  if (97 <=? n)%N && (n <=? 122)%N then ascii_of_N (n - 32) else c.

Fixpoint strings_ToUpper (s : string) : string :=
  match s with
  | EmptyString => EmptyString
  | String c s => String (upper c) (strings_ToUpper s)
  end.

(** [Function.Name]. *)
Definition Function_Name (typ : FunctionType) (name : string) : string :=
  match typ with
  | Fspec | Fscalar | Fpasswd => strings_ToUpper name
  | Fudf => name
  end.

Definition Charset (cd : ConvertDataType) : option string :=
  if (charset cd =? "")%string then None else Some (charset cd).

Definition Dimensions (cd : ConvertDataType) : Z * Z := (dimension0 cd, dimension1 cd).

(** The atom of a predicate asserted to be an [AtomPredicateNode]. *)
Definition atomOf (p : PredicateNode) : outcome ExpressionAtom :=
  match p with
  | AtomPredicateNode a => Ok a
  | _ => Panic
  end.

(** The name of an atom asserted to be a column. *)
Definition columnOf (a : ExpressionAtom) : outcome (list string) :=
  match a with
  | ColumnNameExpressionAtom c => Ok c
  | _ => Panic
  end.
