(* ===== verification/ExtValue.v ===== *)
(** * Constant expressions: [pkg/runtime/misc/extvalue]

    [extvalue.Compute] evaluates the constant parts of a statement.  Its
    visitor embeds [ast.BaseVisitor], whose methods panic: a node it does not
    override panics.  A returned [interface{}] is nil or a [proto.Value].  The
    registered functions, the parser's names of operators and the context of
    the statement are arguments. *)
From S2P Require Import Prelude GoStd Value Cmp Ast.

(** ** Functions: [pkg/proto/function.go] *)

(** A registered function.  Its inputs are generators, evaluated when it asks
    for them.  [Versions] is the check of a [VersionedFunc] on the text of the
    server version, which may not parse. *)
Record Func := mkFunc {
  NumInput : Z;
  Versions : option (string → option bool);
  Apply : list (outcome (option ProtoValue)) → outcome (option ProtoValue);
}.

Definition RegisterFunc (warehouse : gmap string Func) (name : string) (f : Func) : gmap string Func :=
  <[name := f]> warehouse.

Definition GetFunc (warehouse : gmap string Func) (name : string) : option Func := warehouse !! name.

Definition MustGetFunc (warehouse : gmap string Func) (name : string) : outcome Func :=
  match GetFunc warehouse name with Some f => Ok f | None => Panic end.

Definition ValidateFunction (serverVersion : option string) (f : Func) (strict : bool) : bool :=
  match Versions f with
  | None => true
  | Some check =>
      match serverVersion with
      | None => negb strict
      | Some text =>
          match check text with
          | None => negb strict
          | Some ok => ok
          end
      end
  end.

(** The literals of the arithmetic operators in the parser. *)
Class Opcodes := {
  op_Plus : string; op_Minus : string; op_Mul : string; op_Div : string; op_IntDiv : string;
}.

(** [errors.WithStack] and [errors.Wrap]: the cause stays visible. *)
Definition WithStack {A} (m : outcome A) : outcome A :=
  match m with Err e => Err (WrapError e) | _ => m end.

(** [IsErrNotSupportedValue]. *)
Definition IsErrNotSupportedValue (e : error) : bool := errors_Is e errNotValue.

(** The truth of a comparison operator on a three-way answer. *)
Definition compareTruth (op : Comparison) (c : Z) : option bool :=
  match op with
  | Ceq => Some (c =? 0)
  | Clt => Some (c <? 0)
  | Clte => Some (c <=? 0)
  | Cgt => Some (c >? 0)
  | Cgte => Some (c >=? 0)
  | Cne => Some (negb (c =? 0))
  | Czero => None
  end.

Section Visitor.
Context {TL : TimeLib} {FT : FloatText} {D : DecimalLib} {O : Opcodes}.
Context (warehouse : gmap string Func) (serverVersion : option string) (args : list (option ProtoValue)).

(** Two values as [VisitPredicateBinaryComparison] compares them. *)
Definition compareConstants (lv rv : ProtoValue) : outcome Z :=
  if bool_decide (Family lv = ValueFamilyString) && bool_decide (Family rv = ValueFamilyString)
  then Ok (strings_Compare (Value_String lv) (Value_String rv))
  else
    x ← DecimalOrZero lv;
    y ← DecimalOrZero rv;
    Ok (if dec_GreaterThan x y then 1 else if dec_LessThan x y then -1 else 0).

Definition binaryComparison (l r : option ProtoValue) (op : Comparison) : outcome (option ProtoValue) :=
  match l, r with
  | Some lv, Some rv =>
      c ← compareConstants lv rv;
      match compareTruth op c with
      | Some b => Ok (Some (boolValue b))
      | None => Panic
      end
  | _, _ => Ok None
  end.

Definition unary (operator : string) (prev : option ProtoValue) : outcome (option ProtoValue) :=
  match prev with
  | None => Ok None
  | Some v =>
      if (operator =? "-")%string then
        d ← DecimalOrZero v;
        Ok (Some (decimalValue (dec_Mul d (dec_NewFromInt (-1)))))
      else Err (NewError "unsupported unary")
  end.

(** A nullable decimal operand. *)
Definition operand (v : option ProtoValue) : outcome (option decimal) :=
  match v with
  | None => Ok None
  | Some v => d ← DecimalOrZero v; Ok (Some d)
  end.

Definition math (operator : string) (l r : option ProtoValue) : outcome (option ProtoValue) :=
  x ← operand l;
  y ← operand r;
  match x, y with
  | Some x, Some y =>
      if (operator =? op_Plus)%string then Ok (Some (decimalValue (dec_Add x y)))
      else if (operator =? op_Minus)%string then Ok (Some (decimalValue (dec_Sub x y)))
      else if (operator =? op_Mul)%string then Ok (Some (decimalValue (dec_Mul x y)))
      else if (operator =? op_Div)%string then
        if dec_IsZero y then Ok None else Ok (Some (decimalValue (dec_Div x y)))
      else if (operator =? op_IntDiv)%string then
        if dec_IsZero y then Ok None else Ok (Some (decimalValue (dec_Floor (dec_Div x y))))
      else Err (NewError "unsupported math opcode")
  | _, _ => Ok None
  end.

(** [vv.args[n]]: out of range panics. *)
Definition argument (n : Z) : outcome (option ProtoValue) :=
  if n <? 0 then Panic
  else match args !! Z.to_nat n with Some v => Ok v | None => Panic end.

Definition callFunction (name : string) (inputs : list (outcome (option ProtoValue)))
  : outcome (option ProtoValue) :=
  match GetFunc warehouse name with
  | None => Err (NewError "FUNCTION doesn't exist")
  | Some fn =>
      if negb (ValidateFunction serverVersion fn false) then Err (NewError "FUNCTION doesn't exist")
      else if Z.of_nat (length inputs) <? NumInput fn then Err (NewError "incorrect parameter count")
      else WithStack (Apply fn inputs)
  end.

Definition castName (t : CastType) : string :=
  match t with
  | CastToSigned | CastToSignedInteger => "CAST_SIGNED"
  | CastToUnsigned | CastToUnsignedInteger => "CAST_UNSIGNED"
  | CastToDecimal => "CAST_DECIMAL"
  | CastToChar => "CAST_CHAR"
  | CastToNChar => "CAST_NCHAR"
  | CastToBinary => "CAST_BINARY"
  | CastToDate => "CAST_DATE"
  | CastToDateTime => "CAST_DATETIME"
  | CastToTime => "CAST_TIME"
  | CastToJson => "CAST_JSON"
  end.

(** The function a cast calls and the inputs after its source. *)
Definition castCall (cast : string + ConvertDataType) : string * list (outcome (option ProtoValue)) :=
  match cast with
  | inl _ => ("", [])
  | inr cd =>
      match Charset cd with
      | Some charset => ("CAST_CHARSET", [Ok (Some (stringValue charset))])
      | None =>
          let '(first, second) := Dimensions cd in
          (castName (typ cd), [Ok (Some (int64Value first)); Ok (Some (int64Value second))])
      end
  end.

Definition callCast (cast : string + ConvertDataType) (source : outcome (option ProtoValue))
  : outcome (option ProtoValue) :=
  let '(name, extra) := castCall cast in
  let inputs := source :: extra in
  match GetFunc warehouse name with
  | None => Err (NewError "no such built-in mysql function")
  | Some fn =>
      if Z.of_nat (length inputs) <? NumInput fn then Err (NewError "not enough function args length")
      else WithStack (Apply fn inputs)
  end.

(** The branches of CASE, already paired with the evaluation of their parts.
    [whenValue] keeps its last non-nil value from one branch to the next. *)
Fixpoint caseBranches (caseValue whenValue : option ProtoValue)
  (branches : list (outcome (option ProtoValue) * outcome (option ProtoValue)))
  (otherwise : outcome (option ProtoValue)) : outcome (option ProtoValue) :=
  match branches with
  | [] => otherwise
  | (when_, then_) :: branches =>
      v ← WithStack when_;
      let whenValue := match v with Some _ => v | None => whenValue end in
      match caseValue, whenValue with
      | None, Some w =>
          matched ← WithStack (Bool w);
          if (matched : bool) then then_ else caseBranches caseValue whenValue branches otherwise
      | Some c, Some w =>
          if (Value_String c =? Value_String w)%string then then_
          else caseBranches caseValue whenValue branches otherwise
      | _, None => caseBranches caseValue whenValue branches otherwise
      end
  end.

(** [Accept(vv)]. *)
Fixpoint acceptE (e : ExpressionNode) : outcome (option ProtoValue) :=
  match e with
  | PredicateExpressionNode p => acceptP p
  | LogicalExpressionNode _ _ _ | NotExpressionNode _ => Panic
  end
with acceptP (p : PredicateNode) : outcome (option ProtoValue) :=
  match p with
  | BinaryComparisonPredicateNode lhs rhs op =>
      l ← WithStack (acceptP lhs);
      r ← WithStack (acceptP rhs);
      binaryComparison l r op
  | AtomPredicateNode a => acceptA a
  | _ => Panic
  end
with acceptA (a : ExpressionAtom) : outcome (option ProtoValue) :=
  match a with
  | ColumnNameExpressionAtom _ => Ok None
  | ConstantExpressionAtom inner => WithStack (NewValue inner)
  | FunctionCallExpressionAtom f => acceptF f
  | NestedExpressionAtom first => acceptE first
  | UnaryExpressionAtom operator inner =>
      prev ← WithStack (match inner with
                        | UnaryAtom a => acceptA a
                        | UnaryComparison lhs rhs op =>
                            l ← WithStack (acceptP lhs);
                            r ← WithStack (acceptP rhs);
                            binaryComparison l r op
                        end);
      unary operator prev
  | MathExpressionAtom lhs operator rhs =>
      l ← WithStack (acceptA lhs);
      r ← WithStack (acceptA rhs);
      math operator l r
  | SystemVariableExpressionAtom _ _ _ => Err errNotValue
  | VariableExpressionAtom n => argument n
  | IntervalExpressionAtom _ _ => Panic
  end
with acceptF (f : FunctionNode) : outcome (option ProtoValue) :=
  match f with
  | Function_ typ name inputs =>
      callFunction (Function_Name typ name) (map (λ arg, WithStack (acceptArg arg)) inputs)
  | CastFunction _ src cast => callCast cast (WithStack (acceptE src))
  | CaseWhenElseFunction block branches otherwise =>
      caseValue ← match block with None => Ok None | Some e => WithStack (acceptE e) end;
      caseBranches caseValue None
        (map (λ b, (acceptArg (fst b), acceptArg (snd b))) branches)
        (match otherwise with None => Ok None | Some e => acceptArg e end)
  | AggrFunction _ _ _ _ => Panic
  end
with acceptArg (a : FunctionArg) : outcome (option ProtoValue) :=
  match a with
  | FunctionArgColumn _ => Err errNotValue
  | FunctionArgExpression e => acceptE e
  | FunctionArgConstant v => WithStack (NewValue v)
  | FunctionArgCall (AggrFunction _ _ _ _) => Err errNotValue
  | FunctionArgCall f => acceptF f
  end.

(** [Compute] on the kinds of nodes it is called with. *)
Inductive node := nodeE (e : ExpressionNode) | nodeP (p : PredicateNode) | nodeA (a : ExpressionAtom).

Definition extvalue_Compute (n : node) : outcome (option ProtoValue) :=
  match n with
  | nodeE e => acceptE e
  | nodeP p => acceptP p
  | nodeA a => acceptA a
  end.
End Visitor.

(** ** Integer arithmetic *)

(** The value is the integer [n]. *)
Definition stands {D : DecimalLib} (v : ProtoValue) (n : Z) : Prop :=
  (∃ d, v = decimalValue d ∧ dec_int d n) ∨ integer v = Some n.

Section Arithmetic.
Context {TL : TimeLib} {FT : FloatText} {D : DecimalLib} {DL : DecimalLaws D} {O : Opcodes}.
Context (warehouse : gmap string Func) (serverVersion : option string) (args : list (option ProtoValue)).

(** The integer an expression of literals, parameters, signs, sums,
    differences, products and parentheses denotes. *)
Fixpoint arithE (e : ExpressionNode) : option Z :=
  match e with
  | PredicateExpressionNode (AtomPredicateNode a) => arithA a
  | _ => None
  end
with arithA (a : ExpressionAtom) : option Z :=
  match a with
  | ConstantExpressionAtom (basic (Iint64 n)) => if (- 2 ^ 63 <=? n) && (n <? 2 ^ 63) then Some n else None
  | VariableExpressionAtom n => if n <? 0 then None else args !! Z.to_nat n ≫= λ v, v ≫= integer
  | UnaryExpressionAtom operator (UnaryAtom a) =>
      n ← arithA a; if (operator =? "-")%string then Some (- n) else None
  | MathExpressionAtom lhs operator rhs =>
      m ← arithA lhs;
      n ← arithA rhs;
      if (operator =? op_Plus)%string then Some (m + n)
      else if (operator =? op_Minus)%string then Some (m - n)
      else if (operator =? op_Mul)%string then Some (m * n)
      else None
  | NestedExpressionAtom first => arithE first
  | _ => None
  end.

Abbreviation acceptE' := (acceptE warehouse serverVersion args).
Abbreviation acceptA' := (acceptA warehouse serverVersion args).

Lemma stands_decimal v n : stands v n → ∃ d, DecimalOrZero v = Ok d ∧ dec_int d n.
Proof using DL.
  unfold DecimalOrZero. intros [(d & -> & Hd)|(_ & d & -> & Hd)%integer_inv]; eauto.
Qed.

Lemma stands_math operator x y m n k :
  stands x m → stands y n →
  (if (operator =? op_Plus)%string then Some (m + n)
   else if (operator =? op_Minus)%string then Some (m - n)
   else if (operator =? op_Mul)%string then Some (m * n) else None) = Some k →
  ∃ z, math operator (Some x) (Some y) = Ok (Some z) ∧ stands z k.
Proof using DL.
  intros (dx & Ex & Ix)%stands_decimal (dy & Ey & Iy)%stands_decimal H.
  unfold math, operand. rewrite Ex, Ey. simpl.
  destruct (operator =? op_Plus)%string; [|destruct (operator =? op_Minus)%string;
    [|destruct (operator =? op_Mul)%string; [|done]]]; injection H as <-; (eexists; split; [done|]);
    left; eexists; (split; [done|]).
  - by apply dec_Add_int.
  - by apply dec_Sub_int.
  - by apply dec_Mul_int.
Qed.

Lemma accept_arith :
  (∀ e n, arithE e = Some n → ∃ v, acceptE' e = Ok (Some v) ∧ stands v n) ∧
  (∀ p n, (∃ a, p = AtomPredicateNode a ∧ arithA a = Some n) →
    ∃ v, acceptP warehouse serverVersion args p = Ok (Some v) ∧ stands v n) ∧
  (∀ a n, arithA a = Some n → ∃ v, acceptA' a = Ok (Some v) ∧ stands v n) ∧
  (∀ u n, (∃ a, u = UnaryAtom a ∧ arithA a = Some n) →
    ∃ a v, u = UnaryAtom a ∧ acceptA' a = Ok (Some v) ∧ stands v n).
Proof using DL.
  apply where_ind; try (intros; simpl in *; done);
    try (intros; destruct_and?; naive_solver).
  - intros p IH n H. destruct p; try done. simpl in *. eauto.
  - intros operator u IH n H. destruct u as [a|]; [|done]. simpl in H.
    destruct (arithA a) as [m|] eqn:Ea; [|done]. simpl in H.
    destruct (IH m) as (a' & v & [= <-] & Hv & Hs); [eauto|]. simpl. rewrite Hv. simpl.
    destruct (operator =? "-")%string; [|done]. injection H as <-.
    destruct (stands_decimal v m Hs) as (d & -> & Hd). simpl. eexists. split; [done|]. left.
    eexists. split; [done|]. replace (- m) with (m * -1) by lia. apply dec_Mul_int; [done|].
    apply dec_NewFromInt_int. unfold inS. lia.
  - intros inner n H. destruct inner as [x| | | | | | | | | | | | | | |]; try done. destruct x; try done.
    exists (int64Value n0). split; [done|]. by right.
  - intros i n H. simpl in *. unfold argument. destruct (i <? 0); [done|].
    destruct (args !! Z.to_nat i) as [[v|]|]; simpl in H; try done. exists v. split; [done|]. by right.
  - intros l IHl operator r IHr n H. simpl in H.
    destruct (arithA l) as [x|]; [|done]. destruct (arithA r) as [y|]; [|done]. simpl in H.
    destruct (IHl x eq_refl) as (vx & Ex & Sx), (IHr y eq_refl) as (vy & Ey & Sy).
    simpl. rewrite Ex, Ey. simpl. by eapply stands_math.
Qed.

(** Integer arithmetic in a statement is exact: a constant expression of
    integer literals and parameters evaluates to the value that stands for its
    integer, whose [Int64] is that integer when it fits. *)
Theorem Compute_arithmetic a n :
  arithA a = Some n →
  ∃ v, extvalue_Compute warehouse serverVersion args (nodeA a) = Ok (Some v) ∧ stands v n ∧
    (inS 64 n → Int64 v = Ok n).
Proof using DL.
  intros H. destruct accept_arith as (_ & _ & HA & _). destruct (HA a n H) as (v & Hv & Hs).
  exists v. split; [done|]. split; [done|]. intros Hn. destruct Hs as [(d & -> & Hd)|Hi].
  - simpl. by rewrite (dec_IntPart_int d n).
  - destruct v; simpl in *; repeat case_match; simplify_eq; try done. by rewrite wrapS_id.
Qed.
End Arithmetic.

Module ExtValueExamples.
Import NoDates NoFloats ExactDecimal.

#[export] Instance ascii_opcodes : Opcodes := {|
  op_Plus := "+"; op_Minus := "-"; op_Mul := "*"; op_Div := "/"; op_IntDiv := "DIV";
|}.

Definition int64Atom (n : Z) : ExpressionAtom := ConstantExpressionAtom (basic (Iint64 n)).

(** [-(2 * ?) + 10] with the parameter 21. *)
Definition sum : ExpressionAtom :=
  MathExpressionAtom
    (UnaryExpressionAtom "-" (UnaryAtom (NestedExpressionAtom (PredicateExpressionNode
      (AtomPredicateNode (MathExpressionAtom (int64Atom 2) "*" (VariableExpressionAtom 0)))))))
    "+" (int64Atom 10).

Lemma Compute_arithmetic_witness :
  arithA [Some (int64Value 21)] sum = Some (-32) ∧
  ∃ v, extvalue_Compute ∅ None [Some (int64Value 21)] (nodeA sum) = Ok (Some v) ∧ Int64 v = Ok (-32).
Proof.
  split; [done|].
  destruct (Compute_arithmetic (DL := laws) ∅ None [Some (int64Value 21)] sum (-32) ltac:(by vm_compute)) as (v & H1 & _ & H2).
  exists v. split; [exact H1|]. apply H2. unfold inS. lia.
Defined.
End ExtValueExamples.
