(* ===== verification/Shards.v ===== *)
(** * Physical shard sets: [pkg/proto/rule/shards.go]

    A shard is a [uint64] holding a database and a table index; a [Shards] is
    an ordered tree of them.  The nil pointer stands for "every shard".  The
    theorems show that the tree operations implement a finite set of pairs,
    walked in lexicographic order. *)
From S2P Require Import Prelude BTree GoStd.

(** [type shard uint64]: the value with the fact that it is in range. *)
Record shard := mkShard { shard_val : Z; shard_ok : bool_decide (inU 64 shard_val) = true }.

Lemma shard_ext s t : shard_val s = shard_val t → s = t.
Proof.
  destruct s as [x p], t as [y q]. simpl. intros ->. f_equal. apply proof_irrel.
Qed.

Lemma shard_ok_wrap z : bool_decide (inU 64 (u64 z)) = true.
Proof. apply bool_decide_eq_true. by apply wrapU_range. Qed.

(** Conversion to the type, [shard(z)]. *)
Definition to_shard (z : Z) : shard := mkShard (u64 z) (shard_ok_wrap z).

(** [shard(uint64(db)<<32 | uint64(table))]. *)
Definition shard_of (db table : Z) : shard := to_shard (Z.lor (u64 (Z.shiftl db 32)) table).

Definition getDB (s : shard) : Z := u32 (Z.shiftr (shard_val s) 32).

Definition getTable (s : shard) : Z := u32 (shard_val s).

Definition shard_Less (s that : shard) : bool :=
  let db0 := getDB s in
  let db1 := getDB that in
  if db0 =? db1 then getTable s <? getTable that else db0 <? db1.

Lemma visit_fresh (x : Z * Z) (R W P : gset (Z * Z)) :
  x ∉ P → x ∉ W → R ∪ ({[x]} ∪ W) ∩ P ≡ R ∪ W ∩ ({[x]} ∪ P).
Proof. intros ?? q. destruct (decide (q = x)) as [->|]; set_solver. Qed.

Section Shards.
Context {B : BTree}.

Definition Shards := tree shard.

Definition less (x y : shard) : outcome bool := Ok (shard_Less x y).

Definition NewShards : Shards := bt_new.

(** [Remove], [Add], [Min], [Max] and [Len] dereference their receiver, so they
    take the tree; [Each] and [String] accept the nil pointer. *)
Definition Remove (sd : Shards) (db table : Z) (otherTables : list Z) : outcome Shards :=
  foldl (λ acc next, t ← acc; bt_delete less (shard_of db next) t)
    (bt_delete less (shard_of db table) sd) otherTables.

Definition Add (sd : Shards) (db table : Z) (otherTables : list Z) : outcome Shards :=
  t ← bt_insert less (shard_of db table) sd;
  bt_insert_all less (map (shard_of db) otherTables) t.

(** [Ascend] with a callback that threads a state and may stop the walk. *)
Fixpoint ascend {S} (h : S → Z → Z → outcome (S * bool)) (items : list shard) (s : S) : outcome S :=
  match items with
  | [] => Ok s
  | i :: rest =>
      r ← h s (getDB i) (getTable i);
      if r.2 : bool then ascend h rest r.1 else Ok r.1
  end.

Definition Each {S} (h : S → Z → Z → outcome (S * bool)) (sd : option Shards) (s : S) : outcome S :=
  match sd with
  | None => Ok s
  | Some t => ascend h (bt_items t) s
  end.

Fixpoint eachOf {S} (h : S → Z → Z → outcome (S * bool)) (sds : list (option Shards)) (s : S) : outcome S :=
  match sds with
  | [] => Ok s
  | sd :: rest => s ← Each h sd s; eachOf h rest s
  end.

(** The callback of [IntersectionShards]: its state is the result and the
    [visits] set. *)
Definition intersect_visit (st : Shards * gset Z) (db tb : Z) : outcome ((Shards * gset Z) * bool) :=
  let k := Z.lor (u64 (Z.shiftl db 32)) tb in
  if bool_decide (k ∈ st.2) then ret ← Add st.1 db tb []; Ok ((ret, st.2), true)
  else Ok ((st.1, {[k]} ∪ st.2), true).

Definition IntersectionShards (first second : option Shards) (others : list (option Shards)) : outcome Shards :=
  st ← eachOf intersect_visit (first :: second :: others) (NewShards, ∅);
  Ok (st.1 : Shards).

Definition union_visit (ret : Shards) (db tb : Z) : outcome (Shards * bool) :=
  ret ← Add ret db tb []; Ok (ret, true).

Definition UnionShards (first second : option Shards) (others : list (option Shards)) : outcome Shards :=
  eachOf union_visit (first :: second :: others) NewShards.

Definition Min (sd : Shards) : option (Z * Z) := (λ s, (getDB s, getTable s)) <$> head (bt_items sd).

Definition Max (sd : Shards) : option (Z * Z) := (λ s, (getDB s, getTable s)) <$> last (bt_items sd).

Definition Len (sd : Shards) : Z := Z.of_nat (length (bt_items sd)).

(** The callback of [String]: the text so far and [prev]. *)
Definition string_visit (st : string * Z) (db tb : Z) : outcome ((string * Z) * bool) :=
  let '(sb, prev) := st in
  if negb (prev =? db) then
    let sb := if negb (prev =? -1) then sb +:+ ";" else sb in
    Ok ((sb +:+ FormatInt db +:+ ":" +:+ FormatInt tb, db), true)
  else Ok ((sb +:+ "," +:+ FormatInt tb, prev), true).

Definition Shards_String (sd : option Shards) : outcome string :=
  match sd with
  | None => Ok "*"
  | Some _ => st ← Each string_visit sd ("[", -1); Ok (st.1 +:+ "]")
  end.

(** ** Theory *)
Context {BL : BTreeLaws B}.

(** The pairs of a tree, in walking order. *)
Definition pairs (sd : Shards) : list (Z * Z) := map (λ s, (getDB s, getTable s)) (bt_items sd).

Definition shard_lt (x y : shard) : Prop := shard_val x < shard_val y.

Lemma shard_range s : inU 64 (shard_val s).
Proof using. destruct s as [z H]. simpl. by apply bool_decide_eq_true in H. Qed.

Lemma shard_split s : shard_val s = getDB s * 2 ^ 32 + getTable s.
Proof using.
  pose proof (shard_range s) as H. unfold inU in H. unfold getDB, getTable, wrapU.
  rewrite Z.shiftr_div_pow2 by lia. rewrite (Z.mod_small (_ / _)).
  - pose proof (Z.div_mod (shard_val s) (2 ^ 32)). lia.
  - split; [apply Z.div_pos; lia|apply Z.div_lt_upper_bound; lia].
Qed.

Lemma getTable_range s : inU 32 (getTable s).
Proof using. by apply wrapU_range. Qed.

Lemma getDB_range s : inU 32 (getDB s).
Proof using. by apply wrapU_range. Qed.

Lemma shard_eq s t : getDB s = getDB t → getTable s = getTable t → s = t.
Proof using. intros H1 H2. apply shard_ext. rewrite !shard_split. congruence. Qed.

Lemma shard_bits db tb : inU 32 db → inU 32 tb →
  Z.lor (u64 (Z.shiftl db 32)) tb = db * 2 ^ 32 + tb.
Proof using.
  unfold inU. intros Hd Ht. unfold wrapU. rewrite Z.shiftl_mul_pow2 by lia.
  rewrite (Z.mod_small (db * _)) by lia.
  assert (Z.land (db * 2 ^ 32) tb = 0) as E; [|by rewrite Z.add_nocarry_lxor, Z.lxor_lor].
  apply Z.bits_inj'. intros n Hn. rewrite Z.land_spec, Z.bits_0.
  destruct (Z.lt_ge_cases n 32).
  - by rewrite Z.mul_pow2_bits_low by lia.
  - rewrite <- (Z.mod_small tb (2 ^ 32)) by lia.
    by rewrite Z.mod_pow2_bits_high, andb_false_r by lia.
Qed.

Lemma shard_of_val db tb : inU 32 db → inU 32 tb → shard_val (shard_of db tb) = db * 2 ^ 32 + tb.
Proof using.
  intros Hd Ht. unfold shard_of. simpl. rewrite shard_bits by done.
  apply wrapU_id. unfold inU in *. lia.
Qed.

Lemma getDB_of db tb : inU 32 db → inU 32 tb → getDB (shard_of db tb) = db.
Proof using.
  intros Hd Ht. pose proof (shard_split (shard_of db tb)) as E.
  rewrite shard_of_val in E by done.
  pose proof (getDB_range (shard_of db tb)). pose proof (getTable_range (shard_of db tb)).
  unfold inU in *. lia.
Qed.

Lemma getTable_of db tb : inU 32 db → inU 32 tb → getTable (shard_of db tb) = tb.
Proof using.
  intros Hd Ht. pose proof (shard_split (shard_of db tb)) as E.
  rewrite shard_of_val, getDB_of in E by done. lia.
Qed.

Lemma shard_of_get s : shard_of (getDB s) (getTable s) = s.
Proof using.
  apply shard_eq; [apply getDB_of|apply getTable_of]; apply wrapU_range; lia.
Qed.

Lemma shard_of_inj d t db tb : inU 32 d → inU 32 t → inU 32 db → inU 32 tb →
  shard_of d t = shard_of db tb → (d, t) = (db, tb).
Proof using.
  intros H1 H2 H3 H4 E. pose proof (f_equal getDB E) as E1. pose proof (f_equal getTable E) as E2.
  rewrite !getDB_of in E1 by done. rewrite !getTable_of in E2 by done. congruence.
Qed.

(** The two-step comparison is the order of the underlying [uint64]. *)
Lemma shard_Less_val s t : shard_Less s t = (shard_val s <? shard_val t).
Proof using.
  unfold shard_Less. rewrite !shard_split.
  pose proof (getTable_range s). pose proof (getTable_range t). unfold inU in *.
  destruct (Z.eqb_spec (getDB s) (getDB t)) as [->|Hne]; apply eq_true_iff_eq;
    rewrite !Z.ltb_lt; lia.
Qed.

Lemma less_orders : orders less shard_lt.
Proof using.
  unfold shard_lt. split_and!.
  - intros x y. eexists. split; [done|]. by rewrite shard_Less_val, Z.ltb_lt.
  - lia.
  - lia.
  - intros x y ??. apply shard_ext. lia.
Qed.

(** A set of pairs of [uint32], and the trees that represent it. *)
Definition represents (sd : Shards) (X : gset (Z * Z)) : Prop :=
  StronglySorted shard_lt (bt_items sd) ∧ ∀ p, p ∈ pairs sd ↔ p ∈ X.

(** A pointer represents a set too; the nil pointer is walked as the empty one. *)
Definition pointsTo (sd : option Shards) (X : gset (Z * Z)) : Prop :=
  match sd with None => X = ∅ | Some t => represents t X end.

Lemma pairs_shard_of sd db tb : inU 32 db → inU 32 tb →
  (db, tb) ∈ pairs sd ↔ shard_of db tb ∈ bt_items sd.
Proof using.
  intros Hd Ht. unfold pairs. rewrite list_elem_of_fmap. split.
  - intros (s & E & Hs). injection E as -> ->. by rewrite shard_of_get.
  - intros Hs. exists (shard_of db tb). by rewrite getDB_of, getTable_of.
Qed.

Lemma pairs_inU sd db tb : (db, tb) ∈ pairs sd → inU 32 db ∧ inU 32 tb.
Proof using.
  unfold pairs. rewrite list_elem_of_fmap. intros (s & E & _). injection E as -> ->.
  split; by apply wrapU_range.
Qed.

Lemma represents_new : represents NewShards ∅.
Proof using BL.
  unfold represents, pairs, NewShards. rewrite bt_items_new. split; [constructor|]. set_solver.
Qed.

Lemma insert_represents sd X db tb : represents sd X → inU 32 db → inU 32 tb →
  ∃ sd', bt_insert less (shard_of db tb) sd = Ok sd' ∧ represents sd' ({[(db, tb)]} ∪ X).
Proof using BL.
  intros [Hs HX] Hd Ht.
  destruct (bt_insert_total _ less (shard_of db tb) sd) as [sd' E]; [done|].
  exists sd'. split; [done|].
  destruct (bt_insert_mem _ _ _ _ _ E) as (Hx & Hback & Hkeep).
  split; [by eapply bt_insert_sorted; eauto using less_orders|].
  intros [d t]. rewrite elem_of_union, elem_of_singleton, <- HX. split.
  - intros Hp. destruct (pairs_inU _ _ _ Hp) as [??]. rewrite pairs_shard_of in Hp by done.
    destruct (Hback _ Hp) as [E'|]; [left; by apply shard_of_inj|right; by apply pairs_shard_of].
  - intros [[= -> ->]|Hp]; [by apply pairs_shard_of|].
    destruct (pairs_inU _ _ _ Hp) as [??]. rewrite pairs_shard_of in Hp |- * by done.
    destruct (Hkeep _ Hp) as [?|[H1 H2]]; [done|].
    destruct less_orders as (Hl & _ & _ & Htot).
    rewrite <- (Htot (shard_of db tb) (shard_of d t)); [done| |]; intros Hlt.
    + destruct (Hl (shard_of db tb) (shard_of d t)) as (b & Eb & Hb). destruct b; [congruence|]. by apply Hb in Hlt.
    + destruct (Hl (shard_of d t) (shard_of db tb)) as (b & Eb & Hb). destruct b; [congruence|]. by apply Hb in Hlt.
Qed.

Lemma delete_represents sd X db tb : represents sd X → inU 32 db → inU 32 tb →
  ∃ sd', bt_delete less (shard_of db tb) sd = Ok sd' ∧ represents sd' (X ∖ {[(db, tb)]}).
Proof using BL.
  intros [Hs HX] Hd Ht.
  destruct (bt_delete_mem _ less shard_lt (shard_of db tb) sd less_orders Hs) as (sd' & E & Hs' & Hm).
  exists sd'. split; [done|]. split; [done|].
  intros [d t]. rewrite elem_of_difference, elem_of_singleton, <- HX. split.
  - intros Hp. destruct (pairs_inU _ _ _ Hp) as [??]. rewrite pairs_shard_of in Hp by done.
    apply Hm in Hp as [Hp Hne]. rewrite pairs_shard_of by done. split; [done|].
    intros [= -> ->]. done.
  - intros [Hp Hne]. destruct (pairs_inU _ _ _ Hp) as [??].
    rewrite pairs_shard_of in Hp |- * by done. apply Hm. split; [done|]. intros E'. apply Hne.
    by apply shard_of_inj.
Qed.

(** The pairs one call of [Add] or [Remove] names. *)
Definition row (db : Z) (tables : list Z) : gset (Z * Z) := list_to_set (map (pair db) tables).

Lemma Add_represents sd X db table others :
  represents sd X → inU 32 db → Forall (inU 32) (table :: others) →
  ∃ sd', Add sd db table others = Ok sd' ∧ represents sd' (row db (table :: others) ∪ X).
Proof using BL.
  intros HX Hd [Ht Hts]%Forall_cons. unfold Add.
  destruct (insert_represents _ _ _ _ HX Hd Ht) as (t & -> & Ht'). simpl. clear HX.
  revert t X table Ht Ht'. induction Hts as [|o os Ho Hos IH]; intros t X table Ht Ht'; simpl.
  - eexists. split; [done|]. unfold row. simpl. replace ({[(db, table)]} ∪ ∅ ∪ X) with ({[(db, table)]} ∪ X) by set_solver. done.
  - destruct (insert_represents _ _ _ _ Ht' Hd Ho) as (t1 & -> & Ht1). simpl.
    destruct (IH _ _ _ Ho Ht1) as (t2 & E & Ht2). exists t2. split; [done|].
    unfold row in *. simpl in *.
    match goal with H : represents t2 ?P |- represents t2 ?Q => replace Q with P by set_solver end. done.
Qed.

Lemma Remove_represents sd X db table others :
  represents sd X → inU 32 db → Forall (inU 32) (table :: others) →
  ∃ sd', Remove sd db table others = Ok sd' ∧ represents sd' (X ∖ row db (table :: others)).
Proof using BL.
  intros HX Hd [Ht Hts]%Forall_cons. unfold Remove.
  destruct (delete_represents _ _ _ _ HX Hd Ht) as (t & -> & Ht'). clear HX.
  revert t X table Ht Ht'. induction Hts as [|o os Ho Hos IH]; intros t X table Ht Ht'; simpl.
  - eexists. split; [done|]. unfold row. simpl. by replace (X ∖ ({[(db, table)]} ∪ ∅)) with (X ∖ {[(db, table)]}) by set_solver.
  - destruct (delete_represents _ _ _ _ Ht' Hd Ho) as (t1 & -> & Ht1).
    destruct (IH _ _ _ Ho Ht1) as (t2 & E & Ht2). exists t2. split; [done|].
    unfold row in *. simpl in *.
    match goal with H : represents t2 ?P |- represents t2 ?Q => replace Q with P by set_solver end. done.
Qed.

Lemma represents_eq sd X Y : represents sd X → X ≡ Y → represents sd Y.
Proof using. intros [Hs HX] HY. split; [done|]. intros p. by rewrite HX, HY. Qed.

Lemma represents_NoDup sd X : represents sd X → NoDup (bt_items sd).
Proof using.
  intros [Hs _]. induction Hs as [|x l Hs IH Hx]; constructor; [|done].
  intros Hin. rewrite Forall_forall in Hx. pose proof (Hx x Hin). unfold shard_lt in *. lia.
Qed.

Definition listPairs (l : list shard) : gset (Z * Z) :=
  list_to_set (map (λ s, (getDB s, getTable s)) l).

Lemma listPairs_cons i l : listPairs (i :: l) = {[(getDB i, getTable i)]} ∪ listPairs l.
Proof using. done. Qed.

Lemma represents_listPairs sd X : represents sd X → listPairs (bt_items sd) ≡ X.
Proof using. intros [_ HX] p. unfold listPairs. by rewrite elem_of_list_to_set, <- HX. Qed.

Lemma Add_get r R i : represents r R →
  ∃ r', Add r (getDB i) (getTable i) [] = Ok r' ∧ represents r' ({[(getDB i, getTable i)]} ∪ R).
Proof using BL.
  intros HR.
  destruct (Add_represents r R (getDB i) (getTable i) [] HR) as (r' & E & H');
    eauto using getDB_range, getTable_range.
  exists r'. split; [done|]. eapply represents_eq; [done|]. unfold row. set_solver.
Qed.

Lemma ascend_union l r R : represents r R →
  ∃ r', ascend union_visit l r = Ok r' ∧ represents r' (R ∪ listPairs l).
Proof using BL.
  revert r R. induction l as [|i l IH]; intros r R HR; simpl.
  - exists r. split; [done|]. eapply represents_eq; [done|]. set_solver.
  - destruct (Add_get _ _ i HR) as (r1 & E1 & H1).
    assert (union_visit r (getDB i) (getTable i) = Ok (r1, true)) as -> by (unfold union_visit; by rewrite E1).
    simpl.
    destruct (IH _ _ H1) as (r' & E & H'). exists r'. split; [done|].
    eapply represents_eq; [done|]. rewrite listPairs_cons. set_solver.
Qed.

Lemma eachOf_union sds Xs r R : Forall2 pointsTo sds Xs → represents r R →
  ∃ r', eachOf union_visit sds r = Ok r' ∧ represents r' (R ∪ ⋃ Xs).
Proof using BL.
  intros HF. revert r R. induction HF as [|sd X sds Xs HX HF IH]; intros r R HR; simpl.
  - exists r. split; [done|]. eapply represents_eq; [done|]. set_solver.
  - destruct sd as [t|]; simpl in HX |- *.
    + destruct (ascend_union (bt_items t) r R HR) as (r1 & -> & H1). simpl.
      destruct (IH _ _ H1) as (r' & E & H'). exists r'. split; [done|].
      eapply represents_eq; [done|]. rewrite (represents_listPairs _ _ HX). set_solver.
    + destruct (IH _ _ HR) as (r' & E & H'). exists r'. split; [done|].
      eapply represents_eq; [done|]. set_solver.
Qed.

(** The [visits] map of the intersection holds exactly the shards of [W]. *)
Definition visited (V : gset Z) (W : gset (Z * Z)) : Prop :=
  ∀ s, shard_val s ∈ V ↔ (getDB s, getTable s) ∈ W.

Lemma visited_eq V W W' : visited V W → W ≡ W' → visited V W'.
Proof using. intros HV E s. by rewrite (HV s), (E _). Qed.

Lemma intersect_key s : Z.lor (u64 (Z.shiftl (getDB s) 32)) (getTable s) = shard_val s.
Proof using.
  rewrite shard_bits, <- shard_split by (apply getDB_range || apply getTable_range). done.
Qed.

Lemma ascend_intersect l r R V W : NoDup l → represents r R → visited V W →
  ∃ r' V', ascend intersect_visit l (r, V) = Ok (r', V') ∧
    represents r' (R ∪ W ∩ listPairs l) ∧ visited V' (W ∪ listPairs l).
Proof using BL.
  intros HN. revert r R V W. induction HN as [|i l Hi HN IH]; intros r R V W HR HV; simpl.
  - exists r, V. split; [done|]. split; [eapply represents_eq; [done|]; set_solver|].
    eapply visited_eq; [done|]; clear; set_solver.
  - assert ((getDB i, getTable i) ∉ listPairs l) as Hfresh.
    { unfold listPairs. rewrite elem_of_list_to_set, list_elem_of_fmap.
      intros (j & [= E1 E2] & Hj). by rewrite (shard_eq i j E1 E2) in Hi. }
    destruct (intersect_visit (r, V) (getDB i) (getTable i)) as [x| | |] eqn:Ex;
      unfold intersect_visit in Ex; rewrite intersect_key in Ex; simpl in Ex;
      destruct (Add_get _ _ i HR) as (r1 & E1 & H1); rewrite E1 in Ex;
      case_bool_decide as Hv; simplify_eq/=.
    + destruct (IH _ _ _ _ H1 HV) as (r' & V' & E & HR' & HV'). exists r', V'.
      apply HV in Hv. split; [done|]. rewrite listPairs_cons. split.
      * eapply represents_eq; [done|]. clear -Hfresh Hv. set_solver.
      * eapply visited_eq; [done|]. clear -Hfresh Hv. set_solver.
    + rewrite (HV i) in Hv.
      destruct (IH r R ({[shard_val i]} ∪ V) ({[(getDB i, getTable i)]} ∪ W) HR) as (r' & V' & E & HR' & HV').
      { intros s. rewrite !elem_of_union, !elem_of_singleton, (HV s).
        split; (intros [H|H]; [left|by right]); [by rewrite (shard_ext _ _ H)|].
        injection H as Hd Ht. by rewrite (shard_eq _ _ Hd Ht). }
      exists r', V'. split; [done|]. rewrite listPairs_cons. split.
      * eapply represents_eq; [done|]. by apply visit_fresh.
      * eapply visited_eq; [done|]. clear -Hfresh Hv. set_solver.
Qed.

(** In how many of the sets a pair is. *)
Definition occurrences (p : Z * Z) (Xs : list (gset (Z * Z))) : nat :=
  length (filter (λ X, p ∈ X) Xs).

Lemma eachOf_intersect sds Xs r R V W : Forall2 pointsTo sds Xs → represents r R → visited V W →
  ∃ r' V' R', eachOf intersect_visit sds (r, V) = Ok (r', V') ∧ represents r' R' ∧
    ∀ p, p ∈ R' ↔ p ∈ R ∨ (p ∈ W ∧ 1 ≤ occurrences p Xs)%nat ∨ (2 ≤ occurrences p Xs)%nat.
Proof using BL.
  intros HF. revert r R V W. induction HF as [|sd X sds Xs HX HF IH]; intros r R V W HR HV; simpl.
  - exists r, V, R. split; [done|]. split; [done|]. unfold occurrences. simpl. intros p. split; [auto|]. intros [?|[[_ ?]|?]]; [done|lia|lia].
  - assert (∃ r1 V1, Each intersect_visit sd (r, V) = Ok (r1, V1) ∧
      represents r1 (R ∪ W ∩ X) ∧ visited V1 (W ∪ X)) as (r1 & V1 & E1 & HR1 & HV1).
    { destruct sd as [t|]; simpl in HX |- *.
      - destruct (ascend_intersect (bt_items t) r R V W) as (r1 & V1 & E & H1 & H2); eauto using represents_NoDup.
        pose proof (represents_listPairs _ _ HX) as EX. exists r1, V1. split; [done|]. split.
        + eapply represents_eq; [done|]. by rewrite EX.
        + intros s. rewrite (H2 s), !elem_of_union. by rewrite (EX _).
      - exists r, V. subst X. split; [done|]. split; [eapply represents_eq; [done|]; set_solver|].
        eapply visited_eq; [done|]; clear; set_solver. }
    rewrite E1. simpl. destruct (IH _ _ _ _ HR1 HV1) as (r' & V' & R' & E & HR' & Hp).
    exists r', V', R'. split; [done|]. split; [done|]. intros p. rewrite Hp.
    unfold occurrences. rewrite filter_cons, !elem_of_union, elem_of_intersection.
    case_decide; simpl; split; intuition lia.
Qed.

Lemma head_least l s : StronglySorted shard_lt l → head l = Some s →
  Forall (λ t, shard_val s ≤ shard_val t) l.
Proof using.
  destruct 1 as [|x l Hs Hx]; simpl; [done|]. intros [= ->]. constructor; [lia|].
  eapply Forall_impl; [done|]. unfold shard_lt. lia.
Qed.

Lemma last_greatest l s : StronglySorted shard_lt l → last l = Some s →
  Forall (λ t, shard_val t ≤ shard_val s) l.
Proof using.
  intros Hs Hl. destruct l as [|x l] using rev_ind; [done|]. clear IHl.
  rewrite last_snoc in Hl. injection Hl as ->.
  apply StronglySorted_app in Hs as (H & _ & _). apply Forall_forall. intros t Ht.
  rewrite elem_of_app, list_elem_of_singleton in Ht. destruct Ht as [Ht| ->]; [|lia].
  specialize (H t s Ht ltac:(constructor)). unfold shard_lt in H. lia.
Qed.

(** Lexicographic order on pairs. *)
Definition pair_le (p q : Z * Z) : Prop := p.1 < q.1 ∨ p.1 = q.1 ∧ p.2 ≤ q.2.

Lemma shard_le_pair s t : shard_val s ≤ shard_val t → pair_le (getDB s, getTable s) (getDB t, getTable t).
Proof using.
  rewrite !shard_split. pose proof (getTable_range s). pose proof (getTable_range t).
  unfold inU, pair_le in *. simpl. lia.
Qed.

Lemma extreme_represents sd X (R : shard → shard → Prop) (E : Z * Z → Z * Z → Prop) o :
  represents sd X → (o = None → bt_items sd = []) →
  (∀ s, o = Some s → s ∈ bt_items sd ∧ Forall (R s) (bt_items sd)) →
  (∀ s t, R s t → E (getDB s, getTable s) (getDB t, getTable t)) →
  match (λ s, (getDB s, getTable s)) <$> o with
  | None => X = ∅
  | Some p => p ∈ X ∧ ∀ q, q ∈ X → E p q
  end.
Proof using.
  intros [Hs HX] Hn Ho HR. destruct o as [s|]; simpl.
  - destruct (Ho s eq_refl) as [Hin Hall]. rewrite Forall_forall in Hall. split.
    + apply HX. unfold pairs. by apply list_elem_of_fmap_2' with s.
    + intros q Hq. apply HX in Hq. unfold pairs in Hq.
      apply list_elem_of_fmap in Hq as (t & -> & Ht). auto.
  - apply set_eq. intros p. rewrite <- HX. unfold pairs. rewrite Hn by done. simpl. by rewrite elem_of_nil, elem_of_empty.
Qed.

(** C38: [Add] and [Remove] implement insertion into and removal from a finite
    set of database/table pairs, [Min] and [Max] its least and greatest pair in
    lexicographic order, whatever tree package keeps the shards. *)
Theorem Shards_refines_set sd X db table others :
  represents sd X → inU 32 db → Forall (inU 32) (table :: others) →
  (∃ sd', Add sd db table others = Ok sd' ∧ represents sd' (row db (table :: others) ∪ X)) ∧
  (∃ sd', Remove sd db table others = Ok sd' ∧ represents sd' (X ∖ row db (table :: others))) ∧
  match Min sd with None => X = ∅ | Some p => p ∈ X ∧ ∀ q, q ∈ X → pair_le p q end ∧
  match Max sd with None => X = ∅ | Some p => p ∈ X ∧ ∀ q, q ∈ X → pair_le q p end.
Proof using BL.
  intros HX Hd Ht. split; [by apply Add_represents|]. split; [by apply Remove_represents|].
  split.
  - apply (extreme_represents sd X (λ s t, shard_val s ≤ shard_val t)); [done| | |apply shard_le_pair].
    + by destruct (bt_items sd).
    + intros s Hs. split; [by apply head_Some_elem_of|]. apply head_least; [apply HX|done].
  - apply (extreme_represents sd X (λ s t, shard_val t ≤ shard_val s) (λ p q, pair_le q p));
      [done|by apply last_None| |intros; by apply shard_le_pair].
    intros s Hs. split; [by apply last_Some_elem_of|]. apply last_greatest; [apply HX|done].
Qed.

(** [UnionShards] returns the union of all its arguments, nil pointers
    counting as empty. *)
Theorem UnionShards_union first second others X Y Zs :
  pointsTo first X → pointsTo second Y → Forall2 pointsTo others Zs →
  ∃ ret, UnionShards first second others = Ok ret ∧ represents ret (X ∪ Y ∪ ⋃ Zs).
Proof using BL.
  intros HX HY HZ.
  destruct (eachOf_union (first :: second :: others) (X :: Y :: Zs) NewShards ∅) as (r & E & H);
    [by repeat constructor|apply represents_new|].
  exists r. split; [done|]. eapply represents_eq; [done|]. set_solver.
Qed.

(** [IntersectionShards] returns the shards that are in at least two of its
    arguments.  With two arguments that is their intersection; with more it is
    not, since a shard missing from the third argument is kept. *)
Theorem IntersectionShards_at_least_two first second others X Y Zs :
  pointsTo first X → pointsTo second Y → Forall2 pointsTo others Zs →
  ∃ ret R, IntersectionShards first second others = Ok ret ∧ represents ret R ∧
    (∀ p, p ∈ R ↔ (2 ≤ occurrences p (X :: Y :: Zs))%nat) ∧
    X ∩ Y ⊆ R ∧ (others = [] → R = X ∩ Y).
Proof using BL.
  intros HX HY HZ.
  destruct (eachOf_intersect (first :: second :: others) (X :: Y :: Zs) NewShards ∅ ∅ ∅)
    as (r & V & R & E & HR & Hp); [by repeat constructor|apply represents_new|intros s; set_solver|].
  exists r, R. unfold IntersectionShards. rewrite E. split; [done|]. split; [done|].
  assert (∀ p, p ∈ R ↔ (2 ≤ occurrences p (X :: Y :: Zs))%nat) as HR'.
  { intros p. rewrite Hp. set_solver. }
  split; [done|]. split.
  - intros p [H1 H2]%elem_of_intersection. apply HR'. unfold occurrences.
    rewrite !filter_cons, !decide_True by done. simpl. lia.
  - intros ->. apply Forall2_nil_inv_l in HZ as ->. apply set_eq. intros p.
    rewrite HR', elem_of_intersection. unfold occurrences.
    rewrite !filter_cons. repeat case_decide; simpl; intuition lia.
Qed.
End Shards.

(** ** Concrete instances *)
Module ShardsExamples.
Import ListTree.

Lemma represents_list (l : list shard) : StronglySorted shard_lt l → represents l (listPairs l).
Proof. intros Hs. split; [done|]. intros p. unfold listPairs. by rewrite elem_of_list_to_set. Qed.

Definition s1 : Shards := [shard_of 0 1; shard_of 0 3; shard_of 1 2].
Definition s2 : Shards := [shard_of 0 3; shard_of 4294967295 7].

Lemma s1_sorted : StronglySorted shard_lt s1.
Proof. repeat constructor; by vm_compute. Qed.

Lemma s2_sorted : StronglySorted shard_lt s2.
Proof. repeat constructor; by vm_compute. Qed.

Lemma Shards_refines_set_witness :
  inU 32 1 ∧ (∃ sd', Add s1 1 5 [2; 9] = Ok sd' ∧ represents sd' (row 1 [5; 2; 9] ∪ listPairs s1)) ∧
  Min s1 = Some (0, 1) ∧ Max s1 = Some (1, 2).
Proof.
  assert (inU 32 1) as H by (unfold inU; lia). split; [done|]. split; [|by vm_compute].
  exact (proj1 (Shards_refines_set s1 (listPairs s1) 1 5 [2; 9] (represents_list s1 s1_sorted) H
    ltac:(repeat constructor; unfold inU; lia))).
Defined.

Lemma UnionShards_union_witness :
  ∃ ret, UnionShards (Some s1) None [Some s2] = Ok ret ∧
    represents ret (listPairs s1 ∪ ∅ ∪ ⋃ [listPairs s2]).
Proof.
  apply (UnionShards_union (Some s1) None [Some s2] (listPairs s1) ∅ [listPairs s2]
    (represents_list s1 s1_sorted) eq_refl).
  constructor; [exact (represents_list s2 s2_sorted)|constructor].
Defined.

Lemma IntersectionShards_at_least_two_witness :
  (∃ ret R, IntersectionShards (Some s1) (Some s2) [] = Ok ret ∧ represents ret R ∧
    R = listPairs s1 ∩ listPairs s2) ∧
  (∃ ret R, IntersectionShards (Some s1) (Some s1) [Some s2] = Ok ret ∧ represents ret R ∧
    (0, 1) ∈ R ∧ (0, 1) ∉ listPairs s2).
Proof.
  pose proof (represents_list s1 s1_sorted) as H1. pose proof (represents_list s2 s2_sorted) as H2. split.
  - destruct (IntersectionShards_at_least_two (Some s1) (Some s2) [] _ _ [] H1 H2 ltac:(constructor))
      as (ret & R & E & HR & _ & _ & HX). exists ret, R. auto.
  - destruct (IntersectionShards_at_least_two (Some s1) (Some s1) [Some s2] _ _ [_] H1 H1
      ltac:(constructor; [exact H2|constructor])) as (ret & R & E & HR & _ & HX & _).
    exists ret, R. split; [done|]. split; [done|]. split; [|by vm_compute].
    apply HX. by vm_compute.
Defined.
End ShardsExamples.
