(* ===== verification/Range.v ===== *)
(** * Value ranges: [pkg/proto/rule/range.go]

    A [Stepper] walks the values of a sharding column, upwards or downwards,
    in machine arithmetic.  An iterator is a value of [Range]; its [Next]
    returns the element and the iterator after it.  Random strings come from
    [rand2.Int31], a stream here. *)
From S2P Require Import Prelude GoStd.

Inductive StepUnit := Uzero | Uhour | Uday | Uweek | Umonth | Uyear | Unum | Ustr.

#[global] Instance StepUnit_eq_dec : EqDecision StepUnit.
Proof. solve_decision. Defined.

Definition IsTime (u : StepUnit) : bool :=
  match u with
  | Uhour | Uday | Uweek | Umonth | Uyear => true
  | _ => false
  end.

Definition StepUnit_String (u : StepUnit) : string :=
  match u with
  | Uhour => "HOUR" | Uday => "DATE" | Uweek => "WEEK" | Umonth => "MONTH" | Uyear => "YEAR"
  | Unum => "NUMBER" | Ustr => "STRING" | Uzero => "UNKNOWN"
  end.

Record Stepper := { N : Z; U : StepUnit }.

Definition DefaultNumberStepper : Stepper := {| N := 1; U := Unum |}.

Definition Stepper_String (s : Stepper) : string :=
  "Stepper{N=" +:+ FormatInt (N s) +:+ ",U=" +:+ StepUnit_String (U s) +:+ "}".

(** The five iterator types behind the [Range] interface. *)
Inductive Range :=
| iterStr (length cnt : Z)
| iterInt (cur step cnt : Z)
| iterInt32 (cur step cnt : Z)
| iterInt64 (cur step cnt : Z)
| iterTime (cur : Time) (step cnt : Z).

Definition range_cnt (r : Range) : Z :=
  match r with
  | iterStr _ cnt | iterInt _ _ cnt | iterInt32 _ _ cnt | iterInt64 _ _ cnt | iterTime _ _ cnt => cnt
  end.

Definition HasNext (r : Range) : bool := range_cnt r >? 0.

(** [draw] is the next answer of [rand2.Int31]. *)
Definition Next (draw : Z) (r : Range) : outcome (iface * Range) :=
  match r with
  | iterStr length cnt =>
      if cnt <=? 0 then Panic
      else Ok (Istring (FormatInt draw), iterStr length (i64 (cnt - 1)))
  | iterInt cur step cnt =>
      if cnt =? 0 then Panic else Ok (Iint cur, iterInt (i64 (cur + step)) step (i64 (cnt - 1)))
  | iterInt32 cur step cnt =>
      if cnt =? 0 then Panic else Ok (Iint32 cur, iterInt32 (i32 (cur + step)) step (i64 (cnt - 1)))
  | iterInt64 cur step cnt =>
      if cnt =? 0 then Panic else Ok (Iint64 cur, iterInt64 (i64 (cur + step)) step (i64 (cnt - 1)))
  | iterTime cur step cnt =>
      if cnt =? 0 then Panic else Ok (Itime cur, iterTime (cur + step) step (i64 (cnt - 1)))
  end.

Definition Day : Z := 24 * Hour.
Definition Week : Z := 7 * 24 * Hour.

(** The step of an iterator, computed at the width [w] of its type. *)
Definition signed_step (w n : Z) (reverse : bool) : Z :=
  if reverse then wrapS w (n * -1) else n.

Definition new_iterTime (s : Stepper) (offset : Time) (cnt timeUnit : Z) (reverse : bool) : Range :=
  iterTime offset (signed_step 64 (i64 (N s * timeUnit)) reverse) cnt.

Definition new_iterInt32 (s : Stepper) (offset cnt : Z) (reverse : bool) : Range :=
  iterInt32 offset (signed_step 32 (i32 (N s)) reverse) cnt.

Definition new_iterInt (s : Stepper) (offset cnt : Z) (reverse : bool) : Range :=
  iterInt offset (signed_step 64 (N s) reverse) cnt.

Definition new_iterInt64 (s : Stepper) (offset cnt : Z) (reverse : bool) : Range :=
  iterInt64 offset (signed_step 64 (N s) reverse) cnt.

Definition unsupported {A} : outcome A := Err (NewError "unsupported offset type").

Definition Stepper_computeRange (s : Stepper) (offset : iface) (cnt : Z) (reverse : bool) : outcome Range :=
  match offset with
  | Inil => Err (NewError "offset is nil")
  | _ =>
      match U s, offset with
      | Unum, Iint32 cur => Ok (new_iterInt32 s cur cnt reverse)
      | Unum, Iint cur => Ok (new_iterInt s cur cnt reverse)
      | Unum, Iint64 cur => Ok (new_iterInt64 s cur cnt reverse)
      | Uhour, Itime cur => Ok (new_iterTime s cur cnt Hour reverse)
      | Uday, Itime cur => Ok (new_iterTime s cur cnt Day reverse)
      | Uweek, Itime cur => Ok (new_iterTime s cur cnt Week reverse)
      | Ustr, _ => Ok (iterStr 16 cnt)
      | _, _ => unsupported
      end
  end.

Definition Ascend (s : Stepper) (offset : iface) (n : Z) : outcome Range :=
  Stepper_computeRange s offset n false.

Definition Descend (s : Stepper) (offset : iface) (n : Z) : outcome Range :=
  Stepper_computeRange s offset n true.

(** [compute] answers a value, or an iterator when the unit is [Ustr]. *)
Definition Stepper_compute (s : Stepper) (offset : iface) (n : Z) : outcome (iface + Range) :=
  match offset with
  | Inil => Err (NewError "offset is nil")
  | _ =>
      match U s, offset with
      | Unum, Iint32 cur => Ok (inl (Iint32 (i32 (cur + i32 n))))
      | Unum, Iint cur => Ok (inl (Iint (i64 (cur + n))))
      | Unum, Iint64 cur => Ok (inl (Iint64 (i64 (cur + n))))
      | Uhour, Itime cur => Ok (inl (Itime (cur + i64 (n * Hour))))
      | Uday, Itime cur => Ok (inl (Itime (cur + i64 (n * Day))))
      | Uweek, Itime cur => Ok (inl (Itime (cur + i64 (n * Week))))
      | Ustr, _ => Ok (inr (iterStr 16 n))
      | _, _ => unsupported
      end
  end.

Definition After (s : Stepper) (offset : iface) : outcome (iface + Range) :=
  Stepper_compute s offset (N s).

Definition Before (s : Stepper) (offset : iface) : outcome (iface + Range) :=
  Stepper_compute s offset (i64 (- N s)).

(** ** Walking an iterator *)

(** The loop [for iter.HasNext() { next := iter.Next(); body }]; the body says
    whether to go on.  [rnd] is the stream of random draws. *)
Fixpoint rangeLoop {S} (fuel : nat) (rnd : nat → Z) (body : S → iface → outcome (S * bool))
    (r : Range) (s : S) : outcome S :=
  if HasNext r then
    match fuel with
    | O => OutOfFuel
    | Datatypes.S fuel =>
        xr ← Next (rnd 0%nat) r;
        sc ← body s xr.1;
        if sc.2 : bool then rangeLoop fuel (λ n, rnd (Datatypes.S n)) body xr.2 sc.1 else Ok sc.1
    end
  else Ok s.

(** Enough fuel for every value the iterator has left. *)
Definition walk {S} (rnd : nat → Z) (body : S → iface → outcome (S * bool)) (r : Range) (s : S) : outcome S :=
  rangeLoop (Z.to_nat (range_cnt r)) rnd body r s.

(** The same walk over a list. *)
Fixpoint walkList {S} (body : S → iface → outcome (S * bool)) (l : list iface) (s : S) : outcome S :=
  match l with
  | [] => Ok s
  | x :: l => sc ← body s x; if sc.2 : bool then walkList body l sc.1 else Ok sc.1
  end.

(** The [k]-th value of an iterator. *)
Definition range_elem (rnd : nat → Z) (r : Range) (k : nat) : iface :=
  match r with
  | iterStr _ _ => Istring (FormatInt (rnd k))
  | iterInt cur step _ => Iint (i64 (cur + Z.of_nat k * step))
  | iterInt32 cur step _ => Iint32 (i32 (cur + Z.of_nat k * step))
  | iterInt64 cur step _ => Iint64 (i64 (cur + Z.of_nat k * step))
  | iterTime cur step _ => Itime (cur + Z.of_nat k * step)
  end.

(** The current value is in the range of its type. *)
Definition range_wf (r : Range) : Prop :=
  inS 64 (range_cnt r) ∧
  match r with
  | iterInt cur _ _ | iterInt64 cur _ _ => inS 64 cur
  | iterInt32 cur _ _ => inS 32 cur
  | _ => True
  end.

Definition elements (rnd : nat → Z) (r : Range) : list iface :=
  map (range_elem rnd r) (seq 0 (Z.to_nat (range_cnt r))).

Lemma Next_elem rnd r : range_wf r → HasNext r = true →
  ∃ r', Next (rnd 0%nat) r = Ok (range_elem rnd r 0, r') ∧ range_wf r' ∧
    range_cnt r' = range_cnt r - 1 ∧
    ∀ k, range_elem (λ n, rnd (S n)) r' k = range_elem rnd r (S k).
Proof.
  unfold HasNext, range_wf. intros [Hc Hr] Hn.
  assert (0 < range_cnt r) as Hpos by lia. clear Hn.
  assert (i64 (range_cnt r - 1) = range_cnt r - 1) as Ec.
  { apply wrapS_id; unfold inS in *; lia. }
  assert (inS 64 (range_cnt r - 1)) as Hc' by (unfold inS in *; lia).
  destruct r as [len cnt|cur step cnt|cur step cnt|cur step cnt|cur step cnt]; simpl in *;
    [rewrite (proj2 (Z.leb_gt cnt 0)) by lia|rewrite (proj2 (Z.eqb_neq cnt 0)) by lia..];
    rewrite Ec; eexists; (split; [reflexivity || (rewrite Z.add_0_r, (wrapS_id _ cur) by (done || lia); reflexivity)
                                 || (rewrite Z.add_0_r; reflexivity)|]); simpl;
    (split; [split; [done|first [done|by apply wrapS_range]]|]); (split; [done|]);
    intros k; first [done|f_equal; rewrite ?wrapS_add_l by lia; first [lia|f_equal; lia]].
Qed.

Lemma rangeLoop_list {S} rnd (body : S → iface → outcome (S * bool)) r s fuel :
  range_wf r → (Z.to_nat (range_cnt r) ≤ fuel)%nat →
  rangeLoop fuel rnd body r s = walkList body (elements rnd r) s.
Proof.
  revert rnd r s. induction fuel as [|fuel IH]; intros rnd r s Hwf Hf; unfold elements.
  - assert (Z.to_nat (range_cnt r) = 0%nat) as E by lia.
    simpl. unfold HasNext. rewrite E. destruct (Z.gtb_spec (range_cnt r) 0); [lia|done].
  - simpl. destruct (HasNext r) eqn:Hn.
    + destruct (Next_elem rnd r Hwf Hn) as (r' & -> & Hwf' & Hc & Hk). unfold HasNext in Hn. simpl.
      replace (Z.to_nat (range_cnt r)) with (Datatypes.S (Z.to_nat (range_cnt r'))) by lia. simpl.
      destruct (body s (range_elem rnd r 0)) as [[s' []]| | |]; simpl; try done.
      rewrite IH by (done || lia). f_equal. unfold elements.
      rewrite <- seq_shift, map_map. by apply map_ext.
    + unfold HasNext in Hn. by replace (Z.to_nat (range_cnt r)) with 0%nat by lia.
Qed.

Lemma walk_list {S} rnd (body : S → iface → outcome (S * bool)) r s :
  range_wf r → walk rnd body r s = walkList body (elements rnd r) s.
Proof. intros H. by apply rangeLoop_list. Qed.

(** Every value an iterator yields, in order. *)
Definition drain (rnd : nat → Z) (r : Range) : outcome (list iface) :=
  walk rnd (λ acc x, Ok (acc ++ [x], true)) r [].

Lemma drain_elements rnd r : range_wf r → drain rnd r = Ok (elements rnd r).
Proof.
  intros H. unfold drain. rewrite walk_list by done.
  enough (∀ l acc, walkList (λ acc x, Ok (acc ++ [x], true)) l acc = Ok (acc ++ l)) as E by apply E.
  induction l as [|x l IH]; intros acc; simpl; [by rewrite app_nil_r|].
  by rewrite IH, <- app_assoc.
Qed.

(** The [k]-th value [Ascend] or [Descend] promises. *)
Definition step_elem (s : Stepper) (offset : iface) (sign : Z) (k : nat) : iface :=
  match offset with
  | Iint o => Iint (i64 (o + sign * Z.of_nat k * N s))
  | Iint32 o => Iint32 (i32 (o + sign * Z.of_nat k * N s))
  | Iint64 o => Iint64 (i64 (o + sign * Z.of_nat k * N s))
  | _ => offset
  end.

Definition int_wf (x : iface) : Prop :=
  match x with Iint n | Iint64 n => inS 64 n | Iint32 n => inS 32 n | _ => False end.

(** Walking a number stepper from an integer of any width yields exactly
    [n] values, the [k]-th being the offset moved by [k] steps up or down in
    the two's-complement arithmetic of that width, and the walk then ends. *)
Theorem Stepper_walk s offset n rnd :
  U s = Unum → int_wf offset → inS 64 n →
  (r ← Ascend s offset n; drain rnd r) = Ok (map (step_elem s offset 1) (seq 0 (Z.to_nat n))) ∧
  (r ← Descend s offset n; drain rnd r) = Ok (map (step_elem s offset (-1)) (seq 0 (Z.to_nat n))).
Proof.
  intros HU Ho Hn. unfold Ascend, Descend, Stepper_computeRange. rewrite HU.
  destruct offset as [|n0|n0|n0|?|?]; simpl in Ho; try done; simpl;
    rewrite !drain_elements by (split; done); (split; f_equal; unfold elements; simpl; apply map_ext);
    intros k; simpl; f_equal; rewrite ?wrapS_mul_r by lia; try (f_equal; lia).
  replace (n0 + Z.of_nat k * (i32 (N s) * -1)) with (n0 + (- Z.of_nat k) * i32 (N s)) by lia.
  rewrite wrapS_mul_r by lia. f_equal; lia.
Qed.

Lemma Stepper_walk_witness :
  (r ← Ascend DefaultNumberStepper (Iint32 2147483646) 3; drain (λ _, 0) r)
  = Ok [Iint32 2147483646; Iint32 2147483647; Iint32 (-2147483648)].
Proof.
  exact (proj1 (Stepper_walk DefaultNumberStepper (Iint32 2147483646) 3 (λ _, 0) eq_refl
    ltac:(simpl; unfold inS; lia) ltac:(unfold inS; lia))).
Defined.
