(* ===== verification/Topology.v ===== *)
(** * Physical topology: [pkg/proto/rule/topology.go]

    A [Topology] maps each database index to the sorted slice of its table
    indexes, in a [sync.Map] whose iteration order is not specified; every
    theorem holds for every order.  The locks protect single reads and writes
    of the two render functions and have no effect on sequential behaviour. *)
From S2P Require Import Prelude GoStd.

Record Topology := mkTopology {
  dbRender : option (Z → string);
  tbRender : option (Z → string);
  idx : gmap Z (list Z);
}.

Definition MaxInt64 : Z := 2 ^ 63 - 1.
Definition MinInt64 : Z := - 2 ^ 63.

(** Calling a function value, which may be nil. *)
Definition call {A} (f : option (Z → A)) (x : Z) : outcome A :=
  match f with Some f => Ok (f x) | None => Panic end.

(** The type of a non-nil [DatabaseTables]. *)
Abbreviation DatabaseTables := (gmap string (list string)).

Section Topology.
Context {I : MapIter} {SL : SliceLib}.

Definition Topology_Len (to : Topology) : Z * Z :=
  foldl (λ acc kv, (acc.1 + 1, acc.2 + Z.of_nat (length kv.2))) (0, 0) (iter_order (idx to)).

Definition SetTopology (to : Topology) (db : Z) (tables : list Z) : Topology :=
  {| dbRender := dbRender to; tbRender := tbRender to;
     idx := match tables with [] => delete db (idx to) | _ => <[db := sort_Ints tables]> (idx to) end |}.

Definition SetRender (to : Topology) (db tb : option (Z → string)) : Topology :=
  {| dbRender := db; tbRender := tb; idx := idx to |}.

Definition Render (to : Topology) (dbIdx tblIdx : Z) : string * string * bool :=
  match dbRender to, tbRender to with
  | Some d, Some t => (d dbIdx, t tblIdx, true)
  | _, _ => ("", "", false)
  end.

Definition EnumerateDatabases (to : Topology) : outcome (list string) :=
  keys ← mapM (λ kv, call (dbRender to) kv.1) (iter_order (idx to));
  Ok (sort_Strings keys).

Definition Exists (to : Topology) (dbIdx tbIdx : Z) : bool :=
  match idx to !! dbIdx with
  | None => false
  | Some tables => BinarySearch tables tbIdx
  end.

(** The inner loop of [Each]: the answer says whether it ran to its end. *)
Fixpoint eachTable {S} (onEach : S → Z → Z → outcome (S * bool)) (d : Z) (v : list Z) (s : S)
  : outcome (S * bool) :=
  match v with
  | [] => Ok (s, true)
  | t :: v => r ← onEach s d t; if r.2 : bool then eachTable onEach d v r.1 else Ok (r.1, false)
  end.

Fixpoint eachDatabase {S} (onEach : S → Z → Z → outcome (S * bool)) (kvs : list (Z * list Z)) (s : S)
  : outcome (S * bool) :=
  match kvs with
  | [] => Ok (s, true)
  | kv :: kvs =>
      r ← eachTable onEach kv.1 kv.2 s;
      if r.2 : bool then eachDatabase onEach kvs r.1 else Ok (r.1, false)
  end.

Definition Topology_Each {S} (to : Topology) (onEach : S → Z → Z → outcome (S * bool)) (s : S)
  : outcome (S * bool) :=
  eachDatabase onEach (iter_order (idx to)) s.

Definition enumerate_visit (to : Topology) (dt : DatabaseTables) (dbIdx tbIdx : Z)
  : outcome (DatabaseTables * bool) :=
  d ← call (dbRender to) dbIdx;
  t ← call (tbRender to) tbIdx;
  Ok (<[d := default [] (dt !! d) ++ [t]]> dt, true).

Definition Enumerate (to : Topology) : outcome DatabaseTables :=
  r ← Topology_Each to (enumerate_visit to) ∅; Ok r.1.

Definition smallest_visit (smallest : Z * Z) (kv : Z * list Z) : Z * Z :=
  if kv.1 <? smallest.1 then (kv.1, default smallest.2 (head kv.2)) else smallest.

(** Without an answer the names are empty and [ok] is false: [None] here. *)
Definition Smallest (to : Topology) : outcome (option (string * string)) :=
  let smallest := foldl smallest_visit (MaxInt64, MaxInt64) (iter_order (idx to)) in
  if negb (smallest.1 =? MaxInt64) || negb (smallest.2 =? MaxInt64) then
    db ← call (dbRender to) smallest.1; tb ← call (tbRender to) smallest.2; Ok (Some (db, tb))
  else Ok None.

Definition largest_visit (largest : Z * Z) (kv : Z * list Z) : Z * Z :=
  if kv.1 >? largest.1 then (kv.1, default largest.2 (last kv.2)) else largest.

Definition Largest (to : Topology) : outcome (option (string * string)) :=
  let largest := foldl largest_visit (MinInt64, MinInt64) (iter_order (idx to)) in
  if negb (largest.1 =? MinInt64) || negb (largest.2 =? MinInt64) then
    db ← call (dbRender to) largest.1; tb ← call (tbRender to) largest.2; Ok (Some (db, tb))
  else Ok None.

(** ** Theory *)
Context {IL : MapIterLaws I} {SLL : SliceLaws SL}.

(** Every database has a sorted, non-empty slice of tables. *)
Definition wf (to : Topology) : Prop :=
  map_Forall (λ _ ts, ts ≠ [] ∧ StronglySorted Z.le ts) (idx to).

(** The pairs of the topology. *)
Definition contains (to : Topology) (d t : Z) : Prop := ∃ ts, idx to !! d = Some ts ∧ t ∈ ts.

Lemma sort_Ints_elem t ts : t ∈ sort_Ints ts ↔ t ∈ ts.
Proof using. by rewrite sort_Ints_perm. Qed.

Lemma SetTopology_wf to db tables : wf to → wf (SetTopology to db tables).
Proof using.
  intros H. unfold SetTopology, wf. simpl. destruct tables as [|t ts].
  - by apply map_Forall_delete.
  - apply map_Forall_insert_2; [|done]. split; [|apply sort_Ints_sorted].
    intros E. pose proof (sort_Ints_perm (t :: ts)) as P. rewrite E in P.
    by apply Permutation_nil_cons in P.
Qed.

Lemma SetTopology_contains to db tables d t :
  contains (SetTopology to db tables) d t ↔ if decide (d = db) then t ∈ tables else contains to d t.
Proof using.
  unfold contains, SetTopology. simpl. destruct tables as [|x xs]; case_decide as E; subst.
  - rewrite lookup_delete_eq. split; [by intros (? & ? & _)|by intros ?%elem_of_nil].
  - by rewrite lookup_delete_ne.
  - rewrite lookup_insert_eq. setoid_rewrite <- (sort_Ints_elem t (x :: xs)). naive_solver.
  - by rewrite lookup_insert_ne.
Qed.

Lemma Exists_contains to d t : wf to → Exists to d t = true ↔ contains to d t.
Proof using SLL.
  intros Hwf. unfold Exists, contains. destruct (idx to !! d) as [ts|] eqn:E; [|naive_solver].
  rewrite BinarySearch_spec by (by apply (Hwf d ts E)). naive_solver.
Qed.

(** After [SetTopology], [Exists] answers true for exactly the tables given
    for that database and is unchanged for every other one, in every reachable
    topology; an empty list removes the database. *)
Theorem SetTopology_Exists to db tables d t :
  wf to → wf (SetTopology to db tables) ∧
  (Exists (SetTopology to db tables) d t = true ↔
   if decide (d = db) then t ∈ tables else Exists to d t = true).
Proof using SLL.
  intros Hwf. pose proof (SetTopology_wf to db tables Hwf) as Hwf'. split; [done|].
  rewrite Exists_contains, SetTopology_contains by done.
  case_decide; [done|]. by rewrite Exists_contains.
Qed.

(** One pass that keeps the best key seen and the table picked from its slice. *)
Lemma extreme_fold (better : Z → Z → bool) (pick : list Z → option Z) kvs acc :
  (∀ x y z, better x y = true → better y z = true → better x z = true) →
  (∀ x, better x x = false) →
  (∀ kv, kv ∈ kvs → is_Some (pick kv.2)) →
  let r := foldl (λ acc kv, if better kv.1 acc.1 then (kv.1, default acc.2 (pick kv.2)) else acc) acc kvs in
  (r = acc ∧ ∀ kv, kv ∈ kvs → better kv.1 acc.1 = false) ∨
  (better r.1 acc.1 = true ∧ ∃ ts, (r.1, ts) ∈ kvs ∧ pick ts = Some r.2 ∧
     ∀ kv, kv ∈ kvs → better kv.1 r.1 = false).
Proof using.
  intros Htr Hirr. revert acc. induction kvs as [|[d ts] kvs IH]; intros acc Hp; simpl.
  - left. split; [done|]. by intros ? ?%elem_of_nil.
  - destruct (Hp (d, ts)) as [t Ht]; [by left|]. simpl in Ht.
    assert (∀ kv, kv ∈ kvs → is_Some (pick kv.2)) as Hp' by (intros; apply Hp; by right).
    destruct (better d acc.1) eqn:Eb.
    + rewrite Ht. simpl. destruct (IH (d, t) Hp') as [[-> Hb]|(Hb & ts' & Hin & Hts & Hall)]; right.
      * split; [done|]. exists ts. split; [by left|]. split; [done|].
        intros kv [->|Hkv]%elem_of_cons; [by apply Hirr|by apply Hb].
      * simpl in Hb. split; [by eapply Htr|]. exists ts'. split; [by right|]. split; [done|].
        intros kv [->|Hkv]%elem_of_cons; [|by apply Hall]. simpl.
        match goal with |- better _ ?r = false => destruct (better d r) eqn:E'; [|done] end.
        pose proof (Htr _ _ _ E' Hb) as Hdd. by rewrite Hirr in Hdd.
    + destruct (IH acc Hp') as [[-> Hb]|(Hb & ts' & Hin & Hts & Hall)]; [left|right].
      * split; [done|]. intros kv [->|Hkv]%elem_of_cons; [done|by apply Hb].
      * split; [done|]. exists ts'. split; [by right|]. split; [done|].
        intros kv [->|Hkv]%elem_of_cons; [|by apply Hall]. simpl.
        match goal with |- better _ ?r = false => destruct (better d r) eqn:E'; [|done] end.
        by rewrite (Htr _ _ _ E' Hb) in Eb.
Qed.

Lemma wf_pick to (pick : list Z → option Z) :
  (∀ ts, ts ≠ [] → is_Some (pick ts)) → wf to →
  ∀ kv, kv ∈ iter_order (idx to) → is_Some (pick kv.2).
Proof using IL.
  intros Hp Hwf [d ts] Hkv. apply iter_order_lookup in Hkv. apply Hp. by apply (Hwf d ts Hkv).
Qed.

Lemma sorted_head_least ts t x : StronglySorted Z.le ts → head ts = Some t → x ∈ ts → t ≤ x.
Proof using.
  destruct 1 as [|y l Hs Hy]; [done|]. intros [= ->] [->|Hx]%elem_of_cons; [lia|].
  rewrite Forall_forall in Hy. auto.
Qed.

Lemma sorted_last_greatest ts t x : StronglySorted Z.le ts → last ts = Some t → x ∈ ts → x ≤ t.
Proof using.
  intros Hs Hl Hx. apply last_Some in Hl as [l ->].
  apply StronglySorted_app in Hs as (H & _ & _).
  rewrite elem_of_app, list_elem_of_singleton in Hx. destruct Hx as [Hx| ->]; [|lia].
  apply H; [done|constructor].
Qed.

(** [Smallest] and [Largest] render the least database with its least
    table, and the greatest with its greatest, whatever order the map is
    walked in; they have no answer exactly when the topology is empty. *)
Theorem Topology_extremes to fd ft :
  wf to → dbRender to = Some fd → tbRender to = Some ft →
  map_Forall (λ d _, MinInt64 < d < MaxInt64) (idx to) →
  (idx to = ∅ ∧ Smallest to = Ok None ∧ Largest to = Ok None) ∨
  (∃ d t d' t', Smallest to = Ok (Some (fd d, ft t)) ∧ Largest to = Ok (Some (fd d', ft t')) ∧
    contains to d t ∧ contains to d' t' ∧
    ∀ x y, contains to x y → (d < x ∨ d = x ∧ t ≤ y) ∧ (x < d' ∨ x = d' ∧ y ≤ t')).
Proof using IL.
  intros Hwf Hd Ht Hk. unfold Smallest, Largest. rewrite Hd, Ht.
  pose proof (extreme_fold Z.ltb head (iter_order (idx to)) (MaxInt64, MaxInt64)) as Hs.
  pose proof (extreme_fold Z.gtb last (iter_order (idx to)) (MinInt64, MinInt64)) as Hl.
  unfold smallest_visit, largest_visit. simpl in Hs, Hl.
  assert (∀ kv, kv ∈ iter_order (idx to) → MinInt64 < kv.1 < MaxInt64) as Hk'.
  { intros [d ts] H%iter_order_lookup. apply (Hk _ _ H). }
  specialize (Hs ltac:(lia) ltac:(lia)). specialize (Hl ltac:(lia) ltac:(lia)).
  specialize (Hs (wf_pick to head ltac:(intros [] ?; naive_solver) Hwf)).
  specialize (Hl (wf_pick to last ltac:(intros ts ?; apply last_is_Some; done) Hwf)).
  destruct (foldl _ (MaxInt64, MaxInt64) _) as [d t]. destruct (foldl _ (MinInt64, MinInt64) _) as [d' t'].
  simpl in *.
  destruct Hs as [[[= -> ->] Hs]|(Hs & ts & Hin & Hts & Hall)].
  - left. destruct (iter_order (idx to)) as [|kv kvs] eqn:E.
    + destruct Hl as [[[= -> ->] _]|(_ & ? & []%elem_of_nil & _)]. split; [|done].
      apply map_size_empty_inv. by rewrite <- iter_order_length, E.
    + specialize (Hs kv ltac:(by left)). specialize (Hk' kv ltac:(by left)). lia.
  - right. pose proof (Hk' _ Hin) as Hkd. simpl in Hkd.
    destruct Hl as [[[= -> ->] Hl]|(Hl & ts' & Hin' & Hts' & Hall')].
    { specialize (Hl _ Hin). simpl in Hl. lia. }
    exists d, t, d', t'. rewrite (proj2 (Z.eqb_neq d MaxInt64)) by lia.
    rewrite (proj2 (Z.eqb_neq d' MinInt64)) by lia. simpl. do 2 (split; [done|]).
    apply iter_order_lookup in Hin, Hin'.
    split; [exists ts; split; [done|by apply head_Some_elem_of]|].
    split; [exists ts'; split; [done|by apply last_Some_elem_of]|].
    intros x y (tx & Hx & Hy). pose proof Hx as Hx'. apply iter_order_lookup in Hx'.
    specialize (Hall _ Hx'). specialize (Hall' _ Hx'). simpl in *. split.
    + destruct (decide (d = x)) as [->|]; [right|left; lia]. split; [done|].
      assert (tx = ts) as -> by congruence. eapply sorted_head_least; eauto. by apply (Hwf x ts).
    + destruct (decide (d' = x)) as [->|]; [right|left; lia]. split; [done|].
      assert (tx = ts') as -> by congruence. eapply sorted_last_greatest; eauto. by apply (Hwf x ts').
Qed.

Lemma eachTable_enumerate to fd ft d v dt :
  dbRender to = Some fd → tbRender to = Some ft →
  eachTable (enumerate_visit to) d v dt =
    Ok (if decide (v = []) then dt else <[fd d := default [] (dt !! fd d) ++ map ft v]> dt, true).
Proof using.
  intros Hd Ht. revert dt. induction v as [|t v IH]; intros dt; [done|]. simpl.
  assert (enumerate_visit to dt d t = Ok (<[fd d := default [] (dt !! fd d) ++ [ft t]]> dt, true)) as ->
    by (unfold enumerate_visit; by rewrite Hd, Ht).
  simpl. rewrite IH. do 2 f_equal.
  destruct (decide (v = [])) as [->|Hv]; simpl; [done|].
  rewrite lookup_insert_eq, insert_insert_eq. simpl. by rewrite <- app_assoc.
Qed.

Lemma eachDatabase_enumerate to fd ft kvs dt :
  dbRender to = Some fd → tbRender to = Some ft →
  (∀ kv, kv ∈ kvs → kv.2 ≠ []) → NoDup (map (λ kv, fd kv.1) kvs) →
  (∀ kv, kv ∈ kvs → dt !! fd kv.1 = None) →
  ∃ dt', eachDatabase (enumerate_visit to) kvs dt = Ok (dt', true) ∧
    ∀ s, dt' !! s = match list_find (λ kv, fd kv.1 = s) kvs with
                    | Some (_, kv) => Some (map ft kv.2)
                    | None => dt !! s
                    end.
Proof using.
  intros Hd Ht. revert dt. induction kvs as [|[d ts] kvs IH]; intros dt Hne HN Hfresh; simpl; [eauto|].
  rewrite (eachTable_enumerate to fd ft) by done. simpl.
  rewrite decide_False by (apply (Hne (d, ts)); by left).
  assert (dt !! fd d = None) as -> by (apply (Hfresh (d, ts)); by left). simpl. apply NoDup_cons in HN as [Hd' HN]. simpl in Hd'.
  destruct (IH (<[fd d := map ft ts]> dt)) as (dt' & E & Hdt').
  - intros kv ?. apply Hne. by right.
  - done.
  - intros kv Hkv. rewrite lookup_insert_ne; [apply Hfresh; by right|].
    intros E. apply Hd'. rewrite E. by apply (list_elem_of_fmap_2 (λ kv, fd kv.1)).
  - exists dt'. split; [done|]. intros s. rewrite Hdt'. case_decide as Es; simpl.
    + subst s. destruct (list_find _ kvs) as [[i kv]|] eqn:Ef; simpl.
      * apply list_find_Some in Ef as (Ei & Ek & _). exfalso. apply Hd'. rewrite <- Ek.
        apply (list_elem_of_fmap_2 (λ kv, fd kv.1)). by eapply list_elem_of_lookup_2.
      * by rewrite lookup_insert_eq.
    + destruct (list_find _ kvs) as [[i kv]|]; simpl; [done|]. by rewrite lookup_insert_ne.
Qed.

(** When no two databases have the same rendered name, [Enumerate] lists
    under each name exactly the rendered tables of that database, in ascending
    index order, and nothing else. *)
Lemma Enumerate_exact to fd ft :
  wf to → dbRender to = Some fd → tbRender to = Some ft → Inj (=) (=) fd →
  ∃ dt, Enumerate to = Ok dt ∧
    (∀ d, dt !! fd d = map ft <$> idx to !! d) ∧
    (∀ s, is_Some (dt !! s) → ∃ d, s = fd d).
Proof using IL.
  intros Hwf Hd Ht Hinj. unfold Enumerate, Topology_Each.
  destruct (eachDatabase_enumerate to fd ft (iter_order (idx to)) ∅) as (dt & -> & Hdt); [done|done| | |done|].
  - intros [d ts] H%iter_order_lookup. by apply (Hwf d ts).
  - rewrite <- (map_map fst fd). apply NoDup_fmap; [done|]. apply iter_order_NoDup.
  - exists dt. split; [done|]. split.
    + intros d. rewrite Hdt. destruct (list_find _ _) as [[i [d' ts]]|] eqn:Ef; simpl.
      * apply list_find_Some in Ef as (Ei & Ek & _). apply Hinj in Ek. simpl in Ek. subst d'.
        apply list_elem_of_lookup_2, iter_order_lookup in Ei. by rewrite Ei.
      * destruct (idx to !! d) as [ts|] eqn:E; [|done]. apply iter_order_lookup in E.
        apply list_find_None in Ef. rewrite Forall_forall in Ef. by destruct (Ef _ E).
    + intros s. rewrite Hdt. destruct (list_find _ _) as [[i kv]|] eqn:Ef; simpl; [|by intros []].
      apply list_find_Some in Ef as (_ & <- & _). eauto.
Qed.
End Topology.

(** ** Concrete instances *)
Module TopologyExamples.
Import ForwardIter LinearSearch.

Definition render (prefix : string) (i : Z) : string := prefix +:+ FormatInt i.

Lemma render_inj prefix : Inj (=) (=) (render prefix).
Proof.
  intros x y H. assert (FormatInt x = FormatInt y) as E.
  { revert H. unfold render. induction prefix as [|c p IH]; simpl; [done|]. intros [= H]. auto. }
  pose proof (parse_format x) as Hx. rewrite E, parse_format in Hx. congruence.
Qed.

Definition school : Topology :=
  SetTopology (SetTopology (mkTopology (Some (render "school_")) (Some (render "student_")) ∅) 1 [7; 5; 6]) 0 [3; 1].

Lemma school_wf : wf school.
Proof. do 2 apply SetTopology_wf. by intros ??. Qed.

Lemma SetTopology_Exists_witness :
  Exists (SetTopology school 1 [9; 8]) 1 8 = true ∧ Exists (SetTopology school 1 []) 1 5 = false.
Proof.
  split.
  - apply (proj2 (SetTopology_Exists school 1 [9; 8] 1 8 school_wf)). rewrite decide_True by done. set_solver.
  - by vm_compute.
Defined.

Lemma Topology_extremes_witness :
  wf school ∧ Smallest school = Ok (Some ("school_0", "student_1")) ∧
  Largest school = Ok (Some ("school_1", "student_7")) ∧
  ∃ d t, contains school d t ∧ ∀ x y, contains school x y → d < x ∨ d = x ∧ t ≤ y.
Proof.
  split; [exact school_wf|]. split; [by vm_compute|]. split; [by vm_compute|].
  destruct (Topology_extremes school (render "school_") (render "student_") school_wf eq_refl eq_refl)
    as [(H & _)|(d & t & d' & t' & _ & _ & H1 & _ & H3)].
  - intros d ts. unfold school, SetTopology. simpl. unfold MinInt64, MaxInt64.
    rewrite lookup_insert. case_decide; [intros; lia|]. rewrite lookup_insert. case_decide; [intros; lia|done].
  - by apply (f_equal size) in H.
  - exists d, t. split; [done|]. intros x y Hxy. by destruct (H3 x y Hxy).
Defined.

Lemma Enumerate_exact_witness :
  ∃ dt, Enumerate school = Ok dt ∧ dt !! "school_1" = Some ["student_5"; "student_6"; "student_7"].
Proof.
  destruct (Enumerate_exact school (render "school_") (render "student_") school_wf eq_refl eq_refl
    (render_inj _)) as (dt & E & H & _).
  exists dt. split; [done|]. exact (H 1).
Defined.
End TopologyExamples.
