(* ===== verification/DatabaseTable.v ===== *)
(** * Named shards: [pkg/proto/rule/database_table.go]

    [DatabaseTables] maps a database name to table names; the name ["*"]
    matches everything on its level, and the nil map matches every table.  Go
    leaves the iteration order of maps open, so the loops run over an arbitrary
    arrangement of the entries. *)
From S2P Require Import Prelude GoStd Topology.

Definition star : string := "*".

(** A map used as a set of names. *)
Abbreviation names := (gmap string unit).

Definition flagA : Z := 1.
Definition flagB : Z := Z.shiftl 1 1.
Definition has (flags flag : Z) : bool := negb (Z.land flags flag =? 0).

Section DatabaseTable.
Context {I : MapIter}.

(** The loop of [IsConfused]: the tables seen, or [None] once one repeats. *)
Definition confused_visit (tbs : option names) (tbl : string) : option names :=
  tbs ← tbs; match tbs !! tbl with Some _ => None | None => Some (<[tbl := tt]> tbs) end.

Definition IsConfused (dt : option DatabaseTables) : bool :=
  match dt with
  | None => false
  | Some m =>
      match foldl (λ tbs kv, foldl confused_visit tbs kv.2) (Some ∅) (iter_order m) with
      | None => true
      | Some _ => false
      end
  end.

(** One pass over all pairs keeping the table that wins the comparison. *)
Definition pick_table (wins : Z) (m : DatabaseTables) : string * string :=
  foldl (λ acc kv, foldl (λ acc it,
      if String.eqb acc.2 "" || (strings_Compare it acc.2 =? wins) then (kv.1, it) else acc) acc kv.2)
    ("", "") (iter_order m).

Definition DatabaseTables_Smallest (dt : option DatabaseTables) : string * string :=
  pick_table (-1) (default ∅ dt).

Definition DatabaseTables_Largest (dt : option DatabaseTables) : string * string :=
  pick_table 1 (default ∅ dt).

Definition IsEmpty (dt : option DatabaseTables) : bool :=
  match dt with Some m => (size m =? 0)%nat | None => false end.

Definition IsFullScan (dt : option DatabaseTables) : bool :=
  match dt with
  | None => true
  | Some m => existsb (λ kv, String.eqb kv.1 star || existsb (String.eqb star) kv.2) (iter_order m)
  end.

Definition DatabaseTables_Len (dt : option DatabaseTables) : Z :=
  foldl (λ n kv, n + Z.of_nat (length kv.2)) 0 (iter_order (default ∅ dt)).

(** ** Or *)

Definition index_table (db : string) (indexes : gmap string names) (tbl : string) : gmap string names :=
  <[db := <[tbl := tt]> (default ∅ (indexes !! db))]> indexes.

Definition index_all (indexes : gmap string names) (next : DatabaseTables) : gmap string names :=
  foldl (λ ix kv, foldl (index_table kv.1) ix kv.2) indexes (iter_order next).

(** What the loop over [indexes] leaves at one database: nothing, when every
    table is dropped. *)
Definition or_tables (fuzz : names) (v : names) : option (list string) :=
  if bool_decide (is_Some (v !! star)) then Some [star]
  else
    match filter (λ tbl, fuzz !! tbl = None) (iter_order v).*1 with
    | [] => None
    | l => Some (sort_Strings l)
    end.

Definition or_visit (fuzz : names) (ret : DatabaseTables) (kv : string * names) : DatabaseTables :=
  match or_tables fuzz kv.2 with None => ret | Some l => <[kv.1 := l]> ret end.

Definition Or (dt other : option DatabaseTables) : option DatabaseTables :=
  match dt, other with
  | Some a, Some b =>
      if IsEmpty dt || IsEmpty other then other else
      let indexes := index_all (index_all ∅ a) b in
      let fuzz := default ∅ (indexes !! star) in
      if bool_decide (is_Some (fuzz !! star)) then None else
      let ret := foldl (or_visit fuzz) ∅ (iter_order (delete star indexes)) in
      if (0 <? size fuzz)%nat then Some (<[star := sort_Strings (iter_order fuzz).*1]> ret) else Some ret
  | _, _ => None
  end.

(** ** And *)

Definition mark (how : option Z → Z) (db : string) (merge : gmap string (gmap string Z)) (tb : string)
  : gmap string (gmap string Z) :=
  let tbs := default ∅ (merge !! db) in <[db := <[tb := how (tbs !! tb)]> tbs]> merge.

Definition mark_all (how : option Z → Z) (merge : gmap string (gmap string Z)) (m : DatabaseTables)
  : gmap string (gmap string Z) :=
  foldl (λ mg kv, foldl (mark how kv.1) mg kv.2) merge (iter_order m).

Definition append_table (db tbl : string) (ret : DatabaseTables) : DatabaseTables :=
  <[db := default [] (ret !! db) ++ [tbl]]> ret.

(** The tables of the wildcard database that carry [flag]. *)
Definition and_fuzz (db : string) (flag : Z) (dbFuzz : gmap string Z) (ret : DatabaseTables) : DatabaseTables :=
  foldl (λ ret tf, if negb (String.eqb tf.1 star) && has tf.2 flag then append_table db tf.1 ret else ret)
    ret (iter_order dbFuzz).

Definition crosses (fa fb : bool) (fuzz : Z) : bool := (fa && has fuzz flagB) || (fb && has fuzz flagA).

(** One round of the innermost loop; the variable [fuzz] is assigned in it. *)
Definition and_visit (db : string) (dbFuzz : gmap string Z) (st : Z * DatabaseTables) (tf : string * Z)
  : Z * DatabaseTables :=
  let '(fuzz, ret) := st in
  let '(tbl, flag) := tf in
  let fa := has flag flagA in
  let fb := has flag flagB in
  if fa && fb then (fuzz, append_table db tbl ret)
  else if crosses fa fb fuzz then (fuzz, append_table db tbl ret)
  else if (size dbFuzz <? 1)%nat then (fuzz, ret)
  else
    let fuzz := default 0 (dbFuzz !! tbl) in
    if crosses fa fb fuzz then (fuzz, append_table db tbl ret)
    else
      let fuzz := default 0 (dbFuzz !! star) in
      if crosses fa fb fuzz then (fuzz, append_table db tbl ret) else (fuzz, ret).

Definition and_database (dbFuzz : gmap string Z) (ret : DatabaseTables) (kv : string * gmap string Z)
  : DatabaseTables :=
  let '(db, tbls) := kv in
  let fuzz := default 0 (tbls !! star) in
  let tbls := delete star tbls in
  if has fuzz flagA && has fuzz flagB then append_table db star ret
  else
    let ret :=
      if has fuzz flagA then and_fuzz db flagB dbFuzz ret
      else if has fuzz flagB then and_fuzz db flagA dbFuzz ret
      else ret in
    (foldl (and_visit db dbFuzz) (fuzz, ret) (iter_order tbls)).2.

Definition And (dt other : option DatabaseTables) : option DatabaseTables :=
  match dt, other with
  | None, _ => other
  | _, None => dt
  | Some a, Some b =>
      let merge := mark_all (λ o, Z.lor (default 0 o) flagB) (mark_all (λ _, flagA) ∅ a) b in
      let dbFuzz := default ∅ (merge !! star) in
      let merge := delete star merge in
      let f := default 0 (dbFuzz !! star) in
      if has f flagA && has f flagB then None
      else if has f flagA then other
      else if has f flagB then dt
      else Some (foldl (and_database dbFuzz) ∅ (iter_order merge))
  end.

(** ** String *)

(** The quote character. *)
Definition quote : string := String "034"%char "".

Definition name_string (acc : string * Z) (db tb : string) : string * Z :=
  ((if acc.2 >? 0 then acc.1 +:+ ", " else acc.1) +:+ quote +:+ db +:+ "." +:+ tb +:+ quote, acc.2 + 1).

Definition DatabaseTables_String (dt : option DatabaseTables) : string :=
  if IsFullScan dt then "[" +:+ quote +:+ "*" +:+ quote +:+ "]"
  else if IsEmpty dt then "[]"
  else
    let m := default ∅ dt in
    let keys := sort_Strings (iter_order m).*1 in
    (foldl (λ acc db, foldl (λ acc tb, name_string acc db tb) acc (default [] (m !! db))) ("[", 0) keys).1 +:+ "]".

(** ** Meaning *)
Context {IL : MapIterLaws I}.

(** A table listed under a database. *)
Definition listed (m : DatabaseTables) (db tb : string) : Prop := ∃ l, m !! db = Some l ∧ tb ∈ l.

#[export] Instance listed_dec m db tb : Decision (listed m db tb).
Proof using.
  unfold listed. destruct (m !! db) as [l|]; [|right; naive_solver].
  destruct (decide (tb ∈ l)); [left; eauto|right; naive_solver].
Defined.

(** The physical tables a value stands for, wildcards expanded. *)
Definition covers (dt : option DatabaseTables) (db tb : string) : Prop :=
  match dt with
  | None => True
  | Some m => listed m db tb ∨ listed m db star ∨ listed m star tb ∨ listed m star star
  end.

Definition member (ix : gmap string names) (db tb : string) : Prop :=
  ∃ v, ix !! db = Some v ∧ is_Some (v !! tb).

Lemma index_table_member db ix tbl d t :
  member (index_table db ix tbl) d t ↔ member ix d t ∨ d = db ∧ t = tbl.
Proof using.
  unfold member, index_table. destruct (decide (d = db)) as [->|Hne].
  - rewrite lookup_insert_eq. split.
    + intros (v & [= <-] & Hv). rewrite lookup_insert in Hv. case_decide; [auto|].
      destruct (ix !! db) as [w|]; simpl in Hv; [eauto|]. by rewrite lookup_empty in Hv; destruct Hv.
    + intros [(v & Hv & Ht)|[_ ->]]; eexists; (split; [done|]).
      * rewrite Hv. simpl. rewrite lookup_insert. case_decide; [eauto|done].
      * rewrite lookup_insert_eq. eauto.
  - rewrite lookup_insert_ne by done. naive_solver.
Qed.

Lemma index_tables_member db tbls ix d t :
  member (foldl (index_table db) ix tbls) d t ↔ member ix d t ∨ d = db ∧ t ∈ tbls.
Proof using.
  revert ix. induction tbls as [|x tbls IH]; intros ix; simpl.
  - rewrite elem_of_nil. tauto.
  - rewrite IH, index_table_member, elem_of_cons. tauto.
Qed.

Lemma index_all_member ix m d t : member (index_all ix m) d t ↔ member ix d t ∨ listed m d t.
Proof using IL.
  unfold index_all, listed.
  setoid_rewrite <- iter_order_lookup. revert ix. induction (iter_order m) as [|[db l] kvs IH]; intros ix; simpl.
  - split; [auto|]. intros [?|(? & []%elem_of_nil & _)]; done.
  - rewrite IH, index_tables_member. setoid_rewrite elem_of_cons. naive_solver.
Qed.

(** A loop that writes the entry of each key at most once. *)
Lemma or_fold_lookup fuzz kvs ret db :
  NoDup kvs.*1 → (∀ kv, kv ∈ kvs → ret !! kv.1 = None) →
  foldl (or_visit fuzz) ret kvs !! db =
    match ret !! db with
    | Some l => Some l
    | None => (snd <$> list_find (λ kv, kv.1 = db) kvs) ≫= λ kv, or_tables fuzz kv.2
    end.
Proof using.
  revert ret. induction kvs as [|[d v] kvs IH]; intros ret HN Hfr; simpl; [by destruct (ret !! db)|].
  apply NoDup_cons in HN as [Hd HN]. simpl in Hd.
  assert (ret !! d = None) as Hrd by (apply (Hfr (d, v)); by left).
  assert (∀ kv, kv ∈ kvs → kv.1 ≠ d) as Hne.
  { intros kv Hkv <-. apply Hd. by apply list_elem_of_fmap_2. }
  rewrite IH; [|done|].
  - unfold or_visit. simpl. destruct (or_tables fuzz v) as [l|] eqn:Eo; case_decide as Ed; subst; simpl.
    + rewrite lookup_insert_eq, Hrd. simpl. by rewrite Eo.
    + rewrite lookup_insert_ne by done. by destruct (ret !! db), (list_find _ kvs) as [[]|].
    + rewrite Hrd. simpl. rewrite Eo. destruct (list_find _ kvs) as [[i kv]|] eqn:Ef; simpl; [|done].
      apply list_find_Some in Ef as (Ei & Ek & _). apply list_elem_of_lookup_2 in Ei.
      by destruct (Hne kv Ei).
    + by destruct (ret !! db), (list_find _ kvs) as [[]|].
  - intros kv Hkv. unfold or_visit. simpl. destruct (or_tables fuzz v); [|apply Hfr; by right].
    rewrite lookup_insert_ne; [apply Hfr; by right|]. intros ->. by apply (Hne kv).
Qed.

Lemma or_tables_elem fuzz v tb :
  (∃ l, or_tables fuzz v = Some l ∧ (tb ∈ l ∨ star ∈ l)) ↔
  is_Some (v !! star) ∨ is_Some (v !! tb) ∧ fuzz !! tb = None.
Proof using IL.
  unfold or_tables. case_bool_decide as Hs.
  { split; [auto|]. intros _. eexists. split; [done|]. right. by apply list_elem_of_singleton. }
  assert (∀ x, x ∈ filter (λ tbl, fuzz !! tbl = None) (iter_order v).*1 ↔
    fuzz !! x = None ∧ is_Some (v !! x)) as Hf.
  { intros x. rewrite list_elem_of_filter, list_elem_of_fmap. split.
    - intros (? & [y u] & -> & Hy%iter_order_lookup). eauto.
    - intros (? & u & Hu). split; [done|]. exists (x, u). split; [done|]. by apply iter_order_lookup. }
  destruct (filter _ _) as [|x l] eqn:El.
  - split; [by intros (? & ? & _)|]. intros [?|[??]]; [done|]. by assert (tb ∈ []) as ?%elem_of_nil by (by apply Hf).
  - assert (∀ y, y ∈ sort_Strings (x :: l) ↔ fuzz !! y = None ∧ is_Some (v !! y)) as Hf'.
    { intros y. rewrite sort_Strings_perm. apply Hf. }
    split.
    + intros (l' & [= <-] & [H|H]); apply Hf' in H; tauto.
    + intros [?|[??]]; [done|]. eexists. split; [done|]. left. by apply Hf'.
Qed.

Lemma fuzz_member ix tb : is_Some (default ∅ (ix !! star) !! tb) ↔ member ix star tb.
Proof using.
  unfold member. destruct (ix !! star) as [v|]; simpl; [naive_solver|].
  rewrite lookup_empty. split; [by intros []|by intros (? & ? & _)].
Qed.

Lemma or_listed ix db tb : db ≠ star →
  let fuzz := default ∅ (ix !! star) in
  let ret := foldl (or_visit fuzz) ∅ (iter_order (delete star ix)) in
  ret !! star = None ∧
  (listed ret db tb ∨ listed ret db star ↔
   member ix db star ∨ member ix db tb ∧ ¬ member ix star tb).
Proof using IL.
  intros Hdb fuzz ret. subst ret.
  assert (∀ d, foldl (or_visit fuzz) ∅ (iter_order (delete star ix)) !! d =
    (delete star ix !! d) ≫= or_tables fuzz) as E.
  { intros d. rewrite or_fold_lookup by (apply iter_order_NoDup || done). rewrite lookup_empty.
    rewrite list_find_iter. by destruct (delete star ix !! d). }
  split; [by rewrite E, lookup_delete_eq|].
  unfold listed. rewrite E, lookup_delete_ne by done.
  rewrite <- (fuzz_member ix tb), <- eq_None_not_Some. fold fuzz.
  destruct (ix !! db) as [v|] eqn:Ev; simpl.
  - transitivity (∃ l, or_tables fuzz v = Some l ∧ (tb ∈ l ∨ star ∈ l)); [naive_solver|].
    rewrite or_tables_elem. unfold member. rewrite Ev. naive_solver.
  - unfold member. rewrite Ev. naive_solver.
Qed.

(** The case analysis of [Or_covers], on propositions: [L1] and [L2] what is listed in the
    result, [D] under the database, [W] under its wildcard, [F] under the
    wildcard database. *)
Lemma or_cases (L1 L2 D W F S : Prop) :
  Decision F → ¬ S → (L1 ∨ L2 ↔ W ∨ D ∧ ¬ F) → L1 ∨ L2 ∨ F ∨ S ↔ D ∨ W ∨ F ∨ S.
Proof using. clear. intros HF HS HL. destruct HF; tauto. Qed.

Lemma or_split (A1 A2 A3 A4 B1 B2 B3 B4 : Prop) :
  (A1 ∨ B1) ∨ (A2 ∨ B2) ∨ (A3 ∨ B3) ∨ (A4 ∨ B4) ↔ (A1 ∨ A2 ∨ A3 ∨ A4) ∨ (B1 ∨ B2 ∨ B3 ∨ B4).
Proof using. clear. tauto. Qed.

(** [Or] of two non-empty values stands for exactly the tables that one of
    them stands for, with both wildcard levels taken into account and whatever
    order the maps are walked in. *)
Theorem Or_covers a b db tb :
  a ≠ ∅ → b ≠ ∅ → db ≠ star → tb ≠ star →
  covers (Or (Some a) (Some b)) db tb ↔ covers (Some a) db tb ∨ covers (Some b) db tb.
Proof using IL.
  intros Ha Hb Hdb Htb. unfold Or, IsEmpty.
  rewrite (proj2 (Nat.eqb_neq (size a) 0)), (proj2 (Nat.eqb_neq (size b) 0))
    by (by apply map_size_non_empty_iff). simpl.
  set (ix := index_all (index_all ∅ a) b).
  assert (∀ d t, member ix d t ↔ listed a d t ∨ listed b d t) as Hm.
  { intros d t. subst ix. rewrite !index_all_member. split; [|tauto].
    intros [[(? & E & _)|?]|?]; [by rewrite lookup_empty in E|tauto..]. }
  destruct (or_listed ix db tb Hdb) as [Hs Hl].
  case_bool_decide as Hss; rewrite fuzz_member, Hm in Hss; [simpl; tauto|].
  set (fuzz := default ∅ (ix !! star)) in *. set (ret := foldl _ _ _) in *.
  assert (∀ t, t ∈ sort_Strings (iter_order fuzz).*1 ↔ member ix star t) as Hfz.
  { intros t. rewrite sort_Strings_perm, <- fuzz_member, list_elem_of_fmap. fold fuzz. split.
    - intros ([x u] & -> & H%iter_order_lookup). eauto.
    - intros [u Hu]. exists (t, u). split; [done|]. by apply iter_order_lookup. }
  destruct (Nat.ltb_spec 0 (size fuzz)) as [Hsz|Hsz]; simpl.
  - assert (∀ t, listed (<[star := sort_Strings (iter_order fuzz).*1]> ret) db t ↔ listed ret db t) as H1.
    { intros t. unfold listed. by rewrite lookup_insert_ne. }
    assert (∀ t, listed (<[star := sort_Strings (iter_order fuzz).*1]> ret) star t ↔ member ix star t) as H2.
    { intros t. unfold listed. rewrite lookup_insert_eq, <- Hfz. naive_solver. }
    rewrite !H1, !H2, !Hm in *. rewrite <- or_split. apply or_cases; [apply _|done|done].
  - assert (∀ t, ¬ member ix star t) as H0.
    { intros t H%fuzz_member. fold fuzz in H. assert (fuzz = ∅) as E by (apply map_size_empty_inv; lia).
      rewrite E, lookup_empty in H. by destruct H. }
    assert (∀ t, ¬ listed ret star t) as H1 by (intros t (? & E & _); congruence).
    rewrite <- or_split. pose proof (H0 star) as Hs1. pose proof (H0 tb) as Ht1. rewrite !Hm in *.
    rewrite <- (or_cases _ _ _ _ _ _ _ Hss Hl). pose proof (H1 star) as Hs2. pose proof (H1 tb) as Ht2.
    clear -Hs2 Ht2 Hs1 Ht1. tauto.
Qed.

(** [Or] with an empty right operand is that operand: every table of the
    left one is lost, although the union is the left one.  ([Or] tests both
    operands for emptiness and returns [other] in both cases.) *)
Theorem Or_empty_loses a : Or (Some a) (Some ∅) = Some ∅ ∧ ∀ db tb, ¬ covers (Or (Some a) (Some ∅)) db tb.
Proof using.
  assert (Or (Some a) (Some ∅) = Some ∅) as ->.
  { unfold Or, IsEmpty. rewrite map_size_empty. simpl. by rewrite orb_true_r. }
  split; [done|]. intros db tb. unfold covers, listed. setoid_rewrite lookup_empty. naive_solver.
Qed.
End DatabaseTable.

(** ** Concrete instances *)
Module DatabaseTableExamples.

Lemma Or_covers_witness :
  covers (Or (I := ForwardIter.instance) (Some {["db0" := ["t1"; "*"]]}) (Some {["*" := ["t2"]]})) "db7" "t2".
Proof.
  apply (Or_covers (IL := ForwardIter.laws) {["db0" := ["t1"; "*"]]} {["*" := ["t2"]]} "db7" "t2");
    [by vm_compute|by vm_compute|by vm_compute|by vm_compute|].
  right. right. right. left. exists ["t2"]. split; [by vm_compute|]. by left.
Defined.

(** The left value stands for every table of [db]; the right one for [db.t2]. *)
Definition leftDT : option DatabaseTables := Some {["db" := ["*"; "t1"]; "*" := ["t9"]]}.
Definition rightDT : option DatabaseTables := Some {["db" := ["t2"]]}.

(** The innermost loop of [And] assigns the variable [fuzz] that holds the
    wildcard flags of the database, so a table visited earlier can switch the
    wildcard off for the later ones: with the same operands, one iteration
    order keeps [db.t2], which both operands stand for, and another loses it. *)
Theorem And_order_dependent :
  covers leftDT "db" "t2" ∧ covers rightDT "db" "t2" ∧
  And (I := ForwardIter.instance) leftDT rightDT ≠ And (I := BackwardIter.instance) leftDT rightDT ∧
  covers (And (I := BackwardIter.instance) leftDT rightDT) "db" "t2" ∧
  And (I := ForwardIter.instance) leftDT rightDT = Some ∅.
Proof.
  split; [right; left; eexists; split; [by vm_compute|]; by left|].
  split; [left; eexists; split; [by vm_compute|]; by left|].
  assert (And (I := ForwardIter.instance) leftDT rightDT = Some ∅) as -> by (by vm_compute).
  assert (And (I := BackwardIter.instance) leftDT rightDT = Some {["db" := ["t2"]]}) as -> by (by vm_compute).
  split; [done|]. split; [|done]. left. exists ["t2"]. split; [by vm_compute|]. by left.
Qed.
End DatabaseTableExamples.
