(* ===== verification/Rule.v ===== *)
(** * Sharding rules: [pkg/proto/rule/rule.go] and [attributes.go]

    A [Rule] maps logical table names to virtual tables; a virtual table has a
    topology and virtual shards, each with the computers that map column values
    to a database and a table index.  The computer is an interface of the
    program, so it is a record here.  [sync.Once] caches the variables of a
    shard; as its computers do not change the cached value is the computed one.
    [GetShardMetaDataJSON], a report for the console, is left out. *)
From S2P Require Import Prelude GoStd Value Range Topology.

(** ** Attributes *)
Module Attributes.

Record attributes := mkAttributes { inner : gmap Z (list Z) }.

Definition attribute (a : attributes) (key : Z) : option (list Z) := inner a !! key.

Definition setAttribute (a : attributes) (key : Z) (value : list Z) : attributes :=
  mkAttributes (<[key := value]> (inner a)).

(** The answers [value, ok] as an option. *)
Definition attributeBool (a : attributes) (key : Z) : option bool :=
  (λ b, match b with x :: _ => negb (x =? 0) | [] => false end) <$> attribute a key.

Definition setAttributeBool (a : attributes) (key : Z) (value : bool) : attributes :=
  setAttribute a key [if value then 1 else 0].

(** [binary.BigEndian.PutUint32] and [PutUint64] on [n] fresh bytes. *)
Fixpoint PutUint (n : nat) (value : Z) : list Z :=
  match n with
  | O => []
  | S n => u8 (Z.shiftr value (8 * Z.of_nat n)) :: PutUint n value
  end.

(** [binary.BigEndian.Uint32] and [Uint64]: the first [n] bytes; a shorter
    slice is an index error. *)
Fixpoint Uint (n : nat) (acc : Z) (b : list Z) : outcome Z :=
  match n, b with
  | O, _ => Ok acc
  | S n, x :: b => Uint n (Z.lor (Z.shiftl acc 8) x) b
  | S _, [] => Panic
  end.

Definition setAttributeUint32 (a : attributes) (key value : Z) : attributes :=
  setAttribute a key (PutUint 4 value).

Definition attributeUint32 (a : attributes) (key : Z) : outcome (option Z) :=
  match attribute a key with
  | None => Ok None
  | Some b => n ← Uint 4 0 b; Ok (Some n)
  end.

Definition setAttributeUint64 (a : attributes) (key value : Z) : attributes :=
  setAttribute a key (PutUint 8 value).

Definition attributeUint64 (a : attributes) (key : Z) : outcome (option Z) :=
  match attribute a key with
  | None => Ok None
  | Some b => n ← Uint 8 0 b; Ok (Some n)
  end.

Lemma Uint_PutUint n acc value : 0 ≤ acc → 0 ≤ value →
  Uint n acc (PutUint n value) = Ok (acc * 2 ^ (8 * Z.of_nat n) + value mod 2 ^ (8 * Z.of_nat n)).
Proof.
  revert acc. induction n as [|n IH]; intros acc Ha Hv; simpl.
  - change (2 ^ (8 * Z.of_nat 0)) with 1. rewrite Z.mod_1_r. f_equal. lia.
  - rewrite byte_lor by done. rewrite IH; [|pose proof (Z.mod_pos_bound (Z.shiftr value (8 * Z.of_nat n)) 256); lia|done].
    f_equal. rewrite Z.shiftr_div_pow2 by lia.
    replace (8 * Z.of_nat (S n)) with (8 * Z.of_nat n + 8) by lia.
    rewrite Z.pow_add_r by lia. change (2 ^ 8) with 256.
    rewrite (Z.rem_mul_r value) by lia. lia.
Qed.
End Attributes.
Export Attributes.

(** ** Computers *)

Record ShardComputer := mkComputer {
  Variables : list string;
  ShardCompute : list (option ProtoValue) → outcome Z;
}.

Record ShardColumn := mkColumn { Name : string; Steps : Z; ColStepper : Stepper }.

Record ShardMetadata := mkMetadata { ShardColumns : list ShardColumn; Computer : ShardComputer }.

Definition GetShardColumn (sm : ShardMetadata) (name : string) : option ShardColumn :=
  snd <$> list_find (λ c, Name c = name) (ShardColumns sm).

(** Computer factories, by type name; a script and its columns make a computer. *)
Definition ShardComputerFactory := list string → string → outcome ShardComputer.

Definition RegisterShardComputer (computers : gmap string ShardComputerFactory) (typ : string)
    (factory : ShardComputerFactory) : gmap string ShardComputerFactory :=
  <[typ := factory]> computers.

Definition NewComputer (computers : gmap string ShardComputerFactory) (typ : string)
    (columns : list string) (expr : string) : outcome ShardComputer :=
  match computers !! typ with
  | None => Err (NewError "no such shard computer type")
  | Some f => f columns expr
  end.

Record VShard := mkVShard { DB : option ShardMetadata; Table : option ShardMetadata }.

(** The [handle] closure: it appends the names not visited yet. *)
Definition handle (variables : list string) (vars : list string) : list string :=
  foldl (λ acc x, if bool_decide (x ∈ acc) then acc else acc ++ [x]) variables vars.

Definition metadataVariables (m : option ShardMetadata) : list string :=
  match m with Some m => Variables (Computer m) | None => [] end.

Definition VShard_Variables (vs : VShard) : list string :=
  handle (handle [] (metadataVariables (DB vs))) (metadataVariables (Table vs)).

Definition VShard_Len (vs : VShard) : Z := Z.of_nat (length (VShard_Variables vs)).

(** ** Virtual tables *)

Record AutoIncrement := { AIType : string; AIOption : gmap string string }.

Record VTable := mkVTable {
  attrs : attributes;
  vtname : string;
  autoIncrement : option AutoIncrement;
  topology : Topology;
  shards : list VShard;
}.

Definition attrAllowFullScan : Z := 1.

Definition SetAutoIncrement (vt : VTable) (seq : option AutoIncrement) : VTable :=
  mkVTable (attrs vt) (vtname vt) seq (topology vt) (shards vt).

Definition SetAllowFullScan (vt : VTable) (allow : bool) : VTable :=
  mkVTable (setAttributeBool (attrs vt) attrAllowFullScan allow) (vtname vt) (autoIncrement vt)
    (topology vt) (shards vt).

Definition AllowFullScan (vt : VTable) : bool := default false (attributeBool (attrs vt) attrAllowFullScan).

Definition AddVShards (vt : VTable) (shard : VShard) : VTable :=
  mkVTable (attrs vt) (vtname vt) (autoIncrement vt) (topology vt) (shards vt ++ [shard]).

Definition VTable_SetTopology (vt : VTable) (to : Topology) : VTable :=
  mkVTable (attrs vt) (vtname vt) (autoIncrement vt) to (shards vt).

Definition SetName (vt : VTable) (name : string) : VTable :=
  mkVTable (attrs vt) name (autoIncrement vt) (topology vt) (shards vt).

Fixpoint searchKeys (keys : list string) (vShards : list VShard) : option VShard :=
  match vShards with
  | [] => None
  | vs :: rest =>
      if negb (length (VShard_Variables vs) =? length keys)%nat then searchKeys keys rest
      else if bool_decide (VShard_Variables vs = keys) then Some vs else searchKeys keys rest
  end.

Definition SearchVShard (vt : VTable) (keys : list string) : option VShard := searchKeys keys (shards vt).

Definition HasVShard (vt : VTable) (keys : list string) : bool :=
  match SearchVShard vt keys with Some _ => true | None => false end.

(** Every variable of the shard has an input. *)
Definition hasInputs {A} (inputs : gmap string A) (vs : VShard) : bool :=
  forallb (λ key, bool_decide (is_Some (inputs !! key))) (VShard_Variables vs).

(** The loop of [Shard]: the one shard whose variables are all given. *)
Fixpoint bingo (inputs : gmap string (option ProtoValue)) (found : option VShard) (vss : list VShard)
  : outcome (option VShard) :=
  match vss with
  | [] => Ok found
  | vs :: rest =>
      if negb (hasInputs inputs vs) then bingo inputs found rest
      else match found with
           | Some _ => Err (NewError "conflict vshards")
           | None => bingo inputs (Some vs) rest
           end
  end.

(** [errors.Wrap]. *)
Definition wrap {A} (m : outcome A) : outcome A :=
  match m with Err e => Err (WrapError e) | r => r end.

Definition shardCompute (inputs : gmap string (option ProtoValue)) (m : option ShardMetadata) : outcome Z :=
  match m with
  | None => Ok 0
  | Some m => wrap (ShardCompute (Computer m)
                      (map (λ x, default None (inputs !! x)) (Variables (Computer m))))
  end.

Definition VTable_Shard (vt : VTable) (inputs : gmap string (option ProtoValue)) : outcome (Z * Z) :=
  found ← bingo inputs None (shards vt);
  match found with
  | None => Err (NewError "no available vshards")
  | Some vs =>
      db ← shardCompute inputs (DB vs);
      table ← shardCompute inputs (Table vs);
      Ok (u32 db, u32 table)
  end.

(** ** Rules *)

(** A nil [*Rule] is accepted by [Has] only. *)
Definition Rule := gmap string VTable.

Definition Has (ru : option Rule) (table : string) : bool :=
  match ru with None => false | Some m => bool_decide (is_Some (m !! table)) end.

Definition RemoveVTable (ru : Rule) (table : string) : Rule * bool :=
  if bool_decide (is_Some (ru !! table)) then (delete table ru, true) else (ru, false).

Definition SetVTable (ru : Rule) (table : string) (vt : VTable) : Rule := <[table := vt]> ru.

Definition Rule_VTable (ru : Rule) (table : string) : option VTable := ru !! table.

Definition MustVTable (ru : Rule) (name : string) : outcome VTable :=
  match Rule_VTable ru name with Some vt => Ok vt | None => Panic end.

Definition Rule_Range {I : MapIter} {S} (ru : Rule) (f : S → string → VTable → S * bool) (s : S) : S :=
  (foldl (λ acc kv, if acc.2 : bool then f acc.1 kv.1 kv.2 else acc) (s, true) (iter_order ru)).1.

(** ** Theory *)

Lemma handle_spec acc vars :
  NoDup acc → NoDup (handle acc vars) ∧ (∃ new, handle acc vars = acc ++ new) ∧
  ∀ x, x ∈ handle acc vars ↔ x ∈ acc ∨ x ∈ vars.
Proof.
  unfold handle. revert acc. induction vars as [|y vars IH]; intros acc HN; simpl.
  - split; [done|]. split; [exists []; by rewrite app_nil_r|]. set_solver.
  - case_bool_decide as Hy.
    + destruct (IH acc HN) as (? & ? & Hx). split; [done|]. split; [done|].
      intros x. rewrite Hx. set_solver.
    + destruct (IH (acc ++ [y])) as (HN' & [new Hn] & Hx).
      { apply NoDup_app. split; [done|]. split; [set_solver|]. apply NoDup_singleton. }
      split; [done|]. split; [exists (y :: new); by rewrite Hn, <- app_assoc|].
      intros x. rewrite Hx. set_solver.
Qed.

Lemma VShard_Variables_elem vs x :
  x ∈ VShard_Variables vs ↔ x ∈ metadataVariables (DB vs) ∨ x ∈ metadataVariables (Table vs).
Proof.
  unfold VShard_Variables.
  destruct (handle_spec [] (metadataVariables (DB vs)) (NoDup_nil_2)) as (HN & _ & H1).
  destruct (handle_spec _ (metadataVariables (Table vs)) HN) as (_ & _ & H2).
  rewrite H2, H1. set_solver.
Qed.

Lemma hasInputs_spec {A} (inputs : gmap string A) vs :
  hasInputs inputs vs = true ↔ ∀ x, x ∈ VShard_Variables vs → is_Some (inputs !! x).
Proof.
  unfold hasInputs. rewrite forallb_forall. setoid_rewrite <- list_elem_of_In.
  by setoid_rewrite bool_decide_eq_true.
Qed.

Lemma bingo_spec inputs found vss :
  bingo inputs found vss =
    match found, filter (λ vs, hasInputs inputs vs = true) vss with
    | _, [] => Ok found
    | None, [vs] => Ok (Some vs)
    | _, _ => Err (NewError "conflict vshards")
    end.
Proof.
  revert found. induction vss as [|vs vss IH]; intros found; simpl; [by destruct found|].
  rewrite filter_cons. destruct (hasInputs inputs vs); simpl.
  - destruct found; [done|]. rewrite IH. by destruct (filter _ vss).
  - apply IH.
Qed.

(** [VTable.Shard] answers exactly when one virtual shard has all its
    variables among the inputs: with none it reports that no shard is
    available, with several a conflict, and with one the database and table
    its computers give, a missing computer counting as index 0, each cut to 32
    bits. *)
Theorem VTable_Shard_cases vt inputs :
  VTable_Shard vt inputs =
    match filter (λ vs, hasInputs inputs vs = true) (shards vt) with
    | [] => Err (NewError "no available vshards")
    | [vs] =>
        db ← shardCompute inputs (DB vs);
        table ← shardCompute inputs (Table vs);
        Ok (db mod 2 ^ 32, table mod 2 ^ 32)
    | _ => Err (NewError "conflict vshards")
    end.
Proof. unfold VTable_Shard. rewrite bingo_spec. by destruct (filter _ _) as [|? [|? ?]]. Qed.

(** The variables of a virtual shard are those of its two computers, each
    once, the database's first and in its order. *)
Theorem VShard_Variables_spec vs :
  NoDup (VShard_Variables vs) ∧
  (∀ x, x ∈ VShard_Variables vs ↔ x ∈ metadataVariables (DB vs) ∨ x ∈ metadataVariables (Table vs)) ∧
  (NoDup (metadataVariables (DB vs)) → ∃ new, VShard_Variables vs = metadataVariables (DB vs) ++ new).
Proof.
  unfold VShard_Variables.
  destruct (handle_spec [] (metadataVariables (DB vs)) (NoDup_nil_2)) as (HN & _ & _).
  destruct (handle_spec _ (metadataVariables (Table vs)) HN) as (HN' & [new Hnew] & _).
  split; [done|]. split; [apply VShard_Variables_elem|]. intros HD. exists new. rewrite Hnew. f_equal.
  clear -HD. unfold handle.
  enough (∀ acc, NoDup (acc ++ metadataVariables (DB vs)) →
    foldl (λ acc x, if bool_decide (x ∈ acc) then acc else acc ++ [x]) acc (metadataVariables (DB vs))
    = acc ++ metadataVariables (DB vs)) as H by (by apply (H [])).
  induction (metadataVariables (DB vs)) as [|y l IH]; intros acc HN; simpl; [by rewrite app_nil_r|].
  rewrite bool_decide_false.
  - rewrite IH; [by rewrite <- app_assoc|by apply NoDup_cons in HD as []|by rewrite <- app_assoc].
  - apply NoDup_app in HN as (_ & H & _). intros Hy. by apply (H y Hy); left.
Qed.

(** A stored attribute is read back: booleans and unsigned integers of both
    widths survive the byte encoding, and the other keys keep their value. *)
Theorem attributes_roundtrip a key v32 v64 b k :
  inU 32 v32 → inU 64 v64 → k ≠ key →
  attributeUint32 (setAttributeUint32 a key v32) key = Ok (Some v32) ∧
  attributeUint64 (setAttributeUint64 a key v64) key = Ok (Some v64) ∧
  attributeBool (setAttributeBool a key b) key = Some b ∧
  attribute (setAttributeUint32 a key v32) k = attribute a k ∧
  attribute (setAttributeUint64 a key v64) k = attribute a k ∧
  attribute (setAttributeBool a key b) k = attribute a k.
Proof.
  intros H32 H64 Hk.
  unfold attributeUint32, attributeUint64, attributeBool, attribute, setAttributeUint32,
    setAttributeUint64, setAttributeBool, setAttribute, inU in *. cbn [inner].
  rewrite !lookup_insert_eq, !lookup_insert_ne by done.
  rewrite !Uint_PutUint by lia. simpl. rewrite !Z.mod_small by lia. by destruct b.
Qed.

Lemma attributes_roundtrip_witness :
  attributeUint32 (setAttributeUint32 (mkAttributes ∅) 2 3735928559) 2 = Ok (Some 3735928559).
Proof.
  exact (proj1 (attributes_roundtrip (mkAttributes ∅) 2 3735928559 0 true 1
    ltac:(unfold inU; lia) ltac:(unfold inU; lia) ltac:(lia))).
Defined.
