(* ===== verification/Calc.v ===== *)
(** * From formulas to shards: [pkg/runtime/calc] and [pkg/util/misc]

    A formula over comparisons is folded into the set of physical shards that
    can hold a matching row: comparisons on the variables of one virtual shard
    become value ranges, the ranges become shard indexes, and the indexes that
    exist in the topology become shards.  A nil [*Calculus] or [*Shards] stands
    for "every shard". *)
From S2P Require Import Prelude BTree Logic GoStd Value Cmp Shards Range Topology Rule.

(** ** [util/misc] *)

(** The loop of [ReverseSlice] from the positions [i] and [j]. *)
Fixpoint reverse_loop {T} (fuel : nat) (i j : nat) (input : list T) : list T :=
  match fuel with
  | O => input
  | S fuel =>
      if (i <? j)%nat then
        match input !! i, input !! j with
        | Some x, Some y => reverse_loop fuel (S i) (j - 1) (<[j := x]> (<[i := y]> input))
        | _, _ => input
        end
      else input
  end.

Definition ReverseSlice {T} (input : list T) : list T :=
  if (length input <? 2)%nat then input
  else reverse_loop (length input) 0 (length input - 1) input.

Fixpoint cartesianProductHelper {T} (input : list (list T)) (res : list (list T)) (rec : list T) : list (list T) :=
  match input with
  | [] => res ++ [rec]
  | vs :: rest => foldl (λ res v, cartesianProductHelper rest res (rec ++ [v])) res vs
  end.

Definition CartesianProduct {T} (inputs : list (list T)) : list (list T) :=
  cartesianProductHelper inputs [] [].

(** ** Data *)

#[global] Instance Comparison_countable : Countable Comparison.
Proof.
  refine (inj_countable comparison_index
    (λ z, list_find (λ c, comparison_index c = z) [Czero; Ceq; Cne; Cgt; Cgte; Clt; Clte] ≫= λ p, Some p.2) _).
  by intros [].
Defined.

(** The comparisons on one column, by operator. *)
Abbreviation calculusMap := (gmap Comparison (list Comparative)).

Abbreviation groups := (gmap string (gmap Comparison (list Comparative))).

Section Calc.
Context {B : BTree} {TL : TimeLib} {SL : SliceLib}.

(** [rnd] gives the random draws of one walk over string values; [dbFirst]
    says which of two failing goroutines reports its error. *)
Context (rnd : ShardMetadata → Comparative → nat → Z) (dbFirst : bool).

Record Calculus := mkCalculus { calc_c : option Comparative; calc_s : option Shards }.

Definition ZeroCalculus : Calculus := mkCalculus None (Some NewShards).

(** ** Value ranges *)

(** [iter, _ := column.Stepper.Ascend(...)]: a missing column or a failed call
    leaves a nil to be dereferenced. *)
Definition columnIter (m : ShardMetadata) (x : Comparative) (reverse : bool) : outcome Range :=
  match GetShardColumn m (cmp_key x) with
  | None => Panic
  | Some column =>
      v ← MustValue x;
      match Stepper_computeRange (ColStepper column) v (Steps column) reverse with
      | Err _ => Panic
      | r => r
      end
  end.

(** Append the values, skipping the first one unless the bound is included. *)
Definition include_visit (st : bool * list iface) (next : iface) : outcome ((bool * list iface) * bool) :=
  let '(nextInclude, ret) := st in
  Ok ((true, if nextInclude then ret ++ [next] else ret), true).

Definition computeLRange (m : ShardMetadata) (begin : Comparative) : outcome (list iface) :=
  if decide (cmp_c begin = Ceq) then v ← MustValue begin; Ok [v]
  else
    iter ← columnIter m begin false;
    st ← walk (rnd m begin) include_visit iter (bool_decide (cmp_c begin = Cgte), []);
    Ok (st.2 : list iface).

Definition computeRRange (m : ShardMetadata) (end_ : Comparative) : outcome (list iface) :=
  if decide (cmp_c end_ = Ceq) then v ← MustValue end_; Ok [v]
  else
    iter ← columnIter m end_ true;
    st ← walk (rnd m end_) include_visit iter (bool_decide (cmp_c end_ = Clte), []);
    Ok (ReverseSlice (st.2 : list iface)).

(** One round of [computeRange]; its state is [beginInclude] and [ret]. *)
Definition range_visit (max : iface) (endInclude : bool) (st : bool * list iface) (next : iface)
  : outcome ((bool * list iface) * bool) :=
  let '(beginInclude, ret) := st in
  let keep :=
    if beginInclude then Ok ((beginInclude, ret ++ [next]), true)
    else Ok ((bool_decide (ret = []), ret), true) in
  let cmp := compareValue next max in
  if cmp =? -1 then keep
  else if cmp =? 0 then (if endInclude then keep else Ok (st, false))
  else if cmp =? 1 then Ok (st, false)
  else Ok (st, true).

Definition computeRange (m : ShardMetadata) (begin end_ : Comparative) : outcome (list iface) :=
  max ← match cmp_c end_ with Clte | Clt => MustValue end_ | _ => Ok Inil end;
  iter ← columnIter m begin false;
  st ← walk (rnd m begin) (range_visit max (bool_decide (cmp_c end_ = Clte))) iter
         (bool_decide (cmp_c begin = Cgte), []);
  Ok (st.2 : list iface).

(** ** The range of one column *)

(** The first value of an operator. *)
Definition firstOf (cm : calculusMap) (op : Comparison) : option Comparative := cm !! op ≫= head.

(** The comparisons that contradict [eq]. *)
Definition contradicts (cm : calculusMap) (eq : Comparative) : bool :=
  existsb (λ ne, compareComparativeValue ne eq =? 0) (default [] (cm !! Cne)) ||
  match firstOf cm Cgte with
  | Some gte => compareComparativeValue eq gte =? -1 | None => false end ||
  match firstOf cm Cgt with
  | Some gt => (compareComparativeValue eq gt =? 0) || (compareComparativeValue eq gt =? -1) | None => false end ||
  match firstOf cm Clte with
  | Some lte => compareComparativeValue eq lte =? 1 | None => false end ||
  match firstOf cm Clt with
  | Some lt => (compareComparativeValue eq lt =? 0) || (compareComparativeValue eq lt =? 1) | None => false end.

Definition getRange (cm : calculusMap) : option Comparative * option Comparative :=
  match firstOf cm Ceq with
  | Some eq => if contradicts cm eq then (None, None) else (Some eq, None)
  | None =>
      let begin :=
        match firstOf cm Cgte, firstOf cm Cgt with
        | Some gte, Some gt =>
            let r := compareComparativeValue gte gt in
            if (r =? 0) || (r =? -1) then Some gt else if r =? 1 then Some gte else None
        | Some gte, None => Some gte
        | None, gt => gt
        end in
      let end_ :=
        match firstOf cm Clte, firstOf cm Clt with
        | Some lte, Some lt =>
            let r := compareComparativeValue lte lt in
            if (r =? 0) || (r =? 1) then Some lt else if r =? -1 then Some lte else None
        | Some lte, None => Some lte
        | None, lt => lt
        end in
      (begin, end_)
  end.

(** ** The operator *)

(** The [add] closure of [AND]; a calculus without a comparison makes it
    dereference nil. *)
Definition addComparative (gs : groups) (x : Comparative) : groups :=
  match gs !! cmp_key x with
  | None => <[cmp_key x := {[cmp_c x := [x]]}]> gs
  | Some cm =>
      match cm !! cmp_c x with
      | None => <[cmp_key x := <[cmp_c x := [x]]> cm]> gs
      | Some old =>
          match cmp_c x with
          | Cne => <[cmp_key x := <[Cne := old ++ [x]]> cm]> gs
          | Clt | Clte => <[cmp_key x := <[cmp_c x := <[0%nat := x]> old]> cm]> gs
          | Ceq | Cgt | Cgte | Czero => gs
          end
      end
  end.

Definition addCalculus (gs : groups) (x : option Calculus) : outcome groups :=
  match x with
  | None => Ok gs
  | Some ca => match calc_c ca with None => Panic | Some x => Ok (addComparative gs x) end
  end.

Fixpoint addAll (gs : groups) (xs : list (option Calculus)) : outcome groups :=
  match xs with
  | [] => Ok gs
  | x :: xs => gs ← addCalculus gs x; addAll gs xs
  end.

(** [searchVShard]: the first virtual shard whose variables all have a group. *)
Definition searchVShard {A} (table : VTable) (gs : gmap string A) : option VShard :=
  snd <$> list_find (λ vs, hasInputs gs vs = true) (shards table).

Record valuePair := mkPair { vp_db : list iface; vp_tbl : list iface }.

(** A range on the metadata of one level, absent when the level has none. *)
Definition onLevel (m : option ShardMetadata) (f : ShardMetadata → outcome (list iface)) : outcome (list iface) :=
  match m with None => Ok [] | Some m => f m end.

(** What one variable contributes: its values, or the early return. *)
Definition variableValues (vs : VShard) (cm : calculusMap) : outcome (valuePair + option Calculus) :=
  let both f := db ← onLevel (DB vs) f; tbl ← onLevel (Table vs) f; Ok (inl (mkPair db tbl)) in
  match getRange cm with
  | (Some begin, Some end_) => both (λ m, computeRange m begin end_)
  | (Some begin, None) => both (λ m, computeLRange m begin)
  | (None, Some end_) => both (λ m, computeRRange m end_)
  | (None, None) =>
      if bool_decide (is_Some (cm !! Ceq)) then Ok (inr (Some ZeroCalculus)) else Ok (inr None)
  end.

Fixpoint collectValues (vs : VShard) (gs : groups) (names : list string) (values : gmap string valuePair)
  : outcome (gmap string valuePair + option Calculus) :=
  match names with
  | [] => Ok (inl values)
  | name :: rest =>
      r ← variableValues vs (default ∅ (gs !! name));
      match r with
      | inl vp => collectValues vs gs rest (<[name := vp]> values)
      | inr ret => Ok (inr ret)
      end
  end.

(** The [compute] closure: one index for every tuple of the product. *)
Definition computeIndexes (computer : ShardComputer) (vals : list (list iface)) : outcome (list Z) :=
  mapM (λ next, args ← mapM NewValue_basic next; ShardCompute computer args) (CartesianProduct vals).

Definition levelIndexes (m : option ShardMetadata) (values : gmap string valuePair)
    (level : valuePair → list iface) : outcome (list Z) :=
  match m with
  | None => Ok [0]
  | Some m =>
      computeIndexes (Computer m)
        (map (λ name, default [] (level <$> values !! name)) (Variables (Computer m)))
  end.

(** The two goroutines of the error group: a panic in either brings the
    process down, otherwise the first error is the answer. *)
Definition waitBoth {X Y} (x : outcome X) (y : outcome Y) : outcome (X * Y) :=
  match x, y with
  | Panic, _ | _, Panic => Panic
  | OutOfFuel, _ | _, OutOfFuel => OutOfFuel
  | Err e, Err e' => Err (if dbFirst then e else e')
  | Err e, _ | _, Err e => Err e
  | Ok x, Ok y => Ok (x, y)
  end.

Fixpoint addExisting (to : Topology) (cp : list (list Z)) (sd : Shards) : outcome Shards :=
  match cp with
  | [] => Ok sd
  | xy :: rest =>
      match xy with
      | x :: y :: _ =>
          sd ← (if Exists to x y then Add sd (u32 x) (u32 y) [] else Ok sd);
          addExisting to rest sd
      | _ => Panic
      end
  end.

Definition calculusOperator_AND (vt : VTable) (first : option Calculus) (others : list (option Calculus))
  : outcome (option Calculus) :=
  gs ← addAll ∅ (first :: others);
  match searchVShard vt gs with
  | None => Err ErrNoShardMatched
  | Some vs =>
      r ← collectValues vs gs (VShard_Variables vs) ∅;
      match r with
      | inr ret => Ok ret
      | inl values =>
          ix ← waitBoth (levelIndexes (DB vs) values vp_db) (levelIndexes (Table vs) values vp_tbl);
          sd ← addExisting (topology vt) (CartesianProduct [ix.1; ix.2]) NewShards;
          if Len sd <? 1 then Ok (Some ZeroCalculus) else Ok (Some (mkCalculus None (Some sd)))
      end
  end.

(** Both halves of [OR]: evaluate a comparison, then add the shards it gave. *)
Definition or_operand (vt : VTable) (x : Calculus) (sd : Shards) : outcome Shards :=
  x ← match calc_c x with
      | Some _ => calculusOperator_AND vt (Some x) []
      | None => Ok (Some x)
      end;
  match x with
  | None => Panic
  | Some x => match calc_s x with Some s => Each union_visit (Some s) sd | None => Ok sd end
  end.

Fixpoint or_operands (vt : VTable) (xs : list (option Calculus)) (sd : Shards) : outcome (option Shards) :=
  match xs with
  | [] => Ok (Some sd)
  | None :: _ => Ok None
  | Some x :: xs => sd ← or_operand vt x sd; or_operands vt xs sd
  end.

Definition calculusOperator_OR (vt : VTable) (first : option Calculus) (others : list (option Calculus))
  : outcome (option Calculus) :=
  r ← or_operands vt (first :: others) NewShards;
  Ok (option_map (λ sd, mkCalculus None (Some sd)) (r : option Shards)).

Definition negate (cm : Comparison) : outcome Comparison :=
  match cm with
  | Ceq => Ok Cne | Cne => Ok Ceq | Cgt => Ok Clte | Cgte => Ok Clt | Clt => Ok Cgte | Clte => Ok Cgt
  | Czero => Panic
  end.

Definition calculusOperator_NOT (input : option Calculus) : outcome (option Calculus) :=
  match input with
  | None => Panic
  | Some ca =>
      match calc_c ca with
      | None => Panic
      | Some x => n ← negate (cmp_c x); Ok (Some (mkCalculus (Some (SetComparison x n)) None))
      end
  end.

Definition calculusOperator (vt : VTable) : Operator (option Calculus) := {|
  op_AND := calculusOperator_AND vt;
  op_OR := calculusOperator_OR vt;
  op_NOT := calculusOperator_NOT;
|}.

(** ** Evaluation *)

(** Formulas are built from [calc.Wrap] only: an item is a calculus that holds
    a comparison, and its [Compare] is [compareComparative].  So a formula is a
    [Logic Comparative], and evaluation starts from the wrapped items. *)
Definition calc_Wrap (x : Comparative) : option Calculus := Some (mkCalculus (Some x) None).

Fixpoint wrapItems (l : Logic Comparative) : Logic (option Calculus) :=
  match l with
  | nilLogic => nilLogic
  | atomLogic x => atomLogic (calc_Wrap x)
  | notLogic x => notLogic (calc_Wrap x)
  | intersectionLogic ls => intersectionLogic (map wrapItems ls)
  | unionLogic ls => unionLogic (map wrapItems ls)
  end.

Definition innerEval (vtab : VTable) (l : Logic Comparative) : outcome (option Shards) :=
  r ← Eval (calculusOperator vtab) (wrapItems l);
  match r with
  | None => Ok None
  | Some ca =>
      match calc_s ca with
      | Some s => Ok (Some s)
      | None =>
          r ← calculusOperator_AND vtab (Some ca) [];
          Ok (match r with None => None | Some ca => calc_s ca end)
      end
  end.

Definition calc_Eval (vtab : VTable) (l : Logic Comparative) : outcome (option Shards) :=
  match innerEval vtab l with
  | Err err =>
      if errors_Is err ErrEmptyIntersection then Ok (Some NewShards)
      else if errors_Is err ErrEmptyUnion then Ok None
      else Err err
  | r => r
  end.
End Calc.
