(* ===== verification/CalcTheory.v ===== *)
(** * What the shard calculation guarantees

    A row is located by the shard computers; the theorems of this file show
    that the shards a formula evaluates to contain the location of every row
    that satisfies it, under stated conditions on the computers, and that the
    conditions cannot be dropped. *)
From S2P Require Import Prelude BTree Logic LogicTheory GoStd Value Cmp Shards Range Topology Rule Calc.

(** ** [util/misc] *)

(** The product in lexicographic order. *)
Fixpoint product {T} (inputs : list (list T)) : list (list T) :=
  match inputs with
  | [] => [[]]
  | vs :: rest => flat_map (λ v, map (cons v) (product rest)) vs
  end.

Lemma cartesianProductHelper_product {T} (input : list (list T)) res rec :
  cartesianProductHelper input res rec = res ++ map (app rec) (product input).
Proof.
  revert res rec. induction input as [|vs rest IH]; intros res rec; simpl; [by rewrite app_nil_r|].
  revert res. induction vs as [|v vs IHvs]; intros res; simpl; [by rewrite app_nil_r|].
  rewrite IHvs, IH, map_app, map_map, <- app_assoc. do 2 f_equal.
  apply map_ext. intros l. by rewrite <- app_assoc.
Qed.

Lemma CartesianProduct_product {T} (inputs : list (list T)) : CartesianProduct inputs = product inputs.
Proof. unfold CartesianProduct. by rewrite cartesianProductHelper_product, map_id. Qed.

Lemma product_elem {T} (inputs : list (list T)) x : x ∈ product inputs ↔ Forall2 (∈) x inputs.
Proof.
  revert x. induction inputs as [|vs rest IH]; intros x; simpl.
  - rewrite list_elem_of_singleton. split; [by intros ->|by intros ->%Forall2_nil_inv_r].
  - rewrite list_elem_of_In, in_flat_map. setoid_rewrite <- list_elem_of_In.
    setoid_rewrite list_elem_of_fmap. setoid_rewrite IH. split.
    + intros (v & Hv & y & -> & Hy). by constructor.
    + intros (v & y & Hv & Hy & ->)%Forall2_cons_inv_r. eauto.
Qed.

(** What the swapping loop has done after [i] rounds. *)
Lemma reverse_loop_lookup {T} fuel i j (l : list T) x :
  (i + j + 1 = length l)%nat → (j - i < fuel)%nat ∨ (j < i)%nat →
  reverse_loop fuel i j l !! x =
    if decide (i ≤ x ≤ j)%nat then l !! (i + j - x)%nat else l !! x.
Proof.
  revert i j l. induction fuel as [|fuel IH]; intros i j l Hl Hf; simpl.
  { case_decide; [|done]. lia. }
  destruct (Nat.ltb_spec i j) as [Hij|Hij].
  - destruct (lookup_lt_is_Some_2 l i) as [a Ha]; [lia|]. destruct (lookup_lt_is_Some_2 l j) as [b Hb]; [lia|].
    rewrite Ha, Hb, IH; [|rewrite !length_insert; lia|lia].
    repeat case_decide; try lia.
    + rewrite !list_lookup_insert_ne by lia. f_equal. lia.
    + assert (x = i ∨ x = j) as [-> | ->] by lia.
      * rewrite list_lookup_insert_ne, list_lookup_insert_eq by lia. rewrite <- Hb. f_equal. lia.
      * rewrite list_lookup_insert_eq by (rewrite length_insert; lia). rewrite <- Ha. f_equal. lia.
    + rewrite !list_lookup_insert_ne by lia. done.
  - case_decide; [|done]. f_equal. lia.
Qed.

Lemma ReverseSlice_reverse {T} (l : list T) : ReverseSlice l = reverse l.
Proof.
  unfold ReverseSlice. destruct (Nat.ltb_spec (length l) 2) as [Hlt|Hge].
  { destruct l as [|a [|b l]]; simpl in *; [done|done|lia]. }
  apply list_eq. intros x. rewrite reverse_loop_lookup by lia.
  destruct (decide (x < length l)%nat).
  - rewrite decide_True, reverse_lookup by lia. f_equal. lia.
  - rewrite decide_False, !lookup_ge_None_2 by (rewrite ?length_reverse; lia). done.
Qed.

(** The recursive [CartesianProduct] lists every choice of one element per
    input, and only those, in lexicographic order, and [ReverseSlice]'s
    swapping loop reverses its slice. *)
Theorem misc_slices {T} (inputs : list (list T)) (l : list T) :
  CartesianProduct inputs = product inputs ∧
  (∀ x, x ∈ CartesianProduct inputs ↔ Forall2 (∈) x inputs) ∧
  ReverseSlice l = reverse l.
Proof.
  rewrite CartesianProduct_product. split; [done|]. split; [apply product_elem|apply ReverseSlice_reverse].
Qed.

(** ** Rows and comparisons *)

Section Routing.
Context {TL : TimeLib}.

(** The truth of a comparison operator on a three-way answer. *)
Definition answers (op : Comparison) (r : Z) : bool :=
  match op with
  | Ceq => r =? 0 | Cne => negb (r =? 0)
  | Cgt => r =? 1 | Cgte => negb (r =? -1)
  | Clt => r =? -1 | Clte => negb (r =? 1)
  | Czero => false
  end.

(** A row gives every column a value. *)
Definition holds (row : string → iface) (x : Comparative) : bool :=
  match Value x with
  | Ok v => answers (cmp_c x) (compareValue (row (cmp_key x)) v)
  | _ => false
  end.

(** The comparison's value has the type of the row's column. *)
Definition typed (row : string → iface) (x : Comparative) : Prop :=
  match Value x, row (cmp_key x) with
  | Ok (Iint64 _), Iint64 n => inS 64 n
  | Ok (Istring _), Istring _ => True
  | Ok (Itime _), Itime _ => True
  | _, _ => False
  end.

Definition bound (op : Comparison) : bool :=
  match op with Cgt | Cgte | Clt | Clte => true | _ => false end.

Lemma compareZ_range x y : compareZ x y = -1 ∨ compareZ x y = 0 ∨ compareZ x y = 1.
Proof using. unfold compareZ. repeat case_match; auto. Qed.

Lemma compareValue_range v w : compareValue v w = -1 ∨ compareValue v w = 0 ∨ compareValue v w = 1.
Proof using.
  unfold compareValue. destruct v, w; auto using compareZ_range; apply comparison_Z_range.
Qed.

Lemma typed_eq row x v : typed row x → Value x = Ok v → compareValue (row (cmp_key x)) v = 0 → row (cmp_key x) = v.
Proof using.
  unfold typed. intros Ht Ev. rewrite Ev in Ht. destruct v, (row (cmp_key x)); try done; simpl; intros H.
  - by rewrite compareZ_eq in H; subst.
  - by rewrite strings_Compare_eq in H; subst.
  - by rewrite compareZ_eq in H; subst.
Qed.

Lemma typed_value row x : typed row x → ∃ v, Value x = Ok v ∧ MustValue x = Ok v ∧ ValueOrNil x = v ∧ v ≠ Inil.
Proof using.
  unfold typed, MustValue, ValueOrNil. destruct (Value x) as [v| | |]; try done.
  intros H. exists v. by destruct v.
Qed.

(** On one column, comparing the texts of two well-typed comparisons is
    comparing their values. *)
Lemma compareComparativeValue_value row x y v w :
  typed row x → typed row y → cmp_key x = cmp_key y → Value x = Ok v → Value y = Ok w →
  compareComparativeValue x y = compareValue v w.
Proof using.
  unfold typed. intros Hx Hy Hk Ex Ey. rewrite Ex in Hx. rewrite Ey, <- Hk in Hy.
  assert (cmp_k x = cmp_k y) as Ekind.
  { unfold Value in Ex, Ey. destruct (cmp_k x), (cmp_k y); inv_ok; subst; try done;
      by destruct (row (cmp_key x)). }
  unfold compareComparativeValue, innerCompareComparative, ValueOrNil. rewrite Ex, Ey.
  destruct (String.eqb_spec (cmp_v x) (cmp_v y)) as [E|E].
  - assert (v = w) as <- by (unfold Value in Ex, Ey; rewrite Ekind, E in Ex; congruence).
    symmetry. destruct v; simpl; try (by apply compareZ_eq) || (by apply strings_Compare_eq).
  - destruct v, w; try done; destruct (row (cmp_key x)); try done.
    unfold Value in Ex, Ey. destruct (cmp_k x), (cmp_k y); inv_ok; by simplify_eq.
Qed.

Lemma Value_int_range x n : Value x = Ok (Iint64 n) → inS 64 n.
Proof using.
  unfold Value. destruct (cmp_k x); intros H; inv_ok; subst; try done.
  unfold ParseInt in *. destruct (parse_int (cmp_v x)) as [z|]; [|done].
  destruct (Z.leb_spec (- 2 ^ 63) z), (Z.ltb_spec z (2 ^ 63)); simpl in *; try done.
  inv_ok. unfold inS. simplify_eq. lia.
Qed.

(** ** Value ranges *)

Context (rnd : ShardMetadata → Comparative → nat → Z).

(** Values a computer of period [p] does not tell apart. *)
Definition congruent (p : Z) (v w : iface) : Prop :=
  v = w ∨ ∃ a b, v = Iint64 a ∧ w = Iint64 b ∧ a mod p = b mod p.

(** An excluded bound costs one of the column's steps. *)
Definition slack (op : Comparison) : Z := match op with Cgt | Clt => 1 | _ => 0 end.

(** The metadata can enumerate one period of the comparison's column. *)
Definition columnReady (p : string → Z) (m : ShardMetadata) (x : Comparative) : Prop :=
  (∃ b, Value x = Ok (Iint64 b)) ∧
  ∃ col, GetShardColumn m (cmp_key x) = Some col ∧ ColStepper col = DefaultNumberStepper ∧
    inS 64 (Steps col) ∧ 1 ≤ p (cmp_key x) ∧ p (cmp_key x) + slack (cmp_c x) ≤ Steps col.

Lemma columnIter_int m x col b reverse :
  GetShardColumn m (cmp_key x) = Some col → ColStepper col = DefaultNumberStepper →
  MustValue x = Ok (Iint64 b) →
  columnIter m x reverse = Ok (iterInt64 b (if reverse then -1 else 1) (Steps col)).
Proof using. intros H1 H2 H3. unfold columnIter. rewrite H1, H3. simpl. rewrite H2. by destruct reverse. Qed.

Lemma elements_int64 f b step n k :
  (k < Z.to_nat n)%nat → inS 64 (b + Z.of_nat k * step) →
  elements f (iterInt64 b step n) !! k = Some (Iint64 (b + Z.of_nat k * step)).
Proof using.
  intros Hk Hr. unfold elements. simpl. rewrite list_lookup_fmap, lookup_seq_lt by lia. simpl.
  by rewrite wrapS_id by (done || lia).
Qed.

(** The residue of [x] next to a bound it lies beyond. *)
Lemma near_residue b x p lo : 0 ≤ lo → 1 ≤ p → b + lo ≤ x →
  ∃ k, lo ≤ k < lo + p ∧ b + k ≤ x ∧ (b + k) mod p = x mod p.
Proof using.
  intros Hlo Hp Hx. exists (lo + (x - b - lo) mod p).
  pose proof (Z.mod_pos_bound (x - b - lo) p). pose proof (Z.mod_le (x - b - lo) p).
  split; [lia|]. split; [lia|]. replace (b + (lo + (x - b - lo) mod p)) with ((x - b - lo) mod p + (b + lo)) by lia.
  rewrite Z.add_mod_idemp_l by lia. f_equal. lia.
Qed.

Lemma mod_opp a b p : p ≠ 0 → a mod p = b mod p → (- a) mod p = (- b) mod p.
Proof using.
  intros Hp H. replace (- a) with (a * -1) by lia. replace (- b) with (b * -1) by lia.
  rewrite <- (Z.mul_mod_idemp_l a), <- (Z.mul_mod_idemp_l b), H by done. done.
Qed.

Lemma walkList_include l acc : walkList include_visit l (true, acc) = Ok (true, acc ++ l).
Proof using.
  revert acc. induction l as [|x l IH]; intros acc; simpl; [by rewrite app_nil_r|].
  by rewrite IH, <- app_assoc.
Qed.

Lemma walkList_include_from l incl :
  ∃ b, walkList include_visit l (incl, []) = Ok (b, if incl then l else tail l).
Proof using.
  destruct incl; [rewrite walkList_include; eauto|]. destruct l as [|x l]; simpl; [eauto|].
  rewrite walkList_include. eauto.
Qed.

Lemma lookup_from {A} (l : list A) (incl : bool) k y :
  l !! k = Some y → (incl = true ∨ 1 ≤ k)%nat → y ∈ (if incl then l else tail l).
Proof using.
  intros Hk Hi. destruct incl; [by eapply list_elem_of_lookup_2|].
  destruct l as [|x l]; [done|]. destruct k as [|k]; simpl in Hk.
  - destruct Hi; [done|lia].
  - simpl. by eapply list_elem_of_lookup_2.
Qed.

Lemma range_wf_int64 b step n : inS 64 b → inS 64 n → range_wf (iterInt64 b step n).
Proof using. by split. Qed.

(** The row's value of a bound, and its distance to the bound. *)
Lemma bound_value row x : typed row x → holds row x = true → bound (cmp_c x) = true →
  ∀ b, Value x = Ok (Iint64 b) → ∃ n, row (cmp_key x) = Iint64 n ∧ inS 64 n ∧ inS 64 b ∧
    match cmp_c x with
    | Cgt => b + 1 ≤ n | Cgte => b ≤ n | Clt => n + 1 ≤ b | Clte => n ≤ b | _ => False
    end.
Proof using.
  intros Ht Hh Hb b Eb. pose proof (Value_int_range _ _ Eb). unfold typed in Ht. unfold holds in Hh.
  rewrite Eb in *. destruct (row (cmp_key x)) as [| | |n| |]; try done. exists n.
  split; [done|]. split; [done|]. split; [done|]. simpl in Hh. unfold compareZ in Hh.
  destruct (cmp_c x); try done; simpl in Hh;
    destruct (Z.ltb_spec n b); simpl in Hh; try done; try lia;
    destruct (Z.gtb_spec n b); simpl in Hh; try done; lia.
Qed.

Lemma MustValue_Ok x v : Value x = Ok v → MustValue x = Ok v.
Proof using. unfold MustValue. by intros ->. Qed.

Lemma equal_covers p row x f : typed row x → holds row x = true → cmp_c x = Ceq →
  ∃ l, (if decide (cmp_c x = Ceq) then v ← MustValue x; Ok [v] else f) = Ok l ∧
    ∃ y, y ∈ l ∧ congruent p (row (cmp_key x)) y.
Proof using.
  intros Ht Hh Hc. destruct (typed_value row x Ht) as (v & Ev & Em & _).
  rewrite decide_True, Em by done. eexists. split; [done|]. exists v. split; [by left|]. left.
  unfold holds in Hh. rewrite Ev, Hc in Hh. simpl in Hh. apply (typed_eq row x v); [done|done|lia].
Qed.

Lemma computeLRange_covers p m row x :
  typed row x → holds row x = true →
  cmp_c x = Ceq ∨ (cmp_c x = Cgt ∨ cmp_c x = Cgte) ∧ columnReady p m x →
  ∃ l, computeLRange rnd m x = Ok l ∧ ∃ y, y ∈ l ∧ congruent (p (cmp_key x)) (row (cmp_key x)) y.
Proof using.
  intros Ht Hh [Hc|[Hc ([b Eb] & col & Hcol & Hst & Hn & Hp & Hs)]]; unfold computeLRange.
  { by apply equal_covers. }
  destruct (bound_value row x Ht Hh ltac:(by destruct Hc as [-> | ->]) b Eb) as (n & Er & Hrn & Hrb & Hle).
  rewrite decide_False by (destruct Hc; congruence).
  rewrite (columnIter_int m x col b false) by (try done; by apply MustValue_Ok). cbn [mbind outcome_bind].
  rewrite walk_list by (by apply range_wf_int64).
  destruct (walkList_include_from (elements (rnd m x) (iterInt64 b 1 (Steps col))) (bool_decide (cmp_c x = Cgte))) as [? ->].
  eexists. split; [done|]. simpl.
  destruct (near_residue b n (p (cmp_key x)) (slack (cmp_c x))) as (k & Hk & Hkn & Hmod);
    [destruct Hc as [-> | ->]; simpl; lia|done|destruct Hc as [E|E]; rewrite E in *; simpl; lia|].
  assert (0 ≤ k) by (destruct Hc as [E|E]; rewrite E in Hk; simpl in Hk; lia).
  exists (Iint64 (b + k)). split.
  - apply lookup_from with (Z.to_nat k).
    + rewrite elements_int64; [do 2 f_equal; lia|lia|]. unfold inS in *. lia.
    + destruct Hc as [E|E]; rewrite E in *; [right; simpl in Hk; lia|by left].
  - right. exists n, (b + k). auto.
Qed.

Lemma computeRRange_covers p m row x :
  typed row x → holds row x = true →
  (cmp_c x = Clt ∨ cmp_c x = Clte) → columnReady p m x →
  ∃ l, computeRRange rnd m x = Ok l ∧ ∃ y, y ∈ l ∧ congruent (p (cmp_key x)) (row (cmp_key x)) y.
Proof using.
  intros Ht Hh Hc ([b Eb] & col & Hcol & Hst & Hn & Hp & Hs). unfold computeRRange.
  destruct (bound_value row x Ht Hh ltac:(by destruct Hc as [-> | ->]) b Eb) as (n & Er & Hrn & Hrb & Hle).
  rewrite decide_False by (destruct Hc; congruence).
  rewrite (columnIter_int m x col b true) by (try done; by apply MustValue_Ok). cbn [mbind outcome_bind].
  rewrite walk_list by (by apply range_wf_int64).
  destruct (walkList_include_from (elements (rnd m x) (iterInt64 b (-1) (Steps col))) (bool_decide (cmp_c x = Clte))) as [? ->].
  eexists. split; [done|]. simpl. rewrite ReverseSlice_reverse. setoid_rewrite elem_of_reverse.
  destruct (near_residue (- b) (- n) (p (cmp_key x)) (slack (cmp_c x))) as (k & Hk & Hkn & Hmod);
    [destruct Hc as [-> | ->]; simpl; lia|done|destruct Hc as [E|E]; rewrite E in *; simpl; lia|].
  assert (0 ≤ k) by (destruct Hc as [E|E]; rewrite E in Hk; simpl in Hk; lia).
  exists (Iint64 (b - k)). split.
  - apply lookup_from with (Z.to_nat k).
    + rewrite elements_int64; [do 2 f_equal; lia|lia|]. unfold inS in *. lia.
    + destruct Hc as [E|E]; rewrite E in *; [right; simpl in Hk; lia|by left].
  - right. exists n, (b - k). split; [done|]. split; [done|].
    apply mod_opp in Hmod; [|lia]. replace (b - k) with (- (- b + k)) by lia.
    rewrite Hmod. f_equal. lia.
Qed.

(** [computeRange] keeps what it has and takes every value up to the end. *)
Lemma range_visit_total max e st next : ∃ r, range_visit max e st next = Ok r ∧ st.2 ⊆ r.1.2.
Proof using.
  destruct st as [i acc]. unfold range_visit. repeat case_match; eexists; (split; [done|]); simpl; set_solver.
Qed.

Lemma walkList_range_mono max e l st : ∃ st', walkList (range_visit max e) l st = Ok st' ∧ st.2 ⊆ st'.2.
Proof using.
  revert st. induction l as [|x l IH]; intros st; simpl; [eauto|].
  destruct (range_visit_total max e st x) as ([st1 go] & -> & H1). simpl. destruct go; [|eauto].
  destruct (IH st1) as (st' & -> & H2). exists st'. split; [done|]. simpl in *. set_solver.
Qed.

(** Values not beyond the end. *)
Definition before (max : iface) (endInclude : bool) (next : iface) : bool :=
  (compareValue next max =? -1) || endInclude && (compareValue next max =? 0).

Lemma walkList_range_covers max e l k y incl acc :
  l !! k = Some y → (∀ j x, (j ≤ k)%nat → l !! j = Some x → before max e x = true) →
  incl = true ∨ acc = [] ∧ (1 ≤ k)%nat →
  ∃ st, walkList (range_visit max e) l (incl, acc) = Ok st ∧ y ∈ st.2.
Proof using.
  revert k incl acc. induction l as [|x l IH]; intros k incl acc Hk Hb Hi; [done|]. cbn [walkList].
  assert (range_visit max e (incl, acc) x =
    Ok (if incl then (true, acc ++ [x]) else (bool_decide (acc = []), acc), true)) as E.
  { specialize (Hb 0%nat x ltac:(lia) eq_refl). unfold before in Hb. unfold range_visit.
    destruct (Z.eqb_spec (compareValue x max) (-1)), (Z.eqb_spec (compareValue x max) 0);
      destruct e, incl; simpl in *; try done; lia. }
  rewrite E. cbn [mbind outcome_bind fst snd]. clear E. destruct k as [|k]; simpl in Hk.
  - injection Hk as ->. destruct Hi as [->|[_ ?]]; [|lia].
    destruct (walkList_range_mono max e l (true, acc ++ [y])) as (st & -> & Hst).
    exists st. split; [done|]. simpl in Hst. set_solver.
  - assert (∀ j z, (j ≤ k)%nat → l !! j = Some z → before max e z = true) as Hb'.
    { intros j z Hj Hz. apply (Hb (S j)); [lia|done]. }
    destruct incl; [apply (IH k); auto|]. destruct Hi as [?|[-> _]]; [done|].
    rewrite bool_decide_true by done. apply (IH k); auto.
Qed.

Lemma computeRange_covers p m row x y :
  typed row x → holds row x = true → (cmp_c x = Cgt ∨ cmp_c x = Cgte) → columnReady p m x →
  typed row y → holds row y = true → (cmp_c y = Clt ∨ cmp_c y = Clte) → cmp_key y = cmp_key x →
  (∃ e, Value y = Ok (Iint64 e)) →
  ∃ l, computeRange rnd m x y = Ok l ∧ ∃ z, z ∈ l ∧ congruent (p (cmp_key x)) (row (cmp_key x)) z.
Proof using.
  intros Ht Hh Hc ([b Eb] & col & Hcol & Hst & Hn & Hp & Hs) Ht' Hh' Hc' Hkey [e Ee].
  destruct (bound_value row x Ht Hh ltac:(by destruct Hc as [-> | ->]) b Eb) as (n & Er & Hrn & Hrb & Hle).
  destruct (bound_value row y Ht' Hh' ltac:(by destruct Hc' as [-> | ->]) e Ee) as (n' & Er' & _ & _ & Hle').
  rewrite Hkey, Er in Er'. injection Er' as <-.
  unfold computeRange.
  assert (match cmp_c y with Clte | Clt => MustValue y | _ => Ok Inil end = Ok (Iint64 e)) as ->
    by (rewrite (MustValue_Ok _ _ Ee); by destruct Hc' as [-> | ->]).
  rewrite (columnIter_int m x col b false) by (try done; by apply MustValue_Ok). cbn [mbind outcome_bind].
  rewrite walk_list by (by apply range_wf_int64).
  destruct (near_residue b n (p (cmp_key x)) (slack (cmp_c x))) as (k & Hk & Hkn & Hmod);
    [destruct Hc as [-> | ->]; simpl; lia|done|destruct Hc as [E|E]; rewrite E in *; simpl; lia|].
  assert (0 ≤ k) by (destruct Hc as [E|E]; rewrite E in Hk; simpl in Hk; lia).
  assert (∀ j, (j ≤ Z.to_nat k)%nat → elements (rnd m x) (iterInt64 b 1 (Steps col)) !! j =
    Some (Iint64 (b + Z.of_nat j))) as Hel.
  { intros j Hj. rewrite elements_int64; [do 2 f_equal; lia|lia|]. unfold inS in *. lia. }
  destruct (walkList_range_covers (Iint64 e) (bool_decide (cmp_c y = Clte))
    (elements (rnd m x) (iterInt64 b 1 (Steps col))) (Z.to_nat k) (Iint64 (b + k))
    (bool_decide (cmp_c x = Cgte)) []) as (st & -> & Hin).
  - rewrite Hel by done. do 2 f_equal. lia.
  - intros j v Hj Hv. rewrite Hel in Hv by done. injection Hv as <-. unfold before. simpl.
    unfold compareZ. destruct Hc' as [E|E]; rewrite E in *; simpl;
      destruct (Z.ltb_spec (b + Z.of_nat j) e); try done; try lia;
      destruct (Z.gtb_spec (b + Z.of_nat j) e); try done; lia.
  - destruct Hc as [E|E]; rewrite E in *; [right; simpl in Hk; split; [done|lia]|by left].
  - eexists. split; [done|]. exists (Iint64 (b + k)). split; [done|]. right. eauto.
Qed.
End Routing.
