(* ===== verification/Routing.v ===== *)
(** * Routing soundness

    The evaluation of a formula never loses a row: whenever a row satisfies
    the formula, the shard that holds the row is among the shards
    [calc.Eval] answers. *)
From S2P Require Import Prelude BTree Logic LogicTheory GoStd Value Cmp Shards Range Topology Rule Calc CalcTheory.

Section Routing.
Context {B : BTree} {BL : BTreeLaws B} {TL : TimeLib} {SL : SliceLib}.
Context (rnd : ShardMetadata → Comparative → nat → Z) (dbFirst : bool).

(** The virtual table, a period for each of its columns, and one row. *)
Context (vt : VTable) (p : string → Z) (row : string → iface).

(** A level of a virtual shard of the table. *)
Definition level (vs : VShard) (m : ShardMetadata) : Prop :=
  vs ∈ shards vt ∧ (DB vs = Some m ∨ Table vs = Some m).

(** The calculation can handle the comparison: its value has the type of the
    column, and a bound is on a column that every level can enumerate. *)
Definition supported (x : Comparative) : Prop :=
  typed row x ∧
  (bound (cmp_c x) = true → ∀ vs m, level vs m → cmp_key x ∈ VShard_Variables vs → columnReady p m x).

Definition good (x : Comparative) : Prop := supported x ∧ holds row x = true.

(** ** Grouping *)

(** Every stored comparison is under its own column and operator. *)
Definition columnOk (P : Comparative → Prop) (key : string) (cm : calculusMap) : Prop :=
  ∀ op l, cm !! op = Some l → l ≠ [] ∧ ∀ x, x ∈ l → cmp_key x = key ∧ cmp_c x = op ∧ P x.

Definition groupsOk (P : Comparative → Prop) (gs : groups) : Prop :=
  ∀ key cm, gs !! key = Some cm → columnOk P key cm.

Lemma groupsOk_insert P gs x l cm :
  groupsOk P gs → (∀ op l, cm !! op = Some l → l ≠ [] ∧ ∀ y, y ∈ l → cmp_key y = cmp_key x ∧ cmp_c y = op ∧ P y) →
  l ≠ [] → (∀ y, y ∈ l → cmp_key y = cmp_key x ∧ cmp_c y = cmp_c x ∧ P y) →
  groupsOk P (<[cmp_key x := <[cmp_c x := l]> cm]> gs).
Proof using.
  intros Hgs Hcm Hl Hx key cm'. rewrite lookup_insert. case_decide as E; [|apply Hgs].
  intros [= <-]. subst key. intros op l'. rewrite lookup_insert. case_decide as E'; [|apply Hcm].
  intros [= <-]. subst op. auto.
Qed.

Lemma addComparative_ok P gs x : P x → groupsOk P gs → groupsOk P (addComparative gs x).
Proof using.
  intros Px Hgs. unfold addComparative.
  assert (∀ y, y ∈ [x] → cmp_key y = cmp_key x ∧ cmp_c y = cmp_c x ∧ P y) as H1.
  { intros y ->%list_elem_of_singleton. auto. }
  destruct (gs !! cmp_key x) as [cm|] eqn:Ecm.
  - pose proof (Hgs _ _ Ecm) as Hcm. destruct (cm !! cmp_c x) as [old|] eqn:Eold.
    + destruct (Hcm _ _ Eold) as [Hne Hold].
      destruct (cmp_c x) eqn:Ec; try done; rewrite <- Ec; apply groupsOk_insert; try done.
      * by destruct old.
      * rewrite Ec. intros y [Hy|Hy]%elem_of_app; [by apply Hold|by apply H1].
      * by destruct old.
      * rewrite Ec. intros y Hy. destruct old as [|o old]; [done|]. simpl in Hy.
        apply elem_of_cons in Hy as [->|Hy]; [auto|]. apply Hold. by right.
      * by destruct old.
      * rewrite Ec. intros y Hy. destruct old as [|o old]; [done|]. simpl in Hy.
        apply elem_of_cons in Hy as [->|Hy]; [auto|]. apply Hold. by right.
    + by apply groupsOk_insert.
  - change {[cmp_c x := [x]]} with (<[cmp_c x := [x]]> (∅ : calculusMap)).
    by apply groupsOk_insert.
Qed.

(** Operands of [AND] that hold a comparison satisfying [P]; the others make it
    panic, nil apart. *)
Lemma addAll_ok P gs xs gs' :
  (∀ x, Some x ∈ xs → ∀ y, calc_c x = Some y → P y) → groupsOk P gs → addAll gs xs = Ok gs' → groupsOk P gs'.
Proof using.
  revert gs. induction xs as [|x xs IH]; intros gs HP Hgs H; simpl in H; [by inv_ok; subst|].
  apply bind_Ok_inv in H as (gs1 & E1 & H). eapply IH; [|clear H|exact H].
  - intros y Hy. apply HP. by right.
  - destruct x as [x|]; simpl in E1; [|by inv_ok; subst].
    destruct (calc_c x) as [y|] eqn:Ey; [|done]. inv_ok. subst gs1.
    apply addComparative_ok; [|done]. apply (HP x); [by left|done].
Qed.

Lemma firstOf_ok P key cm op x :
  columnOk P key cm → firstOf cm op = Some x → cmp_key x = key ∧ cmp_c x = op ∧ P x.
Proof using.
  unfold firstOf. intros Hcm. destruct (cm !! op) as [l|] eqn:E; [|done]. simpl. intros Hx.
  apply (Hcm _ _ E). by apply head_Some_elem_of.
Qed.

(** A stored bound that holds for the row does not exclude the row's value. *)
Local Ltac refute_bound op :=
  destruct (firstOf _ op) as [y|] eqn:E; [|done];
  match goal with
  | Hcm : columnOk _ _ _, Hy : ∀ y, cmp_key y = _ ∧ good y → _ |- _ =>
      destruct (firstOf_ok _ _ _ _ _ Hcm E) as (Hky & Hcy & Hgy);
      destruct (Hy y (conj Hky Hgy)) as (w & _ & Ha & E' & _); rewrite Hcy in Ha; simpl in Ha; lia
  end.

(** A row that satisfies every comparison leaves no contradiction. *)
Lemma contradicts_false key cm eq :
  columnOk good key cm → firstOf cm Ceq = Some eq → contradicts cm eq = false.
Proof using.
  intros Hcm Heq. destruct (firstOf_ok _ _ _ _ _ Hcm Heq) as (Hk & Hc & (Ht & _) & Hh).
  destruct (typed_value row eq Ht) as (v & Ev & _).
  assert (row (cmp_key eq) = v) as Hrow.
  { unfold holds in Hh. rewrite Ev, Hc in Hh. simpl in Hh. apply (typed_eq row eq v); [done|done|lia]. }
  assert (∀ y, cmp_key y = key ∧ good y → ∃ w, Value y = Ok w ∧ answers (cmp_c y) (compareValue v w) = true ∧
    compareComparativeValue eq y = compareValue v w ∧ compareComparativeValue y eq = - compareValue v w) as Hy.
  { intros y (Hky & (Hty & _) & Hhy). destruct (typed_value row y Hty) as (w & Ew & _). exists w.
    split; [done|]. unfold holds in Hhy. rewrite Ew in Hhy.
    assert (cmp_key eq = cmp_key y) as Hkk by congruence. rewrite <- Hkk, Hrow in Hhy. split; [done|].
    assert (compareComparativeValue eq y = compareValue v w) as E
      by (by apply (compareComparativeValue_value row)).
    split; [done|]. rewrite <- E. apply innerCompare_antisym. }
  unfold contradicts. repeat (apply orb_false_intro).
  - apply not_true_iff_false. rewrite existsb_exists. intros (ne & Hin & E).
    destruct (cm !! Cne) as [l|] eqn:El; simpl in Hin; [|done]. apply list_elem_of_In in Hin.
    destruct (proj2 (Hcm _ _ El) _ Hin) as (Hkn & Hcn & Hgn).
    destruct (Hy ne (conj Hkn Hgn)) as (w & _ & Ha & _ & E'). rewrite Hcn in Ha. simpl in Ha.
    rewrite E' in E. lia.
  - refute_bound Cgte.
  - refute_bound Cgt.
  - refute_bound Clte.
  - refute_bound Clt.
Qed.

Lemma getRange_shape P key cm :
  columnOk P key cm →
  let r := getRange cm in
  (∀ b, r.1 = Some b → cmp_key b = key ∧ P b ∧
    (cmp_c b = Ceq ∧ r.2 = None ∨ cmp_c b = Cgt ∨ cmp_c b = Cgte)) ∧
  (∀ e, r.2 = Some e → cmp_key e = key ∧ P e ∧ (cmp_c e = Clt ∨ cmp_c e = Clte)).
Proof using.
  intros Hcm. unfold getRange.
  assert (∀ op x, firstOf cm op = Some x → cmp_key x = key ∧ P x ∧ cmp_c x = op) as Hf.
  { intros op x Hx. destruct (firstOf_ok _ _ _ _ _ Hcm Hx) as (? & ? & ?). auto. }
  destruct (firstOf cm Ceq) as [eq|] eqn:Eeq.
  { destruct (Hf _ _ Eeq) as (? & ? & ?). destruct (contradicts cm eq); simpl; split; try done.
    intros b [= <-]. auto. }
  split; simpl.
  - intros b Hb. enough (cmp_key b = key ∧ P b ∧ (cmp_c b = Cgt ∨ cmp_c b = Cgte)) as (?&?&?) by auto.
    destruct (firstOf cm Cgte) as [x|] eqn:E1, (firstOf cm Cgt) as [y|] eqn:E2; try done;
      repeat case_match; simplify_eq; first [destruct (Hf _ _ E1) as (?&?&?) | destruct (Hf _ _ E2) as (?&?&?)];
      first [destruct (Hf _ _ E2) as (?&?&?)|idtac]; auto.
  - intros e He.
    destruct (firstOf cm Clte) as [x|] eqn:E1, (firstOf cm Clt) as [y|] eqn:E2; try done;
      repeat case_match; simplify_eq; first [destruct (Hf _ _ E1) as (?&?&?) | destruct (Hf _ _ E2) as (?&?&?)];
      first [destruct (Hf _ _ E2) as (?&?&?)|idtac]; auto.
Qed.

Lemma getRange_none key cm : columnOk good key cm → getRange cm = (None, None) → cm !! Ceq = None.
Proof using.
  intros Hcm. unfold getRange. destruct (firstOf cm Ceq) as [eq|] eqn:Eeq.
  { by rewrite (contradicts_false key cm eq). }
  intros _. unfold firstOf in Eeq. destruct (cm !! Ceq) as [l|] eqn:El; [|done]. simpl in Eeq.
  destruct (Hcm _ _ El) as [Hl _]. by destruct l.
Qed.

(** ** Values of a variable *)

(** A list of values that contains one the row's value is not told apart from. *)
Definition hits (name : string) (l : list iface) : Prop := ∃ y, y ∈ l ∧ congruent (p name) (row name) y.

Definition pairHits (vs : VShard) (name : string) (vp : valuePair) : Prop :=
  (∀ m, DB vs = Some m → hits name (vp_db vp)) ∧ (∀ m, Table vs = Some m → hits name (vp_tbl vp)).

Lemma onLevel_hits vs name f :
  (∀ m, level vs m → ∃ l, f m = Ok l ∧ hits name l) → vs ∈ shards vt →
  ∃ db tbl, onLevel (DB vs) f = Ok db ∧ onLevel (Table vs) f = Ok tbl ∧ pairHits vs name (mkPair db tbl).
Proof using.
  intros Hf Hvs. unfold pairHits.
  assert (∀ m, m = DB vs ∨ m = Table vs → ∃ l, onLevel m f = Ok l ∧ ∀ m', m = Some m' → hits name l) as H.
  { intros [m|] Hm; simpl; [|by exists []]. destruct (Hf m) as (l & E & Hl).
    { split; [done|]. destruct Hm as [Hm|Hm]; [left|right]; by symmetry. }
    exists l. auto. }
  destruct (H (DB vs)) as (db & E1 & H1); [auto|]. destruct (H (Table vs)) as (tbl & E2 & H2); [auto|].
  exists db, tbl. simpl. auto.
Qed.

Lemma variableValues_hits vs name cm :
  vs ∈ shards vt → name ∈ VShard_Variables vs → columnOk good name cm →
  ∃ r, variableValues rnd vs cm = Ok r ∧ match r with inl vp => pairHits vs name vp | inr ret => ret = None end.
Proof using.
  intros Hvs Hn Hcm. destruct (getRange_shape good name cm Hcm) as [Hb He].
  pose proof (getRange_none name cm Hcm) as Hno. unfold variableValues.
  destruct (getRange cm) as [[b|] [e|]] eqn:Er; simpl in *.
  - destruct (Hb b eq_refl) as (Hkb & [[Htb Hrb] Hhb] & Hcb). destruct (He e eq_refl) as (Hke & [[Hte Hre] Hhe] & Hce).
    destruct Hcb as [[_ ?]|Hcb]; [done|].
    destruct (onLevel_hits vs name (λ m, computeRange rnd m b e)) as (db & tbl & -> & -> & H); [|done|simpl; eauto].
    intros m Hm. subst name. apply computeRange_covers; try done.
    + apply (Hrb ltac:(by destruct Hcb as [-> | ->]) vs m Hm Hn).
    + rewrite <- Hke in Hn. apply (Hre ltac:(by destruct Hce as [-> | ->]) vs m Hm Hn).
  - destruct (Hb b eq_refl) as (Hkb & [[Htb Hrb] Hhb] & Hcb).
    destruct (onLevel_hits vs name (λ m, computeLRange rnd m b)) as (db & tbl & -> & -> & H); [|done|simpl; eauto].
    intros m Hm. subst name. apply computeLRange_covers; try done.
    destruct Hcb as [[? _]|Hcb]; [by left|right]. split; [done|].
    apply (Hrb ltac:(by destruct Hcb as [-> | ->]) vs m Hm Hn).
  - destruct (He e eq_refl) as (Hke & [[Hte Hre] Hhe] & Hce).
    destruct (onLevel_hits vs name (λ m, computeRRange rnd m e)) as (db & tbl & -> & -> & H); [|done|simpl; eauto].
    intros m Hm. subst name. apply computeRRange_covers; try done.
    apply (Hre ltac:(by destruct Hce as [-> | ->]) vs m Hm Hn).
  - rewrite Hno by done. eexists. split; [done|]. done.
Qed.

Lemma collectValues_hits vs gs names values :
  vs ∈ shards vt → groupsOk good gs →
  (∀ name, name ∈ names → name ∈ VShard_Variables vs ∧ is_Some (gs !! name)) →
  ∃ r, collectValues rnd vs gs names values = Ok r ∧
    match r with
    | inl values' =>
        (∀ name vp, values !! name = Some vp → name ∉ names → values' !! name = Some vp) ∧
        (∀ name, name ∈ names → ∃ vp, values' !! name = Some vp ∧ pairHits vs name vp)
    | inr ret => ret = None
    end.
Proof using.
  intros Hvs Hgs. revert values. induction names as [|name names IH]; intros values Hn; simpl.
  { eexists. split; [done|]. split; [done|]. by intros ? ?%elem_of_nil. }
  destruct (Hn name) as [Hv [cm Ecm]]; [by left|]. rewrite Ecm. simpl.
  destruct (variableValues_hits vs name cm Hvs Hv (Hgs _ _ Ecm)) as (r & -> & Hr). simpl.
  destruct r as [vp|ret]; [|eauto].
  destruct (IH (<[name := vp]> values)) as (r' & -> & Hr').
  { intros x Hx. apply Hn. by right. }
  exists r'. split; [done|]. destruct r' as [values'|ret]; [|done]. destruct Hr' as [Hkeep Hhit]. split.
  - intros x vp' Hx Hnx. apply not_elem_of_cons in Hnx as [Hne Hnx].
    apply Hkeep; [|done]. by rewrite lookup_insert_ne.
  - intros x [->|Hx]%elem_of_cons; [|auto].
    destruct (decide (name ∈ names)) as [Hin|Hin]; [auto|].
    exists vp. split; [|done]. apply Hkeep; [|done]. apply lookup_insert_eq.
Qed.

(** ** Indexes *)

Definition computeOn (comp : ShardComputer) (values : list iface) : outcome Z :=
  args ← mapM NewValue_basic values; ShardCompute comp args.

(** The computer does not tell congruent values apart. *)
Definition periodic (comp : ShardComputer) : Prop :=
  ∀ xs ys, Forall3 (λ name x y, congruent (p name) x y) (Variables comp) xs ys →
    computeOn comp xs = computeOn comp ys.

(** The index of the row on one level. *)
Definition levelIndex (m : option ShardMetadata) : outcome Z :=
  match m with
  | None => Ok 0
  | Some m => computeOn (Computer m) (map row (Variables (Computer m)))
  end.

Lemma hits_choice names f :
  (∀ name, name ∈ names → hits name (f name)) →
  ∃ ys, Forall2 (∈) ys (map f names) ∧ Forall3 (λ name x y, congruent (p name) x y) names (map row names) ys.
Proof using.
  induction names as [|name names IH]; intros H.
  { exists []. split; constructor. }
  destruct (H name) as (y & Hy & Hc); [by left|]. destruct IH as (ys & H1 & H2); [intros; apply H; by right|].
  exists (y :: ys). split; constructor; done.
Qed.

Lemma mapM_elem {X Y} (f : X → outcome Y) l k x y : mapM f l = Ok k → x ∈ l → f x = Ok y → y ∈ k.
Proof using.
  intros H%mapM_Ok Hx Hy. apply list_elem_of_lookup in Hx as [i Hi].
  destruct (Forall2_lookup_l _ _ _ _ _ H Hi) as (z & Hz & E). rewrite Hy in E. injection E as ->.
  by eapply list_elem_of_lookup_2.
Qed.

Lemma levelIndexes_hits m values lvl l i :
  (∀ m', m = Some m' → periodic (Computer m') ∧
    ∀ name, name ∈ Variables (Computer m') → ∃ vp, values !! name = Some vp ∧ hits name (lvl vp)) →
  levelIndexes m values lvl = Ok l → levelIndex m = Ok i → i ∈ l.
Proof using.
  intros Hm Hl Hi. destruct m as [m|]; simpl in *; [|inv_ok; subst; by left].
  destruct (Hm m eq_refl) as [Hper Hv].
  destruct (hits_choice (Variables (Computer m)) (λ name, default [] (lvl <$> values !! name))) as (ys & Hys & Hc).
  { intros name Hname. destruct (Hv name Hname) as (vp & -> & Hh). done. }
  unfold computeIndexes in Hl. eapply mapM_elem; [exact Hl| |].
  - rewrite CartesianProduct_product. by apply product_elem.
  - change (computeOn (Computer m) ys = Ok i). by rewrite <- (Hper _ _ Hc).
Qed.

(** ** Shards *)

Lemma addExisting_spec to cp sd X :
  represents sd X → Forall (λ xy, length xy = 2%nat) cp →
  ∃ sd' X', addExisting to cp sd = Ok sd' ∧ represents sd' X' ∧ X ⊆ X' ∧
    ∀ x y, [x; y] ∈ cp → Exists to x y = true → (u32 x, u32 y) ∈ X'.
Proof using BL.
  intros HX Hcp. revert sd X HX. induction Hcp as [|xy cp Hl Hcp IH]; intros sd X HX; simpl.
  { exists sd, X. split; [done|]. split; [done|]. split; [done|]. by intros ?? ?%elem_of_nil. }
  destruct xy as [|x [|y [|]]]; try done.
  assert (∃ sd1 X1, (if Exists to x y then Add sd (u32 x) (u32 y) [] else Ok sd) = Ok sd1 ∧
    represents sd1 X1 ∧ X ⊆ X1 ∧ (Exists to x y = true → (u32 x, u32 y) ∈ X1)) as (sd1 & X1 & -> & H1 & Hs1 & He1).
  { destruct (Exists to x y).
    - destruct (Add_represents sd X (u32 x) (u32 y) [] HX) as (sd1 & -> & H1);
        [by apply wrapU_range|by repeat constructor; apply wrapU_range|].
      eexists _, _. split; [done|]. split; [done|]. unfold Shards.row. simpl. split; [apply union_subseteq_r|]. intros _. rewrite elem_of_union. left. rewrite elem_of_union. left. by apply elem_of_singleton.
    - by exists sd, X. }
  simpl. destruct (IH sd1 X1 H1) as (sd' & X' & -> & H' & Hs' & He'). exists sd', X'.
  split; [done|]. split; [done|]. split; [by etrans|].
  intros x' y' [[= -> ->]|Hin]%elem_of_cons; [auto|by apply He'].
Qed.

(** ** The operator *)

Context (db tb : Z).

(** Every virtual shard of the table locates the row at [db] and [tb]. *)
Definition located : Prop :=
  ∀ vs, vs ∈ shards vt → levelIndex (DB vs) = Ok db ∧ levelIndex (Table vs) = Ok tb.

Context (Hloc : located) (Hper : ∀ vs m, level vs m → periodic (Computer m)).
Context (Hex : Exists (topology vt) db tb = true).

(** The row's shard is in the set. *)
Definition found (sd : Shards) : Prop := (u32 db, u32 tb) ∈ pairs sd.

Abbreviation opAND := (calculusOperator_AND rnd dbFirst vt).
Abbreviation opOR := (calculusOperator_OR rnd dbFirst vt).
Abbreviation shardsOf sd := (Some (mkCalculus None (Some sd))).

Lemma searchVShard_Some {A} (gs : gmap string A) vs :
  searchVShard vt gs = Some vs →
  vs ∈ shards vt ∧ ∀ name, name ∈ VShard_Variables vs → is_Some (gs !! name).
Proof using.
  unfold searchVShard. destruct (list_find _ _) as [[i vs']|] eqn:E; [|done]. intros [= ->].
  apply list_find_Some in E as (Hi & Hin & _). split; [by eapply list_elem_of_lookup_2|].
  by apply hasInputs_spec.
Qed.

Lemma waitBoth_Ok {X Y} (x : outcome X) (y : outcome Y) r :
  waitBoth dbFirst x y = Ok r → x = Ok r.1 ∧ y = Ok r.2.
Proof using. destruct x, y; simpl; try done. by intros [= <-]. Qed.

Lemma AND_shape first others r : opAND first others = Ok r → r = None ∨ ∃ sd, r = shardsOf sd.
Proof using.
  unfold calculusOperator_AND. intros (gs & _ & H)%bind_Ok_inv.
  destruct (searchVShard vt gs) as [vs|]; [|done].
  apply bind_Ok_inv in H as (v & Hv & H). destruct v as [values|ret].
  - apply bind_Ok_inv in H as (ix & _ & (sd & _ & H)%bind_Ok_inv). case_match; inv_ok; subst; eauto.
  - inv_ok. subst r. clear -Hv. revert Hv. generalize (VShard_Variables vs) (∅ : gmap string valuePair).
    induction l as [|name l IH]; intros values H; simpl in H; [done|].
    apply bind_Ok_inv in H as (x & Hx & H). destruct x as [vp|x]; [eauto|]. inv_ok. simplify_eq.
    unfold variableValues in Hx. destruct (getRange _) as [[b|] [e|]]; inv_ok; try done.
    case_match; inv_ok; simplify_eq; [right; by eexists|by left].
Qed.

Lemma AND_found first others r :
  (∀ x, Some x ∈ first :: others → ∀ y, calc_c x = Some y → good y) →
  opAND first others = Ok r → r = None ∨ ∃ sd, r = shardsOf sd ∧ found sd.
Proof using BL Hex Hloc Hper.
  intros Hgood. unfold calculusOperator_AND. intros (gs & Hgs & H)%bind_Ok_inv.
  assert (groupsOk good gs) as Hok by (eapply addAll_ok; [exact Hgood| |exact Hgs]; intros ??; by rewrite lookup_empty).
  destruct (searchVShard vt gs) as [vs|] eqn:Evs; [|done].
  destruct (searchVShard_Some gs vs Evs) as [Hvs Hin].
  destruct (collectValues_hits vs gs (VShard_Variables vs) ∅ Hvs Hok) as (v & Ev & Hv); [auto|].
  rewrite Ev in H. simpl in H. destruct v as [values|ret]; [|inv_ok; subst; by left]. right.
  apply bind_Ok_inv in H as (ix & [Hdb Htb]%waitBoth_Ok & H).
  destruct Hv as [_ Hv]. destruct (Hloc vs Hvs) as [Ldb Ltb].
  assert (∀ m name, DB vs = Some m ∨ Table vs = Some m → name ∈ Variables (Computer m) →
    ∃ vp, values !! name = Some vp ∧ pairHits vs name vp) as Hvar.
  { intros m name Hm Hname. apply Hv. apply VShard_Variables_elem.
    destruct Hm as [-> | ->]; [by left|by right]. }
  assert (db ∈ ix.1) as Hi1.
  { eapply levelIndexes_hits; [|exact Hdb|exact Ldb]. intros m Hm. split; [apply (Hper vs); by split; auto|].
    intros name Hname. destruct (Hvar m name (or_introl Hm) Hname) as (vp & ? & Hp & _). eauto. }
  assert (tb ∈ ix.2) as Hi2.
  { eapply levelIndexes_hits; [|exact Htb|exact Ltb]. intros m Hm. split; [apply (Hper vs); by split; auto|].
    intros name Hname. destruct (Hvar m name (or_intror Hm) Hname) as (vp & ? & _ & Hp). eauto. }
  rewrite CartesianProduct_product in H.
  destruct (addExisting_spec (topology vt) (product [ix.1; ix.2]) NewShards ∅ represents_new)
    as (sd & X & E & [_ HX] & _ & Hadd).
  { apply Forall_forall. intros xy Hxy%product_elem. by apply Forall2_length in Hxy. }
  rewrite E in H. simpl in H.
  assert (found sd) as Hf.
  { apply HX, Hadd; [|done]. apply product_elem. by repeat constructor. }
  exists sd. split; [|done]. unfold Len in H. case_match eqn:El; [|by inv_ok].
  apply Z.ltb_lt in El. unfold found, pairs in Hf.
  destruct (bt_items sd); [by apply elem_of_nil in Hf|cbn [length] in El; lia].
Qed.

(** What a calculus means for a formula whose truth on the row is [b]. *)
Inductive sound (b : bool) : option Calculus → Prop :=
| sound_nil : sound b None
| sound_cmp x : supported x → (b = true → holds row x = true) → sound b (calc_Wrap x)
| sound_shards sd : (b = true → found sd) → sound b (shardsOf sd).

Lemma AND_keeps_sound bs first others r :
  Forall2 sound bs (first :: others) → opAND first others = Ok r → sound (forallb id bs) r.
Proof using BL Hex Hloc Hper.
  intros HF H. destruct (forallb id bs) eqn:Eb.
  - destruct (AND_found first others r) as [->|(sd & -> & Hf)]; [|done|by constructor..].
    intros x Hx y Hy. apply list_elem_of_lookup in Hx as [i Hi].
    destruct (Forall2_lookup_r _ _ _ _ _ HF Hi) as (b & Hb & Hs).
    assert (b = true) as ->.
    { rewrite forallb_forall in Eb. apply (Eb b), list_elem_of_In. by eapply list_elem_of_lookup_2. }
    inversion Hs; subst; simpl in Hy; [|done]. injection Hy as ->. split; auto.
  - destruct (AND_shape _ _ _ H) as [->|[sd ->]]; by constructor.
Qed.

Lemma or_operand_found x sd X sd' b :
  represents sd X → sound b (Some x) → or_operand rnd dbFirst vt x sd = Ok sd' →
  (∃ X', represents sd' X' ∧ X ⊆ X') ∧ (b = true ∨ found sd → found sd').
Proof using BL Hex Hloc Hper.
  intros HX Hb. unfold or_operand. intros (y & Hy & H)%bind_Ok_inv.
  assert (sound b y) as Hs.
  { destruct (calc_c x) as [z|] eqn:Ez; [|by inv_ok; subst].
    replace b with (forallb id [b]) by (simpl; apply andb_true_r).
    eapply AND_keeps_sound; [|exact Hy]. by repeat constructor. }
  destruct y as [y|]; [|done]. destruct (calc_s y) as [s|] eqn:Es.
  - simpl in H. destruct (ascend_union (bt_items s) sd X HX) as (sd1 & E & H1).
    rewrite E in H. injection H as <-. split; [eexists; split; [done|]; apply union_subseteq_l|].
    intros Hor. unfold found. apply H1. apply elem_of_union. destruct Hor as [->|Hf]; [right|left; by apply HX].
    inversion Hs; subst; simpl in Es; [done|]. injection Es as <-. unfold listPairs.
    apply elem_of_list_to_set. by apply H0.
  - injection H as <-. split; [eauto|]. intros [->|Hf]; [|done].
    destruct (calc_c x) as [z|] eqn:Ez.
    + destruct (AND_shape _ _ _ Hy) as [?|[? [= ->]]]; done.
    + inv_ok. simplify_eq. inversion Hb; subst; done.
Qed.

Lemma OR_keeps_sound bs xs sd X r :
  represents sd X → Forall2 sound bs xs → or_operands rnd dbFirst vt xs sd = Ok r →
  match r with None => True | Some sd' => existsb id bs = true ∨ found sd → found sd' end.
Proof using BL Hex Hloc Hper.
  intros HX HF. revert sd X HX. induction HF as [|b x bs xs Hb HF IH]; intros sd X HX H; simpl in H.
  - inv_ok. subst. intros [?|?]; done.
  - destruct x as [x|]; [|by inv_ok; subst]. apply bind_Ok_inv in H as (sd1 & H1 & H).
    destruct (or_operand_found x sd X sd1 b HX Hb H1) as [(X1 & HX1 & _) Hf].
    specialize (IH _ _ HX1 H). destruct r as [sd'|]; [|done]. simpl.
    intros [Hor|Hsd]; apply IH; [|right; auto]. apply orb_true_iff in Hor as [Hor|Hor]; [right|by left].
    apply Hf. by left.
Qed.

(** The literals of a formula, negations pushed into the operators. *)
Fixpoint literals (l : Logic Comparative) : list Comparative :=
  match l with
  | nilLogic => []
  | atomLogic x => [x]
  | notLogic x => match negate (cmp_c x) with Ok n => [SetComparison x n] | _ => [] end
  | intersectionLogic ls | unionLogic ls => flat_map literals ls
  end.

Lemma holds_negate x n : typed row x → negate (cmp_c x) = Ok n →
  holds row (SetComparison x n) = negb (holds row x).
Proof using.
  intros Ht Hn. destruct (typed_value row x Ht) as (v & Ev & _). unfold holds.
  change (Value (SetComparison x n)) with (Value x). rewrite Ev. simpl.
  destruct (compareValue_range (row (cmp_key x)) v) as [-> | [-> | ->]];
    destruct (cmp_c x); simpl in Hn; try done; by injection Hn as <-.
Qed.

Lemma mapM_Forall2 {X Y W} (f : Y → outcome W) (g : X → Y) (R : X → W → Prop) xs ws :
  Forall (λ x, ∀ w, f (g x) = Ok w → R x w) xs → mapM f (map g xs) = Ok ws → Forall2 R xs ws.
Proof using.
  intros HF H%mapM_Ok. revert ws H. induction HF as [|x xs Hx HF IH]; intros ws H; simpl in H.
  - apply Forall2_nil_inv_l in H as ->. constructor.
  - apply Forall2_cons_inv_l in H as (w & ws' & Hw & Hws & ->). constructor; auto.
Qed.

(** The operands of a folded list are sound for the truths of its members. *)
Lemma children_sound ls values :
  Forall (λ l, ∀ r, Forall supported (literals l) →
    Eval (calculusOperator rnd dbFirst vt) (wrapItems l) = Ok r → sound (sat (holds row) l) r) ls →
  Forall supported (flat_map literals ls) →
  mapM (Eval (calculusOperator rnd dbFirst vt)) (map wrapItems ls) = Ok values →
  Forall2 sound (map (sat (holds row)) ls) values.
Proof using.
  intros IH Hs Hv. apply Forall2_fmap_l. eapply mapM_Forall2; [|exact Hv].
  apply Forall_forall. intros l Hl w Hw. rewrite Forall_forall in IH. apply IH; [done| |done].
  rewrite Forall_forall in Hs |- *. intros x Hx. apply Hs, list_elem_of_In, in_flat_map.
  exists l. by rewrite <- !list_elem_of_In.
Qed.

Lemma forallb_map_id {X} (f : X → bool) l : forallb id (map f l) = forallb f l.
Proof using. induction l; simpl; congruence. Qed.

Lemma existsb_map_id {X} (f : X → bool) l : existsb id (map f l) = existsb f l.
Proof using. induction l; simpl; congruence. Qed.

Lemma Eval_sound l r :
  Forall supported (literals l) → Eval (calculusOperator rnd dbFirst vt) (wrapItems l) = Ok r →
  sound (sat (holds row) l) r.
Proof using BL Hex Hloc Hper.
  revert r. induction l as [|x|x|ls IH|ls IH] using Logic_nested_ind; intros r Hs H; simpl in *.
  - done.
  - injection H as <-. rewrite Forall_singleton in Hs. by apply sound_cmp.
  - apply bind_Ok_inv in H as (n & Hn & H). injection H as <-. rewrite Hn, Forall_singleton in Hs.
    apply sound_cmp; [done|]. intros Hb. rewrite holds_negate; [done|by destruct Hs|done].
  - apply bind_Ok_inv in H as (values & Hv & H). apply (children_sound ls values IH Hs) in Hv.
    destruct values as [|v vs]; [done|].
    apply (AND_keeps_sound _ _ _ _ Hv) in H. rewrite forallb_map_id in H.
    by destruct ls; [inversion Hv|].
  - apply bind_Ok_inv in H as (values & Hv & H). apply (children_sound ls values IH Hs) in Hv.
    destruct values as [|v vs]; [done|]. unfold calculusOperator_OR in H.
    apply bind_Ok_inv in H as (o & Ho & H). injection H as <-.
    pose proof (OR_keeps_sound _ _ _ _ _ represents_new Hv Ho) as Hor.
    destruct o as [sd|]; simpl; constructor. intros Hb. apply Hor. left.
    rewrite existsb_map_id. by destruct ls; [inversion Hv|].
Qed.

(** ** Errors *)

(** Not the error [calc.Eval] reads as "no shard". *)
Definition plain (e : error) : Prop := errors_Is e ErrEmptyIntersection = false.

Definition plainErr {X} (m : outcome X) : Prop := ∀ e, m = Err e → plain e.

Context (Hplain : ∀ vs m args, level vs m → plainErr (ShardCompute (Computer m) args)).

Lemma plainErr_bind {X Y} (m : outcome X) (f : X → outcome Y) :
  plainErr m → (∀ a, m = Ok a → plainErr (f a)) → plainErr (m ≫= f).
Proof using. intros Hm Hf e. destruct m; simpl; [by apply Hf|intros [= <-]; by apply Hm|done|done]. Qed.

Lemma plainErr_Ok {X} (x : X) : plainErr (Ok x).
Proof using. by intros e. Qed.

Lemma plainErr_Panic {X} : plainErr (Panic : outcome X).
Proof using. by intros e. Qed.

Lemma plainErr_mapM {X Y} (f : X → outcome Y) l :
  (∀ x, x ∈ l → plainErr (f x)) → plainErr (mapM f l).
Proof using.
  induction l as [|x l IH]; intros H; simpl; [apply plainErr_Ok|].
  apply plainErr_bind; [apply H; by left|]. intros y _.
  apply plainErr_bind; [apply IH; intros; apply H; by right|]. intros ys _. apply plainErr_Ok.
Qed.

Lemma plainErr_MustValue x : plainErr (MustValue x).
Proof using. intros e. unfold MustValue. by destruct (Value x). Qed.

Lemma plainErr_rangeLoop {X} fuel f (body : X → iface → outcome (X * bool)) r s :
  (∀ s x, plainErr (body s x)) → plainErr (rangeLoop fuel f body r s).
Proof using.
  intros Hb. revert f r s. induction fuel as [|fuel IH]; intros f r s; simpl; destruct (HasNext r);
    try apply plainErr_Ok; [by intros e|].
  apply plainErr_bind. { intros e. unfold Next. by destruct r; case_match. }
  intros xr _. apply plainErr_bind; [apply Hb|]. intros sc _. destruct sc.2; [apply IH|apply plainErr_Ok].
Qed.

Lemma plainErr_columnIter m x reverse : plainErr (columnIter m x reverse).
Proof using.
  unfold columnIter. destruct (GetShardColumn m (cmp_key x)); [|apply plainErr_Panic].
  apply plainErr_bind; [apply plainErr_MustValue|]. intros v _ e. by case_match.
Qed.

Hint Resolve plainErr_Ok plainErr_Panic plainErr_MustValue plainErr_columnIter : plain.

Lemma plainErr_walk {X} f (body : X → iface → outcome (X * bool)) r s (g : X → list iface) :
  (∀ s x, plainErr (body s x)) → plainErr (st ← walk f body r s; Ok (g st)).
Proof using.
  intros Hb. apply plainErr_bind; [by apply plainErr_rangeLoop|]. eauto with plain.
Qed.

Lemma plainErr_ranges m x y :
  plainErr (computeLRange rnd m x) ∧ plainErr (computeRRange rnd m x) ∧ plainErr (computeRange rnd m x y).
Proof using.
  assert (∀ st z, plainErr (include_visit st z)) as Hi by (intros [] z; apply plainErr_Ok).
  assert (∀ max e st z, plainErr (range_visit max e st z)) as Hr.
  { intros max e [] z. unfold range_visit. repeat case_match; apply plainErr_Ok. }
  unfold computeLRange, computeRRange, computeRange. split; [|split].
  - case_decide; (apply plainErr_bind; [auto with plain|]); intros v _; [apply plainErr_Ok|by apply plainErr_walk].
  - case_decide; (apply plainErr_bind; [auto with plain|]); intros v _; [apply plainErr_Ok|].
    by apply (plainErr_walk _ _ _ _ (λ st, ReverseSlice st.2)).
  - apply plainErr_bind; [case_match; auto with plain|]. intros v _.
    apply plainErr_bind; [auto with plain|]. intros r _. by apply plainErr_walk.
Qed.

Lemma plainErr_collectValues vs gs names values : plainErr (collectValues rnd vs gs names values).
Proof using.
  revert values. induction names as [|name names IH]; intros values; simpl; [eauto with plain|].
  apply plainErr_bind; [|intros [] _; eauto with plain].
  assert (∀ m f, (∀ m, plainErr (f m)) → plainErr (onLevel m f)) as Hl.
  { intros [m|] f Hf; simpl; eauto with plain. }
  assert (∀ f, (∀ m, plainErr (f m)) → plainErr (X := valuePair + option Calculus)
    (db ← onLevel (DB vs) f; tbl ← onLevel (Table vs) f; Ok (inl (mkPair db tbl)))) as Hb.
  { intros f Hf. apply plainErr_bind; [by apply Hl|]. intros ? _.
    apply plainErr_bind; [by apply Hl|]. intros ? _. apply plainErr_Ok. }
  unfold variableValues. destruct (getRange _) as [[b|] [e|]].
  - apply Hb. intros m. apply (plainErr_ranges m b e).
  - apply Hb. intros m. apply (plainErr_ranges m b b).
  - apply Hb. intros m. apply (plainErr_ranges m e e).
  - destruct (bool_decide _); apply plainErr_Ok.
Qed.

Lemma AND_plainErr first others : plainErr (opAND first others).
Proof using BL Hplain.
  unfold calculusOperator_AND. apply plainErr_bind.
  { generalize (∅ : groups). induction (first :: others) as [|x xs IH]; intros gs; simpl; [apply plainErr_Ok|].
    apply plainErr_bind; [|auto]. destruct x as [x|]; simpl; [|apply plainErr_Ok].
    destruct (calc_c x); auto with plain. }
  intros gs _. destruct (searchVShard vt gs) as [vs|] eqn:Evs; [|by intros e [= <-]].
  destruct (searchVShard_Some gs vs Evs) as [Hvs _].
  apply plainErr_bind; [apply plainErr_collectValues|]. intros [values|ret] _; [|apply plainErr_Ok].
  assert (∀ m lvl, m = DB vs ∨ m = Table vs → plainErr (levelIndexes m values lvl)) as Hl.
  { intros [m|] lvl Hm; simpl; [|apply plainErr_Ok]. apply plainErr_mapM. intros next _.
    apply plainErr_bind; [apply plainErr_mapM; intros; apply plainErr_Ok|]. intros args _.
    apply (Hplain vs). split; [done|]. destruct Hm as [-> | ->]; auto. }
  apply plainErr_bind.
  { intros e. pose proof (Hl (DB vs) vp_db ltac:(auto)) as H1. pose proof (Hl (Table vs) vp_tbl ltac:(auto)) as H2.
    destruct (levelIndexes (DB vs) _ _), (levelIndexes (Table vs) _ _); simpl; try done;
      intros [= <-]; try destruct dbFirst; auto. }
  intros ix _. rewrite CartesianProduct_product.
  destruct (addExisting_spec (topology vt) (product [ix.1; ix.2]) NewShards ∅ represents_new)
    as (sd & X & -> & _).
  { apply Forall_forall. intros xy Hxy%product_elem. by apply Forall2_length in Hxy. }
  simpl. case_match; apply plainErr_Ok.
Qed.

Lemma OR_plainErr xs sd X : represents sd X → plainErr (or_operands rnd dbFirst vt xs sd).
Proof using BL Hplain.
  revert sd X. induction xs as [|[x|] xs IH]; intros sd X HX; simpl; try apply plainErr_Ok.
  assert (∀ s, ∃ sd' X', Each union_visit s sd = Ok sd' ∧ represents sd' X') as He.
  { intros [s|]; simpl; [|eauto]. destruct (ascend_union (bt_items s) sd X HX) as (? & ? & ?). eauto. }
  unfold or_operand. apply plainErr_bind.
  - apply plainErr_bind; [destruct (calc_c x); [apply AND_plainErr|apply plainErr_Ok]|].
    intros [y|] _; [|apply plainErr_Panic]. destruct (calc_s y) as [s|]; [|apply plainErr_Ok].
    destruct (He (Some s)) as (? & ? & -> & _). apply plainErr_Ok.
  - intros sd' H. apply bind_Ok_inv in H as (y & _ & H). destruct y as [y|]; [|done].
    destruct (calc_s y) as [s|]; [|injection H as <-; eauto].
    destruct (He (Some s)) as (sd1 & X1 & E & HX1). rewrite E in H. injection H as <-. eauto.
Qed.

Lemma children_plainErr ls :
  Forall (λ l, noEmpty l = true → plainErr (Eval (calculusOperator rnd dbFirst vt) (wrapItems l))) ls →
  forallb noEmpty ls = true → plainErr (mapM (Eval (calculusOperator rnd dbFirst vt)) (map wrapItems ls)).
Proof using.
  intros IH He. apply plainErr_mapM. intros w (l & -> & Hl)%list_elem_of_fmap.
  rewrite Forall_forall in IH. apply IH; [done|]. by apply forallb_forall_elem with ls.
Qed.

Lemma Eval_plainErr l :
  noEmpty l = true → plainErr (Eval (calculusOperator rnd dbFirst vt) (wrapItems l)).
Proof using BL Hplain.
  induction l as [|x|x|ls IH|ls IH] using Logic_nested_ind; intros He; simpl.
  - apply plainErr_Panic.
  - apply plainErr_Ok.
  - apply plainErr_bind; [intros e; by destruct (cmp_c x)|]. intros n _. apply plainErr_Ok.
  - simpl in He. apply andb_true_iff in He as [Hne He].
    apply plainErr_bind; [by apply children_plainErr|]. intros values Hv.
    destruct values; [|apply AND_plainErr]. apply mapM_Ok, Forall2_length in Hv. by destruct ls.
  - simpl in He. apply andb_true_iff in He as [Hne He].
    apply plainErr_bind; [by apply children_plainErr|]. intros values Hv.
    destruct values; [apply mapM_Ok, Forall2_length in Hv; by destruct ls|].
    apply plainErr_bind; [eapply OR_plainErr, represents_new|]. intros ? _. apply plainErr_Ok.
Qed.

Lemma calc_Eval_sound l r :
  Forall supported (literals l) → noEmpty l = true ∨ l = True_ →
  calc_Eval rnd dbFirst vt l = Ok r → sat (holds row) l = true →
  match r with None => True | Some sd => found sd end.
Proof using BL Hex Hloc Hper Hplain.
  intros Hs Hl H Hsat. destruct Hl as [Hl| ->]; [|simpl in H; by injection H as <-].
  assert (plainErr (innerEval rnd dbFirst vt l)) as Hp.
  { unfold innerEval. apply plainErr_bind; [by apply Eval_plainErr|]. intros [ca|] _; [|apply plainErr_Ok].
    destruct (calc_s ca); [apply plainErr_Ok|]. apply plainErr_bind; [apply AND_plainErr|].
    intros ? _. apply plainErr_Ok. }
  unfold calc_Eval in H. destruct (innerEval rnd dbFirst vt l) as [r'|e| |] eqn:Ei; try done.
  - injection H as ->. unfold innerEval in Ei. apply bind_Ok_inv in Ei as (o & Ho & Ei).
    apply Eval_sound in Ho; [|done]. rewrite Hsat in Ho.
    destruct o as [ca|]; [|by injection Ei as <-]. destruct (calc_s ca) as [sd|] eqn:Es.
    + injection Ei as <-. inversion Ho; subst; simpl in Es; [done|]. injection Es as <-. auto.
    + apply bind_Ok_inv in Ei as (o & Ha & Ei). injection Ei as <-.
      apply (AND_keeps_sound [true]) in Ha; [|by repeat constructor]. simpl in Ha.
      inversion Ha; simpl; auto.
  - rewrite (Hp e eq_refl) in H. destruct (errors_Is e ErrEmptyUnion); [by injection H as <-|done].
Qed.
End Routing.

(** ** The row of an INSERT *)

(** The inputs [VTable.Shard] gets for a row. *)
Definition rowInputs (row : string → iface) (inputs : gmap string (option ProtoValue)) (vt : VTable) : Prop :=
  ∀ vs x, vs ∈ shards vt → x ∈ VShard_Variables vs →
    ∃ v, NewValue_basic (row x) = Ok v ∧ inputs !! x = Some v.

Lemma mapM_NewValue (row : string → iface) (inputs : gmap string (option ProtoValue)) names :
  (∀ x, x ∈ names → ∃ v, NewValue_basic (row x) = Ok v ∧ inputs !! x = Some v) →
  mapM NewValue_basic (map row names) = Ok (map (λ x, default None (inputs !! x)) names).
Proof.
  induction names as [|x names IH]; intros H; simpl; [done|].
  destruct (H x) as (v & Hv & ->); [by left|].
  change (NewValue_basic (row x) ≫= (λ y, mapM NewValue_basic (map row names) ≫= λ k, Ok (y :: k)) =
    Ok (v :: map (λ x, default None (inputs !! x)) names)).
  rewrite Hv. simpl. rewrite IH; [done|]. intros y Hy. apply H. by right.
Qed.

(** A row that the table's only virtual shard can place is located there. *)
Lemma VTable_Shard_located vt vs row inputs d t :
  shards vt = [vs] → rowInputs row inputs vt → VTable_Shard vt inputs = Ok (d, t) →
  ∃ db tb, located vt row db tb ∧ d = u32 db ∧ t = u32 tb.
Proof.
  intros Hvs Hin H. unfold VTable_Shard in H. rewrite Hvs in H. simpl in H.
  assert (hasInputs inputs vs = true) as Hh.
  { apply hasInputs_spec. intros x Hx. destruct (Hin vs x) as (v & _ & ->); [rewrite Hvs; by left|done|eauto]. }
  rewrite Hh in H. simpl in H. inv_ok. simplify_eq.
  assert (∀ m i, m = DB vs ∨ m = Table vs → shardCompute inputs m = Ok i → levelIndex row m = Ok i) as Hl.
  { intros [m|] i Hm Hi; simpl in *; [|done]. unfold computeOn. rewrite (mapM_NewValue row inputs).
    - unfold wrap in Hi. simpl. by destruct (ShardCompute _ _).
    - intros x Hx. apply (Hin vs); [rewrite Hvs; by left|]. apply VShard_Variables_elem.
      destruct Hm as [<- | <-]; auto. }
  exists a, a0. split; [|done]. intros vs' Hvs'. rewrite Hvs in Hvs'.
  apply list_elem_of_singleton in Hvs' as ->. auto.
Qed.

(** ** Properties *)

(** The shard computers and the topology place the row at [db] and [tb]: the
    computers do not tell values apart that agree modulo the column's period,
    never fail with the error that means an empty intersection, and the
    topology has the place. *)
Record routable {SL : SliceLib} (vt : VTable) (p : string → Z) (row : string → iface) (db tb : Z) : Prop := {
  routable_located : located vt row db tb;
  routable_periodic vs m : level vt vs m → periodic p (Computer m);
  routable_plain vs m args : level vt vs m → plainErr (ShardCompute (Computer m) args);
  routable_exists : Exists (topology vt) db tb = true;
}.


(** C11: a row is found where it was put: the shard [VTable.Shard] computes for
    the column values of a row is among the shards of every supported formula
    the row satisfies. *)
Theorem insert_then_select {B : BTree} {BL : BTreeLaws B} {TL : TimeLib} {SL : SliceLib}
  rnd dbFirst vt vs p row inputs d t l sd :
  shards vt = [vs] → rowInputs row inputs vt → VTable_Shard vt inputs = Ok (d, t) →
  (∀ m, level vt vs m → periodic p (Computer m) ∧ ∀ args, plainErr (ShardCompute (Computer m) args)) →
  (∀ db tb, d = u32 db → t = u32 tb → located vt row db tb → Exists (topology vt) db tb = true) →
  Forall (supported vt p row) (literals l) → noEmpty l = true →
  calc_Eval rnd dbFirst vt l = Ok (Some sd) → sat (holds row) l = true →
  (d, t) ∈ pairs sd.
Proof.
  intros Hvs Hin Hsh Hm Hex Hs Hl HE Hsat.
  destruct (VTable_Shard_located vt vs row inputs d t Hvs Hin Hsh) as (db & tb & Hloc & -> & ->).
  assert (∀ vs' m, level vt vs' m → vs' = vs) as Hone.
  { intros vs' m [Hv _]. rewrite Hvs in Hv. by apply list_elem_of_singleton in Hv. }
  refine (calc_Eval_sound rnd dbFirst vt p row db tb Hloc _ (Hex db tb eq_refl eq_refl Hloc) _ l (Some sd) Hs (or_introl Hl) HE Hsat).
  - intros vs' m Hv. rewrite (Hone _ _ Hv) in Hv. by apply Hm.
  - intros vs' m args Hv. rewrite (Hone _ _ Hv) in Hv. by apply Hm.
Qed.
