(* ===== verification/RoutingTotal.v ===== *)
(** * When the shard calculation answers

    [calc.Eval] dereferences nil on some formulas.  This file shows that it
    answers on disjunctions of conjunctions of comparisons it can enumerate,
    and states the inputs on which it panics or loses rows. *)
From S2P Require Import Prelude BTree Logic LogicTheory GoStd Value Cmp Shards Range Topology Rule Calc CalcTheory Routing.

Section Total.
Context {B : BTree} {BL : BTreeLaws B} {TL : TimeLib} {SL : SliceLib}.
Context (rnd : ShardMetadata → Comparative → nat → Z) (dbFirst : bool) (vt : VTable).

(** The value can be read, and a bound is an integer on a column with the
    number stepper that every level of the virtual shards declares. *)
Definition ready (x : Comparative) : Prop :=
  (∃ v, Value x = Ok v) ∧
  (bound (cmp_c x) = true → ∀ vs m, level vt vs m → cmp_key x ∈ VShard_Variables vs →
    (∃ b, Value x = Ok (Iint64 b)) ∧
    ∃ col, GetShardColumn m (cmp_key x) = Some col ∧ ColStepper col = DefaultNumberStepper ∧ inS 64 (Steps col)).

Lemma ready_iter x m vs reverse :
  ready x → bound (cmp_c x) = true → level vt vs m → cmp_key x ∈ VShard_Variables vs →
  ∃ r, columnIter m x reverse = Ok r ∧ range_wf r.
Proof using.
  intros [_ Hr] Hb Hm Hk. destruct (Hr Hb vs m Hm Hk) as ([b Eb] & col & Hcol & Hst & Hn).
  exists (iterInt64 b (if reverse then -1 else 1) (Steps col)).
  split; [by apply columnIter_int, MustValue_Ok|]. apply range_wf_int64; [by eapply Value_int_range|done].
Qed.

Lemma ranges_return m vs x :
  ready x → level vt vs m → cmp_key x ∈ VShard_Variables vs →
  cmp_c x = Ceq ∨ bound (cmp_c x) = true →
  (∃ l, computeLRange rnd m x = Ok l) ∧ (∃ l, computeRRange rnd m x = Ok l).
Proof using.
  intros Hx Hm Hk Hc. destruct (proj1 Hx) as [v Hv]. unfold computeLRange, computeRRange.
  case_decide as E; [rewrite (MustValue_Ok _ _ Hv); simpl; eauto|]. destruct Hc as [?|Hb]; [done|].
  split.
  - destruct (ready_iter x m vs false Hx Hb Hm Hk) as (r & -> & Hwf). simpl. rewrite walk_list by done.
    destruct (walkList_include_from (elements (rnd m x) r) (bool_decide (cmp_c x = Cgte))) as [? ->]. simpl. eauto.
  - destruct (ready_iter x m vs true Hx Hb Hm Hk) as (r & -> & Hwf). simpl. rewrite walk_list by done.
    destruct (walkList_include_from (elements (rnd m x) r) (bool_decide (cmp_c x = Clte))) as [? ->]. simpl. eauto.
Qed.

Lemma computeRange_returns m vs x y :
  ready x → ready y → level vt vs m → cmp_key x ∈ VShard_Variables vs → bound (cmp_c x) = true →
  ∃ l, computeRange rnd m x y = Ok l.
Proof using.
  intros Hx [[v Hv] _] Hm Hk Hb. unfold computeRange.
  assert (∃ max, match cmp_c y with Clte | Clt => MustValue y | _ => Ok Inil end = Ok max) as [max ->]
    by (rewrite (MustValue_Ok _ _ Hv); case_match; eauto).
  destruct (ready_iter x m vs false Hx Hb Hm Hk) as (r & Er & Hwf). simpl. rewrite Er. simpl. rewrite walk_list by done.
  destruct (walkList_range_mono max (bool_decide (cmp_c y = Clte)) (elements (rnd m x) r)
    (bool_decide (cmp_c x = Cgte), [])) as (st & -> & _). simpl. eauto.
Qed.

Lemma onLevel_returns vs f :
  vs ∈ shards vt → (∀ m, level vt vs m → ∃ l, f m = Ok l) →
  ∃ vp, (db ← onLevel (DB vs) f; tbl ← onLevel (Table vs) f; Ok (inl (mkPair db tbl))) =
    Ok (inl vp : valuePair + option Calculus).
Proof using.
  intros Hvs Hf.
  assert (∀ m, m = DB vs ∨ m = Table vs → ∃ l, onLevel m f = Ok l) as H.
  { intros [m|] Hm; simpl; [|eauto]. apply Hf. split; [done|]. destruct Hm as [<- | <-]; auto. }
  destruct (H (DB vs)) as [db ->]; [auto|]. destruct (H (Table vs)) as [tbl ->]; [auto|]. simpl. eauto.
Qed.

Lemma variableValues_returns vs name cm :
  vs ∈ shards vt → name ∈ VShard_Variables vs → columnOk ready name cm →
  ∃ r, variableValues rnd vs cm = Ok r ∧ (getRange cm ≠ (None, None) → ∃ vp, r = inl vp).
Proof using.
  intros Hvs Hn Hcm. destruct (getRange_shape ready name cm Hcm) as [Hb He]. unfold variableValues.
  destruct (getRange cm) as [[b|] [e|]]; simpl in *.
  - destruct (Hb b eq_refl) as (<- & Hrb & [[_ ?]|Hcb]); [done|]. destruct (He e eq_refl) as (_ & Hre & _).
    edestruct (onLevel_returns vs (λ m, computeRange rnd m b e)) as [vp ->]; [done| |eauto].
    intros m Hm. apply (computeRange_returns m vs); try done. by destruct Hcb as [-> | ->].
  - destruct (Hb b eq_refl) as (<- & Hrb & Hcb).
    edestruct (onLevel_returns vs (λ m, computeLRange rnd m b)) as [vp ->]; [done| |eauto].
    intros m Hm. apply (ranges_return m vs); try done. destruct Hcb as [[? _]|[-> | ->]]; auto.
  - destruct (He e eq_refl) as (<- & Hre & Hce).
    edestruct (onLevel_returns vs (λ m, computeRRange rnd m e)) as [vp ->]; [done| |eauto].
    intros m Hm. apply (ranges_return m vs); try done. destruct Hce as [-> | ->]; auto.
  - destruct (bool_decide _); eexists; by split.
Qed.

Lemma collectValues_returns vs gs names values :
  vs ∈ shards vt → groupsOk ready gs →
  (∀ name, name ∈ names → name ∈ VShard_Variables vs ∧ is_Some (gs !! name)) →
  ∃ r, collectValues rnd vs gs names values = Ok r ∧
    ((∀ name cm, gs !! name = Some cm → getRange cm ≠ (None, None)) → ∃ values', r = inl values').
Proof using.
  intros Hvs Hgs. revert values. induction names as [|name names IH]; intros values Hn; simpl; [eauto|].
  destruct (Hn name) as [Hv [cm Ecm]]; [by left|]. rewrite Ecm. simpl.
  destruct (variableValues_returns vs name cm Hvs Hv (Hgs _ _ Ecm)) as (r & -> & Hr). simpl.
  destruct r as [vp|ret].
  - apply IH. intros x Hx. apply Hn. by right.
  - eexists. split; [done|]. intros H. destruct (Hr (H _ _ Ecm)). done.
Qed.

(** The computers answer whenever they get one argument per variable. *)
Context (Htotal : ∀ vs m args, level vt vs m → length args = length (Variables (Computer m)) →
  ∃ i, ShardCompute (Computer m) args = Ok i).

Lemma mapM_total {X Y} (f : X → outcome Y) l : (∀ x, x ∈ l → ∃ y, f x = Ok y) → ∃ k, mapM f l = Ok k.
Proof using.
  induction l as [|x l IH]; intros H; simpl; [eauto|].
  destruct (H x) as [y ->]; [by left|]. simpl. destruct IH as [k ->]; [intros; apply H; by right|]. simpl. eauto.
Qed.

Lemma levelIndexes_returns vs m values lvl :
  vs ∈ shards vt → m = DB vs ∨ m = Table vs → ∃ l, levelIndexes m values lvl = Ok l.
Proof using Htotal.
  intros Hvs Hm. destruct m as [m|]; simpl; [|eauto]. apply mapM_total. intros next Hnext.
  rewrite CartesianProduct_product in Hnext. apply product_elem, Forall2_length in Hnext.
  rewrite length_map in Hnext.
  destruct (mapM_total NewValue_basic next) as [args Ea]; [intros x _; unfold NewValue_basic; eauto|].
  rewrite Ea. simpl. apply (Htotal vs); [split; [done|]; destruct Hm as [<- | <-]; auto|].
  apply mapM_Ok, Forall2_length in Ea. congruence.
Qed.

Abbreviation opAND := (calculusOperator_AND rnd dbFirst vt).
Abbreviation shardsOf sd := (Some (mkCalculus None (Some sd))).

Lemma addAll_returns gs xs : ∃ gs', addAll gs (map calc_Wrap xs) = Ok gs' ∧ gs' = foldl addComparative gs xs.
Proof using. revert gs. induction xs as [|x xs IH]; intros gs; simpl; [eauto|]. apply IH. Qed.

Lemma AND_returns x xs :
  Forall ready (x :: xs) →
  opAND (calc_Wrap x) (map calc_Wrap xs) = Err ErrNoShardMatched ∨
  ∃ r, opAND (calc_Wrap x) (map calc_Wrap xs) = Ok r ∧
    ((∀ name cm, foldl addComparative ∅ (x :: xs) !! name = Some cm → getRange cm ≠ (None, None)) →
      ∃ sd, r = shardsOf sd).
Proof using BL Htotal.
  intros Hr. unfold calculusOperator_AND. change (calc_Wrap x :: map calc_Wrap xs) with (map calc_Wrap (x :: xs)).
  destruct (addAll_returns ∅ (x :: xs)) as (gs & Egs & <-). rewrite Egs. cbn [mbind outcome_bind].
  assert (groupsOk ready gs) as Hok.
  { eapply addAll_ok; [| |exact Egs]; [|intros ??; by rewrite lookup_empty].
    intros y Hy z Hz. apply list_elem_of_fmap in Hy as (w & [= ->] & Hw). injection Hz as <-.
    rewrite Forall_forall in Hr. auto. }
  destruct (searchVShard vt gs) as [vs|] eqn:Evs; [right|by left].
  destruct (searchVShard_Some vt gs vs Evs) as [Hvs Hin].
  destruct (collectValues_returns vs gs (VShard_Variables vs) ∅ Hvs Hok) as (v & -> & Hv); [auto|]. simpl.
  destruct v as [values|ret]; [|eexists; split; [done|]; intros H; by destruct (Hv H)].
  destruct (levelIndexes_returns vs (DB vs) values vp_db Hvs) as [i1 ->]; [auto|].
  destruct (levelIndexes_returns vs (Table vs) values vp_tbl Hvs) as [i2 ->]; [auto|].
  cbn [waitBoth mbind outcome_bind fst snd]. rewrite CartesianProduct_product.
  destruct (addExisting_spec (topology vt) (product [i1; i2]) NewShards ∅ represents_new) as (sd & X & -> & _).
  { apply Forall_forall. intros xy Hxy%product_elem. by apply Forall2_length in Hxy. }
  simpl. case_match; eexists; (split; [done|]); intros _; eexists; done.
Qed.

(** An operator that gives a range on its own. *)
Definition ranged (op : Comparison) : bool := match op with Cne | Czero => false | _ => true end.

Lemma getRange_single x op : ranged op = true → getRange {[op := [x]]} ≠ (None, None).
Proof using. by destruct op. Qed.

Lemma AND_single_returns x : ready x → ranged (cmp_c x) = true →
  opAND (calc_Wrap x) [] = Err ErrNoShardMatched ∨ ∃ sd, opAND (calc_Wrap x) [] = Ok (shardsOf sd).
Proof using BL Htotal.
  intros Hx Hr. destruct (AND_returns x []) as [H|(r & H & Hs)]; [by constructor|by left|right].
  destruct Hs as [sd ->]; [|eauto]. intros name cm. simpl. unfold addComparative. rewrite lookup_empty.
  rewrite lookup_insert. case_decide; [|by rewrite lookup_empty]. intros [= <-]. by apply getRange_single.
Qed.

(** ** Disjunctions of conjunctions *)

Definition isAtom {T} (l : Logic T) : bool := match l with atomLogic _ => true | _ => false end.

Definition conjunction {T} (ls : list (Logic T)) : bool := negb (isEmpty ls) && forallb isAtom ls.

(** A member of a union: a comparison with a range, or a conjunction. *)
Definition conjunct (l : Logic Comparative) : bool :=
  match l with
  | atomLogic x => ranged (cmp_c x)
  | intersectionLogic ls => conjunction ls
  | _ => false
  end.

Definition disjunctive (l : Logic Comparative) : bool :=
  match l with
  | atomLogic _ => true
  | intersectionLogic ls => conjunction ls
  | unionLogic ls => negb (isEmpty ls) && forallb conjunct ls
  | _ => false
  end.

(** It answers, or reports that no virtual shard matches. *)
Definition answersOr {X} (m : outcome X) (P : X → Prop) : Prop :=
  m = Err ErrNoShardMatched ∨ ∃ r, m = Ok r ∧ P r.

Lemma answersOr_bind {X Y} (m : outcome X) (f : X → outcome Y) P Q :
  answersOr m P → (∀ x, P x → answersOr (f x) Q) → answersOr (m ≫= f) Q.
Proof using. intros [->|(r & -> & Hr)] Hf; [by left|by apply Hf]. Qed.

Lemma answersOr_mapM {X Y} (f : X → outcome Y) P l :
  (∀ x, x ∈ l → answersOr (f x) P) → answersOr (mapM f l) (Forall P).
Proof using.
  induction l as [|x l IH]; intros H; simpl; [right; eexists; split; [done|constructor]|].
  eapply answersOr_bind; [apply H; by left|]. intros y Hy.
  eapply answersOr_bind; [apply IH; intros; apply H; by right|]. intros ys Hys.
  right. eexists. split; [done|by constructor].
Qed.

(** Operands on which [OR] does not dereference nil. *)
Definition operandOk (r : option Calculus) : Prop :=
  r = None ∨ (∃ sd, r = shardsOf sd) ∨ ∃ x, r = calc_Wrap x ∧ ready x ∧ ranged (cmp_c x) = true.

Lemma atoms_of {T} (ls : list (Logic T)) : conjunction ls = true → ∃ x xs, ls = map atomLogic (x :: xs).
Proof using.
  unfold conjunction. intros [Hne Ha]%andb_true_iff.
  assert (∃ xs, ls = map atomLogic xs) as [[|x xs] ->]; [|done|eauto].
  clear Hne. induction ls as [|[|t| | |] ls IH]; simpl in Ha; try done; [by exists []|].
  destruct (IH Ha) as [xs ->]. by exists (t :: xs).
Qed.

Lemma wrapped_atoms xs : map wrapItems (map atomLogic xs) = map atomLogic (map calc_Wrap xs).
Proof using. by rewrite !map_map. Qed.

Lemma literals_atoms xs : flat_map literals (map atomLogic xs) = xs.
Proof using. induction xs as [|x xs IH]; simpl; congruence. Qed.

Lemma mapM_Eval_atoms (o : Operator (option Calculus)) ts : mapM (Eval o) (map atomLogic ts) = Ok ts.
Proof using. induction ts as [|t ts IH]; simpl; [done|]. by rewrite IH. Qed.

Lemma conjunction_answers ls :
  conjunction ls = true → Forall ready (flat_map literals ls) →
  answersOr (Eval (calculusOperator rnd dbFirst vt) (wrapItems (intersectionLogic ls)))
    (λ r, r = None ∨ ∃ sd, r = shardsOf sd).
Proof using BL Htotal.
  intros Hl Hr. destruct (atoms_of ls Hl) as (x & xs & ->). rewrite literals_atoms in Hr.
  cbn [wrapItems Eval]. rewrite wrapped_atoms, mapM_Eval_atoms. simpl.
  destruct (AND_returns x xs Hr) as [H|(r & H & _)]; [by left|right].
  exists r. split; [done|]. by eapply AND_shape.
Qed.

Lemma conjunct_answers l :
  conjunct l = true → Forall ready (literals l) →
  answersOr (Eval (calculusOperator rnd dbFirst vt) (wrapItems l)) operandOk.
Proof using BL Htotal.
  intros Hl Hr. destruct l as [|x|x|ls|ls]; try done.
  - right. eexists. split; [done|]. right. right. exists x. simpl in Hr. by rewrite Forall_singleton in Hr.
  - destruct (conjunction_answers ls Hl Hr) as [H|(r & H & Hs)]; [by left|right].
    exists r. split; [done|]. destruct Hs; [by left|by right; left].
Qed.

Lemma or_operands_answer xs sd X :
  represents sd X → Forall operandOk xs → answersOr (or_operands rnd dbFirst vt xs sd) (λ _, True).
Proof using BL Htotal.
  intros HX HF. revert sd X HX. induction HF as [|x xs Hx HF IH]; intros sd X HX; simpl; [right; eauto|].
  assert (∀ s, ∃ sd' X', ascend union_visit (bt_items s) sd = Ok sd' ∧ represents sd' X') as Hu.
  { intros s. destruct (ascend_union (bt_items s) sd X HX) as (? & ? & ?). eauto. }
  destruct Hx as [->|[[s ->]|(y & -> & Hy & Hc)]]; [right; eauto| |].
  - unfold or_operand. simpl. destruct (Hu s) as (sd' & X' & -> & HX'). simpl. eauto.
  - unfold or_operand, calc_Wrap. simpl. fold (calc_Wrap y).
    destruct (AND_single_returns y Hy Hc) as [->|[s ->]]; [by left|]. simpl.
    destruct (Hu s) as (sd' & X' & -> & HX'). simpl. eauto.
Qed.

Lemma disjunctive_answers l :
  disjunctive l = true → Forall ready (literals l) → answersOr (calc_Eval rnd dbFirst vt l) (λ _, True).
Proof using BL Htotal.
  intros Hl Hr.
  enough (answersOr (innerEval rnd dbFirst vt l) (λ _, True)) as [H|(r & H & _)];
    [unfold calc_Eval; rewrite H; by left|unfold calc_Eval; rewrite H; right; eauto|].
  unfold innerEval. destruct l as [|x|x|ls|ls]; try done.
  - simpl. simpl in Hr. rewrite Forall_singleton in Hr.
    destruct (AND_returns x []) as [H|(r & H & _)]; [by constructor|left; unfold calc_Wrap in *; simpl in *; by rewrite H|].
    right. unfold calc_Wrap in *. simpl in *. rewrite H. simpl. eauto.
  - eapply answersOr_bind; [by apply conjunction_answers|]. intros r [->|[sd ->]]; right; simpl; eauto.
  - simpl in Hl. apply andb_true_iff in Hl as [Hne Hc].
    eapply answersOr_bind with (P := λ r, r = None ∨ ∃ sd, r = shardsOf sd);
      [|intros r [->|[sd ->]]; right; simpl; eauto].
    cbn [wrapItems Eval]. eapply answersOr_bind with (P := λ vs, vs ≠ [] ∧ Forall operandOk vs).
    + destruct (answersOr_mapM (Eval (calculusOperator rnd dbFirst vt)) operandOk (map wrapItems ls))
        as [H|(vs & H & HF)]; [|by left|right].
      { intros w (l & -> & Hl)%list_elem_of_fmap. apply conjunct_answers.
        - rewrite forallb_forall_elem in Hc. auto.
        - rewrite Forall_forall in Hr |- *. intros x Hx. apply Hr. simpl.
          apply list_elem_of_In, in_flat_map. exists l. by rewrite <- !list_elem_of_In. }
      exists vs. split; [done|]. split; [|done]. intros ->. apply mapM_Ok, Forall2_length in H. by destruct ls.
    + intros [|v vs] [Hv HF]; [done|]. simpl. unfold calculusOperator_OR.
      eapply answersOr_bind; [by eapply or_operands_answer, HF; apply represents_new|].
      intros [sd|] _; right; simpl; eauto.
Qed.
End Total.

(** ** Properties *)


(** An excluded lower bound loses a residue when the column has no more
    steps than the computer's period: [computeLRange] skips the bound itself
    but still walks only [Steps] values, so no value congruent to the bound is
    left, although rows beyond the bound are congruent to it. *)
Theorem exclusive_bound_misses {TL : TimeLib} rnd m x col b :
  GetShardColumn m (cmp_key x) = Some col → ColStepper col = DefaultNumberStepper →
  cmp_c x = Cgt → Value x = Ok (Iint64 b) →
  1 ≤ Steps col → inS 64 (Steps col) → b + Steps col < 2 ^ 63 →
  ∃ l, computeLRange rnd m x = Ok l ∧ ∀ v, v ∈ l → ¬ congruent (Steps col) (Iint64 (b + Steps col)) v.
Proof.
  intros Hcol Hst Hc Hv Hn Hs Hov. pose proof (Value_int_range _ _ Hv) as Hb. unfold computeLRange.
  rewrite Hc, decide_False by done.
  rewrite (columnIter_int m x col b false Hcol Hst (MustValue_Ok _ _ Hv)). cbn [mbind outcome_bind].
  rewrite walk_list by (by apply range_wf_int64).
  destruct (walkList_include_from (elements (rnd m x) (iterInt64 b 1 (Steps col))) (bool_decide (Cgt = Cgte))) as [? ->].
  eexists. split; [done|]. simpl. intros v Hin Hcong.
  apply list_elem_of_lookup in Hin as [k Hk].
  rewrite lookup_tail in Hk. pose proof (lookup_lt_Some _ _ _ Hk) as Hlen.
  unfold elements in Hlen. rewrite length_map, length_seq in Hlen. simpl in Hlen.
  rewrite elements_int64 in Hk; [|lia|unfold inS in *; lia]. injection Hk as <-.
  destruct Hcong as [[= E]|(a & c & [= <-] & [= <-] & E)]; [lia|].
  replace (b + Steps col) with (b + 1 * Steps col) in E by lia. rewrite Z_mod_plus_full in E.
  replace (b + Z.of_nat (S k) * 1) with (Z.of_nat (S k) + b) in E by lia.
  apply (f_equal (λ z, (z - b) mod Steps col)) in E.
  rewrite !Zminus_mod_idemp_l in E. replace (b - b) with 0 in E by lia.
  replace (Z.of_nat (S k) + b - b) with (Z.of_nat (S k)) in E by lia.
  rewrite Z.mod_0_l, Z.mod_small in E by lia. lia.
Qed.

(** A disjunction with a lone [<>] on a sharding column panics: [AND] has no
    range for it and answers nil, which [OR] dereferences. *)
Theorem OR_ne_panics {B : BTree} {TL : TimeLib} {SL : SliceLib} rnd dbFirst vt vs x rest :
  cmp_c x = Cne → searchVShard vt ({[cmp_key x := tt]} : gmap string unit) = Some vs →
  VShard_Variables vs ≠ [] → Forall (λ y, isAtom y = true) rest →
  calc_Eval rnd dbFirst vt (unionLogic (atomLogic x :: rest)) = Panic.
Proof.
  intros Hc Hvs Hne Hrest.
  assert (calculusOperator_AND rnd dbFirst vt (calc_Wrap x) [] = Ok None) as Hand.
  { unfold calculusOperator_AND, calc_Wrap. simpl. unfold addComparative. rewrite lookup_empty, Hc.
    set (gs := <[cmp_key x := {[Cne := [x]]}]> ∅).
    assert (∀ name, is_Some (gs !! name) ↔ name = cmp_key x) as Hgs.
    { intros name. unfold gs. rewrite lookup_insert_is_Some', lookup_empty. split; [|by left].
      intros [->|[]%is_Some_None]; done. }
    assert (searchVShard vt gs = Some vs) as Evs.
    { rewrite <- Hvs. unfold searchVShard. f_equal. apply list_find_ext. intros w.
      rewrite !hasInputs_spec. setoid_rewrite Hgs.
      assert (∀ name, is_Some (({[cmp_key x := tt]} : gmap string unit) !! name) ↔ name = cmp_key x) as Hs
        by (intros name; rewrite lookup_singleton_is_Some; split; congruence).
      by setoid_rewrite Hs. }
    rewrite Evs. destruct (searchVShard_Some vt gs vs Evs) as [_ Hin].
    destruct (VShard_Variables vs) as [|name names]; [done|].
    specialize (Hin name ltac:(by left)). apply Hgs in Hin as ->. cbn [collectValues].
    assert (gs !! cmp_key x = Some {[Cne := [x]]}) as -> by apply lookup_insert_eq. done. }
  unfold calc_Eval, innerEval. cbn [wrapItems Eval map].
  assert (∃ ts, map wrapItems rest = map atomLogic ts) as [ts Ets].
  { clear -Hrest. induction Hrest as [|y rest Hy _ [ts IH]]; [by exists []|]. destruct y; try done.
    eexists (_ :: ts). simpl. by rewrite IH. }
  change (wrapItems (atomLogic x)) with (atomLogic (calc_Wrap x)).
  rewrite Ets. change (atomLogic (calc_Wrap x) :: map atomLogic ts) with (map atomLogic (calc_Wrap x :: ts)).
  rewrite mapM_Eval_atoms. simpl. unfold calculusOperator_OR. simpl. unfold or_operand at 1. simpl.
  fold (calc_Wrap x). by rewrite Hand.
Qed.

(** A bound on a column that only one level of a virtual shard declares
    panics: the range is computed for both levels, and the level without the
    column dereferences nil. *)
Theorem undeclared_column_panics {TL : TimeLib} rnd m x y :
  GetShardColumn m (cmp_key x) = None → cmp_c x ≠ Ceq → (∃ v, Value y = Ok v) →
  computeLRange rnd m x = Panic ∧ computeRRange rnd m x = Panic ∧ computeRange rnd m x y = Panic.
Proof.
  intros Hcol Hc [v Hv]. unfold computeLRange, computeRRange, computeRange.
  rewrite !decide_False by done. unfold columnIter. rewrite Hcol. split; [done|]. split; [done|].
  rewrite (MustValue_Ok _ _ Hv). by destruct (cmp_c y).
Qed.

(** ** Concrete instances *)
Module RoutingExamples.
Import ListTree NoDates LinearSearch.

(** A computer by remainder of one integer column. *)
Definition remainder (column : string) (n : Z) : ShardComputer :=
  mkComputer [column] (λ args, match args with
                               | [Some (int64Value i)] => Ok (i mod n)
                               | _ => Ok 0
                               end).

Definition meta (column : string) (steps n : Z) : ShardMetadata :=
  mkMetadata [mkColumn column steps DefaultNumberStepper] (remainder column n).

(** Sixteen tables of one database, by [uid]. *)
Definition users_vs (steps : Z) : VShard := mkVShard None (Some (meta "uid" steps 16)).

Definition tables : list Z := map Z.of_nat (seq 0 16).

Definition users (steps : Z) : VTable :=
  mkVTable (mkAttributes ∅) "users" None (SetTopology (mkTopology None None ∅) 0 tables) [users_vs steps].

Definition norand : ShardMetadata → Comparative → nat → Z := λ _ _ _, 0.

Definition period16 : string → Z := λ _, 16.

Definition row21 : string → iface := λ _, Iint64 21.

Definition uid (op : Comparison) (n : Z) : Logic Comparative := atomLogic (NewInt64 "uid" op n).

Lemma remainder_periodic column n : (∀ x, period16 x = n) → periodic period16 (remainder column n).
Proof.
  intros Hn xs ys H. simpl in H. inversion H as [|? x y ? xs' ys' Hxy H']; subst. inversion H'; subst.
  destruct Hxy as [->|(a & b & -> & -> & E)]; [done|]. unfold computeOn. simpl. by rewrite <- (Hn column), E.
Qed.

Lemma users_level steps vs m : level (users steps) vs m → vs = users_vs steps ∧ m = meta "uid" steps 16.
Proof.
  intros [Hvs Hm]. apply list_elem_of_singleton in Hvs as ->. split; [done|].
  destruct Hm as [Hm|Hm]; [done|]. by injection Hm.
Qed.

Lemma users_routable steps : routable (users steps) period16 row21 0 5.
Proof.
  split.
  - intros vs Hvs. apply list_elem_of_singleton in Hvs as ->. by vm_compute.
  - intros vs m [-> ->]%users_level. by apply remainder_periodic.
  - intros vs m args [-> ->]%users_level e. simpl. by repeat case_match.
  - by vm_compute.
Qed.

Lemma uid_ready op n : inS 64 n → ready (users 17) (NewInt64 "uid" op n).
Proof.
  intros Hn. assert (Value (NewInt64 "uid" op n) = Ok (Iint64 n)) as E.
  { unfold Value. simpl. by rewrite ParseInt_FormatInt. }
  split; [eauto|]. intros _ vs m [-> ->]%users_level _. split; [eauto|].
  eexists. split; [done|]. split; [done|]. simpl. unfold inS. lia.
Qed.

Lemma uid_supported op n : inS 64 n → supported (users 17) period16 row21 (NewInt64 "uid" op n).
Proof.
  intros Hn. assert (Value (NewInt64 "uid" op n) = Ok (Iint64 n)) as E.
  { unfold Value. simpl. by rewrite ParseInt_FormatInt. }
  split; [unfold typed; rewrite E; unfold row21, inS; lia|].
  intros _ vs m [-> ->]%users_level _. split; [eauto|].
  eexists. split; [done|]. split; [done|]. unfold period16. simpl. unfold inS. destruct op; simpl; lia.
Qed.

(** [uid > 5 AND uid <= 40, or uid = 3]. *)
Definition formula : Logic Comparative :=
  unionLogic [intersectionLogic [uid Cgt 5; uid Clte 40]; uid Ceq 3].

Lemma formula_literals (P : Comparative → Prop) :
  (∀ op n, inS 64 n → P (NewInt64 "uid" op n)) → Forall P (literals formula).
Proof. intros H. repeat constructor; apply H; unfold inS; lia. Qed.


Lemma insert_then_select_witness :
  match calc_Eval norand true (users 17) formula with
  | Ok (Some sd) => (0, 5) ∈ pairs sd
  | _ => False
  end.
Proof.
  destruct (calc_Eval norand true (users 17) formula) as [[sd|]| | |] eqn:E; [|by vm_compute in E..].
  apply (insert_then_select (BL := ListTree.laws) norand true (users 17) (users_vs 17) period16 row21
    {["uid" := Some (int64Value 21)]} 0 5 formula sd).
  - done.
  - intros vs x Hvs Hx. apply list_elem_of_singleton in Hvs as ->. apply list_elem_of_singleton in Hx as ->.
    eexists. split; [done|]. by vm_compute.
  - by vm_compute.
  - intros m [_ ->]%users_level. split; [by apply remainder_periodic|]. intros args e. simpl. by repeat case_match.
  - intros db tb _ _ H. destruct (H (users_vs 17)) as [E1 E2]; [by left|].
    vm_compute in E1, E2. injection E1 as <-. injection E2 as <-. by vm_compute.
  - apply formula_literals. exact uid_supported.
  - done.
  - exact E.
  - by vm_compute.
Defined.


(** With as many steps as the period, [uid > 5] does not reach the table of the
    row whose [uid] is 21. *)
Lemma exclusive_bound_misses_witness :
  holds row21 (NewInt64 "uid" Cgt 5) = true ∧
  match calc_Eval norand true (users 16) (uid Cgt 5) with
  | Ok (Some sd) => bool_decide ((0, 5) ∈ pairs sd) = false
  | _ => False
  end ∧
  ∃ l, computeLRange norand (meta "uid" 16 16) (NewInt64 "uid" Cgt 5) = Ok l ∧
    ∀ v, v ∈ l → ¬ congruent 16 (Iint64 21) v.
Proof.
  split; [by vm_compute|]. split; [by vm_compute|].
  exact (exclusive_bound_misses norand (meta "uid" 16 16) (NewInt64 "uid" Cgt 5)
    (mkColumn "uid" 16 DefaultNumberStepper) 5 eq_refl eq_refl eq_refl eq_refl
    ltac:(simpl; lia) ltac:(unfold inS; simpl; lia) ltac:(simpl; lia)).
Defined.

Lemma OR_ne_panics_witness :
  calc_Eval norand true (users 17) (unionLogic [uid Cne 1; uid Ceq 2]) = Panic.
Proof.
  apply (OR_ne_panics norand true (users 17) (users_vs 17) (NewInt64 "uid" Cne 1) [uid Ceq 2]);
    [done|by vm_compute|done|by repeat constructor].
Defined.

(** Databases by [uid], tables by [name]: [uid > 3 AND name = 'x'] panics. *)
Definition mixed : VTable :=
  mkVTable (mkAttributes ∅) "mixed" None (SetTopology (mkTopology None None ∅) 0 [0])
    [mkVShard (Some (meta "uid" 17 16)) (Some (meta "name" 17 16))].

Lemma undeclared_column_panics_witness :
  computeLRange norand (meta "name" 17 16) (NewInt64 "uid" Cgt 3) = Panic ∧
  calc_Eval norand true mixed (intersectionLogic [uid Cgt 3; atomLogic (NewString "name" Ceq "x")]) = Panic.
Proof.
  split; [|by vm_compute].
  exact (proj1 (undeclared_column_panics norand (meta "name" 17 16) (NewInt64 "uid" Cgt 3)
    (NewInt64 "uid" Clt 9) eq_refl ltac:(done) ltac:(eexists; vm_compute; reflexivity))).
Defined.
End RoutingExamples.
