(* ===== verification/Visitor.v ===== *)
(** * From a WHERE clause to shards: [pkg/runtime/optimize/shard_visitor.go]

    [ShardVisitor] turns a WHERE clause into a formula of comparisons, has it
    evaluated and renders the shards.  The formula's items are calculi that
    hold one comparison each, so a formula of comparisons stands for it until
    [calc.Eval].  A returned nil interface is [nilLogic]; asserting it to be a
    [Calculus] panics. *)
From S2P Require Import Prelude BTree Logic GoStd Value Cmp Ast ExtValue Shards Range Topology DatabaseTable Rule Calc.

Section Visitor.
Context {B : BTree} {TL : TimeLib} {FT : FloatText} {D : DecimalLib} {O : Opcodes} {SL : SliceLib}.
Context (warehouse : gmap string Func) (serverVersion : option string) (args : list (option ProtoValue)).

Abbreviation formula := (Logic Comparative).
Abbreviation compute := (extvalue_Compute warehouse serverVersion args).

Definition alwaysTrue : formula := True_.
Definition alwaysFalse : formula := False_.

(** [newCmp]; the nil value has no [Family]. *)
Definition newCmp (key : string) (comparison : Comparison) (v : option ProtoValue) : outcome Comparative :=
  match v with
  | None => Panic
  | Some v =>
      match Family v with
      | ValueFamilyString => Ok (NewString key comparison (Value_String v))
      | ValueFamilySign | ValueFamilyUnsigned | ValueFamilyFloat | ValueFamilyDecimal =>
          i ← Int64 v; Ok (NewInt64 key comparison i)
      | ValueFamilyBool =>
          b ← Bool v; Ok (NewInt64 key comparison (if (b : bool) then 1 else 0))
      | ValueFamilyTime =>
          t ← WithStack (Value_Time v); Ok (NewDate key comparison t)
      | _ => Ok (NewString key comparison (Value_String v))
      end
  end.

(** A computed operand; one that is no value makes the condition true. *)
Definition withValue (n : node) (k : option ProtoValue → outcome formula) : outcome formula :=
  match compute n with
  | Ok v => k v
  | Err e => if IsErrNotSupportedValue e then Ok alwaysTrue else Err (WrapError e)
  | Panic => Panic
  | OutOfFuel => OutOfFuel
  end.

(** [calc.Wrap(newCmp(key.Suffix(), op, v))]. *)
Definition wrapCmp (column : list string) (op : Comparison) (v : option ProtoValue) : outcome formula :=
  key ← Suffix column; c ← newCmp key op v; Ok (atomLogic c).

Definition VisitPredicateBetween (not : bool) (key lhs rhs : PredicateNode) : outcome formula :=
  a ← atomOf key;
  column ← columnOf a;
  l ← compute (nodeP lhs);
  r ← compute (nodeP rhs);
  if not then
    k1 ← wrapCmp column Clt l;
    k2 ← wrapCmp column Cgt r;
    OR k1 k2
  else
    k1 ← wrapCmp column Cgte l;
    k2 ← wrapCmp column Clte r;
    AND k1 k2.

(** [v, _ := Compute(...)]. *)
Definition computeOrNil (n : node) : outcome (option ProtoValue) :=
  match compute n with Err _ => Ok None | r => r end.

(** [x, err := v.Decimal(); if err == nil { x = decimal.Zero }]. *)
Definition zeroUnlessError (v : ProtoValue) : outcome decimal :=
  match Decimal v with
  | Ok _ => Ok dec_Zero
  | Err _ => Ok dec_Invalid
  | Panic => Panic
  | OutOfFuel => OutOfFuel
  end.

(** A comparison of two operands that are no columns. *)
Definition constantComparison (lhs rhs : PredicateNode) (op : Comparison) : outcome formula :=
  l ← computeOrNil (nodeP lhs);
  r ← computeOrNil (nodeP rhs);
  match l, r with
  | Some l, Some r =>
      c ← (if bool_decide (Family l = ValueFamilyString) && bool_decide (Family r = ValueFamilyString)
           then Ok (strings_Compare (Value_String l) (Value_String r))
           else
             x ← zeroUnlessError l;
             y ← zeroUnlessError r;
             Ok (if dec_GreaterThan x y then 1 else if dec_LessThan x y then -1 else 0));
      Ok (if default false (compareTruth op c) then alwaysTrue else alwaysFalse)
  | _, _ => Ok alwaysTrue
  end.

Definition VisitPredicateBinaryComparison (lhs rhs : PredicateNode) (op : Comparison) : outcome formula :=
  a ← atomOf lhs;
  match a with
  | ColumnNameExpressionAtom column => withValue (nodeP rhs) (wrapCmp column op)
  | _ =>
      b ← atomOf rhs;
      match b with
      | ColumnNameExpressionAtom column => withValue (nodeP lhs) (wrapCmp column op)
      | _ => constantComparison lhs rhs op
      end
  end.

Fixpoint inLoop (not : bool) (column : list string) (e : list ExpressionNode) (ret : formula) : outcome formula :=
  match e with
  | [] => Ok ret
  | ei :: e =>
      withValue (nodeE ei) (λ v,
        ke ← wrapCmp column (if not then Cne else Ceq) v;
        ret ← match ret with
              | nilLogic => Ok ke
              | _ => if not then AND ret ke else OR ret ke
              end;
        inLoop not column e ret)
  end.

Definition VisitPredicateIn (not : bool) (p : PredicateNode) (e : list ExpressionNode) : outcome formula :=
  a ← atomOf p;
  column ← columnOf a;
  inLoop not column e nilLogic.

(** [strings.ContainsAny(s, "%_")]. *)
Fixpoint hasWildcard (s : string) : bool :=
  match s with
  | EmptyString => false
  | String c s => (c =? "%")%char || (c =? "_")%char || hasWildcard s
  end.

(** The operand [Not] of the node is not looked at. *)
Definition VisitPredicateLike (lhs rhs : PredicateNode) : outcome formula :=
  a ← atomOf lhs;
  column ← columnOf a;
  withValue (nodeP rhs) (λ like,
    match like with
    | None => Ok alwaysTrue
    | Some v => if hasWildcard (Value_String v) then Ok alwaysTrue else wrapCmp column Ceq like
    end).

Definition fromConstant (val : option ProtoValue) : outcome formula :=
  match val with
  | None => Ok alwaysFalse
  | Some v =>
      match Bool v with
      | Ok false => Ok alwaysFalse
      | Panic => Panic
      | OutOfFuel => OutOfFuel
      | _ => Ok alwaysTrue
      end
  end.

Definition fromValueNode (a : ExpressionAtom) : outcome formula := withValue (nodeA a) fromConstant.

(** The assertion [x.(Calculus)]. *)
Definition asCalculus (l : formula) : outcome formula :=
  match l with nilLogic => Panic | _ => Ok l end.

(** [Accept(sd)]. *)
Fixpoint visitE (e : ExpressionNode) : outcome formula :=
  match e with
  | LogicalExpressionNode or lhs rhs =>
      left_ ← WithStack (visitE lhs);
      right_ ← WithStack (visitE rhs);
      ll ← asCalculus left_;
      lr ← asCalculus right_;
      if or then OR ll lr else AND ll lr
  | NotExpressionNode e =>
      ret ← WithStack (visitE e);
      l ← asCalculus ret;
      NOT l
  | PredicateExpressionNode p => visitP p
  end
with visitP (p : PredicateNode) : outcome formula :=
  match p with
  | LikePredicateNode _ lhs rhs => VisitPredicateLike lhs rhs
  | RegexpPredicationNode _ _ _ => Ok alwaysTrue
  | BinaryComparisonPredicateNode lhs rhs op => VisitPredicateBinaryComparison lhs rhs op
  | AtomPredicateNode a => visitA a
  | BetweenPredicateNode not key lhs rhs => VisitPredicateBetween not key lhs rhs
  | InPredicateNode not p e => VisitPredicateIn not p e
  end
with visitA (a : ExpressionAtom) : outcome formula :=
  match a with
  | ColumnNameExpressionAtom _ | SystemVariableExpressionAtom _ _ _ | IntervalExpressionAtom _ _ => Ok alwaysTrue
  | ConstantExpressionAtom inner => v ← WithStack (NewValue inner); WithStack (fromConstant v)
  | FunctionCallExpressionAtom _ | UnaryExpressionAtom _ _ | MathExpressionAtom _ _ _ => fromValueNode a
  | NestedExpressionAtom first => visitE first
  | VariableExpressionAtom n => v ← argument args n; fromConstant v
  end.

(** ** The statement *)
Context (rnd : ShardMetadata → Comparative → nat → Z) (dbFirst : bool).

(** The results of the visitor: tables with their shards, nil for all. *)
Abbreviation results := (list (list string * option Shards)).

Definition ForSingleSelect (ru : Rule) (rs : results) (table : list string) (where_ : option ExpressionNode)
  : outcome results :=
  name ← Suffix table;
  match Rule_VTable ru name with
  | None => shards ← Add NewShards 0 0 []; Ok (rs ++ [(table, Some shards)])
  | Some vtab =>
      match where_ with
      | None => Ok (rs ++ [(table, None)])
      | Some e =>
          l ← WithStack (visitE e);
          l ← asCalculus l;
          shards ← WithStack (calc_Eval rnd dbFirst vtab l);
          Ok (rs ++ [(table, shards)])
      end
  end.

(** A source of FROM: a table, or something else. *)
Definition VisitSelectStatement (ru : Rule) (rs : results) (from : list (option (list string)))
  (where_ : option ExpressionNode) : outcome results :=
  match from with
  | [] => Ok rs
  | [Some table] => ForSingleSelect ru rs table where_
  | _ => Panic
  end.

(** The callback of [SimpleShard]: the rendered names, or the first failure. *)
Definition render_visit (vt : option VTable) (st : DatabaseTables * bool) (db tb : Z)
  : outcome ((DatabaseTables * bool) * bool) :=
  match vt with
  | None => Panic
  | Some vt =>
      let '(dbs, tbs, ok) := Render (topology vt) db tb in
      if ok then Ok ((append_table dbs tbs (fst st), true), true) else Ok ((fst st, false), false)
  end.

Fixpoint renderAll (vt : option VTable) (name : string) (rs : results) (shards : option DatabaseTables)
  : outcome (option DatabaseTables) :=
  match rs with
  | [] => Ok shards
  | (table, r) :: rs =>
      suffix ← Suffix table;
      if (suffix =? name)%string then
        match r with
        | None => renderAll vt name rs shards
        | Some _ =>
            st ← Each (render_visit vt) r (∅, true);
            if snd st : bool then renderAll vt name rs (Some (fst st))
            else Err (NewError "cannot render table")
        end
      else renderAll vt name rs shards
  end.

Definition SimpleShard (ru : Rule) (rs : results) (table : list string) (where_ : option ExpressionNode)
  : outcome (results * option DatabaseTables) :=
  rs ← WithStack (ForSingleSelect ru rs table where_);
  name ← Suffix table;
  shards ← renderAll (Rule_VTable ru name) name rs None;
  Ok (rs, shards).
End Visitor.
