(* ===== verification/VisitorTheory.v ===== *)
(** * What a WHERE clause is routed to

    The truth of a WHERE clause on a row is defined here, apart from the
    visitor.  On the clauses the visitor translates well, the shards it answers
    contain the row of every row the clause selects; each condition on the
    clause is needed, as the counterexamples show. *)
From S2P Require Import Prelude BTree Logic LogicTheory LogicNormal GoStd Value Cmp Ast ExtValue Shards Range Topology DatabaseTable Rule Calc CalcTheory Routing RoutingTotal Visitor.

(** ** Truth *)

(** The column value a literal stands for. *)
Inductive denotes {D : DecimalLib} : ProtoValue → iface → Prop :=
| denotes_integer v n : stands v n → inS 64 n → denotes v (Iint64 n)
| denotes_text s : denotes (stringValue s) (Istring s).

(** [5 < x] is [x > 5]. *)
Definition flip (op : Comparison) : Comparison :=
  match op with Cgt => Clt | Cgte => Clte | Clt => Cgt | Clte => Cgte | op => op end.

Section Truth.
Context {TL : TimeLib} {FT : FloatText} {D : DecimalLib} {O : Opcodes}.
Context (warehouse : gmap string Func) (serverVersion : option string) (args : list (option ProtoValue)).

(** One row, and the truth on it of what this reading does not interpret:
    patterns, system variables, literals that are no value of the column. *)
Context (row : string → iface) (opaque : node → Prop).

Abbreviation compute := (extvalue_Compute warehouse serverVersion args).

(** The column compared with a computed operand of the predicate [p]; a
    comparison with NULL is not true. *)
Definition compares (p : PredicateNode) (column : list string) (op : Comparison) (v : option ProtoValue) : Prop :=
  match v with
  | None => False
  | Some w =>
      (∃ key x, Suffix column = Ok key ∧ denotes w x ∧ answers op (compareValue (row key) x) = true) ∨
      (∀ x, ¬ denotes w x) ∧ opaque (nodeP p)
  end.

(** A predicate with one computed operand. *)
Definition operandOf (p : PredicateNode) (n : node) (P : option ProtoValue → Prop) : Prop :=
  match compute n with
  | Ok v => P v
  | _ => opaque (nodeP p)
  end.

Definition likeTruth (p : PredicateNode) (not : bool) (column : list string) (v : option ProtoValue) : Prop :=
  match v with
  | None => False
  | Some w =>
      if hasWildcard (Value_String w) then opaque (nodeP p)
      else if not then ¬ compares p column Ceq v else compares p column Ceq v
  end.

Definition constantTruth (p lhs rhs : PredicateNode) (op : Comparison) : Prop :=
  match computeOrNil warehouse serverVersion args (nodeP lhs), computeOrNil warehouse serverVersion args (nodeP rhs) with
  | Ok (Some l), Ok (Some r) => ∃ c, compareConstants l r = Ok c ∧ compareTruth op c = Some true
  | _, _ => opaque (nodeP p)
  end.

Definition binaryTruth (p lhs rhs : PredicateNode) (op : Comparison) : Prop :=
  match lhs, rhs with
  | AtomPredicateNode (ColumnNameExpressionAtom c), _ => operandOf p (nodeP rhs) (compares p c op)
  | _, AtomPredicateNode (ColumnNameExpressionAtom c) => operandOf p (nodeP lhs) (compares p c (flip op))
  | _, _ => constantTruth p lhs rhs op
  end.

Definition betweenTruth (p : PredicateNode) (not : bool) (column : list string) (l r : option ProtoValue) : Prop :=
  if not then compares p column Clt l ∨ compares p column Cgt r
  else compares p column Cgte l ∧ compares p column Clte r.

Definition inTruth (p : PredicateNode) (not : bool) (column : list string) (vs : list (option ProtoValue)) : Prop :=
  if not then ∀ v, v ∈ vs → compares p column Cne v else ∃ v, v ∈ vs ∧ compares p column Ceq v.

(** The truth of a constant operand: not NULL and not a false value. *)
Definition constantAtom (a : ExpressionAtom) : Prop :=
  match compute (nodeA a) with
  | Ok None => False
  | Ok (Some v) => Bool v ≠ Ok false
  | _ => opaque (nodeA a)
  end.

Fixpoint selectsE (e : ExpressionNode) : Prop :=
  match e with
  | LogicalExpressionNode true lhs rhs => selectsE lhs ∨ selectsE rhs
  | LogicalExpressionNode false lhs rhs => selectsE lhs ∧ selectsE rhs
  | NotExpressionNode e => ¬ selectsE e
  | PredicateExpressionNode p => selectsP p
  end
with selectsP (p : PredicateNode) : Prop :=
  match p with
  | LikePredicateNode not (AtomPredicateNode (ColumnNameExpressionAtom c)) rhs =>
      operandOf p (nodeP rhs) (likeTruth p not c)
  | BinaryComparisonPredicateNode lhs rhs op => binaryTruth p lhs rhs op
  | AtomPredicateNode a => selectsA a
  | BetweenPredicateNode not (AtomPredicateNode (ColumnNameExpressionAtom c)) lhs rhs =>
      operandOf p (nodeP lhs) (λ l, operandOf p (nodeP rhs) (betweenTruth p not c l))
  | InPredicateNode not (AtomPredicateNode (ColumnNameExpressionAtom c)) e =>
      match mapM (λ ei, compute (nodeE ei)) e with
      | Ok vs => inTruth p not c vs
      | _ => opaque (nodeP p)
      end
  | _ => opaque (nodeP p)
  end
with selectsA (a : ExpressionAtom) : Prop :=
  match a with
  | NestedExpressionAtom first => selectsE first
  | ColumnNameExpressionAtom _ | SystemVariableExpressionAtom _ _ _ | IntervalExpressionAtom _ _ => opaque (nodeA a)
  | _ => constantAtom a
  end.

(** ** Clauses the visitor translates *)

(** A literal that is a value of a column. *)
Definition representable (v : option ProtoValue) : Prop :=
  match v with None => True | Some w => ∃ x, denotes w x end.

Definition operandReady (n : node) : Prop := ∀ v, compute n = Ok v → representable v.

(** Texts are compared as such; any other pair of constants is compared as
    zero with zero, which is harmless for the operators that are true then. *)
Definition constantReady (lhs rhs : PredicateNode) (op : Comparison) : Prop :=
  op = Ceq ∨ op = Cgte ∨ op = Clte ∨
  ∀ l r, computeOrNil warehouse serverVersion args (nodeP lhs) = Ok (Some l) →
    computeOrNil warehouse serverVersion args (nodeP rhs) = Ok (Some r) →
    Family l = ValueFamilyString ∧ Family r = ValueFamilyString.

Definition binaryReady (lhs rhs : PredicateNode) (op : Comparison) : Prop :=
  match lhs, rhs with
  | AtomPredicateNode (ColumnNameExpressionAtom _), _ => operandReady (nodeP rhs)
  | _, AtomPredicateNode (ColumnNameExpressionAtom _) => operandReady (nodeP lhs) ∧ flip op = op
  | _, _ => constantReady lhs rhs op
  end.

Fixpoint readyE (e : ExpressionNode) : Prop :=
  match e with
  | LogicalExpressionNode _ lhs rhs => readyE lhs ∧ readyE rhs
  | NotExpressionNode e => False
  | PredicateExpressionNode p => readyP p
  end
with readyP (p : PredicateNode) : Prop :=
  match p with
  | LikePredicateNode not _ rhs => not = false ∧ operandReady (nodeP rhs)
  | RegexpPredicationNode _ _ _ => True
  | BinaryComparisonPredicateNode lhs rhs op => binaryReady lhs rhs op
  | AtomPredicateNode a => readyA a
  | BetweenPredicateNode _ _ lhs rhs => operandReady (nodeP lhs) ∧ operandReady (nodeP rhs)
  | InPredicateNode _ _ e => ∀ ei, ei ∈ e → operandReady (nodeE ei)
  end
with readyA (a : ExpressionAtom) : Prop :=
  match a with
  | NestedExpressionAtom first => readyE first
  | _ => True
  end.

(** The comparisons of a clause. *)
Definition comparison (column : list string) (op : Comparison) (v : outcome (option ProtoValue)) : list Comparative :=
  match (key ← Suffix column; v ← v; newCmp key op v) with Ok c => [c] | _ => [] end.

Definition binaryComparatives (lhs rhs : PredicateNode) (op : Comparison) : list Comparative :=
  match lhs, rhs with
  | AtomPredicateNode (ColumnNameExpressionAtom c), _ => comparison c op (compute (nodeP rhs))
  | _, AtomPredicateNode (ColumnNameExpressionAtom c) => comparison c op (compute (nodeP lhs))
  | _, _ => []
  end.

Fixpoint comparativesE (e : ExpressionNode) : list Comparative :=
  match e with
  | LogicalExpressionNode _ lhs rhs => comparativesE lhs ++ comparativesE rhs
  | NotExpressionNode e => comparativesE e
  | PredicateExpressionNode p => comparativesP p
  end
with comparativesP (p : PredicateNode) : list Comparative :=
  match p with
  | LikePredicateNode _ (AtomPredicateNode (ColumnNameExpressionAtom c)) rhs =>
      comparison c Ceq (compute (nodeP rhs))
  | BinaryComparisonPredicateNode lhs rhs op => binaryComparatives lhs rhs op
  | AtomPredicateNode a => comparativesA a
  | BetweenPredicateNode not (AtomPredicateNode (ColumnNameExpressionAtom c)) lhs rhs =>
      comparison c (if not then Clt else Cgte) (compute (nodeP lhs)) ++
      comparison c (if not then Cgt else Clte) (compute (nodeP rhs))
  | InPredicateNode not (AtomPredicateNode (ColumnNameExpressionAtom c)) e =>
      flat_map (λ ei, comparison c (if not then Cne else Ceq) (compute (nodeE ei))) e
  | _ => []
  end
with comparativesA (a : ExpressionAtom) : list Comparative :=
  match a with
  | NestedExpressionAtom first => comparativesE first
  | _ => []
  end.
End Truth.

(** ** The translation *)
Section Translation.
Context {B : BTree} {BL : BTreeLaws B} {TL : TimeLib} {FT : FloatText} {D : DecimalLib} {DL : DecimalLaws D} {O : Opcodes}.
Context (warehouse : gmap string Func) (serverVersion : option string) (args : list (option ProtoValue)).
Context (row : string → iface) (opaque : node → Prop).

Abbreviation compute := (extvalue_Compute warehouse serverVersion args).
Abbreviation compares := (compares row opaque).

(** A literal that denotes a column value becomes a comparison with it. *)
Lemma newCmp_value key op w x :
  denotes w x → ∃ c, newCmp key op (Some w) = Ok c ∧ Value c = Ok x ∧ cmp_key c = key ∧ cmp_c c = op.
Proof using DL.
  assert (∀ n, inS 64 n → Value (NewInt64 key op n) = Ok (Iint64 n)) as Hint.
  { intros n Hn. unfold Value. simpl. by rewrite ParseInt_FormatInt. }
  intros [v n [(d & -> & Hd)|Hi] Hn|s].
  - exists (NewInt64 key op n). simpl. rewrite (dec_IntPart_int d n) by done. auto.
  - exists (NewInt64 key op n). split; [|auto].
    destruct v as [i|u| | |b| | |]; simpl in *; try done; repeat case_match; simplify_eq; try done.
    by rewrite wrapS_id.
  - by exists (NewString key op s).
Qed.

(** The comparisons of the clause; each has the type of its column. *)
Context (lits : list Comparative) (Htyped : ∀ x, x ∈ lits → typed row x).

Definition listedIn (x : Comparative) : bool := bool_decide (x ∈ lits).

Lemma comparison_index_inj c1 c2 : comparison_index c1 = comparison_index c2 → c1 = c2.
Proof using. by destruct c1, c2. Qed.

(** Comparisons the formulas take for equal are true on the same rows. *)
Lemma holds_equal a b :
  listedIn a = true → listedIn b = true → item_Compare a b = 0 → holds row a = holds row b.
Proof using Htyped.
  unfold listedIn. rewrite !bool_decide_eq_true. intros Ha%Htyped Hb%Htyped H.
  change (innerCompareComparative a b false = 0) in H. unfold innerCompareComparative in H.
  destruct (Z.eqb_spec (strings_Compare (cmp_key a) (cmp_key b)) 0) as [Hk|]; simpl in H; [|lia].
  destruct (Z.ltb_spec (comparison_index (cmp_c a)) (comparison_index (cmp_c b))); [lia|].
  rewrite Z.gtb_ltb in H. destruct (Z.ltb_spec (comparison_index (cmp_c b)) (comparison_index (cmp_c a))); [lia|].
  apply strings_Compare_eq in Hk. assert (cmp_c a = cmp_c b) as Hc by (apply comparison_index_inj; lia).
  destruct (typed_value row a Ha) as (v & Ev & _), (typed_value row b Hb) as (w & Ew & _).
  change (compareComparativeValue a b = 0) in H.
  rewrite (compareComparativeValue_value row a b v w) in H by done.
  assert (v = w) as <-.
  { unfold typed in Ha, Hb. rewrite Ev in Ha. rewrite Ew, <- Hk in Hb.
    destruct v, w; try done; destruct (row (cmp_key a)); try done; simpl in H.
    - by apply compareZ_eq in H as ->.
    - by apply strings_Compare_eq in H as ->.
    - by apply compareZ_eq in H as ->. }
  unfold holds. by rewrite Ev, Ew, Hk, Hc.
Qed.

(** The formula is made of the comparisons of the clause and true when [P] is. *)
Definition translates (P : Prop) (l : Logic Comparative) : Prop :=
  normal l ∧ positiveIn listedIn l = true ∧ (P → sat (holds row) l = true).

Lemma translates_True P : translates P True_.
Proof using. split; [unfold normal; auto|]. split; done. Qed.

Lemma translates_False (P : Prop) : ¬ P → translates P False_.
Proof using. intros HP. split; [unfold normal; auto|]. split; done. Qed.

Lemma translates_OR P Q a b r : translates P a → translates Q b → OR a b = Ok r → translates (P ∨ Q) r.
Proof using BL Htyped.
  intros (Na & Pa & Sa) (Nb & Pb & Sb) H.
  destruct (OR_meaning listedIn (holds row) holds_equal a b r Pa Pb H) as (Hp & Hs & _).
  split; [by eapply (OR_normal a b)|]. split; [done|]. rewrite Hs.
  intros [HP|HQ]; [by rewrite Sa|rewrite Sb by done; apply orb_true_r].
Qed.

Lemma translates_AND P Q a b r : translates P a → translates Q b → AND a b = Ok r → translates (P ∧ Q) r.
Proof using BL Htyped.
  intros (Na & Pa & Sa) (Nb & Pb & Sb) H.
  destruct (AND_fuel_meaning listedIn (holds row) holds_equal _ a b r Pa Pb H) as (Hp & Hs & _).
  split; [by eapply (AND_fuel_normal _ a b)|]. split; [done|].
  intros [HP HQ]. apply Hs. by rewrite Sa, Sb.
Qed.

Lemma translates_weaken (P Q : Prop) l : (Q → P) → translates P l → translates Q l.
Proof using. intros HQ (H1 & H2 & H3). split; [done|]. split; auto. Qed.

(** One comparison. *)
Lemma wrapCmp_translates p column op v l :
  representable v → (∀ c, c ∈ comparison column op (Ok v) → c ∈ lits) →
  wrapCmp column op v = Ok l → translates (compares p column op v) l.
Proof using DL.
  intros Hv Hc H. unfold wrapCmp, comparison in *. destruct (Suffix column) as [key| | |] eqn:Ek; try done.
  simpl in *. apply bind_Ok_inv in H as (c & Hn & H). injection H as <-. rewrite Hn in Hc.
  split; [by left|]. split; [simpl; apply bool_decide_eq_true, Hc; by left|].
  destruct v as [w|]; [|done]. destruct Hv as [x Hx].
  destruct (newCmp_value key op w x Hx) as (c' & Hn' & Hval & Hkey & Hop).
  rewrite Hn in Hn'. injection Hn' as <-. simpl. unfold holds. rewrite Hval, Hkey, Hop.
  intros [(key' & x' & Ek' & Hx' & Ha)|[Hno _]]; [|by destruct (Hno x)].
  rewrite Ek in Ek'. injection Ek' as <-.
  enough (x' = x) as -> by done.
  destruct (newCmp_value key op w x' Hx') as (c' & Hn' & Hval' & _). congruence.
Qed.

Lemma withValue_translates n k P l :
  (∀ v, compute n = Ok v → k v = Ok l → translates P l) → withValue warehouse serverVersion args n k = Ok l → translates P l.
Proof using.
  unfold withValue. intros Hk H. destruct (compute n) as [v|e| |] eqn:E; try done.
  - by apply (Hk v).
  - destruct (IsErrNotSupportedValue e); [|done]. injection H as <-. apply translates_True.
Qed.

Lemma zeroUnlessError_zero v x : zeroUnlessError v = Ok x → dec_int x 0.
Proof using DL.
  unfold zeroUnlessError. destruct (Decimal v); intros [= <-].
  - apply dec_NewFromInt_int. unfold inS. lia.
  - apply dec_Invalid_int.
Qed.

Lemma constantComparison_translates p lhs rhs op l :
  constantReady warehouse serverVersion args lhs rhs op →
  constantComparison warehouse serverVersion args lhs rhs op = Ok l →
  translates (constantTruth warehouse serverVersion args opaque p lhs rhs op) l.
Proof using DL.
  unfold constantReady, constantComparison, constantTruth. intros Hr H.
  apply bind_Ok_inv in H as (lv & El & H). apply bind_Ok_inv in H as (rv & Er & H). rewrite El, Er.
  destruct lv as [lv|]; [|injection H as <-; apply translates_True].
  destruct rv as [rv|]; [|injection H as <-; apply translates_True].
  apply bind_Ok_inv in H as (c & Hc & H). injection H as <-. unfold compareConstants.
  destruct (bool_decide (Family lv = _) && bool_decide (Family rv = _)) eqn:Es.
  - destruct (compareTruth op c) as [[]|] eqn:Et; [apply translates_True|..]; apply translates_False;
      intros (c' & Hc' & Ht); congruence.
  - apply bind_Ok_inv in Hc as (x & Hx%zeroUnlessError_zero & Hc).
    apply bind_Ok_inv in Hc as (y & Hy%zeroUnlessError_zero & Hc). injection Hc as <-.
    rewrite (dec_GreaterThan_int x y 0 0), (dec_LessThan_int x y 0 0) by done. simpl.
    destruct Hr as [->|[->|[->|Hr]]]; [apply translates_True..|].
    destruct (Hr lv rv El Er) as [E1 E2]. by rewrite !bool_decide_eq_true_2 in Es.
Qed.

Lemma operand_translates p column op n l :
  operandReady warehouse serverVersion args n → (∀ c, c ∈ comparison column op (compute n) → c ∈ lits) →
  withValue warehouse serverVersion args n (wrapCmp column op) = Ok l →
  translates (operandOf warehouse serverVersion args opaque p n (compares p column op)) l.
Proof using DL.
  intros Hr Hc. apply withValue_translates. intros v Hv H. unfold operandOf. rewrite Hv in *.
  apply wrapCmp_translates; auto.
Qed.

Lemma binary_translates p lhs rhs op l :
  binaryReady warehouse serverVersion args lhs rhs op →
  (∀ c, c ∈ binaryComparatives warehouse serverVersion args lhs rhs op → c ∈ lits) →
  VisitPredicateBinaryComparison warehouse serverVersion args lhs rhs op = Ok l →
  translates (binaryTruth warehouse serverVersion args row opaque p lhs rhs op) l.
Proof using DL.
  unfold VisitPredicateBinaryComparison. intros Hr Hc H.
  destruct lhs as [| | |a| |]; try done. simpl in H.
  assert (∀ b : outcome ExpressionAtom, b ≫= (λ b, match b with
    | ColumnNameExpressionAtom c => withValue warehouse serverVersion args (nodeP (AtomPredicateNode a)) (wrapCmp c op)
    | _ => constantComparison warehouse serverVersion args (AtomPredicateNode a) rhs op
    end) = Ok l → b = atomOf rhs →
    match rhs with
    | AtomPredicateNode (ColumnNameExpressionAtom c) =>
        (operandReady warehouse serverVersion args (nodeP (AtomPredicateNode a)) ∧ flip op = op) ∧
        (∀ x, x ∈ comparison c op (compute (nodeP (AtomPredicateNode a))) → x ∈ lits) →
        translates (operandOf warehouse serverVersion args opaque p (nodeP (AtomPredicateNode a)) (compares p c (flip op))) l
    | _ =>
        constantReady warehouse serverVersion args (AtomPredicateNode a) rhs op →
        translates (constantTruth warehouse serverVersion args opaque p (AtomPredicateNode a) rhs op) l
    end) as Hright.
  { intros b Hb ->. destruct rhs as [| | |b| |]; try done. simpl in Hb.
    destruct b; try (intros; by eapply constantComparison_translates).
    intros [[H1 ->] H2]. by apply operand_translates. }
  destruct a as [| | | |c| | | |]; try (specialize (Hright _ H eq_refl); destruct rhs as [| | |b| |]; try done;
    by destruct b; apply Hright).
  by apply operand_translates.
Qed.

Lemma between_translates p (not : bool) c lhs rhs l :
  operandReady warehouse serverVersion args (nodeP lhs) → operandReady warehouse serverVersion args (nodeP rhs) →
  (∀ x, x ∈ comparison c (if not then Clt else Cgte) (compute (nodeP lhs)) → x ∈ lits) →
  (∀ x, x ∈ comparison c (if not then Cgt else Clte) (compute (nodeP rhs)) → x ∈ lits) →
  VisitPredicateBetween warehouse serverVersion args not (AtomPredicateNode (ColumnNameExpressionAtom c)) lhs rhs = Ok l →
  translates (operandOf warehouse serverVersion args opaque p (nodeP lhs) (λ l,
    operandOf warehouse serverVersion args opaque p (nodeP rhs) (betweenTruth row opaque p not c l))) l.
Proof using BL DL Htyped.
  unfold VisitPredicateBetween. simpl. intros Hl Hr Cl Cr H.
  apply bind_Ok_inv in H as (lv & El & H). apply bind_Ok_inv in H as (rv & Er & H).
  unfold operandOf, betweenTruth. simpl in *. rewrite El, Er in *.
  destruct not; apply bind_Ok_inv in H as (k1 & H1 & H); apply bind_Ok_inv in H as (k2 & H2 & H);
    eapply wrapCmp_translates in H1; eauto; eapply wrapCmp_translates in H2; eauto.
  - by eapply translates_OR.
  - by eapply translates_AND.
Qed.

(** What IN has accumulated: nothing yet, or a formula for [P]. *)
Definition accumulated (not : bool) (P : Prop) (ret : Logic Comparative) : Prop :=
  ret = nilLogic ∧ (P → not = true) ∨ ret ≠ nilLogic ∧ translates P ret.

Definition joined (p : PredicateNode) (not : bool) (c : list string) (P Q : Prop)
  (vs : outcome (list (option ProtoValue))) : Prop :=
  match vs with
  | Ok vs => if not then P ∧ inTruth row opaque p true c vs else P ∨ inTruth row opaque p false c vs
  | _ => Q
  end.

Lemma translates_not_nil P l : translates P l → l ≠ nilLogic.
Proof using. intros (_ & Hp & _) ->. done. Qed.

Lemma inStep_translates p (not : bool) c v P ret ke ret' :
  accumulated not P ret → translates (compares p c (if not then Cne else Ceq) v) ke →
  match ret with nilLogic => Ok ke | _ => if not then AND ret ke else OR ret ke end = Ok ret' →
  translates (if not then P ∧ compares p c Cne v else P ∨ compares p c Ceq v) ret'.
Proof using BL Htyped.
  intros [[-> HP]|[Hn Ht]] Hk H.
  - injection H as <-. destruct not; eapply translates_weaken; [|exact Hk| |exact Hk]; simpl; [tauto|].
    intros [HP'|]; [|done]. by specialize (HP HP').
  - destruct not.
    + apply (translates_AND _ _ ret ke); [done..|]. by destruct ret.
    + apply (translates_OR _ _ ret ke); [done..|]. by destruct ret.
Qed.

Lemma inLoop_translates p (not : bool) c Q es P ret l :
  (∀ ei, ei ∈ es → operandReady warehouse serverVersion args (nodeE ei)) →
  (∀ x, x ∈ flat_map (λ ei, comparison c (if not then Cne else Ceq) (compute (nodeE ei))) es → x ∈ lits) →
  accumulated not P ret → inLoop warehouse serverVersion args not c es ret = Ok l → l ≠ nilLogic →
  translates (joined p not c P Q (mapM (λ ei, compute (nodeE ei)) es)) l.
Proof using BL DL Htyped.
  revert P ret. induction es as [|ei es IH]; intros P ret Hr Hc Ha H Hl.
  { simpl in H. injection H as ->. destruct Ha as [[-> _]|[_ Ha]]; [done|].
    eapply translates_weaken; [|exact Ha]. simpl. destruct not; simpl; [tauto|].
    intros [|(? & []%not_elem_of_nil & _)]; done. }
  cbn [inLoop] in H. revert H. apply withValue_translates. intros v Hv H. cbn in Hv.
  apply bind_Ok_inv in H as (ke & Hk & H). apply bind_Ok_inv in H as (ret' & Hret & H).
  assert (representable v) as Hrep by (by apply (Hr ei); [left|]).
  apply (wrapCmp_translates p) in Hk; [|done|].
  2: { intros x Hx. apply Hc. simpl. rewrite Hv. apply elem_of_app. by left. }
  pose proof (inStep_translates p not c v P ret ke ret' Ha Hk Hret) as Hs.
  eapply IH in H; [| | |right; split; [by eapply translates_not_nil|exact Hs]|done].
  2: { intros e He. apply Hr. by right. }
  2: { intros x Hx. apply Hc. simpl. apply elem_of_app. by right. }
  eapply translates_weaken; [|exact H]. simpl. rewrite Hv.
  destruct (mapM (λ ei, acceptE warehouse serverVersion args ei) es) as [vs| | |]; simpl; try done.
  destruct not; simpl.
  - intros [HP Hall]. split; [split; [done|]|]; [apply Hall; by left|]. intros w Hw. apply Hall. by right.
  - intros [HP|(w & [->|Hw]%elem_of_cons & Hcw)]; eauto.
Qed.

Lemma like_translates p c rhs l :
  operandReady warehouse serverVersion args (nodeP rhs) →
  (∀ x, x ∈ comparison c Ceq (compute (nodeP rhs)) → x ∈ lits) →
  VisitPredicateLike warehouse serverVersion args (AtomPredicateNode (ColumnNameExpressionAtom c)) rhs = Ok l →
  translates (operandOf warehouse serverVersion args opaque p (nodeP rhs) (likeTruth row opaque p false c)) l.
Proof using DL.
  intros Hr Hc. unfold VisitPredicateLike. simpl. apply withValue_translates. intros v Hv H.
  unfold operandOf. rewrite Hv in *. destruct v as [w|]; [|injection H as <-; apply translates_True].
  unfold likeTruth. destruct (hasWildcard (Value_String w)); [injection H as <-; apply translates_True|].
  apply wrapCmp_translates; auto.
Qed.

Lemma fromConstant_translates a v l :
  compute (nodeA a) = Ok v → fromConstant v = Ok l →
  translates (constantAtom warehouse serverVersion args opaque a) l.
Proof using.
  intros Hv H. unfold constantAtom. rewrite Hv. destruct v as [v|]; simpl in *.
  - destruct (Bool v) as [[]| | |]; try done; injection H as <-; try apply translates_True.
    apply translates_False. intros Hn. by apply Hn.
  - injection H as <-. apply translates_False. tauto.
Qed.

Lemma WithStack_Ok {A} (m : outcome A) x : WithStack m = Ok x ↔ m = Ok x.
Proof using. by destruct m. Qed.

Abbreviation selectsE := (selectsE warehouse serverVersion args row opaque).
Abbreviation selectsP := (selectsP warehouse serverVersion args row opaque).
Abbreviation selectsA := (selectsA warehouse serverVersion args row opaque).

Lemma visitA_constant a l :
  match a with
  | NestedExpressionAtom _ => False
  | _ => True
  end → visitA warehouse serverVersion args a = Ok l → translates (selectsA a) l.
Proof using.
  assert (fromValueNode warehouse serverVersion args a = Ok l →
    translates (constantAtom warehouse serverVersion args opaque a) l) as Hnode.
  { apply withValue_translates. intros v. apply fromConstant_translates. }
  destruct a; intros Hn H; cbn [visitA Visitor.visitA VisitorTheory.selectsA] in H |- *; try done; try (injection H as <-; apply translates_True); auto.
  - apply bind_Ok_inv in H as (v & Hv & H). rewrite WithStack_Ok in H. by apply (fromConstant_translates _ v).
  - apply bind_Ok_inv in H as (v & Hv & H). by apply (fromConstant_translates _ v).
Qed.

Lemma visit_translates :
  (∀ e l, readyE warehouse serverVersion args e → (∀ x, x ∈ comparativesE warehouse serverVersion args e → x ∈ lits) →
    visitE warehouse serverVersion args e = Ok l → l ≠ nilLogic → translates (selectsE e) l) ∧
  (∀ p l, readyP warehouse serverVersion args p → (∀ x, x ∈ comparativesP warehouse serverVersion args p → x ∈ lits) →
    visitP warehouse serverVersion args p = Ok l → l ≠ nilLogic → translates (selectsP p) l) ∧
  (∀ a l, readyA warehouse serverVersion args a → (∀ x, x ∈ comparativesA warehouse serverVersion args a → x ∈ lits) →
    visitA warehouse serverVersion args a = Ok l → l ≠ nilLogic → translates (selectsA a) l) ∧
  (∀ _ : UnaryNode, True).
Proof using BL DL Htyped.
  apply where_ind; try done; try (intros; by apply visitA_constant).
  - intros or lhs IHl rhs IHr l [Rl Rr] Hc H Hl. simpl in H, Hc.
    apply bind_Ok_inv in H as (x & Hx & H). apply bind_Ok_inv in H as (y & Hy & H).
    rewrite WithStack_Ok in Hx, Hy.
    apply bind_Ok_inv in H as (x' & Nx & H). apply bind_Ok_inv in H as (y' & Ny & H).
    assert (x' = x ∧ x ≠ nilLogic) as [-> Hxn] by (destruct x; by inversion Nx).
    assert (y' = y ∧ y ≠ nilLogic) as [-> Hyn] by (destruct y; by inversion Ny).
    apply IHl in Hx; [|done|intros; apply Hc, elem_of_app; by left|done].
    apply IHr in Hy; [|done|intros; apply Hc, elem_of_app; by right|done].
    destruct or; [by eapply translates_OR|by eapply translates_AND].
  - intros not lhs _ rhs _ l [-> Hr] Hc H Hl. simpl in H.
    destruct lhs as [| | |[| | | |c| | | |]| |]; try done. by apply like_translates.
  - intros lhs _ rhs _ not l _ _ H _. injection H as <-. apply translates_True.
  - intros lhs _ rhs _ op l Hr Hc H _. by apply binary_translates.
  - intros not key _ lhs _ rhs _ l [Hl Hr] Hc H _. simpl in H.
    destruct key as [| | |[| | | |c| | | |]| |]; try done. simpl in Hc.
    apply between_translates; [done|done|intros; apply Hc, elem_of_app; by left|intros; apply Hc, elem_of_app; by right|done].
  - intros not p _ es l Hr Hc H Hl. simpl in H.
    destruct p as [| | |[| | | |c| | | |]| |]; try done.
    apply (inLoop_translates (InPredicateNode not (AtomPredicateNode (ColumnNameExpressionAtom c)) es) not c
      (opaque (nodeP (InPredicateNode not (AtomPredicateNode (ColumnNameExpressionAtom c)) es)))
      es (not = true) nilLogic l) in H; [|done|done|by left|done].
    eapply translates_weaken; [|exact H]. cbn [joined selectsP].
    destruct (mapM _ es); try done. cbn. destruct not; auto.
Qed.
End Translation.

(** ** The statement *)

Lemma literals_listed lits (l : Logic Comparative) :
  positiveIn (listedIn lits) l = true → ∀ x, x ∈ literals l → x ∈ lits.
Proof.
  induction l as [|a|a|ls IH|ls IH] using Logic_nested_ind; try done; simpl; intros Hp x Hx.
  - apply list_elem_of_singleton in Hx as ->. by apply bool_decide_eq_true in Hp.
  - rewrite forallb_forall_elem in Hp. rewrite list_elem_of_In, in_flat_map in Hx. destruct Hx as (y & Hy & Hx).
    rewrite <- list_elem_of_In in Hy. rewrite <- list_elem_of_In in Hx. rewrite Forall_forall in IH. eauto.
  - rewrite forallb_forall_elem in Hp. rewrite list_elem_of_In, in_flat_map in Hx. destruct Hx as (y & Hy & Hx).
    rewrite <- list_elem_of_In in Hy. rewrite <- list_elem_of_In in Hx. rewrite Forall_forall in IH. eauto.
Qed.

Lemma listed_append m db tb d t :
  listed (append_table db tb m) d t ↔ listed m d t ∨ d = db ∧ t = tb.
Proof.
  unfold listed, append_table. split.
  - intros (l & Hl & Ht). rewrite lookup_insert in Hl. case_decide as E; [|eauto]. subst d.
    injection Hl as <-. apply elem_of_app in Ht as [Ht| ->%list_elem_of_singleton]; [|by right].
    destruct (m !! db) as [l|]; [eauto|]. by apply not_elem_of_nil in Ht.
  - intros [(l & Hl & Ht)|[-> ->]].
    + rewrite lookup_insert. case_decide as E; [|eauto]. subst d. eexists. split; [done|].
      rewrite Hl. apply elem_of_app. by left.
    + rewrite lookup_insert_eq. eexists. split; [done|]. apply elem_of_app. right. by left.
Qed.

(** Rendering lists every shard it walks over. *)
Lemma ascend_render {SL : SliceLib} vt items m m' :
  ascend (render_visit (Some vt)) items (m, true) = Ok (m', true) →
  (∀ d t, listed m d t → listed m' d t) ∧
  ∀ i, i ∈ items → ∃ dbs tbs, Render (topology vt) (getDB i) (getTable i) = (dbs, tbs, true) ∧ listed m' dbs tbs.
Proof.
  revert m. induction items as [|i items IH]; intros m H; simpl in H.
  { injection H as <-. split; [done|]. by intros i Hi%not_elem_of_nil. }
  destruct (Render (topology vt) (getDB i) (getTable i)) as [[dbs tbs] ok] eqn:Er.
  destruct ok; simpl in H; [|done]. destruct (IH _ H) as [H1 H2]. split.
  - intros d t Hd. apply H1, listed_append. by left.
  - intros j [->|Hj]%elem_of_cons; [|auto]. exists dbs, tbs. split; [done|]. apply H1, listed_append. by right.
Qed.

(** A sharder appends one result, and if the clause selects the row it holds
    the row's shard, or is nil. *)
Lemma ForSingleSelect_sound {B : BTree} {BL : BTreeLaws B} {TL : TimeLib} {FT : FloatText} {D : DecimalLib}
  {DL : DecimalLaws D} {O : Opcodes} {SL : SliceLib} warehouse serverVersion args rnd dbFirst
  (row : string → iface) (opaque : node → Prop) ru table name vt p db tb e rs rs' :
  Suffix table = Ok name → Rule_VTable ru name = Some vt → routable vt p row db tb →
  Forall (supported vt p row) (comparativesE warehouse serverVersion args e) →
  readyE warehouse serverVersion args e →
  ForSingleSelect warehouse serverVersion args rnd dbFirst ru rs table (Some e) = Ok rs' →
  selectsE warehouse serverVersion args row opaque e →
  ∃ r, rs' = rs ++ [(table, r)] ∧ match r with None => True | Some sd => (u32 db, u32 tb) ∈ pairs sd end.
Proof.
  intros Hname Hvt Hroute Hsup Hready Hrs Hsel.
  unfold ForSingleSelect in Hrs. rewrite Hname in Hrs. simpl in Hrs. rewrite Hvt in Hrs.
  apply bind_Ok_inv in Hrs as (l & Hl & Hrs). rewrite WithStack_Ok in Hl.
  apply bind_Ok_inv in Hrs as (l' & Hn & Hrs).
  assert (l' = l ∧ l ≠ nilLogic) as [-> Hnil] by (destruct l; by inversion Hn). clear Hn.
  apply bind_Ok_inv in Hrs as (r & Hr & Hrs). rewrite WithStack_Ok in Hr. injection Hrs as <-.
  exists r. split; [done|].
  set (lits := comparativesE warehouse serverVersion args e) in *.
  assert (∀ x, x ∈ lits → typed row x) as Htyped.
  { intros x Hx. rewrite Forall_forall in Hsup. by apply (Hsup x Hx). }
  destruct (visit_translates warehouse serverVersion args row opaque lits Htyped) as (HE & _).
  destruct (HE e l Hready ltac:(done) Hl Hnil) as (Hnorm & Hpos & Hsat). specialize (Hsat Hsel).
  destruct Hroute as [R1 R2 R3 R4].
  apply (calc_Eval_sound rnd dbFirst vt p row db tb R1 R2 R4 R3 l); [| |done|done].
  - apply Forall_forall. intros x Hx. rewrite Forall_forall in Hsup. apply Hsup. by eapply literals_listed.
  - destruct Hnorm as [Hf|[->| ->]]; [left; by apply full_noEmpty|by right|done].
Qed.

(** The last result of a table decides, unless it is nil. *)
Lemma renderAll_last {B : BTree} {SL : SliceLib} vt name table sd rs shards dt :
  Suffix table = Ok name → renderAll (Some vt) name (rs ++ [(table, Some sd)]) shards = Ok dt →
  ∃ m, dt = Some m ∧ ∀ d t, (d, t) ∈ pairs sd →
    ∃ dbs tbs, Render (topology vt) d t = (dbs, tbs, true) ∧ listed m dbs tbs.
Proof.
  intros Hname. revert shards. induction rs as [|[t r] rs IH]; intros shards H; simpl in H.
  - rewrite Hname in H. simpl in H. rewrite String.eqb_refl in H.
    apply bind_Ok_inv in H as ([m ok] & Hm & H). simpl in H. destruct ok; [|done]. injection H as <-.
    exists m. split; [done|]. apply ascend_render in Hm as [_ Hm]. intros d u Hin. unfold pairs in Hin.
    apply list_elem_of_fmap in Hin as (i & Ei & Hi). injection Ei as -> ->. eauto.
  - apply bind_Ok_inv in H as (x & _ & H). destruct (x =? name)%string; [|exact (IH _ H)].
    destruct r as [sd'|]; [|exact (IH _ H)]. apply bind_Ok_inv in H as ([m ok] & _ & H). destruct ok; [exact (IH _ H)|done].
Qed.


(** Comparing a column with NULL panics, for every operator and on either
    side: the value is a nil interface whose family is asked for. *)
Theorem null_comparison_panics {TL : TimeLib} {FT : FloatText} {D : DecimalLib} {O : Opcodes} {B : BTree}
  warehouse serverVersion args column key op :
  Suffix column = Ok key →
  visitP warehouse serverVersion args (BinaryComparisonPredicateNode
    (AtomPredicateNode (ColumnNameExpressionAtom column)) (AtomPredicateNode (ConstantExpressionAtom Dnull)) op) = Panic ∧
  visitP warehouse serverVersion args (BinaryComparisonPredicateNode
    (AtomPredicateNode (ConstantExpressionAtom Dnull)) (AtomPredicateNode (ColumnNameExpressionAtom column)) op) = Panic.
Proof.
  intros Hk. cbn. unfold withValue, wrapCmp. cbn. by rewrite Hk.
Qed.

(** ** Concrete statements *)
Module VisitorExamples.
Import ListTree NoDates NoFloats ExactDecimal LinearSearch ExtValueExamples RoutingExamples.

Definition render (prefix : string) (i : Z) : string := prefix +:+ FormatInt i.

(** The table [users] by [uid], sixteen tables of one database. *)
Definition rendered : VTable :=
  VTable_SetTopology (users 17) (SetRender (topology (users 17)) (Some (render "db_")) (Some (render "users_"))).

Definition shop : Rule := {["users" := rendered]}.

Definition column (c : string) : PredicateNode := AtomPredicateNode (ColumnNameExpressionAtom [c]).
Definition int (n : Z) : PredicateNode := AtomPredicateNode (int64Atom n).
Definition cmpE (l : PredicateNode) (op : Comparison) (r : PredicateNode) : ExpressionNode :=
  PredicateExpressionNode (BinaryComparisonPredicateNode l r op).
Definition andE := LogicalExpressionNode false.
Definition orE := LogicalExpressionNode true.
Definition nested (e : ExpressionNode) : ExpressionNode :=
  PredicateExpressionNode (AtomPredicateNode (NestedExpressionAtom e)).

(** [uid > 5 AND (uid <= 40 OR uid IN (3, ?))]. *)
Definition clause : ExpressionNode :=
  andE (cmpE (column "uid") Cgt (int 5))
    (nested (orE (cmpE (column "uid") Clte (int 40))
      (PredicateExpressionNode (InPredicateNode false (column "uid")
        [PredicateExpressionNode (int 3); PredicateExpressionNode (AtomPredicateNode (VariableExpressionAtom 0))])))).

Definition params : list (option ProtoValue) := [Some (int64Value 7)].

Definition shard (e : ExpressionNode) : outcome (list (list string * option Shards) * option DatabaseTables) :=
  SimpleShard ∅ None params norand true shop [] ["users"] (Some e).

Definition selects (e : ExpressionNode) : Prop := selectsE ∅ None params row21 (λ _, False) e.

Lemma denotes_int n : inS 64 n → representable (Some (int64Value n)).
Proof.
  intros Hn. exists (Iint64 n). constructor; [|done]. right. simpl. unfold inS in Hn.
  destruct (Z.leb_spec (- 2 ^ 63) n), (Z.ltb_spec n (2 ^ 63)); simpl; done || lia.
Qed.

Lemma compares_int p n op : inS 64 n → answers op (compareZ 21 n) = true →
  compares row21 (λ _, False) p ["uid"] op (Some (int64Value n)).
Proof.
  intros Hn Ha. left. exists "uid". destruct (denotes_int n Hn) as [x Hx]. exists (Iint64 n).
  split; [done|]. split; [|done]. constructor; [|done]. right. simpl. unfold inS in Hn.
  destruct (Z.leb_spec (- 2 ^ 63) n), (Z.ltb_spec n (2 ^ 63)); simpl; done || lia.
Qed.

Lemma rendered_routable : routable rendered period16 row21 0 5.
Proof. destruct (users_routable 17) as [H1 H2 H3 H4]. split; [exact H1|exact H2|exact H3|by vm_compute]. Qed.

Lemma clause_selects : selects clause.
Proof.
  split; [apply compares_int; [unfold inS; lia|done]|]. left. apply compares_int; [unfold inS; lia|done].
Qed.


(** Clauses that break one condition of [readyE] each. *)
Definition reversed : ExpressionNode :=
  andE (cmpE (int 18) Clt (column "uid")) (cmpE (column "uid") Ceq (int 21)).
Definition notLike : ExpressionNode := PredicateExpressionNode (LikePredicateNode true (column "uid") (int 6)).
Definition constants : ExpressionNode :=
  andE (cmpE (column "uid") Ceq (int 21)) (cmpE (int 1) Cne (int 2)).
Definition fraction : PredicateNode := AtomPredicateNode (ConstantExpressionAtom (Ddecimal (mkDecimal 215 (-1)))).
Definition truncated : ExpressionNode :=
  andE (cmpE (column "uid") Clt fraction) (cmpE (column "uid") Ceq (int 21)).

(** The answer, without the table of the row. *)
Definition missed (e : ExpressionNode) : Prop :=
  match shard e with
  | Ok (_, Some m) => bool_decide (listed m "db_0" "users_5") = false
  | _ => False
  end.

Lemma fraction_denotes x : ¬ denotes (decimalValue (mkDecimal 215 (-1))) x.
Proof.
  intros H. inversion H as [v n Hs Hn|]; subst. destruct Hs as [(d & [= <-] & Hd)|[=]].
  change (215 * 1 = n * 10) in Hd. lia.
Qed.

Lemma compares_not_6 p : ¬ compares row21 (λ _, False) p ["uid"] Ceq (Some (int64Value 6)).
Proof.
  intros [(key & x & _ & Hx & Ha)|[Hno _]].
  - inversion Hx as [v n Hs Hn|]; subst. destruct Hs as [(d & [=] & _)|Hi].
    vm_compute in Hi. injection Hi as <-. by vm_compute in Ha.
  - destruct (denotes_int 6 ltac:(unfold inS; lia)) as [x Hx]. by destruct (Hno x).
Qed.

(** The conditions of routing a WHERE clause are needed.  On the row whose
    [uid] is 21: [18 < uid AND uid = 21] is read as [uid < 18 AND uid = 21],
    [uid NOT LIKE 6] as [uid LIKE 6], [uid = 21 AND 1 <> 2] as false because
    two numbers always compare as equal, and [uid < 21.5 AND uid = 21] as
    [uid < 21 AND uid = 21]; each clause selects the row and its answer lacks
    the row's table. *)
Theorem where_conditions_needed :
  (selects reversed ∧ missed reversed) ∧ (selects notLike ∧ missed notLike) ∧
  (selects constants ∧ missed constants) ∧
  ((∀ row : string → iface, row "uid" = Iint64 21 →
     selectsE ∅ None params row (λ n, n = nodeP (BinaryComparisonPredicateNode (column "uid") fraction Clt)) truncated) ∧
   missed truncated).
Proof.
  split; [split; [|by vm_compute]|split; [split; [|by vm_compute]|split; (split; [|by vm_compute])]].
  - split; apply compares_int; unfold inS; done || lia.
  - apply compares_not_6.
  - split; [apply compares_int; unfold inS; done || lia|]. simpl. exists (-1). by vm_compute.
  - intros row Hrow. split; [right; split; [apply fraction_denotes|done]|].
    left. exists "uid", (Iint64 21). split; [done|]. split; [|by rewrite Hrow].
    constructor; [by right|unfold inS; lia].
Qed.

Lemma null_comparison_panics_witness :
  visitE ∅ None params (cmpE (column "uid") Ceq (AtomPredicateNode (ConstantExpressionAtom Dnull))) = Panic.
Proof. exact (proj1 (null_comparison_panics ∅ None params ["uid"] "uid" Ceq eq_refl)). Defined.
End VisitorExamples.
