(* ===== verification/Encoding.v ===== *)
(** * The wire encoding: [pkg/mysql/encoding.go]

    The writers store bytes into a buffer that is large enough and return the
    next position; an index out of range panics.  The readers return a value
    and the next position, or [None] where the Go result [ok] is false.  A byte
    is an integer below 256, a buffer a list of bytes; positions are Go's
    64-bit [int], so their sums wrap around. *)
From S2P Require Import Prelude.

Abbreviation bytes := (list Z).

Definition byte (v : Z) : Z := wrapU 8 v.

Definition len (data : bytes) : Z := Z.of_nat (length data).

(** The sum of two [int]s. *)
Definition add (a b : Z) : Z := wrapS 64 (a + b).

(** [data[pos] = b]. *)
Definition store (data : bytes) (pos b : Z) : outcome bytes :=
  if (0 <=? pos) && (pos <? len data) then Ok (<[Z.to_nat pos := b]> data) else Panic.

(** [data[pos]]. *)
Definition load (data : bytes) (pos : Z) : outcome Z :=
  if pos <? 0 then Panic
  else match data !! Z.to_nat pos with Some b => Ok b | None => Panic end.

(** [data[lo:hi]]. *)
Definition slice (data : bytes) (lo hi : Z) : outcome bytes :=
  if (0 <=? lo) && (lo <=? hi) && (hi <=? len data)
  then Ok (take (Z.to_nat (hi - lo)) (drop (Z.to_nat lo) data)) else Panic.

(** The assignments of consecutive bytes. *)
Fixpoint storeAll (data : bytes) (pos : Z) (bs : bytes) : outcome bytes :=
  match bs with
  | [] => Ok data
  | b :: bs => data ← store data pos b; storeAll data (add pos 1) bs
  end.

(** [byte(v), byte(v >> 8), ...], [n] of them. *)
Definition littleEndian (n : nat) (v : Z) : bytes :=
  map (λ k, byte (Z.shiftr v (8 * Z.of_nat k))) (seq 0 n).

(** ** Writers *)

Definition lenEncIntSize (i : Z) : Z :=
  if i <? 251 then 1 else if i <? Z.shiftl 1 16 then 3 else if i <? Z.shiftl 1 24 then 4 else 9.

Definition writeAll (data : bytes) (pos : Z) (bs : bytes) : outcome (bytes * Z) :=
  data ← storeAll data pos bs; Ok (data, add pos (len bs)).

Definition writeLenEncInt (data : bytes) (pos i : Z) : outcome (bytes * Z) :=
  if i <? 251 then writeAll data pos [byte i]
  else if i <? Z.shiftl 1 16 then writeAll data pos (0xfc :: littleEndian 2 i)
  else if i <? Z.shiftl 1 24 then writeAll data pos (0xfd :: littleEndian 3 i)
  else writeAll data pos (0xfe :: littleEndian 8 i).

Definition lenNullString (value : bytes) : Z := add (len value) 1.

Definition lenEOFString (value : bytes) : Z := len value.

(** [copy(data[pos:], value)] with the number of bytes copied. *)
Definition copyAt (data : bytes) (pos : Z) (value : bytes) : outcome (bytes * Z) :=
  if (0 <=? pos) && (pos <=? len data) then
    let n := Z.min (len data - pos) (len value) in
    Ok (take (Z.to_nat pos) data ++ take (Z.to_nat n) value ++ drop (Z.to_nat (pos + n)) data, n)
  else Panic.

Definition writeEOFString (data : bytes) (pos : Z) (value : bytes) : outcome (bytes * Z) :=
  r ← copyAt data pos value; Ok (fst r, add pos (snd r)).

Definition writeNullString (data : bytes) (pos : Z) (value : bytes) : outcome (bytes * Z) :=
  r ← writeEOFString data pos value;
  data ← store (fst r) (snd r) 0;
  Ok (data, add (snd r) 1).

Definition writeByte (data : bytes) (pos value : Z) : outcome (bytes * Z) := writeAll data pos [value].

Definition writeUint16 (data : bytes) (pos value : Z) : outcome (bytes * Z) :=
  writeAll data pos (littleEndian 2 value).

Definition writeUint32 (data : bytes) (pos value : Z) : outcome (bytes * Z) :=
  writeAll data pos (littleEndian 4 value).

Definition writeUint64 (data : bytes) (pos value : Z) : outcome (bytes * Z) :=
  writeAll data pos (littleEndian 8 value).

Definition lenEncStringSize (value : bytes) : Z := add (lenEncIntSize (len value)) (len value).

Definition writeLenEncString (data : bytes) (pos : Z) (value : bytes) : outcome (bytes * Z) :=
  r ← writeLenEncInt data pos (len value);
  writeEOFString (fst r) (snd r) value.

Definition writeZeroes (data : bytes) (pos n : Z) : outcome (bytes * Z) :=
  data ← storeAll data pos (replicate (Z.to_nat n) 0); Ok (data, add pos n).

(** ** Readers *)

(** The sum of shifted bytes, the least significant first. *)
Fixpoint fromLittleEndian (bs : bytes) : Z :=
  match bs with
  | [] => 0
  | b :: bs => Z.lor b (Z.shiftl (fromLittleEndian bs) 8)
  end.

Definition readByte (data : bytes) (pos : Z) : outcome (option (Z * Z)) :=
  if pos >=? len data then Ok None else b ← load data pos; Ok (Some (b, add pos 1)).

Definition readBytes (data : bytes) (pos size : Z) : outcome (option (bytes * Z)) :=
  if add (add pos size) (-1) >=? len data then Ok None
  else s ← slice data pos (add pos size); Ok (Some (s, add pos size)).

(** [make([]byte, size)] of a negative size panics. *)
Definition readBytesCopy (data : bytes) (pos size : Z) : outcome (option (bytes * Z)) :=
  if add (add pos size) (-1) >=? len data then Ok None
  else if size <? 0 then Panic
  else s ← slice data pos (add pos size); Ok (Some (s, add pos size)).

(** [bytes.IndexByte(s, 0)]. *)
Fixpoint indexZero (s : bytes) : option nat :=
  match s with
  | [] => None
  | b :: s => if b =? 0 then Some O else S <$> indexZero s
  end.

Definition readNullString (data : bytes) (pos : Z) : outcome (option (bytes * Z)) :=
  rest ← slice data pos (len data);
  match indexZero rest with
  | None => Ok None
  | Some end_ => Ok (Some (take end_ rest, add pos (Z.of_nat end_ + 1)))
  end.

Definition readEOFString (data : bytes) (pos : Z) : outcome (option (bytes * Z)) :=
  rest ← slice data pos (len data); Ok (Some (rest, len data - pos)).

(** A fixed number of bytes, least significant first. *)
Definition readFixed (n : nat) (data : bytes) (pos : Z) : outcome (option (Z * Z)) :=
  if add pos (Z.of_nat n - 1) >=? len data then Ok None
  else s ← slice data pos (add pos (Z.of_nat n)); Ok (Some (fromLittleEndian s, add pos (Z.of_nat n))).

Definition readUint16 := readFixed 2.
Definition readUint32 := readFixed 4.
Definition readUint64 := readFixed 8.

(** The number in the [n] bytes after the marker at [pos]. *)
Definition readAfter (n : nat) (data : bytes) (pos : Z) : outcome (option (Z * Z)) :=
  if add pos (Z.of_nat n) >=? len data then Ok None
  else
    s ← mapM (λ k, load data (add pos (Z.of_nat k))) (seq 1 n);
    Ok (Some (fromLittleEndian s, add pos (Z.of_nat n + 1))).

Definition readLenEncInt (data : bytes) (pos : Z) : outcome (option (Z * Z)) :=
  if pos >=? len data then Ok None else
  b ← load data pos;
  if b =? 0xfc then readAfter 2 data pos
  else if b =? 0xfd then readAfter 3 data pos
  else if b =? 0xfe then readAfter 8 data pos
  else Ok (Some (b, add pos 1)).

Definition readLenEncStringAsBytes (data : bytes) (pos : Z) : outcome (option (bytes * Z)) :=
  r ← readLenEncInt data pos;
  match r with
  | None => Ok None
  | Some (size, pos) =>
      let s := wrapS 64 size in
      if add (add pos s) (-1) >=? len data then Ok None
      else v ← slice data pos (add pos s); Ok (Some (v, add pos s))
  end.

(** A Go string of the same bytes. *)
Definition readLenEncString := readLenEncStringAsBytes.

Definition skipLenEncString (data : bytes) (pos : Z) : outcome (option Z) :=
  r ← readLenEncInt data pos;
  match r with
  | None => Ok None
  | Some (size, pos) =>
      let s := wrapS 64 size in
      if add (add pos s) (-1) >=? len data then Ok None else Ok (Some (add pos s))
  end.

(** [make([]byte, size)] of a size above the [int]s panics. *)
Definition readLenEncStringAsBytesCopy (data : bytes) (pos : Z) : outcome (option (bytes * Z)) :=
  r ← readLenEncInt data pos;
  match r with
  | None => Ok None
  | Some (size, pos) =>
      let s := wrapS 64 size in
      if add (add pos s) (-1) >=? len data then Ok None
      else if size >=? 2 ^ 63 then Panic
      else v ← slice data pos (add pos s); Ok (Some (v, add pos s))
  end.

(** ** Theory *)

(** The bytes [bs] at [pos] and the rest as before. *)
Definition splice (data : bytes) (pos : Z) (bs : bytes) : bytes :=
  take (Z.to_nat pos) data ++ bs ++ drop (Z.to_nat (pos + len bs)) data.

(** A buffer as the program has it: no Go slice is longer. *)
Definition buffer (data : bytes) : Prop := len data < 2 ^ 62.

Lemma len_nonneg data : 0 ≤ len data.
Proof. unfold len. lia. Qed.

Lemma len_cons b bs : len (b :: bs) = 1 + len bs.
Proof. unfold len. simpl. lia. Qed.

Lemma len_app a b : len (a ++ b) = len a + len b.
Proof. unfold len. rewrite length_app. lia. Qed.

Lemma add_small a b : - 2 ^ 63 ≤ a + b < 2 ^ 63 → add a b = a + b.
Proof. intros H. unfold add. apply wrapS_id; [lia|]. unfold inS. lia. Qed.

Lemma len_splice data pos bs : 0 ≤ pos → pos + len bs ≤ len data → len (splice data pos bs) = len data.
Proof.
  unfold splice, len. intros. rewrite !length_app, length_take, length_drop. lia.
Qed.

Lemma store_splice data pos b : 0 ≤ pos < len data → store data pos b = Ok (splice data pos [b]).
Proof.
  intros H. unfold store. destruct (Z.leb_spec 0 pos), (Z.ltb_spec pos (len data)); try lia. simpl. f_equal.
  unfold splice, len in *. rewrite insert_take_drop by lia. simpl. do 3 f_equal. lia.
Qed.

Lemma splice_app data pos bs1 bs2 :
  0 ≤ pos → pos + len bs1 + len bs2 ≤ len data →
  splice (splice data pos bs1) (pos + len bs1) bs2 = splice data pos (bs1 ++ bs2).
Proof.
  intros Hp Hl. unfold splice at 1. unfold splice, len in *. rewrite length_app.
  rewrite (app_assoc (take _ _) bs1). rewrite take_app_le, take_ge, drop_app_ge, drop_drop;
    rewrite ?length_app, ?length_take; try lia.
  rewrite <- !app_assoc. do 4 f_equal. lia.
Qed.

Lemma storeAll_splice data pos bs :
  buffer data → 0 ≤ pos → pos + len bs ≤ len data → storeAll data pos bs = Ok (splice data pos bs).
Proof.
  revert data pos. induction bs as [|b bs IH]; intros data pos Hb Hp Hl; simpl.
  - f_equal. unfold splice, len. simpl. rewrite Z.add_0_r. by rewrite take_drop.
  - rewrite len_cons in Hl. pose proof (len_nonneg bs). unfold buffer in Hb.
    rewrite store_splice by lia. simpl. rewrite add_small by lia.
    assert (len (splice data pos [b]) = len data) as E by (apply len_splice; [done|]; change (len [b]) with 1; lia).
    rewrite IH; [|by unfold buffer; rewrite E|lia|rewrite E; lia]. f_equal.
    change (pos + 1) with (pos + len [b]). rewrite splice_app; [done|done|]. change (len [b]) with 1. lia.
Qed.

Lemma writeAll_splice data pos bs :
  buffer data → 0 ≤ pos → pos + len bs ≤ len data →
  writeAll data pos bs = Ok (splice data pos bs, pos + len bs).
Proof.
  intros Hb Hp Hl. unfold writeAll. rewrite storeAll_splice by done. simpl.
  unfold buffer in Hb. pose proof (len_nonneg bs). by rewrite add_small by lia.
Qed.

Lemma writeEOFString_splice data pos value :
  buffer data → 0 ≤ pos → pos + len value ≤ len data →
  writeEOFString data pos value = Ok (splice data pos value, pos + len value).
Proof.
  intros Hb Hp Hl. unfold writeEOFString, copyAt. pose proof (len_nonneg value). unfold buffer in Hb.
  destruct (Z.leb_spec 0 pos), (Z.leb_spec pos (len data)); try lia. simpl.
  rewrite Z.min_r by lia. rewrite add_small by lia. f_equal. f_equal. unfold splice.
  rewrite (take_ge value); [done|]. unfold len. lia.
Qed.

(** The buffer has the bytes [bs] at [pos]. *)
Definition at_ (data : bytes) (pos : Z) (bs : bytes) : Prop :=
  0 ≤ pos ∧ pos + len bs ≤ len data ∧ take (length bs) (drop (Z.to_nat pos) data) = bs.

Lemma at_splice data pos bs : 0 ≤ pos → pos + len bs ≤ len data → at_ (splice data pos bs) pos bs.
Proof.
  intros Hp Hl. unfold at_. rewrite len_splice by done. split; [done|]. split; [done|].
  unfold splice, len in *. rewrite drop_app_length' by (rewrite length_take; lia).
  by rewrite take_app_length.
Qed.

Lemma at_app data pos bs1 bs2 :
  at_ data pos (bs1 ++ bs2) ↔ at_ data pos bs1 ∧ at_ data (pos + len bs1) bs2.
Proof.
  destruct (Z.le_gt_cases 0 pos) as [Hp0|Hp0]; [|split; [intros (? & _)|intros [(? & _) _]]; lia].
  unfold at_. rewrite len_app, length_app. pose proof (len_nonneg bs1). pose proof (len_nonneg bs2).
  rewrite <- take_take_drop, drop_drop. replace (Z.to_nat pos + length bs1)%nat with (Z.to_nat (pos + len bs1))
    by (unfold len; lia). split.
  - intros (Hp & Hl & E). assert (length (take (length bs1) (drop (Z.to_nat pos) data)) = length bs1) as El.
    { unfold len in *. rewrite length_take, length_drop. lia. }
    apply app_inj_1 in E as [E1 E2]; [|done]. repeat split; done || lia.
  - intros ((? & ? & ->) & (? & ? & ->)). repeat split; lia.
Qed.

Lemma at_slice data pos bs : at_ data pos bs → slice data pos (pos + len bs) = Ok bs.
Proof.
  intros (Hp & Hl & E). unfold slice. pose proof (len_nonneg bs).
  destruct (Z.leb_spec 0 pos), (Z.leb_spec pos (pos + len bs)), (Z.leb_spec (pos + len bs) (len data)); try lia.
  simpl. f_equal. rewrite <- E at 2. f_equal. unfold len. lia.
Qed.

Lemma at_load data pos bs k b : at_ data pos bs → bs !! k = Some b → load data (pos + Z.of_nat k) = Ok b.
Proof.
  intros (Hp & Hl & E) Hk. unfold load. destruct (Z.ltb_spec (pos + Z.of_nat k) 0); [lia|].
  pose proof (lookup_lt_Some _ _ _ Hk). rewrite <- E, lookup_take, lookup_drop in Hk by done.
  replace (Z.to_nat (pos + Z.of_nat k)) with (Z.to_nat pos + k)%nat by lia. case_decide; [|lia]. by rewrite Hk.
Qed.

(** ** Integers *)

Lemma littleEndian_S n v : littleEndian (S n) v = byte v :: littleEndian n (Z.shiftr v 8).
Proof.
  unfold littleEndian. simpl. rewrite <- seq_shift, map_map. f_equal.
  apply map_ext. intros k. rewrite Z.shiftr_shiftr by lia. do 2 f_equal. lia.
Qed.

Lemma length_littleEndian n v : len (littleEndian n v) = Z.of_nat n.
Proof. unfold len, littleEndian. by rewrite length_map, length_seq. Qed.

Lemma fromLittleEndian_littleEndian n v :
  0 ≤ v < 2 ^ (8 * Z.of_nat n) → fromLittleEndian (littleEndian n v) = v.
Proof.
  revert v. induction n as [|n IH]; intros v Hv.
  { simpl. change (2 ^ (8 * Z.of_nat 0)) with 1 in Hv. lia. }
  rewrite littleEndian_S. cbn [fromLittleEndian].
  replace (8 * Z.of_nat (S n)) with (8 + 8 * Z.of_nat n) in Hv by lia. rewrite Z.pow_add_r in Hv by lia.
  rewrite Z.shiftr_div_pow2 by lia. change (2 ^ 8) with 256 in *.
  rewrite IH.
  - rewrite Z.lor_comm. unfold byte. rewrite byte_lor by (apply Z.div_pos; lia).
    pose proof (Z.div_mod v 256). lia.
  - split; [apply Z.div_pos; lia|]. apply Z.div_lt_upper_bound; lia.
Qed.

Lemma readFixed_at n data pos v :
  buffer data → 0 ≤ v < 2 ^ (8 * Z.of_nat n) → (0 < n < 9)%nat → at_ data pos (littleEndian n v) →
  readFixed n data pos = Ok (Some (v, pos + Z.of_nat n)).
Proof.
  intros Hb Hv Hn H. unfold readFixed, buffer in *. pose proof H as (Hp & Hl & _). rewrite length_littleEndian in Hl.
  rewrite !add_small by lia. destruct (Z.geb_spec (pos + (Z.of_nat n - 1)) (len data)); [lia|].
  apply at_slice in H. rewrite length_littleEndian in H. rewrite H. simpl.
  by rewrite fromLittleEndian_littleEndian.
Qed.

(** The bytes of a length-encoded integer. *)
Definition lenEncBytes (i : Z) : bytes :=
  if i <? 251 then [byte i]
  else if i <? Z.shiftl 1 16 then 0xfc :: littleEndian 2 i
  else if i <? Z.shiftl 1 24 then 0xfd :: littleEndian 3 i
  else 0xfe :: littleEndian 8 i.

Lemma writeLenEncInt_bytes data pos i : writeLenEncInt data pos i = writeAll data pos (lenEncBytes i).
Proof. unfold writeLenEncInt, lenEncBytes. by repeat case_match. Qed.

Lemma len_lenEncBytes i : len (lenEncBytes i) = lenEncIntSize i.
Proof. unfold lenEncBytes, lenEncIntSize. by repeat case_match. Qed.

Lemma readAfter_at n data pos marker v :
  buffer data → 0 ≤ v < 2 ^ (8 * Z.of_nat n) → (n < 9)%nat → at_ data pos (marker :: littleEndian n v) →
  readAfter n data pos = Ok (Some (v, pos + Z.of_nat n + 1)).
Proof.
  intros Hb Hv Hn H. unfold readAfter, buffer in *. pose proof H as (Hp & Hl & _).
  rewrite len_cons, length_littleEndian in Hl. rewrite !add_small by lia.
  destruct (Z.geb_spec (pos + Z.of_nat n) (len data)); [lia|].
  assert (mapM (λ k, load data (add pos (Z.of_nat k))) (seq 1 n) = Ok (littleEndian n v)) as ->.
  { apply mapM_Ok. apply Forall2_same_length_lookup.
    split; [unfold littleEndian; by rewrite length_map, !length_seq|].
    intros k x b Hx Hk. apply lookup_seq in Hx as [-> Hk']. rewrite add_small by lia.
    apply (at_load data pos (marker :: littleEndian n v)); [done|]. done. }
  simpl. rewrite fromLittleEndian_littleEndian by done. do 3 f_equal. lia.
Qed.

Lemma readLenEncInt_at data pos i :
  buffer data → inU 64 i → at_ data pos (lenEncBytes i) →
  readLenEncInt data pos = Ok (Some (i, pos + lenEncIntSize i)).
Proof.
  unfold inU. intros Hb Hi H. pose proof H as (Hp & Hl & _). rewrite len_lenEncBytes in Hl. unfold buffer in Hb.
  unfold readLenEncInt. destruct (Z.geb_spec pos (len data)).
  { unfold lenEncIntSize in Hl. repeat case_match; lia. }
  assert (∀ b, head (lenEncBytes i) = Some b → load data pos = Ok b) as Hload.
  { intros b Hh. rewrite <- (Z.add_0_r pos) at 1. apply (at_load data pos (lenEncBytes i) 0); [done|].
    by destruct (lenEncBytes i). }
  unfold lenEncBytes in H, Hload. unfold lenEncIntSize in Hl |- *.
  destruct (Z.ltb_spec i 251).
  { rewrite (Hload (byte i)) by done. simpl. unfold byte. rewrite wrapU_id by (unfold inU; lia).
    destruct (Z.eqb_spec i 252), (Z.eqb_spec i 253), (Z.eqb_spec i 254); try lia. by rewrite add_small by lia. }
  destruct (Z.ltb_spec i (Z.shiftl 1 16)) as [H16|H16]; [|destruct (Z.ltb_spec i (Z.shiftl 1 24)) as [H24|H24]].
  - rewrite (Hload 0xfc) by done. simpl. change (Z.shiftl 1 16) with (2 ^ 16) in H16.
    rewrite (readAfter_at 2 data pos 0xfc i); [|done|lia|lia|done]. do 3 f_equal. lia.
  - rewrite (Hload 0xfd) by done. simpl. change (Z.shiftl 1 24) with (2 ^ 24) in H24.
    rewrite (readAfter_at 3 data pos 0xfd i); [|done|lia|lia|done]. do 3 f_equal. lia.
  - rewrite (Hload 0xfe) by done. simpl.
    rewrite (readAfter_at 8 data pos 0xfe i); [|done|lia|lia|done]. do 3 f_equal. lia.
Qed.

(** ** Properties *)

(** The bytes outside the written range stay. *)
Definition framed (data data' : bytes) (pos pos' : Z) : Prop :=
  len data' = len data ∧ take (Z.to_nat pos) data' = take (Z.to_nat pos) data ∧
  drop (Z.to_nat pos') data' = drop (Z.to_nat pos') data.

Lemma framed_splice data pos bs :
  0 ≤ pos → pos + len bs ≤ len data → framed data (splice data pos bs) pos (pos + len bs).
Proof.
  intros Hp Hl. split; [by apply len_splice|]. unfold splice, len in *. split.
  - rewrite take_app_le, take_take by (rewrite length_take; lia). f_equal. lia.
  - rewrite drop_app_ge, drop_app_ge, drop_drop; rewrite ?length_take; try lia.
    f_equal. lia.
Qed.

Lemma buffer_splice data pos bs :
  0 ≤ pos → pos + len bs ≤ len data → buffer data → buffer (splice data pos bs).
Proof. intros. unfold buffer. by rewrite len_splice. Qed.

(** Integers survive the wire: in a large enough buffer each writer stores
    its integer, touches nothing else and returns the position after it, and
    the reader at the same position returns the integer and that position.
    The length-encoded form takes the size [lenEncIntSize] announces. *)
Theorem integers_roundtrip data pos i :
  buffer data → 0 ≤ pos → inU 64 i →
  (pos + lenEncIntSize i ≤ len data → ∃ data',
    writeLenEncInt data pos i = Ok (data', pos + lenEncIntSize i) ∧ framed data data' pos (pos + lenEncIntSize i) ∧
    readLenEncInt data' pos = Ok (Some (i, pos + lenEncIntSize i))) ∧
  (∀ n, n ∈ [2%nat; 4%nat; 8%nat] → i < 2 ^ (8 * Z.of_nat n) → pos + Z.of_nat n ≤ len data → ∃ data',
    writeAll data pos (littleEndian n i) = Ok (data', pos + Z.of_nat n) ∧
    framed data data' pos (pos + Z.of_nat n) ∧ readFixed n data' pos = Ok (Some (i, pos + Z.of_nat n))).
Proof.
  intros Hb Hp Hi. split.
  - intros Hl. rewrite <- len_lenEncBytes in Hl. exists (splice data pos (lenEncBytes i)).
    rewrite writeLenEncInt_bytes, writeAll_splice by done. rewrite <- !len_lenEncBytes.
    split; [done|]. split; [by apply framed_splice|].
    rewrite (readLenEncInt_at _ _ i); [by rewrite len_lenEncBytes|by apply buffer_splice|done|by apply at_splice].
  - intros n Hn Hr Hl. exists (splice data pos (littleEndian n i)).
    pose proof (length_littleEndian n i) as El.
    rewrite writeAll_splice by (rewrite ?El; done). rewrite El.
    split; [done|]. split; [rewrite <- El; apply framed_splice; rewrite ?El; done|].
    apply readFixed_at; [apply buffer_splice; rewrite ?El; done|unfold inU in Hi; lia| |apply at_splice; rewrite ?El; done].
    rewrite !elem_of_cons in Hn. destruct Hn as [->|[->|[->|[]%not_elem_of_nil]]]; lia.
Qed.

Lemma integers_roundtrip_witness :
  readLenEncInt [0; 0xfc; 0xfb; 0x00; 7] 1 = Ok (Some (251, 4)) ∧
  ∃ data', writeLenEncInt [0; 0; 0; 0; 7] 1 251 = Ok (data', 4) ∧ readLenEncInt data' 1 = Ok (Some (251, 4)).
Proof.
  split; [by vm_compute|].
  destruct (integers_roundtrip [0; 0; 0; 0; 7] 1 251) as [H _]; [by vm_compute|lia|unfold inU; lia|].
  destruct H as (data' & H1 & _ & H2); [vm_compute; congruence|]. exists data'. split; [exact H1|exact H2].
Defined.

Lemma lenEncIntSize_range i : 1 ≤ lenEncIntSize i ≤ 9.
Proof. unfold lenEncIntSize. repeat case_match; lia. Qed.

(** The string readers at the bytes of a length-encoded string. *)
Lemma readLenEncString_at data pos value :
  buffer data → at_ data pos (lenEncBytes (len value) ++ value) →
  let next := pos + lenEncIntSize (len value) + len value in
  readLenEncString data pos = Ok (Some (value, next)) ∧
  readLenEncStringAsBytesCopy data pos = Ok (Some (value, next)) ∧
  skipLenEncString data pos = Ok (Some next).
Proof.
  intros Hb [H1 H2]%at_app. rewrite len_lenEncBytes in H2. pose proof (len_nonneg value).
  pose proof (lenEncIntSize_range (len value)). pose proof H1 as (? & _). pose proof H2 as (? & ? & _).
  assert (readLenEncInt data pos = Ok (Some (len value, pos + lenEncIntSize (len value)))) as E.
  { apply readLenEncInt_at; [done| |done]. unfold inU, buffer in *. lia. }
  unfold readLenEncString, readLenEncStringAsBytes, readLenEncStringAsBytesCopy, skipLenEncString.
  rewrite E. simpl. rewrite wrapS_id by (unfold inS, buffer in *; lia). unfold buffer in *.
  rewrite !(add_small (pos + lenEncIntSize (len value)) (len value)) by lia. rewrite !add_small by lia.
  destruct (Z.geb_spec (pos + lenEncIntSize (len value) + len value + -1) (len data)); [lia|].
  rewrite at_slice by done. destruct (Z.geb_spec (len value) (2 ^ 63)); [lia|]. auto.
Qed.

Lemma indexZero_app s rest : Forall (λ b, b ≠ 0) s → indexZero (s ++ 0 :: rest) = Some (length s).
Proof.
  induction 1 as [|b s Hb Hs IH]; simpl; [done|]. destruct (Z.eqb_spec b 0); [done|]. by rewrite IH.
Qed.

(** Strings survive the wire: what [writeLenEncString] stores in a buffer
    of the size [lenEncStringSize] announces, the three length-encoded readers
    return or skip; what [writeNullString] stores is read back if the string
    has no zero byte. *)
Theorem strings_roundtrip data pos value :
  buffer data → 0 ≤ pos → pos + lenEncStringSize value ≤ len data → len value < 2 ^ 62 →
  (∃ data', writeLenEncString data pos value = Ok (data', pos + lenEncStringSize value) ∧
    framed data data' pos (pos + lenEncStringSize value) ∧
    readLenEncString data' pos = Ok (Some (value, pos + lenEncStringSize value)) ∧
    readLenEncStringAsBytesCopy data' pos = Ok (Some (value, pos + lenEncStringSize value)) ∧
    skipLenEncString data' pos = Ok (Some (pos + lenEncStringSize value))) ∧
  (Forall (λ b, b ≠ 0) value → ∃ data', writeNullString data pos value = Ok (data', pos + lenNullString value) ∧
    readNullString data' pos = Ok (Some (value, pos + lenNullString value))).
Proof.
  intros Hb Hp Hl Hv. pose proof (len_nonneg value). pose proof (lenEncIntSize_range (len value)).
  assert (lenEncStringSize value = len (lenEncBytes (len value)) + len value) as Es.
  { unfold lenEncStringSize. rewrite len_lenEncBytes, add_small; lia. }
  assert (lenNullString value = len value + 1) as En by (unfold lenNullString; rewrite add_small; lia).
  rewrite Es in *. rewrite En, len_lenEncBytes in *. split.
  - assert (len (lenEncBytes (len value) ++ value) = lenEncIntSize (len value) + len value) as Ea.
    { by rewrite len_app, len_lenEncBytes. }
    exists (splice data pos (lenEncBytes (len value) ++ value)).
    assert (buffer (splice data pos (lenEncBytes (len value)))) as Hb1.
    { apply buffer_splice; [done| |done]. rewrite len_lenEncBytes. lia. }
    assert (len (splice data pos (lenEncBytes (len value))) = len data) as El1.
    { apply len_splice; [done|]. rewrite len_lenEncBytes. lia. }
    unfold writeLenEncString. rewrite writeLenEncInt_bytes, writeAll_splice by (rewrite ?len_lenEncBytes; done || lia).
    simpl. rewrite writeEOFString_splice by (rewrite ?len_lenEncBytes, ?El1; done || lia).
    rewrite splice_app by (rewrite ?len_lenEncBytes; done || lia). rewrite len_lenEncBytes, Z.add_assoc.
    split; [done|]. split; [rewrite <- Z.add_assoc, <- Ea; apply framed_splice; rewrite ?Ea; done|].
    apply readLenEncString_at; [apply buffer_splice; rewrite ?Ea; done|]. apply at_splice; rewrite ?Ea; done.
  - intros Hz. exists (splice data pos (value ++ [0])). unfold writeNullString.
    rewrite writeEOFString_splice by (done || lia). simpl.
    rewrite store_splice by (rewrite len_splice; lia). simpl. unfold buffer in Hb. rewrite add_small by lia.
    rewrite splice_app by (change (len [0]) with 1; lia). rewrite Z.add_assoc. split; [done|].
    assert (len (value ++ [0]) = len value + 1) as Ea by (rewrite len_app; done).
    unfold readNullString, slice. rewrite len_splice by (rewrite ?Ea; lia).
    destruct (Z.leb_spec 0 pos), (Z.leb_spec pos (len data)), (Z.leb_spec (len data) (len data)); try lia. simpl.
    unfold splice. rewrite drop_app_length' by (rewrite length_take; unfold len in *; lia).
    rewrite take_ge by (unfold len in *; rewrite !length_app, length_drop; simpl; lia).
    rewrite <- app_assoc. simpl. rewrite indexZero_app by done. rewrite take_app_length.
    rewrite add_small by (unfold len in *; lia). unfold len. do 3 f_equal. lia.
Qed.

Lemma strings_roundtrip_witness :
  ∃ data', writeLenEncString [9; 9; 9; 9; 9; 9] 1 [65; 66; 67] = Ok (data', 5) ∧
    readLenEncString data' 1 = Ok (Some ([65; 66; 67], 5)).
Proof.
  destruct (strings_roundtrip [9; 9; 9; 9; 9; 9] 1 [65; 66; 67]) as [(data' & H1 & _ & H2 & _) _];
    [by vm_compute|lia|by vm_compute|by vm_compute|]. exists data'. split; [exact H1|exact H2].
Defined.

Lemma fromLittleEndian_range bs : Forall (inU 8) bs → inU (8 * len bs) (fromLittleEndian bs).
Proof.
  unfold inU. induction 1 as [|b bs Hb Hbs IH]; [by vm_compute|]. cbn [fromLittleEndian].
  rewrite len_cons. replace (8 * (1 + len bs)) with (8 + 8 * len bs) by lia.
  pose proof (len_nonneg bs). rewrite Z.pow_add_r by lia. change (2 ^ 8) with 256 in *.
  rewrite Z.lor_comm, <- (wrapU_id 8 b) by (unfold inU; lia). rewrite byte_lor by lia.
  rewrite Z.mod_small by lia. nia.
Qed.

Lemma load_range data pos : Forall (inU 8) data → 0 ≤ pos < len data → ∃ b, load data pos = Ok b ∧ inU 8 b.
Proof.
  intros Hd Hp. unfold load, len in *. destruct (Z.ltb_spec pos 0); [lia|].
  destruct (lookup_lt_is_Some_2 data (Z.to_nat pos)) as [b Hb]; [lia|]. rewrite Hb. exists b. split; [done|].
  rewrite Forall_lookup in Hd. eauto.
Qed.

Lemma readAfter_safe n data pos :
  buffer data → Forall (inU 8) data → 0 ≤ pos < len data → (n < 9)%nat →
  ∃ r, readAfter n data pos = Ok r ∧
    match r with None => True | Some (i, p) => inU (8 * Z.of_nat n) i ∧ pos < p ≤ len data end.
Proof.
  intros Hb Hd Hp Hn. unfold readAfter, buffer in *. rewrite !add_small by lia.
  destruct (Z.geb_spec (pos + Z.of_nat n) (len data)); [by exists None|].
  assert (∃ s, mapM (λ k, load data (add pos (Z.of_nat k))) (seq 1 n) = Ok s ∧ Forall (inU 8) s ∧ len s = Z.of_nat n)
    as (s & -> & Hs & El).
  { assert (∀ ks, Forall (λ k, pos + Z.of_nat k < len data) ks →
      ∃ s, mapM (λ k, load data (add pos (Z.of_nat k))) ks = Ok s ∧ Forall (inU 8) s ∧ len s = Z.of_nat (length ks)) as Hm.
    { induction 1 as [|k ks Hk Hks (s & Es & Hs & El)]; [by exists []|]. simpl. rewrite add_small by lia.
      destruct (load_range data (pos + Z.of_nat k)) as (b & -> & Hbb); [done|lia|].
      exists (b :: s). simpl. rewrite Es. split; [done|]. split; [by constructor|]. rewrite len_cons. lia. }
    destruct (Hm (seq 1 n)) as (s & Es & Hs & El); [|rewrite length_seq in El; eauto].
    apply Forall_seq. lia. }
  simpl. eexists. split; [done|]. simpl. split; [rewrite <- El; by apply fromLittleEndian_range|lia].
Qed.

Lemma readLenEncInt_safe data pos :
  buffer data → Forall (inU 8) data → 0 ≤ pos ≤ len data →
  ∃ r, readLenEncInt data pos = Ok r ∧
    match r with None => True | Some (i, p) => inU 64 i ∧ pos < p ≤ len data end.
Proof.
  intros Hb Hd Hp. unfold readLenEncInt. destruct (Z.geb_spec pos (len data)); [by exists None|].
  destruct (load_range data pos) as (b & -> & Hbb); [done|lia|]. simpl.
  assert (∀ n, (n < 9)%nat → ∃ r, readAfter n data pos = Ok r ∧
    match r with None => True | Some (i, p) => inU 64 i ∧ pos < p ≤ len data end) as Hafter.
  { intros n Hn. destruct (readAfter_safe n data pos Hb Hd) as (r & Er & Hr); [lia|done|]. exists r. split; [done|].
    destruct r as [[i p]|]; [|done]. destruct Hr as [Hi Hpp]. split; [|done]. unfold inU in *.
    split; [lia|]. apply (Z.lt_le_trans _ _ _ (proj2 Hi)). apply Z.pow_le_mono_r; lia. }
  repeat case_match; [by apply Hafter; lia..|]. eexists. split; [done|]. simpl. unfold buffer, inU in *.
  rewrite add_small by lia. lia.
Qed.

Lemma indexZero_spec s k : indexZero s = Some k → Forall (λ b, b ≠ 0) (take k s) ∧ (k < length s)%nat.
Proof.
  revert k. induction s as [|b s IH]; intros j Hj; simpl in Hj; [done|]. destruct (Z.eqb_spec b 0).
  - injection Hj as <-. split; [constructor|simpl; lia].
  - destruct (indexZero s) as [j'|]; [|done]. injection Hj as <-. destruct (IH j' eq_refl) as [H1 H2].
    split; [by constructor|simpl; lia].
Qed.

(** No packet makes a reader panic unless it announces a string longer
    than any: within a buffer, at a position in it, the length-encoded integer
    is read or refused, and so is a string of a length below 2^62; a position
    returned is in the buffer. *)
Theorem readers_safe data pos :
  buffer data → Forall (inU 8) data → 0 ≤ pos ≤ len data →
  (∃ r, readLenEncInt data pos = Ok r ∧
    match r with None => True | Some (i, p) => inU 64 i ∧ pos < p ≤ len data end) ∧
  ((∀ i p, readLenEncInt data pos = Ok (Some (i, p)) → i < 2 ^ 62) →
    ∃ r, readLenEncString data pos = Ok r ∧
      match r with None => True | Some (v, p) => pos + len v < p ≤ len data end) ∧
  (∃ r, readNullString data pos = Ok r ∧
    match r with None => True | Some (v, p) => Forall (λ b, b ≠ 0) v ∧ p = pos + len v + 1 ∧ p ≤ len data end).
Proof.
  intros Hb Hd Hp. destruct (readLenEncInt_safe data pos Hb Hd Hp) as (r & Er & Hr).
  split; [by exists r|]. split.
  - intros Hsmall. unfold readLenEncString, readLenEncStringAsBytes. rewrite Er. simpl.
    destruct r as [[i p]|]; [|by exists None]. destruct Hr as [Hi Hpp]. specialize (Hsmall i p Er).
    unfold inU, buffer in *. rewrite wrapS_id by (unfold inS; lia). rewrite (add_small p i) by lia.
    rewrite add_small by lia. destruct (Z.geb_spec (p + i + -1) (len data)); [by exists None|].
    unfold slice. destruct (Z.leb_spec 0 p), (Z.leb_spec p (p + i)), (Z.leb_spec (p + i) (len data)); try lia.
    eexists. split; [done|]. simpl. unfold len in *. rewrite length_take, length_drop. lia.
  - unfold readNullString, slice. destruct (Z.leb_spec 0 pos), (Z.leb_spec pos (len data)), (Z.leb_spec (len data) (len data)); try lia.
    simpl. set (rest := take _ _). destruct (indexZero rest) as [k|] eqn:Ek; [|by exists None].
    eexists. split; [done|]. simpl.
    destruct (indexZero_spec rest k Ek) as [Hz Hk]. split; [done|]. unfold buffer in Hb.
    assert (Z.of_nat (length rest) = len data - pos) as El.
    { unfold rest, len in *. rewrite length_take, length_drop. lia. }
    unfold len at 1 2. rewrite length_take, add_small; unfold len in *; lia.
Qed.

Lemma readers_safe_witness :
  readLenEncString [3; 65; 66] 0 = Ok None ∧ readNullString [65; 0; 7] 0 = Ok (Some ([65], 2)) ∧
  ∃ r, readLenEncInt [0xfc; 1] 0 = Ok r.
Proof.
  split; [by vm_compute|]. split; [by vm_compute|].
  destruct (readers_safe [0xfc; 1] 0) as [(r & Hr & _) _]; [by vm_compute| |by vm_compute|by exists r].
  repeat constructor; done.
Defined.

(** A packet that announces a string of 2^63 bytes or more panics the
    reader: the length becomes a negative [int], passes the check against the
    end of the buffer and the slice expression is out of range.  Skipping the
    string moves backwards instead. *)
Theorem hostile_length_panics data pos size :
  buffer data → 2 ^ 63 ≤ size < 2 ^ 64 → at_ data pos (0xfe :: littleEndian 8 size) →
  readLenEncString data pos = Panic ∧ readLenEncStringAsBytes data pos = Panic ∧
  readLenEncStringAsBytesCopy data pos = Panic ∧
  ∃ p, skipLenEncString data pos = Ok (Some p) ∧ p < pos + 9.
Proof.
  intros Hb Hs H. pose proof H as (Hp & Hl & _). rewrite len_cons, length_littleEndian in Hl. unfold buffer in Hb.
  assert (lenEncBytes size = 0xfe :: littleEndian 8 size ∧ lenEncIntSize size = 9) as [E1 E2].
  { unfold lenEncBytes, lenEncIntSize. change (Z.shiftl 1 16) with (2 ^ 16). change (Z.shiftl 1 24) with (2 ^ 24).
    destruct (Z.ltb_spec size 251), (Z.ltb_spec size (2 ^ 16)), (Z.ltb_spec size (2 ^ 24)); done || lia. }
  assert (readLenEncInt data pos = Ok (Some (size, pos + 9))) as E.
  { rewrite <- E2. apply readLenEncInt_at; [done|unfold inU; lia|]. by rewrite E1. }
  assert (wrapS 64 size = size - 2 ^ 64) as Ew.
  { replace size with ((size - 2 ^ 64) + 1 * 2 ^ 64) by lia. rewrite wrapS_period, wrapS_id; unfold inS; lia. }
  unfold readLenEncString, readLenEncStringAsBytes, readLenEncStringAsBytesCopy, skipLenEncString.
  rewrite E. simpl. rewrite Ew, !(add_small (pos + 9)), !add_small by lia.
  destruct (Z.geb_spec (pos + 9 + (size - 2 ^ 64) + -1) (len data)); [lia|].
  unfold slice. destruct (Z.leb_spec (pos + 9) (pos + 9 + (size - 2 ^ 64))); [lia|].
  rewrite andb_false_r. simpl. destruct (Z.geb_spec size (2 ^ 63)); [|lia].
  split; [done|]. split; [done|]. split; [done|]. eexists. split; [done|]. lia.
Qed.

Lemma hostile_length_panics_witness :
  readLenEncString [0xfe; 0xff; 0xff; 0xff; 0xff; 0xff; 0xff; 0xff; 0xff] 0 = Panic.
Proof.
  exact (proj1 (hostile_length_panics [0xfe; 0xff; 0xff; 0xff; 0xff; 0xff; 0xff; 0xff; 0xff] 0 (2 ^ 64 - 1)
    ltac:(by vm_compute) ltac:(lia) ltac:(repeat split; by vm_compute))).
Defined.
