(* ===== verification/Packet.v ===== *)
(** * Packets: [pkg/mysql/conn.go]

    A connection frames payloads into packets of at most [MaxPacketSize] bytes
    with a sequence number, and reassembles them.  The network is two byte
    streams: [incoming] is what the peer has sent and [outgoing] what it will
    receive; the peer may stop accepting after [quota] bytes.  Operations run in
    a state and outcome monad, so an error keeps the state reached.  The write
    buffering with its flush timer, which delays bytes without changing them,
    is left out. *)
From S2P Require Import Prelude Encoding.

Definition MaxPacketSize : Z := Z.shiftl 1 24 - 1.
Definition packetHeaderSize : Z := 4.
Definition OKPacket : Z := 0x00.
Definition EOFPacket : Z := 0xfe.
Definition ErrPacket : Z := 0xff.
Definition ComQuit : Z := 0x01.
Definition ServerMoreResultsExists : Z := 0x0008.
Definition CRUnknownError : Z := 2000.
Definition ERUnknownError : Z := 1105.
Definition ErrNoSuchTable : Z := 1146.

(** The bytes of a string. *)
Definition text (s : string) : bytes := map (λ a, Z.of_nat (Ascii.nat_of_ascii a)) (String.list_ascii_of_string s).

Definition SSUnknownSQLState : bytes := text "HY000".

Inductive policy := ephemeralUnused | ephemeralWrite | ephemeralRead.

#[global] Instance policy_eq_dec : EqDecision policy.
Proof. solve_decision. Defined.

Record Conn := mkConn {
  sequence : Z;
  incoming : bytes;
  outgoing : bytes;
  quota : option Z;
  healthy : bool;
  currentEphemeralPolicy : policy;
  currentEphemeralBuffer : option bytes;
  closed : bool;
  Schema : bytes;
}.

Definition setSequence (s : Z) (c : Conn) : Conn :=
  mkConn s (incoming c) (outgoing c) (quota c) (healthy c) (currentEphemeralPolicy c) (currentEphemeralBuffer c) (closed c) (Schema c).
Definition setIncoming (i : bytes) (c : Conn) : Conn :=
  mkConn (sequence c) i (outgoing c) (quota c) (healthy c) (currentEphemeralPolicy c) (currentEphemeralBuffer c) (closed c) (Schema c).
Definition setOutgoing (o : bytes) (q : option Z) (c : Conn) : Conn :=
  mkConn (sequence c) (incoming c) o q (healthy c) (currentEphemeralPolicy c) (currentEphemeralBuffer c) (closed c) (Schema c).
Definition setEphemeral (p : policy) (b : option bytes) (c : Conn) : Conn :=
  mkConn (sequence c) (incoming c) (outgoing c) (quota c) (healthy c) p b (closed c) (Schema c).
Definition setClosed (c : Conn) : Conn :=
  mkConn (sequence c) (incoming c) (outgoing c) (quota c) (healthy c) (currentEphemeralPolicy c) (currentEphemeralBuffer c) true (Schema c).

(** ** The monad *)

Definition M (A : Type) : Type := Conn → Conn * outcome A.

#[global] Instance M_ret : MRet M := λ A a c, (c, Ok a).
#[global] Instance M_bind : MBind M := λ A B f m c,
  match m c with
  | (c, Ok a) => f a c
  | (c, Err e) => (c, Err e)
  | (c, Panic) => (c, Panic)
  | (c, OutOfFuel) => (c, OutOfFuel)
  end.

Definition get : M Conn := λ c, (c, Ok c).
Definition modify (f : Conn → Conn) : M unit := λ c, (f c, Ok tt).
Definition lift {A} (m : outcome A) : M A := λ c, (c, m).

(** [errors.Wrap] of the error of [m]. *)
Definition wrapping {A} (m : M A) : M A := λ c,
  match m c with
  | (c, Err e) => (c, Err (WrapError e))
  | r => r
  end.

(** [defer f()]: run on the way out, whatever the result. *)
Definition deferring {A} (m : M A) (f : M unit) : M A := λ c,
  let '(c, r) := m c in
  match f c with
  | (c, Ok _) => (c, r)
  | (c, Err e) => (c, r)
  | (c, Panic) => (c, Panic)
  | (c, OutOfFuel) => (c, OutOfFuel)
  end.

(** ** The network *)

(** [io.ReadFull] of [n] bytes: the end of the stream, a part, or all. *)
Definition ReadFull (n : Z) : M bytes := λ c,
  if len (incoming c) =? 0 then (c, if n =? 0 then Ok [] else Err EOF)
  else if len (incoming c) <? n then (setIncoming [] c, Err (NewError "unexpected EOF"))
  else (setIncoming (drop (Z.to_nat n) (incoming c)) c, Ok (take (Z.to_nat n) (incoming c))).

(** [w.Write]: all bytes, or as many as the peer accepts and an error. *)
Definition Write_ (bs : bytes) : M unit := λ c,
  match quota c with
  | None => (setOutgoing (outgoing c ++ bs) None c, Ok tt)
  | Some q =>
      if len bs <=? q then (setOutgoing (outgoing c ++ bs) (Some (q - len bs)) c, Ok tt)
      else (setOutgoing (outgoing c ++ take (Z.to_nat q) bs) (Some 0) c, Err (NewError "broken pipe"))
  end.

(** [c.sequence++]. *)
Definition nextSequence : M unit := modify (λ c, setSequence (wrapU 8 (sequence c + 1)) c).

(** ** Reading *)

Definition readHeaderFrom : M Z := λ c,
  match ReadFull 4 c with
  | (c, Err EOF) => (c, Err EOF)
  | (c, Err e) => (c, Err (WrapError e))
  | (c, Ok header) =>
      match header with
      | [h0; h1; h2; h3] =>
          if negb (h3 =? sequence c) then (c, Err (NewError "invalid sequence"))
          else (_ ← nextSequence; mret (Z.lor (Z.lor h0 (Z.shiftl h1 8)) (Z.shiftl h2 16))) c
      | _ => (c, Panic)
      end
  | (c, Panic) => (c, Panic)
  | (c, OutOfFuel) => (c, OutOfFuel)
  end.

(** A nil slice is the empty one. *)
Definition readOnePacket : M bytes :=
  length ← readHeaderFrom;
  if length =? 0 then mret [] else wrapping (ReadFull length).

(** The packets after one of the maximal size. *)
Fixpoint readMore (fuel : nat) (data : bytes) : M bytes :=
  match fuel with
  | O => lift OutOfFuel
  | S fuel =>
      next ← readOnePacket;
      if len next =? 0 then mret data
      else if len next <? MaxPacketSize then mret (data ++ next)
      else readMore fuel (data ++ next)
  end.

(** A packet takes bytes off the stream, so its length bounds the rounds. *)
Definition readRest (data : bytes) : M bytes := c ← get; readMore (S (length (incoming c))) data.

Definition readPacket : M bytes :=
  data ← readOnePacket;
  if len data <? MaxPacketSize then mret data else readRest data.

Definition ReadPacket : M bytes := wrapping readPacket.

Definition recycleReadPacket : M unit :=
  c ← get;
  if negb (bool_decide (currentEphemeralPolicy c = ephemeralRead)) then lift Panic
  else modify (setEphemeral ephemeralUnused None).

(** A body into a pooled buffer. *)
Definition readBody (length : Z) : M bytes := λ c,
  let c := setEphemeral ephemeralRead (Some (replicate (Z.to_nat length) 0)) c in
  match ReadFull length c with
  | (c, Ok data) => (setEphemeral ephemeralRead (Some data) c, Ok data)
  | (c, Err e) => deferring (lift (Err (WrapError e))) recycleReadPacket c
  | r => r
  end.

Definition readEphemeralPacket : M bytes :=
  c ← get;
  if negb (bool_decide (currentEphemeralPolicy c = ephemeralUnused)) then lift Panic else
  length ← readHeaderFrom;
  _ ← modify (λ c, setEphemeral ephemeralRead (currentEphemeralBuffer c) c);
  if length =? 0 then mret []
  else if length <? MaxPacketSize then readBody length
  else
    data ← wrapping (ReadFull length);
    readRest data.

Definition readEphemeralPacketDirect : M bytes :=
  c ← get;
  if negb (bool_decide (currentEphemeralPolicy c = ephemeralUnused)) then lift Panic else
  length ← readHeaderFrom;
  _ ← modify (λ c, setEphemeral ephemeralRead (currentEphemeralBuffer c) c);
  if length =? 0 then mret []
  else if length <? MaxPacketSize then readBody length
  else lift (Err (NewError "readEphemeralPacketDirect doesn't support more than one packet")).

(** ** Writing *)

Definition header (packetLength seq : Z) : bytes := littleEndian 3 packetLength ++ [seq].

(** The packets of [data] from [index]. *)
Fixpoint writeLoop (fuel : nat) (data : bytes) (index length : Z) : M unit :=
  match fuel with
  | O => lift OutOfFuel
  | S fuel =>
      let packetLength := if length >? MaxPacketSize then MaxPacketSize else length in
      c ← get;
      _ ← wrapping (Write_ (header packetLength (sequence c)));
      body ← lift (slice data index (index + packetLength));
      _ ← wrapping (Write_ body);
      _ ← nextSequence;
      let length := length - packetLength in
      if length =? 0 then
        if packetLength =? MaxPacketSize then
          c ← get;
          _ ← wrapping (Write_ (header 0 (sequence c)));
          nextSequence
        else mret tt
      else writeLoop fuel data (index + packetLength) length
  end.

(** Each round sends a byte, but for an empty payload. *)
Definition writePacket (data : bytes) : M unit :=
  c ← get;
  if negb (healthy c) then lift (Err (NewError "Check conn status error"))
  else writeLoop (S (length data)) data 0 (len data).

(** [bufPool.Get(length)]: a buffer of that length with what its last user
    left in it. *)
(** The longest prefix matched by [[^.']*], and the rest. *)
Fixpoint spanName (bs : bytes) : bytes * bytes :=
  match bs with
  | b :: rest =>
      if (b =? 46) || (b =? 39) then ([], bs)
      else let '(name, rest) := spanName rest in (b :: name, rest)
  | [] => ([], [])
  end.

(** The submatches of [^Table '([^.']+)\.([^.']+)' doesn't exist$]: no name
    has a delimiter, so there is one way to match. *)
Definition getFixErrNoSuchTableRegexp (msg : bytes) : option (bytes * bytes) :=
  if negb (bool_decide (take 7 msg = text "Table '")) then None else
  let '(db, rest) := spanName (drop 7 msg) in
  match db, rest with
  | _ :: _, 46 :: rest =>
      let '(table, rest) := spanName rest in
      match table with
      | _ :: _ => if bool_decide (rest = text "' doesn't exist") then Some (db, table) else None
      | [] => None
      end
  | _, _ => None
  end.

(** The physical database's name is replaced by the schema's. *)
Definition fixErrNoSuchTable (c : Conn) (errorMessage : bytes) : bytes :=
  match getFixErrNoSuchTableRegexp errorMessage with
  | Some (_, table) => text "Table '" ++ Schema c ++ [46] ++ table ++ text "' doesn't exist"
  | None => errorMessage
  end.

Section Pool.
Context (bufPool : Z → bytes).

Definition startEphemeralPacket (length : Z) : M bytes :=
  c ← get;
  if negb (bool_decide (currentEphemeralPolicy c = ephemeralUnused)) then lift Panic
  else _ ← modify (setEphemeral ephemeralWrite (Some (bufPool length))); mret (bufPool length).

Definition recycleWritePacket : M unit :=
  c ← get;
  if negb (bool_decide (currentEphemeralPolicy c = ephemeralWrite)) then lift Panic
  else modify (setEphemeral ephemeralUnused None).

Definition writeEphemeralPacket : M unit :=
  deferring
    (c ← get;
     match currentEphemeralPolicy c, currentEphemeralBuffer c with
     | ephemeralWrite, Some data => wrapping (writePacket data)
     | _, _ => lift Panic
     end) recycleWritePacket.

(** The fields of a packet, each written at the position the last one
    returned.  The slice is the ephemeral buffer itself. *)
Fixpoint writeFields (fields : list (bytes → Z → outcome (bytes * Z))) (data : bytes) (pos : Z) : outcome bytes :=
  match fields with
  | [] => Ok data
  | f :: fields => r ← f data pos; writeFields fields (fst r) (snd r)
  end.

Definition sendFields (length : Z) (fields : list (bytes → Z → outcome (bytes * Z))) : M unit :=
  data ← startEphemeralPacket length;
  data ← lift (writeFields fields data 0);
  _ ← modify (setEphemeral ephemeralWrite (Some data));
  writeEphemeralPacket.

Definition writeComQuit : M unit :=
  _ ← modify (setSequence 0);
  wrapping (sendFields 1 [λ data pos, writeByte data pos ComQuit]).

(** The OK packet with its header byte. *)
Definition writeOKHeader (marker affectedRows lastInsertID flags warnings : Z) : M unit :=
  sendFields (1 + lenEncIntSize affectedRows + lenEncIntSize lastInsertID + 2 + 2)
    [λ data pos, writeByte data pos marker;
     λ data pos, writeLenEncInt data pos affectedRows;
     λ data pos, writeLenEncInt data pos lastInsertID;
     λ data pos, writeUint16 data pos flags;
     λ data pos, writeUint16 data pos warnings].

Definition writeOKPacket := writeOKHeader OKPacket.

Definition writeOKPacketWithEOFHeader := writeOKHeader EOFPacket.

(** [errorMessage] is the formatted message. *)
Definition writeErrorPacket (errorCode : Z) (sqlState errorMessage : bytes) : M unit :=
  c ← get;
  let errorMessage := if errorCode =? ErrNoSuchTable then fixErrNoSuchTable c errorMessage else errorMessage in
  let sqlState := if len sqlState =? 0 then SSUnknownSQLState else sqlState in
  sendFields (1 + 2 + 1 + 5 + len errorMessage)
    [λ data pos, writeByte data pos ErrPacket;
     λ data pos, writeUint16 data pos errorCode;
     λ data pos, writeByte data pos 35;
     λ data pos, if negb (len sqlState =? 5) then Panic else writeEOFString data pos sqlState;
     λ data pos, writeEOFString data pos errorMessage].

(** An error of the server, or any other with its text. *)
Definition writeErrorPacketFromError (err : (Z * bytes * bytes) + bytes) : M unit :=
  match err with
  | inl (num, state, message) => writeErrorPacket (wrapU 16 num) state message
  | inr err => writeErrorPacket ERUnknownError SSUnknownSQLState (text "unknown error: " ++ err)
  end.

Definition writeEOFPacket (flags warnings : Z) : M unit :=
  sendFields 5
    [λ data pos, writeByte data pos EOFPacket;
     λ data pos, writeUint16 data pos warnings;
     λ data pos, writeUint16 data pos flags].
End Pool.

(** A whole packet with its header, for a list of packets sent at once. *)
Definition buildEOFPacket (c : Conn) (flags warnings : Z) : outcome bytes :=
  data ← store (replicate 9 0) 0 0x05;
  writeFields
    [λ data pos, writeLenEncInt data pos (sequence c);
     λ data pos, writeByte data pos EOFPacket;
     λ data pos, writeUint16 data pos flags;
     λ data pos, writeUint16 data pos warnings] data 3.

(** [data] holds packets with their headers. *)
Fixpoint fieldListLoop (fuel : nat) (data : bytes) (index dataLength : Z) : M unit :=
  match fuel with
  | O => lift OutOfFuel
  | S fuel =>
      let toBeSent := if dataLength >? MaxPacketSize then MaxPacketSize else dataLength in
      let send :=
        (body ← lift (slice data index (index + toBeSent + packetHeaderSize));
         _ ← wrapping (Write_ body);
         nextSequence) in
      _ ← send;
      let dataLength := dataLength - toBeSent in
      if dataLength =? 0 then
        if toBeSent =? MaxPacketSize then send else mret tt
      else fieldListLoop fuel data (index + toBeSent) dataLength
  end.

Definition writePacketForFieldList (data : bytes) : M unit :=
  fieldListLoop (S (length data)) data 0 (len data - packetHeaderSize).

Definition Close : M unit := modify setClosed.

Definition IsClosed : M bool := c ← get; mret (closed c).

(** ** Parsing *)

(** [data[0] == marker]: an empty packet panics. *)
Definition isEOFPacket (data : bytes) : outcome bool :=
  b ← load data 0; Ok ((b =? EOFPacket) && (len data <? 9)).

Definition isErrorPacket (data : bytes) : outcome bool := b ← load data 0; Ok (b =? ErrPacket).

(** [x, _, _ = readUint16(...)]: zero if it cannot be read. *)
Definition parseEOFPacket (data : bytes) : outcome (Z * bool) :=
  w ← readUint16 data 1;
  f ← readUint16 data 3;
  match f with
  | None => Err (NewError "invalid EOF packet statusFlags")
  | Some (statusFlags, _) =>
      Ok (match w with Some (warnings, _) => warnings | None => 0 end,
          negb (Z.land statusFlags ServerMoreResultsExists =? 0))
  end.

(** A reader that must succeed. *)
Definition must {A} (msg : string) (m : outcome (option A)) : outcome A :=
  r ← m; match r with Some x => Ok x | None => Err (NewError msg) end.

Definition parseOKPacket (data : bytes) : outcome (Z * Z * Z * Z) :=
  a ← must "invalid OK packet affectedRows" (readLenEncInt data 1);
  l ← must "invalid OK packet lastInsertID" (readLenEncInt data (snd a));
  f ← must "invalid OK packet statusFlags" (readUint16 data (snd l));
  w ← must "invalid OK packet warnings" (readUint16 data (snd f));
  Ok (fst a, fst l, fst f, fst w).

(** The [SQLError]: number, state and message. *)
Definition ParseErrorPacket (data : bytes) : outcome (Z * bytes * option bytes) :=
  code ← readUint16 data 1;
  match code with
  | None => Ok (CRUnknownError, SSUnknownSQLState, None)
  | Some (code, pos) =>
      state ← readBytes data (add pos 1) 5;
      match state with
      | None => Ok (CRUnknownError, SSUnknownSQLState, None)
      | Some (sqlState, pos) => msg ← slice data pos (len data); Ok (code, sqlState, Some msg)
      end
  end.

(** ** The wire format *)

(** The bytes [wire] carry the payload [data] in packets numbered from [s]; [s']
    is the number after the last.  A packet of the maximal size is continued. *)
Inductive packets : Z → bytes → bytes → Z → Prop :=
| packets_last s data :
    len data < MaxPacketSize → packets s (header (len data) s ++ data) data (wrapU 8 (s + 1))
| packets_more s data wire rest s' :
    len data = MaxPacketSize → packets (wrapU 8 (s + 1)) wire rest s' →
    packets s (header (len data) s ++ data ++ wire) (data ++ rest) s'.

Lemma MaxPacketSize_val : MaxPacketSize = 2 ^ 24 - 1.
Proof. done. Qed.

#[local] Opaque MaxPacketSize.

Lemma fromLittleEndian_3 h0 h1 h2 :
  Z.lor (Z.lor h0 (Z.shiftl h1 8)) (Z.shiftl h2 16) = fromLittleEndian [h0; h1; h2].
Proof.
  simpl. rewrite Z.lor_0_r, Z.shiftl_lor, Z.shiftl_shiftl by lia. by rewrite Z.lor_assoc.
Qed.

Lemma ReadFull_app c bs rest :
  incoming c = bs ++ rest → bs ≠ [] → ReadFull (len bs) c = (setIncoming rest c, Ok bs).
Proof.
  intros E Hn. unfold ReadFull. rewrite E, len_app. pose proof (len_nonneg rest).
  assert (0 < len bs) by (unfold len; destruct bs; [done|simpl; lia]).
  destruct (Z.eqb_spec (len bs + len rest) 0); [lia|]. destruct (Z.ltb_spec (len bs + len rest) (len bs)); [lia|].
  unfold len. rewrite Nat2Z.id. by rewrite drop_app_length, take_app_length.
Qed.

Lemma header_number n seq : 0 ≤ n < 2 ^ 24 →
  ∃ h0 h1 h2, header n seq = [h0; h1; h2; seq] ∧ Z.lor (Z.lor h0 (Z.shiftl h1 8)) (Z.shiftl h2 16) = n.
Proof.
  intros Hn. do 3 eexists. split; [done|]. rewrite fromLittleEndian_3.
  exact (fromLittleEndian_littleEndian 3 n ltac:(simpl; lia)).
Qed.

Lemma readHeaderFrom_header c n rest :
  incoming c = header n (sequence c) ++ rest → 0 ≤ n < 2 ^ 24 →
  readHeaderFrom c = (setSequence (wrapU 8 (sequence c + 1)) (setIncoming rest c), Ok n).
Proof.
  intros E Hn. unfold readHeaderFrom. destruct (header_number n (sequence c) Hn) as (h0 & h1 & h2 & Eh & En).
  rewrite Eh in E. change 4 with (len [h0; h1; h2; sequence c]). rewrite (ReadFull_app c _ rest E) by done.
  cbn [sequence setIncoming]. rewrite Z.eqb_refl, En. done.
Qed.

Lemma readOnePacket_packet c data rest :
  incoming c = header (len data) (sequence c) ++ data ++ rest → len data ≤ MaxPacketSize →
  readOnePacket c = (setSequence (wrapU 8 (sequence c + 1)) (setIncoming rest c), Ok data).
Proof.
  intros E Hl. rewrite MaxPacketSize_val in Hl. pose proof (len_nonneg data).
  unfold readOnePacket, mbind, M_bind. rewrite (readHeaderFrom_header c (len data) (data ++ rest)) by (done || lia).
  destruct (Z.eqb_spec (len data) 0) as [E0|Hne].
  - unfold len in E0. by destruct data.
  - unfold wrapping. rewrite (ReadFull_app _ data rest); [done|done|]. intros ->. done.
Qed.

Lemma readMore_packets fuel s wire data s' c sofar tail :
  packets s wire data s' → (length wire < fuel)%nat → sequence c = s → incoming c = wire ++ tail →
  readMore fuel sofar c = (setSequence s' (setIncoming tail c), Ok (sofar ++ data)).
Proof.
  intros H. revert fuel c sofar. induction H as [s data Hd|s data wire rest s' Hd _ IH];
    intros [|fuel] c sofar Hf <- Hin; try lia; cbn [readMore]; unfold mbind, M_bind.
  - rewrite (readOnePacket_packet c data tail); [|by rewrite Hin, <- !app_assoc|lia].
    destruct (Z.eqb_spec (len data) 0) as [E0|Hne].
    + unfold len in E0. destruct data; [|done]. unfold mret, M_ret. by rewrite app_nil_r.
    + destruct (Z.ltb_spec (len data) MaxPacketSize); [done|lia].
  - rewrite (readOnePacket_packet c data (wire ++ tail)); [|by rewrite Hin, <- !app_assoc|lia].
    rewrite MaxPacketSize_val in *. destruct (Z.eqb_spec (len data) 0); [lia|].
    destruct (Z.ltb_spec (len data) (2 ^ 24 - 1)); [lia|].
    rewrite !length_app in Hf. rewrite IH; [|unfold len in Hd; lia|done|done]. by rewrite app_assoc.
Qed.

Lemma readPacket_packets s wire data s' c tail :
  packets s wire data s' → sequence c = s → incoming c = wire ++ tail →
  readPacket c = (setSequence s' (setIncoming tail c), Ok data).
Proof.
  intros H Hs Hin. unfold readPacket, mbind, M_bind. destruct H as [s data Hd|s data wire rest s' Hd H]; subst s.
  - rewrite (readOnePacket_packet c data tail); [|by rewrite Hin, <- !app_assoc|lia].
    destruct (Z.ltb_spec (len data) MaxPacketSize); [done|lia].
  - rewrite (readOnePacket_packet c data (wire ++ tail)); [|by rewrite Hin, <- !app_assoc|lia].
    destruct (Z.ltb_spec (len data) MaxPacketSize); [lia|]. unfold readRest, mbind, M_bind, get.
    rewrite (readMore_packets _ _ wire rest s' _ _ tail H); [done| |done|done].
    simpl. rewrite length_app. lia.
Qed.

(** Projections of updated connections. *)
Ltac conn_simpl :=
  unfold setSequence, setOutgoing, setIncoming, setEphemeral;
  cbn [sequence incoming outgoing quota healthy currentEphemeralPolicy currentEphemeralBuffer closed].

(** The loop of [writePacket] sends the packets of what is left. *)
Lemma writeLoop_packets fuel data index length c :
  quota c = None → 0 ≤ index → index + length = len data → 0 ≤ length < Z.of_nat fuel →
  ∃ wire s', packets (sequence c) wire (drop (Z.to_nat index) data) s' ∧
    writeLoop fuel data index length c = (setSequence s' (setOutgoing (outgoing c ++ wire) None c), Ok tt).
Proof.
  revert index length c. induction fuel as [|fuel IH]; intros index length c Hq Hi Hl Hf; [lia|].
  cbn [writeLoop]. unfold mbind, M_bind, get, wrapping, lift, Write_. rewrite Hq.
  rewrite Z.gtb_ltb. pose proof MaxPacketSize_val as HM.
  set (n := if MaxPacketSize <? length then MaxPacketSize else length).
  assert (0 ≤ n ≤ length ∧ n ≤ MaxPacketSize ∧ (n < length → n = MaxPacketSize)) as Hn.
  { unfold n. destruct (Z.ltb_spec MaxPacketSize length); lia. }
  assert (slice data index (index + n) = Ok (take (Z.to_nat n) (drop (Z.to_nat index) data))) as ->.
  { unfold slice. destruct (Z.leb_spec 0 index), (Z.leb_spec index (index + n)), (Z.leb_spec (index + n) (len data)); try lia.
    do 3 f_equal. lia. }
  set (body := take _ _).
  assert (len body = n) as Eb by (unfold body, len in *; rewrite length_take, length_drop; lia).
  assert (drop (Z.to_nat index) data = body ++ drop (Z.to_nat (index + n)) data) as Ed.
  { unfold body. rewrite Z2Nat.inj_add, <- drop_drop by lia. symmetry. apply take_drop. }
  cbn [setOutgoing quota nextSequence modify].
  match goal with |- context [(if length - n =? 0 then _ else _) ?c1] => remember c1 as c' eqn:E1 end.
  assert (c' = setSequence (wrapU 8 (sequence c + 1)) (setOutgoing (outgoing c ++ header n (sequence c) ++ body) None c)) as ->.
  { rewrite E1. conn_simpl. by rewrite app_assoc. }
  clear E1. rewrite Ed.
  destruct (Z.eqb_spec (length - n) 0) as [E0|Hne].
  - assert (drop (Z.to_nat (index + n)) data = []) as -> by (apply drop_ge; unfold len in *; lia).
    destruct (Z.eqb_spec n MaxPacketSize) as [En|Hnm].
    + exists (header n (sequence c) ++ body ++ header 0 (wrapU 8 (sequence c + 1)) ++ []), (wrapU 8 (wrapU 8 (sequence c + 1) + 1)).
      split.
      * rewrite <- Eb at 1. apply packets_more; [lia|]. apply (packets_last _ []). change (len []) with 0. lia.
      * conn_simpl. unfold mret, nextSequence, modify. conn_simpl. by rewrite app_nil_r, <- !app_assoc.
    + exists (header n (sequence c) ++ body), (wrapU 8 (sequence c + 1)). split; [|done].
      rewrite app_nil_r, <- Eb. apply packets_last. lia.
  - destruct (IH (index + n) (length - n)
      (setSequence (wrapU 8 (sequence c + 1)) (setOutgoing (outgoing c ++ header n (sequence c) ++ body) None c)))
      as (wire & s' & Hw & ->); [done|lia|lia|lia|].
    exists (header n (sequence c) ++ body ++ wire), s'. split.
    + rewrite <- Eb at 1. apply packets_more; [lia|]. exact Hw.
    + conn_simpl. by rewrite <- !app_assoc.
Qed.

Lemma writePacket_packets data c :
  quota c = None → healthy c = true →
  ∃ wire s', packets (sequence c) wire data s' ∧
    writePacket data c = (setSequence s' (setOutgoing (outgoing c ++ wire) None c), Ok tt).
Proof.
  intros Hq Hh. unfold writePacket, mbind, M_bind, get. rewrite Hh. simpl.
  destruct (writeLoop_packets (S (length data)) data 0 (len data) c) as (wire & s' & Hp & E); [done|lia|lia|unfold len; lia|].
  exists wire, s'. split; [exact Hp|exact E].
Qed.

Lemma readEphemeralPacket_packets s wire data s' c tail :
  packets s wire data s' → sequence c = s → incoming c = wire ++ tail →
  currentEphemeralPolicy c = ephemeralUnused →
  ∃ buf, readEphemeralPacket c = (setEphemeral ephemeralRead buf (setSequence s' (setIncoming tail c)), Ok data).
Proof.
  intros H Hs Hin Hp. unfold readEphemeralPacket, mbind, M_bind, get. rewrite Hp. simpl.
  pose proof MaxPacketSize_val as HM. pose proof (len_nonneg data).
  assert (∀ d rest, len d ≤ MaxPacketSize → incoming c = header (len d) s ++ d ++ rest →
    readHeaderFrom c = (setSequence (wrapU 8 (sequence c + 1)) (setIncoming (d ++ rest) c), Ok (len d))) as Hh.
  { intros d rest Hd Hi. rewrite <- Hs in Hi. pose proof (len_nonneg d). by apply readHeaderFrom_header; [|lia]. }
  destruct H as [s data Hd|s data wire rest s' Hd H]; subst s.
  - rewrite (Hh data tail) by (rewrite ?Hin, <- ?app_assoc; done || lia). unfold modify.
    destruct (Z.eqb_spec (len data) 0) as [E0|Hne].
    { unfold len in E0. destruct data; [|done]. by eexists. }
    destruct (Z.ltb_spec (len data) MaxPacketSize); [|lia]. unfold readBody.
    rewrite (ReadFull_app _ data tail); [|done|by intros ->]. by eexists.
  - rewrite (Hh data (wire ++ tail)); [|lia|by rewrite Hin, <- !app_assoc]. unfold modify.
    destruct (Z.eqb_spec (len data) 0); [lia|]. destruct (Z.ltb_spec (len data) MaxPacketSize); [lia|].
    unfold wrapping. rewrite (ReadFull_app _ data (wire ++ tail)); [|done|intros ->; by change (len []) with 0 in Hd; lia].
    unfold readRest, mbind, M_bind, get. cbv beta iota.
    rewrite (readMore_packets _ _ wire rest s' _ _ tail H); [by eexists| |done|done].
    conn_simpl. rewrite length_app. lia.
Qed.

(** C35: a payload survives the connection: whatever its length, the packets
    [writePacket] sends are read back by a peer with the same sequence number
    as the same payload, by [readPacket] and [readEphemeralPacket] alike; the
    peer stops exactly after them, whatever follows, and both sides agree on
    the next sequence number. *)
Theorem packet_roundtrip w r data tail :
  quota w = None → healthy w = true → sequence r = sequence w → currentEphemeralPolicy r = ephemeralUnused →
  ∃ w' wire, writePacket data w = (w', Ok tt) ∧ outgoing w' = outgoing w ++ wire ∧
    readPacket (setIncoming (wire ++ tail) r) = (setSequence (sequence w') (setIncoming tail r), Ok data) ∧
    ∃ r', readEphemeralPacket (setIncoming (wire ++ tail) r) = (r', Ok data) ∧ incoming r' = tail ∧
      sequence r' = sequence w' ∧ recycleReadPacket r' = (setEphemeral ephemeralUnused None r', Ok tt).
Proof.
  intros Hq Hh Hs Hp. destruct (writePacket_packets data w Hq Hh) as (wire & s' & Hw & E).
  exists (setSequence s' (setOutgoing (outgoing w ++ wire) None w)), wire.
  split; [done|]. split; [done|]. split.
  - exact (readPacket_packets _ _ _ _ (setIncoming (wire ++ tail) r) tail Hw Hs eq_refl).
  - destruct (readEphemeralPacket_packets (sequence w) wire data s' (setIncoming (wire ++ tail) r) tail)
      as (buf & E'); [done..|]. eexists. by split.
Qed.

Definition freshConn : Conn := mkConn 0 [] [] None true ephemeralUnused None false [].

Lemma packet_roundtrip_witness :
  ∃ w' wire, writePacket [1; 2; 3] freshConn = (w', Ok tt) ∧ outgoing w' = wire ∧ wire = [3; 0; 0; 0; 1; 2; 3] ∧
    readPacket (setIncoming (wire ++ [9]) freshConn) = (setSequence 1 (setIncoming [9] freshConn), Ok [1; 2; 3]).
Proof.
  destruct (packet_roundtrip freshConn freshConn [1; 2; 3] [9] eq_refl eq_refl eq_refl eq_refl)
    as (w' & wire & H1 & H2 & H3 & _).
  assert (w' = setSequence 1 (setOutgoing [3; 0; 0; 0; 1; 2; 3] None freshConn)) as ->.
  { vm_compute in H1. injection H1 as <-. reflexivity. }
  exists (setSequence 1 (setOutgoing [3; 0; 0; 0; 1; 2; 3] None freshConn)), wire.
  split; [exact H1|]. split; [exact H2|]. split; [symmetry; exact H2|exact H3].
Defined.

(** ** Responses *)

(** [f] writes the bytes [bs]. *)
Definition writes (f : bytes → Z → outcome (bytes * Z)) (bs : bytes) : Prop :=
  ∀ data pos, buffer data → 0 ≤ pos → pos + len bs ≤ len data → f data pos = Ok (splice data pos bs, pos + len bs).

Lemma writes_byte b : writes (λ data pos, writeByte data pos b) [b].
Proof.
  intros data pos. apply writeAll_splice.
Qed.

Lemma writes_uint16 v : writes (λ data pos, writeUint16 data pos v) (littleEndian 2 v).
Proof. intros data pos. apply writeAll_splice. Qed.

Lemma writes_lenEncInt v : writes (λ data pos, writeLenEncInt data pos v) (lenEncBytes v).
Proof. intros data pos Hb Hp Hl. rewrite writeLenEncInt_bytes. by apply writeAll_splice. Qed.

Lemma writes_string v : writes (λ data pos, writeEOFString data pos v) v.
Proof. intros data pos. apply writeEOFString_splice. Qed.

Lemma splice_nil data pos : 0 ≤ pos → splice data pos [] = data.
Proof. intros. unfold splice. change (len []) with 0. simpl. by rewrite Z.add_0_r, take_drop. Qed.

Lemma splice_all data bs : len bs = len data → splice data 0 bs = bs.
Proof. unfold splice, len. intros. simpl. rewrite drop_ge by lia. by rewrite app_nil_r. Qed.

Lemma writeFields_splice fields bss data pos :
  Forall2 writes fields bss → buffer data → 0 ≤ pos → pos + len (concat bss) ≤ len data →
  writeFields fields data pos = Ok (splice data pos (concat bss)).
Proof.
  intros H. revert data pos. induction H as [|f bs fields bss Hf H IH]; intros data pos Hb Hp Hl; simpl.
  - by rewrite splice_nil.
  - simpl in Hl. rewrite len_app in Hl. pose proof (len_nonneg bs). pose proof (len_nonneg (concat bss)).
    rewrite Hf by (done || lia). simpl. rewrite IH; [|apply buffer_splice; done || lia|lia|rewrite len_splice; lia].
    by rewrite splice_app by lia.
Qed.

(** A response fills its ephemeral buffer, is sent, and leaves the buffer
    recycled. *)
Lemma sendFields_sends bufPool length fields bss c :
  len (bufPool length) = length → length < 2 ^ 62 → Forall2 writes fields bss → len (concat bss) = length →
  quota c = None → healthy c = true → currentEphemeralPolicy c = ephemeralUnused →
  ∃ wire s', packets (sequence c) wire (concat bss) s' ∧
    sendFields bufPool length fields c
    = (setEphemeral ephemeralUnused None (setSequence s' (setOutgoing (outgoing c ++ wire) None c)), Ok tt).
Proof.
  intros Hpool Hlen Hf El Hq Hh Hp. unfold sendFields, startEphemeralPacket, mbind, M_bind, get. rewrite Hp. simpl.
  unfold modify, lift. rewrite (writeFields_splice _ bss); [|done|unfold buffer; lia|lia|lia].
  rewrite splice_all by lia. cbv beta iota.
  set (c1 := setEphemeral ephemeralWrite (Some (concat bss)) _).
  destruct (writePacket_packets (concat bss) c1) as (wire & s' & Hw & E); [done..|].
  exists wire, s'. split; [exact Hw|]. unfold writeEphemeralPacket, deferring, mbind, M_bind, get, wrapping.
  change (currentEphemeralPolicy c1) with ephemeralWrite. change (currentEphemeralBuffer c1) with (Some (concat bss)).
  cbv beta iota. rewrite E. done.
Qed.

Lemma at_all data bs : data = bs → at_ data 0 bs.
Proof.
  intros ->. split; [done|]. split; [done|]. change (Z.to_nat 0) with 0%nat. by rewrite drop_0, firstn_all.
Qed.

Lemma readUint16_at data pos v :
  buffer data → inU 16 v → at_ data pos (littleEndian 2 v) → readUint16 data pos = Ok (Some (v, pos + 2)).
Proof. intros Hb Hv H. apply (readFixed_at 2); [done|exact Hv|lia|done]. Qed.

Lemma load_head b bs : load (b :: bs) 0 = Ok b.
Proof. apply (at_load (b :: bs) 0 (b :: bs) 0 b); [by apply at_all|done]. Qed.

Lemma concat_five (b1 b2 b3 b4 b5 : bytes) : concat [b1; b2; b3; b4; b5] = b1 ++ b2 ++ b3 ++ b4 ++ b5.
Proof. simpl. by rewrite app_nil_r. Qed.

Definition okPayload (marker affectedRows lastInsertID flags warnings : Z) : list bytes :=
  [[marker]; lenEncBytes affectedRows; lenEncBytes lastInsertID; littleEndian 2 flags; littleEndian 2 warnings].

Lemma len_okPayload marker a l f s :
  len (concat (okPayload marker a l f s)) = 1 + lenEncIntSize a + lenEncIntSize l + 2 + 2.
Proof.
  unfold okPayload. rewrite concat_five, !len_app, !len_lenEncBytes, !length_littleEndian. change (len [marker]) with 1. lia.
Qed.

Lemma parseOKPacket_payload marker a l f s :
  inU 64 a → inU 64 l → inU 16 f → inU 16 s →
  parseOKPacket (concat (okPayload marker a l f s)) = Ok (a, l, f, s).
Proof.
  intros Ha Hl Hf Hs. assert (buffer (concat (okPayload marker a l f s))) as Hb.
  { unfold buffer. rewrite len_okPayload. pose proof (lenEncIntSize_range a). pose proof (lenEncIntSize_range l). lia. }
  pose proof (at_all _ _ (concat_five [marker] (lenEncBytes a) (lenEncBytes l) (littleEndian 2 f) (littleEndian 2 s))) as H.
  fold (okPayload marker a l f s) in H. revert Hb H. generalize (concat (okPayload marker a l f s)). intros data Hb H.
  rewrite !at_app, !len_lenEncBytes, !length_littleEndian in H. change (0 + len [marker]) with 1 in H. change (Z.of_nat 2) with 2 in H.
  destruct H as (_ & H1 & H2 & H3 & H4).
  unfold parseOKPacket, must. rewrite (readLenEncInt_at _ _ a Hb Ha H1). simpl.
  rewrite (readLenEncInt_at _ _ l Hb Hl H2). simpl. rewrite (readUint16_at _ _ f Hb Hf H3). simpl.
  by rewrite (readUint16_at _ _ s Hb Hs H4).
Qed.

Definition errorPayload (code : Z) (state msg : bytes) : list bytes :=
  [[ErrPacket]; littleEndian 2 code; [35]; state; msg].

Lemma len_errorPayload code state msg : len (concat (errorPayload code state msg)) = 4 + len state + len msg.
Proof.
  unfold errorPayload. rewrite concat_five, !len_app, length_littleEndian.
  change (len [ErrPacket]) with 1. change (len [35]) with 1. lia.
Qed.

Lemma ParseErrorPacket_payload code state msg :
  inU 16 code → len state = 5 → len msg < 2 ^ 61 →
  ParseErrorPacket (concat (errorPayload code state msg)) = Ok (code, state, Some msg).
Proof.
  intros Hc Hs Hm. pose proof (len_errorPayload code state msg) as El. pose proof (len_nonneg msg).
  assert (buffer (concat (errorPayload code state msg))) as Hb by (unfold buffer; lia).
  pose proof (at_all _ _ (concat_five [ErrPacket] (littleEndian 2 code) [35] state msg)) as H'.
  fold (errorPayload code state msg) in H'. revert El Hb H'. generalize (concat (errorPayload code state msg)).
  intros data El Hb H'. rewrite !at_app, !length_littleEndian, Hs in H'. change (0 + len [ErrPacket]) with 1 in H'.
  change (len [35]) with 1 in H'. destruct H' as (_ & H1 & _ & H2 & H3).
  unfold ParseErrorPacket. rewrite (readUint16_at _ _ code Hb Hc H1). cbn -[readBytes slice add].
  unfold readBytes. change (add (1 + 2) 1) with 4. change (add (add 4 5) (-1)) with 8. change (add 4 5) with 9.
  rewrite Z.geb_leb. destruct (Z.leb_spec (len data) 8); [lia|].
  apply at_slice in H2, H3. rewrite Hs in H2. change (1 + Z.of_nat 2 + 1) with 4 in *.
  change (4 + 5) with 9 in *. rewrite H2.
  cbn -[slice]. by replace (len data) with (9 + len msg) by lia; rewrite H3.
Qed.

(** The names of the regular expression have no dot and no quote. *)
Definition name (bs : bytes) : Prop := bs ≠ [] ∧ Forall (λ b, b ≠ 46 ∧ b ≠ 39) bs.

Lemma spanName_name bs b rest :
  Forall (λ b, b ≠ 46 ∧ b ≠ 39) bs → b = 46 ∨ b = 39 → spanName (bs ++ b :: rest) = (bs, b :: rest).
Proof.
  intros H Hb. induction H as [|x bs [H1 H2] H IH]; simpl.
  - by destruct Hb as [-> | ->].
  - rewrite IH. by destruct (Z.eqb_spec x 46), (Z.eqb_spec x 39).
Qed.

Lemma fixErrNoSuchTable_schema c db table :
  name db → name table →
  fixErrNoSuchTable c (text "Table '" ++ db ++ [46] ++ table ++ text "' doesn't exist")
  = text "Table '" ++ Schema c ++ [46] ++ table ++ text "' doesn't exist".
Proof.
  intros [Hd Hd'] [Ht Ht']. unfold fixErrNoSuchTable, getFixErrNoSuchTableRegexp.
  change (take 7 (text "Table '" ++ db ++ [46] ++ table ++ text "' doesn't exist")) with (text "Table '").
  change (drop 7 (text "Table '" ++ db ++ [46] ++ table ++ text "' doesn't exist"))
    with (db ++ 46 :: table ++ 39 :: text " doesn't exist").
  rewrite bool_decide_true by done. cbn -[text spanName]. rewrite spanName_name by (done || by left).
  destruct db; [done|]. rewrite spanName_name by (done || by right). destruct table; [done|].
  by rewrite bool_decide_true.
Qed.

(** The operation sends [payload] to a peer [r], whatever follows it, and the
    connection is ready for the next one. *)
Definition delivers (send : M unit) (w r : Conn) (payload : bytes) : Prop :=
  ∃ w' wire, send w = (w', Ok tt) ∧ outgoing w' = outgoing w ++ wire ∧ healthy w' = healthy w ∧ quota w' = None ∧
    currentEphemeralPolicy w' = ephemeralUnused ∧
    ∀ tail, readPacket (setIncoming (wire ++ tail) r) = (setSequence (sequence w') (setIncoming tail r), Ok payload).

Lemma sendFields_delivers bufPool length fields bss w r :
  (∀ n, 0 ≤ n → len (bufPool n) = n) → 0 ≤ length < 2 ^ 62 → Forall2 writes fields bss → len (concat bss) = length →
  quota w = None → healthy w = true → currentEphemeralPolicy w = ephemeralUnused → sequence r = sequence w →
  delivers (sendFields bufPool length fields) w r (concat bss).
Proof.
  intros Hpool [H0 H1] Hf El Hq Hh Hp Hs.
  destruct (sendFields_sends bufPool length fields bss w) as (wire & s' & Hw & E); [by apply Hpool|done..|].
  exists (setEphemeral ephemeralUnused None (setSequence s' (setOutgoing (outgoing w ++ wire) None w))), wire.
  split; [exact E|]. repeat split. intros tail.
  exact (readPacket_packets _ _ _ _ (setIncoming (wire ++ tail) r) tail Hw Hs eq_refl).
Qed.

Section Delivery.
Context (bufPool : Z → bytes) (w r : Conn).
Hypothesis pool_sizes : ∀ n, 0 ≤ n → len (bufPool n) = n.
Hypothesis unlimited : quota w = None.
Hypothesis writable : healthy w = true.
Hypothesis unused : currentEphemeralPolicy w = ephemeralUnused.
Hypothesis in_step : sequence r = sequence w.

Lemma ok_delivers marker a l f s :
  delivers (writeOKHeader bufPool marker a l f s) w r (concat (okPayload marker a l f s)).
Proof using All.
  apply sendFields_delivers; try done; [| |by rewrite len_okPayload].
  - pose proof (lenEncIntSize_range a). pose proof (lenEncIntSize_range l). lia.
  - repeat apply Forall2_cons_2; auto using writes_byte, writes_lenEncInt, writes_uint16.
Qed.

Lemma eof_delivers f s :
  delivers (writeEOFPacket bufPool f s) w r (concat [[EOFPacket]; littleEndian 2 s; littleEndian 2 f]).
Proof using All.
  apply sendFields_delivers; try done. repeat apply Forall2_cons_2; auto using writes_byte, writes_uint16.
Qed.

Lemma error_delivers code state msg :
  len state = 5 → let msg' := if code =? ErrNoSuchTable then fixErrNoSuchTable w msg else msg in
  len msg' < 2 ^ 61 →
  delivers (writeErrorPacket bufPool code state msg) w r (concat (errorPayload code state msg')).
Proof using All.
  intros Hst msg' Hm. unfold delivers, writeErrorPacket, mbind, M_bind, get. fold msg'.
  rewrite Hst. change (5 =? 0) with false. cbv iota.
  pose proof (len_nonneg msg').
  apply sendFields_delivers; try done; [lia| |rewrite len_errorPayload; lia].
  repeat apply Forall2_cons_2; auto using writes_byte, writes_uint16, writes_string.
  rewrite Hst. exact (writes_string state).
Qed.
End Delivery.

Lemma spanName_split bs : fst (spanName bs) ++ snd (spanName bs) = bs.
Proof.
  induction bs as [|b bs IH]; [done|]. simpl. case_match; [done|]. destruct (spanName bs). simpl in *. by f_equal.
Qed.

Lemma getFixErrNoSuchTableRegexp_match msg db table :
  getFixErrNoSuchTableRegexp msg = Some (db, table) →
  msg = text "Table '" ++ db ++ [46] ++ table ++ text "' doesn't exist".
Proof.
  unfold getFixErrNoSuchTableRegexp. case_bool_decide as Hpre; [|done]. simpl negb. cbv iota.
  pose proof (spanName_split (drop 7 msg)) as E1. destruct (spanName (drop 7 msg)) as [db' rest].
  destruct db' as [|x db']; [done|]. destruct rest as [|y rest]; [done|]. destruct (decide (y = 46)) as [->|Hy].
  2:{ intros H. exfalso. revert H. repeat case_match; congruence. }
  pose proof (spanName_split rest) as E2. destruct (spanName rest) as [table' rest'].
  destruct table'; [done|]. case_bool_decide as Er; [|done]. intros [= <- <-].
  rewrite <- (take_drop 7 msg), Hpre, <- E1. simpl fst in *. simpl snd in *. by rewrite <- E2, Er.
Qed.

Lemma len_fixErrNoSuchTable c msg : len (fixErrNoSuchTable c msg) ≤ len msg + len (Schema c).
Proof.
  unfold fixErrNoSuchTable. pose proof (len_nonneg (Schema c)).
  destruct (getFixErrNoSuchTableRegexp msg) as [[db table]|] eqn:E; [|lia].
  rewrite (getFixErrNoSuchTableRegexp_match _ _ _ E), !len_app. pose proof (len_nonneg db). lia.
Qed.

Lemma parseEOFPacket_payload f s :
  inU 16 f → inU 16 s →
  parseEOFPacket (concat [[EOFPacket]; littleEndian 2 s; littleEndian 2 f])
  = Ok (s, negb (Z.land f ServerMoreResultsExists =? 0)).
Proof.
  intros Hf Hs. pose proof (at_all _ _ (concat_five [EOFPacket] (littleEndian 2 s) (littleEndian 2 f) [] [])) as H.
  rewrite !app_nil_r, !at_app in H. destruct H as (_ & H1 & H2).
  unfold parseEOFPacket. rewrite (readUint16_at _ 1 s) by (done || exact H1).
  rewrite (readUint16_at _ 3 f) by (done || exact H2). done.
Qed.

(** Every generic response reaches the peer as it was meant: OK packets of
    both headers with their counters, flags and warnings, EOF packets with
    their warnings and whether more results follow, and error packets with
    their code, state and text, in which the physical database of a missing
    table is replaced by the schema's name. *)
Theorem responses_roundtrip bufPool w r :
  (∀ n, 0 ≤ n → len (bufPool n) = n) → quota w = None → healthy w = true →
  currentEphemeralPolicy w = ephemeralUnused → sequence r = sequence w →
  (∀ marker a l f s, inU 64 a → inU 64 l → inU 16 f → inU 16 s → ∃ payload,
     delivers (writeOKHeader bufPool marker a l f s) w r payload ∧
     load payload 0 = Ok marker ∧ parseOKPacket payload = Ok (a, l, f, s)) ∧
  (∀ f s, inU 16 f → inU 16 s → ∃ payload,
     delivers (writeEOFPacket bufPool f s) w r payload ∧ isEOFPacket payload = Ok true ∧
     isErrorPacket payload = Ok false ∧ parseEOFPacket payload = Ok (s, negb (Z.land f ServerMoreResultsExists =? 0))) ∧
  (∀ code state msg, inU 16 code → len state = 5 → len msg < 2 ^ 60 → len (Schema w) < 2 ^ 60 → ∃ payload msg',
     delivers (writeErrorPacket bufPool code state msg) w r payload ∧
     isErrorPacket payload = Ok true ∧ ParseErrorPacket payload = Ok (code, state, Some msg') ∧
     (code ≠ ErrNoSuchTable → msg' = msg) ∧
     (∀ db table, code = ErrNoSuchTable → name db → name table →
        msg = text "Table '" ++ db ++ [46] ++ table ++ text "' doesn't exist" →
        msg' = text "Table '" ++ Schema w ++ [46] ++ table ++ text "' doesn't exist")).
Proof.
  intros Hpool Hq Hh Hp Hs. split; [|split].
  - intros marker a l f s Ha Hl Hf Hw. exists (concat (okPayload marker a l f s)).
    split; [by apply ok_delivers|]. split; [apply load_head|by apply parseOKPacket_payload].
  - intros f s Hf Hw. exists (concat [[EOFPacket]; littleEndian 2 s; littleEndian 2 f]).
    split; [by apply eof_delivers|]. split; [done|]. split; [done|]. by apply parseEOFPacket_payload.
  - intros code state msg Hc Hst Hm Hsc.
    set (msg' := if code =? ErrNoSuchTable then fixErrNoSuchTable w msg else msg).
    assert (len msg' < 2 ^ 61) as Hm'.
    { unfold msg'. pose proof (len_fixErrNoSuchTable w msg). case_match; lia. }
    exists (concat (errorPayload code state msg')), msg'.
    split; [by apply error_delivers|]. split; [done|]. split; [by apply ParseErrorPacket_payload|].
    unfold msg'. split; [by intros ?%Z.eqb_neq; case_match|].
    intros db table -> Hdb Ht ->. by apply fixErrNoSuchTable_schema.
Qed.

Definition zeroPool (n : Z) : bytes := replicate (Z.to_nat n) 0.

Lemma len_zeroPool n : 0 ≤ n → len (zeroPool n) = n.
Proof. intros. unfold len, zeroPool. rewrite length_replicate. lia. Qed.

Lemma responses_roundtrip_witness : ∃ payload,
  delivers (writeOKPacket zeroPool 3 1000 2 0) freshConn freshConn payload ∧ parseOKPacket payload = Ok (3, 1000, 2, 0).
Proof.
  destruct (responses_roundtrip zeroPool freshConn freshConn len_zeroPool eq_refl eq_refl eq_refl eq_refl) as [H _].
  destruct (H OKPacket 3 1000 2 0) as (payload & H1 & _ & H2); [by split..|]. by exists payload.
Defined.

(** [buildEOFPacket] frames an EOF packet by hand with the sequence number
    as a length-encoded integer.  This is the packet's header as long as the
    number is below 251; from there on it takes three bytes of the nine, and
    the last write runs out of the buffer. *)
Theorem buildEOFPacket_cases c flags warnings :
  inU 8 (sequence c) →
  buildEOFPacket c flags warnings =
    if sequence c <? 251
    then Ok (header 5 (sequence c) ++ [EOFPacket] ++ littleEndian 2 flags ++ littleEndian 2 warnings)
    else Panic.
Proof.
  unfold inU. intros Hs. unfold buildEOFPacket, writeLenEncInt. destruct (Z.ltb_spec (sequence c) 251).
  - unfold byte, wrapU. rewrite Z.mod_small by lia. simpl. unfold header. reflexivity.
  - destruct (Z.ltb_spec (sequence c) (Z.shiftl 1 16)) as [_|H']; [|exfalso; revert H'; change (Z.shiftl 1 16) with 65536; lia].
    reflexivity.
Qed.

Lemma buildEOFPacket_cases_witness : buildEOFPacket (setSequence 251 freshConn) 0 2 = Panic.
Proof. exact (buildEOFPacket_cases (setSequence 251 freshConn) 0 2 ltac:(done)). Defined.

Lemma slice_all data : slice data 0 (len data) = Ok data.
Proof. apply (at_slice data 0 data). by apply at_all. Qed.

(** A packet of a field list whose payload fills a frame is followed by its
    own bytes again instead of the empty frame. *)
Lemma writePacketForFieldList_resends data c :
  len data = packetHeaderSize + MaxPacketSize → quota c = None →
  writePacketForFieldList data c =
    (setSequence (wrapU 8 (wrapU 8 (sequence c + 1) + 1)) (setOutgoing ((outgoing c ++ data) ++ data) None c), Ok tt).
Proof.
  intros El Hq. pose proof MaxPacketSize_val as HM. unfold writePacketForFieldList. rewrite El.
  replace (packetHeaderSize + MaxPacketSize - packetHeaderSize) with MaxPacketSize by lia. cbn [fieldListLoop].
  destruct (Z.gtb_spec MaxPacketSize MaxPacketSize); [lia|].
  replace (0 + MaxPacketSize + packetHeaderSize) with (len data) by lia. rewrite slice_all.
  rewrite Z.sub_diag, Z.eqb_refl. simpl (0 =? 0).
  unfold mbind, M_bind, lift, wrapping, Write_, nextSequence, modify. rewrite Hq. done.
Qed.
