(* ===== verification/WireTheory.v ===== *)
(** * Packets as sequences of fields

    What each writer of [pkg/mysql/encoding.go] stores and what each reader
    finds at a field of a packet, stated so that a packet that is a list of
    fields is written field by field and read field by field. *)
From S2P Require Import Prelude Encoding Packet.

Create HintDb wire.

(** ** Writers *)

Lemma writes_uint32 v : writes (λ data pos, writeUint32 data pos v) (littleEndian 4 v).
Proof. intros data pos. apply writeAll_splice. Qed.

Lemma writes_uint64 v : writes (λ data pos, writeUint64 data pos v) (littleEndian 8 v).
Proof. intros data pos. apply writeAll_splice. Qed.

Lemma writes_all bs : writes (λ data pos, writeAll data pos bs) bs.
Proof. intros data pos. apply writeAll_splice. Qed.

Lemma writes_nothing : writes (λ data pos, Ok (data, pos)) [].
Proof. intros data pos _ Hp _. rewrite splice_nil by done. by rewrite Z.add_0_r. Qed.

Lemma writes_zeroes n : 0 ≤ n → writes (λ data pos, writeZeroes data pos n) (replicate (Z.to_nat n) 0).
Proof.
  intros Hn data pos Hb Hp Hl. unfold writeZeroes. rewrite storeAll_splice by done. simpl. f_equal. f_equal.
  assert (len (replicate (Z.to_nat n) 0) = n) as E by (unfold len; rewrite length_replicate; lia).
  rewrite E in *. unfold buffer in Hb. by rewrite add_small by lia.
Qed.

(** One writer after another. *)
Lemma writes_seq f g bs1 bs2 :
  writes f bs1 → writes g bs2 → writes (λ data pos, r ← f data pos; g r.1 r.2) (bs1 ++ bs2).
Proof.
  intros Hf Hg data pos Hb Hp Hl. rewrite len_app in *. pose proof (len_nonneg bs1). pose proof (len_nonneg bs2).
  rewrite Hf by (done || lia). cbn [mbind outcome_bind fst snd].
  rewrite Hg; [|apply buffer_splice; done || lia|lia|rewrite len_splice; lia].
  rewrite splice_app by lia. by rewrite Z.add_assoc.
Qed.

Lemma writes_null s : writes (λ data pos, writeNullString data pos s) (s ++ [0]).
Proof.
  intros data pos Hb Hp Hl. rewrite len_app in *. change (len [0]) with 1 in *. pose proof (len_nonneg s).
  unfold writeNullString. rewrite writeEOFString_splice by (done || lia). cbn [mbind outcome_bind fst snd].
  rewrite store_splice by (rewrite len_splice; lia). cbn [mbind outcome_bind]. unfold buffer in Hb.
  rewrite add_small by lia. rewrite splice_app by (change (len [0]) with 1; lia). by rewrite Z.add_assoc.
Qed.

Lemma writes_lenEncString s : writes (λ data pos, writeLenEncString data pos s) (lenEncBytes (len s) ++ s).
Proof. apply (writes_seq _ (λ data pos, writeEOFString data pos s)); [apply writes_lenEncInt|apply writes_string]. Qed.

#[export] Hint Resolve writes_byte writes_uint16 writes_uint32 writes_uint64 writes_all writes_nothing writes_null
  writes_lenEncInt writes_lenEncString writes_string : wire.

(** ** Readers *)

(** The fields one after the other from [pos]. *)
Fixpoint fieldsAt (data : bytes) (pos : Z) (bss : list bytes) : Prop :=
  match bss with
  | [] => 0 ≤ pos ≤ len data
  | bs :: bss => at_ data pos bs ∧ fieldsAt data (pos + len bs) bss
  end.

Lemma len_concat_cons bs bss : len (concat (bs :: bss)) = len bs + len (concat bss).
Proof. apply len_app. Qed.

Lemma at_fields data pos bss : at_ data pos (concat bss) → fieldsAt data pos bss.
Proof.
  revert pos. induction bss as [|bs bss IH]; intros pos H; simpl in *.
  - destruct H as (? & H & _). change (len []) with 0 in H. lia.
  - apply at_app in H as [H1 H2]. auto.
Qed.

Lemma fieldsAt_concat bss : fieldsAt (concat bss) 0 bss.
Proof. by apply at_fields, at_all. Qed.

Section Readers.
Context (data : bytes) (pos : Z).
Hypothesis small : buffer data.

Lemma reads_byte b : at_ data pos [b] → readByte data pos = Ok (Some (b, pos + len [b])).
Proof using small.
  intros H. pose proof H as (Hp & Hl & _). change (len [b]) with 1 in *. unfold readByte, buffer in *.
  destruct (Z.geb_spec pos (len data)); [lia|]. pose proof (at_load data pos [b] 0 b H eq_refl) as E.
  rewrite Z.add_0_r in E. rewrite E. simpl. by rewrite add_small by lia.
Qed.

Lemma reads_bytes n bs : at_ data pos bs → len bs = n → readBytes data pos n = Ok (Some (bs, pos + len bs)).
Proof using small.
  intros H <-. pose proof H as (Hp & Hl & _). pose proof (len_nonneg bs). unfold readBytes, buffer in *.
  rewrite !(add_small pos (len bs)) by lia. rewrite add_small by lia.
  destruct (Z.geb_spec (pos + len bs + -1) (len data)); [lia|]. by rewrite at_slice by done.
Qed.

Lemma reads_bytesCopy n bs : at_ data pos bs → len bs = n → readBytesCopy data pos n = Ok (Some (bs, pos + len bs)).
Proof using small.
  intros H E. pose proof (reads_bytes n bs H E) as Hr. pose proof (len_nonneg bs). unfold readBytesCopy. unfold readBytes in Hr.
  case_match; [done|]. destruct (Z.ltb_spec n 0); [lia|]. exact Hr.
Qed.

Lemma reads_fixed n v :
  at_ data pos (littleEndian n v) → inU (8 * Z.of_nat n) v → (0 < n < 9)%nat →
  readFixed n data pos = Ok (Some (v, pos + len (littleEndian n v))).
Proof using small. intros H Hv Hn. rewrite length_littleEndian. by apply readFixed_at. Qed.

Lemma reads_uint16 v : at_ data pos (littleEndian 2 v) → inU 16 v → readUint16 data pos = Ok (Some (v, pos + len (littleEndian 2 v))).
Proof using small. intros H Hv. apply (reads_fixed 2); [done|done|lia]. Qed.

Lemma reads_uint32 v : at_ data pos (littleEndian 4 v) → inU 32 v → readUint32 data pos = Ok (Some (v, pos + len (littleEndian 4 v))).
Proof using small. intros H Hv. apply (reads_fixed 4); [done|done|lia]. Qed.

Lemma reads_uint64 v : at_ data pos (littleEndian 8 v) → inU 64 v → readUint64 data pos = Ok (Some (v, pos + len (littleEndian 8 v))).
Proof using small. intros H Hv. apply (reads_fixed 8); [done|done|lia]. Qed.

Lemma reads_lenEncInt v : at_ data pos (lenEncBytes v) → inU 64 v → readLenEncInt data pos = Ok (Some (v, pos + len (lenEncBytes v))).
Proof using small. intros H Hv. rewrite len_lenEncBytes. by apply readLenEncInt_at. Qed.

Lemma reads_lenEncString s :
  at_ data pos (lenEncBytes (len s) ++ s) →
  readLenEncString data pos = Ok (Some (s, pos + len (lenEncBytes (len s) ++ s))) ∧
  skipLenEncString data pos = Ok (Some (pos + len (lenEncBytes (len s) ++ s))) ∧
  readLenEncStringAsBytesCopy data pos = Ok (Some (s, pos + len (lenEncBytes (len s) ++ s))).
Proof using small.
  intros H. rewrite len_app, len_lenEncBytes, Z.add_assoc.
  by destruct (readLenEncString_at data pos s small H) as (? & ? & ?).
Qed.

Lemma reads_null s :
  at_ data pos (s ++ [0]) → Forall (λ b, b ≠ 0) s → readNullString data pos = Ok (Some (s, pos + len (s ++ [0]))).
Proof using small.
  intros H Hs. pose proof H as (Hp & Hl & E). rewrite len_app in *. change (len [0]) with 1 in *.
  pose proof (len_nonneg s). unfold readNullString, slice, buffer in *.
  destruct (Z.leb_spec 0 pos), (Z.leb_spec pos (len data)), (Z.leb_spec (len data) (len data)); try lia.
  cbn [mbind outcome_bind andb]. rewrite take_ge by (unfold len in *; rewrite length_drop; lia).
  rewrite <- (take_drop (length (s ++ [0])) (drop (Z.to_nat pos) data)), E, <- app_assoc. simpl.
  rewrite indexZero_app by done. rewrite take_app_length, add_small by (unfold len in *; lia).
  unfold len. done.
Qed.
End Readers.

(** A field after the bytes that are changed. *)
Lemma at_splice_after data pos bs q cs : at_ data pos bs → 0 ≤ q → q + len cs ≤ pos → at_ (splice data q cs) pos bs.
Proof.
  intros (Hp & Hl & E) Hq Hc. pose proof (len_nonneg cs). pose proof (len_nonneg bs). unfold at_. rewrite len_splice by lia.
  split; [done|]. split; [done|]. rewrite <- E at 2. f_equal. unfold splice, len in *.
  rewrite app_assoc, drop_app_ge, drop_drop; rewrite length_app, length_take; [|lia]. f_equal. lia.
Qed.

Lemma at_bytes data pos bs : at_ data pos bs → take (Z.to_nat (pos + len bs - pos)) (drop (Z.to_nat pos) data) = bs.
Proof. intros (Hp & Hl & E). rewrite <- E at 2. f_equal. unfold len. lia. Qed.

Lemma copyAt_splice data pos bs : 0 ≤ pos → pos + len bs ≤ len data → copyAt data pos bs = Ok (splice data pos bs, len bs).
Proof.
  intros Hp Hl. unfold copyAt. pose proof (len_nonneg bs). destruct (Z.leb_spec 0 pos), (Z.leb_spec pos (len data)); try lia.
  simpl. rewrite Z.min_r by lia. unfold splice. rewrite (take_ge bs) by (unfold len; lia). done.
Qed.
