(* ===== verification/Sha.v ===== *)
(** * The digests of Go's [crypto/sha1] and [crypto/sha256]

    Both digests, as FIPS 180-4 defines them, on messages of bytes: the padding,
    the message schedule, the rounds over 32-bit words and the state printed
    big-endian. *)
From S2P Require Import Prelude Encoding.

(** ** Words *)

Definition rotl (n x : Z) : Z := Z.lor (wrapU 32 (Z.shiftl x n)) (Z.shiftr x (32 - n)).
Definition rotr (n x : Z) : Z := rotl (32 - n) x.
Definition not32 (x : Z) : Z := Z.lxor x (2 ^ 32 - 1).

(** The [n] bytes of a number, the most significant first. *)
Definition bigEndian (n : nat) (v : Z) : bytes := reverse (littleEndian n v).

(** The message, a bit, zeroes up to 56 bytes of the last block, and the
    number of bits. *)
Definition padMessage (m : bytes) : bytes :=
  m ++ [0x80] ++ replicate (Z.to_nat ((55 - len m) mod 64)) 0 ++ bigEndian 8 (8 * len m).

(** The words of a message, four bytes each. *)
Fixpoint words (m : bytes) : list Z :=
  match m with
  | a :: b :: c :: d :: m => fromLittleEndian [d; c; b; a] :: words m
  | _ => []
  end.

(** The blocks of 16 words. *)
Fixpoint blocks (fuel : nat) (ws : list Z) : list (list Z) :=
  match fuel with
  | O => []
  | S fuel => match ws with [] => [] | _ => take 16 ws :: blocks fuel (drop 16 ws) end
  end.

Definition blocksOf (m : bytes) : list (list Z) := let ws := words (padMessage m) in blocks (length ws) ws.

(** The schedule, the last word first: [next] gives a word from the ones
    before it. *)
Fixpoint extend (next : list Z → Z) (n : nat) (rev : list Z) : list Z :=
  match n with
  | O => rev
  | S n => extend next n (next rev :: rev)
  end.

Definition schedule (next : list Z → Z) (n : nat) (block : list Z) : list Z :=
  reverse (extend next n (reverse block)).

(** The word [k] places before the next. *)
Definition back (k : nat) (rev : list Z) : Z := nth (k - 1) rev 0.

(** A digest: the state absorbs each block. *)
Definition compress (rounds : list Z → list Z → list Z) (h block : list Z) : list Z :=
  zip_with (λ a b, wrapU 32 (a + b)) h (rounds h block).

Definition digest (init : list Z) (rounds : list Z → list Z → list Z) (m : bytes) : bytes :=
  concat (map (bigEndian 4) (foldl (compress rounds) init (blocksOf m))).

(** ** SHA-1 *)

Definition sha1_init : list Z := [0x67452301; 0xefcdab89; 0x98badcfe; 0x10325476; 0xc3d2e1f0].

Definition sha1_next (rev : list Z) : Z :=
  rotl 1 (Z.lxor (Z.lxor (back 3 rev) (back 8 rev)) (Z.lxor (back 14 rev) (back 16 rev))).

(** The function and the constant of round [t]. *)
Definition sha1_f (t : nat) (b c d : Z) : Z :=
  if (t <? 20)%nat then Z.lor (Z.land b c) (Z.land (not32 b) d)
  else if (t <? 40)%nat then Z.lxor (Z.lxor b c) d
  else if (t <? 60)%nat then Z.lor (Z.lor (Z.land b c) (Z.land b d)) (Z.land c d)
  else Z.lxor (Z.lxor b c) d.

Definition sha1_k (t : nat) : Z :=
  if (t <? 20)%nat then 0x5a827999 else if (t <? 40)%nat then 0x6ed9eba1
  else if (t <? 60)%nat then 0x8f1bbcdc else 0xca62c1d6.

Definition sha1_step (s : list Z) (tw : nat * Z) : list Z :=
  match s with
  | [a; b; c; d; e] =>
      [wrapU 32 (rotl 5 a + sha1_f tw.1 b c d + e + sha1_k tw.1 + tw.2); a; rotl 30 b; c; d]
  | _ => s
  end.

Definition sha1_rounds (h block : list Z) : list Z :=
  let ws := schedule sha1_next 64 block in foldl sha1_step h (zip (seq 0 (length ws)) ws).

Definition sha1_Sum (m : bytes) : bytes := digest sha1_init sha1_rounds m.

(** ** SHA-256 *)

(** The constants are bits of the roots of the first primes: of a root of
    [p], the first 32 bits after the point. *)
Definition isPrime (n : nat) : bool := forallb (λ d, negb (n mod d =? 0)%nat) (seq 2 (n - 2)).
Definition primes (n : nat) : list Z := take n (map Z.of_nat (filter (λ p, isPrime p = true) (seq 2 400))).

(** The largest number of at most [n] bits whose cube is not above [x]. *)
Fixpoint cubeRoot (n : nat) (x r : Z) : Z :=
  match n with
  | O => r
  | S n => let r' := r + 2 ^ Z.of_nat n in cubeRoot n x (if r' ^ 3 <=? x then r' else r)
  end.

Definition sha256_init : list Z := Eval vm_compute in map (λ p, Z.sqrt (Z.shiftl p 64) mod 2 ^ 32) (primes 8).
Definition sha256_k : list Z := Eval vm_compute in map (λ p, cubeRoot 40 (Z.shiftl p 96) 0 mod 2 ^ 32) (primes 64).

Definition sha256_next (rev : list Z) : Z :=
  let x := back 15 rev in
  let y := back 2 rev in
  let s0 := Z.lxor (Z.lxor (rotr 7 x) (rotr 18 x)) (Z.shiftr x 3) in
  let s1 := Z.lxor (Z.lxor (rotr 17 y) (rotr 19 y)) (Z.shiftr y 10) in
  wrapU 32 (back 16 rev + s0 + back 7 rev + s1).

Definition sha256_step (s : list Z) (kw : Z * Z) : list Z :=
  match s with
  | [a; b; c; d; e; f; g; h] =>
      let s1 := Z.lxor (Z.lxor (rotr 6 e) (rotr 11 e)) (rotr 25 e) in
      let ch := Z.lxor (Z.land e f) (Z.land (not32 e) g) in
      let t1 := h + s1 + ch + kw.1 + kw.2 in
      let s0 := Z.lxor (Z.lxor (rotr 2 a) (rotr 13 a)) (rotr 22 a) in
      let maj := Z.lxor (Z.lxor (Z.land a b) (Z.land a c)) (Z.land b c) in
      [wrapU 32 (t1 + s0 + maj); a; b; c; wrapU 32 (d + t1); e; f; g]
  | _ => s
  end.

Definition sha256_rounds (h block : list Z) : list Z :=
  foldl sha256_step h (zip sha256_k (schedule sha256_next 48 block)).

Definition sha256_Sum (m : bytes) : bytes := digest sha256_init sha256_rounds m.

(** ** The size of a digest *)

Lemma length_foldl {A B} (step : list A → B → list A) n s l :
  (∀ s b, length s = n → length (step s b) = n) → length s = n → length (foldl step s l) = n.
Proof. intros Hstep. revert s. induction l as [|b l IH]; intros s Hs; simpl; auto. Qed.

Lemma length_bigEndian n v : length (bigEndian n v) = n.
Proof. unfold bigEndian, littleEndian. by rewrite length_reverse, length_map, length_seq. Qed.

Lemma length_concat_words l : length (concat (map (bigEndian 4) l)) = (4 * length l)%nat.
Proof. induction l as [|x l IH]; [done|]. cbn [map concat]. rewrite length_app, length_bigEndian, IH. simpl. lia. Qed.

Lemma length_digest init rounds m :
  (∀ h b, length h = length init → length (rounds h b) = length init) →
  length (digest init rounds m) = (4 * length init)%nat.
Proof.
  intros Hr. unfold digest. rewrite length_concat_words. f_equal. apply length_foldl; [|done].
  intros h b Hh. unfold compress. rewrite length_zip_with, Hr by done. lia.
Qed.

Lemma length_sha1 m : length (sha1_Sum m) = 20%nat.
Proof.
  apply length_digest. intros h b Hh. apply length_foldl; [|done]. intros s tw Hs.
  by do 6 (destruct s as [|? s]; try done).
Qed.

Lemma length_sha256 m : length (sha256_Sum m) = 32%nat.
Proof.
  apply length_digest. intros h b Hh. apply length_foldl; [|done]. intros s tw Hs.
  by do 9 (destruct s as [|? s]; try done).
Qed.

(** ** Published test vectors *)

Example sha1_abc : sha1_Sum [97; 98; 99]
  = concat (map (bigEndian 4) [0xa9993e36; 0x4706816a; 0xba3e2571; 0x7850c26c; 0x9cd0d89d]).
Proof. by vm_compute. Qed.

Example sha256_abc : sha256_Sum [97; 98; 99]
  = concat (map (bigEndian 4) [0xba7816bf; 0x8f01cfea; 0x414140de; 0x5dae2223; 0xb00361a3; 0x96177a9c; 0xb410ff61; 0xf20015ad]).
Proof. by vm_compute. Qed.

Example sha1_empty : sha1_Sum [] = concat (map (bigEndian 4) [0xda39a3ee; 0x5e6b4b0d; 0x3255bfef; 0x95601890; 0xafd80709]).
Proof. by vm_compute. Qed.

(** The 56 letters of the standard's second example fill two blocks. *)
Example sha1_two_blocks :
  sha1_Sum (concat (map (λ k, map (λ j, 97 + Z.of_nat (k + j)) (seq 0 4)) (seq 0 14)))
  = concat (map (bigEndian 4) [0x84983e44; 0x1c3bd26e; 0xbaae4aa1; 0xf95129e5; 0xe54670f1]).
Proof. by vm_compute. Qed.
