(* ===== verification/Auth.v ===== *)
(** * Authentication: [pkg/mysql/auth.go], [pkg/security/tenant.go],
    [pkg/mysql/server.go] ([newSalt], [ValidateHash])

    The scrambles of the authentication plugins, the registry of tenants with
    their users and clusters, and the check of a login.  Strings are their
    bytes. *)
From S2P Require Import Prelude GoStd Encoding Packet Sha.

(** [errors.NewSQLError] with its formatted message. *)
Definition NewSQLError (number : Z) (sqlState message : bytes) : error :=
  SQLError number (if len sqlState =? 0 then SSUnknownSQLState else sqlState) message.

Definition ERAccessDeniedError : Z := 1045.
Definition SSAccessDeniedError : bytes := text "28000".
Definition MysqlNativePassword : bytes := text "mysql_native_password".

(** ** The pre-4.1 scramble *)

Record myRnd := mkRnd { seed1 : Z; seed2 : Z }.

Definition myRndMaxVal : Z := 0x3FFFFFFF.

Definition newMyRnd (s1 s2 : Z) : myRnd := mkRnd (s1 mod myRndMaxVal) (s2 mod myRndMaxVal).

Definition NextByte (r : myRnd) : myRnd * Z :=
  let seed1' := u32 (u32 (seed1 r * 3) + seed2 r) mod myRndMaxVal in
  let seed2' := u32 (u32 (seed1' + seed2 r) + 33) mod myRndMaxVal in
  (mkRnd seed1' seed2', byte (u64 (seed1' * 31) / myRndMaxVal)).

(** One turn of the loop over the password: [result[0]], [result[1]], [add]. *)
Definition pwHashTurn (s : Z * Z * Z) (c : Z) : Z * Z * Z :=
  let '(r0, r1, acc) := s in
  if (c =? 32) || (c =? 9) then s
  else
    let r0 := Z.lxor r0 (u32 (u32 (u32 (Z.land r0 63 + acc) * c) + u32 (Z.shiftl r0 8))) in
    let r1 := u32 (r1 + Z.lxor (u32 (Z.shiftl r1 8)) r0) in
    (r0, r1, u32 (acc + c)).

Definition pwHash (password : bytes) : Z * Z :=
  let '(r0, r1, _) := foldl pwHashTurn (1345345333, 0x12345671, 7) password in
  (Z.land r0 0x7FFFFFFF, Z.land r1 0x7FFFFFFF).

(** The next [n] bytes of the generator. *)
Fixpoint nextBytes (n : nat) (r : myRnd) : myRnd * bytes :=
  match n with
  | O => (r, [])
  | S n => let '(r, b) := NextByte r in let '(r, bs) := nextBytes n r in (r, b :: bs)
  end.

Definition scrambleOldPassword (scramble password : bytes) : outcome bytes :=
  scramble ← slice scramble 0 8;
  let hashPw := pwHash password in
  let hashSc := pwHash scramble in
  let r := newMyRnd (Z.lxor hashPw.1 hashSc.1) (Z.lxor hashPw.2 hashSc.2) in
  let '(r, out) := nextBytes 8 r in
  let '(_, mask) := NextByte r in
  Ok (map (λ b, Z.lxor (byte (b + 64)) mask) out).

(** ** The scrambles with a digest *)

Definition xorBytes (a b : bytes) : bytes := zip_with Z.lxor a b.

(** A nil slice and an empty one have the same bytes. *)
Definition scramblePassword (scramble password : bytes) : bytes :=
  if len password =? 0 then []
  else
    let stage1 := sha1_Sum password in
    let hash := sha1_Sum stage1 in
    xorBytes (sha1_Sum (scramble ++ hash)) stage1.

Definition scrambleSHA256Password (scramble password : bytes) : bytes :=
  if len password =? 0 then []
  else
    let message1 := sha256_Sum password in
    let message1Hash := sha256_Sum message1 in
    xorBytes message1 (sha256_Sum (message1Hash ++ scramble)).

(** ** The registry of tenants *)

Record User := mkUser { Username : bytes; Password : bytes }.

Record tenantItem := mkTenantItem { clusters : gset bytes; users : gmap bytes User }.

Record simpleTenantManager := mkTenantManager { supervisor : option User; tenants : gmap bytes tenantItem }.

Definition newSimpleTenantManager : simpleTenantManager := mkTenantManager None ∅.

Definition withTenants (f : gmap bytes tenantItem → gmap bytes tenantItem) (st : simpleTenantManager) : simpleTenantManager :=
  mkTenantManager (supervisor st) (f (tenants st)).

Section Registry.
Context {I : MapIter}.

Definition GetTenants (st : simpleTenantManager) : list bytes := (iter_order (tenants st)).*1.

Definition GetUser (st : simpleTenantManager) (tenant username : bytes) : option User :=
  item ← tenants st !! tenant; users item !! username.

Definition GetUsers (st : simpleTenantManager) (tenant : bytes) : option (list User) :=
  item ← tenants st !! tenant; Some (iter_order (users item)).*2.

(** The keys of a set are ranged over as those of a map. *)
Definition GetClusters (st : simpleTenantManager) (tenant : bytes) : list bytes :=
  match tenants st !! tenant with
  | None => []
  | Some item => (iter_order (gset_to_gmap tt (clusters item))).*1
  end.

Definition GetTenantsOfCluster (st : simpleTenantManager) (cluster : bytes) : list bytes :=
  (filter (λ kv : bytes * tenantItem, cluster ∈ clusters kv.2) (iter_order (tenants st))).*1.
End Registry.

Definition currentItem (st : simpleTenantManager) (tenant : bytes) : tenantItem :=
  default (mkTenantItem ∅ ∅) (tenants st !! tenant).

Definition PutUser (st : simpleTenantManager) (tenant : bytes) (user : User) : simpleTenantManager :=
  let current := currentItem st tenant in
  withTenants (insert tenant (mkTenantItem (clusters current) (<[Username user := user]> (users current)))) st.

Definition RemoveUser (st : simpleTenantManager) (tenant username : bytes) : simpleTenantManager :=
  match tenants st !! tenant with
  | None => st
  | Some item => withTenants (insert tenant (mkTenantItem (clusters item) (delete username (users item)))) st
  end.

Definition PutCluster (st : simpleTenantManager) (tenant cluster : bytes) : simpleTenantManager :=
  let current := currentItem st tenant in
  withTenants (insert tenant (mkTenantItem ({[cluster]} ∪ clusters current) (users current))) st.

Definition RemoveCluster (st : simpleTenantManager) (tenant cluster : bytes) : simpleTenantManager :=
  match tenants st !! tenant with
  | None => st
  | Some item => withTenants (insert tenant (mkTenantItem (clusters item ∖ {[cluster]}) (users item))) st
  end.

Definition SetSupervisor (st : simpleTenantManager) (user : option User) : simpleTenantManager :=
  mkTenantManager user (tenants st).

Definition GetSupervisor (st : simpleTenantManager) : option User := supervisor st.

(** ** The check of a login *)

Record handshakeResult := mkHandshake {
  h_connectionID : Z;
  h_schema : bytes;
  h_tenant : bytes;
  h_username : bytes;
  h_authMethod : bytes;
  h_authResponse : bytes;
  h_salt : bytes;
}.

Definition setTenant (t : bytes) (h : handshakeResult) : handshakeResult :=
  mkHandshake (h_connectionID h) (h_schema h) t (h_username h) (h_authMethod h) (h_authResponse h) (h_salt h).
Definition setUsername (u : bytes) (h : handshakeResult) : handshakeResult :=
  mkHandshake (h_connectionID h) (h_schema h) (h_tenant h) u (h_authMethod h) (h_authResponse h) (h_salt h).

(** [strings.IndexByte]. *)
Fixpoint indexByte (c : Z) (s : bytes) : option nat :=
  match s with
  | [] => None
  | b :: s => if b =? c then Some O else S <$> indexByte c s
  end.

(** Twenty random bytes made printable. *)
Definition saltByte (b : Z) : Z :=
  let b := Z.land b 0x7f in
  if (b =? 0) || (b =? 36) then b + 1 else b.

Definition newSalt (rand_Read : outcome bytes) : outcome bytes := salt ← rand_Read; Ok (map saltByte salt).

Section Validate.
Context {I : MapIter} (tm : simpleTenantManager).

Definition accessDenied (h : handshakeResult) : error :=
  NewSQLError ERAccessDeniedError SSAccessDeniedError (text "Access denied for user '" ++ h_username h ++ text "'").

Definition doAuth (h : handshakeResult) (tenant : bytes) : bool :=
  match GetUser tm tenant (h_username h) with
  | None => false
  | Some user => bool_decide (h_authResponse h = scramblePassword (h_salt h) (Password user))
  end.

(** The loop over the candidates with the tenant found so far; [None] where
    a second one is found. *)
Fixpoint searchTenant (h : handshakeResult) (ts : list bytes) (tenant : bytes) : option bytes :=
  match ts with
  | [] => Some tenant
  | t :: ts =>
      if doAuth h t then
        if 0 <? len tenant then None else searchTenant h ts t
      else searchTenant h ts tenant
  end.

(** [tenant.user], unless the point is the first or the last byte. *)
Definition splitUsername (username : bytes) : option (bytes * bytes) :=
  match indexByte 46 username with
  | Some idx =>
      if (0 <? Z.of_nat idx) && negb (Z.of_nat idx =? len username - 1)
      then Some (take idx username, drop (S idx) username) else None
  | None => None
  end.

Definition loginCandidates (h : handshakeResult) : list bytes :=
  if len (h_schema h) <? 1 then GetTenants tm else GetTenantsOfCluster tm (h_schema h).

(** The handshake with what is changed in it, and the error. *)
Definition ValidateHash (h : handshakeResult) : handshakeResult * option error :=
  match splitUsername (h_username h) with
  | Some (tenant, username) =>
      let h := setUsername username h in
      if doAuth h tenant then (setTenant tenant h, None) else (h, Some (accessDenied h))
  | None =>
      match searchTenant h (loginCandidates h) [] with
      | None => (h, Some (accessDenied h))
      | Some tenant =>
          if len tenant <? 1 then (h, Some (accessDenied h)) else (setTenant tenant h, None)
      end
  end.
End Validate.

(** ** The old scramble without wrap-around *)

(** The generator on unbounded integers. *)
Definition idealByte (r : myRnd) : myRnd * Z :=
  let seed1' := (seed1 r * 3 + seed2 r) mod myRndMaxVal in
  (mkRnd seed1' ((seed1' + seed2 r + 33) mod myRndMaxVal), seed1' * 31 / myRndMaxVal).

Fixpoint idealBytes (n : nat) (r : myRnd) : myRnd * bytes :=
  match n with
  | O => (r, [])
  | S n => let '(r, b) := idealByte r in let '(r, bs) := idealBytes n r in (r, b :: bs)
  end.

Definition seeded (r : myRnd) : Prop := 0 ≤ seed1 r < myRndMaxVal ∧ 0 ≤ seed2 r < myRndMaxVal.

Lemma NextByte_ideal r : seeded r → NextByte r = idealByte r ∧ seeded (NextByte r).1 ∧ 0 ≤ (NextByte r).2 < 31.
Proof.
  intros [H1 H2]. unfold NextByte, idealByte, seeded, byte. unfold myRndMaxVal in *.
  rewrite (wrapU_id 32 (seed1 r * 3)), (wrapU_id 32 (seed1 r * 3 + seed2 r)) by (unfold inU; lia).
  set (s := (seed1 r * 3 + seed2 r) mod 0x3FFFFFFF). assert (0 ≤ s < 0x3FFFFFFF) as Hs by (apply Z.mod_pos_bound; lia).
  rewrite (wrapU_id 32 (s + seed2 r)), (wrapU_id 32 (s + seed2 r + 33)), (wrapU_id 64) by (unfold inU; lia).
  assert (0 ≤ s * 31 / 0x3FFFFFFF < 31) as Hq.
  { split; [apply Z.div_pos; lia|apply Z.div_lt_upper_bound; lia]. }
  rewrite wrapU_id by (unfold inU; lia). split; [done|]. simpl. split; [|done]. split; [done|]. apply Z.mod_pos_bound. lia.
Qed.

Lemma nextBytes_ideal n r :
  seeded r → nextBytes n r = idealBytes n r ∧ seeded (nextBytes n r).1 ∧ Forall (λ b, 0 ≤ b < 31) (nextBytes n r).2 ∧
    length (nextBytes n r).2 = n.
Proof.
  revert r. induction n as [|n IH]; intros r Hr; [done|]. cbn [nextBytes idealBytes].
  destruct (NextByte_ideal r Hr) as (E & Hr' & Hb). rewrite <- E. destruct (NextByte r) as [r' b].
  destruct (IH r' Hr') as (E' & Hs & Hbs & El). rewrite <- E'. destruct (nextBytes n r') as [r'' bs].
  simpl in *. repeat split; [apply Hs..| |lia]. by constructor.
Qed.

Lemma lxor_low a m : 0 ≤ a < 31 → 0 ≤ m < 31 → 64 ≤ Z.lxor (a + 64) m < 96.
Proof.
  intros Ha Hm. rewrite Z.add_comm. replace (64 + a) with (Z.lor (Z.shiftl 2 5) a) by (rewrite lor_low; simpl; lia).
  replace (Z.lxor (Z.lor (Z.shiftl 2 5) a) m) with (Z.lor (Z.shiftl 2 5) (Z.lxor a m)).
  - assert (0 ≤ Z.lxor a m < 2 ^ 5) as Hx.
    { split; [by apply Z.lxor_nonneg; lia|]. destruct (Z.eq_dec (Z.lxor a m) 0) as [->|Hn]; [done|].
      apply Z.log2_lt_pow2; [assert (0 ≤ Z.lxor a m) by (apply Z.lxor_nonneg; lia); lia|].
      eapply Z.le_lt_trans; [apply Z.log2_lxor; lia|]. 
      assert (∀ x, 0 ≤ x < 31 → Z.log2 x < 5) as Hl.
      { intros x Hx. destruct (Z.eq_dec x 0) as [->|]; [done|]. apply Z.log2_lt_pow2; lia. }
      apply Z.max_lub_lt; auto. }
    rewrite lor_low by lia. change (2 ^ 5) with 32 in *. lia.
  - apply Z.bits_inj'. intros k Hk. rewrite !Z.lxor_spec, !Z.lor_spec, !Z.lxor_spec.
    destruct (Z.lt_ge_cases k 5).
    + rewrite Z.shiftl_spec_low by lia. done.
    + assert (∀ x, 0 ≤ x < 31 → Z.testbit x k = false) as Hz.
      { intros x Hx. destruct (Z.eq_dec x 0) as [->|]; [apply Z.bits_0|]. apply Z.bits_above_log2; [lia|].
        assert (Z.log2 x < 5) by (apply Z.log2_lt_pow2; lia). lia. }
      rewrite (Hz a), (Hz m) by done. simpl. by rewrite xorb_false_r, orb_false_r.
Qed.

(** C37: The old scramble never wraps around: with a challenge of at least
    eight bytes it is the one of the generator on unbounded integers, and its
    eight bytes lie between 64 and 95, so that it has no zero byte before the
    one that ends it. *)
Theorem old_scramble_exact scramble password :
  8 ≤ len scramble →
  ∃ out, scrambleOldPassword scramble password = Ok out ∧ len out = 8 ∧ Forall (λ b, 64 ≤ b < 96) out ∧
    let h := pwHash password in
    let c := pwHash (take 8 scramble) in
    let '(r, bs) := idealBytes 8 (newMyRnd (Z.lxor h.1 c.1) (Z.lxor h.2 c.2)) in
    out = map (λ b, Z.lxor (b + 64) (idealByte r).2) bs.
Proof.
  intros Hl. unfold scrambleOldPassword, slice. destruct (Z.leb_spec 8 (len scramble)); [|lia].
  change ((0 <=? 0) && (0 <=? 8) && true) with true. cbn [mbind outcome_bind]. change (Z.to_nat (8 - 0)) with 8%nat.
  change (Z.to_nat 0) with 0%nat. rewrite drop_0. set (r := newMyRnd _ _).
  assert (seeded r) as Hr by (unfold seeded, r, newMyRnd; simpl; split; apply Z.mod_pos_bound; done).
  cbv zeta. destruct (nextBytes_ideal 8 r Hr) as (E & Hr' & Hb & El). rewrite <- E.
  destruct (nextBytes 8 r) as [r' bs]. cbn [fst snd] in *.
  destruct (NextByte_ideal r' Hr') as (E' & _ & Hm). rewrite <- E'. destruct (NextByte r') as [r'' mask]. cbn [fst snd] in *.
  assert (map (λ b, Z.lxor (byte (b + 64)) mask) bs = map (λ b, Z.lxor (b + 64) mask) bs) as ->.
  { apply map_ext_in. intros b Hin. rewrite Forall_forall in Hb. specialize (Hb b). rewrite list_elem_of_In in Hb.
    specialize (Hb Hin). unfold byte. rewrite wrapU_id by (unfold inU; lia). done. }
  eexists. split; [done|]. split; [unfold len; rewrite length_map, El; done|]. split; [|done].
  apply Forall_map. eapply Forall_impl; [exact Hb|]. intros b Hbb. by apply lxor_low.
Qed.

Lemma old_scramble_exact_witness :
  ∃ out, scrambleOldPassword [57; 119; 58; 73; 97; 36; 41; 67] (text "arana") = Ok out ∧ len out = 8.
Proof.
  destruct (old_scramble_exact [57; 119; 58; 73; 97; 36; 41; 67] (text "arana")) as (out & H1 & H2 & _); [done|].
  exists out. split; [exact H1|exact H2].
Defined.

(** ** Logins *)

(** The tenant [t] has the user with a password that gives the response. *)
Definition accepts (tm : simpleTenantManager) (h : handshakeResult) (t : bytes) : Prop :=
  ∃ user, GetUser tm t (h_username h) = Some user ∧ h_authResponse h = scramblePassword (h_salt h) (Password user).

(** A tenant the login may be of: any, or one that has the schema as a
    cluster. *)
Definition candidate (tm : simpleTenantManager) (h : handshakeResult) (t : bytes) : Prop :=
  ∃ item, tenants tm !! t = Some item ∧ (h_schema h = [] ∨ h_schema h ∈ clusters item).

Lemma doAuth_accepts tm h t : doAuth tm h t = true ↔ accepts tm h t.
Proof.
  unfold doAuth, accepts. destruct (GetUser tm t (h_username h)) as [user|]; [rewrite bool_decide_eq_true|].
  - split; [eauto|]. by intros (? & [= ->] & ?).
  - split; [done|]. by intros (? & ? & _).
Qed.

Section LoginFacts.
Context {I : MapIter} {IL : MapIterLaws I} (tm : simpleTenantManager).

Lemma elem_GetTenants t : t ∈ GetTenants tm ↔ is_Some (tenants tm !! t).
Proof using IL.
  unfold GetTenants. rewrite list_elem_of_fmap. split.
  - intros ([k v] & -> & H%iter_order_lookup). by exists v.
  - intros [v H]. exists (t, v). split; [done|]. by apply iter_order_lookup.
Qed.

Lemma elem_GetTenantsOfCluster c t :
  t ∈ GetTenantsOfCluster tm c ↔ ∃ item, tenants tm !! t = Some item ∧ c ∈ clusters item.
Proof using IL.
  unfold GetTenantsOfCluster. rewrite list_elem_of_fmap. split.
  - intros ([k v] & -> & [Hc H%iter_order_lookup]%list_elem_of_filter). by exists v.
  - intros (v & H & Hc). exists (t, v). split; [done|]. apply list_elem_of_filter. split; [done|]. by apply iter_order_lookup.
Qed.

Lemma elem_loginCandidates h t : t ∈ loginCandidates tm h ↔ candidate tm h t.
Proof using IL.
  unfold loginCandidates, candidate. pose proof (len_nonneg (h_schema h)). destruct (Z.ltb_spec (len (h_schema h)) 1) as [Hl|Hl].
  - rewrite elem_GetTenants. assert (h_schema h = []) as ->. { destruct (h_schema h); [done|]. rewrite len_cons in Hl. pose proof (len_nonneg l). lia. }
    split; [intros [v ?]; eauto|intros (v & ? & _); by exists v].
  - rewrite elem_GetTenantsOfCluster. split; [intros (v & ? & ?); eauto|]. intros (v & ? & [E|?]); [|eauto].
    rewrite E in Hl. by change (len []) with 0 in Hl.
Qed.

Lemma NoDup_loginCandidates h : NoDup (loginCandidates tm h).
Proof using IL.
  unfold loginCandidates, GetTenants, GetTenantsOfCluster. pose proof (iter_order_NoDup (tenants tm)) as H.
  case_match; [done|]. revert H. induction (iter_order (tenants tm)) as [|[k v] l IH]; [done|].
  simpl. intros [Hn Hd]%NoDup_cons. rewrite filter_cons. case_decide; [|auto]. simpl. apply NoDup_cons. split; [|auto].
  intros ([k' v'] & -> & [_ Hin]%list_elem_of_filter)%list_elem_of_fmap. apply Hn. apply list_elem_of_fmap. eauto.
Qed.
End LoginFacts.

(** The search over tenants with a name: the one found so far is the only
    one that accepts. *)
Lemma searchTenant_spec tm h ts :
  NoDup ts → [] ∉ ts → ∀ found,
  match searchTenant tm h ts found with
  | None => (∃ t1 t2, t1 ≠ t2 ∧ t1 ∈ ts ∧ t2 ∈ ts ∧ accepts tm h t1 ∧ accepts tm h t2) ∨ (found ≠ [] ∧ ∃ t, t ∈ ts ∧ accepts tm h t)
  | Some t => (t = found ∧ ∀ t', t' ∈ ts → ¬ accepts tm h t') ∨
      (found = [] ∧ t ∈ ts ∧ accepts tm h t ∧ ∀ t', t' ∈ ts → accepts tm h t' → t' = t)
  end.
Proof.
  induction 1 as [|t ts Hn Hd IH]; intros He found; simpl; [left; split; [done|]; by intros ? ?%not_elem_of_nil|].
  apply not_elem_of_cons in He as [Ht He].
  pose proof (doAuth_accepts tm h t) as Ha. destruct (doAuth tm h t).
  - assert (accepts tm h t) as Hacc by (by apply Ha). destruct (Z.ltb_spec 0 (len found)) as [Hf|Hf].
    { right. split; [by intros ->|]. exists t. split; [by left|done]. }
    assert (found = []) as ->. { destruct found; [done|]. rewrite len_cons in Hf. pose proof (len_nonneg found). lia. }
    specialize (IH He t). destruct (searchTenant tm h ts t) as [t'|].
    + destruct IH as [[-> Hno]|(-> & _)]; [|done]. right. split; [done|]. split; [by left|]. split; [done|].
      intros t' [->|Hin]%elem_of_cons; [done|]. intros Hacc'. by destruct (Hno t').
    + destruct IH as [(t1 & t2 & ? & ? & ? & ? & ?)|(_ & t' & Hin & Hacc')]; left.
      { exists t1, t2. rewrite !elem_of_cons. auto. }
      exists t, t'. rewrite !elem_of_cons. split; [by intros ->|auto].
  - assert (¬ accepts tm h t) as Hacc by (intros ?%Ha; done). specialize (IH He found).
    destruct (searchTenant tm h ts found) as [t'|].
    + destruct IH as [[-> Hno]|(-> & Hin & Hacc' & Hu)]; [left|right].
      { split; [done|]. by intros t' [->|?]%elem_of_cons; [|apply Hno]. }
      split; [done|]. split; [by right|]. split; [done|]. intros t'' [->|?]%elem_of_cons ?; [done|auto].
    + destruct IH as [(t1 & t2 & ? & ? & ? & ? & ?)|(? & t' & ? & ?)]; [left|right].
      { exists t1, t2. rewrite !elem_of_cons. auto. }
      split; [done|]. exists t'. rewrite elem_of_cons. auto.
Qed.

(** C27: Whom a login lets in.  A name [tenant.user] is checked against that
    tenant.  Any other name is let in when it is accepted by exactly one of
    the tenants that have the schema (of all, without a schema), and is bound to
    it; in every other case, also where two tenants share the name and the
    password, access is denied with error 1045 and no tenant is bound. *)
Theorem login_decision {I : MapIter} {IL : MapIterLaws I} tm h :
  tenants tm !! [] = None →
  match splitUsername (h_username h) with
  | Some (tenant, username) =>
      let h' := setUsername username h in
      (accepts tm h' tenant ∧ ValidateHash tm h = (setTenant tenant h', None)) ∨
      (¬ accepts tm h' tenant ∧ ValidateHash tm h = (h', Some (accessDenied h')))
  | None =>
      (∃ t, candidate tm h t ∧ accepts tm h t ∧ (∀ t', candidate tm h t' → accepts tm h t' → t' = t) ∧
         ValidateHash tm h = (setTenant t h, None)) ∨
      (¬ (∃ t, candidate tm h t ∧ accepts tm h t ∧ ∀ t', candidate tm h t' → accepts tm h t' → t' = t) ∧
         ValidateHash tm h = (h, Some (accessDenied h)))
  end.
Proof.
  intros Hnil. unfold ValidateHash. destruct (splitUsername (h_username h)) as [[tenant username]|]; cbv zeta.
  { pose proof (doAuth_accepts tm (setUsername username h) tenant) as Ha.
    destruct (doAuth _ _ _); [left|right]; split; try done; [by apply Ha|by intros ?%Ha]. }
  assert ([] ∉ loginCandidates tm h) as He.
  { rewrite elem_loginCandidates. intros (item & Hi & _). by rewrite Hnil in Hi. }
  pose proof (searchTenant_spec tm h _ (NoDup_loginCandidates tm h) He []) as H.
  destruct (searchTenant _ _ _ _) as [t|].
  - destruct H as [[-> Hno]|(_ & Hin & Hacc & Hu)]; [right|left].
    + split; [|done]. intros (t & Hc & Hacc & _). apply (Hno t); [by apply elem_loginCandidates|done].
    + exists t. split; [by apply elem_loginCandidates|]. split; [done|].
      split; [intros t'; rewrite <- elem_loginCandidates; auto|]. destruct t as [|b t]; [done|].
      rewrite len_cons. pose proof (len_nonneg t). by destruct (Z.ltb_spec (1 + len t) 1); [lia|].
  - right. split; [|done]. destruct H as [(t1 & t2 & Hne & H1 & H2 & Ha1 & Ha2)|[[] _]]; [|done].
    intros (t & _ & _ & Hu). apply Hne. rewrite elem_loginCandidates in H1, H2.
    by rewrite (Hu t1 H1 Ha1), (Hu t2 H2 Ha2).
Qed.

(** Two tenants of which one has the cluster. *)
Module LoginExamples.
Definition registry : simpleTenantManager :=
  PutCluster (PutUser (PutUser newSimpleTenantManager (text "blue") (mkUser (text "root") (text "s3cret")))
    (text "green") (mkUser (text "root") (text "s3cret"))) (text "blue") (text "employees").

Definition attempt (schema username : bytes) : handshakeResult :=
  mkHandshake 1 schema [] username MysqlNativePassword (scramblePassword (text "abcdefghijklmnopqrst") (text "s3cret"))
    (text "abcdefghijklmnopqrst").
End LoginExamples.

Lemma login_decision_witness :
  tenants LoginExamples.registry !! [] = None ∧
  ∃ t, @ValidateHash ForwardIter.instance LoginExamples.registry (LoginExamples.attempt (text "employees") (text "root"))
    = (setTenant t (LoginExamples.attempt (text "employees") (text "root")), None).
Proof.
  split; [by vm_compute|].
  pose proof (@login_decision _ ForwardIter.laws LoginExamples.registry (LoginExamples.attempt (text "employees") (text "root")) eq_refl) as H.
  change (splitUsername _) with (@None (bytes * bytes)) in H. destruct H as [(t & _ & _ & _ & H)|[_ H]]; [by exists t|].
  exists (text "blue"). by vm_compute.
Defined.

(** The same name and password in two tenants: denied without a schema, let
    in with the schema of one of them or with its name. *)
Example ambiguous_login :
  snd (@ValidateHash ForwardIter.instance LoginExamples.registry (LoginExamples.attempt [] (text "root")))
    = Some (accessDenied (LoginExamples.attempt [] (text "root"))) ∧
  h_tenant (@ValidateHash ForwardIter.instance LoginExamples.registry (LoginExamples.attempt (text "employees") (text "root"))).1
    = text "blue" ∧
  h_tenant (@ValidateHash ForwardIter.instance LoginExamples.registry (LoginExamples.attempt [] (text "green.root"))).1
    = text "green".
Proof. by vm_compute. Qed.

(** ** The registry as a relation *)

(** What the registry promises: which tenants there are, the users by tenant
    and name, and the pairs of a tenant and a cluster. *)
Record directory := mkDirectory {
  d_tenants : gset bytes;
  d_users : gmap (bytes * bytes) User;
  d_clusters : gset (bytes * bytes);
}.

Inductive registryOp :=
| OpPutUser (tenant : bytes) (user : User)
| OpRemoveUser (tenant username : bytes)
| OpPutCluster (tenant cluster : bytes)
| OpRemoveCluster (tenant cluster : bytes)
| OpSetSupervisor (user : option User).

Definition registryStep (st : simpleTenantManager) (op : registryOp) : simpleTenantManager :=
  match op with
  | OpPutUser t u => PutUser st t u
  | OpRemoveUser t n => RemoveUser st t n
  | OpPutCluster t c => PutCluster st t c
  | OpRemoveCluster t c => RemoveCluster st t c
  | OpSetSupervisor u => SetSupervisor st u
  end.

Definition directoryStep (d : directory) (op : registryOp) : directory :=
  match op with
  | OpPutUser t u => mkDirectory ({[t]} ∪ d_tenants d) (<[(t, Username u) := u]> (d_users d)) (d_clusters d)
  | OpRemoveUser t n => mkDirectory (d_tenants d) (delete (t, n) (d_users d)) (d_clusters d)
  | OpPutCluster t c => mkDirectory ({[t]} ∪ d_tenants d) (d_users d) ({[(t, c)]} ∪ d_clusters d)
  | OpRemoveCluster t c => mkDirectory (d_tenants d) (d_users d) (d_clusters d ∖ {[(t, c)]})
  | OpSetSupervisor u => d
  end.

(** The answers of the registry are those of the directory. *)
Record answers (st : simpleTenantManager) (d : directory) : Prop := mkAnswers {
  answers_tenants : ∀ t, is_Some (tenants st !! t) ↔ t ∈ d_tenants d;
  answers_users : ∀ t n, GetUser st t n = d_users d !! (t, n);
  answers_clusters : ∀ t c, (∃ item, tenants st !! t = Some item ∧ c ∈ clusters item) ↔ (t, c) ∈ d_clusters d;
}.

(** Writing the item of one tenant. *)
Lemma answers_write st d t item' d' :
  answers st d →
  d_tenants d' = {[t]} ∪ d_tenants d →
  (∀ n, users item' !! n = d_users d' !! (t, n)) → (∀ t' n, t' ≠ t → d_users d' !! (t', n) = d_users d !! (t', n)) →
  (∀ c, c ∈ clusters item' ↔ (t, c) ∈ d_clusters d') → (∀ t' c, t' ≠ t → (t', c) ∈ d_clusters d' ↔ (t', c) ∈ d_clusters d) →
  answers (withTenants (insert t item') st) d'.
Proof.
  intros [Ht Hu Hc] Et Eu Fu Ec Fc. split.
  - intros t'. rewrite Et, elem_of_union, elem_of_singleton, <- Ht. simpl. rewrite lookup_insert_is_Some.
    split; [intros [->|[_ ?]]; auto|]. destruct (decide (t = t')); [auto|]. intros [->|?]; auto.
  - intros t' n. unfold GetUser. simpl. destruct (decide (t' = t)) as [->|Hne].
    + rewrite lookup_insert_eq. simpl. apply Eu.
    + rewrite lookup_insert_ne by done. rewrite Fu by done. apply Hu.
  - intros t' c. simpl. destruct (decide (t' = t)) as [->|Hne].
    + rewrite lookup_insert_eq, <- Ec. split; [by intros (item & [= <-] & ?)|eauto].
    + rewrite lookup_insert_ne by done. rewrite Fc by done. apply Hc.
Qed.

(** The current item of a tenant answers for it, and an absent one is empty. *)
Lemma answers_current st d t :
  answers st d →
  (∀ n, users (currentItem st t) !! n = d_users d !! (t, n)) ∧ (∀ c, c ∈ clusters (currentItem st t) ↔ (t, c) ∈ d_clusters d).
Proof.
  intros [_ Hu Hc]. unfold currentItem. split.
  - intros n. rewrite <- Hu. unfold GetUser. by destruct (tenants st !! t).
  - intros c. rewrite <- Hc. destruct (tenants st !! t); simpl; set_solver.
Qed.

Lemma registryStep_answers st d op : answers st d → answers (registryStep st op) (directoryStep d op).
Proof.
  intros H. pose proof H as [Ht Hu Hc].
  assert (∀ t item, tenants st !! t = Some item → t ∈ d_tenants d ∧ currentItem st t = item) as Hcur.
  { intros t item E. split; [apply Ht; by exists item|]. unfold currentItem. by rewrite E. }
  destruct op as [t u|t n|t c|t c|u]; simpl.
  - destruct (answers_current st d t H) as [Eu Ec]. apply (answers_write st d); simpl; try done.
    + intros n. destruct (decide (n = Username u)) as [->|]; [by rewrite !lookup_insert_eq|].
      rewrite !lookup_insert_ne by congruence. apply Eu.
    + intros t' n Hne. rewrite lookup_insert_ne by congruence. done.
  - unfold RemoveUser. destruct (tenants st !! t) as [item|] eqn:E.
    + destruct (answers_current st d t H) as [Eu Ec]. destruct (Hcur t item E) as [Hin Ei]. rewrite Ei in Eu, Ec.
      apply (answers_write st d); simpl; try done; [set_solver| |].
      * intros m. destruct (decide (m = n)) as [->|]; [by rewrite !lookup_delete_eq|].
        rewrite !lookup_delete_ne by congruence. apply Eu.
      * intros t' m Hne. rewrite lookup_delete_ne by congruence. done.
    + split; [done| |done]. intros t' m. simpl. rewrite Hu. destruct (decide ((t', m) = (t, n))) as [[= -> ->]|Hne].
      * rewrite lookup_delete_eq, <- Hu. unfold GetUser. by rewrite E.
      * by rewrite lookup_delete_ne by done.
  - destruct (answers_current st d t H) as [Eu Ec]. apply (answers_write st d); simpl; try done; [|set_solver].
    intros c'. specialize (Ec c'). set_solver.
  - unfold RemoveCluster. destruct (tenants st !! t) as [item|] eqn:E.
    + destruct (answers_current st d t H) as [Eu Ec]. destruct (Hcur t item E) as [Hin Ei]. rewrite Ei in Eu, Ec.
      apply (answers_write st d); simpl; try done; [set_solver| |set_solver]. intros c'. specialize (Ec c'). set_solver.
    + split; [done|done|]. intros t' c'. simpl. rewrite Hc, elem_of_difference, elem_of_singleton.
      split; [|by intros [? _]]. intros Hin. split; [done|]. intros [= -> ->]. apply Hc in Hin as (item & E' & _). congruence.
  - done.
Qed.

(** C28: The registry of tenants implements the directory: after any
    sequence of operations on a new registry its queries answer as the
    directory after the same operations; [GetTenants], [GetTenantsOfCluster]
    and [GetClusters] list every answer once. *)
Theorem registry_refines {I : MapIter} {IL : MapIterLaws I} ops :
  let st := foldl registryStep newSimpleTenantManager ops in
  let d := foldl directoryStep (mkDirectory ∅ ∅ ∅) ops in
  (∀ t n, GetUser st t n = d_users d !! (t, n)) ∧
  (∀ t, t ∈ GetTenants st ↔ t ∈ d_tenants d) ∧ NoDup (GetTenants st) ∧
  (∀ t c, t ∈ GetTenantsOfCluster st c ↔ (t, c) ∈ d_clusters d) ∧
  (∀ t c, c ∈ GetClusters st t ↔ (t, c) ∈ d_clusters d) ∧ (∀ t, NoDup (GetClusters st t)).
Proof.
  intros st d. assert (answers st d) as [Ht Hu Hc].
  { unfold st, d. assert (answers newSimpleTenantManager (mkDirectory ∅ ∅ ∅)) as H0.
    { split; [intros t; simpl; rewrite lookup_empty; split; [by intros [? ?]|set_solver]|intros t n; done|].
      intros t c. simpl. rewrite lookup_empty. set_solver. }
    revert H0. generalize newSimpleTenantManager (mkDirectory ∅ ∅ ∅).
    induction ops as [|op ops IH]; intros s d' H; simpl; [done|]. apply IH, registryStep_answers, H. }
  split; [exact Hu|]. split; [intros t; by rewrite elem_GetTenants|]. split; [apply iter_order_NoDup|].
  split; [intros t c; by rewrite elem_GetTenantsOfCluster|]. split.
  - intros t c. rewrite <- Hc. unfold GetClusters. destruct (tenants st !! t) as [item|]; [|set_solver].
    rewrite list_elem_of_fmap. split.
    + intros ([k []] & -> & [Hin _]%iter_order_lookup%lookup_gset_to_gmap_Some). eauto.
    + intros (item' & [= <-] & Hin). exists (c, tt). split; [done|]. apply iter_order_lookup, lookup_gset_to_gmap_Some. done.
  - intros t. unfold GetClusters. destruct (tenants st !! t); [apply iter_order_NoDup|constructor].
Qed.

Lemma registry_refines_witness :
  let ops := [OpPutUser [1] (mkUser [2] [3]); OpPutCluster [1] [4]; OpRemoveUser [1] [2]] in
  let st := foldl registryStep newSimpleTenantManager ops in
  GetUser st [1] [2] = None ∧ ([4] : bytes) ∈ @GetClusters ForwardIter.instance st [1].
Proof.
  destruct (@registry_refines ForwardIter.instance ForwardIter.laws
    [OpPutUser [1] (mkUser [2] [3]); OpPutCluster [1] [4]; OpRemoveUser [1] [2]]) as (Hu & _ & _ & _ & Hc & _).
  cbv zeta in *. split; [rewrite Hu; vm_compute; reflexivity|]. apply Hc. apply (bool_decide_unpack _). vm_compute. exact Logic.I.
Defined.
