(* ===== verification/Handshake.v ===== *)
(** * The handshake of a connection: [pkg/mysql/server.go] ([handshake],
    [writeHandshakeV10], [parseClientHandshakePacket], [parseConnAttrs]),
    [pkg/mysql/client.go] ([clientHandshake], [parseInitialHandshakePacket],
    [writeHandshakeResponse41], [WriteComInitDB]), [pkg/mysql/auth.go] ([auth],
    [handleAuthResult] and its packets)

    Each side is a state with its connection; an operation returns the new
    state and an outcome. *)
From S2P Require Import Prelude GoStd Encoding Packet Sha Auth.

(** ** Collations *)

Definition Collations : list (string * Z) := [
  ("big5_chinese_ci", 1); ("latin2_czech_cs", 2); ("dec8_swedish_ci", 3); ("cp850_general_ci", 4);
  ("latin1_german1_ci", 5); ("hp8_english_ci", 6); ("koi8r_general_ci", 7); ("latin1_swedish_ci", 8);
  ("latin2_general_ci", 9); ("swe7_swedish_ci", 10); ("ascii_general_ci", 11); ("ujis_japanese_ci", 12);
  ("sjis_japanese_ci", 13); ("cp1251_bulgarian_ci", 14); ("latin1_danish_ci", 15); ("hebrew_general_ci", 16);
  ("tis620_thai_ci", 18); ("euckr_korean_ci", 19); ("latin7_estonian_cs", 20); ("latin2_hungarian_ci", 21);
  ("koi8u_general_ci", 22); ("cp1251_ukrainian_ci", 23); ("gb2312_chinese_ci", 24); ("greek_general_ci", 25);
  ("cp1250_general_ci", 26); ("latin2_croatian_ci", 27); ("gbk_chinese_ci", 28); ("cp1257_lithuanian_ci", 29);
  ("latin5_turkish_ci", 30); ("latin1_german2_ci", 31); ("armscii8_general_ci", 32); ("utf8_general_ci", 33);
  ("cp1250_czech_cs", 34); ("cp866_general_ci", 36); ("keybcs2_general_ci", 37); ("macce_general_ci", 38);
  ("macroman_general_ci", 39); ("cp852_general_ci", 40); ("latin7_general_ci", 41); ("latin7_general_cs", 42);
  ("macce_bin", 43); ("cp1250_croatian_ci", 44); ("utf8mb4_general_ci", 45); ("utf8mb4_bin", 46); ("latin1_bin", 47);
  ("latin1_general_ci", 48); ("latin1_general_cs", 49); ("cp1251_bin", 50); ("cp1251_general_ci", 51);
  ("cp1251_general_cs", 52); ("macroman_bin", 53); ("cp1256_general_ci", 57); ("cp1257_bin", 58);
  ("cp1257_general_ci", 59); ("binary", 63); ("armscii8_bin", 64); ("ascii_bin", 65); ("cp1250_bin", 66);
  ("cp1256_bin", 67); ("cp866_bin", 68); ("dec8_bin", 69); ("greek_bin", 70); ("hebrew_bin", 71); ("hp8_bin", 72);
  ("keybcs2_bin", 73); ("koi8r_bin", 74); ("koi8u_bin", 75); ("utf8_tolower_ci", 76); ("latin2_bin", 77);
  ("latin5_bin", 78); ("latin7_bin", 79); ("cp850_bin", 80); ("cp852_bin", 81); ("swe7_bin", 82); ("utf8_bin", 83);
  ("big5_bin", 84); ("euckr_bin", 85); ("gb2312_bin", 86); ("gbk_bin", 87); ("sjis_bin", 88); ("tis620_bin", 89);
  ("ujis_bin", 91); ("geostd8_general_ci", 92); ("geostd8_bin", 93); ("latin1_spanish_ci", 94);
  ("cp932_japanese_ci", 95); ("cp932_bin", 96); ("eucjpms_japanese_ci", 97); ("eucjpms_bin", 98);
  ("cp1250_polish_ci", 99); ("utf8_unicode_ci", 192); ("utf8_icelandic_ci", 193); ("utf8_latvian_ci", 194);
  ("utf8_romanian_ci", 195); ("utf8_slovenian_ci", 196); ("utf8_polish_ci", 197); ("utf8_estonian_ci", 198);
  ("utf8_spanish_ci", 199); ("utf8_swedish_ci", 200); ("utf8_turkish_ci", 201); ("utf8_czech_ci", 202);
  ("utf8_danish_ci", 203); ("utf8_lithuanian_ci", 204); ("utf8_slovak_ci", 205); ("utf8_spanish2_ci", 206);
  ("utf8_roman_ci", 207); ("utf8_persian_ci", 208); ("utf8_esperanto_ci", 209); ("utf8_hungarian_ci", 210);
  ("utf8_sinhala_ci", 211); ("utf8_german2_ci", 212); ("utf8_croatian_ci", 213); ("utf8_unicode_520_ci", 214);
  ("utf8_vietnamese_ci", 215); ("utf8_general_mysql500_ci", 223); ("utf8mb4_unicode_ci", 224);
  ("utf8mb4_icelandic_ci", 225); ("utf8mb4_latvian_ci", 226); ("utf8mb4_romanian_ci", 227);
  ("utf8mb4_slovenian_ci", 228); ("utf8mb4_polish_ci", 229); ("utf8mb4_estonian_ci", 230);
  ("utf8mb4_spanish_ci", 231); ("utf8mb4_swedish_ci", 232); ("utf8mb4_turkish_ci", 233); ("utf8mb4_czech_ci", 234);
  ("utf8mb4_danish_ci", 235); ("utf8mb4_lithuanian_ci", 236); ("utf8mb4_slovak_ci", 237);
  ("utf8mb4_spanish2_ci", 238); ("utf8mb4_roman_ci", 239); ("utf8mb4_persian_ci", 240);
  ("utf8mb4_esperanto_ci", 241); ("utf8mb4_hungarian_ci", 242); ("utf8mb4_sinhala_ci", 243);
  ("utf8mb4_german2_ci", 244); ("utf8mb4_croatian_ci", 245); ("utf8mb4_unicode_520_ci", 246);
  ("utf8mb4_vietnamese_ci", 247); ("gb18030_chinese_ci", 248); ("gb18030_bin", 249); ("gb18030_unicode_520_ci", 250);
  ("utf8mb4_0900_ai_ci", 255)].

(** [mysql.Collations[name]], 0 where there is none. *)
Definition collationID (name : string) : Z :=
  match list_find (λ e : string * Z, e.1 = name) Collations with Some (_, e) => e.2 | None => 0 end.

(** ** Stateful operations *)

Definition SM (S A : Type) : Type := S → S * outcome A.

#[global] Typeclasses Opaque SM M.

#[global] Instance SM_ret {S} : MRet (SM S) := λ A a s, (s, Ok a).
#[global] Instance SM_bind {S} : MBind (SM S) := λ A B f m s,
  match m s with
  | (s, Ok a) => f a s
  | (s, Err e) => (s, Err e)
  | (s, Panic) => (s, Panic)
  | (s, OutOfFuel) => (s, OutOfFuel)
  end.

Definition liftS {S A} (m : outcome A) : SM S A := λ s, (s, m).
Definition getS {S} : SM S S := λ s, (s, Ok s).
Definition modifyS {S} (f : S → S) : SM S unit := λ s, (f s, Ok tt).

(** Another error in place of the one of [m]. *)
Definition orElse {S A} (m : SM S A) (f : error → error) : SM S A := λ s,
  match m s with
  | (s, Err e) => (s, Err (f e))
  | r => r
  end.

(** [defer f()]. *)
Definition deferringS {S A} (m : SM S A) (f : SM S unit) : SM S A := λ s,
  let '(s, r) := m s in
  match f s with
  | (s, Ok _) | (s, Err _) => (s, r)
  | (s, Panic) => (s, Panic)
  | (s, OutOfFuel) => (s, OutOfFuel)
  end.

(** A reader that must succeed, with the [SQLError] otherwise. *)
Definition need {A} (code : Z) (msg : string) (m : outcome (option A)) : outcome A :=
  r ← m; match r with Some x => Ok x | None => Err (NewSQLError code SSUnknownSQLState (text msg)) end.

Definition CRServerGone : Z := 2006.
Definition CRVersionError : Z := 2007.
Definition CRServerHandshakeErr : Z := 2012.
Definition CRServerLost : Z := 2013.
Definition CRMalformedPacket : Z := 2027.
Definition ProtocolVersion : Z := 10.
Definition ComInitDB : Z := 0x02.
Definition CharacterSetUtf8 : Z := 33.
Definition initClientConnStatus : Z := 0x0002.

(** The capability flags. *)
Definition CapabilityClientLongPassword : Z := 1.
Definition CapabilityClientFoundRows : Z := Z.shiftl 1 1.
Definition CapabilityClientLongFlag : Z := Z.shiftl 1 2.
Definition CapabilityClientConnectWithDB : Z := Z.shiftl 1 3.
Definition CapabilityClientProtocol41 : Z := Z.shiftl 1 9.
Definition CapabilityClientSSL : Z := Z.shiftl 1 11.
Definition CapabilityClientTransactions : Z := Z.shiftl 1 13.
Definition CapabilityClientSecureConnection : Z := Z.shiftl 1 15.
Definition CapabilityClientMultiStatements : Z := Z.shiftl 1 16.
Definition CapabilityClientMultiResults : Z := Z.shiftl 1 17.
Definition CapabilityClientPluginAuth : Z := Z.shiftl 1 19.
Definition CapabilityClientConnAttr : Z := Z.shiftl 1 20.
Definition CapabilityClientPluginAuthLenencClientData : Z := Z.shiftl 1 21.
Definition CapabilityClientDeprecateEOF : Z := Z.shiftl 1 24.

Definition has (flags cap : Z) : bool := negb (Z.land flags cap =? 0).
Definition flagsOf (caps : list Z) : Z := foldr Z.lor 0 caps.

(** ** Packets with a length check *)

(** The fields of a packet and the position after them. *)
Fixpoint packFields (fields : list (bytes → Z → outcome (bytes * Z))) (data : bytes) (pos : Z) : outcome (bytes * Z) :=
  match fields with
  | [] => Ok (data, pos)
  | f :: fields => r ← f data pos; packFields fields r.1 r.2
  end.

(** A packet that is only sent if its fields fill it. *)
Definition sendChecked (bufPool : Z → bytes) (length : Z) (fields : list (bytes → Z → outcome (bytes * Z)))
    (mismatch : M unit) : M unit :=
  data ← startEphemeralPacket bufPool length;
  r ← lift (packFields fields data 0);
  _ ← modify (setEphemeral ephemeralWrite (Some r.1));
  if negb (r.2 =? len r.1) then mismatch else writeEphemeralPacket.

(** ** The server *)

Record Listener := mkListener { ServerVersion : bytes; l_capabilities : Z; l_characterSet : Z }.

(** A connection a listener handles. *)
Record Server := mkServer {
  sv_listener : Listener;
  sv_conn : Conn;
  sv_connectionID : Z;
  sv_tenant : bytes;
  sv_capabilities : Z;
  sv_characterSet : Z;
  sv_serverVersion : bytes;
  sv_statusFlags : Z;
}.

Definition setListener (l : Listener) (s : Server) : Server :=
  mkServer l (sv_conn s) (sv_connectionID s) (sv_tenant s) (sv_capabilities s) (sv_characterSet s) (sv_serverVersion s) (sv_statusFlags s).
Definition setConn (c : Conn) (s : Server) : Server :=
  mkServer (sv_listener s) c (sv_connectionID s) (sv_tenant s) (sv_capabilities s) (sv_characterSet s) (sv_serverVersion s) (sv_statusFlags s).
Definition setSchema (schema : bytes) (c : Conn) : Conn :=
  mkConn (sequence c) (incoming c) (outgoing c) (quota c) (healthy c) (currentEphemeralPolicy c) (currentEphemeralBuffer c) (closed c) schema.

Definition onConn {A} (m : M A) : SM Server A := λ s, let '(c, r) := m (sv_conn s) in (setConn c s, r).
Definition onListener {A} (m : SM Listener A) : SM Server A := λ s, let '(l, r) := m (sv_listener s) in (setListener l s, r).

(** [copy(data[pos:], bs)], [pos += ...]. *)
Definition writeCopy (bs : outcome bytes) (data : bytes) (pos : Z) : outcome (bytes * Z) :=
  bs ← bs; writeEOFString data pos bs.

(** The text of an error, without what wraps it. *)
Fixpoint errorText (e : error) : bytes :=
  match e with
  | EOF => text "EOF"
  | NewError msg => text msg
  | WrapError inner => errorText inner
  | SQLError _ _ msg => msg
  | ErrEmptyUnion | ErrEmptyIntersection | ErrNoShardMatched | ErrTxClosed | errNotValue => []
  end.

Definition HasSuffix (s suffix : bytes) : bool := bool_decide (suffix `suffix_of` s).

Definition serverCapabilities (enableTLS : bool) : Z :=
  Z.lor (flagsOf [CapabilityClientLongPassword; CapabilityClientFoundRows; CapabilityClientLongFlag;
    CapabilityClientConnectWithDB; CapabilityClientProtocol41; CapabilityClientTransactions;
    CapabilityClientSecureConnection; CapabilityClientMultiStatements; CapabilityClientMultiResults;
    CapabilityClientPluginAuth; CapabilityClientPluginAuthLenencClientData; CapabilityClientDeprecateEOF;
    CapabilityClientConnAttr]) (if enableTLS then CapabilityClientSSL else 0).

Section ServerHandshake.
Context (bufPool : Z → bytes).

Definition writeHandshakeV10 (l : Listener) (connectionID : Z) (enableTLS : bool) (salt : bytes) : M unit :=
  let capabilities := serverCapabilities enableTLS in
  let length := 1 + lenNullString (ServerVersion l) + 4 + 8 + 1 + 2 + 1 + 2 + 2 + 1 + 10 + 13 + lenNullString MysqlNativePassword in
  λ c,
    match sendChecked bufPool length
      [λ data pos, writeByte data pos ProtocolVersion;
       λ data pos, writeNullString data pos (ServerVersion l);
       λ data pos, writeUint32 data pos connectionID;
       writeCopy (slice salt 0 8);
       λ data pos, writeByte data pos 0;
       λ data pos, writeUint16 data pos (wrapU 16 capabilities);
       λ data pos, writeByte data pos CharacterSetUtf8;
       λ data pos, writeUint16 data pos initClientConnStatus;
       λ data pos, writeUint16 data pos (wrapU 16 (Z.shiftr capabilities 16));
       λ data pos, writeByte data pos 21;
       λ data pos, writeZeroes data pos 10;
       writeCopy (slice salt 8 (len salt));
       λ data pos, writeByte data pos 0;
       λ data pos, writeNullString data pos MysqlNativePassword]
      (lift (Err (NewError "error building Handshake packet"))) c with
    | (c, Err e) =>
        (c, Err (if HasSuffix (errorText e) (text "write: connection reset by peer") then EOF
                 else if HasSuffix (errorText e) (text "write: broken pipe") then EOF else e))
    | r => r
    end.

(** One turn reads a key and a value; [attrLenRead] counts their bytes. *)
Fixpoint connAttrsLoop (fuel : nat) (data : bytes) (pos attrLenRead attrLen : Z) (attrs : gmap bytes bytes) :
    outcome (gmap bytes bytes * Z) :=
  if negb (attrLenRead <? attrLen) then Ok (attrs, pos) else
  match fuel with
  | O => OutOfFuel
  | S fuel =>
      k ← must "can't read connection attribute key length" (readByte data pos);
      let attrLenRead := u64 (attrLenRead + u64 (k.1 + 1)) in
      key ← must "can't read connection attribute key" (readBytesCopy data k.2 k.1);
      v ← must "can't read connection attribute value length" (readByte data key.2);
      let attrLenRead := u64 (attrLenRead + u64 (v.1 + 1)) in
      val ← must "can't read connection attribute value" (readBytesCopy data v.2 v.1);
      connAttrsLoop fuel data val.2 attrLenRead attrLen (<[key.1 := val.1]> attrs)
  end.

(** Every turn takes bytes of the packet. *)
Definition parseConnAttrs (data : bytes) (pos : Z) : outcome (gmap bytes bytes * Z) :=
  r ← must "can't read connection attributes variable length" (readLenEncInt data pos);
  connAttrsLoop (S (length data)) data r.2 0 r.1 ∅.

(** The three forms of the response. *)
Definition readAuthResponse (clientFlags : Z) (data : bytes) (pos : Z) : outcome (bytes * Z) :=
  if has clientFlags CapabilityClientPluginAuthLenencClientData then
    l ← must "can't read auth-response variable length" (readLenEncInt data pos);
    must "can't read auth-response" (readBytesCopy data l.2 (wrapS 64 l.1))
  else if has clientFlags CapabilityClientSecureConnection then
    l ← must "can't read auth-response length" (readByte data pos);
    must "can't read auth-response" (readBytesCopy data l.2 l.1)
  else must "can't read auth-response" (readNullString data pos).

(** The fields after the reserved bytes. *)
Definition parseLogin (clientFlags : Z) (data : bytes) (pos : Z) : outcome handshakeResult :=
  user ← must "can't read username" (readNullString data pos);
  resp ← readAuthResponse clientFlags data user.2;
  db ← (if has clientFlags CapabilityClientConnectWithDB
        then must "can't read dbname" (readNullString data resp.2) else Ok ([], resp.2));
  method ← (if has clientFlags CapabilityClientPluginAuth
            then must "can't read authMethod" (readNullString data db.2) else Ok (MysqlNativePassword, db.2));
  let authMethod := if len method.1 =? 0 then MysqlNativePassword else method.1 in
  let done := mkHandshake 0 db.1 [] user.1 authMethod resp.1 [] in
  if has clientFlags CapabilityClientConnAttr then
    match parseConnAttrs data method.2 with
    | Panic => Panic
    | OutOfFuel => OutOfFuel
    | _ => Ok done
    end
  else Ok done.

Definition setCapabilities (caps : Z) (l : Listener) : Listener := mkListener (ServerVersion l) caps (l_characterSet l).
Definition setCharacterSet (cs : Z) (l : Listener) : Listener := mkListener (ServerVersion l) (l_capabilities l) cs.

Definition parseClientHandshakePacket (firstTime : bool) (data : bytes) : SM Listener handshakeResult :=
  flags ← liftS (must "can't read client flags" (readUint32 data 0));
  let clientFlags := flags.1 in
  if negb (has clientFlags CapabilityClientProtocol41) then liftS (Err (NewError "only support protocol 4.1")) else
  _ ← modifyS (λ l, if firstTime
    then setCapabilities (Z.land clientFlags (Z.lor CapabilityClientDeprecateEOF CapabilityClientFoundRows)) l else l);
  _ ← modifyS (λ l, if has clientFlags CapabilityClientMultiStatements
    then setCapabilities (Z.lor (l_capabilities l) CapabilityClientMultiStatements) l else l);
  size ← liftS (must "can't read maxPacketSize" (readUint32 data flags.2));
  charset ← liftS (must "can't read characterSet" (readByte data size.2));
  _ ← modifyS (setCharacterSet charset.1);
  liftS (parseLogin clientFlags data (add charset.2 23)).

Context {I : MapIter} (tm : simpleTenantManager).

Definition handshake (rand_Read : outcome bytes) : SM Server unit :=
  salt ← liftS (newSalt rand_Read);
  s ← getS;
  _ ← onConn (writeHandshakeV10 (sv_listener s) (sv_connectionID s) false salt);
  response ← onConn readEphemeralPacketDirect;
  deferringS
    (h ← onListener (parseClientHandshakePacket true response);
     let h := mkHandshake (sv_connectionID s) (h_schema h) (h_tenant h) (h_username h) (h_authMethod h) (h_authResponse h) salt in
     match ValidateHash tm h with
     | (h, Some e) => liftS (Err e)
     | (h, None) =>
         modifyS (λ s, mkServer (sv_listener s) (setSchema (h_schema h) (sv_conn s)) (sv_connectionID s) (h_tenant h)
           (sv_capabilities s) (sv_characterSet s) (sv_serverVersion s) (sv_statusFlags s))
     end)
    (onConn recycleReadPacket).

(** What a packet says of an error. *)
Definition reported (e : error) : (Z * bytes * bytes) + bytes :=
  match e with SQLError num state msg => inl (num, state, msg) | e => inr (errorText e) end.

(** The part of [handle] before the command loop: whether it is entered. *)
Definition login (rand_Read : outcome bytes) : SM Server bool := λ s,
  match handshake rand_Read s with
  | (s, Ok _) =>
      let l := sv_listener s in
      let s := mkServer l (sv_conn s) (sv_connectionID s) (sv_tenant s) (l_capabilities l) (l_characterSet l)
                 (ServerVersion l) (sv_statusFlags s) in
      match onConn (writeOKPacket bufPool 0 0 (sv_statusFlags s) 0) s with
      | (s, Ok _) => (s, Ok true)
      | (s, Err _) => (s, Ok false)
      | (s, Panic) => (s, Panic)
      | (s, OutOfFuel) => (s, OutOfFuel)
      end
  | (s, Err e) =>
      match onConn (writeErrorPacketFromError bufPool (reported e)) s with
      | (s, Ok _) | (s, Err _) => (s, Ok false)
      | (s, Panic) => (s, Panic)
      | (s, OutOfFuel) => (s, OutOfFuel)
      end
  | (s, Panic) => (s, Panic)
  | (s, OutOfFuel) => (s, OutOfFuel)
  end.
End ServerHandshake.

(** ** The client *)

(** The public keys of Go's [crypto]: a key from its text, [None] where it is
    of another kind than RSA, and the randomised encryption. *)
Class PublicKeys := {
  PublicKey : Type;
  pem_Decode : bytes → option bytes;
  ParsePKIXPublicKey : bytes → outcome (option PublicKey);
  EncryptOAEP : PublicKey → bytes → outcome bytes;
}.

Section Client.
Context {K : PublicKeys} (bufPool : Z → bytes).

Record Config := mkConfig {
  cfg_User : bytes;
  cfg_Passwd : bytes;
  cfg_Net : bytes;
  cfg_DBName : bytes;
  cfg_Collation : string;
  cfg_tls : bool;
  cfg_pubKey : option PublicKey;
  cfg_ClientFoundRows : bool;
  cfg_DisableClientDeprecateEOF : bool;
}.

Record BackendConnection := mkBackend {
  bc_conn : Conn;
  bc_conf : Config;
  bc_capabilities : Z;
  bc_serverVersion : bytes;
  bc_characterSet : Z;
  bc_connectionID : Z;
}.

Definition setBackendConn (c : Conn) (b : BackendConnection) : BackendConnection :=
  mkBackend c (bc_conf b) (bc_capabilities b) (bc_serverVersion b) (bc_characterSet b) (bc_connectionID b).
Definition setBackendCapabilities (caps : Z) (b : BackendConnection) : BackendConnection :=
  mkBackend (bc_conn b) (bc_conf b) caps (bc_serverVersion b) (bc_characterSet b) (bc_connectionID b).
Definition setServerVersion (v : bytes) (b : BackendConnection) : BackendConnection :=
  mkBackend (bc_conn b) (bc_conf b) (bc_capabilities b) v (bc_characterSet b) (bc_connectionID b).
Definition setBackendCharset (cs : Z) (b : BackendConnection) : BackendConnection :=
  mkBackend (bc_conn b) (bc_conf b) (bc_capabilities b) (bc_serverVersion b) cs (bc_connectionID b).
Definition setConnectionID (id : Z) (b : BackendConnection) : BackendConnection :=
  mkBackend (bc_conn b) (bc_conf b) (bc_capabilities b) (bc_serverVersion b) (bc_characterSet b) id.

Definition onBackend {A} (m : M A) : SM BackendConnection A := λ b, let '(c, r) := m (bc_conn b) in (setBackendConn c b, r).

(** A slice of a packet: its bytes, and those of the packet after them, up to
    which it can be resliced or appended to in place. *)
Record view := mkView { shown : bytes; spare : bytes }.

Definition viewOf (data : bytes) (lo hi : Z) : view :=
  mkView (take (Z.to_nat (hi - lo)) (drop (Z.to_nat lo) data)) (drop (Z.to_nat hi) data).

(** [v[:n]]. *)
Definition reslice (v : view) (n : Z) : outcome bytes := slice (shown v ++ spare v) 0 n.

Definition malformed {A} (msg : string) (m : outcome (option A)) : SM BackendConnection A :=
  liftS (need CRMalformedPacket ("parseInitialHandshakePacket: " ++ msg) m).

(** The part of the handshake after the lower flags: the rest of the
    challenge, appended in place to the part at [start], and the name of the
    plugin. *)
Definition parseChallenge (capabilities authPluginDataLength : Z) (data : bytes) (start pos : Z) : outcome (Z * view * bytes) :=
  let pos := add pos 10 in
  r ← (if has capabilities CapabilityClientSecureConnection then
         let l := Z.min (authPluginDataLength - 8) 13 in
         part2 ← need CRMalformedPacket "parseInitialHandshakePacket: packet has no auth-plugin-Content-part-2" (readBytes data pos l);
         last ← load part2.1 (l - 1);
         if negb (last =? 0)
         then Err (NewSQLError CRMalformedPacket SSUnknownSQLState
           (text "parseInitialHandshakePacket: auth-plugin-Content-part-2 is not 0 terminated"))
         else
           rest ← slice part2.1 0 (l - 1);
           appended ← copyAt data (start + 8) rest;
           Ok (appended.1, viewOf appended.1 start (start + 8 + len rest), part2.2)
       else Ok (data, viewOf data start (start + 8), pos));
  let '(data, authPluginData, pos) := r in
  if has capabilities CapabilityClientPluginAuth then
    name ← readNullString data pos;
    match name with
    | Some (authPluginName, _) => Ok (capabilities, authPluginData, authPluginName)
    | None => authPluginName ← slice data pos (len data - 1); Ok (capabilities, authPluginData, authPluginName)
    end
  else Ok (capabilities, authPluginData, MysqlNativePassword).

Definition parseInitialHandshakePacket (data : bytes) : SM BackendConnection (Z * view * bytes) :=
  pver ← liftS (need CRVersionError "parseInitialHandshakePacket: packet has no protocol version" (readByte data 0));
  if pver.1 =? ErrPacket then
    code ← liftS (readUint16 data pver.2);
    let '(errorCode, pos) := default (0, 0) code in
    msg ← liftS (readEOFString data pos);
    liftS (Err (NewSQLError CRServerHandshakeErr SSUnknownSQLState
      (text "immediate error from server errorCode=" ++ text (FormatInt errorCode) ++ text " errorMsg=" ++ from_option fst [] msg)))
  else if negb (pver.1 =? ProtocolVersion) then
    liftS (Err (NewSQLError CRVersionError SSUnknownSQLState (text "bad protocol version: " ++ text (FormatInt pver.1))))
  else
    version ← malformed "packet has no server version" (readNullString data pver.2);
    _ ← modifyS (setServerVersion version.1);
    id ← malformed "packet has no connection id" (readUint32 data version.2);
    _ ← modifyS (setConnectionID id.1);
    part1 ← malformed "packet has no auth-plugin-Content-part-1" (readBytes data id.2 8);
    filler ← malformed "packet has no filler" (readByte data part1.2);
    lower ← malformed "packet has no capability flags (lower 2 bytes)" (readUint16 data filler.2);
    if lower.2 =? len data then mret (lower.1, viewOf data id.2 part1.2, []) else
    charset ← malformed "packet has no character set" (readByte data lower.2);
    _ ← modifyS (setBackendCharset charset.1);
    status ← malformed "packet has no status flags" (readUint16 data charset.2);
    upper ← malformed "packet has no capability flags (upper 2 bytes)" (readUint16 data status.2);
    let capabilities := u32 (lower.1 + Z.shiftl upper.1 16) in
    length ← malformed (if has capabilities CapabilityClientPluginAuth then "packet has no length of auth-plugin-Content"
      else "packet has no length of auth-plugin-Content filler") (readByte data upper.2);
    let authPluginDataLength := if has capabilities CapabilityClientPluginAuth then length.1 else 0 in
    liftS (parseChallenge capabilities authPluginDataLength data id.2 length.2).

Definition ErrUnknownPlugin : error := NewError "this authentication plugin is not supported".
Definition ErrMalformPkt : error := NewError "malformed packet".

Definition auth (passwd : bytes) (authData : view) (plugin : bytes) : outcome bytes :=
  if bool_decide (plugin = text "caching_sha2_password") then Ok (scrambleSHA256Password (shown authData) passwd)
  else if bool_decide (plugin = text "mysql_old_password") then
    challenge ← reslice authData 8; out ← scrambleOldPassword challenge passwd; Ok (out ++ [0])
  else if bool_decide (plugin = text "mysql_clear_password") then Ok (passwd ++ [0])
  else if bool_decide (plugin = text "mysql_native_password") then
    challenge ← reslice authData 20; Ok (scramblePassword challenge passwd)
  else if bool_decide (plugin = text "sha256_password") then Ok [1]
  else Err ErrUnknownPlugin.

Definition clientFlags (b : BackendConnection) : Z :=
  Z.lor (flagsOf [CapabilityClientLongPassword; CapabilityClientLongFlag; CapabilityClientProtocol41;
    CapabilityClientTransactions; CapabilityClientSecureConnection; CapabilityClientMultiStatements;
    CapabilityClientMultiResults; CapabilityClientPluginAuth; CapabilityClientPluginAuthLenencClientData;
    Z.land (bc_capabilities b) CapabilityClientDeprecateEOF])
    (if cfg_ClientFoundRows (bc_conf b) then CapabilityClientFoundRows else 0).

Definition writeHandshakeResponse41 (capabilities : Z) (scrambledPassword plugin : bytes) : SM BackendConnection unit :=
  b ← getS;
  let conf := bc_conf b in
  let withDB := negb (len (cfg_DBName conf) =? 0) && has capabilities CapabilityClientConnectWithDB in
  let lenenc := has capabilities CapabilityClientPluginAuthLenencClientData in
  let flags := Z.lor (clientFlags b) (if withDB then CapabilityClientConnectWithDB else 0) in
  let length := 4 + 4 + 1 + 23 + lenNullString (cfg_User conf) + len scrambledPassword + 21 + 1 +
    (if withDB then lenNullString (cfg_DBName conf) else 0) +
    (if lenenc then lenEncIntSize (len scrambledPassword) else 1) in
  orElse (onBackend (sendChecked bufPool length
    [λ data pos, writeUint32 data pos flags;
     λ data pos, writeZeroes data pos 4;
     λ data pos, writeByte data pos (byte (collationID (cfg_Collation conf)));
     λ data pos, writeZeroes data pos 23;
     λ data pos, writeNullString data pos (cfg_User conf);
     λ data pos, if lenenc then writeLenEncInt data pos (len scrambledPassword)
                 else writeByte data pos (byte (len scrambledPassword));
     writeCopy (Ok scrambledPassword);
     λ data pos, if withDB then writeNullString data pos (cfg_DBName conf) else Ok (data, pos);
     λ data pos, writeNullString data pos plugin]
    (_ ← recycleWritePacket;
     lift (Err (NewSQLError CRMalformedPacket SSUnknownSQLState (text "writeHandshakeResponse41: packet of another length"))))))
    (λ e, match e with
          | SQLError _ _ _ => e
          | e => NewSQLError CRServerLost SSUnknownSQLState (text "cannot send HandshakeResponse41: " ++ errorText e)
          end).

(** The error of an error packet. *)
Definition packetError {A} (data : bytes) : outcome A :=
  r ← ParseErrorPacket data;
  let '(code, state, msg) := r in Err (SQLError code state (default [] msg)).

(** The data for the plugin, nil or a slice, and the plugin to switch to. *)
Definition readAuthResult : M (option bytes * bytes) :=
  data ← readPacket;
  lift (
    b ← load data 0;
    if b =? OKPacket then _ ← parseOKPacket data; Ok (None, [])
    else if b =? ComQuit then rest ← slice data 1 (len data); Ok (Some rest, [])
    else if b =? EOFPacket then
      if len data =? 1 then Ok (None, text "mysql_old_password") else
      match indexZero data with
      | None => Err ErrMalformPkt
      | Some k =>
          plugin ← slice data 1 (Z.of_nat k);
          authData ← slice data (Z.of_nat k + 1) (len data);
          Ok (Some authData, plugin)
      end
    else packetError data).

Definition writeAuthSwitchPacket (authData : bytes) : M unit := writePacket authData.

Definition readResultOK : M unit :=
  data ← readPacket;
  lift (
    b ← load data 0;
    if b =? OKPacket then _ ← parseOKPacket data; Ok tt else packetError data).

(** [plain[i] ^= seed[i % len(seed)]] on the password and a zero. *)
Definition encryptPassword (password seed : bytes) (pub : PublicKey) : outcome bytes :=
  plain ← mapM (λ ib : nat * Z,
      if len seed =? 0 then Panic
      else s ← load seed (Z.of_nat ib.1 mod len seed); Ok (Z.lxor ib.2 s)) (imap pair (password ++ [0]));
  EncryptOAEP pub plain.

Definition sendEncryptedPassword (passwd seed : bytes) (pub : PublicKey) : M unit :=
  enc ← lift (encryptPassword passwd seed pub); writeAuthSwitchPacket enc.

(** [copy(dst, src)]. *)
Definition overwrite (dst src : bytes) : bytes := take (length dst) src ++ drop (length src) dst.

Definition cachingSha2PasswordRequestPublicKey : Z := 2.
Definition cachingSha2PasswordFastAuthSuccess : Z := 3.
Definition cachingSha2PasswordPerformFullAuthentication : Z := 4.

(** The key asked of the server. *)
Definition requestPublicKey : M PublicKey :=
  _ ← writePacket [cachingSha2PasswordRequestPublicKey];
  data ← readPacket;
  rest ← lift (slice data 1 (len data));
  match pem_Decode rest with
  | None => lift (Err (NewError "no pem content found"))
  | Some block => key ← lift (ParsePKIXPublicKey block); match key with Some k => mret k | None => lift Panic end
  end.

(** The last part of the exchange, by plugin. *)
Definition finishAuth (conf : Config) (oldAuthData authData plugin : bytes) : M unit :=
  if bool_decide (plugin = text "caching_sha2_password") then
    match authData with
    | [] => mret tt
    | [b] =>
        if b =? cachingSha2PasswordFastAuthSuccess then readResultOK
        else if b =? cachingSha2PasswordPerformFullAuthentication then
          _ ← (if cfg_tls conf || bool_decide (cfg_Net conf = text "unix")
               then writeAuthSwitchPacket (cfg_Passwd conf ++ [0])
               else
                 pubKey ← (match cfg_pubKey conf with Some k => mret k | None => requestPublicKey end);
                 sendEncryptedPassword (cfg_Passwd conf) oldAuthData pubKey);
          readResultOK
        else lift (Err ErrMalformPkt)
    | _ => lift (Err ErrMalformPkt)
    end
  else if bool_decide (plugin = text "sha256_password") then
    match authData with
    | [] => mret tt
    | _ =>
        match pem_Decode authData with
        | None => lift Panic
        | Some block =>
            key ← lift (ParsePKIXPublicKey block);
            match key with
            | None => lift Panic
            | Some pub => _ ← sendEncryptedPassword (cfg_Passwd conf) oldAuthData pub; readResultOK
            end
        end
    end
  else mret tt.

(** A switch keeps the old challenge where the packet has none, and copies
    the new one over it otherwise. *)
Definition handleAuthResult (conf : Config) (oldAuthData : view) (plugin : bytes) : M unit :=
  r ← readAuthResult;
  let '(authData, newPlugin) := r in
  if bool_decide (newPlugin = []) then finishAuth conf (shown oldAuthData) (default [] authData) plugin
  else
    let '(challenge, old) := match authData with
      | None => (oldAuthData, shown oldAuthData)
      | Some d => (mkView d [], overwrite (shown oldAuthData) d)
      end in
    authResp ← lift (auth (cfg_Passwd conf) challenge newPlugin);
    _ ← writeAuthSwitchPacket authResp;
    r ← readAuthResult;
    let '(authData, again) := r in
    if bool_decide (again = []) then finishAuth conf old (default [] authData) newPlugin
    else lift (Err ErrMalformPkt).

(** Another error in place of the one of [m]. *)
Definition mapErr {A} (m : M A) (f : error → error) : M A := orElse (S := Conn) m f.

Definition WriteComInitDB (db : bytes) : M unit :=
  mapErr (sendFields bufPool (len db + 1) [λ data pos, writeByte data pos ComInitDB; writeCopy (Ok db)])
    (λ e, NewSQLError CRServerGone SSUnknownSQLState (errorText e)).

(** Without the capability the database is chosen by a command; the packet
    read is recycled before its error is looked at. *)
Definition selectDatabase (db : bytes) : M unit :=
  _ ← WriteComInitDB db;
  response ← mapErr (deferring readPacket recycleReadPacket) (λ e, NewSQLError CRServerLost SSUnknownSQLState (errorText e));
  lift (
    b ← load response 0;
    if b =? OKPacket then Ok tt
    else if b =? ErrPacket then packetError response
    else Err (NewSQLError CRServerHandshakeErr SSUnknownSQLState
      (text "initial server response is asking for more information, not implemented yet"))).

(** [conn.c.Close()] on an error. *)
Definition closingOnError (m : SM BackendConnection unit) : SM BackendConnection unit := λ b,
  match m b with
  | (b, Err e) => (setBackendConn (setClosed (bc_conn b)) b, Err e)
  | r => r
  end.

Definition clientHandshake : SM BackendConnection unit :=
  data ← orElse (onBackend readPacket)
    (λ e, NewSQLError CRServerLost [] (text "initial packet read failed: " ++ errorText e));
  r ← parseInitialHandshakePacket data;
  let '(capabilities, salt, plugin) := r in
  b ← getS;
  _ ← modifyS (setBackendCapabilities
    (if cfg_DisableClientDeprecateEOF (bc_conf b) then 0 else Z.land capabilities CapabilityClientDeprecateEOF));
  authResp ← liftS (auth (cfg_Passwd (bc_conf b)) salt plugin);
  _ ← writeHandshakeResponse41 capabilities authResp plugin;
  _ ← closingOnError (onBackend (handleAuthResult (bc_conf b) salt plugin));
  if negb (has capabilities CapabilityClientConnectWithDB) && negb (len (cfg_DBName (bc_conf b)) =? 0)
  then onBackend (selectDatabase (cfg_DBName (bc_conf b))) else mret tt.
End Client.
