(* ===== verification/HandshakeTheory.v ===== *)
(** * What the handshake guarantees

    The packets of the handshake are read as they were written, and a login
    runs to its end on both sides: with the verdict of [ValidateHash] the client
    is connected or gets the server's error. *)
From S2P Require Import Prelude GoStd Encoding Packet WireTheory Sha Auth Handshake.

(** ** Packets with a length check *)

Lemma packFields_splice fields bss data pos :
  Forall2 writes fields bss → buffer data → 0 ≤ pos → pos + len (concat bss) ≤ len data →
  packFields fields data pos = Ok (splice data pos (concat bss), pos + len (concat bss)).
Proof.
  intros H. revert data pos. induction H as [|f bs fields bss Hf H IH]; intros data pos Hb Hp Hl; simpl.
  - rewrite splice_nil by done. change (len []) with 0. by rewrite Z.add_0_r.
  - simpl in Hl. rewrite len_app in *. pose proof (len_nonneg bs). pose proof (len_nonneg (concat bss)).
    rewrite Hf by (done || lia). simpl. rewrite IH; [|apply buffer_splice; done || lia|lia|rewrite len_splice; lia].
    rewrite splice_app by lia. do 2 f_equal. lia.
Qed.

(** A packet its fields fill is sent. *)
Lemma sendChecked_sends bufPool length fields bss mismatch c :
  len (bufPool length) = length → length < 2 ^ 62 → Forall2 writes fields bss → len (concat bss) = length →
  quota c = None → healthy c = true → currentEphemeralPolicy c = ephemeralUnused →
  ∃ wire s', packets (sequence c) wire (concat bss) s' ∧
    sendChecked bufPool length fields mismatch c
    = (setEphemeral ephemeralUnused None (setSequence s' (setOutgoing (outgoing c ++ wire) None c)), Ok tt).
Proof.
  intros Hpool Hlen Hf El Hq Hh Hp.
  destruct (sendFields_sends bufPool length fields bss c) as (wire & s' & Hw & E); [done..|].
  exists wire, s'. split; [exact Hw|]. rewrite <- E.
  unfold sendFields, sendChecked, startEphemeralPacket, mbind, M_bind, get. rewrite Hp. simpl.
  unfold modify, lift. rewrite (writeFields_splice _ bss), (packFields_splice _ bss) by (unfold buffer; done || lia).
  rewrite splice_all by lia. cbn [fst snd]. by rewrite Z.add_0_l, Z.eqb_refl.
Qed.

Lemma writes_writeCopy bs : writes (writeCopy (Ok bs)) bs.
Proof. intros data pos. apply writes_string. Qed.

Lemma writes_slice bs lo hi v : slice bs lo hi = Ok v → writes (writeCopy (slice bs lo hi)) v.
Proof. intros ->. apply writes_writeCopy. Qed.

#[export] Hint Resolve writes_writeCopy writes_zeroes : wire.

(** ** The greeting *)

(** Bytes that fit a null-terminated string. *)
Definition plain (s : bytes) : Prop := Forall (λ b, b ≠ 0) s.

Definition greeting (l : Listener) (id : Z) (salt : bytes) : list bytes :=
  let caps := serverCapabilities false in
  [[ProtocolVersion]; ServerVersion l ++ [0]; littleEndian 4 id; take 8 salt; [0];
   littleEndian 2 (wrapU 16 caps); [CharacterSetUtf8]; littleEndian 2 initClientConnStatus;
   littleEndian 2 (wrapU 16 (Z.shiftr caps 16)); [21]; replicate 10 0; drop 8 salt; [0]; MysqlNativePassword ++ [0]].

Lemma len_greeting l id salt :
  len salt = 20 → len (concat (greeting l id salt)) = len (ServerVersion l) + 68.
Proof.
  intros Hs. unfold greeting. cbv zeta. cbn [concat]. rewrite !len_app, !length_littleEndian.
  assert (len (take 8 salt) = 8) as -> by (unfold len in *; rewrite length_take; lia).
  assert (len (drop 8 salt) = 12) as -> by (unfold len in *; rewrite length_drop; lia).
  change (len MysqlNativePassword) with 21. change (len (replicate 10 0)) with 10.
  change (len []) with 0.
  repeat match goal with |- context [len [?x]] => change (len [x]) with 1 end. lia.
Qed.

Lemma slice_prefix bs n : 0 ≤ n ≤ len bs → slice bs 0 n = Ok (take (Z.to_nat n) bs).
Proof.
  intros Hn. unfold slice. destruct (Z.leb_spec 0 n), (Z.leb_spec n (len bs)); try lia. simpl.
  by rewrite Z.sub_0_r.
Qed.

Lemma slice_suffix bs n : 0 ≤ n ≤ len bs → slice bs n (len bs) = Ok (drop (Z.to_nat n) bs).
Proof.
  intros Hn. unfold slice. destruct (Z.leb_spec 0 n), (Z.leb_spec n (len bs)), (Z.leb_spec (len bs) (len bs)); try lia. simpl.
  rewrite take_ge; [done|]. unfold len in *. rewrite length_drop. lia.
Qed.

(** A connection at the start of an exchange. *)
Definition ready (c : Conn) : Prop := quota c = None ∧ healthy c = true ∧ currentEphemeralPolicy c = ephemeralUnused.

(** What sending leaves of a connection. *)
Definition sent (wire : bytes) (s' : Z) (c : Conn) : Conn :=
  setEphemeral ephemeralUnused None (setSequence s' (setOutgoing (outgoing c ++ wire) None c)).

Section Packets.
Context (bufPool : Z → bytes).
Hypothesis pool_sizes : ∀ n, 0 ≤ n → len (bufPool n) = n.

Lemma writeHandshakeV10_sends l id salt c :
  ready c → len salt = 20 → len (ServerVersion l) < 2 ^ 20 →
  ∃ wire s', packets (sequence c) wire (concat (greeting l id salt)) s' ∧
    writeHandshakeV10 bufPool l id false salt c = (sent wire s' c, Ok tt).
Proof using pool_sizes.
  intros (Hq & Hh & Hp) Hs Hv. pose proof (len_nonneg (ServerVersion l)).
  pose proof (len_greeting l id salt Hs) as El. unfold writeHandshakeV10. cbv zeta.
  assert (lenNullString (ServerVersion l) = len (ServerVersion l) + 1) as -> by (unfold lenNullString; rewrite add_small; lia).
  change (lenNullString MysqlNativePassword) with 22.
  match goal with |- context [sendChecked bufPool ?n ?fs ?mm] =>
    destruct (sendChecked_sends bufPool n fs (greeting l id salt) mm c) as (wire & s' & Hw & E) end;
    [apply pool_sizes; lia|lia| |lia|done..|].
  { unfold greeting. cbv zeta. repeat apply Forall2_cons_2; eauto with wire; try apply Forall2_nil_2.
    - apply writes_slice. by apply (slice_prefix salt 8); rewrite Hs.
    - apply writes_slice. by apply (slice_suffix salt 8); rewrite Hs. }
  exists wire, s'. split; [exact Hw|]. by rewrite E.
Qed.
End Packets.

(** ** Reading the greeting *)

Section ReadGreeting.
Context {K : PublicKeys}.

Lemma parseChallenge_greeting data start salt :
  buffer data → len salt = 20 →
  at_ data start (take 8 salt) → at_ data (start + 27) (drop 8 salt ++ [0]) → at_ data (start + 40) (MysqlNativePassword ++ [0]) →
  ∃ sp, parseChallenge (serverCapabilities false) 21 data start (start + 17)
    = Ok (serverCapabilities false, mkView salt sp, MysqlNativePassword).
Proof.
  intros Hb Hs H1 H2 H3.
  assert (len (take 8 salt) = 8) as E8 by (unfold len in *; rewrite length_take; lia).
  assert (len (drop 8 salt) = 12) as E12 by (unfold len in *; rewrite length_drop; lia).
  assert (len (drop 8 salt ++ [0]) = 13) as E13 by (rewrite len_app, E12; done).
  pose proof H1 as (Hp & _). pose proof H2 as (_ & Hl & _). rewrite E13 in Hl.
  unfold parseChallenge. replace (add (start + 17) 10) with (start + 27) by (unfold buffer in *; rewrite add_small; lia).
  change (has (serverCapabilities false) CapabilityClientSecureConnection) with true.
  change (has (serverCapabilities false) CapabilityClientPluginAuth) with true. cbv beta iota zeta.
  change (Z.min (21 - 8) 13) with 13. unfold need. rewrite (reads_bytes data _ Hb 13 _ H2 E13). cbn [mbind outcome_bind fst snd].
  assert (load (drop 8 salt ++ [0]) (13 - 1) = Ok 0) as ->.
  { apply (at_load _ 0 (drop 8 salt ++ [0]) 12); [by apply at_all|]. unfold len in E12. rewrite lookup_app_r by lia.
    by replace (12 - length (drop 8 salt))%nat with 0%nat by lia. }
  cbn [mbind outcome_bind]. change (negb (0 =? 0)) with false. cbv iota.
  assert (slice (drop 8 salt ++ [0]) 0 (13 - 1) = Ok (drop 8 salt)) as ->.
  { rewrite slice_prefix by lia. f_equal. apply take_app_length'. unfold len in E12. lia. }
  cbn [mbind outcome_bind]. rewrite copyAt_splice by lia. cbn [mbind outcome_bind fst snd]. rewrite E12.
  set (data' := splice data (start + 8) (drop 8 salt)).
  assert (buffer data') as Hb' by (apply buffer_splice; [lia|lia|done]).
  assert (at_ data' start salt) as Hsalt.
  { replace salt with (take 8 salt ++ drop 8 salt) at 1 by apply take_drop. apply at_app. rewrite E8. split; [|apply at_splice; lia].
    destruct H1 as (_ & Hl1 & E1). split; [done|]. split; [unfold data'; rewrite len_splice; lia|]. rewrite <- E1 at 2.
    unfold data', splice. rewrite (drop_app_le (take _ _)) by (unfold len in *; rewrite length_take; lia).
    rewrite take_app_le by (unfold len in *; rewrite length_drop, !length_take; lia).
    rewrite !take_drop_commute, take_take. do 2 f_equal. unfold len in *. lia. }
  assert (at_ data' (start + 40) (MysqlNativePassword ++ [0])) as Hn by (apply at_splice_after; [done|lia|lia]).
  rewrite E13. replace (start + 27 + 13) with (start + 40) by lia.
  rewrite (reads_null data' _ Hb' _ Hn) by (repeat constructor; done).
  cbn [mbind outcome_bind]. unfold viewOf.
  replace (start + 8 + 12) with (start + len salt) by lia. rewrite (at_bytes _ _ _ Hsalt). eauto.
Qed.

Lemma parseInitial_greeting (b : BackendConnection) l id salt :
  plain (ServerVersion l) → len (ServerVersion l) < 2 ^ 20 → inU 32 id → len salt = 20 →
  ∃ sp, parseInitialHandshakePacket (concat (greeting l id salt)) b
    = (setBackendCharset CharacterSetUtf8 (setConnectionID id (setServerVersion (ServerVersion l) b)),
       Ok (serverCapabilities false, mkView salt sp, MysqlNativePassword)).
Proof.
  intros Hv Hlv Hid Hs. pose proof (len_greeting l id salt Hs) as El. pose proof (len_nonneg (ServerVersion l)).
  pose proof (fieldsAt_concat (greeting l id salt)) as H'. revert El H'.
  generalize (concat (greeting l id salt)). intros data El H'. assert (buffer data) as Hb by (unfold buffer; lia).
  assert (len (take 8 salt) = 8) as E8 by (unfold len in *; rewrite length_take; lia).
  assert (len (drop 8 salt) = 12) as E12 by (unfold len in *; rewrite length_drop; lia).
  unfold greeting in H'. cbv zeta in H'. cbn [fieldsAt] in H'.
  destruct H' as (H1 & H2 & H3 & H4 & H5 & H6 & H7 & H8 & H9 & H10 & _ & H12 & H13 & H14 & _).
  unfold parseInitialHandshakePacket, malformed, need, liftS, modifyS, mbind, SM_bind.
  rewrite (reads_byte data _ Hb _ H1). cbn [outcome_bind fst snd mret outcome_ret].
  change (ProtocolVersion =? ErrPacket) with false. change (negb (ProtocolVersion =? ProtocolVersion)) with false. cbv iota.
  rewrite (reads_null data _ Hb _ H2 Hv). cbn [outcome_bind fst snd].
  rewrite (reads_uint32 data _ Hb _ H3 Hid). cbn [outcome_bind fst snd].
  rewrite (reads_bytes data _ Hb 8 _ H4 E8). cbn [outcome_bind fst snd].
  rewrite (reads_byte data _ Hb _ H5). cbn [outcome_bind fst snd].
  rewrite (reads_uint16 data _ Hb _ H6) by (apply wrapU_range; lia). cbn [outcome_bind fst snd].
  pose proof H7 as (_ & Hmore & _). change (len [CharacterSetUtf8]) with 1 in Hmore at 1.
  match goal with |- context [?p =? len data] => destruct (Z.eqb_spec p (len data)); [lia|] end. clear Hmore.
  rewrite (reads_byte data _ Hb _ H7). cbn [outcome_bind fst snd].
  rewrite (reads_uint16 data _ Hb _ H8) by done. cbn [outcome_bind fst snd].
  rewrite (reads_uint16 data _ Hb _ H9) by (apply wrapU_range; lia). cbn [outcome_bind fst snd].
  change (u32 (u16 (serverCapabilities false) + Z.shiftl (u16 (Z.shiftr (serverCapabilities false) 16)) 16))
    with (serverCapabilities false).
  rewrite (reads_byte data _ Hb _ H10). cbn [outcome_bind fst snd].
  change (has (serverCapabilities false) CapabilityClientPluginAuth) with true. cbv iota.
  set (start := 0 + len [ProtocolVersion] + len (ServerVersion l ++ [0]) + len (littleEndian 4 id)) in *.
  rewrite E8, !length_littleEndian in *. rewrite E12 in *. change (len [0]) with 1 in *. change (len [21]) with 1 in *.
  change (len [CharacterSetUtf8]) with 1 in *. change (len (replicate 10 0)) with 10 in *. change (Z.of_nat 2) with 2 in *.
  destruct (parseChallenge_greeting data start salt) as [sp E]; [done|done|done| | |].
  - apply at_app. rewrite E12. split; [by replace (start + 27) with (start + 8 + 1 + 2 + 1 + 2 + 2 + 1 + 10) by lia|].
    by replace (start + 27 + 12) with (start + 8 + 1 + 2 + 1 + 2 + 2 + 1 + 10 + 12) by lia.
  - by replace (start + 40) with (start + 8 + 1 + 2 + 1 + 2 + 2 + 1 + 10 + 12 + 1) by lia.
  - exists sp. replace (start + 8 + 1 + 2 + 1 + 2 + 2 + 1) with (start + 17) by lia. by rewrite E.
Qed.
End ReadGreeting.

(** ** The response *)

Section Response.
Context {K : PublicKeys} (bufPool : Z → bytes).
Hypothesis pool_sizes : ∀ n, 0 ≤ n → len (bufPool n) = n.

(** A configuration whose strings fit null-terminated ones. *)
Definition sendable (conf : Config) : Prop :=
  plain (cfg_User conf) ∧ plain (cfg_DBName conf) ∧ len (cfg_User conf) < 2 ^ 20 ∧ len (cfg_DBName conf) < 2 ^ 20.

Definition namesDB (conf : Config) : bool := negb (len (cfg_DBName conf) =? 0).

Definition responseFlags (b : BackendConnection) : Z :=
  Z.lor (clientFlags b) (if namesDB (bc_conf b) then CapabilityClientConnectWithDB else 0).

Definition response (b : BackendConnection) (authResp : bytes) : list bytes :=
  let conf := bc_conf b in
  [littleEndian 4 (responseFlags b); replicate 4 0; [byte (collationID (cfg_Collation conf))]; replicate 23 0;
   cfg_User conf ++ [0]; lenEncBytes (len authResp); authResp;
   if namesDB conf then cfg_DBName conf ++ [0] else []; MysqlNativePassword ++ [0]].

Lemma len_response b authResp :
  len (concat (response b authResp)) = 54 + len (cfg_User (bc_conf b)) + 1 + lenEncIntSize (len authResp) + len authResp +
    (if namesDB (bc_conf b) then len (cfg_DBName (bc_conf b)) + 1 else 0).
Proof.
  unfold response. cbv zeta. cbn [concat]. rewrite !len_app, length_littleEndian, len_lenEncBytes.
  change (len MysqlNativePassword) with 21. change (len (replicate 4 0)) with 4. change (len (replicate 23 0)) with 23.
  change (len []) with 0. change (len [0]) with 1. change (len [byte (collationID (cfg_Collation (bc_conf b)))]) with 1.
  destruct (namesDB (bc_conf b)); rewrite ?len_app; change (len [0]) with 1; change (len []) with 0; lia.
Qed.

Lemma writeHandshakeResponse41_sends b authResp :
  ready (bc_conn b) → sendable (bc_conf b) → len authResp < 2 ^ 20 →
  ∃ wire s', packets (sequence (bc_conn b)) wire (concat (response b authResp)) s' ∧
    writeHandshakeResponse41 bufPool (serverCapabilities false) authResp MysqlNativePassword b
    = (setBackendConn (sent wire s' (bc_conn b)) b, Ok tt).
Proof using pool_sizes.
  intros (Hq & Hh & Hp) (_ & _ & Hu & Hd) Ha. pose proof (len_response b authResp) as El.
  pose proof (len_nonneg (cfg_User (bc_conf b))). pose proof (len_nonneg (cfg_DBName (bc_conf b))). pose proof (len_nonneg authResp).
  pose proof (lenEncIntSize_range (len authResp)).
  unfold writeHandshakeResponse41, mbind, SM_bind, getS. cbv zeta.
  change (has (serverCapabilities false) CapabilityClientConnectWithDB) with true.
  change (has (serverCapabilities false) CapabilityClientPluginAuthLenencClientData) with true.
  rewrite andb_true_r. fold (namesDB (bc_conf b)). fold (responseFlags b). cbv iota. unfold orElse, onBackend.
  assert (∀ s, 0 ≤ len s < 2 ^ 20 → lenNullString s = len s + 1) as Hn by (intros; unfold lenNullString; rewrite add_small; lia).
  rewrite !Hn by lia.
  match goal with |- context [sendChecked bufPool ?n ?fs ?mm ?c] =>
    destruct (sendChecked_sends bufPool n fs (response b authResp) mm c) as (wire & s' & Hw & E) end;
    [apply pool_sizes; destruct (namesDB _); lia|destruct (namesDB _); lia| |rewrite El; destruct (namesDB _); lia|done..|].
  { unfold response. cbv zeta. repeat apply Forall2_cons_2; eauto with wire; try apply Forall2_nil_2.
    destruct (namesDB (bc_conf b)); eauto with wire. }
  exists wire, s'. split; [exact Hw|]. by rewrite E.
Qed.

Lemma land_bit x k : 0 ≤ k → Z.land x (Z.shiftl 1 k) = 0 ∨ Z.land x (Z.shiftl 1 k) = Z.shiftl 1 k.
Proof.
  intros Hk. assert (∀ j, 0 ≤ j → Z.testbit (Z.shiftl 1 k) j = bool_decide (j = k)) as Hbit.
  { intros j Hj. rewrite Z.shiftl_1_l. rewrite Z.pow2_bits_eqb by done. rewrite Z.eqb_sym.
    by destruct (Z.eqb_spec j k); [rewrite bool_decide_true|rewrite bool_decide_false]. }
  destruct (Z.testbit x k) eqn:E; [right|left]; apply Z.bits_inj'; intros j Hj;
    rewrite Z.land_spec, ?Z.bits_0, Hbit by done; case_bool_decide; subst; rewrite ?E, ?andb_true_r, ?andb_false_r; done.
Qed.

(** What the flags of a client tell the server. *)
Lemma responseFlags_facts b :
  inU 32 (responseFlags b) ∧
  has (responseFlags b) CapabilityClientProtocol41 = true ∧
  has (responseFlags b) CapabilityClientMultiStatements = true ∧
  has (responseFlags b) CapabilityClientPluginAuthLenencClientData = true ∧
  has (responseFlags b) CapabilityClientConnectWithDB = namesDB (bc_conf b) ∧
  has (responseFlags b) CapabilityClientPluginAuth = true ∧
  has (responseFlags b) CapabilityClientConnAttr = false ∧
  Z.land (responseFlags b) (Z.lor CapabilityClientDeprecateEOF CapabilityClientFoundRows)
  = Z.lor (Z.land (bc_capabilities b) CapabilityClientDeprecateEOF)
      (if cfg_ClientFoundRows (bc_conf b) then CapabilityClientFoundRows else 0).
Proof.
  unfold responseFlags, clientFlags.
  destruct (land_bit (bc_capabilities b) 24) as [E|E]; [done| |]; unfold CapabilityClientDeprecateEOF; rewrite E;
    destruct (cfg_ClientFoundRows (bc_conf b)), (namesDB (bc_conf b)); vm_compute; repeat split; done.
Qed.

(** What the listener keeps of a client. *)
Definition keptCapabilities (b : BackendConnection) : Z :=
  Z.lor (Z.lor (Z.land (bc_capabilities b) CapabilityClientDeprecateEOF)
    (if cfg_ClientFoundRows (bc_conf b) then CapabilityClientFoundRows else 0)) CapabilityClientMultiStatements.

Lemma parseClientHandshake_response b authResp l :
  sendable (bc_conf b) → len authResp < 2 ^ 20 →
  parseClientHandshakePacket true (concat (response b authResp)) l
  = (setCharacterSet (byte (collationID (cfg_Collation (bc_conf b)))) (setCapabilities (keptCapabilities b) l),
     Ok (mkHandshake 0 (cfg_DBName (bc_conf b)) [] (cfg_User (bc_conf b)) MysqlNativePassword authResp [])).
Proof.
  intros (Hpu & Hpd & Hu & Hd) Ha. pose proof (len_response b authResp) as El.
  destruct (responseFlags_facts b) as (Hf & F1 & F2 & F3 & F4 & F5 & F6 & F7).
  pose proof (lenEncIntSize_range (len authResp)). pose proof (len_nonneg authResp).
  pose proof (fieldsAt_concat (response b authResp)) as H'. revert El H'.
  generalize (concat (response b authResp)). intros data El H'.
  assert (buffer data) as Hb by (unfold buffer; destruct (namesDB (bc_conf b)); lia).
  unfold response in H'. cbv zeta in H'. cbn [fieldsAt] in H'.
  destruct H' as (H1 & H2 & H3 & H4 & H5 & H6 & H7 & H8 & H9 & _).
  unfold parseClientHandshakePacket, must, liftS, modifyS, mbind, SM_bind.
  rewrite (reads_uint32 data _ Hb _ H1 Hf). cbn [outcome_bind fst snd]. rewrite F1. cbn [negb]. rewrite F2.
  assert (at_ data (0 + len (littleEndian 4 (responseFlags b))) (littleEndian 4 0)) as H2' by exact H2.
  rewrite (reads_uint32 data _ Hb _ H2') by done. cbn [outcome_bind fst snd].
  change (len (littleEndian 4 0)) with (len (replicate 4 0)). rewrite (reads_byte data _ Hb _ H3). cbn [outcome_bind fst snd].
  match goal with |- context [add ?p 23] => assert (add p 23 = p + len (replicate 23 0)) as -> end.
  { change (len (replicate 23 0)) with 23 in *. destruct H4 as (? & ? & _). unfold buffer in Hb.
    change (len (replicate 23 0)) with 23 in *. rewrite add_small; lia. }
  f_equal; [unfold keptCapabilities; by rewrite <- F7|].
  unfold parseLogin, readAuthResponse, must. rewrite (reads_null data _ Hb _ H5 Hpu). cbn [mbind outcome_bind fst snd].
  rewrite F3, (reads_lenEncInt data _ Hb _ H6) by (unfold inU; lia). cbn [mbind outcome_bind fst snd].
  rewrite wrapS_id by (unfold inS; lia). rewrite (reads_bytesCopy data _ Hb _ authResp H7 eq_refl). cbn [mbind outcome_bind fst snd].
  rewrite F4, F5, F6. destruct (namesDB (bc_conf b)) eqn:En.
  - rewrite (reads_null data _ Hb _ H8 Hpd). cbn [mbind outcome_bind fst snd].
    rewrite (reads_null data _ Hb _ H9) by (repeat constructor; done). done.
  - change (len []) with 0 in H9. rewrite Z.add_0_r in H9. cbn [mbind outcome_bind fst snd].
    rewrite (reads_null data _ Hb _ H9) by (repeat constructor; done). cbn [mbind outcome_bind fst snd].
    unfold namesDB in En. apply negb_false_iff, Z.eqb_eq in En. by destruct (cfg_DBName (bc_conf b)).
Qed.
End Response.

(** ** A login from its first packet to its last *)

(** A payload in one packet. *)
Definition frame (s : Z) (data : bytes) : bytes := header (len data) s ++ data.

Lemma packets_small s wire data s' :
  packets s wire data s' → len data < MaxPacketSize → wire = frame s data ∧ s' = wrapU 8 (s + 1).
Proof.
  intros H Hl. destruct H as [s data _|s data wire rest s' Hd _]; [done|]. rewrite len_app in Hl.
  pose proof (len_nonneg rest). lia.
Qed.

Lemma packets_frame s data : len data < MaxPacketSize → packets s (frame s data) data (wrapU 8 (s + 1)).
Proof. apply packets_last. Qed.

Lemma readDirect_frame c data tail :
  currentEphemeralPolicy c = ephemeralUnused → incoming c = frame (sequence c) data ++ tail → data ≠ [] →
  len data < MaxPacketSize →
  readEphemeralPacketDirect c
  = (setEphemeral ephemeralRead (Some data) (setSequence (wrapU 8 (sequence c + 1)) (setIncoming tail c)), Ok data).
Proof.
  intros Hp Hin Hd Hl. rewrite MaxPacketSize_val in Hl. pose proof (len_nonneg data).
  unfold readEphemeralPacketDirect, mbind, M_bind, get. rewrite Hp. simpl.
  rewrite (readHeaderFrom_header c (len data) (data ++ tail)); [|by rewrite Hin; unfold frame; rewrite <- app_assoc|lia].
  unfold modify. destruct (Z.eqb_spec (len data) 0) as [E|_]; [by destruct data|].
  rewrite MaxPacketSize_val. destruct (Z.ltb_spec (len data) (2 ^ 24 - 1)); [|lia].
  unfold readBody. by rewrite (ReadFull_app _ data tail).
Qed.

Section Login.
Context {K : PublicKeys} {I : MapIter} (bufPool : Z → bytes) (tm : simpleTenantManager) (s : Server) (b : BackendConnection) (rand : bytes).
Hypothesis pool_sizes : ∀ n, 0 ≤ n → len (bufPool n) = n.
Hypothesis server_ready : ready (sv_conn s).
Hypothesis client_ready : ready (bc_conn b).
Hypothesis in_step : sequence (bc_conn b) = sequence (sv_conn s).
Hypothesis conf_sendable : sendable (bc_conf b).
Hypothesis version_plain : plain (ServerVersion (sv_listener s)) ∧ len (ServerVersion (sv_listener s)) < 2 ^ 20.
Hypothesis id_range : inU 32 (sv_connectionID s).
Hypothesis rand_length : len rand = 20.

Definition loginSalt : bytes := map saltByte rand.

(** The client's flags after the greeting. *)
Definition negotiated : BackendConnection :=
  setBackendCapabilities (if cfg_DisableClientDeprecateEOF (bc_conf b) then 0
    else Z.land (serverCapabilities false) CapabilityClientDeprecateEOF) b.

Definition loginResponse : bytes := scramblePassword loginSalt (cfg_Passwd (bc_conf b)).

(** The numbers of the three packets. *)
Definition seq0 : Z := sequence (sv_conn s).
Definition seq1 : Z := wrapU 8 (seq0 + 1).
Definition seq2 : Z := wrapU 8 (seq1 + 1).

Definition packet1 : bytes := frame seq0 (concat (greeting (sv_listener s) (sv_connectionID s) loginSalt)).
Definition packet2 : bytes := frame seq1 (concat (response negotiated loginResponse)).

(** The login as the server sees it. *)
Definition presented : handshakeResult :=
  mkHandshake (sv_connectionID s) (cfg_DBName (bc_conf b)) [] (cfg_User (bc_conf b)) MysqlNativePassword loginResponse loginSalt.

Lemma len_loginSalt : len loginSalt = 20.
Proof using rand_length. unfold loginSalt, len. rewrite length_map. exact rand_length. Qed.

Lemma len_loginResponse : len loginResponse ≤ 20.
Proof.
  unfold loginResponse, scramblePassword. case_match; [done|]. unfold xorBytes, len.
  rewrite length_zip_with, !length_sha1. lia.
Qed.

Lemma packet1_small : len (concat (greeting (sv_listener s) (sv_connectionID s) loginSalt)) < MaxPacketSize.
Proof using rand_length version_plain.
  rewrite len_greeting, MaxPacketSize_val by apply len_loginSalt. destruct version_plain. lia.
Qed.

Lemma packet2_small : len (concat (response negotiated loginResponse)) < MaxPacketSize.
Proof using conf_sendable.
  rewrite len_response, MaxPacketSize_val. pose proof len_loginResponse. pose proof (lenEncIntSize_range (len loginResponse)).
  destruct conf_sendable as (_ & _ & Hu & Hd). change (bc_conf negotiated) with (bc_conf b). case_match; lia.
Qed.

Lemma auth_native sp : auth (cfg_Passwd (bc_conf b)) (mkView loginSalt sp) MysqlNativePassword = Ok loginResponse.
Proof using rand_length.
  unfold auth. repeat (rewrite bool_decide_false by done). rewrite bool_decide_true by done.
  unfold reslice. cbn [shown spare]. pose proof len_loginSalt as El.
  rewrite slice_prefix by (rewrite len_app, El; pose proof (len_nonneg sp); lia). cbn [mbind outcome_bind].
  rewrite take_app_length' by (unfold len in El; lia). done.
Qed.

(** The client up to the server's answer. *)
Definition awaiting (answer : bytes) : BackendConnection :=
  mkBackend (sent packet2 seq2 (setSequence seq1 (setIncoming answer (bc_conn b)))) (bc_conf b) (bc_capabilities negotiated)
    (ServerVersion (sv_listener s)) CharacterSetUtf8 (sv_connectionID s).

Lemma clientHandshake_awaits answer :
  ∃ sp, clientHandshake bufPool (setBackendConn (setIncoming (packet1 ++ answer) (bc_conn b)) b)
    = closingOnError (onBackend (handleAuthResult (bc_conf b) (mkView loginSalt sp) MysqlNativePassword)) (awaiting answer).
Proof using pool_sizes client_ready in_step conf_sendable version_plain id_range rand_length.
  destruct version_plain as [Hv Hlv]. unfold clientHandshake, mbind, SM_bind, getS, modifyS, orElse.
  unfold onBackend at 1. cbn [bc_conn setBackendConn].
  rewrite (readPacket_packets seq0 packet1 _ seq1 _ answer (packets_frame _ _ packet1_small)) by done.
  set (b1 := setBackendConn _ _).
  destruct (parseInitial_greeting b1 (sv_listener s) (sv_connectionID s) loginSalt Hv Hlv id_range len_loginSalt) as [sp E].
  exists sp. rewrite E. cbv beta iota. set (b2 := setBackendCapabilities _ _).
  change (bc_conf (setBackendCharset _ _)) with (bc_conf b). rewrite auth_native. unfold liftS. cbv beta iota.
  destruct (writeHandshakeResponse41_sends bufPool pool_sizes b2 loginResponse) as (wire & s' & Hw & E2).
  { exact client_ready. }
  { exact conf_sendable. }
  { pose proof len_loginResponse. lia. }
  destruct (packets_small _ _ _ _ Hw packet2_small) as [-> ->]. rewrite E2. cbv beta iota.
  match goal with |- context [closingOnError ?m ?b'] => change b' with (awaiting answer); set (r := closingOnError m (awaiting answer)) end.
  destruct r as [b3 [[]|e| |]]; done.
Qed.

(** The server once it has read the response. *)
Definition heard (rest : bytes) : Conn :=
  setEphemeral ephemeralUnused None (setSequence seq2 (setIncoming rest (sent packet1 seq1 (setIncoming rest (sv_conn s))))).

Definition keptListener : Listener :=
  setCharacterSet (byte (collationID (cfg_Collation (bc_conf b)))) (setCapabilities (keptCapabilities negotiated) (sv_listener s)).

Lemma handshake_verdict rest :
  handshake bufPool tm (Ok rand) (setConn (setIncoming (packet2 ++ rest) (sv_conn s)) s)
  = match ValidateHash tm presented with
    | (_, Some e) => (setListener keptListener (setConn (heard rest) s), Err e)
    | (h, None) =>
        (mkServer keptListener (setSchema (h_schema h) (heard rest)) (sv_connectionID s) (h_tenant h) (sv_capabilities s)
           (sv_characterSet s) (sv_serverVersion s) (sv_statusFlags s), Ok tt)
    end.
Proof using pool_sizes server_ready conf_sendable version_plain rand_length.
  destruct version_plain as [Hv Hlv]. unfold handshake, mbind, SM_bind, getS, liftS, newSalt. cbn [mbind outcome_bind].
  fold loginSalt. unfold onConn at 1. cbn [sv_conn sv_listener sv_connectionID setConn].
  destruct (writeHandshakeV10_sends bufPool pool_sizes (sv_listener s) (sv_connectionID s) loginSalt
    (setIncoming (packet2 ++ rest) (sv_conn s)) server_ready len_loginSalt Hlv) as (wire & s' & Hw & E).
  destruct (packets_small _ _ _ _ Hw packet1_small) as [-> ->]. rewrite E. cbv beta iota. unfold onConn at 1. cbn [sv_conn setConn].
  rewrite (readDirect_frame _ (concat (response negotiated loginResponse)) rest); [|done|done| |exact packet2_small].
  2:{ intros Hnil. pose proof (len_response negotiated loginResponse) as El. rewrite Hnil in El. change (len []) with 0 in El.
      pose proof (len_nonneg (cfg_User (bc_conf b))). pose proof (len_nonneg (cfg_DBName (bc_conf b))).
      pose proof (len_nonneg loginResponse). pose proof (lenEncIntSize_range (len loginResponse)).
      change (bc_conf negotiated) with (bc_conf b) in El. destruct (namesDB (bc_conf b)); lia. }
  cbv beta iota. unfold deferringS, onListener at 1. cbn [sv_listener setConn setListener].
  rewrite (parseClientHandshake_response negotiated loginResponse (sv_listener s) conf_sendable)
    by (pose proof len_loginResponse; lia).
  change (bc_conf negotiated) with (bc_conf b). cbv beta iota zeta.
  cbn [h_schema h_tenant h_username h_authMethod h_authResponse]. fold presented.
  destruct (ValidateHash tm presented) as [h [e|]]; done.
Qed.

(** The answers. *)
Definition okAnswer : bytes := concat (okPayload OKPacket 0 0 (sv_statusFlags s) 0).
Definition deniedMessage (h : handshakeResult) : bytes := text "Access denied for user '" ++ h_username h ++ text "'".
Definition deniedAnswer (h : handshakeResult) : bytes := concat (errorPayload ERAccessDeniedError SSAccessDeniedError (deniedMessage h)).

Lemma okAnswer_small : len okAnswer < MaxPacketSize.
Proof. unfold okAnswer. rewrite len_okPayload. by vm_compute. Qed.

Lemma handleAuthResult_ok v c tail :
  inU 16 (sv_statusFlags s) → incoming c = frame (sequence c) okAnswer ++ tail →
  handleAuthResult (bc_conf b) v MysqlNativePassword c
  = (setSequence (wrapU 8 (sequence c + 1)) (setIncoming tail c), Ok tt).
Proof.
  intros Hf Hin. unfold handleAuthResult, readAuthResult, mbind, M_bind.
  rewrite (readPacket_packets _ _ _ _ c tail (packets_frame (sequence c) okAnswer okAnswer_small)) by done.
  unfold lift. assert (load okAnswer 0 = Ok OKPacket) as -> by apply load_head. cbn [mbind outcome_bind].
  rewrite Z.eqb_refl. unfold okAnswer. rewrite parseOKPacket_payload by done. done.
Qed.

Lemma handleAuthResult_denied v c tail h :
  len (h_username h) < 2 ^ 20 → incoming c = frame (sequence c) (deniedAnswer h) ++ tail →
  handleAuthResult (bc_conf b) v MysqlNativePassword c
  = (setSequence (wrapU 8 (sequence c + 1)) (setIncoming tail c), Err (accessDenied h)).
Proof.
  intros Hu Hin. pose proof (len_nonneg (h_username h)).
  assert (len (deniedMessage h) = 25 + len (h_username h)) as El.
  { unfold deniedMessage. rewrite !len_app. change (len (text "Access denied for user '")) with 24. change (len (text "'")) with 1. lia. }
  assert (len (deniedAnswer h) < MaxPacketSize) as Hs.
  { unfold deniedAnswer. rewrite len_errorPayload, El, MaxPacketSize_val. change (len SSAccessDeniedError) with 5. lia. }
  unfold handleAuthResult, readAuthResult, mbind, M_bind.
  rewrite (readPacket_packets _ _ _ _ c tail (packets_frame (sequence c) (deniedAnswer h) Hs)) by done.
  unfold lift. assert (load (deniedAnswer h) 0 = Ok ErrPacket) as -> by apply load_head. cbn [mbind outcome_bind].
  change (ErrPacket =? OKPacket) with false. change (ErrPacket =? ComQuit) with false. change (ErrPacket =? EOFPacket) with false.
  cbv iota. unfold packetError, deniedAnswer. rewrite ParseErrorPacket_payload; [done|done|done|lia].
Qed.

(** A refused login names the error, and the name in it is short. *)
Lemma ValidateHash_facts h :
  let r := ValidateHash tm h in
  h_schema r.1 = h_schema h ∧ len (h_username r.1) ≤ len (h_username h) ∧ (∀ e, r.2 = Some e → e = accessDenied r.1).
Proof.
  assert (∀ t u, splitUsername (h_username h) = Some (t, u) → len u ≤ len (h_username h)) as Hu.
  { intros t u. unfold splitUsername. destruct (indexByte 46 (h_username h)) as [k|]; [|done]. case_match; [|done].
    intros [= _ <-]. unfold len. rewrite length_drop. lia. }
  unfold ValidateHash. destruct (splitUsername (h_username h)) as [[t u]|]; [specialize (Hu t u eq_refl)|];
    repeat case_match; simpl; repeat split; try done; try lia; congruence.
Qed.

Lemma writeOK_answers c :
  ready c → sequence c = seq2 →
  writeOKPacket bufPool 0 0 (sv_statusFlags s) 0 c = (sent (frame seq2 okAnswer) (wrapU 8 (seq2 + 1)) c, Ok tt).
Proof using pool_sizes.
  intros (Hq & Hh & Hp) Hs. unfold writeOKPacket, writeOKHeader.
  match goal with |- sendFields _ ?n ?fs _ = _ =>
    destruct (sendFields_sends bufPool n fs (okPayload OKPacket 0 0 (sv_statusFlags s) 0) c) as (wire & s' & Hw & E) end;
    [by apply pool_sizes|done| |by rewrite len_okPayload|done..|].
  { repeat apply Forall2_cons_2; auto using writes_byte, writes_lenEncInt, writes_uint16. }
  destruct (packets_small _ _ _ _ Hw okAnswer_small) as [-> ->]. rewrite E, Hs. done.
Qed.

Lemma writeDenied_answers h c :
  ready c → sequence c = seq2 → len (h_username h) < 2 ^ 20 →
  writeErrorPacketFromError bufPool (reported (accessDenied h)) c
  = (sent (frame seq2 (deniedAnswer h)) (wrapU 8 (seq2 + 1)) c, Ok tt).
Proof using pool_sizes.
  intros (Hq & Hh & Hp) Hs Hu. pose proof (len_nonneg (h_username h)).
  assert (len (deniedMessage h) = 25 + len (h_username h)) as El.
  { unfold deniedMessage. rewrite !len_app. change (len (text "Access denied for user '")) with 24. change (len (text "'")) with 1. lia. }
  assert (len (deniedAnswer h) = 34 + len (h_username h)) as El'.
  { unfold deniedAnswer. rewrite len_errorPayload, El. change (len SSAccessDeniedError) with 5. lia. }
  change (reported (accessDenied h)) with (@inl (Z * bytes * bytes) bytes (ERAccessDeniedError, SSAccessDeniedError, deniedMessage h)).
  unfold writeErrorPacketFromError, writeErrorPacket, mbind, M_bind, get.
  change (wrapU 16 ERAccessDeniedError =? ErrNoSuchTable) with false. change (len SSAccessDeniedError =? 0) with false. cbv iota.
  match goal with |- sendFields _ ?n ?fs _ = _ =>
    destruct (sendFields_sends bufPool n fs (errorPayload ERAccessDeniedError SSAccessDeniedError (deniedMessage h)) c)
      as (wire & s' & Hw & E) end;
    [apply pool_sizes; lia|lia| |rewrite len_errorPayload, El; change (len SSAccessDeniedError) with 5; lia|done..|].
  { repeat apply Forall2_cons_2; auto using writes_byte, writes_uint16, writes_string. exact (writes_string SSAccessDeniedError). }
  destruct (packets_small _ _ _ _ Hw) as [-> ->]; [fold (deniedAnswer h); rewrite El', MaxPacketSize_val; lia|].
  rewrite E, Hs. done.
Qed.

(** C26: A login runs to its end.  The server sends its greeting, the client
    answers with the scramble of its password over the salt it reads in it, and
    the server reads the name, the schema and that response.  What
    [ValidateHash] decides on them reaches both sides: let in, the server is
    bound to the tenant and the schema with the flags of this client and the
    client is connected; refused, the client gets the server's error, closes,
    and no tenant is bound.  Each side reads exactly the packets of the other. *)
Theorem login_protocol :
  inU 16 (sv_statusFlags s) →
  let server rest := login bufPool tm (Ok rand) (setConn (setIncoming (packet2 ++ rest) (sv_conn s)) s) in
  let client answer tail := clientHandshake bufPool (setBackendConn (setIncoming (packet1 ++ frame seq2 answer ++ tail) (bc_conn b)) b) in
  match ValidateHash tm presented with
  | (h, None) =>
      (∀ rest, ∃ s', server rest = (s', Ok true) ∧ sv_tenant s' = h_tenant h ∧ Schema (sv_conn s') = cfg_DBName (bc_conf b) ∧
         sv_capabilities s' = keptCapabilities negotiated ∧ incoming (sv_conn s') = rest ∧ ready (sv_conn s') ∧
         outgoing (sv_conn s') = outgoing (sv_conn s) ++ packet1 ++ frame seq2 okAnswer) ∧
      (∀ tail, ∃ b', client okAnswer tail = (b', Ok tt) ∧ bc_serverVersion b' = ServerVersion (sv_listener s) ∧
         bc_connectionID b' = sv_connectionID s ∧ incoming (bc_conn b') = tail ∧ ready (bc_conn b') ∧
         outgoing (bc_conn b') = outgoing (bc_conn b) ++ packet2)
  | (h, Some e) =>
      e = accessDenied h ∧
      (∀ rest, ∃ s', server rest = (s', Ok false) ∧ sv_tenant s' = sv_tenant s ∧
         outgoing (sv_conn s') = outgoing (sv_conn s) ++ packet1 ++ frame seq2 (deniedAnswer h)) ∧
      (∀ tail, ∃ b', client (deniedAnswer h) tail = (b', Err e) ∧ closed (bc_conn b') = true)
  end.
Proof using pool_sizes server_ready client_ready in_step conf_sendable version_plain id_range rand_length.
  intros Hf server client. destruct (ValidateHash_facts presented) as (Hsch & Hu & He).
  assert (len (h_username (ValidateHash tm presented).1) < 2 ^ 20) as Hshort.
  { destruct conf_sendable as (_ & _ & Hlu & _). change (h_username presented) with (cfg_User (bc_conf b)) in Hu. lia. }
  assert (∀ rest, ready (heard rest)) as Hr by (intros rest; by destruct server_ready as (? & ? & ?)).
  destruct (ValidateHash tm presented) as [h [e|]] eqn:Ev; cbn [fst snd] in *.
  - specialize (He e eq_refl) as ->. split; [done|]. split.
    + intros rest. unfold server, login. rewrite handshake_verdict, Ev. cbv beta iota. unfold onConn. cbn [sv_conn setConn setListener].
      rewrite (writeDenied_answers h (heard rest)) by done. cbv beta iota. eexists. split; [done|]. split; [done|].
      cbn. by rewrite <- app_assoc.
    + intros tail. destruct (clientHandshake_awaits (frame seq2 (deniedAnswer h) ++ tail)) as [sp E].
      unfold client. rewrite E. unfold closingOnError, onBackend. cbn [bc_conn awaiting].
      rewrite (handleAuthResult_denied _ _ tail h) by done. eexists. by split.
  - split.
    + intros rest. unfold server, login. rewrite handshake_verdict, Ev. cbv beta iota zeta. unfold onConn. cbn [sv_conn sv_statusFlags setConn].
      rewrite (writeOK_answers (setSchema (h_schema h) (heard rest))) by (apply (Hr rest) || done). cbv beta iota. eexists. split; [done|]. split; [done|]. split; [exact Hsch|].
      split; [done|]. split; [done|]. split; [by destruct server_ready as (? & ? & ?)|]. cbn. by rewrite <- app_assoc.
    + intros tail. destruct (clientHandshake_awaits (frame seq2 okAnswer ++ tail)) as [sp E].
      unfold client. rewrite E. unfold closingOnError, onBackend. cbn [bc_conn awaiting].
      rewrite (handleAuthResult_ok _ _ tail) by done. eexists. split; [done|]. split; [done|]. split; [done|]. split; [done|].
      split; [by destruct client_ready as (? & ? & ?)|done].
Qed.
End Login.

(** ** Hostile packets *)

Lemma readByte_safe data pos :
  buffer data → Forall (inU 8) data → 0 ≤ pos →
  readByte data pos = Ok None ∨ ∃ v, readByte data pos = Ok (Some (v, pos + 1)) ∧ inU 8 v ∧ pos + 1 ≤ len data.
Proof.
  intros Hb Hd Hp. unfold readByte, buffer in *. destruct (Z.geb_spec pos (len data)); [by left|]. right.
  destruct (load_range data pos) as (v & -> & Hv); [done|lia|]. exists v. simpl. rewrite add_small by lia. split; [done|split; [done|lia]].
Qed.

Lemma readBytesCopy_safe data pos n :
  buffer data → 0 ≤ pos ≤ len data → 0 ≤ n < 2 ^ 62 →
  readBytesCopy data pos n = Ok None ∨ ∃ v, readBytesCopy data pos n = Ok (Some (v, pos + n)) ∧ pos + n ≤ len data.
Proof.
  intros Hb Hp Hn. unfold readBytesCopy, buffer in *. rewrite !(add_small pos n), add_small by lia.
  destruct (Z.geb_spec (pos + n + -1) (len data)); [by left|]. right. destruct (Z.ltb_spec n 0); [lia|].
  unfold slice. destruct (Z.leb_spec 0 pos), (Z.leb_spec pos (pos + n)), (Z.leb_spec (pos + n) (len data)); try lia.
  simpl. eexists. split; [done|lia].
Qed.

(** A result or an error. *)
Definition answered {A} (m : outcome A) : Prop := match m with Ok _ | Err _ => True | _ => False end.

Lemma connAttrsLoop_answered fuel data pos n attrLen attrs :
  buffer data → Forall (inU 8) data → 0 ≤ pos ≤ len data → len data - pos < Z.of_nat fuel →
  answered (connAttrsLoop fuel data pos n attrLen attrs).
Proof.
  intros Hb Hd. revert pos n attrs. induction fuel as [|fuel IH]; intros pos n attrs Hp Hf; [lia|].
  cbn [connAttrsLoop]. case_match; [done|]. unfold must.
  destruct (readByte_safe data pos Hb Hd) as [->|(k & -> & Hk & Hl1)]; [lia|done|]. cbn [mbind outcome_bind fst snd].
  unfold inU in Hk.
  destruct (readBytesCopy_safe data (pos + 1) k Hb) as [->|(key & -> & Hl2)]; [lia|lia|done|]. cbn [mbind outcome_bind fst snd].
  destruct (readByte_safe data (pos + 1 + k) Hb Hd) as [->|(v & -> & Hv & Hl3)]; [lia|done|]. cbn [mbind outcome_bind fst snd].
  unfold inU in Hv.
  destruct (readBytesCopy_safe data (pos + 1 + k + 1) v Hb) as [->|(val & -> & Hl4)]; [lia|lia|done|]. cbn [mbind outcome_bind fst snd].
  apply IH; lia.
Qed.

(** Whatever a client sends as connection attributes, the loop over them
    ends, with the attributes or an error. *)
Lemma parseConnAttrs_answered data pos :
  buffer data → Forall (inU 8) data → 0 ≤ pos ≤ len data → answered (parseConnAttrs data pos).
Proof.
  intros Hb Hd Hp. unfold parseConnAttrs, must.
  destruct (readLenEncInt_safe data pos Hb Hd Hp) as ([[i p]|] & -> & Hr); [|done]. destruct Hr as [Hi Hpp].
  cbn [mbind outcome_bind fst snd]. apply connAttrsLoop_answered; [done|done|lia|]. unfold len. lia.
Qed.

(** A position in the packet, or an error. *)
Definition within {A} (data : bytes) (m : outcome (A * Z)) : Prop :=
  match m with Ok (_, p) => 0 ≤ p ≤ len data | Err _ => True | _ => False end.

Lemma within_bind {A B} data (m : outcome (A * Z)) (f : A * Z → outcome B) (P : outcome B → Prop) :
  within data m → (∀ e, P (Err e)) → (∀ a p, m = Ok (a, p) → 0 ≤ p ≤ len data → P (f (a, p))) → P (m ≫= f).
Proof. destruct m as [[a p]|e| |]; simpl; try done; auto. Qed.

Section Hostile.
Context (data : bytes).
Hypothesis small : buffer data.
Hypothesis octets : Forall (inU 8) data.

Lemma must_byte msg pos : 0 ≤ pos → within data (must msg (readByte data pos)).
Proof using small octets. intros Hp. unfold must. destruct (readByte_safe data pos) as [->|(v & -> & _ & ?)]; [done..|simpl; lia]. Qed.

Lemma must_bytesCopy msg pos n : 0 ≤ pos ≤ len data → 0 ≤ n < 2 ^ 62 → within data (must msg (readBytesCopy data pos n)).
Proof using small. intros Hp Hn. unfold must. destruct (readBytesCopy_safe data pos n) as [->|(v & -> & ?)]; [done..|simpl; lia]. Qed.

Lemma must_uint32 msg pos : 0 ≤ pos ≤ len data → within data (must msg (readUint32 data pos)).
Proof using small.
  intros Hp. unfold must, readUint32, readFixed, buffer in *. rewrite !add_small by lia. change (Z.of_nat 4) with 4.
  destruct (Z.geb_spec (pos + (4 - 1)) (len data)); [done|]. unfold slice.
  destruct (Z.leb_spec 0 pos), (Z.leb_spec pos (pos + 4)), (Z.leb_spec (pos + 4) (len data)); try lia. simpl. lia.
Qed.

Lemma must_null msg pos : 0 ≤ pos ≤ len data → within data (must msg (readNullString data pos)).
Proof using small octets.
  intros Hp. unfold must. destruct (readers_safe data pos small octets Hp) as (_ & _ & ([[v p]|] & -> & Hr)); [|done].
  destruct Hr as (_ & -> & Hl). simpl. pose proof (len_nonneg v). lia.
Qed.

Lemma must_lenEncInt msg pos : 0 ≤ pos ≤ len data → within data (must msg (readLenEncInt data pos)).
Proof using small octets.
  intros Hp. unfold must. destruct (readLenEncInt_safe data pos small octets Hp) as ([[i p]|] & -> & Hr); [|done]. simpl. lia.
Qed.

(** No response of 2^62 bytes or more is announced. *)
Hypothesis modest : ∀ p i q, readLenEncInt data p = Ok (Some (i, q)) → i < 2 ^ 62.

Lemma readAuthResponse_within flags pos : 0 ≤ pos ≤ len data → within data (readAuthResponse flags data pos).
Proof using small octets modest.
  intros Hp. unfold readAuthResponse. case_match; [|case_match].
  - apply within_bind with (data := data); [by apply must_lenEncInt|done|]. intros i p E Hr. cbn [fst snd].
    unfold must in E. destruct (readLenEncInt_safe data pos small octets Hp) as (r & Er & Hi). rewrite Er in E.
    destruct r as [[i' p']|]; [|done]. injection E as -> ->. specialize (modest _ _ _ Er). destruct Hi as [Hi _]. unfold inU in Hi.
    rewrite wrapS_id by (unfold inS; lia). apply must_bytesCopy; [done|lia].
  - apply within_bind with (data := data); [apply must_byte; lia|done|]. intros i p E Hr. cbn [fst snd].
    unfold must in E. destruct (readByte_safe data pos small octets) as [Er|(v & Er & Hv & _)]; [lia|by rewrite Er in E|].
    rewrite Er in E. injection E as -> <-. unfold inU in Hv. apply must_bytesCopy; [done|lia].
  - by apply must_null.
Qed.

Lemma parseLogin_answered flags pos : 0 ≤ pos ≤ len data → answered (parseLogin flags data pos).
Proof using small octets modest.
  intros Hp. unfold parseLogin. apply within_bind with (data := data); [by apply must_null|done|]. intros user p1 _ H1. cbn [fst snd].
  apply within_bind with (data := data); [by apply readAuthResponse_within|done|]. intros resp p2 _ H2. cbn [fst snd].
  apply within_bind with (data := data); [case_match; [by apply must_null|done]|done|]. intros db p3 _ H3. cbn [fst snd].
  apply within_bind with (data := data); [case_match; [by apply must_null|done]|done|]. intros method p4 _ H4. cbn [fst snd].
  cbv zeta. case_match; [|done]. pose proof (parseConnAttrs_answered data p4 small octets H4) as Ha. by destruct (parseConnAttrs data p4).
Qed.
End Hostile.


(** ** The database chosen by a command *)

(** Reading packets one by one leaves the ephemeral buffer alone. *)
Definition keepsPolicy {A} (m : M A) : Prop := ∀ c, currentEphemeralPolicy (m c).1 = currentEphemeralPolicy c.

Lemma keepsPolicy_bind {A B} (m : M A) (f : A → M B) : keepsPolicy m → (∀ a, keepsPolicy (f a)) → keepsPolicy (m ≫= f).
Proof.
  intros Hm Hf c. unfold mbind, M_bind. specialize (Hm c). destruct (m c) as [c' [a|e| |]]; simpl in *; try done.
  by rewrite (Hf a c').
Qed.

Lemma readOnePacket_policy : keepsPolicy readOnePacket.
Proof.
  apply keepsPolicy_bind.
  - intros c. unfold readHeaderFrom, ReadFull. repeat case_match; simplify_eq; done.
  - intros n. case_match; [by intros c|]. intros c. unfold wrapping, ReadFull. repeat case_match; simplify_eq; done.
Qed.

Lemma readPacket_policy : keepsPolicy readPacket.
Proof.
  apply keepsPolicy_bind; [apply readOnePacket_policy|]. intros data. destruct (len data <? MaxPacketSize); [by intros c|].
  unfold readRest. apply keepsPolicy_bind; [by intros c|]. intros c0. generalize (S (length (incoming c0))). intros fuel.
  revert data. induction fuel as [|fuel IH]; intros data; [by intros c|]. cbn [readMore].
  apply keepsPolicy_bind; [apply readOnePacket_policy|]. intros next. destruct (len next =? 0); [by intros c|].
  destruct (len next <? MaxPacketSize); [by intros c|]. apply IH.
Qed.

(** Where the server cannot take the database in the handshake, choosing it
    with a command panics whatever the server answers: the packet read is not
    an ephemeral one, and recycling it is refused. *)
Lemma selectDatabase_panics bufPool db c :
  (∀ n, 0 ≤ n → len (bufPool n) = n) → ready c → len db < 2 ^ 20 → (selectDatabase bufPool db c).2 = Panic.
Proof.
  intros Hpool (Hq & Hh & Hp) Hl. pose proof (len_nonneg db). unfold selectDatabase, mbind, M_bind, WriteComInitDB.
  unfold mapErr at 1. unfold orElse at 1.
  destruct (sendFields_sends bufPool (len db + 1) [λ data pos, writeByte data pos ComInitDB; writeCopy (Ok db)] [[ComInitDB]; db] c)
    as (wire & s' & _ & E); [apply Hpool; lia|lia| | |done..|].
  { repeat apply Forall2_cons_2; eauto with wire; try apply Forall2_nil_2. }
  { simpl. rewrite app_nil_r, len_cons. lia. }
  rewrite E. cbv beta iota. unfold mapErr, orElse, deferring. set (c' := setEphemeral _ _ _).
  pose proof (readPacket_policy c') as Hpol. destruct (readPacket c') as [c2 r]. cbn [fst] in Hpol.
  unfold recycleReadPacket, mbind, M_bind, get. rewrite Hpol. done.
Qed.

(** ** Examples *)

(** No public key can be read. *)
Module NoKeys.
#[export] Instance instance : PublicKeys := {|
  PublicKey := unit;
  pem_Decode := λ _, None;
  ParsePKIXPublicKey := λ _, Err (NewError "no key");
  EncryptOAEP := λ _ _, Err (NewError "no key");
|}.
End NoKeys.

Module HandshakeExamples.
Import NoKeys.

Definition server : Server := mkServer (mkListener (text "5.7.0") 0 0) freshConn 7 [] 0 0 [] 2.

Definition conf (passwd : string) : Config :=
  mkConfig (text "root") (text passwd) (text "tcp") (text "employees") "utf8mb4_general_ci" false None false false.

Definition client (passwd : string) : BackendConnection := mkBackend freshConn (conf passwd) 0 [] 0 0.

Definition rand : bytes := map Z.of_nat (seq 100 20).

(** The client that answers for the plugin. *)
Definition respond (plugin : string) : outcome unit :=
  (writeHandshakeResponse41 zeroPool (serverCapabilities false) (text "0123456789") (text plugin) (client "s3cret")).2.

(** A greeting without CLIENT_PLUGIN_AUTH: the byte for the length of the
    challenge is zero. *)
Definition oldGreeting : bytes :=
  [10; 53; 46; 48; 0; 1; 0; 0; 0] ++ text "abcdefgh" ++ [0] ++
  littleEndian 2 (flagsOf [CapabilityClientProtocol41; CapabilityClientSecureConnection]) ++ [33; 2; 0; 0; 0; 0] ++
  replicate 10 0 ++ text "ijklmnopqrst" ++ [0].
End HandshakeExamples.

Import HandshakeExamples.

Lemma login_protocol_witness :
  ∃ s', login (I := ForwardIter.instance) zeroPool LoginExamples.registry (Ok rand)
    (setConn (setIncoming (packet2 (K := NoKeys.instance) server (client "s3cret") rand ++ []) freshConn) server) = (s', Ok true) ∧ sv_tenant s' = text "blue".
Proof.
  assert (ready freshConn) as Hr by exact (conj eq_refl (conj eq_refl eq_refl)).
  assert (sendable (K := NoKeys.instance) (bc_conf (client "s3cret"))) as Hs.
  { split; [|split; [|split]]; [repeat constructor; done|repeat constructor; done|by vm_compute|by vm_compute]. }
  assert (plain (text "5.7.0") ∧ len (text "5.7.0") < 2 ^ 20) as Hv.
  { split; [repeat constructor; done|by vm_compute]. }
  assert (inU 32 7 ∧ inU 16 2) as [Hid Hf] by (split; split; by vm_compute).
  pose proof (@login_protocol NoKeys.instance ForwardIter.instance zeroPool LoginExamples.registry server (client "s3cret") rand
    len_zeroPool Hr Hr eq_refl Hs Hv Hid eq_refl Hf) as H. cbv zeta in H.
  assert ((@ValidateHash ForwardIter.instance LoginExamples.registry (presented (K := NoKeys.instance) server (client "s3cret") rand)).2 = None) as E1
    by (vm_compute; reflexivity).
  assert (h_tenant (@ValidateHash ForwardIter.instance LoginExamples.registry (presented (K := NoKeys.instance) server (client "s3cret") rand)).1 = text "blue") as E2
    by (vm_compute; reflexivity).
  destruct (ValidateHash _ _) as [h e]. cbn [fst snd] in *. subst e. destruct H as [H _].
  destruct (H []) as (s' & E & Ht & _). exists s'. split; [exact E|]. by rewrite Ht.
Defined.

(** The client's response is built for a plugin name of 21 bytes: with the
    other plugins [auth] knows it is refused by the client's own check. *)
Example response_plugins :
  map respond ["mysql_native_password"; "caching_sha2_password"; "sha256_password"; "mysql_old_password"; "mysql_clear_password"]%string
  = [Ok tt; Ok tt;
     Err (SQLError 2027 (text "HY000") (text "writeHandshakeResponse41: packet of another length"));
     Err (SQLError 2027 (text "HY000") (text "writeHandshakeResponse41: packet of another length"));
     Err (SQLError 2027 (text "HY000") (text "writeHandshakeResponse41: packet of another length"))].
Proof. vm_compute. reflexivity. Qed.

(** A server without authentication plugins makes the client panic. *)
Example old_greeting_panics : (parseInitialHandshakePacket (K := NoKeys.instance) oldGreeting (client "s3cret")).2 = Panic.
Proof. vm_compute. reflexivity. Qed.

