(* ===== verification/Row.v ===== *)
(** * Fields and rows: [pkg/mysql/fields.go], [pkg/constants/mysql/type.go],
    [pkg/mysql/rows/virtual_row.go]

    A column's description, the types of the protocol, and rows.  [proto.Row]
    and [proto.KeyedRow] are interfaces: a row is a record of what its methods
    answer.  Virtual rows, made by the proxy itself, are defined here; the rows
    that come from the network are in the file on the row formats. *)
From S2P Require Import Prelude GoStd Value.

(** ** Types of the protocol *)

Definition FieldTypeDecimal : Z := 0.
Definition FieldTypeTiny : Z := 1.
Definition FieldTypeShort : Z := 2.
Definition FieldTypeLong : Z := 3.
Definition FieldTypeFloat : Z := 4.
Definition FieldTypeDouble : Z := 5.
Definition FieldTypeNULL : Z := 6.
Definition FieldTypeTimestamp : Z := 7.
Definition FieldTypeLongLong : Z := 8.
Definition FieldTypeInt24 : Z := 9.
Definition FieldTypeDate : Z := 10.
Definition FieldTypeTime : Z := 11.
Definition FieldTypeDateTime : Z := 12.
Definition FieldTypeYear : Z := 13.
Definition FieldTypeNewDate : Z := 14.
Definition FieldTypeVarChar : Z := 15.
Definition FieldTypeBit : Z := 16.
Definition FieldTypeJSON : Z := 0xf5.
Definition FieldTypeNewDecimal : Z := 0xf6.
Definition FieldTypeEnum : Z := 0xf7.
Definition FieldTypeSet : Z := 0xf8.
Definition FieldTypeTinyBLOB : Z := 0xf9.
Definition FieldTypeMediumBLOB : Z := 0xfa.
Definition FieldTypeLongBLOB : Z := 0xfb.
Definition FieldTypeBLOB : Z := 0xfc.
Definition FieldTypeVarString : Z := 0xfd.
Definition FieldTypeString : Z := 0xfe.
Definition FieldTypeGeometry : Z := 0xff.

Definition NotNullFlag : Z := Z.shiftl 1 0.
Definition UnsignedFlag : Z := Z.shiftl 1 5.
Definition BinaryFlag : Z := Z.shiftl 1 7.

(** A literal map: the value of the first entry with the key. *)
Definition assoc {V} (m : list (Z * V)) (k : Z) : option V := snd <$> List.find (λ e, fst e =? k) m.

Definition mysqlToType : list (Z * Z) := [
  (0, FieldTypeDecimal); (1, FieldTypeTiny); (2, FieldTypeShort); (3, FieldTypeLong); (4, FieldTypeFloat);
  (5, FieldTypeDouble); (6, FieldTypeNULL); (7, FieldTypeTimestamp); (8, FieldTypeLongLong); (9, FieldTypeInt24);
  (10, FieldTypeDate); (11, FieldTypeTime); (12, FieldTypeDateTime); (13, FieldTypeYear); (14, FieldTypeNewDate);
  (15, FieldTypeVarChar); (16, FieldTypeBit); (17, FieldTypeTimestamp); (18, FieldTypeDateTime); (19, FieldTypeTime);
  (245, FieldTypeJSON); (246, FieldTypeDecimal); (247, FieldTypeEnum); (248, FieldTypeSet); (249, FieldTypeTinyBLOB);
  (250, FieldTypeMediumBLOB); (251, FieldTypeLongBLOB); (252, FieldTypeBLOB); (253, FieldTypeVarString);
  (254, FieldTypeString); (255, FieldTypeGeometry)].

Definition MySQLToType (mysqlType flags : Z) : outcome Z :=
  match assoc mysqlToType mysqlType with
  | Some result => Ok result
  | None => Err (NewError "unsupported type")
  end.

Definition typeToMySQL : list (Z * (Z * Z)) := [
  (FieldTypeTiny, (1, 0)); (FieldTypeShort, (2, 0)); (FieldTypeLong, (3, 0)); (FieldTypeFloat, (4, 0));
  (FieldTypeDouble, (5, 0)); (FieldTypeNULL, (6, BinaryFlag)); (FieldTypeTimestamp, (7, 0)); (FieldTypeLongLong, (8, 0));
  (FieldTypeInt24, (9, 0)); (FieldTypeDate, (10, BinaryFlag)); (FieldTypeTime, (11, BinaryFlag));
  (FieldTypeDateTime, (12, BinaryFlag)); (FieldTypeYear, (13, UnsignedFlag)); (FieldTypeBit, (16, UnsignedFlag));
  (FieldTypeJSON, (245, 0)); (FieldTypeDecimal, (246, 0)); (FieldTypeEnum, (247, 0)); (FieldTypeSet, (248, 0));
  (FieldTypeTinyBLOB, (249, 0)); (FieldTypeMediumBLOB, (250, 0)); (FieldTypeLongBLOB, (251, 0)); (FieldTypeBLOB, (252, 0));
  (FieldTypeVarString, (253, 0)); (FieldTypeString, (254, 0)); (FieldTypeGeometry, (255, 0))].

(** A missing key gives the zero value. *)
Definition TypeToMySQL (typ : Z) : Z * Z := default (0, 0) (assoc typeToMySQL typ).

(** ** Fields *)

Record Field := mkField {
  table : string;
  orgTable : string;
  database : string;
  name : string;
  orgName : string;
  length_ : Z;
  flags : Z;
  fieldType : Z;
  decimals : Z;
  charSet : Z;
}.

Definition NewField (nm : string) (filedType : Z) : Field := mkField "" "" "" nm "" 0 0 filedType 0 0.

Definition SetName (nm : string) (mf : Field) : Field :=
  mkField (table mf) (orgTable mf) (database mf) nm (orgName mf) (length_ mf) (flags mf) (fieldType mf) (decimals mf) (charSet mf).

Definition SetOrgName (nm : string) (mf : Field) : Field :=
  mkField (table mf) (orgTable mf) (database mf) (name mf) nm (length_ mf) (flags mf) (fieldType mf) (decimals mf) (charSet mf).

Definition Name (mf : Field) : string := name mf.

Definition MaxInt64 : Z := 2 ^ 63 - 1.

(** [switch x { case c1, c2: }]. *)
Definition oneOf (cases : list Z) (x : Z) : bool := existsb (Z.eqb x) cases.

Definition DecimalSize (mf : Field) : option (Z * Z) :=
  if oneOf [FieldTypeDecimal; FieldTypeNewDecimal] (fieldType mf) then
    if decimals mf >? 0 then Some (length_ mf - 2, decimals mf) else Some (length_ mf - 1, decimals mf)
  else if oneOf [FieldTypeTimestamp; FieldTypeDateTime; FieldTypeTime] (fieldType mf) then Some (decimals mf, decimals mf)
  else if oneOf [FieldTypeFloat; FieldTypeDouble] (fieldType mf) then
    if decimals mf =? 0x1f then Some (MaxInt64, MaxInt64) else Some (MaxInt64, decimals mf)
  else None.

Definition Nullable (mf : Field) : bool := Z.land (flags mf) NotNullFlag =? 0.

(** [mysql.Collations[mysql.BinaryCollation]]. *)
Definition binaryCollation : Z := 63.

Definition DatabaseTypeName (mf : Field) : string :=
  let binary := charSet mf =? binaryCollation in
  let choose (a b : string) : string := if binary then a else b in
  default ""%string (assoc [
    (FieldTypeBit, "BIT"%string); (FieldTypeBLOB, choose "BLOB" "TEXT"); (FieldTypeDate, "DATE"%string);
    (FieldTypeDateTime, "DATETIME"%string); (FieldTypeDecimal, "DECIMAL"%string); (FieldTypeDouble, "DOUBLE"%string);
    (FieldTypeEnum, "ENUM"%string); (FieldTypeFloat, "FLOAT"%string); (FieldTypeGeometry, "GEOMETRY"%string);
    (FieldTypeInt24, "MEDIUMINT"%string); (FieldTypeJSON, "JSON"%string); (FieldTypeLong, "INT"%string);
    (FieldTypeLongBLOB, choose "LONGBLOB" "LONGTEXT"); (FieldTypeLongLong, "BIGINT"%string);
    (FieldTypeMediumBLOB, choose "MEDIUMBLOB" "MEDIUMTEXT"); (FieldTypeNewDate, "DATE"%string);
    (FieldTypeNewDecimal, "DECIMAL"%string); (FieldTypeNULL, "NULL"%string); (FieldTypeSet, "SET"%string);
    (FieldTypeShort, "SMALLINT"%string); (FieldTypeString, choose "BINARY" "CHAR"); (FieldTypeTime, "TIME"%string);
    (FieldTypeTimestamp, "TIMESTAMP"%string); (FieldTypeTiny, "TINYINT"%string);
    (FieldTypeTinyBLOB, choose "TINYBLOB" "TINYTEXT"); (FieldTypeVarChar, choose "VARBINARY" "VARCHAR");
    (FieldTypeVarString, choose "VARBINARY" "VARCHAR"); (FieldTypeYear, "YEAR"%string)] (fieldType mf)).

Inductive scanType :=
| scanTypeFloat32 | scanTypeFloat64 | scanTypeInt8 | scanTypeInt16 | scanTypeInt32 | scanTypeInt64
| scanTypeNullFloat | scanTypeNullInt | scanTypeNullTime | scanTypeUint8 | scanTypeUint16 | scanTypeUint32
| scanTypeUint64 | scanTypeRawBytes | scanTypeUnknown.

Definition ScanType (mf : Field) : scanType :=
  let has (f : Z) : bool := negb (Z.land (flags mf) f =? 0) in
  let int (u s : scanType) : scanType :=
    if has NotNullFlag then if has UnsignedFlag then u else s else scanTypeNullInt in
  let among := λ cases, oneOf cases (fieldType mf) in
  if among [FieldTypeTiny] then int scanTypeUint8 scanTypeInt8
  else if among [FieldTypeShort; FieldTypeYear] then int scanTypeUint16 scanTypeInt16
  else if among [FieldTypeInt24; FieldTypeLong] then int scanTypeUint32 scanTypeInt32
  else if among [FieldTypeLongLong] then int scanTypeUint64 scanTypeInt64
  else if among [FieldTypeFloat] then if has NotNullFlag then scanTypeFloat32 else scanTypeNullFloat
  else if among [FieldTypeDouble] then if has UnsignedFlag then scanTypeFloat64 else scanTypeNullFloat
  else if among [FieldTypeDecimal; FieldTypeNewDecimal; FieldTypeVarChar; FieldTypeBit; FieldTypeEnum; FieldTypeSet;
              FieldTypeTinyBLOB; FieldTypeMediumBLOB; FieldTypeLongBLOB; FieldTypeBLOB; FieldTypeVarString;
              FieldTypeString; FieldTypeGeometry; FieldTypeJSON; FieldTypeTime] then scanTypeRawBytes
  else if among [FieldTypeDate; FieldTypeNewDate; FieldTypeTimestamp; FieldTypeDateTime] then scanTypeNullTime
  else scanTypeUnknown.

(** ** Rows *)

(** A cell: a value or NULL. *)
Abbreviation cell := (option ProtoValue).

(** [Scan] fills a slice of the given length; [Get] and [RowFields] belong to
    [proto.KeyedRow]. *)
Record Row := mkRow {
  IsBinary : bool;
  RowFields : list Field;
  Scan : nat → outcome (list cell);
  Get : string → outcome cell;
}.

(** The first field of the name. *)
Definition fieldIndex (fields : list Field) (nm : string) : option nat :=
  fst <$> list_find (λ f, Name f = nm) fields.

(** ** Virtual rows *)

Record baseVirtualRow := mkVirtual { fields : list Field; cells : list cell }.

Definition errScanDiffSize : error := NewError "cannot scan to dest with different length".

Definition IsScanDiffSizeErr (err : error) : bool := errors_Is err errScanDiffSize.

Definition virtual_Get (b : baseVirtualRow) (nm : string) : outcome cell :=
  match fieldIndex (fields b) nm with
  | None => Err (NewError "no such field found")
  | Some idx => match cells b !! idx with Some c => Ok c | None => Panic end
  end.

Definition virtual_Scan (b : baseVirtualRow) (dest : nat) : outcome (list cell) :=
  if negb (dest =? length (cells b))%nat then Err (WrapError errScanDiffSize) else Ok (cells b).

Definition newBaseVirtualRow (fs : list Field) (cs : list cell) : outcome baseVirtualRow :=
  if negb (length fs =? length cs)%nat then Panic else Ok (mkVirtual fs cs).

Definition virtualRow (binary : bool) (b : baseVirtualRow) : Row :=
  mkRow binary (fields b) (virtual_Scan b) (virtual_Get b).

Definition NewBinaryVirtualRow (fs : list Field) (cs : list cell) : outcome Row :=
  b ← newBaseVirtualRow fs cs; Ok (virtualRow true b).

Definition NewTextVirtualRow (fs : list Field) (cs : list cell) : outcome Row :=
  b ← newBaseVirtualRow fs cs; Ok (virtualRow false b).

(** A row made from as many cells as fields scans into them, and each field
    with a name of its own is found under it. *)
Lemma virtual_row_reads (binary : bool) (fs : list Field) (cs : list cell) : length fs = length cs → NoDup (Name <$> fs) →
  ∃ r, (if binary then NewBinaryVirtualRow else NewTextVirtualRow) fs cs = Ok r ∧
    IsBinary r = binary ∧ Scan r (length fs) = Ok cs ∧
    ∀ i f, fs !! i = Some f → ∃ c, cs !! i = Some c ∧ Get r (Name f) = Ok c.
Proof.
  intros El Hn. exists (virtualRow binary (mkVirtual fs cs)). split; [|split; [done|split]].
  - destruct binary; unfold NewBinaryVirtualRow, NewTextVirtualRow, newBaseVirtualRow; by rewrite El, Nat.eqb_refl.
  - simpl. unfold virtual_Scan. simpl. by rewrite El, Nat.eqb_refl.
  - intros i f Hi. assert (is_Some (cs !! i)) as [c Hc].
    { apply lookup_lt_is_Some. rewrite <- El. by eapply lookup_lt_Some. }
    exists c. split; [done|]. simpl. unfold virtual_Get, fieldIndex. simpl.
    assert (list_find (λ g, Name g = Name f) fs = Some (i, f)) as ->; [|by simpl; rewrite Hc].
    apply list_find_Some. split; [done|]. split; [done|]. intros j g Hj Hlt E.
    assert (j = i); [|lia]. eapply (NoDup_lookup _ j i (Name f) Hn); rewrite list_lookup_fmap.
    + rewrite Hj. simpl. by rewrite E.
    + by rewrite Hi.
Qed.
