(* ===== verification/Heap.v ===== *)
(** * Priority queues: the Go library's [container/heap]

    A heap in a slice.  The client supplies [Less] on two positions; [Swap] and
    the slice are those of every client here.  Positions are Go's [int]; no
    slice is long enough for the children's positions to overflow.  The theory
    shows that the operations keep the smallest element at the front and lose
    nothing. *)
From S2P Require Import Prelude.

Section Heap.
Context {A : Type} (Less : list A → Z → Z → outcome bool).

Definition at_ (h : list A) (i : Z) : option A := if i <? 0 then None else h !! Z.to_nat i.

Definition Swap (h : list A) (i j : Z) : outcome (list A) :=
  match at_ h i, at_ h j with
  | Some x, Some y => Ok (<[Z.to_nat i := y]> (<[Z.to_nat j := x]> h))
  | _, _ => Panic
  end.

Fixpoint up_loop (fuel : nat) (h : list A) (j : Z) : outcome (list A) :=
  match fuel with
  | O => OutOfFuel
  | S fuel =>
      let i := Z.quot (j - 1) 2 in
      if i =? j then Ok h else
      less ← Less h j i;
      if negb less then Ok h else
      h ← Swap h i j;
      up_loop fuel h i
  end.

Definition up (h : list A) (j : Z) : outcome (list A) := up_loop (S (length h)) h j.

Fixpoint down_loop (fuel : nat) (h : list A) (i n : Z) : outcome (list A * Z) :=
  match fuel with
  | O => OutOfFuel
  | S fuel =>
      let j1 := 2 * i + 1 in
      if (j1 >=? n) || (j1 <? 0) then Ok (h, i) else
      let j2 := j1 + 1 in
      second ← (if j2 <? n then Less h j2 j1 else Ok false);
      let j := if (second : bool) then j2 else j1 in
      less ← Less h j i;
      if negb less then Ok (h, i) else
      h ← Swap h i j;
      down_loop fuel h j n
  end.

(** The slice, and whether the element moved. *)
Definition down (h : list A) (i0 n : Z) : outcome (list A * bool) :=
  r ← down_loop (S (length h)) h i0 n; Ok (fst r, snd r >? i0).

Definition Len (h : list A) : Z := Z.of_nat (length h).

(** [heap.Fix(h, i)]. *)
Definition Fix (h : list A) (i : Z) : outcome (list A) :=
  r ← down h i (Len h);
  if negb (snd r) then up (fst r) i else Ok (fst r).

(** [heap.Init(h)]: from the last parent down to the root. *)
Fixpoint init_loop (n : Z) (ks : list Z) (h : list A) : outcome (list A) :=
  match ks with
  | [] => Ok h
  | i :: ks => r ← down h i n; init_loop n ks (fst r)
  end.

Definition Init (h : list A) : outcome (list A) :=
  init_loop (Len h) (reverse (map Z.of_nat (seq 0 (length h / 2)))) h.

(** [heap.Pop(h)] with the client's [Pop], which takes the last element. *)
Definition Pop (h : list A) : outcome (list A * A) :=
  let n := Len h - 1 in
  h ← Swap h 0 n;
  r ← down h 0 n;
  match last (fst r) with
  | Some x => Ok (take (length (fst r) - 1) (fst r), x)
  | None => Panic
  end.
End Heap.

(** ** Exchanges *)

Lemma at_nat {A} (h : list A) i : at_ h (Z.of_nat i) = h !! i.
Proof. unfold at_. destruct (Z.ltb_spec (Z.of_nat i) 0); [lia|]. by rewrite Nat2Z.id. Qed.

Lemma Swap_nat {A} (h : list A) i j x y :
  h !! i = Some x → h !! j = Some y → Swap h (Z.of_nat i) (Z.of_nat j) = Ok (<[i := y]> (<[j := x]> h)).
Proof. intros Hi Hj. unfold Swap. by rewrite !at_nat, Hi, Hj, !Nat2Z.id. Qed.

Lemma swap_lookup {A} (h : list A) i j x y k :
  h !! i = Some x → h !! j = Some y →
  <[i := y]> (<[j := x]> h) !! k = if decide (k = i) then Some y else if decide (k = j) then Some x else h !! k.
Proof.
  intros Hi Hj. pose proof (lookup_lt_Some _ _ _ Hi). pose proof (lookup_lt_Some _ _ _ Hj).
  destruct (decide (k = i)) as [->|]; [apply list_lookup_insert_eq; by rewrite length_insert|].
  rewrite list_lookup_insert_ne by done. destruct (decide (k = j)) as [->|]; [by apply list_lookup_insert_eq|].
  by rewrite list_lookup_insert_ne.
Qed.

Lemma swap_perm {A} (h : list A) i j x y :
  h !! i = Some x → h !! j = Some y → <[i := y]> (<[j := x]> h) ≡ₚ h.
Proof.
  intros Hi Hj. apply Permutation_inj. split; [by rewrite !length_insert|].
  exists (λ k, if decide (k = i) then j else if decide (k = j) then i else k). split.
  - intros a b. repeat case_decide; lia.
  - intros k. rewrite (swap_lookup h i j x y) by done. by repeat case_decide; subst.
Qed.

(** ** The heap order *)

Definition parent (k : nat) : nat := ((k - 1) / 2)%nat.

Lemma parent_lt k : (0 < k)%nat → (parent k < k)%nat.
Proof. intros. apply Nat.Div0.div_lt_upper_bound. lia. Qed.

Lemma parent_children k i : (0 < k)%nat → parent k = i → k = (2 * i + 1)%nat ∨ k = (2 * i + 2)%nat.
Proof.
  unfold parent. intros Hk <-. pose proof (Nat.div_mod (k - 1) 2 ltac:(lia)).
  pose proof (Nat.mod_upper_bound (k - 1) 2 ltac:(lia)). lia.
Qed.

Lemma parent_left i : parent (2 * i + 1) = i.
Proof. unfold parent. replace (2 * i + 1 - 1)%nat with (i * 2)%nat by lia. by apply Nat.div_mul. Qed.

Lemma parent_right i : parent (2 * i + 2) = i.
Proof.
  unfold parent. replace (2 * i + 2 - 1)%nat with (1 + i * 2)%nat by lia.
  by rewrite Nat.div_add by lia.
Qed.

Lemma quot_parent j : (0 < j)%nat → Z.quot (Z.of_nat j - 1) 2 = Z.of_nat (parent j).
Proof. intros. rewrite Z.quot_div_nonneg by lia. unfold parent. rewrite Nat2Z.inj_div, Nat2Z.inj_sub by lia. done. Qed.

Section HeapTheory.
Context {A : Type} (Less : list A → Z → Z → outcome bool) (P : A → Prop) (leb : A → A → bool).
Hypothesis Less_spec : ∀ h i j x y, Forall P h → at_ h i = Some x → at_ h j = Some y →
  Less h i j = Ok (negb (leb y x)).
Hypothesis leb_total : ∀ x y, P x → P y → leb x y = true ∨ leb y x = true.
Hypothesis leb_trans : ∀ x y z, P x → P y → P z → leb x y = true → leb y z = true → leb x z = true.

Definition ordered_at (h : list A) (k : nat) : Prop :=
  ∀ x y, h !! parent k = Some x → h !! k = Some y → leb x y = true.

(** The first [n] elements are a heap. *)
Definition heap (h : list A) (n : nat) : Prop := ∀ k, (0 < k < n)%nat → ordered_at h k.

Lemma Less_nat h i j x y : Forall P h → h !! i = Some x → h !! j = Some y →
  Less h (Z.of_nat i) (Z.of_nat j) = Ok (negb (leb y x)).
Proof using Less_spec. intros. apply Less_spec; [done|by rewrite at_nat..]. Qed.

Lemma leb_refl x : P x → leb x x = true.
Proof using leb_total. intros Hx. by destruct (leb_total x x Hx Hx). Qed.

Lemma leb_false x y : P x → P y → leb x y = false → leb y x = true.
Proof using leb_total. intros Hx Hy E. destruct (leb_total x y Hx Hy); congruence. Qed.

(** Only [j] may be smaller than its parent, and the parent of [j] is not
    greater than the children of [j]. *)
Definition hole_up (h : list A) (j : nat) : Prop :=
  (∀ k, (0 < k < length h)%nat → k ≠ j → ordered_at h k) ∧
  (∀ k x y, (0 < j)%nat → (0 < k)%nat → parent k = j → h !! parent j = Some x → h !! k = Some y → leb x y = true).

Lemma up_step h j x y :
  Forall P h → (0 < j)%nat → hole_up h j → h !! parent j = Some x → h !! j = Some y → leb x y = false →
  hole_up (<[parent j := y]> (<[j := x]> h)) (parent j).
Proof using leb_total leb_trans.
  intros HP Hj [H1 H2] Hx Hy E. pose proof (parent_lt j Hj) as Hlt.
  assert (∀ k z, h !! k = Some z → P z) as HPz by (intros; by eapply Forall_lookup_1).
  pose proof (leb_false x y (HPz _ _ Hx) (HPz _ _ Hy) E) as Hyx.
  split.
  - intros k [Hk0 Hkl] Hne a b. rewrite !length_insert in Hkl. rewrite !(swap_lookup h (parent j) j x y) by done.
    pose proof (parent_lt k Hk0). destruct (decide (k = parent j)) as [|_]; [done|].
    destruct (decide (k = j)) as [->|Hkj].
    + rewrite decide_True by done. by intros [= <-] [= <-].
    + destruct (decide (parent k = parent j)) as [Ep|_].
      { intros [= <-] Hb. assert (leb x b = true); [|by eapply (leb_trans y x b); eauto].
        apply (H1 k); [lia|done|by rewrite Ep|done]. }
      destruct (decide (parent k = j)) as [Ep|_].
      { intros [= <-] Hb. by apply (H2 k). }
      intros Ha Hb. by apply (H1 k).
  - intros k a b Hp0 Hk0 Ep. pose proof (parent_lt k Hk0). pose proof (parent_lt (parent j) Hp0).
    rewrite !(swap_lookup h (parent j) j x y) by done.
    destruct (decide (parent (parent j) = parent j)) as [|_]; [lia|].
    destruct (decide (parent (parent j) = j)) as [|_]; [lia|].
    destruct (decide (k = parent j)) as [|_]; [lia|]. intros Ha.
    assert (leb a x = true) as Hax.
    { apply (H1 (parent j)); [apply lookup_lt_Some in Hx; lia|lia|done|done]. }
    destruct (decide (k = j)) as [->|Hkj]; [by intros [= <-]|].
    intros Hb. eapply (leb_trans a x b); eauto. apply (H1 k); [apply lookup_lt_Some in Hb; lia|done|by rewrite Ep|done].
Qed.

Lemma up_loop_heap fuel : ∀ h j,
  (j < fuel)%nat → (j < length h)%nat → Forall P h → hole_up h j →
  ∃ h', up_loop Less fuel h (Z.of_nat j) = Ok h' ∧ h' ≡ₚ h ∧ heap h' (length h).
Proof using All.
  induction fuel as [|fuel IH]; intros h j Hf Hj HP Hh; [lia|]. simpl.
  destruct (decide (j = 0%nat)) as [->|Hj0].
  { exists h. split; [done|]. split; [done|]. intros k Hk. apply Hh; lia. }
  rewrite quot_parent by lia. pose proof (parent_lt j ltac:(lia)).
  destruct (Z.eqb_spec (Z.of_nat (parent j)) (Z.of_nat j)); [lia|].
  destruct (lookup_lt_is_Some_2 h j Hj) as [y Hy].
  destruct (lookup_lt_is_Some_2 h (parent j) ltac:(lia)) as [x Hx].
  rewrite (Less_nat h j (parent j) y x) by done. simpl. rewrite negb_involutive.
  destruct (leb x y) eqn:E.
  - exists h. split; [done|]. split; [done|]. intros k Hk. destruct (decide (k = j)) as [->|]; [|by apply Hh].
    intros a b Ha Hb. congruence.
  - rewrite (Swap_nat h (parent j) j x y) by done. simpl.
    destruct (IH (<[parent j := y]> (<[j := x]> h)) (parent j)) as (h' & E' & Hp & Hheap).
    + lia.
    + rewrite !length_insert. lia.
    + by rewrite (swap_perm h (parent j) j x y).
    + apply up_step; [done|lia|done..].
    + exists h'. rewrite !length_insert in Hheap. split; [done|]. split; [|done].
      by rewrite Hp, (swap_perm h (parent j) j x y).
Qed.

(** Only the children of [i] may be smaller than [i], and the parent of [i] is
    not greater than them. *)
Definition hole_down (h : list A) (i n : nat) : Prop :=
  (∀ k, (0 < k < n)%nat → parent k ≠ i → ordered_at h k) ∧
  (∀ k x y, (0 < i)%nat → (0 < k < n)%nat → parent k = i → h !! parent i = Some x → h !! k = Some y → leb x y = true).

(** [j] is a least child of [i]. *)
Definition least_child (h : list A) (i j n : nat) : Prop :=
  (0 < j < n)%nat ∧ parent j = i ∧
  ∀ k x y, (0 < k < n)%nat → parent k = i → h !! j = Some x → h !! k = Some y → leb x y = true.

Lemma down_step h i j n x y :
  Forall P h → hole_down h i n → least_child h i j n → h !! i = Some x → h !! j = Some y → leb x y = false →
  hole_down (<[i := y]> (<[j := x]> h)) j n.
Proof using leb_total leb_trans.
  intros HP [H1 H2] ([Hj0 Hjn] & Hpj & Hmin) Hx Hy E. pose proof (parent_lt j Hj0) as Hlt.
  assert (∀ k z, h !! k = Some z → P z) as HPz by (intros; by eapply Forall_lookup_1).
  pose proof (leb_false x y (HPz _ _ Hx) (HPz _ _ Hy) E) as Hyx.
  split.
  - intros k Hk Hne a b. rewrite !(swap_lookup h i j x y) by done. pose proof (parent_lt k (proj1 Hk)).
    destruct (decide (parent k = j)) as [|_]; [done|].
    destruct (decide (parent k = i)) as [Ep|Hni].
    + intros [= <-]. destruct (decide (k = i)) as [|_]; [lia|]. destruct (decide (k = j)) as [->|]; [by intros [= <-]|].
      intros Hb. by apply (Hmin k).
    + intros Ha. destruct (decide (k = i)) as [->|].
      { intros [= <-]. apply (H2 j); [lia|lia|done|done|done]. }
      destruct (decide (k = j)) as [->|]; [done|]. intros Hb. by apply (H1 k).
  - intros k a b _ Hk Ep. rewrite !(swap_lookup h i j x y) by done. pose proof (parent_lt k (proj1 Hk)).
    rewrite decide_True by done. intros [= <-].
    destruct (decide (k = i)) as [|_]; [lia|]. destruct (decide (k = j)) as [|_]; [lia|].
    intros Hb. apply (H1 k); [done|lia|by rewrite Ep|done].
Qed.

Lemma least_child_left h i n :
  Forall P h → (n ≤ length h)%nat → (2 * i + 1 < n)%nat →
  ∃ j, least_child h i j n ∧
    (second ← (if Z.of_nat (2 * i + 2) <? Z.of_nat n then Less h (Z.of_nat (2 * i + 2)) (Z.of_nat (2 * i + 1)) else Ok false);
     Ok (if (second : bool) then Z.of_nat (2 * i + 2) else Z.of_nat (2 * i + 1))) = Ok (Z.of_nat j).
Proof using All.
  intros HP Hn Hl. destruct (lookup_lt_is_Some_2 h (2 * i + 1) ltac:(lia)) as [x Hx].
  pose proof (Forall_lookup_1 _ _ _ _ HP Hx) as HPx.
  destruct (Z.ltb_spec (Z.of_nat (2 * i + 2)) (Z.of_nat n)) as [Hr|Hr].
  - destruct (lookup_lt_is_Some_2 h (2 * i + 2) ltac:(lia)) as [y Hy]. pose proof (Forall_lookup_1 _ _ _ _ HP Hy) as HPy.
    rewrite (Less_nat h (2 * i + 2) (2 * i + 1) y x) by done. simpl.
    destruct (leb x y) eqn:E; simpl.
    + exists (2 * i + 1)%nat. split; [|done]. split; [lia|]. split; [apply parent_left|].
      intros k a b Hk Hp Ha Hb. assert (a = x) as -> by congruence.
      destruct (parent_children k i (proj1 Hk) Hp) as [-> | ->]; [|congruence].
      assert (b = x) as -> by congruence. by apply leb_refl.
    + exists (2 * i + 2)%nat. split; [|done]. split; [lia|]. split; [apply parent_right|].
      intros k a b Hk Hp Ha Hb. assert (a = y) as -> by congruence.
      destruct (parent_children k i (proj1 Hk) Hp) as [-> | ->].
      * assert (b = x) as -> by congruence. by apply leb_false.
      * assert (b = y) as -> by congruence. by apply leb_refl.
  - exists (2 * i + 1)%nat. split; [|done]. split; [lia|]. split; [apply parent_left|].
    intros k a b Hk Hp Ha Hb. destruct (parent_children k i (proj1 Hk) Hp) as [-> | ->]; [|lia].
    assert (a = x) as -> by congruence. assert (b = x) as -> by congruence. by apply leb_refl.
Qed.

Lemma down_loop_heap fuel : ∀ h i n,
  (n - i < fuel)%nat → (n ≤ length h)%nat → Forall P h → hole_down h i n →
  ∃ h' i', down_loop Less fuel h (Z.of_nat i) (Z.of_nat n) = Ok (h', i') ∧ h' ≡ₚ h ∧ heap h' n ∧
    ∀ k, (n ≤ k)%nat → h' !! k = h !! k.
Proof using All.
  induction fuel as [|fuel IH]; intros h i n Hf Hn HP Hh; [lia|]. cbn [down_loop].
  replace (2 * Z.of_nat i + 1) with (Z.of_nat (2 * i + 1)) by lia.
  replace (Z.of_nat (2 * i + 1) + 1) with (Z.of_nat (2 * i + 2)) by lia.
  rewrite Z.geb_leb. destruct (Z.leb_spec (Z.of_nat n) (Z.of_nat (2 * i + 1))) as [Hle|Hlt]; cbn [orb].
  { exists h, (Z.of_nat i). split; [done|]. split; [done|]. split; [|done]. intros k Hk. apply Hh; [done|].
    intros Hp. destruct (parent_children k i (proj1 Hk) Hp); lia. }
  destruct (Z.ltb_spec (Z.of_nat (2 * i + 1)) 0); [lia|].
  destruct (least_child_left h i n HP Hn ltac:(lia)) as (j & Hj & Ej).
  destruct (if Z.of_nat (2 * i + 2) <? Z.of_nat n then Less h (Z.of_nat (2 * i + 2)) (Z.of_nat (2 * i + 1)) else Ok false)
    as [second| | |]; try discriminate Ej. cbn [mbind outcome_bind] in Ej.
  apply (f_equal (λ o, match o with Ok v => v | _ => 0 end)) in Ej. cbv beta iota in Ej.
  cbn [mbind outcome_bind]. rewrite Ej.
  pose proof Hj as ([Hj0 Hjn] & Hpj & Hmin).
  assert (i < j)%nat as Hij by (destruct (parent_children j i Hj0 Hpj); lia).
  destruct (lookup_lt_is_Some_2 h i ltac:(lia)) as [x Hx]. destruct (lookup_lt_is_Some_2 h j ltac:(lia)) as [y Hy].
  rewrite (Less_nat h j i y x) by done. cbn [mbind outcome_bind]. rewrite negb_involutive.
  destruct (leb x y) eqn:E.
  - exists h, (Z.of_nat i). split; [done|]. split; [done|]. split; [|done]. intros k Hk.
    destruct (decide (parent k = i)) as [Ep|Hni]; [|by apply Hh]. intros a b Ha Hb.
    assert (a = x) as -> by congruence. eapply (leb_trans x y b); [by eapply Forall_lookup_1..|done|by apply (Hmin k)].
  - rewrite (Swap_nat h i j x y) by done. cbn [mbind outcome_bind].
    destruct (IH (<[i := y]> (<[j := x]> h)) j n) as (h' & i' & E' & Hp & Hheap & Hrest).
    + lia.
    + by rewrite !length_insert.
    + by rewrite (swap_perm h i j x y).
    + by apply down_step.
    + exists h', i'. split; [done|]. split; [by rewrite Hp, (swap_perm h i j x y)|]. split; [done|].
      intros k Hk. rewrite Hrest by done. rewrite (swap_lookup h i j x y) by done. by rewrite !decide_False by lia.
Qed.

Lemma heap_root h n m k x :
  Forall P h → heap h n → h !! 0%nat = Some m → (k < n)%nat → h !! k = Some x → leb m x = true.
Proof using leb_total leb_trans.
  intros HP Hh Hm. revert x. induction k as [k IH] using (well_founded_induction lt_wf). intros x Hk Hx.
  destruct (decide (k = 0%nat)) as [->|Hk0].
  { assert (x = m) as -> by congruence. apply leb_refl. by eapply Forall_lookup_1. }
  pose proof (parent_lt k ltac:(lia)) as Hlt.
  destruct (lookup_lt_is_Some_2 h (parent k)) as [y Hy]; [apply lookup_lt_Some in Hx; lia|].
  eapply (leb_trans m y x); [by eapply Forall_lookup_1..|apply (IH (parent k)); [done|lia|done]|].
  by apply (Hh k ltac:(lia)).
Qed.

(** Appending an element and moving it to its place. *)
Lemma Fix_last h x :
  Forall P h → P x → heap h (length h) →
  ∃ h', Fix Less (h ++ [x]) (Len (h ++ [x]) - 1) = Ok h' ∧ h' ≡ₚ x :: h ∧ heap h' (length h').
Proof using All.
  intros HP Hx Hh. assert (Forall P (h ++ [x])) as HP' by (by apply Forall_app; split; [|constructor]).
  assert (Len (h ++ [x]) - 1 = Z.of_nat (length h)) as -> by (unfold Len; rewrite length_app; simpl; lia).
  unfold Fix, down, Len. cbn [down_loop]. rewrite length_app. simpl length.
  destruct (Z.geb_spec (2 * Z.of_nat (length h) + 1) (Z.of_nat (length h + 1))); [|lia]. simpl orb. cbv iota.
  cbn [mbind outcome_bind fst snd]. destruct (Z.gtb_spec (Z.of_nat (length h)) (Z.of_nat (length h))); [lia|].
  cbn [mbind outcome_bind fst snd negb]. unfold up.
  destruct (up_loop_heap (S (length (h ++ [x]))) (h ++ [x]) (length h))
    as (h' & E & Hp & Hh').
  - rewrite length_app. lia.
  - rewrite length_app. simpl. lia.
  - done.
  - split.
    + intros k [Hk0 Hk] Hne a b. rewrite length_app in Hk. simpl in Hk. pose proof (parent_lt k Hk0).
      rewrite !lookup_app_l by lia. apply (Hh k). lia.
    + intros k a b _ Hk Hp _ Hb. apply lookup_lt_Some in Hb. rewrite length_app in Hb. simpl in Hb.
      pose proof (parent_lt k Hk). lia.
  - exists h'. split; [done|]. assert (h' ≡ₚ x :: h) as Hp' by (rewrite Hp; by rewrite Permutation_app_comm).
    split; [done|]. by rewrite (Permutation_length Hp).
Qed.

(** On a heap [up] finds nothing to do. *)
Lemma up_heap_id h : Forall P h → heap h (length h) → up Less h (Len h - 1) = Ok h.
Proof using Less_spec.
  intros HP Hh. unfold up, Len. simpl. destruct (decide (length h ≤ 1)%nat) as [H1|H1].
  { destruct h as [|x [|y h]]; simpl in *; done || lia. }
  replace (Z.of_nat (length h) - 1) with (Z.of_nat (length h - 1)) by lia. rewrite quot_parent by lia.
  pose proof (parent_lt (length h - 1) ltac:(lia)).
  destruct (Z.eqb_spec (Z.of_nat (parent (length h - 1))) (Z.of_nat (length h - 1))); [done|].
  destruct (lookup_lt_is_Some_2 h (length h - 1) ltac:(lia)) as [y Hy].
  destruct (lookup_lt_is_Some_2 h (parent (length h - 1)) ltac:(lia)) as [x Hx].
  rewrite (Less_nat h _ _ y x) by done. simpl. rewrite negb_involutive.
  by rewrite (Hh (length h - 1)%nat ltac:(lia) x y).
Qed.

Lemma last_lookup_length {B} (l : list B) : last l = l !! (length l - 1)%nat.
Proof. rewrite last_lookup. f_equal. lia. Qed.

(** [Pop] returns a least element and keeps the others. *)
Lemma Pop_heap h :
  Forall P h → heap h (length h) → h ≠ [] →
  ∃ h' m, Pop Less h = Ok (h', m) ∧ h ≡ₚ m :: h' ∧ heap h' (length h') ∧ ∀ x, x ∈ h → leb m x = true.
Proof using All.
  intros HP Hh Hne. assert (0 < length h)%nat as Hpos by (destruct h; [done|simpl; lia]).
  destruct (lookup_lt_is_Some_2 h 0 Hpos) as [m Hm]. destruct (lookup_lt_is_Some_2 h (length h - 1) ltac:(lia)) as [z Hz].
  unfold Pop, Len. replace (Z.of_nat (length h) - 1) with (Z.of_nat (length h - 1)) by lia.
  change 0 with (Z.of_nat 0). rewrite (Swap_nat h 0 (length h - 1) m z) by done. cbn [mbind outcome_bind].
  set (h1 := <[0%nat := z]> (<[(length h - 1)%nat := m]> h)).
  assert (h1 ≡ₚ h) as Hp1 by (by apply swap_perm). assert (length h1 = length h) as El1 by (unfold h1; by rewrite !length_insert).
  assert (∀ k, h1 !! k = if decide (k = 0%nat) then Some z else if decide (k = length h - 1)%nat then Some m else h !! k) as Hl1.
  { intros k. by apply swap_lookup. }
  unfold down. destruct (down_loop_heap (S (length h1)) h1 0 (length h - 1))
    as (h2 & i' & E & Hp2 & Hh2 & Hrest).
  - lia.
  - lia.
  - by rewrite Hp1.
  - split; [|lia]. intros k Hk Hp a b. rewrite !Hl1. pose proof (parent_lt k (proj1 Hk)).
    rewrite !decide_False by lia. apply (Hh k). lia.
  - rewrite E. cbn [mbind outcome_bind fst snd]. assert (length h2 = length h) as El2 by (by rewrite Hp2).
    assert (h2 !! (length h - 1)%nat = Some m) as Hlast.
    { rewrite Hrest by lia. rewrite Hl1. case_decide as Hd; [|by rewrite decide_True]. rewrite Hd in Hz. congruence. }
    rewrite last_lookup_length, El2, Hlast. exists (take (length h - 1) h2), m.
    split; [done|]. split.
    + rewrite <- Hp1, <- Hp2, <- (take_drop_middle _ _ _ Hlast) at 1. rewrite drop_ge by lia.
      by rewrite Permutation_app_comm.
    + split.
      * intros k Hk a b. rewrite length_take in Hk. pose proof (parent_lt k (proj1 Hk)).
        rewrite !lookup_take_lt by lia. apply (Hh2 k). lia.
      * intros x [k Hk]%list_elem_of_lookup. apply (heap_root h (length h) m k x); try done. by eapply lookup_lt_Some.
Qed.
End HeapTheory.
