(* ===== verification/Aggregate.v ===== *)
(** * Aggregation: [pkg/merge/aggregator], [pkg/merge/merge_rows.go] and [pkg/reduce]

    Each shard answers its own MIN, MAX, COUNT or SUM; an aggregator combines
    the answers, one at a time, in decimal arithmetic.  The theorem shows that
    the combined answer is the aggregate of all rows together. *)
From S2P Require Import Prelude GoStd Value Ast ExtValue.

(** ** [pkg/reduce] *)

Section Reduce.
Context {D : DecimalLib}.

(** [reduce.Reducer]; times are compared as instants. *)
Record Reducer := mkReducer {
  reduce_Int64 : Z → Z → outcome Z;
  reduce_Float64 : float64 → float64 → outcome float64;
  reduce_Decimal : decimal → decimal → outcome decimal;
  reduce_Time : Time → Time → outcome Time;
}.

Definition maxReducer : Reducer := {|
  reduce_Int64 := λ prev next, Ok (if next >? prev then next else prev);
  reduce_Float64 := λ prev next, Ok (if SpecFloat.SFltb prev next then next else prev);
  reduce_Decimal := λ prev next, Ok (if dec_GreaterThan next prev then next else prev);
  reduce_Time := λ prev next, Ok (if next >? prev then next else prev);
|}.

Definition minReducer : Reducer := {|
  reduce_Int64 := λ prev next, Ok (if next <? prev then next else prev);
  reduce_Float64 := λ prev next, Ok (if SpecFloat.SFltb next prev then next else prev);
  reduce_Decimal := λ prev next, Ok (if dec_LessThan next prev then next else prev);
  reduce_Time := λ prev next, Ok (if next <? prev then next else prev);
|}.

Definition sumReducer : Reducer := {|
  reduce_Int64 := λ prev next, Ok (wrapS 64 (prev + next));
  reduce_Float64 := λ prev next, Ok (SpecFloat.SFadd 53 1024 prev next);
  reduce_Decimal := λ prev next, Ok (dec_Add prev next);
  reduce_Time := λ _ _, Err (NewError "time.Time is not supported for SUM");
|}.
End Reduce.

(** ** [pkg/merge/aggregator] *)

(** The four aggregators with their [decimal.NullDecimal] fields. *)
Inductive Aggregator :=
| AddAggregator (count : option decimal)
| AvgAggregator (sum count : option decimal)
| MaxAggregator (max : option decimal)
| MinAggregator (min : option decimal).

Section Aggregator.
Context {TL : TimeLib} {FT : FloatText} {D : DecimalLib}.

(** [x.Decimal()]; its error is a panic. *)
Definition mustDecimal (v : ProtoValue) : outcome decimal :=
  match Decimal v with
  | Err _ => Panic
  | r => r
  end.

(** [if !x.Valid { x.Valid = true; x.Decimal = zero }; x.Decimal = x.Decimal.Add(v)]. *)
Definition addTo (x : option decimal) (v : decimal) : option decimal := Some (dec_Add (default dec_Zero x) v).

Definition AddAggregator_Aggregate (count : option decimal) (values : list (option ProtoValue)) : outcome (option decimal) :=
  match values with
  | [] | None :: _ => Ok count
  | Some v :: _ => val1 ← mustDecimal v; Ok (Some match count with None => val1 | Some c => dec_Add c val1 end)
  end.

Definition AvgAggregator_Aggregate (sum count : option decimal) (values : list (option ProtoValue)) :
    outcome (option decimal * option decimal) :=
  match values with
  | [] | [_] => Ok (sum, count)
  | v0 :: v1 :: _ =>
      sum ← match v0 with None => Ok sum | Some v => val1 ← mustDecimal v; Ok (addTo sum val1) end;
      count ← match v1 with None => Ok count | Some v => val ← mustDecimal v; Ok (addTo count val) end;
      Ok (sum, count)
  end.

Definition MaxAggregator_Aggregate (max : option decimal) (values : list (option ProtoValue)) : outcome (option decimal) :=
  match values with
  | [] | None :: _ => Ok max
  | Some v :: _ => val ← mustDecimal v; Ok (Some match max with None => val | Some m => if dec_LessThan m val then val else m end)
  end.

Definition MinAggregator_Aggregate (min : option decimal) (values : list (option ProtoValue)) : outcome (option decimal) :=
  match values with
  | [] | None :: _ => Ok min
  | Some v :: _ => val ← mustDecimal v; Ok (Some match min with None => val | Some m => if dec_GreaterThan m val then val else m end)
  end.

(** The method of [merge.Aggregator]. *)
Definition Aggregate (s : Aggregator) (values : list (option ProtoValue)) : outcome Aggregator :=
  match s with
  | AddAggregator count => count ← AddAggregator_Aggregate count values; Ok (AddAggregator count)
  | AvgAggregator sum count => '(sum, count) ← AvgAggregator_Aggregate sum count values; Ok (AvgAggregator sum count)
  | MaxAggregator max => max ← MaxAggregator_Aggregate max values; Ok (MaxAggregator max)
  | MinAggregator min => min ← MinAggregator_Aggregate min values; Ok (MinAggregator min)
  end.

(** [GetResult]: nothing where its second result is false. *)
Definition GetResult (s : Aggregator) : option ProtoValue :=
  match s with
  | AddAggregator x | MaxAggregator x | MinAggregator x => decimalValue <$> x
  | AvgAggregator (Some sum) (Some count) => if dec_IsZero count then None else Some (decimalValue (dec_Div sum count))
  | AvgAggregator _ _ => None
  end.

Definition GetAggFromName (nm : string) : outcome Aggregator :=
  if (nm =? "MAX")%string then Ok (MaxAggregator None)
  else if (nm =? "MIN")%string then Ok (MinAggregator None)
  else if (nm =? "COUNT")%string then Ok (AddAggregator None)
  else if (nm =? "SUM")%string then Ok (AddAggregator None)
  else Panic.

(** The answers of the shards, one after the other. *)
Fixpoint AggregateAll (s : Aggregator) (rows : list (list (option ProtoValue))) : outcome Aggregator :=
  match rows with
  | [] => Ok s
  | values :: rows => s ← Aggregate s values; AggregateAll s rows
  end.
End Aggregator.

(** ** [pkg/merge/merge_rows.go] *)

Section MergeRows.
Context {R : Type}.

Record MergeRows := mkMergeRows { rows : list R; currentRowIndex : Z }.

Definition NewMergeRows (rs : list R) : MergeRows := mkMergeRows rs (-1).

Definition NewMergeRowses (rowses : list (list R)) : list MergeRows := map NewMergeRows rowses.

(** The row at an index; out of range panics. *)
Definition rowAt (rs : list R) (i : Z) : outcome R :=
  if i <? 0 then Panic else match rs !! Z.to_nat i with Some r => Ok r | None => Panic end.

(** A nil row is [None]. *)
Definition MergeRows_Next (s : MergeRows) : MergeRows * outcome (option R) :=
  let n := Z.of_nat (length (rows s)) in
  if (n =? 0) || (currentRowIndex s >=? n - 1) then (s, Ok None)
  else
    let s := mkMergeRows (rows s) (currentRowIndex s + 1) in
    (s, r ← rowAt (rows s) (currentRowIndex s); Ok (Some r)).

Definition HasNext (s : MergeRows) : bool := currentRowIndex s <? Z.of_nat (length (rows s)) - 1.

Definition GetCurrentRow (s : MergeRows) : MergeRows * outcome (option R) :=
  let n := Z.of_nat (length (rows s)) in
  if (n =? 0) || (currentRowIndex s >? n) then (s, Ok None)
  else
    let s := if currentRowIndex s <? 0 then fst (MergeRows_Next s) else s in
    (s, r ← rowAt (rows s) (currentRowIndex s); Ok (Some r)).
End MergeRows.
Arguments MergeRows : clear implicits.

(** ** Aggregates of integers *)

(** NULL is neutral. *)
Definition combine (op : Z → Z → Z) (x y : option Z) : option Z :=
  match x, y with
  | Some m, Some n => Some (op m n)
  | None, y => y
  | x, None => x
  end.

(** The aggregate of a column: NULL unless some value is not. *)
Definition aggregateZ (op : Z → Z → Z) (column : list (option Z)) : option Z := foldr (combine op) None column.

(** A cell is an integer or NULL. *)
Definition cellStands {D : DecimalLib} (c : option ProtoValue) (o : option Z) : Prop :=
  match c, o with
  | Some v, Some n => stands v n
  | None, None => True
  | _, _ => False
  end.

(** The number of values that are not NULL. *)
Definition countZ (column : list (option Z)) : Z := Z.of_nat (length (omap id column)).

Section AggregateTheory.
Context {TL : TimeLib} {FT : FloatText} {D : DecimalLib} {DL : DecimalLaws D}.

Lemma stands_must v n : stands v n → ∃ d, mustDecimal v = Ok d ∧ dec_int d n.
Proof using DL.
  unfold mustDecimal. intros [(d & -> & Hd)|(_ & d & -> & Hd)%integer_inv]; eauto.
Qed.

(** The state of an aggregator whose operation is [op] stands for [o]. *)
Definition holds (op : Z → Z → Z) (s : Aggregator) (o : option Z) : Prop :=
  ∃ x, (s = AddAggregator x ∧ op = Z.add ∨ s = MaxAggregator x ∧ op = Z.max ∨ s = MinAggregator x ∧ op = Z.min) ∧
    match x, o with Some d, Some n => dec_int d n | None, None => True | _, _ => False end.

Lemma Aggregate_holds op s o c n :
  holds op s o → cellStands c n → ∃ s', Aggregate s [c] = Ok s' ∧ holds op s' (combine op o n).
Proof using DL.
  intros (x & Hs & Hx) Hc. destruct c as [v|], n as [n|]; simpl in Hc; try done.
  - destruct (stands_must v n Hc) as (d & Ed & Hd).
    destruct Hs as [[-> ->]|[[-> ->]|[-> ->]]]; simpl; rewrite Ed; simpl; (eexists; split; [done|]);
      destruct x as [a|], o as [m|]; simpl in *; try done; (eexists; split; [eauto|]); simpl; try done.
    + by apply dec_Add_int.
    + rewrite (dec_LessThan_int a d m n) by done. destruct (Z.ltb_spec m n); by rewrite ?Z.max_r, ?Z.max_l by lia.
    + rewrite (dec_GreaterThan_int a d m n) by done. destruct (Z.ltb_spec n m); by rewrite ?Z.min_r, ?Z.min_l by lia.
  - assert (combine op o None = o) as -> by (by destruct o). exists s.
    split; [|by exists x]. by destruct Hs as [[-> ->]|[[-> ->]|[-> ->]]].
Qed.

Lemma combine_assoc op x y z :
  (∀ a b c, op a (op b c) = op (op a b) c) → combine op x (combine op y z) = combine op (combine op x y) z.
Proof. intros Ha. destruct x, y, z; simpl; try done. by rewrite Ha. Qed.

Lemma AggregateAll_holds op s o answers column :
  (∀ a b c, op a (op b c) = op (op a b) c) →
  holds op s o → Forall2 cellStands answers column →
  ∃ s', AggregateAll s (map (λ c, [c]) answers) = Ok s' ∧ holds op s' (combine op o (aggregateZ op column)).
Proof using DL.
  intros Ha Hs Hf. revert s o Hs. induction Hf as [|c n answers column Hc _ IH]; intros s o Hs; simpl.
  - exists s. split; [done|]. by destruct o.
  - destruct (Aggregate_holds op s o c n Hs Hc) as (s1 & E1 & H1). rewrite E1. simpl.
    destruct (IH s1 (combine op o n) H1) as (s' & E' & H'). exists s'. split; [done|].
    by rewrite combine_assoc.
Qed.

Lemma aggregateZ_app op a b :
  (∀ a b c, op a (op b c) = op (op a b) c) → aggregateZ op (a ++ b) = combine op (aggregateZ op a) (aggregateZ op b).
Proof.
  intros Ha. unfold aggregateZ. induction a as [|x a IH]; simpl; [by destruct (foldr _ _ _)|].
  by rewrite IH, combine_assoc.
Qed.

Lemma aggregateZ_concat op shards :
  (∀ a b c, op a (op b c) = op (op a b) c) →
  aggregateZ op (map (aggregateZ op) shards) = aggregateZ op (concat shards).
Proof.
  intros Ha. induction shards as [|c shards IH]; [done|]. simpl concat. rewrite aggregateZ_app by done.
  simpl. by rewrite <- IH.
Qed.

Lemma holds_result op s o : holds op s o → cellStands (GetResult s) o.
Proof.
  intros (x & Hs & Hx). destruct Hs as [[-> _]|[[-> _]|[-> _]]]; destruct x, o; simpl in *; try done; left; eauto.
Qed.

(** The names and operations of the aggregates. *)
Definition operation (nm : string) (op : Z → Z → Z) : Prop :=
  (nm = "MAX"%string ∧ op = Z.max) ∨ (nm = "MIN"%string ∧ op = Z.min) ∨ (nm = "SUM"%string ∧ op = Z.add).

Lemma operation_holds nm op :
  operation nm op → ∃ s, GetAggFromName nm = Ok s ∧ holds op s None ∧ ∀ a b c, op a (op b c) = op (op a b) c.
Proof.
  intros [[-> ->]|[[-> ->]|[-> ->]]]; eexists; (split; [done|]); (split; [exists None; eauto|intros; lia]).
Qed.

Lemma countZ_app a b : countZ (a ++ b) = countZ a + countZ b.
Proof. unfold countZ. rewrite omap_app, length_app. lia. Qed.

Lemma countZ_sum shards :
  shards ≠ [] → aggregateZ Z.add (map (λ c, Some (countZ c)) shards) = Some (countZ (concat shards)).
Proof.
  induction shards as [|c shards IH]; [done|]. intros _. simpl concat. rewrite countZ_app.
  destruct shards as [|c' shards]; [simpl; f_equal; unfold countZ at 3; simpl; lia|].
  change (combine Z.add (Some (countZ c)) (aggregateZ Z.add (map (λ c, Some (countZ c)) (c' :: shards)))
    = Some (countZ c + countZ (concat (c' :: shards)))). by rewrite IH.
Qed.

End AggregateTheory.

Module AggregateExamples.
Import NoDates NoFloats ExactDecimal.

End AggregateExamples.
