(* ===== verification/Dataset.v ===== *)
(** * Datasets: [pkg/dataset]

    A [proto.Dataset] is a stream of rows.  The interface is a class: an
    implementation is a type of states with [Fields], [Next] and [Close], and
    each Go type that wraps other datasets is an instance over any instance.
    [Next] takes a bound on the rows its loops may skip, as some Go loops end
    only because the underlying dataset does.  A generator is its result: it is
    called at most once.  [sync.Once] caches a value that does not change. *)
From S2P Require Import Prelude GoStd Value Ast ExtValue Row Heap Aggregate.

Class Dataset (D : Type) := {
  Fields : D → outcome (list Field);
  Next : nat → D → D * outcome Row;
  Close : D → D * outcome unit;
}.

Definition is_EOF {A} (r : outcome A) : bool :=
  match r with Err e => errors_Is e EOF | _ => false end.

(** [errors.WithStack], [errors.Wrap]. *)
Definition wrap {A} (r : outcome A) : outcome A :=
  match r with Err e => Err (WrapError e) | _ => r end.

(** ** [virtual.go] *)

Record VirtualDataset := mkVirtualDataset { Columns : list Field; Rows : list Row }.

#[global] Instance VirtualDataset_Dataset : Dataset VirtualDataset := {|
  Fields cu := Ok (Columns cu);
  Next _ cu := match Rows cu with
               | [] => (cu, Err EOF)
               | next :: rest => (mkVirtualDataset (Columns cu) rest, Ok next)
               end;
  Close cu := (cu, Ok tt);
|}.

(** ** [filter.go] *)

Section Filter.
Context {D : Type} `{Dataset D} {TL : TimeLib} {FT : FloatText} {DC : DecimalLib}.

Record FilterDataset := mkFilter { filter_ds : D; Predicate : option (Row → outcome bool) }.

(** [n] bounds the rows the predicate rejects. *)
Fixpoint filterNext (n : nat) (fuel : nat) (predicate : Row → outcome bool) (d : D) : D * outcome Row :=
  match n with
  | O => (d, OutOfFuel)
  | S n =>
      match Next fuel d with
      | (d, Ok row) =>
          match predicate row with
          | Ok true => (d, Ok row)
          | Ok false => filterNext n fuel predicate d
          | Err e => (d, Err e)
          | Panic => (d, Panic)
          | OutOfFuel => (d, OutOfFuel)
          end
      | r => r
      end
  end.

#[global] Instance FilterDataset_Dataset : Dataset FilterDataset := {|
  Fields f := Fields (filter_ds f);
  Next fuel f :=
    let r := match Predicate f with
             | None => Next fuel (filter_ds f)
             | Some predicate => filterNext fuel fuel predicate (filter_ds f)
             end in
    (mkFilter (fst r) (Predicate f), snd r);
  Close f := let r := Close (filter_ds f) in (mkFilter (fst r) (Predicate f), snd r);
|}.

Record FilterDatasetPrefix := mkFilterPrefix {
  prefix_ds : D;
  prefix_Predicate : option (Row → outcome bool);
  prefix_Prefix : string;
}.

(** The row's first value starts with the prefix: a NULL is a nil interface. *)
Definition hasPrefix (d : D) (prefix : string) (row : Row) : outcome bool :=
  let fields := match Fields d with Ok fs => fs | _ => [] end in
  values ← Scan row (length fields);
  match values with
  | Some v :: _ => Ok (String.prefix prefix (Value_String v))
  | _ => Panic
  end.

(** Rows with the prefix are skipped before the predicate sees them. *)
#[global] Instance FilterDatasetPrefix_Dataset : Dataset FilterDatasetPrefix := {|
  Fields f := Fields (prefix_ds f);
  Next fuel f :=
    let r := match prefix_Predicate f with
             | None => Next fuel (prefix_ds f)
             | Some predicate =>
                 filterNext fuel fuel
                   (λ row, p ← hasPrefix (prefix_ds f) (prefix_Prefix f) row; if p : bool then Ok false else predicate row)
                   (prefix_ds f)
             end in
    (mkFilterPrefix (fst r) (prefix_Predicate f) (prefix_Prefix f), snd r);
  Close f := let r := Close (prefix_ds f) in (mkFilterPrefix (fst r) (prefix_Predicate f) (prefix_Prefix f), snd r);
|}.

(** ** [transform.go] *)

Record TransformDataset := mkTransform {
  transform_ds : D;
  FieldsGetter : option (list Field → list Field);
  Transform : option (Row → outcome Row);
}.

#[global] Instance TransformDataset_Dataset : Dataset TransformDataset := {|
  Fields td :=
    origin ← Fields (transform_ds td);
    Ok (match FieldsGetter td with None => origin | Some f => f origin end);
  Next fuel td :=
    let r := Next fuel (transform_ds td) in
    (mkTransform (fst r) (FieldsGetter td) (Transform td),
     match Transform td with None => snd r | Some f => row ← snd r; wrap (f row) end);
  Close td := let r := Close (transform_ds td) in (mkTransform (fst r) (FieldsGetter td) (Transform td), snd r);
|}.

(** ** [fuse.go] *)

Record FuseableDataset := mkFuse {
  fuse_fields : list Field;
  current : option D;
  generators : list (outcome D);
}.

(** The current dataset is closed before the next one is generated. *)
Definition nextDataset (fu : FuseableDataset) (cur : D) : FuseableDataset * outcome unit :=
  match Close cur with
  | (cur, Ok _) =>
      match generators fu with
      | [] => (mkFuse (fuse_fields fu) None [], Err EOF)
      | gen :: rest =>
          match gen with
          | Ok d => (mkFuse (fuse_fields fu) (Some d) rest, Ok tt)
          | Err e => (mkFuse (fuse_fields fu) None rest, Err (WrapError e))
          | Panic => (mkFuse (fuse_fields fu) None rest, Panic)
          | OutOfFuel => (mkFuse (fuse_fields fu) None rest, OutOfFuel)
          end
      end
  | (cur, r) => (mkFuse (fuse_fields fu) (Some cur) (generators fu), wrap r)
  end.

(** Each turn of the loop uses up a generator. *)
Fixpoint fuseNext (n : nat) (fuel : nat) (fu : FuseableDataset) : FuseableDataset * outcome Row :=
  match n with
  | O => (fu, OutOfFuel)
  | S n =>
      match current fu with
      | None => (fu, Err EOF)
      | Some cur =>
          let '(cur, r) := Next fuel cur in
          let fu := mkFuse (fuse_fields fu) (Some cur) (generators fu) in
          if is_EOF r then
            match nextDataset fu cur with
            | (fu, Ok _) => fuseNext n fuel fu
            | (fu, Err e) => (fu, Err e)
            | (fu, Panic) => (fu, Panic)
            | (fu, OutOfFuel) => (fu, OutOfFuel)
            end
          else (fu, r)
      end
  end.

#[global] Instance FuseableDataset_Dataset : Dataset FuseableDataset := {|
  Fields fu := Ok (fuse_fields fu);
  Next fuel fu := fuseNext (S (S (length (generators fu)))) fuel fu;
  Close fu := match current fu with
              | None => (fu, Ok tt)
              | Some cur => let r := Close cur in (mkFuse (fuse_fields fu) (Some (fst r)) (generators fu), wrap (snd r))
              end;
|}.

(** [Fuse(first, others...)]. *)
Definition Fuse (first : outcome D) (others : list (outcome D)) : outcome FuseableDataset :=
  cur ← wrap first;
  fs ← wrap (Fields cur);
  Ok (mkFuse fs (Some cur) others).
End Filter.
Arguments FilterDataset : clear implicits.
Arguments FilterDatasetPrefix : clear implicits.
Arguments TransformDataset : clear implicits.
Arguments FuseableDataset : clear implicits.

(** ** [parallel.go] *)

Section Parallel.
Context {D : Type} `{Dataset D}.

Record peekableDataset := mkPeekable { peek_ds : D; peek_next : option Row; peek_err : option error }.

(** [next != nil || err != nil]: what [Peek] left behind. *)
Definition peeked (pe : peekableDataset) : option (outcome Row) :=
  match peek_err pe, peek_next pe with
  | Some e, _ => Some (Err e)
  | None, Some row => Some (Ok row)
  | None, None => None
  end.

Definition peekable_Next (fuel : nat) (pe : peekableDataset) : peekableDataset * outcome Row :=
  match peeked pe with
  | Some r => (mkPeekable (peek_ds pe) None None, r)
  | None => let r := Next fuel (peek_ds pe) in (mkPeekable (fst r) None None, snd r)
  end.

Definition Peek (fuel : nat) (pe : peekableDataset) : peekableDataset * outcome Row :=
  match peeked pe with
  | Some r => (pe, r)
  | None =>
      let r := Next fuel (peek_ds pe) in
      match snd r with
      | Ok row => (mkPeekable (fst r) (Some row) None, Ok row)
      | Err e => (mkPeekable (fst r) None (Some e), Err e)
      | other => (mkPeekable (fst r) None None, other)
      end
  end.

#[global] Instance peekableDataset_Dataset : Dataset peekableDataset := {|
  Fields pe := Fields (peek_ds pe);
  Next := peekable_Next;
  Close pe := let r := Close (peek_ds pe) in (mkPeekable (fst r) (peek_next pe) (peek_err pe), snd r);
|}.

(** [Peekable(origin)]. *)
Definition Peekable (origin : D) : peekableDataset := mkPeekable origin None None.

Record parallelDataset := mkParallel {
  pa_fields : list Field;
  pa_generators : list (option (outcome D));
  pa_streams : list (option peekableDataset);
  pa_seq : Z;
}.

Definition Len_ (pa : parallelDataset) : Z := Z.of_nat (length (pa_streams pa)).

Definition setStream (pa : parallelDataset) (i : nat) (s : peekableDataset) : parallelDataset :=
  mkParallel (pa_fields pa) (pa_generators pa) (<[i := Some s]> (pa_streams pa)) (pa_seq pa).

Definition setSeq (pa : parallelDataset) (seq : Z) : parallelDataset :=
  mkParallel (pa_fields pa) (pa_generators pa) (pa_streams pa) seq.

(** The stream of an index, generated when it is first used. *)
Definition getStream (pa : parallelDataset) (i : nat) : parallelDataset * outcome peekableDataset :=
  match pa_streams pa !! i with
  | None => (pa, Panic)
  | Some (Some s) => (pa, Ok s)
  | Some None =>
      match pa_generators pa !! i with
      | Some (Some (Ok d)) =>
          let s := Peekable d in
          (setStream (mkParallel (pa_fields pa) (<[i := None]> (pa_generators pa)) (pa_streams pa) (pa_seq pa)) i s, Ok s)
      | Some (Some (Err e)) => (pa, Err (WrapError e))
      | Some (Some OutOfFuel) => (pa, OutOfFuel)
      | _ => (pa, Panic)
      end
  end.

Definition PeekN (fuel : nat) (pa : parallelDataset) (index : Z) : parallelDataset * outcome Row :=
  if (index <? 0) || (index >=? Len_ pa) then (pa, Err (NewError "index out of range"))
  else
    let i := Z.to_nat index in
    match getStream pa i with
    | (pa, Ok s) => let r := Peek fuel s in (setStream pa i (fst r), snd r)
    | (pa, Err e) => (pa, Err (WrapError e))
    | (pa, Panic) => (pa, Panic)
    | (pa, OutOfFuel) => (pa, OutOfFuel)
    end.

Definition parallel_Peek (fuel : nat) (pa : parallelDataset) : parallelDataset * outcome Row :=
  PeekN fuel pa (pa_seq pa mod Len_ pa).

Definition SetNextN (pa : parallelDataset) (index : Z) : parallelDataset * outcome unit :=
  if (index <? 0) || (index >=? Len_ pa) then (pa, Err (NewError "index out of range"))
  else (setSeq pa (wrapU 32 index), Ok tt).

(** The streams in turn, from the sequence number on, until one has a row:
    [last] is the result of the turn before. *)
Fixpoint parallelLoop (turns : nat) (fuel : nat) (pa : parallelDataset) (last : outcome Row) : parallelDataset * outcome Row :=
  match turns with
  | O => (pa, last)
  | S turns =>
      let i := Z.to_nat (pa_seq pa mod Len_ pa) in
      let pa := setSeq pa (wrapU 32 (pa_seq pa + 1)) in
      match getStream pa i with
      | (pa, Ok s) =>
          let '(s, r) := peekable_Next fuel s in
          let pa := setStream pa i s in
          if is_EOF r then parallelLoop turns fuel pa (Err EOF) else (pa, wrap r)
      | (pa, Err e) => (pa, Err (WrapError e))
      | (pa, Panic) => (pa, Panic)
      | (pa, OutOfFuel) => (pa, OutOfFuel)
      end
  end.

(** Without streams the nil row and the nil error are returned; no constructor
    makes such a dataset. *)
Definition parallel_Next (fuel : nat) (pa : parallelDataset) : parallelDataset * outcome Row :=
  parallelLoop (length (pa_streams pa)) fuel pa Panic.

(** [Close] closes every stream that was generated; the group of goroutines
    reports one of the errors, here the first. *)
Fixpoint closeAll (streams : list (option peekableDataset)) : list (option peekableDataset) * outcome unit :=
  match streams with
  | [] => ([], Ok tt)
  | None :: rest => let r := closeAll rest in (None :: fst r, snd r)
  | Some s :: rest =>
      let c := Close s in
      let r := closeAll rest in
      (Some (fst c) :: fst r, match snd c with Ok _ => snd r | other => other end)
  end.

#[global] Instance parallelDataset_Dataset : Dataset parallelDataset := {|
  Fields pa := Ok (pa_fields pa);
  Next := parallel_Next;
  Close pa :=
    let r := closeAll (pa_streams pa) in
    (mkParallel (pa_fields pa) (pa_generators pa) (fst r) (pa_seq pa), snd r);
|}.

(** [Parallel(first, others...)]: a nil generator is [None]. *)
Definition Parallel (first : outcome D) (others : list (option (outcome D))) : outcome parallelDataset :=
  cur ← wrap first;
  fs ← wrap (Fields cur);
  if forallb (λ o, match o with Some _ => true | None => false end) others then
    Ok (mkParallel fs (None :: others) (Some (Peekable cur) :: ((λ _, None) <$> others)) 0)
  else Err (NewError "nil dataset detected").

(** [parallelBuilder.Build]. *)
Definition Build (genFuns : list (outcome D)) : outcome parallelDataset :=
  match genFuns with
  | [] => Err (NewError "failed to create parallel datasets")
  | [g] => Parallel g [None]
  | g :: rest => Parallel g (Some <$> rest)
  end.
End Parallel.
Arguments peekableDataset : clear implicits.
Arguments parallelDataset : clear implicits.

(** [FuseableDataset.ToParallel]. *)
Definition ToParallel {D} (fu : FuseableDataset D) : parallelDataset D :=
  mkParallel (fuse_fields fu) (None :: (Some <$> generators fu))
    (((λ d, mkPeekable d None None) <$> current fu) :: ((λ _, None) <$> generators fu)) 0.

(** ** [priority_queue.go] *)

Record RowItem := mkRowItem { item_row : Row; streamIdx : Z }.

Record OrderByItem := mkOrderBy { Column : string; Desc : bool }.

Section PriorityQueue.
Context {TL : TimeLib} {FT : FloatText} {DC : DecimalLib}.

Definition compareTo (a b : cell) (desc : bool) : outcome Z :=
  match a, b with
  | None, None => Ok 0
  | None, Some _ => Ok (-1)
  | Some _, None => Ok 1
  | Some _, Some _ => result ← CompareValue a b; Ok (if desc then - result else result)
  end.

(** A missing key of a Go map is nil. *)
Definition orderValue (m : gmap string cell) (column : string) : cell := default None (m !! column).

Fixpoint compare (a b : gmap string cell) (items : list OrderByItem) : outcome Z :=
  match items with
  | [] => Ok 0
  | item :: items =>
      c ← compareTo (orderValue a (Column item)) (orderValue b (Column item)) (Desc item);
      if c =? 0 then compare a b items else Ok c
  end.

(** [val, _ := row.Get(column)]: an error leaves nil. *)
Definition getOrNil (row : Row) (column : string) : outcome cell :=
  match Get row column with
  | Err _ => Ok None
  | r => r
  end.

Fixpoint orderValues (row1 row2 : Row) (items : list OrderByItem) (m1 m2 : gmap string cell) : outcome (gmap string cell * gmap string cell) :=
  match items with
  | [] => Ok (m1, m2)
  | item :: items =>
      val1 ← getOrNil row1 (Column item);
      val2 ← getOrNil row2 (Column item);
      orderValues row1 row2 items (<[Column item := val1]> m1) (<[Column item := val2]> m2)
  end.

Definition pq_Less (items : list OrderByItem) (rows : list RowItem) (i j : Z) : outcome bool :=
  if (i >=? Len rows) || (j >=? Len rows) then Ok false
  else
    match at_ rows i, at_ rows j with
    | Some row1, Some row2 =>
        m ← orderValues (item_row row1) (item_row row2) items ∅ ∅;
        c ← compare (fst m) (snd m) items;
        Ok (c <? 0)
    | _, _ => Panic
    end.

(** The client's [Push] moves the element to its place already. *)
Definition pq_Push (items : list OrderByItem) (rows : list RowItem) (x : RowItem) : outcome (list RowItem) :=
  let rows := rows ++ [x] in Fix (pq_Less items) rows (Len rows - 1).

(** [heap.Push]. *)
Definition heap_Push (items : list OrderByItem) (rows : list RowItem) (x : RowItem) : outcome (list RowItem) :=
  rows ← pq_Push items rows x; up (pq_Less items) rows (Len rows - 1).

Definition NewPriorityQueue (items : list OrderByItem) (rows : list RowItem) : outcome (list RowItem) :=
  Init (pq_Less items) rows.

(** ** [ordered.go], over the random-access dataset of [parallel.go] *)

Context {D : Type} `{Dataset D}.

Record orderedDataset := mkOrdered {
  or_dataset : parallelDataset D;
  or_queue : list RowItem;
  or_items : list OrderByItem;
  firstRow : bool;
}.

Definition NewOrderedDataset (ds : parallelDataset D) (items : list OrderByItem) : outcome orderedDataset :=
  q ← NewPriorityQueue items []; Ok (mkOrdered ds q items true).

(** The next row of a stream, or of the first one after it that has a row. *)
Definition pull (fuel : nat) (pa : parallelDataset D) (i : Z) : parallelDataset D * outcome Row :=
  parallel_Next fuel (fst (SetNextN pa i)).

(** The first row of every stream: the queue filled so far is kept on errors. *)
Fixpoint fillQueue (fuel : nat) (items : list OrderByItem) (indexes : list Z) (pa : parallelDataset D) (q : list RowItem) : parallelDataset D * list RowItem * outcome unit :=
  match indexes with
  | [] => (pa, q, Ok tt)
  | i :: rest =>
      match pull fuel pa i with
      | (pa, Err EOF) => fillQueue fuel items rest pa q
      | (pa, Ok row) =>
          match pq_Push items q (mkRowItem row i) with
          | Ok q => fillQueue fuel items rest pa q
          | r => (pa, q, _ ← r; Ok tt)
          end
      | (pa, r) => (pa, q, _ ← r; Ok tt)
      end
  end.

(** The least row; its stream's next row takes its place. *)
Definition popRow (fuel : nat) (items : list OrderByItem) (pa : parallelDataset D) (q : list RowItem) : parallelDataset D * list RowItem * outcome Row :=
  if Len q =? 0 then (pa, q, Err EOF) else
  match Pop (pq_Less items) q with
  | Ok (q, item) =>
      let '(pa, r) := pull fuel pa (streamIdx item) in
      if is_EOF r then (pa, q, Ok (item_row item)) else
      match nextRow ← r; heap_Push items q (mkRowItem nextRow (streamIdx item)) with
      | Ok q => (pa, q, Ok (item_row item))
      | failed => (pa, q, _ ← failed; Panic)
      end
  | failed => (pa, q, _ ← failed; Panic)
  end.

Definition ordered_Next (fuel : nat) (or_ : orderedDataset) : orderedDataset * outcome Row :=
  let pa := or_dataset or_ in
  let items := or_items or_ in
  let '(pa, q, r) :=
    if firstRow or_ then fillQueue fuel items (Z.of_nat <$> seq 0 (length (pa_streams pa))) pa (or_queue or_)
    else (pa, or_queue or_, Ok tt) in
  match r with
  | Ok _ => let '(pa, q, r) := popRow fuel items pa q in (mkOrdered pa q items false, r)
  | failed => (mkOrdered pa q items false, _ ← failed; Panic)
  end.

#[global] Instance orderedDataset_Dataset : Dataset orderedDataset := {|
  Fields or_ := Fields (or_dataset or_);
  Next := ordered_Next;
  Close or_ := let r := Close (or_dataset or_) in (mkOrdered (fst r) (or_queue or_) (or_items or_) (firstRow or_), snd r);
|}.
End PriorityQueue.
Arguments orderedDataset : clear implicits.

(** ** [reduce.go] *)

Section ReduceDataset.
Context {D : Type} `{Dataset D} {TL : TimeLib} {FT : FloatText} {DC : DecimalLib}.

Record ReduceDataset := mkReduce {
  reduce_ds : D;
  Reducers : gmap nat Reducer;
  prev : option (list cell);
  binary : bool;
  reduce_eof : bool;
}.

(** One cell: the previous value with the next one folded in. *)
Definition reduceCell (red : Reducer) (p next : cell) : outcome cell :=
  match next, p with
  | None, _ => Ok p
  | _, None => Ok next
  | Some next, Some p =>
      x ← wrap (Decimal p);
      y ← wrap (Decimal next);
      z ← wrap (reduce_Decimal red x y);
      Ok (Some (decimalValue z))
  end.

(** The cells in turn: those before a failure stay updated. *)
Fixpoint reduceCells (reducers : gmap nat Reducer) (i : nat) (ps values : list cell) : list cell * outcome unit :=
  match values with
  | [] => (ps, Ok tt)
  | next :: values =>
      match reducers !! i, ps with
      | None, [] => reduceCells reducers (S i) [] values
      | None, p :: ps => let r := reduceCells reducers (S i) ps values in (p :: fst r, snd r)
      | Some _, [] => (ps, Panic)
      | Some red, p :: rest =>
          match reduceCell red p next with
          | Ok p => let r := reduceCells reducers (S i) rest values in (p :: fst r, snd r)
          | failed => (ps, _ ← failed; Ok tt)
          end
      end
  end.

(** [n] bounds the rows read. *)
Fixpoint reduceNext (n : nat) (fuel : nat) (ad : ReduceDataset) : ReduceDataset * outcome Row :=
  match n with
  | O => (ad, OutOfFuel)
  | S n =>
      if reduce_eof ad then (ad, Err EOF) else
      let '(d, r) := Next fuel (reduce_ds ad) in
      let fields := match Fields d with Ok fs => fs | _ => [] end in
      if is_EOF r then
        match prev ad with
        | None => (mkReduce d (Reducers ad) None (binary ad) false, Err EOF)
        | Some ps =>
            (mkReduce d (Reducers ad) (Some ps) (binary ad) true,
             (if binary ad then NewBinaryVirtualRow else NewTextVirtualRow) fields ps)
        end
      else
        let ad := mkReduce d (Reducers ad) (prev ad) (binary ad) false in
        match row ← wrap r; values ← wrap (Scan row (length fields)); Ok (row, values) with
        | Ok (row, values) =>
            match prev ad with
            | None => reduceNext n fuel (mkReduce d (Reducers ad) (Some values) (IsBinary row) false)
            | Some ps =>
                let '(ps, r) := reduceCells (Reducers ad) 0 ps values in
                let ad := mkReduce d (Reducers ad) (Some ps) (binary ad) false in
                match r with
                | Ok _ => reduceNext n fuel ad
                | failed => (ad, _ ← failed; Panic)
                end
            end
        | failed => (ad, _ ← failed; Panic)
        end
  end.

#[global] Instance ReduceDataset_Dataset : Dataset ReduceDataset := {|
  Fields ad := Fields (reduce_ds ad);
  Next fuel ad := reduceNext fuel fuel ad;
  Close ad :=
    let r := Close (reduce_ds ad) in
    (mkReduce (fst r) (Reducers ad) (prev ad) (binary ad) (reduce_eof ad), snd r);
|}.

(** ** [group_reduce.go] *)

(** [dataset.Reducer]: a state with [Reduce] and [Row].  A nil row from [Row] is
    a panic of the caller, which reads it. *)
Record RowReducer (St : Type) := mkRowReducer {
  fresh : St;
  Reduce : St → Row → outcome St;
  Result : St → outcome Row;
}.
Arguments fresh {St}.
Arguments Reduce {St}.
Arguments Result {St}.

(** [AggregateReducer] with its aggregators by column and its current row. *)
Record AggregateReducer := mkAggregateReducer {
  AggItems : gmap nat Aggregator;
  currentRow : option Row;
}.

(** Every aggregator takes its column's value. *)
Definition aggregateItems (items : gmap nat Aggregator) (values : list cell) : outcome (gmap nat Aggregator) :=
  l ← mapM (λ e : nat * Aggregator,
    match values !! fst e with
    | Some v => a ← Aggregate (snd e) [v]; Ok (fst e, a)
    | None => Panic
    end) (map_to_list items);
  Ok (list_to_map l).

(** The cells of the result row: aggregated columns have their result so far. *)
Definition aggregateResult (items : gmap nat Aggregator) (i : nat) (v : cell) : outcome cell :=
  match items !! i with
  | None => Ok v
  | Some a => match GetResult a with
              | Some r => Ok (Some r)
              | None => Err (NewError "can not aggregate value")
              end
  end.

(** [fs] are the reducer's fields and [n] the number of them to keep. *)
Definition AggregateReducer_Reduce (fs : list Field) (n : nat) (gr : AggregateReducer) (next : Row) : outcome AggregateReducer :=
  values ← Scan next (length fs);
  items ← aggregateItems (AggItems gr) values;
  result ← mapM (λ e, aggregateResult items (fst e) (snd e)) (imap pair values);
  if (length fs <? n)%nat then Panic else
  row ← (if IsBinary next then NewBinaryVirtualRow else NewTextVirtualRow) (take n fs) (take n result);
  Ok (mkAggregateReducer items (Some row)).

(** [NewGroupReducer]. *)
Definition NewGroupReducer (aggs : gmap nat Aggregator) (fs : list Field) (n : nat) : RowReducer AggregateReducer := {|
  fresh := mkAggregateReducer aggs None;
  Reduce := AggregateReducer_Reduce fs n;
  Result gr := match currentRow gr with Some r => Ok r | None => Panic end;
|}.

(** [reflect.DeepEqual] on two cells: the dynamic types and contents agree;
    floats compare with [==]. *)
Fixpoint deepEqual (a b : ProtoValue) : bool :=
  match a, b with
  | float64Value x, float64Value y => SpecFloat.SFeqb x y
  | typedValue v f, typedValue w g => deepEqual v w && bool_decide (f = g)
  | _, _ => bool_decide (a = b)
  end.

Definition cellEqual (a b : cell) : bool :=
  match a, b with
  | None, None => true
  | Some a, Some b => deepEqual a b
  | _, _ => false
  end.

Record GroupDataset (St : Type) := mkGroup {
  group_ds : D;
  keys : list OrderByItem;
  fieldFunc : option (list Field → list Field);
  reducer : RowReducer St;
  buf : option Row;
  group_eof : bool;
}.
Arguments mkGroup {St}.
Arguments group_ds {St}.
Arguments keys {St}.
Arguments fieldFunc {St}.
Arguments reducer {St}.
Arguments buf {St}.
Arguments group_eof {St}.

Context {St : Type}.

Definition getKeyIndexes (gd : GroupDataset St) : outcome (list nat) :=
  fs ← Fields (group_ds gd);
  mapM (λ key, match fieldIndex fs (Column key) with
               | Some i => Ok i
               | None => Err (NewError "cannot find group field")
               end) (keys gd).

(** The cell at an index of both rows. *)
Fixpoint sameCells (indexes : list nat) (a b : list cell) : outcome bool :=
  match indexes with
  | [] => Ok true
  | i :: indexes =>
      match a !! i, b !! i with
      | Some x, Some y => if cellEqual x y then sameCells indexes a b else Ok false
      | _, _ => Panic
      end
  end.

Definition isSameGroup (gd : GroupDataset St) (indexes : list nat) (p next : Row) : outcome bool :=
  let n := length match Fields (group_ds gd) with Ok fs => fs | _ => [] end in
  dest0 ← wrap (Scan p n);
  dest1 ← wrap (Scan next n);
  sameCells indexes dest0 dest1.

Definition setBuf (gd : GroupDataset St) (d : D) (b : option Row) (eof : bool) : GroupDataset St :=
  mkGroup d (keys gd) (fieldFunc gd) (reducer gd) b eof.

(** The goroutine that reads a group: the rows it sends, in order, and the
    error it sends after them, if any. *)
Fixpoint consumeUntilDifferent (n : nat) (fuel : nat) (indexes : list nat) (gd : GroupDataset St) (sent : list Row) : GroupDataset St * list Row * outcome unit :=
  match n with
  | O => (gd, sent, OutOfFuel)
  | S n =>
      let '(d, r) := Next fuel (group_ds gd) in
      if is_EOF r then
        (setBuf gd d None true, sent ++ match buf gd with Some b => [b] | None => [] end, Ok tt)
      else
        match r with
        | Ok next =>
            match buf gd with
            | None => consumeUntilDifferent n fuel indexes (setBuf gd d (Some next) false) sent
            | Some p =>
                let gd := setBuf gd d (Some next) false in
                match isSameGroup gd indexes p next with
                | Ok true => consumeUntilDifferent n fuel indexes gd (sent ++ [p])
                | Ok false => (gd, sent ++ [p], Ok tt)
                | failed => (gd, sent, _ ← failed; Ok tt)
                end
            end
        | failed => (setBuf gd d (buf gd) false, sent, _ ← failed; Ok tt)
        end
  end.

Fixpoint reduceRows (red : RowReducer St) (s : St) (rows : list Row) : outcome St :=
  match rows with
  | [] => Ok s
  | row :: rows => s ← Reduce red s row; reduceRows red s rows
  end.

(** The goroutine closes the channel of rows after it has sent an error on the
    other one, and the receiver's [select] may take either: [closedFirst] is
    its choice.  A row that cannot be reduced ends the call. *)
Definition group_Next (closedFirst : bool) (fuel : nat) (gd : GroupDataset St) : GroupDataset St * outcome Row :=
  if group_eof gd then (gd, Err EOF) else
  match wrap (getKeyIndexes gd) with
  | Ok indexes =>
      let '(gd, sent, r) := consumeUntilDifferent fuel fuel indexes gd [] in
      (gd, match r with
           | Ok _ => s ← reduceRows (reducer gd) (fresh (reducer gd)) sent; Result (reducer gd) s
           | Err e =>
               if closedFirst then s ← reduceRows (reducer gd) (fresh (reducer gd)) sent; Result (reducer gd) s
               else Err e
           | Panic => Panic
           | OutOfFuel => OutOfFuel
           end)
  | failed => (gd, _ ← failed; Panic)
  end.

#[global] Instance GroupDataset_Dataset : Dataset (GroupDataset St) := {|
  Fields gd :=
    fs ← Fields (group_ds gd);
    Ok (match fieldFunc gd with None => fs | Some f => f fs end);
  Next := group_Next false;
  Close gd := let r := Close (group_ds gd) in (setBuf gd (fst r) (buf gd) (group_eof gd), snd r);
|}.
End ReduceDataset.
Arguments ReduceDataset : clear implicits.
Arguments GroupDataset : clear implicits.
Arguments mkGroup {D St}.
Arguments group_ds {D St}.
Arguments keys {D St}.
Arguments fieldFunc {D St}.
Arguments reducer {D St}.
Arguments buf {D St}.
Arguments group_eof {D St}.
Arguments fresh {St}.
Arguments Reduce {St}.
Arguments Result {St}.
Arguments reduceRows {St}.
