(* ===== verification/DatasetTheory.v ===== *)
(** * What the datasets yield

    [yields d rows]: with a large enough bound, [d] returns exactly [rows] and
    then the end, again and again.  The theorems say what each combinator
    yields, given what the datasets under it yield. *)
From S2P Require Import Prelude GoStd Value Ast ExtValue Row Heap Aggregate Dataset.

(** ** Streams *)

Section Yields.
Context {D : Type} `{Dataset D}.

(** From [d] on there is only the end of the stream. *)
Definition ended (n : nat) (d : D) : Prop :=
  ∃ I : D → Prop, I d ∧ ∀ x, I x → ∃ x' e, Next n x = (x', Err e) ∧ errors_Is e EOF = true ∧ I x'.

Inductive yieldsN (n : nat) : D → list Row → Prop :=
| yields_end d : ended n d → yieldsN n d []
| yields_row d d' r rs : Next n d = (d', Ok r) → yieldsN n d' rs → yieldsN n d (r :: rs).

Definition yields (d : D) (rs : list Row) : Prop := ∃ N, ∀ n, (N ≤ n)%nat → yieldsN n d rs.

Lemma ended_next n d : ended n d → ∃ d' e, Next n d = (d', Err e) ∧ errors_Is e EOF = true ∧ ended n d'.
Proof.
  intros (I & Hd & HI). destruct (HI d Hd) as (d' & e & E & He & Hd'). exists d', e.
  split; [done|]. split; [done|]. by exists I.
Qed.
End Yields.

Lemma is_EOF_Err {A} (e : error) : errors_Is e EOF = true → is_EOF (Err e : outcome A) = true.
Proof. done. Qed.

(** An instance whose ends come from the ends of another one. *)
Lemma ended_map {D E} `{Dataset D, Dataset E} n m (f : D → E) d :
  (∀ x x' e, Next n x = (x', Err e) → errors_Is e EOF = true →
     ∃ e', Next m (f x) = (f x', Err e') ∧ errors_Is e' EOF = true) →
  ended n d → ended m (f d).
Proof.
  intros Hf (I & Hd & HI). exists (λ y, ∃ x, y = f x ∧ I x). split; [eauto|].
  intros y (x & -> & Hx). destruct (HI x Hx) as (x' & e & E1 & He & Hx').
  destruct (Hf x x' e E1 He) as (e' & E2 & He'). exists (f x'), e'. eauto.
Qed.

(** ** Virtual datasets *)

Lemma virtual_yields columns rs : yields (mkVirtualDataset columns rs) rs.
Proof.
  exists 0%nat. intros n _. induction rs as [|r rs IH].
  - apply yields_end. exists (λ x, x = mkVirtualDataset columns []). split; [done|]. intros x ->. by repeat eexists.
  - by eapply yields_row.
Qed.

(** ** Filtering and mapping *)

Section Combinators.
Context {D : Type} `{Dataset D}.

Lemma filterNext_end n fuel p d d' e :
  Next fuel d = (d', Err e) → filterNext (S n) fuel p d = (d', Err e).
Proof. simpl. by intros ->. Qed.

Lemma filterNext_yields fuel (predicate : Row → outcome bool) (p : Row → bool) d rs :
  yieldsN fuel d rs → (∀ r, r ∈ rs → predicate r = Ok (p r)) →
  ∀ n, (length rs < n)%nat →
  match List.filter p rs with
  | [] => ∃ d' e, filterNext n fuel predicate d = (d', Err e) ∧ errors_Is e EOF = true ∧ ended fuel d'
  | r :: out => ∃ d' rest, filterNext n fuel predicate d = (d', Ok r) ∧ yieldsN fuel d' rest ∧ List.filter p rest = out ∧
      (length rest < length rs)%nat ∧ ∀ x, x ∈ rest → x ∈ rs
  end.
Proof.
  intros Hy Hp. induction Hy as [d Hd|d d' r rs E Hy IH]; intros [|n] Hn; try (simpl in Hn; lia).
  - destruct (ended_next fuel d Hd) as (d' & e & E & He & Hd'). simpl. rewrite E. eauto.
  - cbn [filterNext]. rewrite E, (Hp r) by left. cbn [List.filter]. destruct (p r).
    + exists d', rs. split; [done|]. split; [done|]. split; [done|]. split; [simpl; lia|]. intros. by right.
    + specialize (IH ltac:(intros; apply Hp; by right) n ltac:(simpl in Hn; lia)).
      destruct (List.filter p rs); [done|]. destruct IH as (d'' & rest & E' & Hy' & Hr & Hl & Hin).
      exists d'', rest. split; [done|]. split; [done|]. split; [done|]. split; [simpl; lia|]. intros. right. by apply Hin.
Qed.

Lemma filter_ended fuel predicate d :
  (0 < fuel)%nat → ended fuel d → ended fuel (mkFilter d (Some predicate)).
Proof.
  intros Hf. apply (ended_map fuel fuel (λ d, mkFilter d (Some predicate))). intros x x' e E He. exists e.
  split; [|done]. simpl. destruct fuel as [|k]; [lia|]. by rewrite (filterNext_end k _ _ _ _ _ E).
Qed.

Lemma filter_yieldsN fuel predicate (p : Row → bool) k : ∀ rs d,
  (length rs ≤ k)%nat → (k < fuel)%nat → yieldsN fuel d rs → (∀ r, r ∈ rs → predicate r = Ok (p r)) →
  yieldsN fuel (mkFilter d (Some predicate)) (List.filter p rs).
Proof.
  induction k as [|k IH]; intros rs d Hk Hf Hy Hp.
  { destruct rs; [|simpl in Hk; lia]. inversion Hy; subst. apply yields_end, filter_ended; [lia|done]. }
  pose proof (filterNext_yields fuel predicate p d rs Hy Hp fuel ltac:(lia)) as Hstep.
  destruct (List.filter p rs) as [|r out].
  - destruct Hstep as (d' & e & E & He & Hd'). apply yields_end.
    destruct (filter_ended fuel predicate d' ltac:(lia) Hd') as (I & HI1 & HI2).
    exists (λ y, y = mkFilter d (Some predicate) ∨ I y). split; [by left|]. intros y [-> |Hy'].
    + exists (mkFilter d' (Some predicate)), e. simpl. rewrite E. eauto.
    + destruct (HI2 y Hy') as (y' & e' & E' & He' & Hy''). eauto 6.
  - destruct Hstep as (d' & rest & E & Hy' & <- & Hl & Hin). eapply yields_row; [simpl; by rewrite E|].
    apply IH; [lia|lia|done|]. intros x Hx. by apply Hp, Hin.
Qed.

(** A filter yields the rows its predicate accepts. *)
Lemma filter_yields predicate (p : Row → bool) d rs :
  yields d rs → (∀ r, r ∈ rs → predicate r = Ok (p r)) → yields (mkFilter d (Some predicate)) (List.filter p rs).
Proof.
  intros [N HN] Hp. exists (N + S (length rs))%nat. intros n Hn.
  apply (filter_yieldsN n predicate p (length rs)); [lia|lia|apply HN; lia|done].
Qed.

(** A transformation yields the images. *)
Lemma transform_yields g f d rs rs' :
  yields d rs → Forall2 (λ r r', f r = Ok r') rs rs' → yields (mkTransform d g (Some f)) rs'.
Proof.
  intros [N HN] Hf. exists N. intros n Hn. specialize (HN n Hn). clear Hn. revert rs' Hf.
  induction HN as [d Hd|d d' r rs E _ IH]; intros rs' Hf.
  - apply Forall2_nil_inv_l in Hf as ->. apply yields_end. revert Hd. apply (ended_map n n (λ d, mkTransform d g (Some f))).
    intros x x' e E He. exists e. split; [|done]. simpl. by rewrite E.
  - apply Forall2_cons_inv_l in Hf as (r' & rs0 & Hr & Hf & ->). eapply yields_row; [|by apply IH].
    simpl. rewrite E. simpl. by rewrite Hr.
Qed.
End Combinators.

Lemma yieldsN_next_eq {D} `{Dataset D} n (a b : D) rs : Next n a = Next n b → yieldsN n b rs → yieldsN n a rs.
Proof.
  intros E Hy. destruct Hy as [b Hb|b d' r rs E' Hy].
  - apply yields_end. destruct (ended_next n b Hb) as (b' & e & E' & He & I & HI1 & HI2).
    exists (λ y, y = a ∨ I y). split; [by left|]. intros y [-> |Hy].
    + exists b', e. rewrite E. eauto.
    + destruct (HI2 y Hy) as (y' & e' & ? & ? & ?). eauto 6.
  - eapply yields_row; [|done]. by rewrite E.
Qed.

Section Fuse.
Context {D : Type} `{Dataset D}.
Hypothesis closable : ∀ d : D, ∃ d', Close d = (d', Ok tt).

Lemma fuse_ended n fs : ended n (mkFuse (D := D) fs None []).
Proof. exists (λ x, x = mkFuse fs None []). split; [done|]. intros x ->. by repeat eexists. Qed.

Lemma fuse_switch n fs d d1 gens :
  ended n d → Next n (mkFuse fs (Some d) (Ok d1 :: gens)) = Next n (mkFuse fs (Some d1) gens).
Proof using closable.
  intros Hd. destruct (ended_next n d Hd) as (d' & e & E & He & _). destruct (closable d') as [d'' Ec].
  cbn [Next FuseableDataset_Dataset generators length].
  remember (S (S (length gens))) as k eqn:Hk. cbn [fuseNext current fuse_fields generators].
  rewrite E. cbv beta iota. rewrite (is_EOF_Err e He). unfold nextDataset. rewrite Ec. done.
Qed.

Lemma fuse_last n fs d : ended n d → yieldsN n (mkFuse fs (Some d) []) [].
Proof using closable.
  intros Hd. apply (yieldsN_next_eq n _ (mkFuse fs None [])); [|by apply yields_end, fuse_ended].
  destruct (ended_next n d Hd) as (d' & e & E & He & _). destruct (closable d') as [d'' Ec].
  simpl. rewrite E. rewrite (is_EOF_Err e He). unfold nextDataset. rewrite Ec. done.
Qed.

Lemma fuse_rows n fs d rs gens tail :
  yieldsN n d rs → (∀ d', ended n d' → yieldsN n (mkFuse fs (Some d') gens) tail) →
  yieldsN n (mkFuse fs (Some d) gens) (rs ++ tail).
Proof.
  intros Hy Htail. induction Hy as [d Hd|d d' r rs E Hy IH]; simpl; [by apply Htail|].
  eapply yields_row; [|exact IH]. simpl. by rewrite E.
Qed.

(** Fused datasets yield their rows one after the other. *)
Lemma fuse_yields fs d rs gens rss :
  yields d rs → Forall2 (λ g rs, ∃ d, g = Ok d ∧ yields d rs) gens rss →
  yields (mkFuse fs (Some d) gens) (rs ++ concat rss).
Proof using closable.
  intros Hd Hg. revert d rs Hd. induction Hg as [|g rs1 gens rss (d1 & -> & H1) _ IH]; intros d rs [N HN].
  - exists N. intros n Hn. apply fuse_rows; [by apply HN|]. intros d' Hd'. by apply fuse_last.
  - destruct (IH d1 rs1 H1) as [N1 HN1]. exists (N + N1)%nat. intros n Hn. apply fuse_rows; [apply HN; lia|].
    intros d' Hd'. apply (yieldsN_next_eq n _ (mkFuse fs (Some d1) gens)); [by apply fuse_switch|apply HN1; lia].
Qed.
End Fuse.

(** ** Random access *)

Section ParallelTheory.
Context {D : Type} `{Dataset D} (n : nat).

(** The streams, generated or not, still have the rows [rss]. *)
Definition streams_yield (pa : parallelDataset D) (rss : list (list Row)) : Prop :=
  length (pa_streams pa) = length rss ∧
  ∀ i rs, rss !! i = Some rs → ∃ d, yieldsN n d rs ∧
    (pa_streams pa !! i = Some (Some (Peekable d)) ∨
     pa_streams pa !! i = Some None ∧ pa_generators pa !! i = Some (Some (Ok d))).

Lemma setStream_yield pa rss i d rs :
  streams_yield pa rss → (i < length rss)%nat → yieldsN n d rs →
  streams_yield (setStream pa i (Peekable d)) (<[i := rs]> rss).
Proof.
  intros [El Hs] Hi Hd. split; [simpl; by rewrite !length_insert|]. intros j rs' Hj. simpl.
  destruct (decide (i = j)) as [->|Hne].
  - rewrite list_lookup_insert_eq in Hj by done. injection Hj as <-. exists d. split; [done|]. left.
    apply list_lookup_insert_eq. lia.
  - rewrite list_lookup_insert_ne in Hj by done. rewrite list_lookup_insert_ne by done. by apply Hs.
Qed.

Lemma setSeq_yield pa rss s : streams_yield pa rss → streams_yield (setSeq pa s) rss.
Proof. done. Qed.

Lemma getStream_yield pa rss i rs :
  streams_yield pa rss → rss !! i = Some rs →
  ∃ pa' d, getStream pa i = (pa', Ok (Peekable d)) ∧ yieldsN n d rs ∧ streams_yield pa' rss ∧ pa_seq pa' = pa_seq pa.
Proof.
  intros Hs Hi. pose proof Hs as [El Hs']. destruct (Hs' i rs Hi) as (d & Hd & Hstate). unfold getStream.
  destruct Hstate as [->|[-> ->]]; [by exists pa, d|].
  exists (setStream (mkParallel (pa_fields pa) (<[i := None]> (pa_generators pa)) (pa_streams pa) (pa_seq pa)) i (Peekable d)), d.
  split; [done|]. split; [done|]. split; [|done]. pose proof (lookup_lt_Some _ _ _ Hi) as Hlt.
  split; [simpl; by rewrite length_insert|]. intros j rs' Hj. simpl. destruct (decide (i = j)) as [->|Hne].
  - exists d. split; [by congruence|]. left. apply list_lookup_insert_eq. lia.
  - rewrite !list_lookup_insert_ne by done. by apply Hs'.
Qed.

(** The stream the next row is taken from: the first from [s] on, in turn,
    that has a row. *)
Fixpoint pick (turns s : nat) (rss : list (list Row)) : option nat :=
  match turns with
  | O => None
  | S turns =>
      let i := (s mod length rss)%nat in
      match rss !! i with
      | Some (_ :: _) => Some i
      | _ => pick turns (S s) rss
      end
  end.

Lemma parallelLoop_pick turns : ∀ s pa rss last,
  streams_yield pa rss → pa_seq pa = Z.of_nat s → Z.of_nat (s + turns) < 2 ^ 32 → rss ≠ [] →
  match pick turns s rss with
  | None => ∃ pa', parallelLoop turns n pa last = (pa', if (turns =? 0)%nat then last else Err EOF) ∧ streams_yield pa' rss
  | Some k => ∃ r rs pa', rss !! k = Some (r :: rs) ∧ parallelLoop turns n pa last = (pa', Ok r) ∧
      streams_yield pa' (<[k := rs]> rss)
  end.
Proof.
  induction turns as [|turns IH]; intros s pa rss last Hs Hseq Hb Hne; cbn [pick parallelLoop].
  { by exists pa. }
  assert (0 < length rss)%nat as HL by (destruct rss; [done|simpl; lia]).
  assert (Len_ pa = Z.of_nat (length rss)) as EL by (unfold Len_; f_equal; apply Hs).
  rewrite EL, Hseq, <- Nat2Z.inj_mod, Nat2Z.id. set (i := (s mod length rss)%nat).
  assert (i < length rss)%nat as Hi by (apply Nat.mod_upper_bound; lia).
  destruct (lookup_lt_is_Some_2 rss i Hi) as [rs Hrs]. rewrite Hrs.
  replace (wrapU 32 (Z.of_nat s + 1)) with (Z.of_nat (S s)) by (rewrite wrapU_id; unfold inU; lia).
  destruct (getStream_yield (setSeq pa (Z.of_nat (S s))) rss i rs (setSeq_yield pa rss _ Hs) Hrs)
    as (pa1 & d & E1 & Hd & Hs1 & Hq1). rewrite E1.
  change (peekable_Next n (Peekable d)) with (let r := Next n d in (Peekable (fst r), snd r)).
  inversion Hd as [d0 Hend|d0 d' r rs' E Hd']; subst.
  - destruct (ended_next n d Hend) as (d' & e & E & He & Hend'). rewrite E. cbn [fst snd]. rewrite (is_EOF_Err e He).
    assert (streams_yield (setStream pa1 i (Peekable d')) rss) as Hs2.
    { rewrite <- (list_insert_id rss i []) by done. apply setStream_yield; [done|done|by apply yields_end]. }
    specialize (IH (S s) (setStream pa1 i (Peekable d')) rss (Err EOF) Hs2 Hq1 ltac:(lia) Hne).
    destruct (pick turns (S s) rss); [done|]. destruct IH as (pa' & E' & Hs'). exists pa'.
    split; [|done]. rewrite E'. by destruct turns.
  - rewrite E. cbn [fst snd is_EOF]. exists r, rs', (setStream pa1 i (Peekable d')).
    split; [done|]. split; [done|]. by apply setStream_yield.
Qed.

Lemma pull_pick pa rss t :
  streams_yield pa rss → (t < length rss)%nat → Z.of_nat (length rss) < 2 ^ 31 →
  match pick (length rss) t rss with
  | None => ∃ pa', pull n pa (Z.of_nat t) = (pa', Err EOF) ∧ streams_yield pa' rss
  | Some k => ∃ r rs pa', rss !! k = Some (r :: rs) ∧ pull n pa (Z.of_nat t) = (pa', Ok r) ∧
      streams_yield pa' (<[k := rs]> rss)
  end.
Proof.
  intros Hs Ht HL. unfold pull, SetNextN, parallel_Next.
  assert (Len_ pa = Z.of_nat (length rss)) as EL by (unfold Len_; f_equal; apply Hs). rewrite EL.
  destruct (Z.ltb_spec (Z.of_nat t) 0); [lia|]. destruct (Z.geb_spec (Z.of_nat t) (Z.of_nat (length rss))); [lia|].
  cbn [orb fst]. rewrite wrapU_id by (unfold inU; lia). cbn [pa_streams setSeq].
  assert (length (pa_streams pa) = length rss) as -> by apply Hs.
  assert (rss ≠ []) as Hne by (intros ->; simpl in Ht; lia).
  pose proof (parallelLoop_pick (length rss) t (setSeq pa (Z.of_nat t)) rss Panic Hs eq_refl ltac:(lia) Hne) as Hp.
  destruct (pick (length rss) t rss); [done|]. destruct Hp as (pa' & E & Hs'). exists pa'. split; [|done].
  rewrite E. destruct (length rss); [simpl in Ht; lia|done].
Qed.

Lemma pick_here t rss r rs : rss !! t = Some (r :: rs) → pick (length rss) t rss = Some t.
Proof.
  intros Ht. pose proof (lookup_lt_Some _ _ _ Ht). destruct (length rss) as [|k] eqn:El; [lia|].
  cbn [pick]. rewrite El, Nat.mod_small by done. by rewrite Ht.
Qed.

(** A stream stays picked while it has rows. *)
Lemma pick_stable turns : ∀ s k rss rss',
  length rss' = length rss → (∀ j, rss !! j = Some [] → rss' !! j = Some []) →
  pick turns s rss = Some k → (∃ r rs, rss' !! k = Some (r :: rs)) → pick turns s rss' = Some k.
Proof.
  induction turns as [|turns IH]; intros s k rss rss' El Hempty E (r & rs & Hk); [done|]. cbn [pick] in *. rewrite El.
  destruct (rss !! (s mod length rss)%nat) as [[|x xs]|] eqn:Ei.
  - rewrite (Hempty _ Ei). apply (IH (S s) k rss); eauto.
  - injection E as E. by rewrite E, Hk.
  - destruct (rss' !! (s mod length rss)%nat) eqn:Ei'.
    { apply lookup_lt_Some in Ei'. apply lookup_ge_None in Ei. lia. }
    apply (IH (S s) k rss); eauto.
Qed.

Lemma pick_None turns s rss i : pick turns s rss = None → (i < turns)%nat →
  ∃ rs, rss !! ((s + i) mod length rss)%nat = rs ∧ (rs = None ∨ rs = Some []).
Proof.
  revert s i. induction turns as [|turns IH]; intros s i E Hi; [lia|]. cbn [pick] in E.
  destruct (rss !! (s mod length rss)%nat) as [[|r rs]|] eqn:Er; [|done|];
    (destruct i as [|i]; [rewrite Nat.add_0_r, Er; eauto|]; destruct (IH (S s) i E ltac:(lia)) as (rs & <- & Hrs);
     eexists; split; [done|]; by replace (s + S i)%nat with (S s + i)%nat by lia).
Qed.

Lemma pick_all_empty t rss : rss ≠ [] → pick (length rss) t rss = None → concat rss = [].
Proof.
  intros Hne E. assert (∀ j rs, rss !! j = Some rs → rs = []) as Hall.
  { intros j rs Hj. pose proof (lookup_lt_Some _ _ _ Hj) as Hlt.
    set (L := length rss) in *. set (i := ((j + L - t mod L) mod L)%nat).
    destruct (pick_None L t rss i E) as (o & Ho & Hcase); [apply Nat.mod_upper_bound; lia|].
    assert (((t + i) mod L)%nat = j) as Ej.
    { unfold i. rewrite Nat.Div0.add_mod_idemp_r. pose proof (Nat.mod_upper_bound t L ltac:(lia)).
      rewrite <- Nat.Div0.add_mod_idemp_l.
      replace (t mod L + (j + L - t mod L))%nat with (j + 1 * L)%nat by lia.
      rewrite Nat.Div0.mod_add. by apply Nat.mod_small. }
    fold L in Ho. rewrite Ej, Hj in Ho. subst o. destruct Hcase; congruence. }
  clear E Hne. induction rss as [|rs rss IH]; [done|]. simpl. rewrite (Hall 0%nat rs eq_refl). simpl. apply IH.
  intros j. apply (Hall (S j)).
Qed.
End ParallelTheory.

(** ** The order of rows *)

Section RowOrder.
Context {TL : TimeLib} {FT : FloatText} {DC : DecimalLib} {DL : DecimalLaws DC} (items : list OrderByItem).

(** What [Less] compares. *)
Definition rowCompare (r1 r2 : Row) : outcome Z :=
  m ← orderValues r1 r2 items ∅ ∅; compare (fst m) (snd m) items.

Definition rowLeb (r1 r2 : Row) : bool := match rowCompare r1 r2 with Ok c => c <=? 0 | _ => false end.

(** The columns of the order are integers or NULL: [g] tells which. *)
Definition keyed (r : Row) (g : string → option Z) : Prop :=
  ∀ item, item ∈ items → ∃ c, getOrNil r (Column item) = Ok c ∧ cellStands c (g (Column item)).

Definition sortable (r : Row) : Prop := ∃ g, keyed r g.

(** NULL comes first, whatever the direction. *)
Definition compareKey (a b : option Z) (desc : bool) : Z :=
  match a, b with
  | None, None => 0
  | None, Some _ => -1
  | Some _, None => 1
  | Some m, Some n => if desc then - compareZ m n else compareZ m n
  end.

Fixpoint compareKeys (l : list OrderByItem) (g h : string → option Z) : Z :=
  match l with
  | [] => 0
  | item :: l =>
      let c := compareKey (g (Column item)) (h (Column item)) (Desc item) in
      if c =? 0 then compareKeys l g h else c
  end.

Lemma stands_numeric v n : stands v n → IsNumberic (Family v) = true.
Proof using TL FT DL. intros [(d & -> & _)|[? _]%integer_inv]; done. Qed.

Lemma CompareValue_stands a b m n : stands a m → stands b n → CompareValue (Some a) (Some b) = Ok (compareZ m n).
Proof using DL.
  intros Ha Hb. unfold CompareValue. rewrite (stands_numeric a m Ha). simpl.
  destruct (stands_decimal a m Ha) as (x & -> & Hx), (stands_decimal b n Hb) as (y & -> & Hy). simpl.
  rewrite (dec_LessThan_int x y m n), (dec_GreaterThan_int x y m n) by done. unfold compareZ. by rewrite Z.gtb_ltb.
Qed.

Lemma compareTo_stands a b m n desc : cellStands a m → cellStands b n → compareTo a b desc = Ok (compareKey m n desc).
Proof using DL.
  intros Ha Hb. destruct a as [a|], m as [m|], b as [b|], n as [n|]; try done.
  unfold compareTo. by rewrite (CompareValue_stands a b m n).
Qed.

Lemma orderValues_reads r1 r2 l : ∀ m1 m2,
  (∀ item, item ∈ l → ∃ c1 c2, getOrNil r1 (Column item) = Ok c1 ∧ getOrNil r2 (Column item) = Ok c2) →
  ∃ m1' m2', orderValues r1 r2 l m1 m2 = Ok (m1', m2') ∧
    (∀ item, item ∈ l → getOrNil r1 (Column item) = Ok (orderValue m1' (Column item)) ∧
                        getOrNil r2 (Column item) = Ok (orderValue m2' (Column item))) ∧
    (∀ c, (∀ item, item ∈ l → Column item ≠ c) → m1' !! c = m1 !! c ∧ m2' !! c = m2 !! c).
Proof.
  induction l as [|item l IH]; intros m1 m2 Hr.
  { exists m1, m2. split; [done|]. split; [intros item H; inversion H|done]. }
  destruct (Hr item ltac:(left)) as (c1 & c2 & E1 & E2). simpl. rewrite E1, E2. simpl.
  destruct (IH (<[Column item := c1]> m1) (<[Column item := c2]> m2) ltac:(intros; apply Hr; by right))
    as (m1' & m2' & E & Hin & Hout).
  exists m1', m2'. split; [done|]. split.
  - intros it [-> |Hit]%elem_of_cons; [|by apply Hin].
    destruct (decide (Exists (λ it, Column it = Column item) l)) as [(it & Hit & Ec)%Exists_exists|Hno].
    + destruct (Hin it Hit) as [H1 H2]. by rewrite <- Ec.
    + destruct (Hout (Column item)) as [H1 H2].
      { intros it Hit Ec. apply Hno, Exists_exists. eauto. }
      unfold orderValue. rewrite H1, H2, !lookup_insert_eq. done.
  - intros c Hc. destruct (Hout c) as [-> ->]; [intros it Hit; apply Hc; by right|].
    rewrite !lookup_insert_ne by (apply Hc; left). done.
Qed.

Lemma rowCompare_keys r1 r2 g h : keyed r1 g → keyed r2 h → rowCompare r1 r2 = Ok (compareKeys items g h).
Proof using DL.
  unfold keyed, rowCompare. intros Hg Hh. destruct (orderValues_reads r1 r2 items ∅ ∅) as (m1 & m2 & -> & Hin & _).
  { intros item Hi. destruct (Hg item Hi) as (c1 & ? & _), (Hh item Hi) as (c2 & ? & _). eauto. }
  simpl. revert Hg Hh Hin. generalize items. intros l Hg Hh Hin. induction l as [|item l IH]; [done|]. simpl.
  destruct (Hg item ltac:(left)) as (c1 & E1 & H1), (Hh item ltac:(left)) as (c2 & E2 & H2).
  destruct (Hin item ltac:(left)) as [E1' E2'].
  assert (orderValue m1 (Column item) = c1) as -> by congruence. assert (orderValue m2 (Column item) = c2) as -> by congruence.
  rewrite (compareTo_stands c1 c2 _ _ _ H1 H2). simpl. case_match; [|done].
  apply IH; intros; [apply Hg|apply Hh|apply Hin]; by right.
Qed.

Lemma compareKey_antisym a b d : compareKey b a d = - compareKey a b d.
Proof. destruct a, b, d; simpl; try done; rewrite (compareZ_antisym z z0); lia. Qed.

Lemma compareKey_trans a b c d :
  compareKey a b d ≤ 0 → compareKey b c d ≤ 0 →
  compareKey a c d ≤ 0 ∧ (compareKey a c d = 0 → compareKey a b d = 0 ∧ compareKey b c d = 0).
Proof. destruct a, b, c, d; simpl; unfold compareZ; repeat case_match; lia. Qed.

Lemma compareKeys_antisym l g h : compareKeys l h g = - compareKeys l g h.
Proof.
  induction l as [|item l IH]; [done|]. simpl. rewrite (compareKey_antisym (g (Column item))), IH.
  destruct (Z.eqb_spec (compareKey (g (Column item)) (h (Column item)) (Desc item)) 0) as [->|?]; [done|].
  destruct (Z.eqb_spec (- compareKey (g (Column item)) (h (Column item)) (Desc item)) 0); [lia|done].
Qed.

Lemma compareKeys_trans l g h k : compareKeys l g h ≤ 0 → compareKeys l h k ≤ 0 → compareKeys l g k ≤ 0.
Proof.
  induction l as [|item l IH]; [done|]. simpl.
  set (a := g (Column item)). set (b := h (Column item)). set (c := k (Column item)).
  destruct (Z.eqb_spec (compareKey a b (Desc item)) 0) as [E1|N1], (Z.eqb_spec (compareKey b c (Desc item)) 0) as [E2|N2];
    intros H1 H2; destruct (compareKey_trans a b c (Desc item) ltac:(lia) ltac:(lia)) as [H3 H4];
    destruct (Z.eqb_spec (compareKey a c (Desc item)) 0) as [E3|N3]; lia.
Qed.

Lemma rowLeb_total r1 r2 : sortable r1 → sortable r2 → rowLeb r1 r2 = true ∨ rowLeb r2 r1 = true.
Proof using DL.
  intros [g Hg] [h Hh]. unfold rowLeb. rewrite (rowCompare_keys r1 r2 g h), (rowCompare_keys r2 r1 h g) by done.
  rewrite (compareKeys_antisym items g h). destruct (Z.leb_spec (compareKeys items g h) 0); [by left|right].
  apply Z.leb_le. lia.
Qed.

Lemma rowLeb_trans r1 r2 r3 :
  sortable r1 → sortable r2 → sortable r3 → rowLeb r1 r2 = true → rowLeb r2 r3 = true → rowLeb r1 r3 = true.
Proof using DL.
  intros [g Hg] [h Hh] [k Hk]. unfold rowLeb.
  rewrite (rowCompare_keys r1 r2 g h), (rowCompare_keys r2 r3 h k), (rowCompare_keys r1 r3 g k) by done.
  rewrite !Z.leb_le. apply compareKeys_trans.
Qed.

Lemma pq_Less_spec rows i j x y :
  Forall (λ x, sortable (item_row x)) rows → at_ rows i = Some x → at_ rows j = Some y →
  pq_Less items rows i j = Ok (negb (rowLeb (item_row y) (item_row x))).
Proof using DL.
  intros HP Hi Hj. unfold pq_Less.
  assert (∀ k z, at_ rows k = Some z → 0 ≤ k < Len rows ∧ sortable (item_row z)) as Hat.
  { intros k z Hz. unfold at_ in Hz. destruct (Z.ltb_spec k 0); [done|].
    split; [|by apply (Forall_lookup_1 _ _ _ _ HP Hz)]. apply lookup_lt_Some in Hz. unfold Len. lia. }
  destruct (Hat i x Hi) as [Hi' [g Hg]], (Hat j y Hj) as [Hj' [h Hh]].
  destruct (Z.geb_spec i (Len rows)); [lia|]. destruct (Z.geb_spec j (Len rows)); [lia|]. simpl. rewrite Hi, Hj.
  pose proof (rowCompare_keys (item_row x) (item_row y) g h Hg Hh) as E. unfold rowCompare in E.
  destruct (orderValues _ _ _ _ _) as [m| | |]; try discriminate E. simpl in *. rewrite E. simpl.
  unfold rowLeb. rewrite (rowCompare_keys _ _ h g) by done. rewrite (compareKeys_antisym items g h).
  f_equal. destruct (Z.ltb_spec (compareKeys items g h) 0), (Z.leb_spec (- compareKeys items g h) 0); done || lia.
Qed.
End RowOrder.

(** ** Merging sorted streams *)

Section Merge.
Context {TL : TimeLib} {FT : FloatText} {DC : DecimalLib} {DL : DecimalLaws DC} {D : Type} `{Dataset D}.
Context (items : list OrderByItem) (n : nat).

Abbreviation leb := (λ x y, rowLeb items (item_row x) (item_row y)).
Abbreviation rowLe := (λ x y, rowLeb items x y = true).
Abbreviation good := (λ x, sortable items (item_row x)).

Lemma pq_Push_heap q x :
  Forall good q → good x → heap leb q (length q) →
  ∃ q', pq_Push items q x = Ok q' ∧ q' ≡ₚ x :: q ∧ heap leb q' (length q').
Proof using DL.
  intros Hq Hx Hh. apply (Fix_last (pq_Less items) good leb); try done.
  - intros. by apply pq_Less_spec.
  - intros a b Ha Hb. by apply rowLeb_total.
  - intros a b c Ha Hb Hc. by apply rowLeb_trans.
Qed.

Lemma heap_Push_heap q x :
  Forall good q → good x → heap leb q (length q) →
  ∃ q', heap_Push items q x = Ok q' ∧ q' ≡ₚ x :: q ∧ heap leb q' (length q').
Proof using DL.
  intros Hq Hx Hh. destruct (pq_Push_heap q x Hq Hx Hh) as (q' & E & Hp & Hh'). exists q'. split; [|done].
  unfold heap_Push. rewrite E. simpl. apply (up_heap_id (pq_Less items) good leb); [|by rewrite Hp; constructor|done].
  intros. by apply pq_Less_spec.
Qed.

Lemma pq_Pop_heap q :
  Forall good q → heap leb q (length q) → q ≠ [] →
  ∃ q' m, Pop (pq_Less items) q = Ok (q', m) ∧ q ≡ₚ m :: q' ∧ heap leb q' (length q') ∧ ∀ x, x ∈ q → leb m x = true.
Proof using DL.
  intros Hq Hh Hne. apply (Pop_heap (pq_Less items) good leb); try done.
  - intros. by apply pq_Less_spec.
  - intros x y Hx Hy. by apply rowLeb_total.
  - intros x y z Hx Hy Hz. by apply rowLeb_trans.
Qed.

(** For every stream of [S] with rows left the queue has an item that is not
    greater than them and whose place the stream's next row will take. *)
Definition covered (S : nat → Prop) (rss : list (list Row)) (q : list RowItem) : Prop :=
  ∀ k r rs, S k → rss !! k = Some (r :: rs) →
  ∃ x t, x ∈ q ∧ streamIdx x = Z.of_nat t ∧ pick (length rss) t rss = Some k ∧
    ∀ y, y ∈ r :: rs → rowLe (item_row x) y.

Lemma covered_pull S rss q q' t k r rs :
  covered S rss q → pick (length rss) t rss = Some k → rss !! k = Some (r :: rs) →
  Forall (λ y, rowLe r y) rs →
  mkRowItem r (Z.of_nat t) ∈ q' → (∀ x, x ∈ q → x ∈ q' ∨ streamIdx x = Z.of_nat t) →
  covered (λ j, S j ∨ j = k) (<[k := rs]> rss) q'.
Proof.
  intros Hc Hpick Hk Hsorted Hnew Hold j r0 rs0 Hj Hj0. rewrite length_insert.
  assert (∀ i, rss !! i = Some [] → <[k := rs]> rss !! i = Some []) as Hempty.
  { intros i Hi. rewrite list_lookup_insert_ne; [done|]. intros ->. congruence. }
  pose proof (lookup_lt_Some _ _ _ Hk) as Hlt.
  destruct (decide (k = j)) as [<-|Hne].
  - rewrite list_lookup_insert_eq in Hj0 by done. injection Hj0 as ->.
    exists (mkRowItem r (Z.of_nat t)), t. split; [done|]. split; [done|]. split.
    + apply (pick_stable _ t k rss); [by rewrite length_insert|done|done|].
      exists r0, rs0. by apply list_lookup_insert_eq.
    + by rewrite Forall_forall in Hsorted.
  - pose proof Hj0 as Hj1. rewrite list_lookup_insert_ne in Hj0 by done. destruct Hj as [Hj| ->]; [|done].
    destruct (Hc j r0 rs0 Hj Hj0) as (x & t' & Hx & Ht' & Hp & Hle).
    exists x, t'. split; [|split; [done|split; [|done]]].
    + destruct (Hold x Hx) as [?|Et]; [done|]. assert (t' = t) as -> by lia. congruence.
    + apply (pick_stable _ t' j rss); [by rewrite length_insert|done|done|eauto].
Qed.

(** The state of a merge: what the streams have left, and the queue. *)
Record merging (S : nat → Prop) (pa : parallelDataset D) (q : list RowItem) (rss : list (list Row)) : Prop := {
  m_streams : streams_yield n pa rss;
  m_heap : heap leb q (length q);
  m_good : Forall good q;
  m_rows : Forall (Forall (sortable items)) rss;
  m_sorted : Forall (StronglySorted rowLe) rss;
  m_covered : covered S rss q;
  m_tags : ∀ x, x ∈ q → ∃ t, streamIdx x = Z.of_nat t ∧ (t < length rss)%nat;
  m_size : Z.of_nat (length rss) < 2 ^ 31;
  m_some : rss ≠ [];
}.

Lemma concat_insert_perm (rss : list (list Row)) k r rs :
  rss !! k = Some (r :: rs) → concat rss ≡ₚ r :: concat (<[k := rs]> rss).
Proof.
  revert k. induction rss as [|l rss IH]; intros [|k] Hk; simplify_eq/=; [done|].
  rewrite (IH k Hk). by rewrite Permutation_middle.
Qed.

(** The next row of a stream joins the queue [q'], which lacks at most an item
    of the same place. *)
Lemma merging_pull S pa pa' q q0 q' rss t k r rs :
  merging S pa q rss → (t < length rss)%nat → pick (length rss) t rss = Some k → rss !! k = Some (r :: rs) →
  streams_yield n pa' (<[k := rs]> rss) →
  Forall good q0 → heap leb q' (length q') → q' ≡ₚ mkRowItem r (Z.of_nat t) :: q0 →
  (∀ x, x ∈ q → x ∈ q0 ∨ streamIdx x = Z.of_nat t) → (∀ x, x ∈ q0 → x ∈ q) →
  merging (λ j, S j ∨ j = k) pa' q' (<[k := rs]> rss).
Proof.
  intros [Hs Hh Hg Hr Hso Hc Ht Hz Hne] Hlt Hpick Hk Hs' Hg0 Hh' Hp Hold Hsub.
  pose proof (Forall_lookup_1 _ _ _ _ Hr Hk) as Hrk. apply Forall_cons in Hrk as [Hr1 Hr2].
  pose proof (Forall_lookup_1 _ _ _ _ Hso Hk) as Hsk. apply StronglySorted_inv in Hsk as [Hs1 Hs2].
  split.
  - done.
  - done.
  - rewrite Hp. by constructor.
  - by apply Forall_insert.
  - by apply Forall_insert.
  - eapply (covered_pull S rss q q' t k r rs); try done; [rewrite Hp; by left|].
    intros x Hx. rewrite Hp. destruct (Hold x Hx); [left; by right|by right].
  - rewrite length_insert. intros x. rewrite Hp. intros [-> |Hx]%elem_of_cons; [by exists t|by apply Ht, Hsub].
  - by rewrite length_insert.
  - intros E. apply (f_equal length) in E. rewrite length_insert in E. by destruct rss.
Qed.

Lemma merging_weaken (S S' : nat → Prop) pa q rss :
  merging S pa q rss → (∀ k r rs, S' k → rss !! k = Some (r :: rs) → S k) → merging S' pa q rss.
Proof. intros [] HS. split; try done. intros k r rs Hk E. eauto. Qed.

Abbreviation left_over q rss := ((item_row <$> q) ++ concat rss).

(** Nothing is covered because nothing is left. *)
Lemma merging_empty S S' pa pa' q rss :
  merging S pa q rss → streams_yield n pa' rss → concat rss = [] → merging S' pa' q rss.
Proof.
  intros [] Hs Hc. split; try done. intros k r rs _ Hk. exfalso.
  pose proof (concat_insert_perm rss k r rs Hk) as Hp. rewrite Hc in Hp. by apply Permutation_nil_cons in Hp.
Qed.

Lemma fillQueue_merging L : ∀ i pa q rss,
  merging (λ k, (k < i)%nat) pa q rss → (i + L = length rss)%nat →
  ∃ pa' q' rss', fillQueue n items (Z.of_nat <$> seq i L) pa q = (pa', q', Ok tt) ∧
    merging (λ _, True) pa' q' rss' ∧ left_over q rss ≡ₚ left_over q' rss'.
Proof using DL.
  induction L as [|L IH]; intros i pa q rss Hm HL.
  { exists pa, q, rss. split; [done|]. split; [|done]. eapply merging_weaken; [exact Hm|].
    intros k r rs _ Hk. apply lookup_lt_Some in Hk. simpl. lia. }
  cbn [seq fmap list_fmap fillQueue].
  pose proof (pull_pick n pa rss i (m_streams _ _ _ _ Hm) ltac:(lia) (m_size _ _ _ _ Hm)) as Hpull.
  destruct (pick (length rss) i rss) as [k|] eqn:Epick.
  - destruct Hpull as (r & rs & pa1 & Hk & Ep & Hs1). rewrite Ep.
    pose proof (Forall_lookup_1 _ _ _ _ (m_rows _ _ _ _ Hm) Hk) as Hrk. apply Forall_cons in Hrk as [Hr1 Hr2].
    destruct (pq_Push_heap q (mkRowItem r (Z.of_nat i)) (m_good _ _ _ _ Hm) Hr1 (m_heap _ _ _ _ Hm)) as (q1 & Eq & Hp1 & Hh1).
    rewrite Eq.
    assert (merging (λ j, (j < i)%nat ∨ j = k) pa1 q1 (<[k := rs]> rss)) as Hm1.
    { eapply (merging_pull _ pa pa1 q q q1 rss i k r rs); try done; [lia|apply Hm|eauto]. }
    destruct (IH (S i) pa1 q1 (<[k := rs]> rss)) as (pa' & q' & rss' & E' & Hm' & Hperm).
    + eapply merging_weaken; [exact Hm1|]. intros j r0 rs0 Hj Hj0. simpl in Hj.
      destruct (decide (j = i)) as [->|]; [|left; lia]. right.
      destruct (decide (k = i)) as [|Hne]; [done|]. rewrite list_lookup_insert_ne in Hj0 by done.
      rewrite (pick_here i rss r0 rs0 Hj0) in Epick. congruence.
    + rewrite length_insert. lia.
    + exists pa', q', rss'. split; [exact E'|]. split; [done|]. rewrite <- Hperm, Hp1. simpl.
      rewrite (concat_insert_perm rss k r rs Hk). by rewrite Permutation_middle.
  - destruct Hpull as (pa1 & Ep & Hs1). rewrite Ep.
    apply (IH (S i) pa1 q rss); [|lia]. eapply merging_empty; [exact Hm|done|].
    by apply (pick_all_empty i); [apply Hm|].
Qed.

Lemma popRow_merging pa q rss :
  merging (λ _, True) pa q rss → q ≠ [] →
  ∃ pa' q' rss' row, popRow n items pa q = (pa', q', Ok row) ∧ merging (λ _, True) pa' q' rss' ∧
    left_over q rss ≡ₚ row :: left_over q' rss' ∧ ∀ y, y ∈ left_over q rss → rowLe row y.
Proof using DL.
  intros Hm Hne. unfold popRow. destruct (Z.eqb_spec (Len q) 0) as [E0|_].
  { unfold Len in E0. by destruct q. }
  destruct (pq_Pop_heap q (m_good _ _ _ _ Hm) (m_heap _ _ _ _ Hm) Hne) as (q0 & m & Epop & Hq & Hh0 & Hmin).
  rewrite Epop. assert (m ∈ q) as Hmq by (rewrite Hq; by left).
  destruct (m_tags _ _ _ _ Hm m Hmq) as (t & Et & Htl). rewrite Et.
  assert (Forall good q0) as Hg0 by (pose proof (m_good _ _ _ _ Hm) as Hg; rewrite Hq in Hg; by apply Forall_cons in Hg as [_ ?]).
  assert (∀ y, y ∈ left_over q rss → rowLe (item_row m) y) as Hleast.
  { intros y [(x & -> & Hx)%list_elem_of_fmap|Hy]%elem_of_app; [by apply Hmin|].
    apply list_elem_of_In, in_concat in Hy as (l & [k Hk]%list_elem_of_In%list_elem_of_lookup & Hyl%list_elem_of_In).
    destruct l as [|r rs]; [inversion Hyl|].
    destruct (m_covered _ _ _ _ Hm k r rs I Hk) as (x & t' & Hx & _ & _ & Hle).
    pose proof (m_good _ _ _ _ Hm) as Hg. rewrite Forall_forall in Hg.
    pose proof (Forall_lookup_1 _ _ _ _ (m_rows _ _ _ _ Hm) Hk) as Hrk. rewrite Forall_forall in Hrk.
    apply (rowLeb_trans items (item_row m) (item_row x) y); auto. }
  pose proof (pull_pick n pa rss t (m_streams _ _ _ _ Hm) Htl (m_size _ _ _ _ Hm)) as Hpull.
  destruct (pick (length rss) t rss) as [k|] eqn:Epick.
  - destruct Hpull as (r & rs & pa1 & Hk & Ep & Hs1). rewrite Ep. cbn [is_EOF mbind outcome_bind].
    pose proof (Forall_lookup_1 _ _ _ _ (m_rows _ _ _ _ Hm) Hk) as Hrk. apply Forall_cons in Hrk as [Hr1 Hr2].
    destruct (heap_Push_heap q0 (mkRowItem r (Z.of_nat t)) Hg0 Hr1 Hh0) as (q1 & Eq & Hp1 & Hh1). rewrite Eq.
    exists pa1, q1, (<[k := rs]> rss), (item_row m). split; [done|]. split; [|split; [|done]].
    + apply (merging_weaken (λ j, True ∨ j = k)); [|intros; by left].
      eapply (merging_pull (λ _, True) pa pa1 q q0 q1 rss t k r rs); try done.
      * intros x. rewrite Hq. intros [-> |?]%elem_of_cons; [by right|by left].
      * intros x Hx. rewrite Hq. by right.
    + rewrite Hq, Hp1. simpl. constructor. rewrite (concat_insert_perm rss k r rs Hk). symmetry. apply Permutation_middle.
  - destruct Hpull as (pa1 & Ep & Hs1). rewrite Ep. cbn [is_EOF errors_Is].
    assert (concat rss = []) as Hc by (by apply (pick_all_empty t); [apply Hm|]).
    exists pa1, q0, rss, (item_row m). split; [done|]. split; [|split; [by rewrite Hq|done]].
    destruct (merging_empty _ (λ _, True) pa pa1 q rss Hm Hs1 Hc). split; try done.
    + intros k r rs _ Hk. exfalso. pose proof (concat_insert_perm rss k r rs Hk) as Hp. rewrite Hc in Hp.
      by apply Permutation_nil_cons in Hp.
    + intros x Hx. apply m_tags0. rewrite Hq. by right.
Qed.

(** An empty queue means that no row is left. *)
Lemma merging_done pa rss :
  merging (λ _, True) pa [] rss → concat rss = [] ∧ yieldsN n (mkOrdered pa [] items false) [].
Proof.
  intros Hm. split.
  - destruct (concat rss) as [|y ys] eqn:Ec; [done|]. exfalso. assert (y ∈ concat rss) as Hy by (rewrite Ec; by left).
    apply list_elem_of_In, in_concat in Hy as (l & [j Hj]%list_elem_of_In%list_elem_of_lookup & Hyl).
    destruct l as [|r rs]; [done|]. destruct (m_covered _ _ _ _ Hm j r rs I Hj) as (x & t & Hx & _). inversion Hx.
  - apply yields_end. exists (λ y, y = mkOrdered pa [] items false). split; [done|]. intros y ->. by repeat eexists.
Qed.

Lemma ordered_merging k : ∀ pa q rss,
  merging (λ _, True) pa q rss → (length (left_over q rss) ≤ k)%nat →
  ∃ out, yieldsN n (mkOrdered pa q items false) out ∧ out ≡ₚ left_over q rss ∧ StronglySorted rowLe out.
Proof using DL.
  induction k as [|k IH]; intros pa q rss Hm Hk; (destruct (decide (q = [])) as [->|Hne];
    [destruct (merging_done pa rss Hm) as [-> Hy]; exists []; split; [done|]; split; [done|constructor]|]).
  { destruct q; [done|]. simpl in Hk. lia. }
  destruct (popRow_merging pa q rss Hm Hne) as (pa' & q' & rss' & row & E & Hm' & Hp & Hmin).
  destruct (IH pa' q' rss' Hm') as (out & Hy & Hpo & Hso).
  { apply Permutation_length in Hp. simpl in Hp. lia. }
  exists (row :: out). split; [|split].
  - eapply yields_row; [|exact Hy]. simpl. unfold ordered_Next. cbn [firstRow or_dataset or_queue or_items]. by rewrite E.
  - by rewrite Hp, Hpo.
  - constructor; [done|]. apply Forall_forall. intros y Hyo. apply Hmin. rewrite Hp, <- Hpo. by right.
Qed.

(** A merge that has not begun. *)
Lemma ordered_start pa rss :
  streams_yield n pa rss → Forall (Forall (sortable items)) rss → Forall (StronglySorted rowLe) rss →
  Z.of_nat (length rss) < 2 ^ 31 → rss ≠ [] →
  ∃ out, yieldsN n (mkOrdered pa [] items true) out ∧ out ≡ₚ concat rss ∧ StronglySorted rowLe out.
Proof using DL.
  intros Hs Hr Hso Hz Hne.
  assert (merging (λ k, (k < 0)%nat) pa [] rss) as Hm.
  { split; try done.
    - intros k r rs Hk. simpl in Hk. lia.
    - intros x Hx. inversion Hx. }
  destruct (fillQueue_merging (length rss) 0 pa [] rss Hm eq_refl) as (pa1 & q1 & rss1 & E & Hm1 & Hp).
  destruct (ordered_merging _ pa1 q1 rss1 Hm1 (le_n _)) as (out & Hy & Hpo & Hsort).
  exists out. split; [|split; [by rewrite Hpo, <- Hp|done]].
  apply (yieldsN_next_eq n _ (mkOrdered pa1 q1 items false)); [|done]. simpl. unfold ordered_Next.
  cbn [firstRow or_dataset or_queue or_items]. assert (length (pa_streams pa) = length rss) as -> by apply Hs. by rewrite E.
Qed.
End Merge.

Lemma yields_all {D} `{Dataset D} (ds : list D) rss :
  Forall2 yields ds rss → ∃ N, ∀ n, (N ≤ n)%nat → Forall2 (yieldsN n) ds rss.
Proof.
  induction 1 as [|d rs ds rss [N HN] _ [N' HN']]; [by exists 0%nat; constructor|].
  exists (N + N')%nat. intros n Hn. constructor; [apply HN; lia|apply HN'; lia].
Qed.

(** The ordered dataset over the shards. *)
Definition orderedShards {D} (items : list OrderByItem) (fields : list Field) (d : D) (ds : list D) : orderedDataset D :=
  mkOrdered (ToParallel (mkFuse fields (Some d) (Ok <$> ds))) [] items true.

Lemma orderedShards_merges {TL : TimeLib} {FT : FloatText} {DC : DecimalLib} {DL : DecimalLaws DC} {D} `{Dataset D}
    items fields (d : D) ds rss :
  Forall2 yields (d :: ds) rss → Z.of_nat (length rss) < 2 ^ 31 →
  Forall (Forall (sortable items)) rss → Forall (StronglySorted (λ x y, rowLeb items x y = true)) rss →
  ∃ N, ∀ n, (N ≤ n)%nat → ∃ out, yieldsN n (orderedShards items fields d ds) out ∧ out ≡ₚ concat rss ∧
    StronglySorted (λ x y, rowLeb items x y = true) out.
Proof.
  intros Hy Hz Hr Hs. destruct (yields_all (d :: ds) rss Hy) as [N HN].
  exists N. intros n Hn. specialize (HN n Hn). apply ordered_start; try done; [|by intros ->; inversion HN].
  apply Forall2_length in HN as El. split; [simpl in *; by rewrite !length_fmap|].
  intros i rs Hi. destruct (Forall2_lookup_r _ _ _ _ _ HN Hi) as (di & Hdi & Hyi). exists di. split; [done|].
  destruct i as [|i]; [left; by injection Hdi as ->|right]. simpl in *. by rewrite !list_lookup_fmap, Hdi.
Qed.


(** ** Grouping *)

Section Group.
Context {D : Type} `{Dataset D} {St : Type} (n : nat) (fs : list Field) (indexes : list nat) (vals : Row → list cell).

(** The fields do not change while rows are read. *)
Definition fields_are (d : D) : Prop :=
  ∃ I : D → Prop, I d ∧ ∀ x, I x → Fields x = Ok fs ∧ I (fst (Next n x)).

Lemma fields_are_Fields d : fields_are d → Fields d = Ok fs.
Proof. intros (I & Hd & HI). by apply HI. Qed.

Lemma fields_are_Next d : fields_are d → fields_are (fst (Next n d)).
Proof. intros (I & Hd & HI). exists I. split; [by apply HI|done]. Qed.

(** The row has the cells [vals], as many as there are fields. *)
Definition scans (r : Row) : Prop := Scan r (length fs) = Ok (vals r) ∧ length (vals r) = length fs.

Definition cellAt (r : Row) (i : nat) : cell := default None (vals r !! i).

Definition sameKey (a b : Row) : bool := forallb (λ i, cellEqual (cellAt a i) (cellAt b i)) indexes.

(** Consecutive rows with the same key, together. *)
Fixpoint runs (rs : list Row) : list (list Row) :=
  match rs with
  | [] => []
  | r :: rs =>
      match runs rs with
      | (r' :: g) :: gs => if sameKey r r' then (r :: r' :: g) :: gs else [r] :: (r' :: g) :: gs
      | gs => [r] :: gs
      end
  end.

Hypothesis indexes_valid : Forall (λ i, (i < length fs)%nat) indexes.

Lemma sameCells_key a b : scans a → scans b → sameCells indexes (vals a) (vals b) = Ok (sameKey a b).
Proof using indexes_valid.
  intros [_ La] [_ Lb]. unfold sameKey. revert indexes_valid. generalize indexes. intros l Hl.
  induction Hl as [|i l Hi _ IH]; [done|]. simpl. unfold cellAt at 1 2.
  destruct (lookup_lt_is_Some_2 (vals a) i ltac:(lia)) as [x Hx], (lookup_lt_is_Some_2 (vals b) i ltac:(lia)) as [y Hy].
  rewrite Hx, Hy. simpl. by destruct (cellEqual x y).
Qed.

Lemma isSameGroup_key (gd : GroupDataset D St) a b :
  fields_are (group_ds gd) → scans a → scans b → isSameGroup gd indexes a b = Ok (sameKey a b).
Proof using indexes_valid.
  intros Hf Ha Hb. unfold isSameGroup. rewrite (fields_are_Fields _ Hf). rewrite (proj1 Ha), (proj1 Hb). simpl.
  by apply sameCells_key.
Qed.

(** Reading on from a buffered row sends the rest of its run. *)
Lemma consume_run (gd : GroupDataset D St) rs : ∀ d p sent m,
  yieldsN n d rs → fields_are d → scans p → Forall scans rs → (length rs < m)%nat →
  ∃ g gs, runs (p :: rs) = g :: gs ∧ g ≠ [] ∧ head g = Some p ∧
    match gs with
    | [] => ∃ d', consumeUntilDifferent m n indexes (setBuf gd d (Some p) false) sent = (setBuf gd d' None true, sent ++ g, Ok tt)
    | _ => ∃ d' q rest, runs (q :: rest) = gs ∧
        consumeUntilDifferent m n indexes (setBuf gd d (Some p) false) sent = (setBuf gd d' (Some q) false, sent ++ g, Ok tt) ∧
        yieldsN n d' rest ∧ fields_are d' ∧ scans q ∧ Forall scans rest ∧ (length rest < length rs)%nat
    end.
Proof using indexes_valid.
  induction rs as [|r rs IH]; intros d p sent m Hy Hf Hp Hrs Hm; (destruct m as [|m]; [simpl in Hm; lia|]).
  - inversion Hy as [d0 Hend|]; subst. destruct (ended_next n d Hend) as (d' & e & E & He & _).
    exists [p], []. split; [done|]. split; [done|]. split; [done|]. exists d'. cbn [consumeUntilDifferent].
    change (group_ds (setBuf gd d (Some p) false)) with d. by rewrite E, (is_EOF_Err e He).
  - inversion Hy as [|d0 d' r0 rs0 E Hy']; subst. apply Forall_cons in Hrs as [Hr Hrs].
    pose proof (fields_are_Next d Hf) as Hf'. rewrite E in Hf'. cbn [fst] in Hf'.
    cbn [consumeUntilDifferent]. change (group_ds (setBuf gd d (Some p) false)) with d.
    change (buf (setBuf gd d (Some p) false)) with (Some p). rewrite E. cbn [is_EOF].
    change (setBuf (setBuf gd d (Some p) false) d' (Some r) false) with (setBuf gd d' (Some r) false).
    rewrite (isSameGroup_key (setBuf gd d' (Some r) false) p r) by done.
    destruct (IH d' r (sent ++ [p]) m Hy' Hf' Hr Hrs ltac:(simpl in Hm; lia)) as (g & gs & Eg & Hg & Hh & Hcase).
    change (runs (p :: r :: rs)) with
      (match runs (r :: rs) with
       | (r' :: g) :: gs => if sameKey p r' then (p :: r' :: g) :: gs else [p] :: (r' :: g) :: gs
       | gs => [p] :: gs end). rewrite Eg.
    destruct g as [|r' g]; [done|]. injection Hh as ->. destruct (sameKey p r).
    + exists (p :: r :: g), gs. split; [done|]. split; [done|]. split; [done|]. destruct gs as [|g1 gs].
      * destruct Hcase as (d'' & ->). exists d''. by rewrite <- app_assoc.
      * destruct Hcase as (d'' & q & rest & Er & -> & ? & ? & ? & ? & ?). exists d'', q, rest.
        rewrite <- app_assoc. split_and!; try done. simpl in *. lia.
    + exists [p], ((r :: g) :: gs). split; [done|]. split; [done|]. split; [done|].
      exists d', r, rs. split_and!; try done. simpl. lia.
Qed.

(** The reducer turns the rows of a group into [row]. *)
Definition reduced (red : RowReducer St) (g : list Row) (row : Row) : Prop :=
  ∃ s, reduceRows red (fresh red) g = Ok s ∧ Result red s = Ok row.

Lemma group_step (gd gd' : GroupDataset D St) d b g row :
  getKeyIndexes (setBuf gd d b false) = Ok indexes →
  consumeUntilDifferent n n indexes (setBuf gd d b false) [] = (gd', g, Ok tt) →
  reducer gd' = reducer gd → reduced (reducer gd) g row →
  Next n (setBuf gd d b false) = (gd', Ok row).
Proof.
  intros Hi Hc Hred (s & Es & Er). cbn [Next GroupDataset_Dataset]. unfold group_Next.
  change (group_eof (setBuf gd d b false)) with false. cbv iota. rewrite Hi. cbn [wrap].
  rewrite Hc, Hred, Es. simpl. by rewrite Er.
Qed.

Lemma group_ended (gd : GroupDataset D St) d : ended n (setBuf gd d None true).
Proof. exists (λ x, x = setBuf gd d None true). split; [done|]. intros x ->. by repeat eexists. Qed.

Lemma group_rows (gd : GroupDataset D St) k : ∀ d p rs out,
  (length rs ≤ k)%nat → (k < n)%nat → (∀ d' b, fields_are d' → getKeyIndexes (setBuf gd d' b false) = Ok indexes) →
  yieldsN n d rs → fields_are d → scans p → Forall scans rs → Forall2 (reduced (reducer gd)) (runs (p :: rs)) out →
  yieldsN n (setBuf gd d (Some p) false) out.
Proof using indexes_valid.
  induction k as [|k IH]; intros d p rs out Hk Hn Hi Hy Hf Hp Hrs Hout;
    destruct (consume_run gd rs d p [] n Hy Hf Hp Hrs ltac:(lia)) as (g & gs & Eg & Hg & Hh & Hcase);
    rewrite Eg in Hout; apply Forall2_cons_inv_l in Hout as (row & out' & Hrow & Hout & ->);
    (destruct gs as [|g1 gs];
     [destruct Hcase as (d' & Ec); apply Forall2_nil_inv_l in Hout as ->;
      eapply yields_row; [by eapply group_step; [apply Hi|..]|]; apply yields_end, group_ended|]);
    destruct Hcase as (d' & q & rest & Er' & Ec & Hy' & Hf' & Hq & Hrest & Hl); [lia|].
  eapply yields_row; [by eapply group_step; [apply Hi|..]|].
  apply (IH d' q rest); try done; try lia. by rewrite Er'.
Qed.

(** The first call buffers the first row. *)
Lemma group_first (gd : GroupDataset D St) d rs out :
  rs ≠ [] → (length rs < n)%nat → (∀ d' b, fields_are d' → getKeyIndexes (setBuf gd d' b false) = Ok indexes) →
  yieldsN n d rs → fields_are d → Forall scans rs → Forall2 (reduced (reducer gd)) (runs rs) out →
  yieldsN n (setBuf gd d None false) out.
Proof using indexes_valid.
  intros Hne Hn Hi Hy Hf Hrs Hout. destruct rs as [|r rs]; [done|]. inversion Hy as [|d0 d' r0 rs0 E Hy']; subst.
  apply Forall_cons in Hrs as [Hr Hrs]. pose proof (fields_are_Next d Hf) as Hf'. rewrite E in Hf'. cbn [fst] in Hf'.
  destruct n as [|m] eqn:Em; [lia|]. rewrite <- Em in *.
  assert (∀ sent, consumeUntilDifferent n n indexes (setBuf gd d None false) sent
    = consumeUntilDifferent m n indexes (setBuf gd d' (Some r) false) sent) as Hfirst.
  { intros sent. rewrite Em at 1. cbn [consumeUntilDifferent]. change (group_ds (setBuf gd d None false)) with d.
    by rewrite E. }
  destruct (consume_run gd rs d' r [] m Hy' Hf' Hr Hrs ltac:(simpl in Hn; lia)) as (g & gs & Eg & Hg & Hh & Hcase).
  rewrite Eg in Hout. apply Forall2_cons_inv_l in Hout as (row & out' & Hrow & Hout & ->).
  destruct gs as [|g1 gs].
  - destruct Hcase as (d'' & Ec). apply Forall2_nil_inv_l in Hout as ->.
    eapply yields_row; [by eapply group_step; [apply Hi|rewrite Hfirst; exact Ec|..]|]. apply yields_end, group_ended.
  - destruct Hcase as (d'' & q & rest & Er' & Ec & Hy'' & Hf'' & Hq & Hrest & Hl).
    eapply yields_row; [by eapply group_step; [apply Hi|rewrite Hfirst; exact Ec|..]|].
    apply (group_rows gd (length rest) d'' q rest); try done; [simpl in Hn; lia|]. by rewrite Er'.
Qed.
End Group.

(** [gs] are the maximal runs of rows with the same key. *)
Definition maximal_runs (same : Row → Row → bool) (rs : list Row) (gs : list (list Row)) : Prop :=
  concat gs = rs ∧ Forall (λ g, g ≠ [] ∧ Sorted (λ a b, same a b = true) g) gs ∧
  Sorted (λ g h, ∃ a b, last g = Some a ∧ head h = Some b ∧ same a b = false) gs.

Lemma runs_maximal indexes vals rs : maximal_runs (sameKey indexes vals) rs (runs indexes vals rs).
Proof.
  induction rs as [|r rs (Hc & Hg & Hs)]; [by repeat constructor|]. cbn [runs].
  destruct (runs indexes vals rs) as [|[|r' g] gs] eqn:E.
  - simpl in Hc. subst rs. by repeat constructor.
  - apply Forall_cons in Hg as [[? _] _]. done.
  - apply Forall_cons in Hg as [[_ Hg1] Hg2]. simpl in Hc. apply Sorted_inv in Hs as [Hs1 Hs2].
    destruct (sameKey indexes vals r r') eqn:Ek.
    + split; [by rewrite <- Hc|]. split.
      * constructor; [|done]. split; [done|]. by constructor; [|constructor].
      * constructor; [done|]. destruct gs as [|h gs]; constructor. apply HdRel_inv in Hs2 as (a & b & Ha & Hb & Hab).
        exists a, b. split; [|done]. by rewrite last_cons, Ha.
    + split; [by rewrite <- Hc|]. split.
      * constructor; [split; [done|by repeat constructor]|]. by constructor.
      * constructor; [by constructor|]. constructor. by exists r, r'.
Qed.

(** A loop over the entries of a map that keeps the keys. *)
Lemma mapM_entries {K A B} `{Countable K} (f : K * A → outcome (K * B)) (m : gmap K A) (R : K → A → B → Prop) :
  (∀ k a, m !! k = Some a → ∃ b, f (k, a) = Ok (k, b) ∧ R k a b) →
  ∃ m' : gmap K B, (l ← mapM f (map_to_list m); Ok (list_to_map l)) = Ok m' ∧
    ∀ k, match m !! k, m' !! k with Some a, Some b => R k a b | None, None => True | _, _ => False end.
Proof.
  intros Hf. assert (∃ l, Forall2 (λ x y, f x = Ok y ∧ fst y = fst x ∧ R (fst x) (snd x) (snd y)) (map_to_list m) l) as [l Hl].
  { assert (∀ k a, (k, a) ∈ map_to_list m → m !! k = Some a) as Hin by (intros k a; apply elem_of_map_to_list).
    induction (map_to_list m) as [|[k a] ms IH]; [by exists []|].
    destruct (Hf k a (Hin k a ltac:(left))) as (b & E & Hb). destruct IH as [l Hl]; [intros; apply Hin; by right|].
    exists ((k, b) :: l). by constructor. }
  exists (list_to_map l). split.
  { assert (mapM f (map_to_list m) = Ok l) as ->; [|done]. apply mapM_Ok. eapply Forall2_impl; [exact Hl|]. by intros ?? []. }
  assert (l.*1 = (map_to_list m).*1) as Ek.
  { clear Hf. induction Hl as [|x y ? ? (_ & E & _) _ IH]; [done|]. rewrite !fmap_cons. by f_equal. }
  assert (NoDup l.*1) as Hnd by (rewrite Ek; apply NoDup_fst_map_to_list).
  intros k. destruct (m !! k) as [a|] eqn:Em.
  - apply elem_of_map_to_list, list_elem_of_lookup in Em as [i Hi].
    destruct (Forall2_lookup_l _ _ _ _ _ Hl Hi) as ([k' b] & Hb & _ & E & HR). simpl in *. subst k'.
    by rewrite (elem_of_list_to_map_1 l k b Hnd) by (by eapply list_elem_of_lookup_2).
  - destruct (list_to_map l !! k) as [b|] eqn:El; [|done]. apply elem_of_list_to_map_2 in El.
    apply (list_elem_of_fmap_2 fst) in El. simpl in El. rewrite Ek in El. apply list_elem_of_fmap in El as ([k' a] & -> & Hka).
    apply elem_of_map_to_list in Hka. simpl in Em. congruence.
Qed.

Lemma choose_list {A B} (P : A → B → Prop) l : Forall (λ x, ∃ y, P x y) l → ∃ k, Forall2 P l k.
Proof. induction 1 as [|x l [y Hy] _ [k Hk]]; [by exists []|]. exists (y :: k). by constructor. Qed.

Lemma mapM_imap {A B} (f : nat → A → outcome B) (l : list A) :
  (∀ i v, l !! i = Some v → ∃ c, f i v = Ok c) →
  ∃ res, mapM (λ e, f (fst e) (snd e)) (imap pair l) = Ok res ∧ length res = length l ∧
    ∀ i v, l !! i = Some v → ∃ c, res !! i = Some c ∧ f i v = Ok c.
Proof.
  intros Hf. assert (∃ res, Forall2 (λ e c, f (fst e) (snd e) = Ok c) (imap pair l) res) as [res Hres].
  { apply choose_list. apply Forall_lookup. intros i [j v] Hi. apply list_lookup_imap_Some in Hi as (v' & Hv & [= -> ->]).
    by apply Hf. }
  exists res. split; [by apply mapM_Ok|]. split; [by rewrite <- (Forall2_length _ _ _ Hres), length_imap|].
  intros i v Hi. assert (imap pair l !! i = Some (i, v)) as He by (by rewrite list_lookup_imap, Hi).
  destruct (Forall2_lookup_l _ _ _ _ _ Hres He) as (c & Hc & E). eauto.
Qed.

(** ** Aggregating a group *)

Definition assoc_op (f : Z → Z → Z) : Prop := ∀ a b c, f a (f b c) = f (f a b) c.

Lemma holds_assoc f a o : holds f a o → assoc_op f.
Proof. intros (x & [[_ ->]|[[_ ->]|[_ ->]]] & _) p q r; lia. Qed.

Lemma foldl_combine f o l : assoc_op f → foldl (combine f) o l = combine f o (aggregateZ f l).
Proof.
  intros Hf. revert o. induction l as [|x l IH]; intros o; simpl; [by destruct o|]. by rewrite IH, combine_assoc.
Qed.

Section GroupReducer.
Context {TL : TimeLib} {FT : FloatText} {DC : DecimalLib} {DL : DecimalLaws DC}.
Context (fs : list Field) (vals : Row → list cell) (keep : nat).
Context (aggs : gmap nat Aggregator) (op : nat → Z → Z → Z) (col : nat → Row → option Z).

Hypothesis keep_small : (keep ≤ length fs)%nat.
Hypothesis aggs_small : ∀ i a, aggs !! i = Some a → (i < length fs)%nat.
Hypothesis aggs_fresh : ∀ i a, aggs !! i = Some a → holds (op i) a None.

(** The aggregated columns of a row are the integers [col]. *)
Definition readable (r : Row) : Prop :=
  scans fs vals r ∧ ∀ i a, aggs !! i = Some a → cellStands (cellAt vals r i) (col i r).

(** The aggregators after the rows [g]. *)
Definition totals (items : gmap nat Aggregator) (g : list Row) : Prop :=
  ∀ i, match aggs !! i, items !! i with
       | Some _, Some a => holds (op i) a (foldl (combine (op i)) None (col i <$> g))
       | None, None => True
       | _, _ => False
       end.

Lemma aggregateItems_totals items g r :
  totals items g → readable r → ∃ items', aggregateItems items (vals r) = Ok items' ∧ totals items' (g ++ [r]).
Proof using DL aggs_small.
  intros Ht [[_ Hl] Hr].
  assert (∀ i a, items !! i = Some a → ∃ v a', vals r !! i = Some v ∧ Aggregate a [v] = Ok a' ∧
    holds (op i) a' (foldl (combine (op i)) None (col i <$> g ++ [r]))) as Hstep.
  { intros i a Hi. specialize (Ht i). rewrite Hi in Ht. destruct (aggs !! i) as [a0|] eqn:Ea; [|done].
    destruct (lookup_lt_is_Some_2 (vals r) i) as [v Hv]; [rewrite Hl; by eapply aggs_small|].
    pose proof (Hr i a0 Ea) as Hc. unfold cellAt in Hc. rewrite Hv in Hc. simpl in Hc.
    destruct (Aggregate_holds (op i) a _ v (col i r) Ht Hc) as (a' & E & Ha'). exists v, a'. split; [done|].
    split; [done|]. by rewrite fmap_app, foldl_app. }
  destruct (mapM_entries (λ e : nat * Aggregator,
    match vals r !! fst e with Some v => a ← Aggregate (snd e) [v]; Ok (fst e, a) | None => Panic end) items
    (λ i _ a', holds (op i) a' (foldl (combine (op i)) None (col i <$> g ++ [r])))) as (items' & E & Hi').
  { intros i a Hi. destruct (Hstep i a Hi) as (v & a' & Hv & Ea & Ha'). exists a'. simpl. by rewrite Hv, Ea. }
  exists items'. split; [exact E|]. intros i. specialize (Ht i). specialize (Hi' i).
  destruct (aggs !! i), (items !! i), (items' !! i); done.
Qed.

Lemma totals_fresh : totals aggs [].
Proof using aggs_fresh. intros i. destruct (aggs !! i) eqn:E; [|done]. by apply aggs_fresh. Qed.

(** A row that stands for the group [g]: aggregated columns have the aggregate,
    the others the last row's cell. *)
Definition summary (row : Row) (g : list Row) : Prop :=
  RowFields row = take keep fs ∧ ∃ cs, Scan row keep = Ok cs ∧
  ∀ i, (i < keep)%nat → match aggs !! i with
    | Some _ => ∃ c, cs !! i = Some c ∧ cellStands c (aggregateZ (op i) (col i <$> g))
    | None => ∃ r c, last g = Some r ∧ vals r !! i = Some c ∧ cs !! i = Some c
    end.

(** No aggregate of the rows is NULL. *)
Definition not_null (g : list Row) : Prop := ∀ i a, aggs !! i = Some a → is_Some (aggregateZ (op i) (col i <$> g)).

Lemma totals_aggregate items g i a :
  totals items g → aggs !! i = Some a →
  ∃ a', items !! i = Some a' ∧ holds (op i) a' (aggregateZ (op i) (col i <$> g)).
Proof using aggs_fresh.
  intros Ht Ha. specialize (Ht i). rewrite Ha in Ht. destruct (items !! i) as [a'|]; [|done]. exists a'. split; [reflexivity|].
  rewrite foldl_combine in Ht; [exact Ht|]. exact (holds_assoc _ _ _ (aggs_fresh i a Ha)).
Qed.

Lemma Reduce_summary gr g r :
  totals (AggItems gr) g → readable r → not_null (g ++ [r]) →
  ∃ gr' row, AggregateReducer_Reduce fs keep gr r = Ok gr' ∧ totals (AggItems gr') (g ++ [r]) ∧
    currentRow gr' = Some row ∧ summary row (g ++ [r]).
Proof using All.
  intros Ht Hr Hnn. unfold AggregateReducer_Reduce. pose proof Hr as [[Hscan Hlen] _]. rewrite Hscan. simpl.
  destruct (aggregateItems_totals (AggItems gr) g r Ht Hr) as (items & Ei & Hi). rewrite Ei. simpl.
  destruct (mapM_imap (aggregateResult items) (vals r)) as (res & Er & Hl & Hres).
  { intros i v Hv. unfold aggregateResult. destruct (aggs !! i) as [a|] eqn:Ea.
    - destruct (totals_aggregate items _ i a Hi Ea) as (a' & -> & Ha'). destruct (Hnn i a Ea) as [z Hz].
      apply holds_result in Ha'. rewrite Hz in Ha'. destruct (GetResult a'); [eauto|done].
    - specialize (Hi i). rewrite Ea in Hi. destruct (items !! i); [done|eauto]. }
  rewrite Er. simpl. destruct (Nat.ltb_spec (length fs) keep); [lia|].
  assert (length (take keep fs) = length (take keep res)) as Elen by (rewrite !length_take; lia).
  exists (mkAggregateReducer items (Some (virtualRow (IsBinary r) (mkVirtual (take keep fs) (take keep res))))),
    (virtualRow (IsBinary r) (mkVirtual (take keep fs) (take keep res))).
  split; [|split; [done|split; [done|]]].
  { destruct (IsBinary r); unfold NewBinaryVirtualRow, NewTextVirtualRow, newBaseVirtualRow;
      by rewrite Elen, Nat.eqb_refl. }
  split; [done|]. exists (take keep res). split.
  { simpl. unfold virtual_Scan. simpl. assert (keep = length (take keep res)) as <- by (rewrite length_take; lia).
    by rewrite Nat.eqb_refl. }
  intros i Hik. destruct (lookup_lt_is_Some_2 (vals r) i ltac:(lia)) as [v Hv].
  destruct (Hres i v Hv) as (c & Hc & Ec). rewrite lookup_take_lt by done. unfold aggregateResult in Ec.
  destruct (aggs !! i) as [a|] eqn:Ea.
  - exists c. split; [done|]. destruct (totals_aggregate items _ i a Hi Ea) as (a' & Ea' & Ha'). rewrite Ea' in Ec.
    apply holds_result in Ha'. destruct (GetResult a') as [w|]; [|done]. by injection Ec as <-.
  - specialize (Hi i). rewrite Ea in Hi. destruct (items !! i); [done|]. injection Ec as ->.
    exists r, c. rewrite last_snoc. done.
Qed.

(** The rows of a group, reduced one after the other. *)
Lemma reduceRows_summary rs : ∀ gr g,
  totals (AggItems gr) g → Forall readable rs → rs ≠ [] →
  (∀ k, (0 < k ≤ length rs)%nat → not_null (g ++ take k rs)) →
  ∃ gr' row, reduceRows (NewGroupReducer aggs fs keep) gr rs = Ok gr' ∧
    currentRow gr' = Some row ∧ summary row (g ++ rs).
Proof using All.
  induction rs as [|r rs IH]; intros gr g Ht Hr Hne Hnn; [done|]. apply Forall_cons in Hr as [Hr Hrs]. simpl.
  destruct (Reduce_summary gr g r Ht Hr) as (gr1 & row1 & E1 & Ht1 & Hc1 & Hs1).
  { apply (Hnn 1%nat). simpl. lia. }
  rewrite E1. simpl. destruct rs as [|r' rs]; [by exists gr1, row1|].
  destruct (IH gr1 (g ++ [r]) Ht1 Hrs ltac:(done)) as (gr' & row & E & Hc & Hs).
  - intros k Hk. rewrite <- app_assoc. simpl. apply (Hnn (S k)). simpl in *. lia.
  - exists gr', row. split; [done|]. split; [done|]. by rewrite <- app_assoc in Hs.
Qed.

(** NULLs never hide a value that came before. *)
Lemma not_null_take r rs k : not_null [r] → (0 < k)%nat → not_null (take k (r :: rs)).
Proof.
  intros H1 Hk i a Ha. destruct k as [|k]; [by apply Nat.lt_irrefl in Hk|]. destruct (H1 i a Ha) as [z Hz].
  unfold aggregateZ in *. simpl in *. destruct (col i r) as [m|]; [|done]. unfold combine at 1. case_match; by eexists.
Qed.
End GroupReducer.

(** ** GROUP BY over shards *)

Section FieldsOfOrdered.
Context {TL : TimeLib} {FT : FloatText} {DC : DecimalLib} {D : Type} `{Dataset D}.

Lemma getStream_fields (pa : parallelDataset D) i : pa_fields (fst (getStream pa i)) = pa_fields pa.
Proof. unfold getStream. by repeat case_match. Qed.

Lemma parallelLoop_fields turns fuel : ∀ (pa : parallelDataset D) last,
  pa_fields (fst (parallelLoop turns fuel pa last)) = pa_fields pa.
Proof.
  induction turns as [|turns IH]; intros pa last; [done|]. cbn [parallelLoop].
  set (pa0 := setSeq pa _). set (i := Z.to_nat _). pose proof (getStream_fields pa0 i) as Hg.
  destruct (getStream pa0 i) as [pa1 [s| | |]]; try done. destruct (peekable_Next fuel s) as [s' r].
  destruct (is_EOF r); [by rewrite IH|done].
Qed.

Lemma pull_fields fuel (pa : parallelDataset D) i : pa_fields (fst (pull fuel pa i)) = pa_fields pa.
Proof. unfold pull, parallel_Next. rewrite parallelLoop_fields. unfold SetNextN. by case_match. Qed.

Lemma fillQueue_fields fuel items is_ : ∀ (pa : parallelDataset D) q,
  pa_fields (fst (fst (fillQueue fuel items is_ pa q))) = pa_fields pa.
Proof.
  induction is_ as [|i rest IH]; intros pa q; [done|]. cbn [fillQueue]. pose proof (pull_fields fuel pa i) as Hp.
  destruct (pull fuel pa i) as [pa1 [row|e| |]]; simpl in Hp; [| |done|done].
  - destruct (pq_Push items q (mkRowItem row i)); [by rewrite IH|done..].
  - destruct e; try done. by rewrite IH.
Qed.

Lemma popRow_fields fuel items (pa : parallelDataset D) q :
  pa_fields (fst (fst (popRow fuel items pa q))) = pa_fields pa.
Proof.
  unfold popRow. case_match; [done|]. destruct (Pop (pq_Less items) q) as [[q1 m]| | |]; try done.
  pose proof (pull_fields fuel pa (streamIdx m)) as Hp. destruct (pull fuel pa (streamIdx m)) as [pa1 r]. simpl in Hp.
  case_match; [done|]. by case_match.
Qed.

Lemma ordered_fields fuel (or_ : orderedDataset D) :
  pa_fields (or_dataset (fst (ordered_Next fuel or_))) = pa_fields (or_dataset or_).
Proof.
  unfold ordered_Next.
  assert (∀ pa q r, (if firstRow or_
     then fillQueue fuel (or_items or_) (Z.of_nat <$> seq 0 (length (pa_streams (or_dataset or_)))) (or_dataset or_) (or_queue or_)
     else (or_dataset or_, or_queue or_, Ok tt)) = (pa, q, r) → pa_fields pa = pa_fields (or_dataset or_)) as Hf.
  { intros pa q r E. destruct (firstRow or_); [|by injection E as <-].
    pose proof (fillQueue_fields fuel (or_items or_) (Z.of_nat <$> seq 0 (length (pa_streams (or_dataset or_))))
      (or_dataset or_) (or_queue or_)) as Hfill. by rewrite E in Hfill. }
  destruct (if firstRow or_ then _ else _) as [[pa q] r]. specialize (Hf pa q r eq_refl).
  destruct r; try done. pose proof (popRow_fields fuel (or_items or_) pa q) as Hp.
  destruct (popRow fuel (or_items or_) pa q) as [[pa' q'] r']. simpl in *. congruence.
Qed.

Lemma ordered_fields_are n (or_ : orderedDataset D) : fields_are n (pa_fields (or_dataset or_)) or_.
Proof.
  exists (λ x, pa_fields (or_dataset x) = pa_fields (or_dataset or_)). split; [done|]. intros x <-.
  split; [done|]. apply ordered_fields.
Qed.
End FieldsOfOrdered.

(** In a sorted list every key has one run. *)
Section DistinctRuns.
Context (same : Row → Row → bool) (le : Row → Row → Prop) (P : Row → Prop).
Hypothesis le_refl : ∀ a, P a → le a a.
Hypothesis le_trans : ∀ a b c, P a → P b → P c → le a b → le b c → le a c.
Hypothesis same_le : ∀ a b, P a → P b → same a b = true ↔ le a b ∧ le b a.

Lemma StronglySorted_concat (gs : list (list Row)) g :
  StronglySorted le (g ++ concat gs) →
  StronglySorted le g ∧ StronglySorted le (concat gs) ∧ ∀ a b, a ∈ g → b ∈ concat gs → le a b.
Proof. intros (H1 & H2 & H3)%StronglySorted_app. split; [done|]. split; [done|]. intros. by apply H1. Qed.

(** The rows of one run have the same key. *)
Lemma run_same g : Forall P g → StronglySorted le g → Sorted (λ a b, same a b = true) g →
  ∀ a b, a ∈ g → b ∈ g → same a b = true.
Proof using All.
  intros HP Hs Hg. assert (∀ a b, a ∈ g → b ∈ g → le a b ∧ le b a) as H.
  { induction g as [|x g IH]; [intros a b Ha; inversion Ha|]. apply Forall_cons in HP as [Hx HP].
    apply StronglySorted_inv in Hs as [Hs Hx']. apply Sorted_inv in Hg as [Hg Hd].
    specialize (IH HP Hs Hg). rewrite Forall_forall in Hx', HP.
    assert (∀ b, b ∈ g → le b x) as Hback.
    { intros b Hb. destruct g as [|y g]; [inversion Hb|]. apply HdRel_inv in Hd.
      apply same_le in Hd as [_ Hyx]; [|done|apply HP; by left].
      apply (le_trans b y x); [by apply HP|apply HP; by left|done| |done]. apply (IH b y); [done|by left]. }
    intros a b [-> |Ha]%elem_of_cons [-> |Hb]%elem_of_cons; auto. }
  intros a b Ha Hb. rewrite Forall_forall in HP. apply same_le; auto.
Qed.

Lemma runs_distinct gs : ∀ rs,
  maximal_runs same rs gs → StronglySorted le rs → Forall P rs →
  ∀ i j g h a b, gs !! i = Some g → gs !! j = Some h → a ∈ g → b ∈ h → same a b = true ↔ i = j.
Proof using All.
  assert (∀ rs, maximal_runs same rs gs → StronglySorted le rs → Forall P rs →
    ∀ i j g h a b, gs !! i = Some g → gs !! j = Some h → (i < j)%nat → a ∈ g → b ∈ h → ¬ le b a) as Hlt.
  { induction gs as [|g0 gs IH]; intros rs (<- & Hg & Hs) Hso HP i j g h a b Hi Hj Hij Ha Hb; [done|].
    simpl in Hso, HP. apply StronglySorted_concat in Hso as (H1 & H2 & H3). apply Forall_app in HP as [HP1 HP2].
    apply Forall_cons in Hg as [[Hne Hg0] Hg]. apply Sorted_inv in Hs as [Hs Hd]. destruct j as [|j]; [lia|].
    simpl in Hj. destruct i as [|i]; [|by apply (IH (concat gs) ltac:(by split) H2 HP2 i j g h a b Hi Hj ltac:(lia) Ha Hb)].
    injection Hi as <-. destruct gs as [|h0 gs]; [done|]. apply HdRel_inv in Hd as (x & y & Hx & Hy & Hxy).
    rewrite Forall_forall in HP1, HP2. intros Hba.
    assert (x ∈ g0) as Hxin by (by apply last_Some_elem_of).
    assert (y ∈ concat (h0 :: gs)) as Hyin by (simpl; apply elem_of_app; left; by apply head_Some_elem_of).
    assert (b ∈ concat (h0 :: gs)) as Hbin.
    { apply list_elem_of_In, in_concat. exists h. split; apply list_elem_of_In; [by eapply list_elem_of_lookup_2|done]. }
    assert (same x y = true); [|congruence]. apply same_le; [auto..|]. split; [by apply H3|].
    assert (le y b) as Hyb.
    { destruct h0 as [|y0 h0]; [done|]. injection Hy as ->. simpl in H2, Hbin. apply StronglySorted_inv in H2 as [_ H2].
      apply elem_of_cons in Hbin as [-> |Hbin]; [apply le_refl; by apply HP2|]. rewrite Forall_forall in H2. by apply H2. }
    assert (le a x) as Hax.
    { apply last_Some in Hx as [l ->]. apply elem_of_app in Ha as [Ha|Ha%list_elem_of_singleton]; [|subst; auto].
      apply StronglySorted_app in H1 as (H1 & _). apply H1; [done|by left]. }
    apply (le_trans y b x); auto. apply (le_trans b a x); auto. }
  intros rs Hr Hso HP i j g h a b Hi Hj Ha Hb.
  assert (∀ k l c, gs !! k = Some l → c ∈ l → P c) as HPc.
  { intros k l c Hk Hc. rewrite Forall_forall in HP. apply HP. destruct Hr as (<- & _).
    apply list_elem_of_In, in_concat. exists l. split; apply list_elem_of_In; [by eapply list_elem_of_lookup_2|done]. }
  rewrite same_le by eauto. split.
  - intros [Hab Hba]. destruct (Nat.lt_total i j) as [Hij|[->|Hji]]; [|done|]; exfalso.
    + by apply (Hlt rs Hr Hso HP i j g h a b).
    + by apply (Hlt rs Hr Hso HP j i h g b a).
  - intros <-. assert (h = g) as -> by congruence. apply same_le; eauto.
    destruct Hr as (<- & Hg & _). pose proof (Forall_lookup_1 _ _ _ _ Hg Hi) as [_ Hgs].
    apply (run_same g); try done; [apply Forall_forall; eauto|].
    revert Hso. rewrite <- (take_drop_middle _ _ _ Hi), concat_app. simpl.
    intros (_ & _ & (_ & H1 & _)%StronglySorted_app)%StronglySorted_app. done.
Qed.
End DistinctRuns.

(** The positions of the grouping columns. *)
Definition keyIndexes (fs : list Field) (items : list OrderByItem) : outcome (list nat) :=
  mapM (λ key, match fieldIndex fs (Column key) with
               | Some i => Ok i
               | None => Err (NewError "cannot find group field")
               end) items.

Lemma keyIndexes_valid fs items indexes : keyIndexes fs items = Ok indexes → Forall (λ i, (i < length fs)%nat) indexes.
Proof.
  intros Hk%mapM_Ok. induction Hk as [|key i items indexes Hi _ IH]; [constructor|]. constructor; [|done].
  unfold fieldIndex in Hi. destruct (list_find _ fs) as [[j f]|] eqn:E; [|done]. simpl in Hi. injection Hi as <-.
  apply list_find_Some in E as [E _]. by eapply lookup_lt_Some.
Qed.

Section GroupBy.
Context {TL : TimeLib} {FT : FloatText} {DC : DecimalLib} {DL : DecimalLaws DC} {D : Type} `{Dataset D}.
Context (items : list OrderByItem) (fs : list Field) (d : D) (ds : list D) (rss : list (list Row)).
Context (vals : Row → list cell) (indexes : list nat) (keep : nat).
Context (aggs : gmap nat Aggregator) (op : nat → Z → Z → Z) (col : nat → Row → option Z).

(** Each shard yields its rows, sorted by the grouping columns. *)
Hypothesis shards_yield : Forall2 yields (d :: ds) rss.
Hypothesis shards_many : Z.of_nat (length rss) < 2 ^ 31.
Hypothesis shards_sorted : Forall (StronglySorted (λ x y, rowLeb items x y = true)) rss.
Hypothesis shards_rows : concat rss ≠ [].
(** The rows can be read, and no shard's aggregate is NULL. *)
Hypothesis rows_sortable : Forall (Forall (sortable items)) rss.
Hypothesis rows_readable : ∀ r, r ∈ concat rss → readable fs vals aggs col r ∧ not_null aggs op col [r].
(** Equal keys are the same values. *)
Hypothesis keys_agree : ∀ a b, a ∈ concat rss → b ∈ concat rss →
  sameKey indexes vals a b = true ↔ rowLeb items a b = true ∧ rowLeb items b a = true.
Hypothesis keys_found : keyIndexes fs items = Ok indexes.
Hypothesis keep_small : (keep ≤ length fs)%nat.
Hypothesis aggs_small : ∀ i a, aggs !! i = Some a → (i < length fs)%nat.
Hypothesis aggs_fresh : ∀ i a, aggs !! i = Some a → holds (op i) a None.

Lemma groups_reduced groups :
  Forall (λ g, g ≠ []) groups → Forall (λ r, readable fs vals aggs col r ∧ not_null aggs op col [r]) (concat groups) →
  ∃ out, Forall2 (reduced (NewGroupReducer aggs fs keep)) groups out ∧ Forall2 (summary fs vals keep aggs op col) out groups.
Proof using All.
  induction 1 as [|g groups Hg _ IH]; [by exists []|]. intros [Hg' Hgs]%Forall_app. destruct (IH Hgs) as (out & Ho & Hs).
  destruct g as [|r rs]; [done|].
  destruct (reduceRows_summary fs vals keep aggs op col keep_small aggs_small aggs_fresh (r :: rs)
    (mkAggregateReducer aggs None) []) as (gr & row & E & Hc & Hsum).
  - by apply totals_fresh.
  - eapply Forall_impl; [exact Hg'|]. by intros x [].
  - done.
  - intros k Hk. apply Forall_cons in Hg' as [[_ Hnn] _]. simpl app. apply not_null_take; [done|lia].
  - exists (row :: out). split; constructor; try done. exists gr. split; [exact E|]. simpl. by rewrite Hc.
Qed.

End GroupBy.

(** C21: the combinators of a plan.  Fused datasets yield their rows one after
    the other, a filter keeps the accepted ones and a mapping yields the
    images, whatever the datasets under them, as long as those can be closed. *)
Theorem pipeline_yields {D} `{Dataset D} fields (d : D) ds rss predicate p g f out :
  (∀ x : D, ∃ x', Close x = (x', Ok tt)) → Forall2 yields (d :: ds) rss →
  (∀ r, r ∈ concat rss → predicate r = Ok (p r)) →
  Forall2 (λ r r', f r = Ok r') (List.filter p (concat rss)) out →
  yields (mkTransform (mkFilter (mkFuse fields (Some d) (Ok <$> ds)) (Some predicate)) g (Some f)) out.
Proof.
  intros Hclose Hy Hp Hf. apply Forall2_cons_inv_l in Hy as (rs & rss' & Hd & Hds & ->).
  eapply transform_yields; [|exact Hf]. apply filter_yields; [|done].
  apply fuse_yields; [done|done|]. clear -Hds. induction Hds as [|x rs ds rss Hx _ IH]; constructor; eauto.
Qed.

Module DatasetExamples.
Import NoDates NoFloats ExactDecimal.

(** Rows of a key and a sum. *)
Definition columns : list Field := [NewField "k" FieldTypeLongLong; NewField "s" FieldTypeLongLong].
Definition rowOf (k s : Z) : Row := virtualRow false (mkVirtual columns [Some (int64Value k); Some (int64Value s)]).
Definition byKey : list OrderByItem := [mkOrderBy "k" false].
Definition shard (rs : list Row) : VirtualDataset := mkVirtualDataset columns rs.
Definition answers : list (list Row) := [[rowOf 1 10; rowOf 3 30]; []; [rowOf 1 5; rowOf 2 7]].

Lemma rowOf_sortable k s : inS 64 k → sortable byKey (rowOf k s).
Proof.
  intros Hk. exists (λ _, Some k). intros item ->%list_elem_of_singleton. exists (Some (int64Value k)). split; [done|].
  right. simpl. unfold inS in Hk. destruct (Z.leb_spec (- 2 ^ 63) k), (Z.ltb_spec k (2 ^ 63)); simpl; done || lia.
Qed.

Lemma answers_yield : Forall2 yields [shard [rowOf 1 10; rowOf 3 30]; shard []; shard [rowOf 1 5; rowOf 2 7]] answers.
Proof. repeat constructor; apply virtual_yields. Qed.

Lemma answers_sortable : Forall (Forall (sortable byKey)) answers.
Proof. repeat constructor; by apply rowOf_sortable. Qed.

Lemma answers_sorted : Forall (StronglySorted (λ x y, rowLeb byKey x y = true)) answers.
Proof. by repeat constructor; vm_compute. Qed.


Definition cellsOf (r : Row) : list cell := match Scan r 2 with Ok cs => cs | _ => [] end.
Definition sumOf (i : nat) (r : Row) : option Z := cellAt cellsOf r i ≫= integer.

Lemma rowOf_readable k s : inS 64 s →
  readable columns cellsOf {[1%nat := AddAggregator None]} sumOf (rowOf k s) ∧
  not_null {[1%nat := AddAggregator None]} (λ _, Z.add) sumOf [rowOf k s].
Proof.
  intros Hs. assert (sumOf 1 (rowOf k s) = Some s) as E.
  { unfold inS in Hs. unfold sumOf. simpl. destruct (Z.leb_spec (- 2 ^ 63) s), (Z.ltb_spec s (2 ^ 63)); simpl; done || lia. }
  split; [split; [done|]|]; intros i a [<- <-]%lookup_singleton_Some.
  - rewrite E. simpl. right. exact E.
  - simpl. rewrite E. by eexists.
Qed.


Lemma pipeline_yields_witness :
  yields (mkTransform (mkFilter (mkFuse columns (Some (shard [rowOf 1 10; rowOf 3 30])) (Ok <$> [shard [rowOf 1 5]]))
    (Some (λ _, Ok true))) None (Some Ok)) [rowOf 1 10; rowOf 3 30; rowOf 1 5].
Proof.
  apply (pipeline_yields columns (shard [rowOf 1 10; rowOf 3 30]) [shard [rowOf 1 5]]
    [[rowOf 1 10; rowOf 3 30]; [rowOf 1 5]] (λ _, Ok true) (λ _, true) None Ok).
  - intros x. by exists x.
  - repeat constructor; apply virtual_yields.
  - done.
  - repeat constructor.
Defined.

(** A dataset that follows a script: rows and errors. *)
Definition script : Type := list (outcome Row).

#[local] Instance script_Dataset : Dataset script := {|
  Fields _ := Ok columns;
  Next _ d := match d with [] => ([], Err EOF) | r :: d => (d, r) end;
  Close d := (d, Ok tt);
|}.

Definition sums (d : script) : GroupDataset script AggregateReducer :=
  mkGroup d byKey None (NewGroupReducer {[1%nat := AddAggregator None]} columns 2) None false.

(** A read error in the middle of a group can be lost.  The goroutine that
    reads sends the error on one channel and then closes the other; when both
    are ready the receiver may see the closed one first, and the partial group
    is returned as if it were complete.  An empty dataset gives a nil row. *)
Theorem group_error_lost e :
  let d := sums [Ok (rowOf 1 10); Ok (rowOf 1 5); Err e] in
  errors_Is e EOF = false →
  snd (group_Next false 4 d) = Err e ∧
  (∃ row, snd (group_Next true 4 d) = Ok row ∧ Scan row 2 = Ok [Some (int64Value 1); Some (decimalValue (mkDecimal 10 0))]) ∧
  snd (group_Next false 4 (sums [])) = Panic.
Proof.
  intros d He. assert (consumeUntilDifferent 4 4 [0%nat] d [] = (setBuf d [] (Some (rowOf 1 5)) false, [rowOf 1 10], Err e)) as E.
  { unfold d. simpl. by rewrite He. }
  unfold group_Next. change (group_eof d) with false. change (wrap (getKeyIndexes d)) with (Ok [0%nat]). cbv iota. rewrite E.
  split; [done|]. split; [|done]. eexists. split; [reflexivity|]. reflexivity.
Qed.

Lemma group_error_lost_witness :
  snd (group_Next false 4 (sums [Ok (rowOf 1 10); Ok (rowOf 1 5); Err (NewError "broken pipe")])) = Err (NewError "broken pipe").
Proof. exact (proj1 (group_error_lost (NewError "broken pipe") eq_refl)). Defined.

(** A builder with one generator passes a nil one beside it, which is refused. *)
Lemma Build_single_fails {D} `{Dataset D} (x : D) fs : Fields x = Ok fs → Build [Ok x] = Err (NewError "nil dataset detected").
Proof. intros E. unfold Build, Parallel. simpl. by rewrite E. Qed.

(** A group whose first answer is NULL cannot be aggregated. *)
Lemma null_aggregate_fails :
  snd (group_Next false 4 (sums [Ok (virtualRow false (mkVirtual columns [Some (int64Value 1); None]))]))
  = Err (NewError "can not aggregate value").
Proof. vm_compute. reflexivity. Qed.
End DatasetExamples.
