(* ===== verification/Sequence.v ===== *)
(** * Sequences: [pkg/proto/sequence.go], [pkg/sequence/sequence.go]

    The registry of generators of identifiers by tenant, schema and name, and
    the part of [runtime.Runtime] and [proto.Tx] the generators use.  A
    sequence is a Go pointer, a value of an abstract type of references; the
    state behind the pointers is the world [W] that building and starting a
    sequence change. *)
From S2P Require Import Prelude GoStd Value Row Dataset.

Definition ErrorNotSequenceType : error := NewError "sequence type not found".
Definition ErrorNotFoundSequence : error := NewError "sequence instance not found".

Definition BuildAutoIncrementName (table : string) : string := ("__arana_incr_" ++ table)%string.

Record SequenceConfig := mkConf { Name : string; Type_ : string; Option : gmap string string }.

(** ** The manager *)

Section Manager.
Context {W T : Type}.

Record schemaBucket := mkSchemaBucket { sequenceRegistry : gmap string T }.
Record tenantBucket := mkTenantBucket { schemas : gmap string schemaBucket }.
Record sequenceManager := mkManager { tenants : gmap string tenantBucket }.

Definition newSequenceManager : sequenceManager := mkManager ∅.

Definition getSchema (t : tenantBucket) (schema : string) : option schemaBucket := schemas t !! schema.

(** The tenant's bucket, with the schema in it, and the schema's bucket. *)
Definition getOrCreate (t : tenantBucket) (schema : string) : tenantBucket * schemaBucket :=
  match schemas t !! schema with
  | Some b => (t, b)
  | None => let b := mkSchemaBucket ∅ in (mkTenantBucket (<[schema := b]> (schemas t)), b)
  end.

Definition getSequence (b : schemaBucket) (name : string) : outcome T :=
  match sequenceRegistry b !! name with
  | Some s => Ok s
  | None => Err ErrorNotFoundSequence
  end.

Definition createIfAbsent (b : schemaBucket) (name : string) (f : W → W * outcome T) (w : W) : schemaBucket * W * outcome unit :=
  match sequenceRegistry b !! name with
  | Some _ => (b, w, Ok tt)
  | None =>
      let '(w, r) := f w in
      match r with
      | Ok s => (mkSchemaBucket (<[name := s]> (sequenceRegistry b)), w, Ok tt)
      | failed => (b, w, _ ← failed; Ok tt)
      end
  end.

(** [proto.RegisterSequence] and [proto.GetSequenceSupplier]. *)
Abbreviation SequenceSupplier := (W → W * T).

Definition RegisterSequence (suppliers : gmap string SequenceSupplier) (name : string) (supplier : SequenceSupplier) : gmap string SequenceSupplier :=
  <[name := supplier]> suppliers.

Definition GetSequenceSupplier (suppliers : gmap string SequenceSupplier) (name : string) : option SequenceSupplier :=
  suppliers !! name.

Context (suppliers : gmap string SequenceSupplier).
(** [runtime.Load(rcontext.Tenant(ctx), schema)] for the context of the call. *)
Context (Load : string → W → outcome unit).
(** [sequence.Start(ctx, conf)]. *)
Context (Start : T → SequenceConfig → W → W * outcome unit).

(** The function [CreateSequence] passes to [createIfAbsent]. *)
Definition build (builder : SequenceSupplier) (schema : string) (conf : SequenceConfig) (w : W) : W * outcome T :=
  match Load schema w with
  | Ok _ =>
      let '(w, s) := builder w in
      let '(w, r) := Start s conf w in
      (w, _ ← r; Ok s)
  | failed => (w, _ ← failed; Panic)
  end.

(** The buckets are shared pointers: what happens to a schema's bucket is seen
    through the manager. *)
Definition putBucket (m : sequenceManager) (tenant schema : string) (tb : tenantBucket) (sb : schemaBucket) : sequenceManager :=
  mkManager (<[tenant := mkTenantBucket (<[schema := sb]> (schemas tb))]> (tenants m)).

Definition CreateSequence (m : sequenceManager) (tenant schema : string) (conf : SequenceConfig) (w : W) : sequenceManager * W * outcome T :=
  let tb := default (mkTenantBucket ∅) (tenants m !! tenant) in
  let '(tb, sb) := getOrCreate tb schema in
  let m := putBucket m tenant schema tb sb in
  match getSequence sb (Name conf) with
  | Ok val => (m, w, Ok val)
  | _ =>
      match GetSequenceSupplier suppliers (Type_ conf) with
      | None => (m, w, Err ErrorNotSequenceType)
      | Some builder =>
          let '(sb, w, r) := createIfAbsent sb (Name conf) (build builder schema conf) w in
          let m := putBucket m tenant schema tb sb in
          (m, w, _ ← r; getSequence sb (Name conf))
      end
  end.

Definition GetSequence (m : sequenceManager) (tenant schema name : string) : outcome T :=
  match tenants m !! tenant with
  | None => Err ErrorNotFoundSequence
  | Some tb =>
      match getSchema tb schema with
      | None => Err ErrorNotFoundSequence
      | Some sb => getSequence sb name
      end
  end.

(** ** What the manager promises: one registry *)

(** The sequence registered under a name. *)
Definition registered (m : sequenceManager) (tenant schema name : string) : option T :=
  tb ← tenants m !! tenant; sb ← schemas tb !! schema; sequenceRegistry sb !! name.

Lemma registered_putBucket m tenant schema tb sb t s n :
  registered (putBucket m tenant schema tb sb) t s n =
  if decide (t = tenant)
  then if decide (s = schema) then sequenceRegistry sb !! n else sb ← schemas tb !! s; sequenceRegistry sb !! n
  else registered m t s n.
Proof.
  unfold registered, putBucket. simpl. destruct (decide (t = tenant)) as [->|Ht].
  - rewrite lookup_insert_eq. simpl. destruct (decide (s = schema)) as [->|Hs].
    + by rewrite lookup_insert_eq.
    + by rewrite lookup_insert_ne.
  - by rewrite lookup_insert_ne.
Qed.

(** The bucket [CreateSequence] works on holds what was registered. *)
Lemma getOrCreate_registered m tenant schema tb sb :
  getOrCreate (default (mkTenantBucket ∅) (tenants m !! tenant)) schema = (tb, sb) →
  (∀ n, sequenceRegistry sb !! n = registered m tenant schema n) ∧
  (∀ s n, s ≠ schema → (sb ← schemas tb !! s; sequenceRegistry sb !! n) = registered m tenant s n).
Proof.
  unfold getOrCreate, registered.
  destruct (tenants m !! tenant) as [tb0|]; simpl; [|rewrite lookup_empty].
  - destruct (schemas tb0 !! schema); intros [= <- <-]; simpl; (split; [done|]); [done|].
    intros s n Hs. by rewrite lookup_insert_ne.
  - intros [= <- <-]. simpl. split; [done|]. intros s n Hs. by rewrite lookup_insert_ne.
Qed.

Lemma registered_putBucket_twice m tenant schema tb sb sb' t s n :
  registered (putBucket (putBucket m tenant schema tb sb) tenant schema tb sb') t s n =
  registered (putBucket m tenant schema tb sb') t s n.
Proof. rewrite !registered_putBucket. by repeat case_decide. Qed.

(** A bucket that differs at one name leaves the others as they were. *)
Lemma registered_others m tenant schema name tb sb sb' t s n :
  (∀ n, sequenceRegistry sb !! n = registered m tenant schema n) →
  (∀ s n, s ≠ schema → (sb ← schemas tb !! s; sequenceRegistry sb !! n) = registered m tenant s n) →
  (∀ n, n ≠ name → sequenceRegistry sb' !! n = sequenceRegistry sb !! n) →
  (t, s, n) ≠ (tenant, schema, name) →
  registered (putBucket m tenant schema tb sb') t s n = registered m t s n.
Proof.
  intros Hsb Htb Hsb' Hne. rewrite registered_putBucket. repeat case_decide; subst; auto.
  rewrite Hsb', Hsb by congruence. done.
Qed.

(** The contract of [CreateSequence] in terms of the registry. *)
Inductive creates (m : sequenceManager) (tenant schema : string) (conf : SequenceConfig) (w : W) : option T → W → outcome T → Prop :=
| creates_known s :
    registered m tenant schema (Name conf) = Some s → creates m tenant schema conf w (Some s) w (Ok s)
| creates_unknown_type :
    registered m tenant schema (Name conf) = None → suppliers !! Type_ conf = None →
    creates m tenant schema conf w None w (Err ErrorNotSequenceType)
| creates_new builder w' s :
    registered m tenant schema (Name conf) = None → suppliers !! Type_ conf = Some builder →
    build builder schema conf w = (w', Ok s) → creates m tenant schema conf w (Some s) w' (Ok s)
| creates_failed builder w' r :
    registered m tenant schema (Name conf) = None → suppliers !! Type_ conf = Some builder →
    build builder schema conf w = (w', r) → is_ok r = false → creates m tenant schema conf w None w' r.

Lemma GetSequence_registered m tenant schema name :
  GetSequence m tenant schema name =
  match registered m tenant schema name with Some s => Ok s | None => Err ErrorNotFoundSequence end.
Proof.
  unfold GetSequence, registered, getSchema, getSequence.
  destruct (tenants m !! tenant) as [tb|]; [|done]. simpl. by destruct (schemas tb !! schema).
Qed.

(** C23: the sequence manager is one registry.  [CreateSequence] returns the
    sequence already registered under the name without building another;
    otherwise it builds and starts one, registers it when both succeed, and
    reports an unknown type or the error without registering anything.  No
    other name is touched, and [GetSequence] then answers the registered
    sequence, or that there is none. *)
Theorem sequence_manager_refines m tenant schema conf w m' w' r :
  CreateSequence m tenant schema conf w = (m', w', r) →
  (∃ o, creates m tenant schema conf w o w' r ∧ registered m' tenant schema (Name conf) = o) ∧
  (∀ t s n, (t, s, n) ≠ (tenant, schema, Name conf) → registered m' t s n = registered m t s n) ∧
  (∀ t s n, GetSequence m' t s n =
     match registered m' t s n with Some q => Ok q | None => Err ErrorNotFoundSequence end).
Proof.
  unfold CreateSequence. destruct (getOrCreate _ schema) as [tb sb] eqn:E.
  apply getOrCreate_registered in E as [Hsb Htb]. unfold getSequence at 1, createIfAbsent, GetSequenceSupplier.
  rewrite Hsb. intros H. split; [|split; [|intros; apply GetSequence_registered]].
  - destruct (registered m tenant schema (Name conf)) as [q|] eqn:Ereg.
    { injection H as <- <- <-. exists (Some q). split; [by constructor|].
      by rewrite registered_putBucket, !decide_True, Hsb. }
    destruct (suppliers !! Type_ conf) as [builder|] eqn:Es; cycle 1.
    { injection H as <- <- <-. exists None. split; [by constructor|].
      by rewrite registered_putBucket, !decide_True, Hsb. }
    destruct (build builder schema conf w) as [w1 [q|e| |]] eqn:Eb; injection H as <- <- <-;
      (eexists; split; [|rewrite registered_putBucket, !decide_True by done; reflexivity]); simpl.
    + rewrite lookup_insert_eq. unfold getSequence. simpl. rewrite lookup_insert_eq. by econstructor.
    + rewrite Hsb, Ereg. by econstructor.
    + rewrite Hsb, Ereg. by econstructor.
    + rewrite Hsb, Ereg. by econstructor.
  - intros t s n Hne.
    destruct (registered m tenant schema (Name conf)) as [q|] eqn:Ereg; [|destruct (suppliers !! Type_ conf) as [builder|]];
      [..|injection H as <- <- <-]; [injection H as <- <- <-|destruct (build builder schema conf w) as [w1 [q|e| |]];
      injection H as <- <- <-|]; rewrite ?registered_putBucket_twice; apply (registered_others m tenant schema (Name conf) tb sb);
      try done; intros n' Hn'; simpl; by rewrite ?lookup_insert_ne.
Qed.
End Manager.
Arguments schemaBucket : clear implicits.
Arguments tenantBucket : clear implicits.
Arguments sequenceManager : clear implicits.

(** ** Transactions, as the generators use them

    [DB] is the state of the databases behind a [runtime.Runtime], [T] a
    [proto.Tx] and [D] the datasets its queries answer.  The second outcome of
    [Query] is that of [Result.Dataset]. *)
Class Runtime (DB T D : Type) := {
  Begin : DB → DB * outcome T;
  Query : string → list ProtoValue → T → T * outcome (outcome D);
  Exec : string → list ProtoValue → T → T * outcome unit;
  Commit : DB → T → DB * T * outcome unit;
  Rollback : DB → T → DB;
}.

(** What databases promise: a transaction starts from the committed data,
    committing makes its view the data, and rolling back changes nothing.  [V]
    is the content of the table the generator uses. *)
Class RuntimeLaws (DB T D V : Type) `{Runtime DB T D} := {
  data : DB → V;
  view : T → V;
  Begin_data db db' r : Begin db = (db', r) → data db' = data db ∧ ∀ tx, r = Ok tx → view tx = data db;
  Commit_data db tx db' tx' : Commit db tx = (db', tx', Ok tt) → data db' = view tx;
  Rollback_data db tx : data (Rollback db tx) = data db;
}.

Section Transaction.
Context {DB T D : Type} `{Runtime DB T D}.

(** [tx, err := rt.Begin(ctx)], [return err] on an error, [defer
    tx.Rollback(ctx)] and then the rest of the function. *)
Definition inTx {S A} (db : DB) (s : S) (body : DB → T → S → DB * T * S * outcome A) : DB * S * outcome A :=
  let '(db, r) := Begin db in
  match r with
  | Ok tx => let '(db, tx, s, r) := body db tx s in (Rollback db tx, s, r)
  | failed => (db, s, _ ← failed; Panic)
  end.

(** [tx.Exec] followed by [tx.Commit], each error returned. *)
Definition execCommit {S} (db : DB) (tx : T) (s : S) (sql : string) (args : list ProtoValue) : DB * T * S * outcome unit :=
  let '(tx, r) := Exec sql args tx in
  match r with
  | Ok _ => let '(db, tx, r) := Commit db tx in (db, tx, s, r)
  | failed => (db, tx, s, failed)
  end.

(** [tx.Query], then [Dataset], then the first [Next]. *)
Definition queryRow `{Dataset D} (fuel : nat) (tx : T) (sql : string) (args : list ProtoValue) : T * outcome (outcome Row) :=
  let '(tx, rs) := Query sql args tx in
  (tx, ds ← rs; ds ← ds; Ok (Next fuel ds).2).
End Transaction.

(** The first result of [Value.Int64] when its error is ignored. *)
Fixpoint Int64_value {TL : TimeLib} {FT : FloatText} {DC : DecimalLib} (v : ProtoValue) : Z :=
  match v with
  | stringValue s => ParseInt_value (beforeDot s)
  | typedValue v _ => Int64_value v
  | _ => match Int64 v with Ok i => i | _ => 0 end
  end.

Module SequenceExamples.

(** Sequences are numbers handed out one after the other; a sequence without
    a step does not start. *)
Definition suppliers : gmap string (nat → nat * nat) := {["group" := λ w, (S w, w)]}.

Definition Start (s : nat) (conf : SequenceConfig) (w : nat) : nat * outcome unit :=
  (w, match Option conf !! "step" with Some _ => Ok tt | None => Err (NewError "no step") end).

Definition conf : SequenceConfig := mkConf "__arana_incr_student" "group" {["step" := "100"]}.

Lemma sequence_manager_refines_witness :
  let '(m, w, r) := CreateSequence suppliers (λ _ _, Ok tt) Start newSequenceManager "fake" "employees" conf 0%nat in
  r = Ok 0%nat ∧ GetSequence m "fake" "employees" "__arana_incr_student" = Ok 0%nat.
Proof.
  destruct (CreateSequence suppliers (λ _ _, Ok tt) Start newSequenceManager "fake" "employees" conf 0%nat) as [[m w] r] eqn:E.
  pose proof (sequence_manager_refines suppliers (λ _ _, Ok tt) Start _ _ _ _ _ _ _ _ E) as (_ & _ & Hget).
  rewrite Hget. vm_compute in E. injection E as <- <- <-. done.
Defined.
End SequenceExamples.
