(* ===== verification/GroupSequence.v ===== *)
(** * Group sequences: [pkg/sequence/group/group.go]

    Every node reserves a group of identifiers in a table of the database and
    then hands them out from memory.  The mutex of a sequence makes its methods
    atomic, and the row lock of [SELECT ... FOR UPDATE] does so for the
    transactions of different nodes; their interleaving is the order of the
    calls of [Acquire]. *)
From S2P Require Import Prelude GoStd Value Row Dataset Sequence.

Definition _stepKey : string := "step".
Definition _startSequence : Z := 1.
Definition _defaultGroupStep : Z := 100.

Definition _initGroupSequenceTableSql : string := "
	CREATE TABLE IF NOT EXISTS __arana_group_sequence (
		id          int AUTO_INCREMENT COMMENT 'primary key',
		seq_val     bigint COMMENT 'the current group start value',
		step        int COMMENT 'the step of the group',
		table_name  varchar(255) NOT NULL COMMENT 'arana logic table name',
		renew_time  datetime NOT NULL COMMENT 'node renew time',
		PRIMARY KEY(id),
		UNIQUE KEY(table_name)
	) ENGINE = InnoDB;
	".
Definition _initGroupSequence : string :=
  "INSERT INTO __arana_group_sequence(seq_val, step, table_name, renew_time) VALUE (?, ?, ?, now())".
Definition _selectNextGroupWithXLock : string :=
  "SELECT seq_val FROM __arana_group_sequence WHERE table_name = ? FOR UPDATE".
Definition _updateNextGroup : string :=
  "UPDATE __arana_group_sequence set seq_val = ?, renew_time = now() WHERE table_name = ?".

Record groupSequence := mkGroupSequence {
  tableName : string;
  step : Z;
  currentGroupMaxVal : Z;
  currentVal : Z;
}.

Definition setGroup (seq : groupSequence) (start : Z) : groupSequence :=
  mkGroupSequence (tableName seq) (step seq) (i64 (i64 (start + step seq) - 1)) start.

Definition CurrentVal (seq : groupSequence) : Z := currentVal seq.

Definition GetSequenceConfig (seq : groupSequence) : SequenceConfig :=
  mkConf (tableName seq) "" {[_stepKey := FormatInt (step seq)]}.

Definition initStep (seq : groupSequence) (conf : SequenceConfig) : outcome groupSequence :=
  step ← match Option conf !! _stepKey with
         | Some stepValue => ParseInt stepValue
         | None => Ok _defaultGroupStep
         end;
  Ok (mkGroupSequence (tableName seq) step (currentGroupMaxVal seq) (currentVal seq)).

(** [(last/step+1)*step + 1] in [int64]; a step of zero panics. *)
Definition nextGroup (last step : Z) : outcome Z :=
  if step =? 0 then Panic
  else Ok (i64 (i64 (i64 (i64 (Z.quot last step) + 1) * step) + 1)).

Section GroupSequence.
Context {DB T D : Type} `{Runtime DB T D} `{Dataset D} {TL : TimeLib} {FT : FloatText} {DC : DecimalLib}.

(** [finishInitTable] is the flag of the package. *)
Definition initTable (finishInitTable : bool) (db : DB) : DB * bool * outcome unit :=
  if finishInitTable then (db, true, Ok tt)
  else
    let '(db, _, r) := inTx db tt (λ db tx s, execCommit db tx s _initGroupSequenceTableSql []) in
    (db, is_ok r, r).

Definition Start (seq : groupSequence) (conf : SequenceConfig) (finishInitTable : bool) (db : DB) : DB * bool * outcome groupSequence :=
  let '(db, finished, r) := initTable finishInitTable db in
  (db, finished,
   _ ← r;
   seq ← initStep seq conf;
   Ok (mkGroupSequence (Name conf) (step seq) (currentGroupMaxVal seq) (currentVal seq))).

(** The statements of [acquireNextGroup] inside the transaction.  The second
    [Next] only drains the connection. *)
Definition nextGroupTx (fuel : nat) (db : DB) (tx : T) (seq : groupSequence) : DB * T * groupSequence * outcome unit :=
  let name := stringValue (tableName seq) in
  let '(tx, rs) := queryRow fuel tx _selectNextGroupWithXLock [name] in
  match rs with
  | Ok row =>
      if is_EOF row then
        execCommit db tx (setGroup seq _startSequence) _initGroupSequence
          [int64Value _startSequence; int64Value (step seq); name]
      else
        match row ← row; Scan row 1 with
        | Ok (Some v :: _) =>
            match nextGroup (Int64_value v) (step seq) with
            | Ok start => execCommit db tx (setGroup seq start) _updateNextGroup [int64Value start; name]
            | failed => (db, tx, seq, _ ← failed; Panic)
            end
        | Ok (None :: _) => (db, tx, seq, Ok tt)
        | Ok [] => (db, tx, seq, Panic)
        | failed => (db, tx, seq, _ ← failed; Panic)
        end
  | failed => (db, tx, seq, _ ← failed; Panic)
  end.

Definition acquireNextGroup (fuel : nat) (db : DB) (seq : groupSequence) : DB * groupSequence * outcome unit :=
  inTx db seq (nextGroupTx fuel).

(** [Load] is the outcome of [runtime.Load] for the tenant and the schema of
    the context. *)
Definition Acquire (fuel : nat) (Load : outcome unit) (db : DB) (seq : groupSequence) : DB * groupSequence * outcome Z :=
  if currentVal seq >=? currentGroupMaxVal seq then
    match Load with
    | Ok _ =>
        let '(db, seq, r) := acquireNextGroup fuel db seq in
        (db, seq, _ ← r; Ok (currentVal seq))
    | failed => (db, seq, _ ← failed; Panic)
    end
  else
    let seq := mkGroupSequence (tableName seq) (step seq) (currentGroupMaxVal seq) (i64 (currentVal seq + 1)) in
    (db, seq, Ok (currentVal seq)).
End GroupSequence.

(** ** Uniqueness *)

(** The next group starts above the last one, and stays aligned to the step. *)
Lemma nextGroup_spec m k :
  1 ≤ k → 0 ≤ m → m * k + 1 + 2 * k < 2 ^ 63 →
  ∃ m', 0 ≤ m' ∧ nextGroup (m * k + 1) k = Ok (m' * k + 1) ∧ m * k + 1 + k ≤ m' * k + 1 ≤ m * k + 1 + k + 1.
Proof.
  intros Hk Hm Hb. unfold nextGroup. rewrite (proj2 (Z.eqb_neq k 0)) by lia.
  rewrite Z.quot_div_nonneg by nia.
  assert ((m * k + 1) / k = m + 1 / k) as Hq by (rewrite Z.add_comm, Z.div_add by lia; lia).
  assert (0 ≤ 1 / k ≤ 1 ∧ (2 ≤ k → 1 / k = 0)) as [Hd Hd0].
  { split; [split; [apply Z.div_pos; lia|apply Z.div_le_upper_bound; lia]|]. intros. by apply Z.div_small; lia. }
  exists (m + 1 / k + 1). rewrite Hq.
  assert (k * (1 / k) ≤ 1) by (apply Z.mul_div_le; lia).
  assert (m ≤ m * k) by nia. assert (0 ≤ k * (1 / k)) by nia.
  rewrite (wrapS_id 64 (m + 1 / k)) by (unfold inS; simpl; lia).
  rewrite (wrapS_id 64 (m + 1 / k + 1)) by (unfold inS; simpl; lia).
  rewrite (wrapS_id 64 ((m + 1 / k + 1) * k)) by (unfold inS; simpl; nia).
  rewrite wrapS_id by (unfold inS; simpl; nia). split; [lia|]. split; [done|]. nia.
Qed.

Lemma setGroup_max seq start :
  1 ≤ start → 1 ≤ step seq → start + step seq < 2 ^ 63 → currentGroupMaxVal (setGroup seq start) = start + step seq - 1.
Proof. intros. simpl. rewrite (wrapS_id 64 (start + step seq)) by (unfold inS; lia). rewrite wrapS_id; unfold inS; lia. Qed.

Section Uniqueness.
Context {DB T D : Type} `{Runtime DB T D} `{Dataset D} {TL : TimeLib} {FT : FloatText} {DC : DecimalLib}.

(** What MySQL documents of the statements: the table maps a name to its
    [seq_val].  Any of them may fail; the laws say what success means. *)
Class GroupStoreLaws `{!RuntimeLaws DB T D (gmap string Z)} := {
  select_group tx tx' r n :
    Query _selectNextGroupWithXLock [stringValue n] tx = (tx', r) →
    view tx' = view tx ∧
    ∀ ds fuel, r = Ok (Ok ds) →
      match view tx !! n with
      | None => (Next fuel ds).2 = Err EOF
      | Some z => ∃ row v, (Next fuel ds).2 = Ok row ∧ Scan row 1 = Ok [Some v] ∧ Int64_value v = z
      end;
  insert_group tx tx' v s n :
    Exec _initGroupSequence [int64Value v; int64Value s; stringValue n] tx = (tx', Ok tt) →
    view tx' = <[n := v]> (view tx);
  update_group tx tx' v n :
    Exec _updateNextGroup [int64Value v; stringValue n] tx = (tx', Ok tt) →
    view tx' = <[n := v]> (view tx);
}.

Context {RL : RuntimeLaws DB T D (gmap string Z)} {GL : GroupStoreLaws} (fuel : nat) (name : string) (k : Z).
Context (Hk : 1 ≤ k).

(** The nodes that share the table, and the identifiers handed out so far. *)
Record system := mkSystem { db : DB; nodes : list groupSequence; issued : list Z }.

(** A node acquires an identifier, or fails without touching its memory. *)
Inductive acquires : system → system → Prop :=
| acquires_id sys i seq Load db' seq' id :
    nodes sys !! i = Some seq → Acquire fuel Load (db sys) seq = (db', seq', Ok id) →
    acquires sys (mkSystem db' (<[i := seq']> (nodes sys)) (issued sys ++ [id]))
| acquires_failed sys i seq Load db' r :
    nodes sys !! i = Some seq → Acquire fuel Load (db sys) seq = (db', seq, r) → is_ok r = false →
    acquires sys (mkSystem db' (nodes sys) (issued sys)).

(** The identifiers a node still has in memory. *)
Definition reserved (seq : groupSequence) : list Z := seqZ (currentVal seq + 1) (currentGroupMaxVal seq - currentVal seq).

(** The greatest identifier of the last group in the table. *)
Definition highest (d : gmap string Z) : Z := match d !! name with None => 0 | Some s => s + k - 1 end.

Definition aligned (d : gmap string Z) : Prop := ∀ s, d !! name = Some s → ∃ m, 0 ≤ m ∧ s = m * k + 1.

Record invariant (n : Z) (sys : system) : Prop := {
  inv_node seq : seq ∈ nodes sys → tableName seq = name ∧ step seq = k ∧ 0 ≤ currentVal seq ≤ highest (data (db sys));
  inv_aligned : aligned (data (db sys));
  inv_highest : 0 ≤ highest (data (db sys)) ≤ 2 * k * n;
  inv_ids : Forall (λ x, 1 ≤ x ≤ highest (data (db sys))) (issued sys ++ concat (reserved <$> nodes sys));
  inv_distinct : NoDup (issued sys ++ concat (reserved <$> nodes sys));
}.

Lemma execCommit_cases {S} (s : S) db tx sql args db' tx' s' r :
  execCommit db tx s sql args = (db', tx', s', r) →
  s' = s ∧ (is_ok r = false ∨ r = Ok tt ∧ ∃ tx1, Exec sql args tx = (tx1, Ok tt) ∧ data db' = view tx1).
Proof.
  unfold execCommit. destruct (Exec sql args tx) as [tx1 [[]|e| |]] eqn:E.
  2-4: intros [= <- <- <- <-]; auto.
  destruct (Commit db tx1) as [[db1 tx2] [[]|e| |]] eqn:Ec; intros [= <- <- <- <-]; (split; [done|]); [right|by left..].
  split; [done|]. exists tx1. by apply Commit_data in Ec.
Qed.

(** What asking for a group comes to: it is reserved above all the others,
    or the call fails without a trace, or it fails after writing its memory. *)
Definition grouping (d : gmap string Z) (seq : groupSequence) (d' : gmap string Z) (seq' : groupSequence) (r : outcome unit) : Prop :=
  ∃ start m, start = m * k + 1 ∧ 0 ≤ m ∧ highest d < start ≤ highest d + 2 ∧
    ((r = Ok tt ∧ seq' = setGroup seq start ∧ d' = <[name := start]> d) ∨
     (is_ok r = false ∧ seq' = seq ∧ d' = d) ∨
     (is_ok r = false ∧ seq' = setGroup seq start)).

Lemma aligned_next d :
  aligned d → highest d + 2 * k + 1 < 2 ^ 63 →
  ∃ m, 0 ≤ m ∧ highest d < m * k + 1 ≤ highest d + 2 ∧
    match d !! name with None => m = 0 | Some s => nextGroup s k = Ok (m * k + 1) end.
Proof using Hk.
  unfold aligned, highest. intros Hal Hb. destruct (d !! name) as [s|].
  - destruct (Hal s eq_refl) as (m & Hm & ->). destruct (nextGroup_spec m k) as (m' & Hm' & -> & Hm''); [lia..|].
    exists m'. split; [done|]. split; [lia|done].
  - exists 0. lia.
Qed.

Lemma nextGroupTx_cases db tx seq db' tx' seq' r :
  tableName seq = name → step seq = k → aligned (data db) → highest (data db) + 2 * k + 1 < 2 ^ 63 →
  view tx = data db → nextGroupTx fuel db tx seq = (db', tx', seq', r) → grouping (data db) seq (data db') seq' r.
Proof using Hk GL.
  intros Hn Hs Hal Hb Hv. unfold nextGroupTx, queryRow. destruct (Query _ _ tx) as [tx1 rs] eqn:Eq.
  rewrite Hn in *. apply select_group in Eq as [Hv1 Hsel]. rewrite Hv in *.
  destruct (aligned_next _ Hal Hb) as (m & Hm & Hr & Hnext). unfold grouping.
  destruct rs as [[ds|e| |]|e| |]; simpl; try (intros [= <- <- <- <-]; exists (m * k + 1), m; by auto 10).
  specialize (Hsel ds fuel eq_refl). destruct (data db !! name) as [s|] eqn:Ed.
  - destruct Hsel as (row & v & Hrow & Hscan & Hi). rewrite Hrow. simpl. rewrite Hscan, Hi, Hs, Hnext.
    intros He. apply execCommit_cases in He as [-> He]. exists (m * k + 1), m. do 3 (split; [done|]).
    destruct He as [He|(-> & tx2 & Hu & ->)]; [by auto|]. left. apply update_group in Hu. by rewrite Hu, Hv1.
  - rewrite Hsel. simpl. intros He. apply execCommit_cases in He as [-> He]. subst m. exists _startSequence, 0.
    do 3 (split; [done|]).
    destruct He as [He|(-> & tx2 & Hu & ->)]; [by auto|]. left. apply insert_group in Hu. by rewrite Hu, Hv1.
Qed.

Lemma acquireNextGroup_cases db seq db' seq' r :
  tableName seq = name → step seq = k → aligned (data db) → highest (data db) + 2 * k + 1 < 2 ^ 63 →
  acquireNextGroup fuel db seq = (db', seq', r) → grouping (data db) seq (data db') seq' r.
Proof using Hk GL.
  intros Hn Hs Hal Hb. unfold acquireNextGroup, inTx. destruct (Begin db) as [db1 rb] eqn:Eb.
  apply Begin_data in Eb as [Hd Hv]. rewrite <- Hd in *. destruct rb as [tx|e| |].
  { destruct (nextGroupTx fuel db1 tx seq) as [[[db2 tx2] seq2] r2] eqn:Et. intros [= <- <- <-].
    rewrite Rollback_data. eapply nextGroupTx_cases; eauto. }
  all: intros [= <- <- <-]; destruct (aligned_next _ Hal Hb) as (m & Hm & Hr & _); exists (m * k + 1), m; by auto 10.
Qed.

Lemma reserved_nil seq : currentGroupMaxVal seq ≤ currentVal seq → reserved seq = [].
Proof. intros. unfold reserved. apply seqZ_nil. lia. Qed.

Lemma reserved_cons seq :
  currentVal seq < currentGroupMaxVal seq → reserved seq = (currentVal seq + 1) :: seqZ (currentVal seq + 2) (currentGroupMaxVal seq - currentVal seq - 1).
Proof. intros. unfold reserved. rewrite seqZ_cons by lia. f_equal. f_equal; lia. Qed.

(** Replacing one node's reserve. *)
Lemma concat_insert {A} (f : groupSequence → list A) l i x y :
  l !! i = Some x → ∃ others, concat (f <$> l) ≡ₚ f x ++ others ∧ concat (f <$> <[i := y]> l) ≡ₚ f y ++ others.
Proof.
  intros Hi. exists (concat (f <$> take i l) ++ concat (f <$> drop (S i) l)). split.
  - rewrite <- (take_drop_middle l i x Hi) at 1. rewrite fmap_app, fmap_cons, concat_app, concat_cons. solve_Permutation.
  - rewrite insert_take_drop by (by eapply lookup_lt_Some).
    rewrite fmap_app, fmap_cons, concat_app, concat_cons. solve_Permutation.
Qed.

Lemma invariant_failed n sys db' :
  invariant n sys → data db' = data (db sys) → invariant (n + 1) (mkSystem db' (nodes sys) (issued sys)).
Proof using Hk. intros [Hnode Hal Hhi Hids Hnd] Hd. split; simpl; rewrite ?Hd; try done. nia. Qed.

(** The nodes after one of them changed. *)
Lemma node_insert (P : groupSequence → Prop) (l : list groupSequence) (i : nat) seq :
  (∀ s, s ∈ l → P s) → P seq → ∀ s, s ∈ <[i := seq]> l → P s.
Proof.
  intros Hl Hs s [j Hj]%list_elem_of_lookup. rewrite list_lookup_insert_Some in Hj.
  destruct Hj as [(_ & <- & _)|(_ & Hj)]; [done|]. by eapply Hl, list_elem_of_lookup_2.
Qed.

Lemma invariant_handed_out n sys i seq :
  2 * k * (n + 1) + 1 < 2 ^ 63 → invariant n sys → nodes sys !! i = Some seq → currentVal seq < currentGroupMaxVal seq →
  invariant (n + 1) (mkSystem (db sys)
    (<[i := mkGroupSequence (tableName seq) (step seq) (currentGroupMaxVal seq) (i64 (currentVal seq + 1))]> (nodes sys))
    (issued sys ++ [i64 (currentVal seq + 1)])).
Proof using Hk.
  intros Hb [Hnode Hal Hhi Hids Hnd] Hi Hlt.
  destruct (Hnode _ (list_elem_of_lookup_2 _ _ _ Hi)) as (Hn & Hs & Hc).
  set (seq' := mkGroupSequence _ _ _ (i64 _)). destruct (concat_insert reserved _ _ _ seq' Hi) as (others & Ho & Ho').
  assert (currentVal seq + 1 ≤ highest (data (db sys))) as Hle.
  { rewrite Ho, (reserved_cons seq Hlt), Forall_app in Hids. destruct Hids as [_ Hids]. simpl in Hids. inversion Hids. lia. }
  assert (i64 (currentVal seq + 1) = currentVal seq + 1) as E by (apply wrapS_id; unfold inS; nia).
  assert (reserved seq = (currentVal seq + 1) :: reserved seq') as Hres.
  { rewrite (reserved_cons seq Hlt). unfold reserved, seq'. simpl. rewrite E. f_equal. f_equal; lia. }
  assert ((issued sys ++ [i64 (currentVal seq + 1)]) ++ concat (reserved <$> <[i:=seq']> (nodes sys))
          ≡ₚ issued sys ++ concat (reserved <$> nodes sys)) as Hp.
  { rewrite Ho, Ho', Hres, E. solve_Permutation. }
  split; simpl; rewrite ?Hp; try done; [|nia].
  apply node_insert; [done|]. simpl. rewrite E. split; [done|]. split; [done|lia].
Qed.

Lemma invariant_new_group n sys i seq db' start m :
  2 * k * (n + 1) + 1 < 2 ^ 63 → invariant n sys → nodes sys !! i = Some seq → currentGroupMaxVal seq ≤ currentVal seq →
  start = m * k + 1 → 0 ≤ m → highest (data (db sys)) < start ≤ highest (data (db sys)) + 2 →
  data db' = <[name := start]> (data (db sys)) →
  invariant (n + 1) (mkSystem db' (<[i := setGroup seq start]> (nodes sys)) (issued sys ++ [start])).
Proof using Hk.
  intros Hb [Hnode Hal Hhi Hids Hnd] Hi Hge Hst Hm Hr Hd.
  destruct (Hnode _ (list_elem_of_lookup_2 _ _ _ Hi)) as (Hn & Hs & Hc).
  destruct (concat_insert reserved _ _ _ (setGroup seq start) Hi) as (others & Ho & Ho').
  assert (highest (data db') = start + k - 1) as Hhi'. { unfold highest. by rewrite Hd, lookup_insert_eq. }
  assert (start :: reserved (setGroup seq start) = seqZ start k) as Hres.
  { unfold reserved. rewrite setGroup_max by nia. rewrite Hs. simpl currentVal.
    rewrite (seqZ_cons start k) by lia. f_equal. f_equal; lia. }
  assert ((issued sys ++ [start]) ++ concat (reserved <$> <[i:=setGroup seq start]> (nodes sys))
          ≡ₚ seqZ start k ++ issued sys ++ concat (reserved <$> nodes sys)) as Hp.
  { rewrite Ho, Ho', <- Hres, (reserved_nil seq) by done. solve_Permutation. }
  split; simpl; rewrite ?Hhi', ?Hp.
  - apply node_insert; [|simpl; split; [done|split; [done|lia]]].
    intros s (? & ? & ?)%Hnode. split; [done|]. split; [done|lia].
  - intros s. rewrite Hd, lookup_insert_eq. intros [= <-]. eauto.
  - nia.
  - apply Forall_app. split; [|eapply Forall_impl; [done|]; simpl; lia].
    apply Forall_forall. intros x Hx%elem_of_seqZ. lia.
  - apply NoDup_app. split; [apply NoDup_seqZ|]. split; [|done]. intros x Hx%elem_of_seqZ Hx'.
    rewrite Forall_forall in Hids. apply Hids in Hx'. lia.
Qed.

(** Every step keeps the invariant; a step raises the highest group by at most
    two steps. *)
Lemma acquires_invariant n sys sys' :
  2 * k * (n + 1) + 1 < 2 ^ 63 → invariant n sys → acquires sys sys' → invariant (n + 1) sys'.
Proof using Hk GL.
  intros Hb Hinv Hst. pose proof (inv_aligned _ _ Hinv) as Hal. pose proof (inv_highest _ _ Hinv) as Hhi.
  destruct Hst as [sys i seq Load db' seq' id Hi Ha|sys i seq Load db' r Hi Ha Hr];
    pose proof (inv_node _ _ Hinv _ (list_elem_of_lookup_2 _ _ _ Hi)) as (Hn & Hs & Hc);
    unfold Acquire in Ha; destruct (Z.geb_spec (currentVal seq) (currentGroupMaxVal seq)) as [Hge|Hlt].
  - destruct Load as [[]|e| |]; [|discriminate..].
    destruct (acquireNextGroup fuel (db sys) seq) as [[db1 seq1] r1] eqn:E.
    apply acquireNextGroup_cases in E as (start & m & Hst & Hm & Hr & Hcases); [|done|done|done|lia].
    injection Ha as -> -> Hid. destruct Hcases as [(-> & -> & Hd)|[(Hr1 & _)|(Hr1 & _)]]; [|by destruct r1..].
    injection Hid as <-. by eapply invariant_new_group.
  - injection Ha as <- <- <-. by apply invariant_handed_out.
  - apply invariant_failed; [done|]. destruct Load as [[]|e| |]; [|by injection Ha as <- _..].
    destruct (acquireNextGroup fuel (db sys) seq) as [[db1 seq1] r1] eqn:E.
    apply acquireNextGroup_cases in E as (start & m & Hst & Hm & Hstart & Hcases); [|done|done|done|lia].
    injection Ha as -> -> <-. destruct Hcases as [(-> & _)|[(_ & _ & Hd)|(_ & Hseq)]]; [done|done|].
    apply (f_equal currentVal) in Hseq. simpl in Hseq. lia.
  - injection Ha as _ _ <-. done.
Qed.

Lemma run_invariant n sys sys' a :
  0 ≤ a → 2 * k * (a + Z.of_nat n) + 1 < 2 ^ 63 → nsteps acquires n sys sys' → invariant a sys → invariant (a + Z.of_nat n) sys'.
Proof using Hk GL.
  intros Ha Hb Hrun. revert a Ha Hb. induction Hrun as [sys|n sys sys1 sys' Hst _ IH]; intros a Ha Hb Hinv.
  - by rewrite Z.add_0_r.
  - replace (a + Z.of_nat (S n)) with (a + 1 + Z.of_nat n) in * by lia. apply IH; [lia|lia|].
    eapply acquires_invariant; [|done..]. nia.
Qed.

End Uniqueness.

(** ** A database in memory *)

Module GroupExamples.

(** The committed rows, and whether the next commits fail. *)
Record store := mkStore { rows_ : gmap string Z; commitFails : bool }.

Definition seqRow (z : Z) : Row := virtualRow false (mkVirtual [NewField "seq_val" FieldTypeLongLong] [Some (int64Value z)]).

Definition query (sql : string) (args : list ProtoValue) (tx : store) : store * outcome (outcome VirtualDataset) :=
  match args with
  | [stringValue n] =>
      if (sql =? _selectNextGroupWithXLock)%string
      then (tx, Ok (Ok (mkVirtualDataset [] match rows_ tx !! n with Some z => [seqRow z] | None => [] end)))
      else (tx, Err (NewError "syntax"))
  | _ => (tx, Err (NewError "syntax"))
  end.

Definition exec (sql : string) (args : list ProtoValue) (tx : store) : store * outcome unit :=
  match args with
  | [int64Value v; int64Value _; stringValue n] | [int64Value v; stringValue n] =>
      (mkStore (<[n := v]> (rows_ tx)) (commitFails tx), Ok tt)
  | _ => (tx, Err (NewError "syntax"))
  end.

#[global] Instance store_Runtime : Runtime store store VirtualDataset := {|
  Begin db := (db, Ok db);
  Query := query;
  Exec := exec;
  Commit db tx := if commitFails tx then (db, tx, Err (NewError "connection lost")) else (tx, tx, Ok tt);
  Rollback db tx := db;
|}.

#[global, program] Instance store_RuntimeLaws : RuntimeLaws store store VirtualDataset (gmap string Z) := {|
  data := rows_;
  view := rows_;
|}.
Next Obligation. intros db db' r. simpl. intros [= <- <-]. split; [done|]. by intros tx [= <-]. Qed.
Next Obligation. intros db tx db' tx'. simpl. destruct (commitFails tx); [done|]. by intros [= <- <-]. Qed.
Next Obligation. done. Qed.

#[global] Instance store_GroupStoreLaws {TL : TimeLib} {FT : FloatText} {DC : DecimalLib} : GroupStoreLaws.
Proof.
  split.
  - intros tx tx' r n. simpl. intros [= <- <-]. split; [done|]. intros ds fuel [= <-].
    destruct (rows_ tx !! n) as [z|]; [|done]. eexists (seqRow z), (int64Value z). done.
  - intros tx tx' v s n. simpl. by intros [= <-].
  - intros tx tx' v n. simpl. by intros [= <-].
Qed.

Import NoDates NoFloats ExactDecimal.

Definition fresh (name : string) (k : Z) : groupSequence := mkGroupSequence name k 0 0.

(** Node [i] acquires an identifier. *)
Definition turn (sys : system) (i : nat) : option (@system store) :=
  seq ← nodes sys !! i;
  match Acquire 1 (Ok tt) (db sys) seq with
  | (db', seq', Ok id) => Some (mkSystem db' (<[i := seq']> (nodes sys)) (issued sys ++ [id]))
  | _ => None
  end.

Lemma turns_steps l sys sys' :
  foldl (λ o i, sys ← o; turn sys i) (Some sys) l = Some sys' → nsteps (acquires 1) (length l) sys sys'.
Proof.
  assert (∀ l, foldl (λ o i, sys ← o; turn sys i) None l = None) as Hnone by (intros l'; induction l'; simpl; auto).
  revert sys. induction l as [|i l IH]; intros sys; [intros [= ->]; constructor|]. simpl. intros Hf.
  destruct (turn sys i) as [sys1|] eqn:E; [|by rewrite Hnone in Hf].
  eapply nsteps_l; [|by apply IH]. unfold turn in E. destruct (nodes sys !! i) as [seq|] eqn:Ei; [|done]. simpl in E.
  destruct (Acquire 1 (Ok tt) (db sys) seq) as [[db' seq'] [id|e| |]] eqn:Ea; [|done..]. injection E as <-.
  by econstructor.
Qed.

(** Two nodes that acquire in turn. *)
Definition twoNodes : system := mkSystem (mkStore ∅ false) [fresh "student" 2; fresh "student" 2] [].


Lemma acquire_first fuel name k fails :
  2 ≤ k < 2 ^ 62 →
  Acquire fuel (Ok tt) (mkStore ∅ fails) (fresh name k) =
  if fails then (mkStore ∅ true, mkGroupSequence name k k 1, Err (NewError "connection lost"))
  else (mkStore {[name := 1]} false, mkGroupSequence name k k 1, Ok 1).
Proof.
  intros Hk. assert (setGroup (fresh name k) 1 = mkGroupSequence name k k 1) as Hg.
  { pose proof (setGroup_max (fresh name k) 1) as Hm. unfold setGroup in *. simpl in *. f_equal. rewrite Hm; lia. }
  unfold Acquire, acquireNextGroup, inTx, nextGroupTx, queryRow. cbn -[setGroup lookup insert].
  rewrite lookup_empty. cbn -[setGroup lookup insert]. unfold _startSequence. rewrite Hg.
  by destruct fails.
Qed.

Lemma acquire_second fuel name k db :
  2 ≤ k → Acquire fuel (Ok tt) db (mkGroupSequence name k k 1) = (db, mkGroupSequence name k k 2, Ok 2).
Proof. intros Hk. unfold Acquire. simpl. by destruct (Z.geb_spec 1 k); [lia|]. Qed.

(** A failed commit leads to duplicates.  [acquireNextGroup] writes the
    group to memory before the transaction commits: when the commit fails, the
    node reports the error and then hands out the rest of a group it does not
    own, which another node hands out as well. *)
Theorem group_failed_commit_repeats fuel name k :
  2 ≤ k < 2 ^ 62 →
  let '(db, a, r1) := Acquire fuel (Ok tt) (mkStore ∅ true) (fresh name k) in
  let '(db, b, r2) := Acquire fuel (Ok tt) (mkStore (rows_ db) false) (fresh name k) in
  let '(db, b, r3) := Acquire fuel (Ok tt) db b in
  let '(db, a, r4) := Acquire fuel (Ok tt) db a in
  [r1; r2; r3; r4] = [Err (NewError "connection lost"); Ok 1; Ok 2; Ok 2].
Proof. intros Hk. rewrite acquire_first by lia. cbn [rows_]. rewrite acquire_first by lia. rewrite !acquire_second by lia. done. Qed.

Lemma group_failed_commit_repeats_witness :
  let '(db, a, r1) := Acquire 1 (Ok tt) (mkStore ∅ true) (fresh "student" 100) in
  let '(db, b, r2) := Acquire 1 (Ok tt) (mkStore (rows_ db) false) (fresh "student" 100) in
  let '(db, b, r3) := Acquire 1 (Ok tt) db b in
  let '(db, a, r4) := Acquire 1 (Ok tt) db a in
  [r1; r2; r3; r4] = [Err (NewError "connection lost"); Ok 1; Ok 2; Ok 2].
Proof. apply (group_failed_commit_repeats 1 "student" 100). lia. Defined.

(** A smaller step starts inside the group of a greater one: with steps 100
    and 10, the group after 1..100 is 11..20. *)
Lemma smaller_step_overlaps : nextGroup 1 10 = Ok 11 ∧ 11 ∈ seqZ 1 100.
Proof. split; [reflexivity|]. apply elem_of_seqZ. lia. Qed.
End GroupExamples.
