(* ===== verification/Snowflake.v ===== *)
(** * Snowflake sequences: [pkg/sequence/snowflake/snowflake.go]

    An identifier is made of the milliseconds since an epoch, the number of the
    node and a step within the millisecond.  The node's number is assigned in a
    table of the database.  The clock is the list of the times the calls of
    [time.Now] return, in the order of the calls. *)
From S2P Require Import Prelude GoStd Value Row Dataset Sequence.

Definition _initTableSql : string := "
	CREATE TABLE IF NOT EXISTS __arana_snowflake_sequence (
	    id int AUTO_INCREMENT COMMENT 'primary key',
		work_id int COMMENT 'snowflake work id',
		node_id varchar(255) NOT NULL COMMENT 'unique id of the node, eg. ip/name/uuid',
		table_name varchar(255) NOT NULL COMMENT 'arana logic table name',
	    renew_time datetime NOT NULL COMMENT 'node renew time',
		PRIMARY KEY (id),
        UNIQUE KEY(work_id, table_name),
		UNIQUE KEY(node_id, table_name)
	) ENGINE = InnoDB;
	".
Definition _setWorkId : string := "REPLACE INTO __arana_snowflake_sequence(work_id, node_id, table_name, renew_time) VALUE (?, ?, ?, now())".
Definition _selectSelfWorkIdWithXLock : string := "SELECT work_id FROM __arana_snowflake_sequence WHERE table_name = ? AND node_id = ? FOR UPDATE".
Definition _selectMaxWorkIdWithXLock : string := "SELECT MAX(work_id) FROM __arana_snowflake_sequence WHERE table_name = ? FOR UPDATE".
Definition _selectFreeWorkIdWithXLock : string := "SELECT MAX(work_id) FROM __arana_snowflake_sequence WHERE table_name = ? AND renew_time < DATE_SUB(NOW(), INTERVAL 10 MINUTE) FOR UPDATE".
Definition _updateWorkIdOwner : string := "UPDATE __arana_snowflake_sequence SET node_id = ?, renew_time = now() WHERE table_name = ? AND work_id = ?".
Definition _keepaliveNode : string := "UPDATE __arana_snowflake_sequence SET renew_time=now() WHERE node_id = ?".

Definition workIdMax : Z := 1024.
Definition _defaultEpoch : Z := 1533429240000.
Definition _defaultNodeBits : Z := 10.
Definition _defaultStepBits : Z := 12.
Definition stepMask : Z := Z.lxor (-1) (Z.shiftl (-1) _defaultStepBits).
Definition timeShift : Z := u8 (_defaultNodeBits + _defaultStepBits).
Definition workIdShift : Z := _defaultStepBits.

Record snowflakeSequence := mkSnowflake {
  seqOffset : Z;
  epoch : Time;
  lastTime : Z;
  step : Z;
  workId : Z;
  currentVal : Z;
}.

(** A [time.Duration] is an [int64] of nanoseconds; [Time.Sub] saturates. *)
Definition Sub (t u : Time) : Z := Z.max (- 2 ^ 63) (Z.min (t - u) (2 ^ 63 - 1)).

(** [time.Since(epoch).Nanoseconds() / 1000000] when the time is [now]. *)
Definition milliseconds (epoch now : Time) : Z := Z.quot (Sub now epoch) 1000000.

(** [for timestamp <= seq.lastTime { timestamp = ... }] *)
Fixpoint waitNext (clock : list Time) (epoch : Time) (lastTime timestamp : Z) : list Time * outcome Z :=
  if timestamp <=? lastTime then
    match clock with
    | [] => ([], OutOfFuel)
    | now :: clock => waitNext clock epoch lastTime (milliseconds epoch now)
    end
  else (clock, Ok timestamp).

Definition Acquire (clock : list Time) (seq : snowflakeSequence) : snowflakeSequence * list Time * outcome Z :=
  match clock with
  | [] => (seq, [], OutOfFuel)
  | now :: clock =>
      let timestamp := milliseconds (epoch seq) now in
      let '(clock, offset, stp, r) :=
        if timestamp =? lastTime seq then
          let stp := Z.land (i64 (step seq + 1)) stepMask in
          if stp =? 0 then let '(clock, r) := waitNext clock (epoch seq) (lastTime seq) timestamp in (clock, seqOffset seq, stp, r)
          else (clock, seqOffset seq, stp, Ok timestamp)
        else
          let offset := Z.land (Z.lnot (seqOffset seq)) 1 in
          (clock, offset, offset, Ok timestamp) in
      match r with
      | Ok timestamp =>
          let val := Z.lor (Z.lor (i64 (Z.shiftl timestamp timeShift)) (i64 (Z.shiftl (workId seq) workIdShift))) stp in
          (mkSnowflake offset (epoch seq) timestamp stp (workId seq) val, clock, Ok val)
      | failed => (mkSnowflake offset (epoch seq) (lastTime seq) stp (workId seq) (currentVal seq), clock, failed)
      end
  end.

Definition CurrentVal (seq : snowflakeSequence) : Z := currentVal seq.

(** The rows of a query whose only row is a single value. *)
Definition scanFirst (row : outcome Row) : outcome cell :=
  row ← row; l ← Scan row 1; match l with v :: _ => Ok v | [] => Panic end.

Section Snowflake.
Context {DB T D : Type} `{Runtime DB T D} `{Dataset D} {TL : TimeLib} {FT : FloatText} {DC : DecimalLib}.
(** [_nodeId], set from [identity.GetNodeIdentity]. *)
Context (_nodeId : string) (fuel : nat).

Definition findFreeWorkID (tx : T) (tableName : string) : T * outcome Z :=
  let '(tx, row) := queryRow fuel tx _selectFreeWorkIdWithXLock [stringValue tableName] in
  (tx, row ← row; v ← scanFirst row;
       match v with None => Panic | Some v => Ok (i64 (Int64_value v + 1)) end).

Definition findNewWorkID (tx : T) (tableName : string) : T * outcome Z :=
  let '(tx, row) := queryRow fuel tx _selectMaxWorkIdWithXLock [stringValue tableName] in
  match row ← row; scanFirst row with
  | Ok None => (tx, Ok 1)
  | Ok (Some v) =>
      let curId := i64 (Int64_value v + 1) in
      if curId >? workIdMax then findFreeWorkID tx tableName else (tx, Ok curId)
  | failed => (tx, _ ← failed; Panic)
  end.

Definition findWorkID (tx : T) (tableName : string) : T * outcome Z :=
  let '(tx, row) := queryRow fuel tx _selectSelfWorkIdWithXLock [stringValue tableName; stringValue _nodeId] in
  match row with
  | Ok (Err _) => findNewWorkID tx tableName
  | Ok row =>
      match scanFirst row with
      | Ok (Some v) => (tx, Int64 v)
      | Ok None => findNewWorkID tx tableName
      | failed => (tx, _ ← failed; Panic)
      end
  | failed => (tx, _ ← failed; Panic)
  end.

Definition setWorkId (seq : snowflakeSequence) (id : Z) : snowflakeSequence :=
  mkSnowflake (seqOffset seq) (epoch seq) (lastTime seq) (step seq) id (currentVal seq).

Definition initWorkerID (db : DB) (seq : snowflakeSequence) (conf : SequenceConfig) : DB * snowflakeSequence * outcome unit :=
  inTx db seq (λ db tx seq,
    let '(tx, r) := findWorkID tx (Name conf) in
    match r with
    | Ok id =>
        let '(db, tx, seq', r) := execCommit db tx (setWorkId seq id) _setWorkId [int64Value id; stringValue _nodeId; stringValue (Name conf)] in
        match r with
        | Ok _ =>
            (db, tx, seq',
             if (workId seq' <? 0) || (workId seq' >? workIdMax) then Err (NewError "node worker-id must in [0, 1024]") else Ok tt)
        | failed => (db, tx, seq, failed)
        end
    | failed => (db, tx, seq, _ ← failed; Panic)
    end).

(** The body of the loop of [keepalive]: errors are logged. *)
Definition keepalive (db : DB) : DB :=
  let '(db, _, _) := inTx db tt (λ db tx s, execCommit db tx s _keepaliveNode [stringValue _nodeId]) in db.

(** The table is created once; the goroutine of [keepalive] is then started. *)
Definition initTableAndKeepalive (finishInitTable : bool) (db : DB) : DB * bool * outcome unit :=
  if finishInitTable then (db, true, Ok tt)
  else
    let '(db, _, r) := inTx db tt (λ db tx s, execCommit db tx s _initTableSql []) in
    (db, is_ok r, r).

Definition Start (seq : snowflakeSequence) (conf : SequenceConfig) (startWallTime : Time) (finishInitTable : bool) (db : DB) : DB * bool * snowflakeSequence * outcome unit :=
  let '(db, finished, r) := initTableAndKeepalive finishInitTable db in
  match r with
  | Ok _ =>
      let '(db, seq, r) := initWorkerID db seq conf in
      match r with
      | Ok _ =>
          let curTime := startWallTime in
          let start := curTime + Sub (_defaultEpoch * 1000000) curTime in
          (db, finished, mkSnowflake (seqOffset seq) start (lastTime seq) (step seq) (workId seq) (currentVal seq), Ok tt)
      | failed => (db, finished, seq, failed)
      end
  | failed => (db, finished, seq, failed)
  end.
End Snowflake.

(** ** Identifiers *)

(** An identifier of its three parts. *)
Definition compose (t w s : Z) : Z := t * 2 ^ 22 + w * 2 ^ 12 + s.

Lemma compose_bits t w s :
  0 ≤ t < 2 ^ 41 → 0 ≤ w < 2 ^ 10 → 0 ≤ s < 2 ^ 12 →
  Z.lor (Z.lor (i64 (Z.shiftl t timeShift)) (i64 (Z.shiftl w workIdShift))) s = compose t w s.
Proof.
  intros Ht Hw Hs. change timeShift with 22. change workIdShift with 12.
  rewrite !Z.shiftl_mul_pow2, !wrapS_id by (unfold inS; lia).
  rewrite <- (Z.shiftl_mul_pow2 t 22) at 1 by lia. rewrite lor_low by lia.
  replace (t * 2 ^ 22 + w * 2 ^ 12) with (Z.shiftl (t * 2 ^ 10 + w) 12) by (rewrite Z.shiftl_mul_pow2 by lia; lia).
  rewrite lor_low by lia. unfold compose. lia.
Qed.

(** What a started sequence keeps true: its fields have the widths the layout
    gives them. *)
Record wf (seq : snowflakeSequence) : Prop := {
  wf_offset : 0 ≤ seqOffset seq ≤ 1;
  wf_time : 0 ≤ lastTime seq;
  wf_step : 0 ≤ step seq < 2 ^ 12;
  wf_work : 0 ≤ workId seq < 2 ^ 10;
}.

(** Readings of a clock that does not run backwards and has not passed the 41
    bits of the layout. *)
Record ticking (epoch : Time) (last : Z) (clock : list Time) : Prop := {
  ticking_sorted : StronglySorted Z.le clock;
  ticking_range : Forall (λ now, last ≤ milliseconds epoch now < 2 ^ 41) clock;
}.

Lemma milliseconds_mono epoch now now' : now ≤ now' → milliseconds epoch now ≤ milliseconds epoch now'.
Proof. intros. unfold milliseconds, Sub. apply Z.quot_le_mono; lia. Qed.

Lemma ticking_tail epoch last now clock :
  ticking epoch last (now :: clock) → last ≤ milliseconds epoch now < 2 ^ 41 ∧ ticking epoch (milliseconds epoch now) clock.
Proof.
  intros [Hs Hr]. inversion Hs as [|? ? Hs' Hall]. inversion Hr as [|? ? Hnow Hr']. subst. split; [done|]. split; [done|].
  apply Forall_forall. intros t Ht. rewrite Forall_forall in Hall, Hr'. split; [|by apply Hr'].
  by apply milliseconds_mono, Hall.
Qed.

Lemma waitNext_ticking epoch last clock timestamp clock' t :
  waitNext clock epoch last timestamp = (clock', Ok t) → ticking epoch last clock → timestamp < 2 ^ 41 →
  ticking epoch timestamp clock →
  last < t < 2 ^ 41 ∧ ticking epoch t clock'.
Proof.
  revert timestamp. induction clock as [|now clock IH]; intros timestamp; simpl;
    destruct (Z.leb_spec timestamp last); try done.
  - by intros [= <- <-].
  - intros Hw Hl _ [Hn Ht]%ticking_tail. apply ticking_tail in Hl as Hl'. eapply IH; [done| |lia|done].
    destruct Ht as [Hs Hr], Hl as [_ Hl]. inversion Hl. by split.
  - intros [= <- <-]. auto.
Qed.

(** One identifier: it is composed of a time and a step that are, together,
    after those of the one before. *)
Lemma Acquire_spec clock seq seq' clock' id :
  wf seq → ticking (epoch seq) (lastTime seq) clock → Acquire clock seq = (seq', clock', Ok id) →
  wf seq' ∧ epoch seq' = epoch seq ∧ workId seq' = workId seq ∧ ticking (epoch seq) (lastTime seq') clock' ∧
  lastTime seq' < 2 ^ 41 ∧ id = compose (lastTime seq') (workId seq) (step seq') ∧
  (lastTime seq < lastTime seq' ∨ lastTime seq = lastTime seq' ∧ step seq < step seq').
Proof.
  intros [Hoff Htime Hstep Hwork] Hclock. unfold Acquire. destruct clock as [|now clock]; [done|].
  apply ticking_tail in Hclock as Htail. destruct Htail as [Hnow Htick].
  destruct (Z.eqb_spec (milliseconds (epoch seq) now) (lastTime seq)) as [Heq|Hne].
  - assert (Z.land (i64 (step seq + 1)) stepMask = (step seq + 1) mod 2 ^ 12) as E.
    { rewrite wrapS_id by (unfold inS; lia). change stepMask with (Z.ones 12). by rewrite Z.land_ones by lia. }
    rewrite E. destruct (Z.eqb_spec ((step seq + 1) mod 2 ^ 12) 0) as [Hz|Hz].
    + destruct (waitNext clock _ _ _) as [clock1 [t|e| |]] eqn:Ew; [|done..]. intros [= <- <- <-].
      apply waitNext_ticking in Ew as [Ht Htick']; [|by rewrite <- Heq|lia|done]. simpl. rewrite Hz, compose_bits by lia.
      split; [split; simpl; lia|]. do 3 (split; [done|]). split; [lia|]. split; [done|lia].
    + intros [= <- <- <-]. simpl. rewrite Heq in Htick. rewrite Heq in Hnow. rewrite Heq.
      assert ((step seq + 1) mod 2 ^ 12 = step seq + 1) as Em.
      { apply Z.mod_small. destruct (decide (step seq + 1 = 2 ^ 12)) as [Hs|]; [|lia]. by rewrite Hs in Hz. }
      rewrite Em in *. assert (step seq + 1 < 2 ^ 12) by (pose proof (Z.mod_pos_bound (step seq + 1) (2 ^ 12)); lia).
      rewrite compose_bits by lia. split; [split; simpl; lia|]. do 3 (split; [done|]). split; [lia|]. split; [done|lia].
  - assert (0 ≤ Z.land (Z.lnot (seqOffset seq)) 1 ≤ 1) as Ho.
    { pose proof (Z.land_ones (Z.lnot (seqOffset seq)) 1 ltac:(lia)) as E. change (Z.ones 1) with 1 in E. rewrite E.
      pose proof (Z.mod_pos_bound (Z.lnot (seqOffset seq)) (2 ^ 1)). lia. }
    intros [= <- <- <-]. simpl. rewrite compose_bits by lia.
    split; [split; simpl; lia|]. do 3 (split; [done|]). split; [lia|]. split; [done|lia].
Qed.

(** [n] identifiers, one after the other. *)
Fixpoint acquireN (n : nat) (clock : list Time) (seq : snowflakeSequence) : outcome (list Z) :=
  match n with
  | O => Ok []
  | S n =>
      let '(seq, clock, r) := Acquire clock seq in
      id ← r; ids ← acquireN n clock seq; Ok (id :: ids)
  end.

Lemma acquireN_spec n clock seq ids :
  wf seq → ticking (epoch seq) (lastTime seq) clock → acquireN n clock seq = Ok ids →
  StronglySorted Z.lt ids ∧
  Forall (λ id, ∃ t s, id = compose t (workId seq) s ∧ 0 ≤ t < 2 ^ 41 ∧ 0 ≤ s < 2 ^ 12 ∧
    (lastTime seq < t ∨ lastTime seq = t ∧ step seq < s)) ids.
Proof.
  revert clock seq ids. induction n as [|n IH]; intros clock seq ids Hwf Hc; simpl; [intros [= <-]; by repeat constructor|].
  destruct (Acquire clock seq) as [[seq1 clock1] [id|e| |]] eqn:Ea; [|done..]. simpl.
  destruct (acquireN n clock1 seq1) as [ids1|e| |] eqn:En; [|done..]. intros [= <-].
  apply Acquire_spec in Ea as (Hwf1 & He & Hw & Hc1 & Hlt & -> & Hlex); [|done..].
  apply IH in En as [Hs Hids]; [|done|by rewrite He]. destruct Hwf1 as [_ H1 H2 _]. split.
  - constructor; [done|]. eapply Forall_impl; [done|]. intros id' (t & s & -> & Ht & Hs' & Hl). rewrite Hw.
    unfold compose. lia.
  - constructor; [exists (lastTime seq1), (step seq1); repeat split; lia|]. eapply Forall_impl; [done|].
    intros id' (t & s & -> & Ht & Hs' & Hl). exists t, s. rewrite Hw. repeat split; lia.
Qed.

(** A node, the readings of its clock, and the identifiers it acquired. *)
Record node_run := mkRun { run_seq : snowflakeSequence; run_clock : list Time; run_ids : list Z }.

Record started (run : node_run) : Prop := {
  started_wf : wf (run_seq run);
  started_clock : ticking (epoch (run_seq run)) (lastTime (run_seq run)) (run_clock run);
  started_ids : acquireN (length (run_ids run)) (run_clock run) (run_seq run) = Ok (run_ids run);
}.

(** The node an identifier names. *)
Definition nodeOf (id : Z) : Z := (id / 2 ^ 12) mod 2 ^ 10.

Lemma nodeOf_compose t w s : 0 ≤ w < 2 ^ 10 → 0 ≤ s < 2 ^ 12 → nodeOf (compose t w s) = w.
Proof.
  intros Hw Hs. unfold nodeOf, compose. replace (t * 2 ^ 22 + w * 2 ^ 12 + s) with (s + (t * 2 ^ 10 + w) * 2 ^ 12) by lia.
  rewrite Z.div_add, (Z.div_small s) by lia. rewrite Z.add_0_l, Z.add_comm, Z.mod_add by lia. apply Z.mod_small. lia.
Qed.

Lemma started_spec run :
  started run → StronglySorted Z.lt (run_ids run) ∧
  Forall (λ id, 0 ≤ id < 2 ^ 63 ∧ nodeOf id = workId (run_seq run)) (run_ids run).
Proof.
  intros [Hwf Hc Ha]. apply acquireN_spec in Ha as [Hs Hids]; [|done..]. split; [done|]. destruct Hwf as [_ _ _ Hw].
  eapply Forall_impl; [done|]. intros id (t & s & -> & Ht & Hs' & _). rewrite nodeOf_compose by lia.
  unfold compose. split; [lia|done].
Qed.

Lemma StronglySorted_lt_NoDup (l : list Z) : StronglySorted Z.lt l → NoDup l.
Proof.
  induction 1 as [|x l _ IH Hx]; constructor; [|done]. intros Hin. rewrite Forall_forall in Hx. apply Hx in Hin. lia.
Qed.


Lemma waitNext_returns epoch last clock timestamp :
  last < timestamp ∨ (∃ now, now ∈ clock ∧ last < milliseconds epoch now) →
  ∃ clock' t, waitNext clock epoch last timestamp = (clock', Ok t).
Proof.
  revert timestamp. induction clock as [|now clock IH]; intros timestamp H; simpl;
    destruct (Z.leb_spec timestamp last) as [Hle|Hlt]; eauto.
  - destruct H as [|(now & Hin & _)]; [lia|by apply elem_of_nil in Hin].
  - apply IH. destruct H as [|(now' & [->|Hin]%elem_of_cons & Hnow')]; [lia|by left|by eauto].
Qed.

(** A snowflake sequence always answers.  [Acquire] returns as soon as its
    clock has moved on: one reading is enough within a millisecond, and a full
    millisecond is left with the first later reading. *)
Theorem snowflake_answers clock seq :
  (∃ now, now ∈ clock ∧ lastTime seq < milliseconds (epoch seq) now) →
  ∃ seq' clock' id, Acquire clock seq = (seq', clock', Ok id) ∧ CurrentVal seq' = id.
Proof.
  intros (now & Hin & Hnow). unfold Acquire. destruct clock as [|first clock]; [by apply elem_of_nil in Hin|].
  destruct (Z.eqb_spec (milliseconds (epoch seq) first) (lastTime seq)) as [Heq|Hne]; [|by eauto 10].
  destruct (_ =? 0); [|by eauto 10].
  destruct (waitNext_returns (epoch seq) (lastTime seq) clock (milliseconds (epoch seq) first)) as (clock' & t & ->); [|by eauto 10].
  right. apply elem_of_cons in Hin as [->|Hin]; [lia|eauto].
Qed.

(** ** The numbers of the nodes *)

(** The rows of the table: [(table_name, node_id)] to [(work_id, renew_time)]. *)
Abbreviation workTable := (gmap (string * string) (Z * Z)).

(** The greatest of the work ids of a table that satisfy a condition. *)
Definition greatest (t : workTable) (tableName : string) (P : Z → Prop) (o : option Z) : Prop :=
  match o with
  | Some w => (∃ node renew, t !! (tableName, node) = Some (w, renew) ∧ P renew) ∧
              (∀ node w' renew, t !! (tableName, node) = Some (w', renew) → P renew → w' ≤ w)
  | None => ∀ node w renew, t !! (tableName, node) = Some (w, renew) → ¬ P renew
  end.

Section WorkIds.
Context {DB T D : Type} `{Runtime DB T D} `{Dataset D} {TL : TimeLib} {FT : FloatText} {DC : DecimalLib}.

(** A dataset that starts with a row of one cell. *)
Definition oneCell (ds : D) (fuel : nat) (c : option Z) : Prop :=
  ∃ row, (Next fuel ds).2 = Ok row ∧
    match c with
    | None => Scan row 1 = Ok [None]
    | Some w => ∃ v, Scan row 1 = Ok [Some v] ∧ Int64 v = Ok w ∧ Int64_value v = w
    end.

(** What MySQL documents of the statements.  [REPLACE] deletes the rows that
    have the new row's value in a unique key, here those of the same table
    with the same node or the same work id. *)
Class WorkTableLaws `{!RuntimeLaws DB T D workTable} := {
  select_self tx tx' r tbl node :
    Query _selectSelfWorkIdWithXLock [stringValue tbl; stringValue node] tx = (tx', r) →
    view tx' = view tx ∧
    ∀ ds fuel, r = Ok (Ok ds) →
      match view tx !! (tbl, node) with
      | None => (Next fuel ds).2 = Err EOF
      | Some (w, _) => oneCell ds fuel (Some w)
      end;
  select_max tx tx' r tbl :
    Query _selectMaxWorkIdWithXLock [stringValue tbl] tx = (tx', r) →
    view tx' = view tx ∧
    ∀ ds fuel, r = Ok (Ok ds) → ∃ o, greatest (view tx) tbl (λ _, True) o ∧ oneCell ds fuel o;
  select_free tx tx' r tbl :
    Query _selectFreeWorkIdWithXLock [stringValue tbl] tx = (tx', r) →
    view tx' = view tx ∧
    ∀ ds fuel, r = Ok (Ok ds) → ∃ o limit, greatest (view tx) tbl (λ renew, renew < limit) o ∧ oneCell ds fuel o;
  replace_work_id tx tx' w node tbl :
    Exec _setWorkId [int64Value w; stringValue node; stringValue tbl] tx = (tx', Ok tt) →
    ∃ now, view tx' =
      <[(tbl, node) := (w, now)]> (filter (λ e, ¬ (e.1.1 = tbl ∧ e.2.1 = w)) (view tx));
}.

Context {RL : RuntimeLaws DB T D workTable} {WL : WorkTableLaws} (fuel : nat).

(** In every table, different nodes have different work ids, from 1 on. *)
Definition distinctIds (t : workTable) : Prop :=
  (∀ tbl n n' w r r', t !! (tbl, n) = Some (w, r) → t !! (tbl, n') = Some (w, r') → n = n') ∧
  (∀ tbl n w r, t !! (tbl, n) = Some (w, r) → 1 ≤ w ≤ workIdMax).

(** What [findWorkID] answers. *)
Inductive found (t : workTable) (tbl node : string) : Z → Prop :=
| found_own w r : t !! (tbl, node) = Some (w, r) → found t tbl node w
| found_first : (∀ n w r, t !! (tbl, n) ≠ Some (w, r)) → found t tbl node 1
| found_next w : t !! (tbl, node) = None → greatest t tbl (λ _, True) (Some w) → w < workIdMax → found t tbl node (w + 1)
| found_reused w limit : t !! (tbl, node) = None → greatest t tbl (λ _, True) (Some workIdMax) →
    greatest t tbl (λ r, r < limit) (Some w) → found t tbl node (w + 1).

Lemma queryRow_Ok tx sql args tx' row :
  queryRow fuel tx sql args = (tx', Ok row) → ∃ ds, Query sql args tx = (tx', Ok (Ok ds)) ∧ (Next fuel ds).2 = row.
Proof.
  unfold queryRow. destruct (Query sql args tx) as [tx1 [[ds|e| |]|e| |]]; simpl; try discriminate.
  intros [= -> <-]. eauto.
Qed.

Lemma findFreeWorkID_found tx tbl tx' w' :
  distinctIds (view tx) → findFreeWorkID fuel tx tbl = (tx', Ok w') →
  view tx' = view tx ∧ ∃ w limit, w' = w + 1 ∧ greatest (view tx) tbl (λ r, r < limit) (Some w).
Proof using WL.
  intros [_ Hb]. unfold findFreeWorkID. destruct (queryRow _ _ _ _) as [tx1 [row|e| |]] eqn:Eq; [|done..].
  apply queryRow_Ok in Eq as (ds & Hq & <-). apply select_free in Hq as [Hv Hds].
  destruct (Hds ds fuel eq_refl) as (o & limit & Hg & row & Hrow & Hc). unfold scanFirst. rewrite Hrow.
  destruct o as [w|]; [destruct Hc as (v & Hscan & _ & Hv')|]; simpl.
  - rewrite Hscan. simpl. rewrite Hv'. intros [= -> <-]. split; [done|]. exists w, limit. split; [|done].
    destruct Hg as [(n & r & Hn & _) _]. apply Hb in Hn. apply wrapS_id; [lia|]. unfold inS, workIdMax in *. lia.
  - by rewrite Hc.
Qed.

Lemma findNewWorkID_found tx tbl node tx' w' :
  distinctIds (view tx) → view tx !! (tbl, node) = None → findNewWorkID fuel tx tbl = (tx', Ok w') →
  view tx' = view tx ∧ found (view tx) tbl node w'.
Proof using WL.
  intros Hd Hnew. unfold findNewWorkID. destruct (queryRow _ _ _ _) as [tx1 [row|e| |]] eqn:Eq; [|done..].
  apply queryRow_Ok in Eq as (ds & Hq & <-). apply select_max in Hq as [Hv Hds].
  destruct (Hds ds fuel eq_refl) as (o & Hg & row & Hrow & Hc). unfold scanFirst. rewrite Hrow.
  destruct o as [w|]; [destruct Hc as (v & Hscan & _ & Hv')|]; simpl; cycle 1.
  { rewrite Hc. simpl. intros [= -> <-]. split; [done|]. apply found_first. intros n w r Hn. by destruct (Hg n w r Hn). }
  rewrite Hscan. simpl. rewrite Hv'. destruct Hd as [Hinj Hb]. pose proof Hg as [(n & r & Hn & _) _]. apply Hb in Hn as Hw.
  rewrite wrapS_id by (unfold inS, workIdMax in *; lia).
  destruct (Z.gtb_spec (w + 1) workIdMax).
  - intros Hf. apply findFreeWorkID_found in Hf as (Hv2 & wf & limit & -> & Hfree); [|by rewrite Hv].
    split; [congruence|]. rewrite Hv in Hfree. apply (found_reused _ _ _ _ limit); [done| |done].
    by replace workIdMax with w by lia.
  - intros [= -> <-]. split; [done|]. apply found_next; [done..|lia].
Qed.

Lemma findWorkID_found tx tbl node tx' w :
  distinctIds (view tx) → findWorkID node fuel tx tbl = (tx', Ok w) → view tx' = view tx ∧ found (view tx) tbl node w.
Proof using WL.
  intros Hd. unfold findWorkID. destruct (queryRow _ _ _ _) as [tx1 [row|e| |]] eqn:Eq; [|done..].
  apply queryRow_Ok in Eq as (ds & Hq & <-). apply select_self in Hq as [Hv Hds]. specialize (Hds ds fuel eq_refl).
  destruct (view tx !! (tbl, node)) as [[w0 r]|] eqn:Eself.
  - destruct Hds as (row & Hrow & v & Hscan & Hi & _). rewrite Hrow. unfold scanFirst. simpl. rewrite Hscan. simpl. rewrite Hi.
    intros [= -> <-]. split; [done|]. by econstructor.
  - rewrite Hds. intros Hf. eapply (findNewWorkID_found _ _ node) in Hf as [Hv2 Hf]; [|by rewrite Hv..].
    split; [congruence|]. by rewrite Hv in Hf.
Qed.

(** Registering in the table. *)
Lemma initWorkerID_found db seq conf node db' seq' :
  distinctIds (data db) → initWorkerID node fuel db seq conf = (db', seq', Ok tt) →
  found (data db) (Name conf) node (workId seq') ∧ 0 ≤ workId seq' ≤ workIdMax ∧
  ∃ now, data db' = <[(Name conf, node) := (workId seq', now)]>
    (filter (λ e, ¬ (e.1.1 = Name conf ∧ e.2.1 = workId seq')) (data db)).
Proof using WL.
  intros Hd. unfold initWorkerID, inTx. destruct (Begin db) as [db1 [tx|e| |]] eqn:Eb; [|done..].
  apply Begin_data in Eb as [Hdb Hv]. specialize (Hv tx eq_refl).
  destruct (findWorkID node fuel tx (Name conf)) as [tx1 [w|e| |]] eqn:Ef; [|done..].
  apply findWorkID_found in Ef as [Hv1 Hf]; [|by rewrite Hv].
  unfold execCommit. destruct (Exec _ _ tx1) as [tx2 [[]|e| |]] eqn:Ee; [|done..].
  apply replace_work_id in Ee as [now Hv2].
  destruct (Commit db1 tx2) as [[db2 tx3] [[]|e| |]] eqn:Ec; [|done..]. apply Commit_data in Ec.
  simpl. destruct (Z.ltb_spec w 0), (Z.gtb_spec w workIdMax); simpl; try done. intros [= <- <-].
  rewrite Rollback_data, Ec, Hv2, Hv1, Hv. rewrite Hv in Hf. split; [done|]. split; [simpl; lia|]. by exists now.
Qed.

(** Nodes get different numbers.  While a table of the sequences has a
    work id below 1024 as its greatest, registering a node gives it a number
    that no other node of the table has, the same as before if it had one, and
    leaves the other nodes' numbers as they were. *)
Theorem worker_ids_distinct db seq conf node db' seq' :
  distinctIds (data db) →
  (∀ n w r, data db !! (Name conf, n) = Some (w, r) → w < workIdMax) →
  initWorkerID node fuel db seq conf = (db', seq', Ok tt) →
  distinctIds (data db') ∧
  (∃ now, data db' !! (Name conf, node) = Some (workId seq', now)) ∧
  (∀ w r, data db !! (Name conf, node) = Some (w, r) → workId seq' = w) ∧
  (∀ tbl n, (tbl, n) ≠ (Name conf, node) → data db' !! (tbl, n) = data db !! (tbl, n)).
Proof using WL.
  intros Hd Hfree Hinit. apply initWorkerID_found in Hinit as (Hf & Hw & now & ->); [|done].
  destruct Hd as [Hinj Hb].
  assert (1 ≤ workId seq' ∧ ∀ n r, data db !! (Name conf, n) = Some (workId seq', r) → n = node) as [Hge Huniq].
  { destruct Hf as [w r Hown|Hnone|w Hnew [Hin Hmax] Hlt|w limit Hnew [(n & r & Hn & _) _] _].
    - split; [apply Hb in Hown; lia|]. intros n r' Hn. by eapply Hinj.
    - split; [done|]. intros n r Hn. by apply Hnone in Hn.
    - split; [destruct Hin as (n & r & Hn & _); apply Hb in Hn; lia|]. intros n r Hn. apply Hmax in Hn; [lia|done].
    - apply Hfree in Hn. lia. }
  assert (∀ tbl n, (tbl, n) ≠ (Name conf, node) →
    <[(Name conf, node) := (workId seq', now)]> (filter (λ e, ¬ (e.1.1 = Name conf ∧ e.2.1 = workId seq')) (data db)) !! (tbl, n)
    = data db !! (tbl, n)) as Hother.
  { intros tbl n Hne. rewrite lookup_insert_ne by done. destruct (data db !! (tbl, n)) as [[w r]|] eqn:E.
    - apply map_lookup_filter_Some. split; [done|]. simpl. intros [-> ->]. apply Huniq in E. congruence.
    - apply map_lookup_filter_None. by left. }
  split; [split|split; [by rewrite lookup_insert_eq; eauto|split; [|done]]].
  - intros tbl n n' w r r' Hn Hn'.
    destruct (decide ((tbl, n) = (Name conf, node))) as [E|Hne], (decide ((tbl, n') = (Name conf, node))) as [E'|Hne'].
    + congruence.
    + injection E as -> ->. rewrite lookup_insert_eq in Hn. injection Hn as <- _. rewrite Hother in Hn' by done. symmetry. by eapply Huniq.
    + injection E' as -> ->. rewrite lookup_insert_eq in Hn'. injection Hn' as <- _. rewrite Hother in Hn by done. by eapply Huniq.
    + rewrite Hother in Hn, Hn' by done. by eapply Hinj.
  - intros tbl n w r Hn. destruct (decide ((tbl, n) = (Name conf, node))) as [[= -> ->]|Hne].
    + rewrite lookup_insert_eq in Hn. injection Hn as <- _. lia.
    + rewrite Hother in Hn by done. by eapply Hb.
  - intros w r Hown. destruct Hf as [w' r' Hown'|Hnone|w' Hnew _ _|w' limit Hnew _ _]; [congruence| |congruence..].
    by apply Hnone in Hown.
Qed.
End WorkIds.

Module SnowflakeExamples.

(** *** The table in memory *)

(** The rows and the time of the database. *)
Record store := mkStore { rows_ : workTable; now_ : Z }.

Definition workIds (t : workTable) (tbl : string) (stale : Z → bool) : list Z :=
  omap (λ e, if bool_decide (e.1.1 = tbl) && stale e.2.2 then Some e.2.1 else None) (map_to_list t).

Definition greatestOf (l : list Z) : option Z := foldr (λ w o, Some match o with None => w | Some w' => Z.max w w' end) None l.

Definition cellRow (o : option Z) : Row := virtualRow false (mkVirtual [NewField "work_id" FieldTypeLong] [int64Value <$> o]).

Definition query (sql : string) (args : list ProtoValue) (tx : store) : store * outcome (outcome VirtualDataset) :=
  (tx, match args with
       | [stringValue tbl; stringValue node] =>
           Ok (Ok (mkVirtualDataset [] match rows_ tx !! (tbl, node) with Some (w, _) => [cellRow (Some w)] | None => [] end))
       | [stringValue tbl] =>
           let stale r := if (sql =? _selectFreeWorkIdWithXLock)%string then r <? now_ tx - 600 else true in
           Ok (Ok (mkVirtualDataset [] [cellRow (greatestOf (workIds (rows_ tx) tbl stale))]))
       | _ => Err (NewError "syntax")
       end).

Definition exec (sql : string) (args : list ProtoValue) (tx : store) : store * outcome unit :=
  match args with
  | [int64Value w; stringValue node; stringValue tbl] =>
      (mkStore (<[(tbl, node) := (w, now_ tx)]> (filter (λ e, ¬ (e.1.1 = tbl ∧ e.2.1 = w)) (rows_ tx))) (now_ tx), Ok tt)
  | _ => (tx, Ok tt)
  end.

#[global] Instance store_Runtime : Runtime store store VirtualDataset := {|
  Begin db := (db, Ok db);
  Query := query;
  Exec := exec;
  Commit db tx := (tx, tx, Ok tt);
  Rollback db tx := db;
|}.

#[global, program] Instance store_RuntimeLaws : RuntimeLaws store store VirtualDataset workTable := {|
  data := rows_;
  view := rows_;
|}.
Next Obligation. intros db db' r. simpl. intros [= <- <-]. split; [done|]. by intros tx [= <-]. Qed.
Next Obligation. intros db tx db' tx'. simpl. by intros [= <- <-]. Qed.
Next Obligation. done. Qed.

Lemma greatestOf_spec l :
  match greatestOf l with Some w => w ∈ l ∧ ∀ w', w' ∈ l → w' ≤ w | None => l = [] end.
Proof.
  induction l as [|x l IH]; [done|]. simpl. destruct (greatestOf l) as [w|].
  - destruct IH as [Hin Hmax]. split.
    + destruct (Z.max_spec x w) as [[_ ->]|[_ ->]]; set_solver.
    + intros w' [->|Hw']%elem_of_cons; [lia|]. apply Hmax in Hw'. lia.
  - subst. split; [set_solver|]. intros w' [->|Hw']%elem_of_cons; [lia|]. by apply elem_of_nil in Hw'.
Qed.

Lemma elem_of_workIds t tbl stale w :
  w ∈ workIds t tbl stale ↔ ∃ node r, t !! (tbl, node) = Some (w, r) ∧ stale r = true.
Proof.
  unfold workIds. rewrite list_elem_of_omap. split.
  - intros ([[tbl' node] [w' r]] & Hin%elem_of_map_to_list & Heq). simpl in Heq.
    destruct (decide (tbl' = tbl)) as [->|Hne]; [|by rewrite bool_decide_false in Heq].
    rewrite bool_decide_true in Heq by done. destruct (stale r) eqn:Es; [|done]. injection Heq as ->. eauto.
  - intros (node & r & Hl & Hs). exists ((tbl, node), (w, r)). split; [by apply elem_of_map_to_list|]. simpl.
    by rewrite bool_decide_true, Hs.
Qed.

Lemma greatestOf_greatest t tbl (stale : Z → bool) (P : Z → Prop) :
  (∀ r, stale r = true ↔ P r) → greatest t tbl P (greatestOf (workIds t tbl stale)).
Proof.
  intros HP. pose proof (greatestOf_spec (workIds t tbl stale)) as H. destruct (greatestOf _) as [w|]; simpl.
  - destruct H as [(node & r & Hl & Hs)%elem_of_workIds Hmax]. split; [exists node, r; by rewrite <- HP|].
    intros node' w' r' Hl' Hp. apply Hmax, elem_of_workIds. exists node', r'. by rewrite HP.
  - intros node w r Hl Hp. eapply elem_of_nil. rewrite <- H. apply elem_of_workIds. exists node, r. by rewrite HP.
Qed.

Lemma cellRow_oneCell {TL : TimeLib} {FT : FloatText} {DC : DecimalLib} fuel o :
  oneCell (mkVirtualDataset [] [cellRow o]) fuel o.
Proof. exists (cellRow o). split; [done|]. destruct o as [w|]; [|done]. by exists (int64Value w). Qed.

#[global] Instance store_WorkTableLaws {TL : TimeLib} {FT : FloatText} {DC : DecimalLib} : WorkTableLaws.
Proof.
  split.
  - intros tx tx' r tbl node. simpl. intros [= <- <-]. split; [done|]. intros ds fuel [= <-].
    destruct (rows_ tx !! (tbl, node)) as [[w r]|]; [apply cellRow_oneCell|done].
  - intros tx tx' r tbl. simpl. intros [= <- <-]. split; [done|]. intros ds fuel [= <-].
    eexists. split; [|apply cellRow_oneCell]. by apply greatestOf_greatest.
  - intros tx tx' r tbl. simpl. intros [= <- <-]. split; [done|]. intros ds fuel [= <-].
    exists (greatestOf (workIds (rows_ tx) tbl (λ r, r <? now_ tx - 600))), (now_ tx - 600).
    split; [|apply cellRow_oneCell]. apply greatestOf_greatest. intros r. apply Z.ltb_lt.
  - intros tx tx' w node tbl. simpl. intros [= <-]. by exists (now_ tx).
Qed.

Import NoDates NoFloats ExactDecimal.

(** *** Numbers of nodes *)

Definition conf : SequenceConfig := mkConf "student" "snowflake" ∅.
Definition zero : snowflakeSequence := mkSnowflake 0 0 0 0 0 0.
Definition oneNode : store := mkStore {[("student", "node-a") := (1, 90)]} 100.

Lemma oneNode_distinct : distinctIds (rows_ oneNode) ∧
  ∀ n w r, rows_ oneNode !! ("student", n) = Some (w, r) → w < workIdMax.
Proof.
  unfold oneNode, workIdMax. simpl. split; [split|].
  - intros tbl n n' w r r' [[= <- <-] _]%lookup_singleton_Some [[= <-] _]%lookup_singleton_Some. done.
  - intros tbl n w r [_ [= <- <-]]%lookup_singleton_Some. unfold workIdMax. lia.
  - intros n w r [_ [= <- <-]]%lookup_singleton_Some. lia.
Qed.

Lemma worker_ids_distinct_witness :
  let '(db, seq, r) := initWorkerID "node-b" 1 oneNode zero conf in
  r = Ok tt ∧ distinctIds (rows_ db) ∧ workId seq = 2.
Proof.
  destruct (initWorkerID "node-b" 1 oneNode zero conf) as [[db seq] r] eqn:E.
  assert (r = Ok tt ∧ workId seq = 2) as [-> Hw] by (vm_compute in E; injection E as _ <- <-; done).
  split; [done|]. split; [|exact Hw].
  exact (proj1 (worker_ids_distinct 1 oneNode zero conf "node-b" db seq (proj1 oneNode_distinct) (proj2 oneNode_distinct) E)).
Defined.

(** A node takes the number of a running node.  When the numbers are
    used up, [findWorkID] looks for the greatest number that was not renewed
    for ten minutes, but then adds one to it, and [REPLACE] deletes the row of
    the node that has that number and goes on using it. *)
Theorem running_number_taken :
  let db := mkStore {[("student", "stale") := (1, 0); ("student", "running") := (2, 990); ("student", "last") := (1024, 990)]} 1000 in
  let '(db', seq, r) := initWorkerID "new" 1 db zero conf in
  r = Ok tt ∧ workId seq = 2 ∧ rows_ db' !! ("student", "running") = None.
Proof. vm_compute. done. Qed.

(** *** Identifiers *)

Lemma milliseconds_exact t : 0 ≤ t < 2 ^ 41 → milliseconds 0 (t * 1000000) = t.
Proof. intros. unfold milliseconds, Sub. rewrite Z.min_l, Z.max_r by lia. rewrite Z.sub_0_r. apply Z.quot_mul. lia. Qed.

Definition nodeA : node_run :=
  mkRun (mkSnowflake 0 0 0 0 1 0) [5000000; 5000000; 6000000]
    [compose 5 1 1; compose 5 1 2; compose 6 1 0].
Definition nodeB : node_run :=
  mkRun (mkSnowflake 0 0 0 0 2 0) [5000000; 5100000] [compose 5 2 1; compose 5 2 2].


Lemma snowflake_answers_witness :
  ∃ seq' clock' id, Acquire [5000000; 6000000] (mkSnowflake 1 0 5 4095 1 0) = (seq', clock', Ok id) ∧ CurrentVal seq' = id.
Proof. apply (snowflake_answers [5000000; 6000000] (mkSnowflake 1 0 5 4095 1 0)). exists 6000000. split; [set_solver|done]. Defined.

Lemma repeated_bits t s :
  0 ≤ t < 2 ^ 40 → 0 ≤ s < 2 ^ 12 →
  Z.lor (Z.lor (i64 (Z.shiftl t timeShift)) (i64 (Z.shiftl 1024 workIdShift))) s = compose (Z.lor t 1) 0 s.
Proof.
  intros Ht Hs. change timeShift with 22. change (i64 (Z.shiftl 1024 workIdShift)) with (Z.shiftl 1 22).
  rewrite (wrapS_id 64 (Z.shiftl t 22)) by (rewrite ?Z.shiftl_mul_pow2 by lia; unfold inS; lia).
  rewrite <- Z.shiftl_lor. replace (Z.shiftl (Z.lor t 1) 22) with (Z.shiftl (Z.lor t 1 * 2 ^ 10) 12).
  - rewrite lor_low by lia. unfold compose. lia.
  - rewrite !Z.shiftl_mul_pow2 by lia. lia.
Qed.

(** Number 1024 repeats identifiers.  [initWorkerID] accepts the numbers
    up to 1024, but ten bits hold them only up to 1023: the node numbered 1024
    makes the identifiers of an even millisecond again in the next one. *)
Theorem number_1024_repeats t :
  0 < t < 2 ^ 39 →
  acquireN 3 [2 * t * 1000000; (2 * t + 1) * 1000000; (2 * t + 1) * 1000000] (mkSnowflake 0 0 0 0 workIdMax 0)
  = Ok [compose (2 * t + 1) 0 1; compose (2 * t + 1) 0 0; compose (2 * t + 1) 0 1].
Proof.
  intros Ht. assert (Z.lor (2 * t) 1 = 2 * t + 1) as E1.
  { pose proof (lor_low 1 t 1 ltac:(lia) ltac:(lia)) as E. rewrite Z.shiftl_mul_pow2 in E by lia. rewrite Z.mul_comm. exact E. }
  assert (Z.lor (2 * t + 1) 1 = 2 * t + 1) as E2 by (rewrite <- E1, <- Z.lor_assoc; done).
  cbn [acquireN]. unfold Acquire. cbn [epoch lastTime step seqOffset workId].
  rewrite milliseconds_exact, (proj2 (Z.eqb_neq (2 * t) 0)) by lia. cbn [epoch lastTime step seqOffset workId].
  rewrite milliseconds_exact, (proj2 (Z.eqb_neq (2 * t + 1) (2 * t))) by lia. cbn [epoch lastTime step seqOffset workId].
  rewrite milliseconds_exact, Z.eqb_refl by lia.
  unfold workIdMax. change (Z.land (i64 (Z.land (Z.lnot (Z.land (Z.lnot 0) 1)) 1 + 1)) stepMask) with 1.
  change (Z.land (Z.lnot (Z.land (Z.lnot 0) 1)) 1) with 0. change (Z.land (Z.lnot 0) 1) with 1.
  change (1 =? 0) with false. cbn [mbind outcome_bind]. rewrite !repeated_bits, E1, E2 by lia. done.
Qed.

Lemma number_1024_repeats_witness :
  acquireN 3 [8000000; 9000000; 9000000] (mkSnowflake 0 0 0 0 workIdMax 0) = Ok [compose 9 0 1; compose 9 0 0; compose 9 0 1].
Proof. apply (number_1024_repeats 4). lia. Defined.
End SnowflakeExamples.
