(* ===== verification/MysqlText.v ===== *)
(** * Dates, numbers and strings of the protocol: [pkg/mysql/utils.go]

    Reading and printing of dates and times in the text and in the binary
    protocol, and length-encoded integers and strings at the head of a slice.
    A [time.Time] is an instant; its calendar fields in the location of the
    process, and the instant of such fields, are the host's. *)
From S2P Require Import Prelude GoStd Value Encoding Packet.

(** ** The calendar *)

(** The arguments of [time.Date], and what [Date], [Clock] and [Nanosecond]
    answer. *)
Record civil := mkCivil {
  year : Z;
  month : Z;
  day : Z;
  hour : Z;
  minute : Z;
  second : Z;
  nanosecond : Z;
}.

Class Location := {
  time_Date : civil → Time;
  time_Civil : Time → civil;
}.

(** The fields of a time that exists in the years of four digits. *)
Record valid (c : civil) : Prop := {
  valid_year : 1 ≤ year c ≤ 9999;
  valid_month : 1 ≤ month c ≤ 12;
  valid_day : 1 ≤ day c ≤ 31;
  valid_hour : 0 ≤ hour c ≤ 23;
  valid_minute : 0 ≤ minute c ≤ 59;
  valid_second : 0 ≤ second c ≤ 59;
  valid_nanosecond : 0 ≤ nanosecond c < 1000000000;
}.

(** The start of a day. *)
Definition midnight (y m d : Z) : civil := mkCivil y m d 0 0 0 0.

(** ** Digits *)

Definition digits01 : bytes := text "0123456789012345678901234567890123456789012345678901234567890123456789012345678901234567890123456789".
Definition digits10 : bytes := text "0000000000111111111122222222223333333333444444444455555555556666666666777777777788888888889999999999".

(** [digits10[p], digits01[p]]. *)
Definition twoDigits (p : Z) : outcome bytes := a ← load digits10 p; b ← load digits01 p; Ok [a; b].

Definition bToi (b : Z) : outcome Z :=
  if (b <? 48) || (b >? 57) then Err (NewError "not [0-9]") else Ok (b - 48).

Definition parseByteYear (b : bytes) : outcome Z :=
  b0 ← load b 0; v0 ← bToi b0;
  b1 ← load b 1; v1 ← bToi b1;
  b2 ← load b 2; v2 ← bToi b2;
  b3 ← load b 3; v3 ← bToi b3;
  Ok (v0 * 1000 + v1 * 100 + v2 * 10 + v3).

Definition parseByte2Digits (b1 b2 : Z) : outcome Z :=
  d1 ← bToi b1; d2 ← bToi b2; Ok (d1 * 10 + d2).

Fixpoint microDigits (b : bytes) (ns digit : Z) : outcome Z :=
  match b with
  | [] => Ok ns
  | c :: b => v ← bToi c; microDigits b (ns + v * digit) (Z.quot digit 10)
  end.

Definition parseByteNanoSec (b : bytes) : outcome Z := ns ← microDigits b 0 100000; Ok (ns * 1000).

(** ** Text *)

Definition badField : error := NewError "bad value for field".

(** [if b[i] != c { return time.Time{}, fmt.Errorf(...) }]. *)
Definition expect (b : bytes) (i c : Z) : outcome unit :=
  x ← load b i; if x =? c then Ok tt else Err badField.

Definition digitsAt (b : bytes) (i : Z) : outcome Z :=
  b1 ← load b i; b2 ← load b (i + 1); parseByte2Digits b1 b2.

Definition atLeast1 (v : Z) : Z := if v <=? 0 then 1 else v.

Definition zeroDateTime : bytes := text "0000-00-00 00:00:00.000000".

Definition parseDateTime {L : Location} (b : bytes) : outcome Time :=
  if existsb (Z.eqb (len b)) [10; 19; 21; 22; 23; 24; 25; 26] then
    if bool_decide (b = take (length b) zeroDateTime) then Ok zeroTime
    else
      y ← parseByteYear b; let y := atLeast1 y in
      _ ← expect b 4 45;
      m ← digitsAt b 5; let m := atLeast1 m in
      _ ← expect b 7 45;
      d ← digitsAt b 8; let d := atLeast1 d in
      if len b =? 10 then Ok (time_Date (midnight y m d))
      else
        _ ← expect b 10 32;
        h ← digitsAt b 11;
        _ ← expect b 13 58;
        mi ← digitsAt b 14;
        _ ← expect b 16 58;
        s ← digitsAt b 17;
        if len b =? 19 then Ok (time_Date (mkCivil y m d h mi s 0))
        else
          _ ← expect b 19 46;
          ns ← parseByteNanoSec (drop 20 b);
          Ok (time_Date (mkCivil y m d h mi s ns))
  else Err (NewError "invalid time bytes").

(** [for n > 0 && localBuf[n-1] == '0' { n-- }]. *)
Fixpoint dropZeros (l : bytes) : bytes :=
  match l with
  | [] => []
  | c :: l' => if c =? 48 then dropZeros l' else l
  end.

Definition trimZeros (l : bytes) : bytes := reverse (dropZeros (reverse l)).

Definition AppendDateTime {L : Location} (buf : bytes) (t : Time) : outcome bytes :=
  let c := time_Civil t in
  let nsec := nanosecond c in
  if (year c <? 1) || (year c >? 9999) then Err (NewError "year is not in the range [1, 9999]")
  else
    y100 ← twoDigits (Z.quot (year c) 100); y1 ← twoDigits (Z.rem (year c) 100);
    m ← twoDigits (month c);
    d ← twoDigits (day c);
    let date := y100 ++ y1 ++ [45] ++ m ++ [45] ++ d in
    if (hour c =? 0) && (minute c =? 0) && (second c =? 0) && (nsec =? 0) then Ok (buf ++ date)
    else
      h ← twoDigits (hour c);
      mi ← twoDigits (minute c);
      s ← twoDigits (second c);
      let clock := date ++ [32] ++ h ++ [58] ++ mi ++ [58] ++ s in
      if nsec =? 0 then Ok (buf ++ clock)
      else
        f1 ← load digits01 (Z.quot nsec 100000000);
        f23 ← twoDigits (Z.rem (Z.quot nsec 1000000) 100);
        f45 ← twoDigits (Z.rem (Z.quot nsec 10000) 100);
        f67 ← twoDigits (Z.rem (Z.quot nsec 100) 100);
        f89 ← twoDigits (Z.rem nsec 100);
        Ok (buf ++ trimZeros (clock ++ [46; f1] ++ f23 ++ f45 ++ f67 ++ f89)).

(** ** Binary *)

(** [binary.LittleEndian.Uint16(data[lo:lo+n])] and its like. *)
Definition littleEndianAt (n : nat) (data : bytes) (lo : Z) : outcome Z :=
  s ← slice data lo (lo + Z.of_nat n); Ok (fromLittleEndian s).

Definition binaryDate (data : bytes) : outcome civil :=
  y ← littleEndianAt 2 data 0; m ← load data 2; d ← load data 3; Ok (midnight y m d).

Definition binaryClock (data : bytes) (c : civil) (nsec : Z) : outcome civil :=
  h ← load data 4; mi ← load data 5; s ← load data 6; Ok (mkCivil (year c) (month c) (day c) h mi s nsec).

Definition parseBinaryDateTime {L : Location} (num : Z) (data : bytes) : outcome Time :=
  if num =? 0 then Ok zeroTime
  else if num =? 4 then c ← binaryDate data; Ok (time_Date c)
  else if num =? 7 then c ← binaryDate data; c ← binaryClock data c 0; Ok (time_Date c)
  else if num =? 11 then
    c ← binaryDate data; us ← littleEndianAt 4 data 7; c ← binaryClock data c (us * 1000); Ok (time_Date c)
  else Err (NewError "invalid DATETIME packet length").

Definition appendMicrosecs (dst src : bytes) (decimals : Z) : outcome bytes :=
  if decimals <=? 0 then Ok dst
  else if bool_decide (src = []) then z ← slice (text ".000000") 0 (decimals + 1); Ok (dst ++ z)
  else
    us ← littleEndianAt 4 src 0;
    let p1 := u8 (us / 10000) in
    let us := u32 (us - u32 (10000 * p1)) in
    let p2 := u8 (us / 100) in
    let us := u32 (us - u32 (100 * p2)) in
    let p3 := u8 us in
    d1 ← twoDigits p1;
    if decimals =? 1 then Ok (dst ++ [46] ++ take 1 d1)
    else if decimals =? 2 then Ok (dst ++ [46] ++ d1)
    else
      d2 ← twoDigits p2;
      if decimals =? 3 then Ok (dst ++ [46] ++ d1 ++ take 1 d2)
      else if decimals =? 4 then Ok (dst ++ [46] ++ d1 ++ d2)
      else
        d3 ← twoDigits p3;
        if decimals =? 5 then Ok (dst ++ [46] ++ d1 ++ d2 ++ take 1 d3)
        else Ok (dst ++ [46] ++ d1 ++ d2 ++ d3).

Definition formatBinaryDateTime (src : bytes) (length_ : Z) : outcome bytes :=
  if bool_decide (src = []) then slice zeroDateTime 0 length_
  else if negb (existsb (Z.eqb length_) [10; 19; 21; 22; 23; 24; 25; 26]) then Err (NewError "illegal length")
  else if negb (existsb (Z.eqb (len src)) [4; 7; 11]) then Err (NewError "illegal packet length")
  else
    y ← littleEndianAt 2 src 0;
    let pt := y / 100 in
    c ← twoDigits pt; y ← twoDigits (u8 (y - u16 (100 * pt)));
    m ← load src 2; m ← twoDigits m;
    d ← load src 3; d ← twoDigits d;
    let dst := c ++ y ++ [45] ++ m ++ [45] ++ d in
    if length_ =? 10 then Ok dst
    else if len src =? 4 then z ← slice zeroDateTime 10 length_; Ok (dst ++ z)
    else
      h ← load src 4; h ← twoDigits h;
      mi ← load src 5; mi ← twoDigits mi;
      s ← load src 6; s ← twoDigits s;
      appendMicrosecs (dst ++ [32] ++ h ++ [58] ++ mi ++ [58] ++ s) (drop 7 src) (length_ - 20).

Definition formatBinaryTime (src : bytes) (length_ : Z) : outcome bytes :=
  if bool_decide (src = []) then slice zeroDateTime 11 (u8 (11 + length_))
  else if negb (existsb (Z.eqb length_) [8; 10; 11; 12; 13; 14; 15]) then Err (NewError "illegal TIME length")
  else if negb (existsb (Z.eqb (len src)) [8; 12]) then Err (NewError "invalid TIME packet length")
  else
    neg ← load src 0;
    days ← littleEndianAt 4 src 1;
    h ← load src 5;
    let hours := days * 24 + h in
    h ← (if hours >=? 100 then Ok (text (FormatInt hours)) else twoDigits hours);
    mi ← load src 6; mi ← twoDigits mi;
    s ← load src 7; s ← twoDigits s;
    appendMicrosecs ((if neg =? 1 then [45] else []) ++ h ++ [58] ++ mi ++ [58] ++ s) (drop 8 src) (length_ - 9).

(** ** Numbers *)

Definition uint64ToBytes (n : Z) : bytes := littleEndian 8 n.

(** The loop of [uint64ToString]; an [uint64] has at most twenty digits. *)
Fixpoint decimalDigits (fuel : nat) (n : Z) (a : bytes) : bytes :=
  match fuel with
  | O => a
  | S fuel =>
      if n >=? 10 then let q := n / 10 in decimalDigits fuel q (u8 (u8 (n - q * 10) + 0x30) :: a)
      else u8 (u8 n + 0x30) :: a
  end.

Definition uint64ToString (n : Z) : bytes := decimalDigits 20 n [].

Definition stringToInt (b : bytes) : Z :=
  foldl (λ val c, i64 (i64 (val * 10) + u8 (c - 0x30))) 0 b.

(** ** Length-encoded integers and strings *)

(** The number, whether it is NULL, and the bytes read. *)
Definition readLengthEncodedInteger (b : bytes) : outcome (Z * bool * Z) :=
  match b with
  | [] => Ok (0, true, 1)
  | b0 :: _ =>
      if b0 =? 0xfb then Ok (0, true, 1)
      else if b0 =? 0xfc then v ← littleEndianAt 2 b 1; Ok (v, false, 3)
      else if b0 =? 0xfd then v ← littleEndianAt 3 b 1; Ok (v, false, 4)
      else if b0 =? 0xfe then v ← littleEndianAt 8 b 1; Ok (v, false, 9)
      else Ok (b0, false, 1)
  end.

(** The bytes, whether the value is NULL, and the bytes read. *)
Definition readLengthEncodedString (b : bytes) : outcome (bytes * bool * Z) :=
  '(num, isNull, n) ← readLengthEncodedInteger b;
  if num <? 1 then s ← slice b n n; Ok (s, isNull, n)
  else
    let n := add n (i64 num) in
    if len b >=? n then s ← slice b (i64 (n - i64 num)) n; Ok (s, false, n)
    else Err EOF.

Definition skipLengthEncodedString (b : bytes) : outcome Z :=
  '(num, _, n) ← readLengthEncodedInteger b;
  if num <? 1 then Ok n
  else let n := add n (i64 num) in if len b >=? n then Ok n else Err EOF.

Definition readComFieldListDefaultValueLength (data : bytes) (pos : Z) : outcome (Z * Z) :=
  rest ← slice data pos (len data);
  '(l, _, n) ← readLengthEncodedInteger rest;
  Ok (l, add pos n).

Definition PutLengthEncodedInt (n : Z) : bytes :=
  if n <=? 250 then [byte n]
  else if n <=? 0xffff then 0xfc :: littleEndian 2 n
  else if n <=? 0xffffff then 0xfd :: littleEndian 3 n
  else 0xfe :: littleEndian 8 n.

Definition appendLengthEncodedInteger (b : bytes) (n : Z) : bytes :=
  if n <=? 250 then b ++ [byte n]
  else if n <=? 0xffff then b ++ 0xfc :: littleEndian 2 n
  else if n <=? 0xffffff then b ++ 0xfd :: littleEndian 3 n
  else b ++ 0xfe :: littleEndian 8 n.

Definition PutLengthEncodedString (b : bytes) : bytes := PutLengthEncodedInt (len b) ++ b.

(** ** Reading what was written *)

Lemma slice_app a b c : slice (a ++ b ++ c) (len a) (len a + len b) = Ok b.
Proof.
  unfold slice. rewrite !len_app. pose proof (len_nonneg a). pose proof (len_nonneg b). pose proof (len_nonneg c).
  rewrite !(proj2 (Z.leb_le _ _)) by lia. simpl. f_equal. unfold len.
  rewrite Nat2Z.id, drop_app_length. replace (Z.to_nat _) with (length b) by lia. by rewrite take_app_length.
Qed.

Lemma littleEndianAt_app n a v c :
  0 ≤ v < 2 ^ (8 * Z.of_nat n) → littleEndianAt n (a ++ littleEndian n v ++ c) (len a) = Ok v.
Proof.
  intros Hv. unfold littleEndianAt. pose proof (slice_app a (littleEndian n v) c) as E.
  rewrite length_littleEndian in E. rewrite E. simpl. by rewrite fromLittleEndian_littleEndian.
Qed.

Lemma PutLengthEncodedInt_bytes n : PutLengthEncodedInt n = lenEncBytes n.
Proof.
  unfold PutLengthEncodedInt, lenEncBytes. change (Z.shiftl 1 16) with 65536. change (Z.shiftl 1 24) with 16777216.
  destruct (Z.leb_spec n 250), (Z.ltb_spec n 251); try lia; [done|].
  destruct (Z.leb_spec n 0xffff), (Z.ltb_spec n 65536); try lia; [done|].
  destruct (Z.leb_spec n 0xffffff), (Z.ltb_spec n 16777216); try lia; done.
Qed.

Lemma appendLengthEncodedInteger_bytes b n : appendLengthEncodedInteger b n = b ++ lenEncBytes n.
Proof. rewrite <- PutLengthEncodedInt_bytes. unfold appendLengthEncodedInteger, PutLengthEncodedInt. by repeat case_match. Qed.

Lemma readLengthEncodedInteger_app i rest :
  inU 64 i → readLengthEncodedInteger (lenEncBytes i ++ rest) = Ok (i, false, lenEncIntSize i).
Proof.
  unfold inU. intros Hi. unfold lenEncBytes, lenEncIntSize. change (Z.shiftl 1 16) with 65536. change (Z.shiftl 1 24) with 16777216.
  destruct (Z.ltb_spec i 251).
  { simpl. unfold byte. rewrite wrapU_id by (unfold inU; lia).
    rewrite !(proj2 (Z.eqb_neq i _)) by lia. done. }
  assert (∀ n m, 0 ≤ i < 2 ^ (8 * Z.of_nat n) → littleEndianAt n ((m :: littleEndian n i) ++ rest) 1 = Ok i) as Hle.
  { intros n m Hn. exact (littleEndianAt_app n [m] i rest Hn). }
  destruct (Z.ltb_spec i 65536); [|destruct (Z.ltb_spec i 16777216)].
  - pose proof (Hle 2%nat 0xfc ltac:(lia)) as E. simpl in E |- *. by rewrite E.
  - pose proof (Hle 3%nat 0xfd ltac:(lia)) as E. simpl in E |- *. by rewrite E.
  - pose proof (Hle 8%nat 0xfe ltac:(lia)) as E. simpl in E |- *. by rewrite E.
Qed.

Lemma readLengthEncodedString_app s rest :
  buffer s → readLengthEncodedString (lenEncBytes (len s) ++ s ++ rest) = Ok (s, false, lenEncIntSize (len s) + len s).
Proof.
  unfold buffer. intros Hb. pose proof (len_nonneg s). pose proof (lenEncIntSize_range (len s)).
  unfold readLengthEncodedString. rewrite readLengthEncodedInteger_app by (unfold inU; lia). simpl.
  rewrite <- len_lenEncBytes in *. destruct (Z.ltb_spec (len s) 1).
  - assert (s = []) as -> by (destruct s; [done|]; rewrite len_cons in *; pose proof (len_nonneg s); lia).
    pose proof (slice_app (lenEncBytes (len [])) [] rest) as E. change (len []) with 0 in *. rewrite Z.add_0_r in *.
    by rewrite E.
  - rewrite wrapS_id by (unfold inS; lia). rewrite add_small by lia.
    rewrite !len_app. pose proof (len_nonneg rest).
    rewrite (proj2 (Z.geb_le _ _)) by lia. rewrite wrapS_id by (unfold inS; lia).
    replace (len (lenEncBytes (len s)) + len s - len s) with (len (lenEncBytes (len s))) by lia.
    by rewrite slice_app.
Qed.

(** *** Decimal numbers *)

Lemma decimalDigits_value fuel n a :
  0 ≤ n < 2 ^ 63 → n < 10 ^ Z.of_nat fuel → (0 < fuel)%nat →
  stringToInt (decimalDigits fuel n a) = foldl (λ val c, i64 (i64 (val * 10) + u8 (c - 0x30))) n a.
Proof.
  assert (∀ d, 0 ≤ d < 10 → u8 (u8 (u8 d + 48) - 48) = d) as Hd.
  { intros d Hd. unfold wrapU. rewrite !(Z.mod_small d), (Z.mod_small (d + 48)), Z.add_simpl_r, Z.mod_small by lia. done. }
  revert n a. induction fuel as [|fuel IH]; intros n a Hn Hf Hpos; [lia|]. cbn [decimalDigits].
  destruct (Z.geb_spec n 10) as [Hge|Hlt].
  - pose proof (Z.div_mod n 10 ltac:(lia)). pose proof (Z.mod_pos_bound n 10 ltac:(lia)).
    rewrite Nat2Z.inj_succ, Z.pow_succ_r in Hf by lia.
    assert (n / 10 < 10 ^ Z.of_nat fuel) as Hq by (apply Z.div_lt_upper_bound; lia).
    rewrite IH; [|lia|done|destruct fuel; [simpl in Hq; lia|lia]]. cbn [foldl]. rewrite Hd by lia. f_equal.
    rewrite (wrapS_id 64 (n / 10 * 10)) by (unfold inS; lia). rewrite wrapS_id by (unfold inS; lia). lia.
  - unfold stringToInt. cbn [foldl]. rewrite Hd by lia. f_equal. rewrite (wrapS_id 64 (0 * 10)) by (unfold inS; lia).
    apply wrapS_id; [lia|]. unfold inS. lia.
Qed.

(** The decimal digits of a number read back. *)
Lemma stringToInt_uint64ToString n : 0 ≤ n < 2 ^ 63 → stringToInt (uint64ToString n) = n.
Proof. intros Hn. unfold uint64ToString. rewrite decimalDigits_value; [done|lia|simpl; lia|lia]. Qed.

(** *** Dates in text *)

#[local] Arguments bToi : simpl never.
#[local] Arguments parseByte2Digits : simpl never.
#[local] Arguments atLeast1 : simpl never.

(** Evaluate the reads at literal positions of a list whose head is known. *)
Ltac loads :=
  unfold load; cbn;
  repeat match goal with
  | |- context [Z.to_nat ?n] => let r := eval vm_compute in (Z.to_nat n) in progress change (Z.to_nat n) with r
  end; cbn.

Lemma digits_at p : 0 ≤ p < 100 → load digits10 p = Ok (48 + p / 10) ∧ load digits01 p = Ok (48 + p mod 10).
Proof.
  intros Hp.
  assert (forallb (λ p, match load digits10 p, load digits01 p with
                        | Ok a, Ok b => (a =? 48 + p / 10) && (b =? 48 + p mod 10)
                        | _, _ => false
                        end) (seqZ 0 100) = true) as H by (vm_compute; reflexivity).
  rewrite forallb_forall in H. specialize (H p (proj1 (list_elem_of_In _ _) (proj2 (elem_of_seqZ 0 100 p) ltac:(lia)))).
  destruct (load digits10 p) as [a|e| |], (load digits01 p) as [b|e'| |]; try discriminate H.
  apply andb_true_iff in H as [->%Z.eqb_eq ->%Z.eqb_eq]. done.
Qed.

(** Two characters that read as the number [p]. *)
Definition twoOf (p : Z) (l : bytes) : Prop :=
  ∃ a b, l = [a; b] ∧ bToi a = Ok (p / 10) ∧ bToi b = Ok (p mod 10) ∧ 48 ≤ a ∧ 48 ≤ b ∧ (a = 48 → b = 48 → p = 0).

Lemma bToi_digit x : 0 ≤ x < 10 → bToi (48 + x) = Ok x.
Proof. intros Hx. unfold bToi. destruct (Z.ltb_spec (48 + x) 48), (Z.gtb_spec (48 + x) 57); try lia. simpl. f_equal. lia. Qed.

Lemma twoDigits_twoOf p : 0 ≤ p < 100 → ∃ l, twoDigits p = Ok l ∧ twoOf p l.
Proof.
  intros Hp. destruct (digits_at p Hp) as [E1 E2]. unfold twoDigits. rewrite E1, E2. simpl. eexists. split; [done|].
  assert (0 ≤ p / 10 < 10) by (split; [apply Z.div_pos|apply Z.div_lt_upper_bound]; lia).
  pose proof (Z.mod_pos_bound p 10 ltac:(lia)). pose proof (Z.div_mod p 10 ltac:(lia)).
  exists (48 + p / 10), (48 + p mod 10). split; [done|]. rewrite !bToi_digit by lia. repeat split; lia.
Qed.

Lemma parse2_twoOf p a b : bToi a = Ok (p / 10) → bToi b = Ok (p mod 10) → parseByte2Digits a b = Ok p.
Proof. intros Ha Hb. unfold parseByte2Digits. rewrite Ha, Hb. simpl. f_equal. pose proof (Z.div_mod p 10). lia. Qed.

(** The ten characters of a date. *)
Definition dateOf (y m d : Z) (l : bytes) : Prop :=
  ∃ c y' m' d', l = c ++ y' ++ [45] ++ m' ++ [45] ++ d' ∧ twoOf (y / 100) c ∧ twoOf (y mod 100) y' ∧ twoOf m m' ∧ twoOf d d'.

(** The nine characters of the time of a day. *)
Definition clockOf (h mi s : Z) (l : bytes) : Prop :=
  ∃ h' mi' s', l = [32] ++ h' ++ [58] ++ mi' ++ [58] ++ s' ∧ twoOf h h' ∧ twoOf mi mi' ∧ twoOf s s'.

Lemma dateOf_reads y m d l rest :
  dateOf y m d l →
  len l = 10 ∧ parseByteYear (l ++ rest) = Ok y ∧ expect (l ++ rest) 4 45 = Ok tt ∧ digitsAt (l ++ rest) 5 = Ok m ∧
  expect (l ++ rest) 7 45 = Ok tt ∧ digitsAt (l ++ rest) 8 = Ok d.
Proof.
  intros (c & y' & m' & d' & -> & (c1 & c2 & -> & Hc1 & Hc2 & _) & (y1 & y2 & -> & Hy1 & Hy2 & _) &
    (m1 & m2 & -> & Hm1 & Hm2 & _) & (d1 & d2 & -> & Hd1 & Hd2 & _)).
  unfold parseByteYear, expect, digitsAt. loads. rewrite Hc1. cbn. rewrite Hc2. cbn. rewrite Hy1. cbn. rewrite Hy2. cbn.
  split; [done|]. split.
  { f_equal. pose proof (Z.div_mod y 100). pose proof (Z.div_mod (y / 100) 10). pose proof (Z.div_mod (y mod 100) 10). lia. }
  split; [done|]. split; [by apply parse2_twoOf|]. split; [done|by apply parse2_twoOf].
Qed.

Lemma clockOf_reads h mi s y m d l l' rest :
  dateOf y m d l → clockOf h mi s l' →
  len l' = 9 ∧ expect (l ++ l' ++ rest) 10 32 = Ok tt ∧ digitsAt (l ++ l' ++ rest) 11 = Ok h ∧
  expect (l ++ l' ++ rest) 13 58 = Ok tt ∧ digitsAt (l ++ l' ++ rest) 14 = Ok mi ∧
  expect (l ++ l' ++ rest) 16 58 = Ok tt ∧ digitsAt (l ++ l' ++ rest) 17 = Ok s.
Proof.
  intros (c & y' & m' & d' & -> & (c1 & c2 & -> & _) & (y1 & y2 & -> & _) & (m1 & m2 & -> & _) & (d1 & d2 & -> & _))
    (h' & mi' & s' & -> & (h1 & h2 & -> & Hh1 & Hh2 & _) & (i1 & i2 & -> & Hi1 & Hi2 & _) & (s1 & s2 & -> & Hs1 & Hs2 & _)).
  unfold expect, digitsAt. loads. split; [done|]. split; [done|]. split; [by apply parse2_twoOf|]. split; [done|].
  split; [by apply parse2_twoOf|]. split; [done|by apply parse2_twoOf].
Qed.

Lemma dateOf_not_zero y m d l rest n : 0 < y → dateOf y m d l → l ++ rest ≠ take n zeroDateTime.
Proof.
  intros Hy (c & y' & m' & d' & -> & (c1 & c2 & -> & _ & _ & _ & _ & Hc) & (y1 & y2 & -> & _ & _ & _ & _ & Hy') &
    (m1 & m2 & -> & _) & (d1 & d2 & -> & _)) E.
  change zeroDateTime with (48 :: 48 :: 48 :: 48 :: drop 4 zeroDateTime) in E.
  destruct n as [|[|[|[|n]]]]; try discriminate E. cbn in E. injection E as -> -> -> -> _.
  pose proof (Z.div_mod y 100). rewrite Hc, Hy' in * by done. lia.
Qed.

(** *** Fractions of a second *)

Lemma dropZeros_app l x r : x ≠ 48 → dropZeros (l ++ x :: r) = dropZeros l ++ x :: r.
Proof.
  intros Hx. induction l as [|c l IH]; simpl.
  - by rewrite (proj2 (Z.eqb_neq x 48)).
  - by destruct (c =? 48).
Qed.

Lemma trimZeros_stop a x l : x ≠ 48 → trimZeros (a ++ [x] ++ l) = a ++ [x] ++ trimZeros l.
Proof.
  intros Hx. unfold trimZeros. rewrite !reverse_app, reverse_singleton, <- app_assoc. simpl.
  rewrite dropZeros_app by done. by rewrite reverse_app, reverse_cons, reverse_involutive, <- app_assoc.
Qed.

Lemma trimZeros_zero l : trimZeros (l ++ [48]) = trimZeros l.
Proof. unfold trimZeros. by rewrite reverse_snoc. Qed.

Lemma dropZeros_split l : ∃ k, l = replicate k 48 ++ dropZeros l.
Proof.
  induction l as [|c l [k IH]]; [by exists 0%nat|]. simpl. destruct (Z.eqb_spec c 48) as [->|]; [|by exists 0%nat].
  exists (S k). simpl. by f_equal.
Qed.

Lemma trimZeros_split l : ∃ k, l = trimZeros l ++ replicate k 48.
Proof.
  destruct (dropZeros_split (reverse l)) as [k E]. exists k. apply (f_equal reverse) in E.
  rewrite reverse_involutive, reverse_app, reverse_replicate in E. exact E.
Qed.

Lemma microDigits_zeros l k ns digit : microDigits (l ++ replicate k 48) ns digit = microDigits l ns digit.
Proof.
  revert ns digit. induction l as [|c l IH]; intros ns digit; simpl.
  - revert digit. induction k as [|k IH]; intros digit; [done|]. simpl. change (bToi 48) with (Ok 0). simpl. rewrite Z.add_0_r. apply IH.
  - destruct (bToi c); simpl; try done.
Qed.

(** The six digits of the microseconds. *)
Definition microOf (us : Z) (l : bytes) : Prop :=
  length l = 6%nat ∧ microDigits l 0 100000 = Ok us.

Lemma microOf_trimmed us l :
  0 < us → microOf us l → (1 ≤ length (trimZeros l) ≤ 6)%nat ∧ parseByteNanoSec (trimZeros l) = Ok (us * 1000).
Proof.
  intros Hus [Hlen Hm]. destruct (trimZeros_split l) as [k E].
  assert (microDigits (trimZeros l) 0 100000 = Ok us) as Ht by (by rewrite E, microDigits_zeros in Hm).
  split; [|unfold parseByteNanoSec; by rewrite Ht].
  apply (f_equal length) in E. rewrite length_app in E. split; [|lia].
  destruct (trimZeros l); [|simpl; lia]. simpl in Ht. injection Ht as <-. lia.
Qed.

(** The digits [AppendDateTime] prints for whole microseconds. *)
Lemma fraction_digits us :
  0 ≤ us < 1000000 →
  ∃ f1 f23 f45 f67 f89, load digits01 (Z.quot (us * 1000) 100000000) = Ok f1 ∧
    twoDigits (Z.rem (Z.quot (us * 1000) 1000000) 100) = Ok f23 ∧
    twoDigits (Z.rem (Z.quot (us * 1000) 10000) 100) = Ok f45 ∧
    twoDigits (Z.rem (Z.quot (us * 1000) 100) 100) = Ok f67 ∧
    twoDigits (Z.rem (us * 1000) 100) = Ok f89 ∧
    ∃ l, [f1] ++ f23 ++ f45 ++ f67 ++ f89 = l ++ [48; 48; 48] ∧ microOf us l.
Proof.
  intros Hus. rewrite !Z.quot_div_nonneg, !Z.rem_mod_nonneg by (try apply Z.div_pos; lia).
  replace (us * 1000 / 100000000) with (us / 100000) by (change 100000000 with (100000 * 1000); by rewrite Z.div_mul_cancel_r).
  replace (us * 1000 / 1000000) with (us / 1000) by (change 1000000 with (1000 * 1000); by rewrite Z.div_mul_cancel_r).
  replace (us * 1000 / 10000) with (us / 10) by (change 10000 with (10 * 1000); by rewrite Z.div_mul_cancel_r).
  replace (us * 1000 / 100 mod 100) with (us mod 10 * 10).
  2:{ replace (us * 1000 / 100) with (us * 10) by (replace (us * 1000) with (us * 10 * 100) by lia; by rewrite Z.div_mul).
      change 100 with (10 * 10). by rewrite Z.mul_mod_distr_r. }
  replace (us * 1000 mod 100) with 0 by (replace (us * 1000) with (us * 10 * 100) by lia; by rewrite Z.mod_mul).
  assert (0 ≤ us / 100000 < 10) as H1 by (split; [apply Z.div_pos|apply Z.div_lt_upper_bound]; lia).
  pose proof (Z.mod_pos_bound (us / 1000) 100 ltac:(lia)) as H2. pose proof (Z.mod_pos_bound (us / 10) 100 ltac:(lia)) as H3.
  pose proof (Z.mod_pos_bound us 10 ltac:(lia)) as H4.
  destruct (digits_at (us / 100000)) as [_ E1]; [lia|]. rewrite (Z.mod_small (us / 100000)) in E1 by lia.
  destruct (twoDigits_twoOf _ H2) as (f23 & E2 & a & b & -> & Ha & Hb & _).
  destruct (twoDigits_twoOf _ H3) as (f45 & E3 & a' & b' & -> & Ha' & Hb' & _).
  unfold twoDigits at 3 4. destruct (digits_at (us mod 10 * 10)) as [E4 E4']; [lia|]. rewrite E4, E4'.
  rewrite Z.div_mul, Z.mod_mul by lia. simpl.
  exists (48 + us / 100000), [a; b], [a'; b'], [48 + us mod 10; 48], [48; 48]. do 5 (split; [done|]).
  exists [48 + us / 100000; a; b; a'; b'; 48 + us mod 10]. split; [done|]. split; [done|].
  cbn [microDigits]. rewrite (bToi_digit (us / 100000)) by lia. cbn [mbind outcome_bind]. rewrite Ha. cbn [mbind outcome_bind].
  rewrite Hb. cbn [mbind outcome_bind]. rewrite Ha'. cbn [mbind outcome_bind]. rewrite Hb'. cbn [mbind outcome_bind].
  rewrite (bToi_digit (us mod 10)) by lia. cbn [mbind outcome_bind]. f_equal.
  change (Z.quot 100000 10) with 10000. change (Z.quot 10000 10) with 1000. change (Z.quot 1000 10) with 100.
  change (Z.quot 100 10) with 10. change (Z.quot 10 10) with 1.
  pose proof (Z.div_mod us 10 ltac:(lia)). pose proof (Z.div_mod (us / 10) 100 ltac:(lia)) as Hq.
  rewrite Z.div_div in Hq by lia. change (10 * 100) with 1000 in Hq. pose proof (Z.div_mod (us / 1000) 100 ltac:(lia)) as Hr.
  rewrite Z.div_div in Hr by lia. change (1000 * 100) with 100000 in Hr.
  pose proof (Z.div_mod ((us / 1000) mod 100) 10 ltac:(lia)). pose proof (Z.div_mod ((us / 10) mod 100) 10 ltac:(lia)). lia.
Qed.

Class LocationLaws (L : Location) : Prop :=
  time_Civil_Date c : valid c → time_Civil (time_Date c) = c.

Section Datetime.
Context {L : Location} {LL : LocationLaws L}.

Lemma AppendDateTime_spec c us :
  valid c → nanosecond c = us * 1000 →
  ∃ date clock l, dateOf (year c) (month c) (day c) date ∧ clockOf (hour c) (minute c) (second c) clock ∧ microOf us l ∧
    AppendDateTime [] (time_Date c) = Ok (
      if (hour c =? 0) && (minute c =? 0) && (second c =? 0) && (us =? 0) then date
      else if us =? 0 then date ++ clock else date ++ clock ++ [46] ++ trimZeros l).
Proof using LL.
  intros Hv Hus. unfold AppendDateTime. rewrite time_Civil_Date by done. destruct Hv as [Hy Hm Hd Hh Hmi Hs Hn].
  destruct (Z.ltb_spec (year c) 1), (Z.gtb_spec (year c) 9999); try lia. cbn [orb].
  rewrite (Z.quot_div_nonneg (year c)), (Z.rem_mod_nonneg (year c)) by lia.
  assert (0 ≤ year c / 100 < 100) as Hy1 by (split; [apply Z.div_pos|apply Z.div_lt_upper_bound]; lia).
  pose proof (Z.mod_pos_bound (year c) 100 ltac:(lia)) as Hy2.
  destruct (twoDigits_twoOf _ Hy1) as (c1 & -> & Hc1), (twoDigits_twoOf _ Hy2) as (c2 & -> & Hc2).
  destruct (twoDigits_twoOf (month c)) as (m' & -> & Hm'); [lia|]. destruct (twoDigits_twoOf (day c)) as (d' & -> & Hd'); [lia|].
  destruct (twoDigits_twoOf (hour c)) as (h' & -> & Hh'); [lia|]. destruct (twoDigits_twoOf (minute c)) as (i' & -> & Hi'); [lia|].
  destruct (twoDigits_twoOf (second c)) as (s' & -> & Hs'); [lia|].
  destruct (fraction_digits us) as (f1 & f23 & f45 & f67 & f89 & E1 & E2 & E3 & E4 & E5 & l & El & Hl); [lia|].
  rewrite Hus, E1, E2, E3, E4, E5. cbn [mbind outcome_bind].
  exists (c1 ++ c2 ++ [45] ++ m' ++ [45] ++ d'), ([32] ++ h' ++ [58] ++ i' ++ [58] ++ s'), l.
  split; [by exists c1, c2, m', d'|]. split; [by exists h', i', s'|]. split; [done|].
  replace (us * 1000 =? 0) with (us =? 0) by (destruct (Z.eqb_spec us 0), (Z.eqb_spec (us * 1000) 0); lia).
  destruct (_ && _); [done|]. destruct (us =? 0); [done|]. f_equal.
  change ([46; f1] ++ f23 ++ f45 ++ f67 ++ f89) with ([46] ++ ([f1] ++ f23 ++ f45 ++ f67 ++ f89)). rewrite El, app_nil_l.
  rewrite trimZeros_stop by done. change [48; 48; 48] with ([48] ++ [48] ++ [48]).
  rewrite (app_assoc l), (app_assoc (l ++ [48])), !trimZeros_zero. by rewrite <- !app_assoc.
Qed.

Lemma AppendDateTime_parses c us :
  valid c → nanosecond c = us * 1000 →
  ∃ b, AppendDateTime [] (time_Date c) = Ok b ∧ parseDateTime b = Ok (time_Date c) ∧ 10 ≤ len b ≤ 26.
Proof using LL.
  intros Hv Hus. destruct (AppendDateTime_spec c us Hv Hus) as (date & clock & l & Hdate & Hclock & Hl & ->).
  eexists. split; [done|]. destruct Hv as [Hy Hm Hd Hh Hmi Hs Hn].
  assert (∀ v, 1 ≤ v → atLeast1 v = v) as H1 by (intros v ?; unfold atLeast1; destruct (Z.leb_spec v 0); lia).
  unfold parseDateTime. destruct (_ && _) eqn:Ez.
  - assert (c = midnight (year c) (month c) (day c)) as Ec.
    { destruct c as [y m d h mi s n]. simpl in *. unfold midnight. repeat (apply andb_true_iff in Ez as [Ez ?%Z.eqb_eq]).
      apply Z.eqb_eq in Ez. subst. done. }
    pose proof (dateOf_reads _ _ _ _ [] Hdate) as (Hlen & E1 & E2 & E3 & E4 & E5).
    pose proof (dateOf_not_zero (year c) _ _ _ [] (length date) ltac:(lia) Hdate) as Hnz. rewrite app_nil_r in *.
    rewrite Hlen, bool_decide_false, E1, E2, E3, E4, E5 by done. cbn. rewrite !H1 by lia. rewrite <- Ec. split; [done|lia].
  - assert (len clock = 9) as Hlc by (by destruct (clockOf_reads _ _ _ _ _ _ _ _ [] Hdate Hclock)).
    assert (len date = 10) as Hld by (by destruct (dateOf_reads _ _ _ _ [] Hdate)).
    set (rest := if us =? 0 then [] else [46] ++ trimZeros l).
    replace (if us =? 0 then date ++ clock else date ++ clock ++ [46] ++ trimZeros l) with (date ++ clock ++ rest)
      by (unfold rest; destruct (us =? 0); by rewrite ?app_nil_r).
    pose proof (dateOf_reads _ _ _ _ (clock ++ rest) Hdate) as (_ & E1 & E2 & E3 & E4 & E5).
    pose proof (clockOf_reads _ _ _ _ _ _ _ _ rest Hdate Hclock) as (_ & F1 & F2 & F3 & F4 & F5 & F6).
    rewrite bool_decide_false, E1, E2, E3, E4, E5, F1, F2, F3, F4, F5, F6 by (by apply (dateOf_not_zero (year c) _ _ _ _ _ ltac:(lia) Hdate)).
    cbn [mbind outcome_bind]. rewrite !H1 by lia. rewrite !len_app, Hld, Hlc.
    assert (drop 20 (date ++ clock ++ rest) = drop 1 rest) as Hdrop.
    { rewrite app_assoc, drop_app_ge by (rewrite length_app; unfold len in *; lia). f_equal. rewrite length_app. unfold len in *. lia. }
    assert (c = mkCivil (year c) (month c) (day c) (hour c) (minute c) (second c) (us * 1000)) as Ec by (destruct c; simpl in *; by subst).
    unfold rest in *. clear rest. destruct (Z.eqb_spec us 0) as [->|Hne].
    { change (10 + (9 + len [])) with 19. change (0 * 1000) with 0 in Ec. cbn. rewrite <- Ec. split; [done|lia]. }
    destruct (microOf_trimmed us l) as [Hlen Hns]; [lia|done|]. rewrite Hdrop. cbn [drop app]. rewrite drop_0, Hns.
    assert (expect (date ++ clock ++ 46 :: trimZeros l) 19 46 = Ok tt) as ->.
    { unfold expect, load. cbn [Z.ltb]. replace (Z.to_nat 19) with (length (date ++ clock)) by (rewrite length_app; unfold len in *; lia).
      by rewrite app_assoc, list_lookup_middle. }
    rewrite len_cons. assert (1 ≤ len (trimZeros l) ≤ 6) as Hl6 by (unfold len; lia).
    remember (10 + (9 + (1 + len (trimZeros l)))) as n eqn:En.
    assert (existsb (Z.eqb n) [10; 19; 21; 22; 23; 24; 25; 26] = true) as ->.
    { apply existsb_exists. exists n. split; [|by apply Z.eqb_refl]. simpl. lia. }
    rewrite !(proj2 (Z.eqb_neq n _)) by lia. cbn. rewrite <- Ec. split; [done|lia].
Qed.
End Datetime.

(** A calendar of twelve months of thirty-one days, to have a location. *)
Module MixedCalendar.
Definition encode (c : civil) : Time :=
  (((((year c * 12 + (month c - 1)) * 31 + (day c - 1)) * 24 + hour c) * 60 + minute c) * 60 + second c) * 1000000000 + nanosecond c.

Definition decode (t : Time) : civil :=
  let s := t / 1000000000 in
  let mi := s / 60 in
  let h := mi / 60 in
  let d := h / 24 in
  let m := d / 31 in
  mkCivil (m / 12) (m mod 12 + 1) (d mod 31 + 1) (h mod 24) (mi mod 60) (s mod 60) (t mod 1000000000).

#[export] Instance location : Location := {| time_Date := encode; time_Civil := decode |}.

Lemma div_mod_small a b k : 0 ≤ b < k → (a * k + b) / k = a ∧ (a * k + b) mod k = b.
Proof.
  intros Hb. rewrite Z.add_comm, Z.div_add, Z.mod_add by lia. rewrite Z.div_small, Z.mod_small by lia. lia.
Qed.

#[export] Instance location_laws : LocationLaws location.
Proof.
  intros [y m d h mi s n] [Hy Hm Hd Hh Hi Hs Hn]. simpl in *. unfold decode, encode. cbn [year month day hour minute second nanosecond].
  repeat match goal with
  | |- context [(?a * ?k + ?b) / ?k] => rewrite (proj1 (div_mod_small a b k ltac:(lia)))
  | |- context [(?a * ?k + ?b) mod ?k] => rewrite (proj2 (div_mod_small a b k ltac:(lia)))
  end. f_equal; lia.
Qed.
End MixedCalendar.
