(* ===== verification/RowCodec.v ===== *)
(** * Rows on the wire: [pkg/mysql/rows.go], [pkg/mysql/rows/codec.go],
    [pkg/mysql/rows/virtual_row.go]

    Virtual rows are written in the binary or the text protocol, and rows that
    come from the network are scanned.  The writers append to a
    [bytes.Buffer], whose writes do not fail, and return the new buffer with
    the count of bytes.  A slice's capacity is taken to be its length. *)
From Stdlib Require Import SpecFloat.
From S2P Require Import Prelude GoStd Value Encoding Packet Row MysqlText.

(** [string(b)]. *)
Definition string_of (b : bytes) : string :=
  String.string_of_list_ascii (map (λ z, Ascii.ascii_of_nat (Z.to_nat z)) b).

(** ** [math] *)

(** [math.Float64bits] and [math.Float64frombits] for a format of the given
    widths of mantissa and exponent. *)
Definition floatBits (mant expo : Z) (f : spec_float) : Z :=
  let sign (s : bool) := if s then 2 ^ (mant + expo) else 0 in
  let bias := 2 ^ (expo - 1) - 1 in
  match f with
  | S754_zero s => sign s
  | S754_infinity s => sign s + (2 ^ expo - 1) * 2 ^ mant
  | S754_nan => (2 ^ expo - 1) * 2 ^ mant + 2 ^ (mant - 1) + 1
  | S754_finite s m e =>
      if Zpos m <? 2 ^ mant then sign s + Zpos m
      else sign s + (e + bias + mant) * 2 ^ mant + (Zpos m - 2 ^ mant)
  end.

Definition floatFromBits (mant expo : Z) (b : Z) : spec_float :=
  let s := 2 ^ (mant + expo) <=? b in
  let e := (b / 2 ^ mant) mod 2 ^ expo in
  let m := b mod 2 ^ mant in
  let bias := 2 ^ (expo - 1) - 1 in
  if e =? 0 then match m with Zpos p => S754_finite s p (1 - bias - mant) | _ => S754_zero s end
  else if e =? 2 ^ expo - 1 then (if m =? 0 then S754_infinity s else S754_nan)
  else match m + 2 ^ mant with Zpos p => S754_finite s p (e - bias - mant) | _ => S754_nan end.

Definition Float64bits : float64 → Z := floatBits 52 11.
Definition Float64frombits : Z → float64 := floatFromBits 52 11.
Definition Float32bits : spec_float → Z := floatBits 23 8.
Definition Float32frombits : Z → spec_float := floatFromBits 23 8.

(** [float32(f)]: to the nearest, ties to even. *)
Definition float32_of (f : float64) : spec_float :=
  match f with
  | S754_finite s m e => binary_normalize 24 128 (cond_Zopp s (Zpos m)) e s
  | _ => f
  end.

(** ** [codec.go] *)

(** [time.Duration] of the units. *)
Definition Microsecond : Z := 1000.
Definition Millisecond : Z := 1000 * Microsecond.
Definition Second : Z := 1000 * Millisecond.
Definition Minute : Z := 60 * Second.
Definition _day : Z := Hour * 24.

Definition WriteUint8 (bw : bytes) (v : Z) : bytes * Z := (bw ++ [byte v], 1).
Definition WriteUint16 (bw : bytes) (v : Z) : bytes * Z := (bw ++ littleEndian 2 v, 2).
Definition WriteUint32 (bw : bytes) (v : Z) : bytes * Z := (bw ++ littleEndian 4 v, 4).
Definition WriteUint64 (bw : bytes) (v : Z) : bytes * Z := (bw ++ littleEndian 8 v, 8).

Definition WriteFloat32 (bw : bytes) (f : spec_float) : bytes * Z := WriteUint32 bw (Float32bits f).
Definition WriteFloat64 (bw : bytes) (f : float64) : bytes * Z := WriteUint64 bw (Float64bits f).

Definition codec_writeLenEncInt (bw : bytes) (i : Z) : bytes * Z :=
  if i <? 251 then (bw ++ [byte i], 1)
  else if i <? Z.shiftl 1 16 then (bw ++ 0xfc :: littleEndian 2 i, 3)
  else if i <? Z.shiftl 1 24 then (bw ++ 0xfd :: littleEndian 3 i, 4)
  else (bw ++ 0xfe :: littleEndian 8 i, 9).

Definition codec_writeEOFString (bw s : bytes) : bytes * Z := (bw ++ s, len s).

Definition codec_writeLenEncString (bw s : bytes) : bytes * Z :=
  let '(bw, n) := codec_writeLenEncInt bw (len s) in
  let '(bw, m) := codec_writeEOFString bw s in (bw, n + m).

Definition WriteString (bw : bytes) (s : string) : bytes * Z := codec_writeLenEncString bw (text s).

Definition WriteDuration (bw : bytes) (d : Z) : bytes * Z :=
  if d =? 0 then (bw ++ [0], 1)
  else
    let '(neg, d) := if d <? 0 then (1, i64 (d * -1)) else (0, d) in
    let days := u32 (Z.quot d _day) in
    let hours := u8 (Z.quot (Z.rem d _day) Hour) in
    let minutes := u8 (Z.quot (Z.rem d Hour) Minute) in
    let secs := u8 (Z.quot (Z.rem d Minute) Second) in
    let msec := u32 (Z.quot (Z.rem d Millisecond) Microsecond) in
    let length_ := if msec =? 0 then 8 else 12 in
    (bw ++ [length_; neg] ++ littleEndian 4 days ++ [hours; minutes; secs] ++
       (if length_ =? 12 then littleEndian 4 msec else []), length_ + 1).

Section Codec.
Context {TL : TimeLib} {FT : FloatText} {DC : DecimalLib} {L : Location}.

Definition writeTimeN (bw : bytes) (t : Time) (l : Z) : outcome (bytes * Z) :=
  let c := time_Civil t in
  let date := littleEndian 2 (u16 (year c)) ++ [u8 (month c); u8 (day c)] in
  let clock := [u8 (hour c); u8 (minute c); u8 (second c)] in
  let bw := bw ++ [byte l] in
  if l =? 0 then Ok (bw, l + 1)
  else if l =? 4 then Ok (bw ++ date, l + 1)
  else if l =? 7 then Ok (bw ++ date ++ clock, l + 1)
  else if l =? 11 then
    Ok (bw ++ date ++ clock ++ littleEndian 4 (u32 (Z.quot (nanosecond c) Microsecond)), l + 1)
  else Err (NewError "illegal time length").

(** [t.IsZero()]. *)
Definition IsZero (t : Time) : bool := t =? zeroTime.

Definition WriteDate (bw : bytes) (t : Time) : outcome (bytes * Z) :=
  if IsZero t then writeTimeN bw t 0 else writeTimeN bw t 4.

Definition WriteDateTime (bw : bytes) (t : Time) : outcome (bytes * Z) :=
  if IsZero t then writeTimeN bw t 0
  else if Z.quot (nanosecond (time_Civil t)) Microsecond =? 0 then writeTimeN bw t 7
  else writeTimeN bw t 11.

(** ** [virtual_row.go]: writing *)

(** The types whose values are written as length-encoded strings. *)
Definition stringTypes : list Z := [
  FieldTypeDecimal; FieldTypeNewDecimal; FieldTypeVarChar; FieldTypeBit; FieldTypeEnum; FieldTypeSet; FieldTypeTinyBLOB;
  FieldTypeMediumBLOB; FieldTypeLongBLOB; FieldTypeBLOB; FieldTypeVarString; FieldTypeString; FieldTypeGeometry; FieldTypeJSON].

(** The switch of [binaryVirtualRow.WriteTo] on the type of the field. *)
Definition writeCell (b : bytes) (field : Field) (next : ProtoValue) : outcome bytes :=
  let typ := fieldType field in
  if typ =? FieldTypeTiny then val ← Int64 next; Ok (WriteUint8 b (u8 val)).1
  else if typ =? FieldTypeLongLong then val ← Uint64 next; Ok (WriteUint64 b val).1
  else if oneOf [FieldTypeInt24; FieldTypeLong] typ then val ← Int64 next; Ok (WriteUint32 b (u32 (i32 val))).1
  else if oneOf [FieldTypeShort; FieldTypeYear] typ then val ← Int64 next; Ok (WriteUint16 b (u16 val)).1
  else if oneOf stringTypes typ then Ok (WriteString b (Value_String next)).1
  else if typ =? FieldTypeDouble then f ← Float64 next; Ok (WriteFloat64 b f).1
  else if typ =? FieldTypeFloat then f ← Float64 next; Ok (WriteFloat32 b (float32_of f)).1
  else if oneOf [FieldTypeDate; FieldTypeNewDate] typ then val ← Value_Time next; r ← WriteDate b val; Ok r.1
  else if typ =? FieldTypeTime then Ok b
  else if oneOf [FieldTypeTimestamp; FieldTypeDateTime] typ then val ← Value_Time next; r ← WriteDateTime b val; Ok r.1
  else Err (NewError "unsupported mysql field type").

(** [b.Bytes()[bytePos] |= 1 << bitPos]. *)
Definition setBit (b : bytes) (bytePos bitPos : Z) : outcome bytes :=
  x ← load b bytePos; store b bytePos (Z.lor x (u8 (Z.shiftl 1 bitPos))).

(** The loop of [binaryVirtualRow.WriteTo] from cell [i] on. *)
Fixpoint writeCells (i : Z) (fs : list Field) (cs : list cell) (b : bytes) : outcome bytes :=
  match cs with
  | [] => Ok b
  | None :: cs =>
      b ← setBit b ((i + 2) / 8 + 1) ((i + 2) mod 8);
      writeCells (i + 1) (tail fs) cs b
  | Some next :: cs =>
      match fs with
      | field :: fs => b ← writeCell b field next; writeCells (i + 1) fs cs b
      | [] => Panic
      end
  end.

Definition binary_WriteTo (vi : baseVirtualRow) : outcome bytes :=
  let nullBitmapLen := Z.shiftr (Z.of_nat (length (cells vi)) + 7 + 2) 3 in
  writeCells 0 (fields vi) (cells vi) (0 :: replicate (Z.to_nat nullBitmapLen) 0).

(** The switch of [textVirtualRow.WriteTo]. *)
Definition writeTextCell (bf : bytes) (field : Field) (next : cell) : outcome bytes :=
  match next with
  | None => Ok (bf ++ [0xfb])
  | Some next =>
      if oneOf [FieldTypeTimestamp; FieldTypeDateTime; FieldTypeDate; FieldTypeNewDate] (fieldType field) then
        val ← Value_Time next;
        b ← match AppendDateTime [] val with Err e => Err (WrapError e) | r => r end;
        Ok (codec_writeLenEncString bf b).1
      else Ok (WriteString bf (Value_String next)).1
  end.

Fixpoint writeTextCells (fs : list Field) (cs : list cell) (bf : bytes) : outcome bytes :=
  match fs, cs with
  | [], _ => Ok bf
  | field :: fs, next :: cs => bf ← writeTextCell bf field next; writeTextCells fs cs bf
  | _ :: _, [] => Panic
  end.

Definition text_WriteTo (t : baseVirtualRow) : outcome bytes := writeTextCells (fields t) (cells t) [].
End Codec.

(** ** [rows.go]: scanning *)

Section Scan.
Context {TL : TimeLib} {FT : FloatText} {DC : DecimalLib} {L : Location}.

Record BinaryRow := mkBinaryRow { bi_fields : list Field; bi_raw : bytes }.
Record TextRow := mkTextRow { te_fields : list Field; te_raw : bytes }.

Definition unsigned (field : Field) : bool := negb (Z.land (flags field) UnsignedFlag =? 0).

(** [int64(binary.LittleEndian.UintN(raw[pos : pos+n]))], with the signed
    conversion in between where the field is signed. *)
Definition scanInteger (n : nat) (field : Field) (raw : bytes) (pos : Z) : outcome (cell * Z) :=
  u ← littleEndianAt n raw pos;
  Ok (Some (int64Value (if unsigned field then u else wrapS (8 * Z.of_nat n) u)), pos + Z.of_nat n).

(** The length of the text of a time with the decimals of a field. *)
Definition dstLength (base : Z) (field : Field) : outcome Z :=
  if oneOf [0x00; 0x1f] (decimals field) then Ok base
  else if (1 <=? decimals field) && (decimals field <=? 6) then Ok (base + 1 + decimals field)
  else Err (NewError "protocol error, illegal decimals").

Definition scanTime (field : Field) (raw : bytes) (pos : Z) : outcome (cell * Z) :=
  rest ← slice raw pos (len raw);
  '(num, isNull, n) ← readLengthEncodedInteger rest;
  let pos := pos + n in
  if (isNull : bool) then Ok (None, pos)
  else if fieldType field =? FieldTypeTime then
    dstlen ← dstLength 8 field;
    src ← slice raw pos (add pos (i64 num));
    b ← formatBinaryTime src dstlen;
    Ok (Some (stringValue (string_of b)), add pos (i64 num))
  else
    rest ← slice raw pos (len raw);
    match parseBinaryDateTime num rest with
    | Ok t => Ok (Some (timeValue t), add pos (i64 num))
    | Err _ =>
        dstlen ← (if fieldType field =? FieldTypeDate then Ok 10 else dstLength 19 field);
        src ← slice raw pos (add pos (i64 num));
        match formatBinaryDateTime src dstlen with
        | Ok b => Ok (Some (stringValue (string_of b)), add pos (i64 num))
        | Err e => Err (WrapError e)
        | failed => _ ← failed; Panic
        end
    | failed => _ ← failed; Panic
    end.

(** The switch of [BinaryRow.Scan]. *)
Definition scanCell (field : Field) (raw : bytes) (pos : Z) : outcome (cell * Z) :=
  let typ := (TypeToMySQL (fieldType field)).1 in
  if typ =? FieldTypeNULL then Ok (None, pos)
  else if typ =? FieldTypeTiny then scanInteger 1 field raw pos
  else if oneOf [FieldTypeShort; FieldTypeYear] typ then scanInteger 2 field raw pos
  else if oneOf [FieldTypeInt24; FieldTypeLong] typ then scanInteger 4 field raw pos
  else if typ =? FieldTypeLongLong then
    u ← littleEndianAt 8 raw pos;
    Ok (Some (if unsigned field then uint64Value u else int64Value (i64 u)), pos + 8)
  else if typ =? FieldTypeFloat then
    u ← littleEndianAt 4 raw pos; Ok (Some (float64Value (Float32frombits u)), pos + 4)
  else if typ =? FieldTypeDouble then
    u ← littleEndianAt 8 raw pos; Ok (Some (float64Value (Float64frombits u)), pos + 8)
  else if oneOf stringTypes typ then
    rest ← slice raw pos (len raw);
    '(val, isNull, n) ← readLengthEncodedString rest;
    Ok (if (isNull : bool) then None else Some (stringValue (string_of val)), pos + n)
  else if oneOf [FieldTypeDate; FieldTypeNewDate; FieldTypeTime; FieldTypeTimestamp; FieldTypeDateTime] typ then
    scanTime field raw pos
  else Err (NewError "unknown field type").

(** [((nullMask[(i+2)>>3] >> uint((i+2)&7)) & 1) == 1]. *)
Definition isNullBit (nullMask : bytes) (i : nat) : outcome bool :=
  m ← load nullMask (Z.shiftr (Z.of_nat i + 2) 3);
  Ok (Z.land (Z.shiftr m (Z.land (Z.of_nat i + 2) 7)) 1 =? 1).

(** The loop of [BinaryRow.Scan] from field [i] on, into a slice of [dest]
    values. *)
Fixpoint scanCells (dest i : nat) (fs : list Field) (raw nullMask : bytes) (pos : Z) : outcome (list cell) :=
  match fs with
  | [] => Ok (replicate (dest - i) None)
  | field :: fs =>
      null ← isNullBit nullMask i;
      '(c, pos) ← (if (null : bool) then Ok (None, pos) else scanCell field raw pos);
      if (i <? dest)%nat then rest ← scanCells dest (S i) fs raw nullMask pos; Ok (c :: rest) else Panic
  end.

Definition binary_Scan (bi : BinaryRow) (dest : nat) : outcome (list cell) :=
  b0 ← load (bi_raw bi) 0;
  if negb (b0 =? 0) then Err (NewError "read binary rows failed")
  else
    let pos := 1 + Z.shiftr (Z.of_nat dest + 7 + 2) 3 in
    nullMask ← slice (bi_raw bi) 1 pos;
    scanCells dest 0 (bi_fields bi) (bi_raw bi) nullMask pos.

(** [errors.WithStack] of the error. *)
Definition withStack {A} (r : outcome A) : outcome A := match r with Err e => Err (WrapError e) | r => r end.

(** [Get] of both rows: scan everything and pick. *)
Definition scanned_Get (fs : list Field) (scan : nat → outcome (list cell)) (nm : string) : outcome cell :=
  match fieldIndex fs nm with
  | None => Err (NewError "no such field found")
  | Some idx =>
      dest ← withStack (scan (length fs));
      match dest !! idx with Some c => Ok c | None => Panic end
  end.

Definition NewBinaryRow (fs : list Field) (raw : bytes) : Row :=
  mkRow true fs (binary_Scan (mkBinaryRow fs raw)) (scanned_Get fs (binary_Scan (mkBinaryRow fs raw))).

(** The switch of [TextRow.Scan]. *)
Definition scanTextCell (field : Field) (b : bytes) : outcome ProtoValue :=
  let typ := fieldType field in
  if oneOf [FieldTypeString; FieldTypeVarString; FieldTypeVarChar] typ then Ok (stringValue (string_of b))
  else if oneOf [FieldTypeTiny; FieldTypeShort; FieldTypeLong; FieldTypeInt24; FieldTypeLongLong; FieldTypeYear] typ then
    if Z.land (flags field) UnsignedFlag >? 0 then num ← withStack (ParseUint (string_of b)); Ok (uint64Value num)
    else num ← withStack (ParseInt (string_of b)); Ok (int64Value num)
  else if oneOf [FieldTypeFloat; FieldTypeDouble] typ then
    match ParseFloat (string_of b) with
    | (f, None) => Ok (float64Value f)
    | (_, Some e) => Err (WrapError e)
    end
  else if oneOf [FieldTypeNewDecimal; FieldTypeDecimal] typ then
    d ← withStack (dec_NewFromString (string_of b)); Ok (decimalValue d)
  else if oneOf [FieldTypeTimestamp; FieldTypeDateTime; FieldTypeDate; FieldTypeNewDate] typ then
    t ← withStack (parseDateTime b); Ok (timeValue t)
  else Ok (stringValue (string_of b)).

Fixpoint scanTextCells (dest : nat) (fs : list Field) (raw : bytes) (pos : Z) : outcome (list cell) :=
  match fs with
  | [] => Ok (replicate dest None)
  | field :: fs =>
      rest ← slice raw pos (len raw);
      '(b, isNull, n) ← withStack (readLengthEncodedString rest);
      c ← (if (isNull : bool) then Ok None else v ← scanTextCell field b; Ok (Some v));
      match dest with
      | S dest => cs ← scanTextCells dest fs raw (pos + n); Ok (c :: cs)
      | O => Panic
      end
  end.

Definition text_Scan (te : TextRow) (dest : nat) : outcome (list cell) := scanTextCells dest (te_fields te) (te_raw te) 0.

Definition NewTextRow (fs : list Field) (raw : bytes) : Row :=
  mkRow false fs (text_Scan (mkTextRow fs raw)) (scanned_Get fs (text_Scan (mkTextRow fs raw))).
End Scan.
