(* ===== verification/RowTheory.v ===== *)
(** * Rows read back what was written

    The null bitmap and the cells of the binary protocol, the cells of the
    text protocol, and the round trips of both. *)
From Stdlib Require Import SpecFloat.
From S2P Require Import Prelude GoStd Value Encoding Packet Row MysqlText RowCodec.

(** ** Strings *)

Lemma string_of_text s : string_of (text s) = s.
Proof.
  unfold string_of, text. rewrite map_map.
  transitivity (String.string_of_list_ascii (map id (String.list_ascii_of_string s))).
  - f_equal. apply map_ext. intros a. by rewrite Nat2Z.id, Ascii.ascii_nat_embedding.
  - by rewrite map_id, String.string_of_list_ascii_of_string.
Qed.

(** ** Floats *)

(** The numbers of the type: 53 bits and exponents from -1074 to 971. *)
Definition isFloat64 (f : float64) : Prop :=
  match f with
  | S754_finite _ m e => (Zpos m < 2 ^ 52 ∧ e = -1074) ∨ (2 ^ 52 ≤ Zpos m < 2 ^ 53 ∧ -1074 ≤ e ≤ 971)
  | _ => True
  end.

Lemma bits_fields (s : bool) e m :
  0 ≤ e < 2 ^ 11 → 0 ≤ m < 2 ^ 52 →
  let b := (if s then 2 ^ 63 else 0) + e * 2 ^ 52 + m in
  (2 ^ 63 <=? b) = s ∧ (b / 2 ^ 52) mod 2 ^ 11 = e ∧ b mod 2 ^ 52 = m ∧ 0 ≤ b < 2 ^ 64.
Proof.
  intros He Hm b.
  assert (b = ((if s then 2 ^ 11 else 0) + e) * 2 ^ 52 + m) as Eb by (unfold b; destruct s; lia).
  assert (b / 2 ^ 52 = (if s then 2 ^ 11 else 0) + e) as Ed.
  { rewrite Eb, Z.add_comm, Z.div_add, Z.div_small by lia. lia. }
  assert (b mod 2 ^ 52 = m) as Em by (rewrite Eb, Z.add_comm, Z.mod_add, Z.mod_small by lia; lia).
  rewrite Ed, Em. repeat split.
  - destruct s; [apply Z.leb_le|apply Z.leb_gt]; unfold b; lia.
  - destruct s; [|by rewrite Z.mod_small by lia]. rewrite Z.add_comm, <- (Z.mul_1_l (2 ^ 11)), Z.mod_add, Z.mod_small by lia. done.
  - unfold b. destruct s; lia.
  - unfold b. destruct s; lia.
Qed.

Lemma Float64bits_roundtrip f : isFloat64 f → Float64frombits (Float64bits f) = f ∧ 0 ≤ Float64bits f < 2 ^ 64.
Proof.
  unfold Float64frombits, floatFromBits, Float64bits, floatBits. change (2 ^ (52 + 11)) with (2 ^ 63).
  change (2 ^ (11 - 1) - 1) with 1023. destruct f as [s|s| |s m e]; intros Hf.
  - destruct s; vm_compute; done.
  - destruct s; vm_compute; done.
  - vm_compute. done.
  - destruct (Z.ltb_spec (Zpos m) (2 ^ 52)) as [Hm|Hm].
    + destruct Hf as [[_ ->]|[? _]]; [|lia]. destruct (bits_fields s 0 (Zpos m)) as (E1 & E2 & E3 & E4); [lia|lia|].
      rewrite Z.add_0_r in *. rewrite E1, E2, E3. split; [done|exact E4].
    + destruct Hf as [[? _]|[Hm' He]]; [lia|].
      destruct (bits_fields s (e + 1023 + 52) (Zpos m - 2 ^ 52)) as (E1 & E2 & E3 & E4); [lia|lia|].
      rewrite E1, E2, E3. rewrite !(proj2 (Z.eqb_neq (e + 1023 + 52) _)) by lia.
      replace (Zpos m - 2 ^ 52 + 2 ^ 52) with (Zpos m) by lia. split; [|exact E4]. f_equal. lia.
Qed.

(** ** The null bitmap *)

Definition maskBit (mask : bytes) (k : Z) : bool :=
  match mask !! Z.to_nat (k / 8) with Some m => Z.testbit m (k mod 8) | None => false end.

Lemma isNullBit_mask mask i :
  (i + 2 < 8 * length mask)%nat → isNullBit mask i = Ok (maskBit mask (Z.of_nat i + 2)).
Proof.
  intros Hi. unfold isNullBit, maskBit, load. rewrite Z.shiftr_div_pow2 by lia. change (2 ^ 3) with 8.
  assert (0 ≤ (Z.of_nat i + 2) / 8 < Z.of_nat (length mask)) as Hq
    by (split; [apply Z.div_pos|apply Z.div_lt_upper_bound]; lia).
  rewrite (proj2 (Z.ltb_ge _ 0)) by lia.
  destruct (lookup_lt_is_Some_2 mask (Z.to_nat ((Z.of_nat i + 2) / 8))) as [m Hm]; [lia|]. rewrite Hm. simpl. f_equal.
  change 7 with (Z.ones 3). rewrite Z.land_ones by lia. change (2 ^ 3) with 8.
  change 1 with (Z.ones 1) at 1. rewrite Z.land_ones by lia.
  pose proof (Z.mod_pos_bound (Z.of_nat i + 2) 8 ltac:(lia)).
  rewrite Z.shiftr_div_pow2 by lia. rewrite <- Z.testbit_spec' by lia. by destruct (Z.testbit m _).
Qed.

Lemma setBit_mask mask payload k :
  0 ≤ k < 8 * Z.of_nat (length mask) →
  ∃ mask', setBit (0 :: mask ++ payload) (k / 8 + 1) (k mod 8) = Ok (0 :: mask' ++ payload) ∧
    length mask' = length mask ∧ ∀ j, 0 ≤ j → maskBit mask' j = maskBit mask j || (j =? k).
Proof.
  intros Hk. assert (0 ≤ k / 8 < Z.of_nat (length mask)) as Hq by (split; [apply Z.div_pos|apply Z.div_lt_upper_bound]; lia).
  pose proof (Z.mod_pos_bound k 8 ltac:(lia)) as Hr.
  destruct (lookup_lt_is_Some_2 mask (Z.to_nat (k / 8))) as [m Hm]; [lia|].
  exists (<[Z.to_nat (k / 8) := Z.lor m (Z.shiftl 1 (k mod 8))]> mask). split; [|split; [by rewrite length_insert|]].
  - unfold setBit, load, store. rewrite (proj2 (Z.ltb_ge _ 0)) by lia.
    replace (Z.to_nat (k / 8 + 1)) with (S (Z.to_nat (k / 8))) by lia.
    change ((0 :: mask ++ payload) !! S (Z.to_nat (k / 8))) with ((mask ++ payload) !! Z.to_nat (k / 8)).
    rewrite lookup_app_l by lia. rewrite Hm. cbn [mbind outcome_bind].
    rewrite (proj2 (Z.leb_le 0 _)), (proj2 (Z.ltb_lt (k / 8 + 1) _))
      by (try (unfold len; simpl; rewrite length_app); lia).
    rewrite wrapU_id; cycle 1.
    { unfold inU. rewrite Z.shiftl_mul_pow2 by lia. split; [apply Z.mul_nonneg_nonneg; lia|].
      rewrite Z.mul_1_l. apply Z.pow_lt_mono_r; lia. }
    cbn [andb]. by rewrite <- insert_app_l by lia.
  - intros j Hj. unfold maskBit. destruct (decide (j / 8 = k / 8)) as [E|E].
    + rewrite E, list_lookup_insert_eq, Hm by lia. rewrite Z.lor_spec. f_equal.
      rewrite Z.shiftl_spec by (apply Z.mod_pos_bound; lia). pose proof (Z.mod_pos_bound j 8 ltac:(lia)).
      pose proof (Z.div_mod j 8). pose proof (Z.div_mod k 8).
      destruct (Z.eqb_spec j k) as [->|Hne]; [by rewrite Z.sub_diag|].
      destruct (decide (j mod 8 < k mod 8)); [by apply Z.testbit_neg_r; lia|].
      apply (Z.bits_above_log2 1); simpl; lia.
    + assert (0 ≤ j / 8) by (apply Z.div_pos; lia). rewrite list_lookup_insert_ne by lia.
      destruct (Z.eqb_spec j k) as [->|]; [done|]. by rewrite orb_false_r.
Qed.

Section RowTheory.
Context {TL : TimeLib} {FT : FloatText} {DC : DecimalLib} {L : Location} {LL : LocationLaws L}.

(** A value is written as [b] and read from it wherever it stands. *)
Definition written (f : Field) (v : ProtoValue) (b : bytes) : Prop :=
  (∀ pre, writeCell pre f v = Ok (pre ++ b)) ∧
  (∀ pre post, buffer (pre ++ b ++ post) → scanCell f (pre ++ b ++ post) (len pre) = Ok (Some v, len pre + len b)).

(** The payload of a row. *)
Inductive payload : list Field → list cell → bytes → Prop :=
| payload_nil : payload [] [] []
| payload_null f fs cs bs : payload fs cs bs → payload (f :: fs) (None :: cs) bs
| payload_cell f v b fs cs bs : written f v b → payload fs cs bs → payload (f :: fs) (Some v :: cs) (b ++ bs).

(** Whether cell [k - 2] of those from number [i] on is NULL. *)
Definition nullAt (i k : Z) (cs : list cell) : bool :=
  match cs !! Z.to_nat (k - 2 - i) with Some None => i + 2 <=? k | _ => false end.

Lemma nullAt_cons i k c cs :
  0 ≤ i → 0 ≤ k → nullAt i k (c :: cs) = (match c with None => k =? i + 2 | _ => false end) || nullAt (i + 1) k cs.
Proof.
  intros Hi Hk. unfold nullAt. destruct (Z.lt_total k (i + 2)) as [Hlt|[Heq|Hgt]].
  - rewrite (proj2 (Z.leb_gt (i + 2) k)), (proj2 (Z.leb_gt (i + 1 + 2) k)), (proj2 (Z.eqb_neq k _)) by lia.
    destruct c as [v|]; repeat case_match; done.
  - subst. replace (Z.to_nat (i + 2 - 2 - i)) with 0%nat by lia. simpl.
    rewrite (proj2 (Z.leb_gt (i + 1 + 2) (i + 2))), Z.eqb_refl, Z.leb_refl by lia. destruct c; repeat case_match; done.
  - replace (Z.to_nat (k - 2 - i)) with (S (Z.to_nat (k - 2 - (i + 1)))) by lia. simpl.
    rewrite (proj2 (Z.eqb_neq k _)), (proj2 (Z.leb_le (i + 2) k)), (proj2 (Z.leb_le (i + 1 + 2) k)) by lia.
    destruct c; repeat case_match; done.
Qed.

Lemma writeCells_payload fs cs bs i mask pre :
  payload fs cs bs → 0 ≤ i → i + Z.of_nat (length cs) + 2 ≤ 8 * Z.of_nat (length mask) →
  ∃ mask', writeCells i fs cs (0 :: mask ++ pre) = Ok (0 :: mask' ++ pre ++ bs) ∧ length mask' = length mask ∧
    ∀ j, 0 ≤ j → maskBit mask' j = maskBit mask j || nullAt i j cs.
Proof using.
  intros Hp. revert i mask pre. induction Hp as [|f fs cs bs Hp IH|f v b fs cs bs [Hw _] Hp IH]; intros i mask pre Hi Hl; simpl.
  - exists mask. rewrite app_nil_r. split; [done|]. split; [done|]. intros j _. by rewrite orb_false_r.
  - destruct (setBit_mask mask pre (i + 2)) as (mask1 & -> & Hl1 & Hb1); [simpl in Hl; lia|]. cbn [mbind outcome_bind].
    destruct (IH (i + 1) mask1 pre) as (mask' & -> & Hl' & Hb'); [lia|simpl in Hl; lia|]. exists mask'.
    split; [done|]. split; [lia|]. intros j Hj. rewrite Hb', Hb1, nullAt_cons by lia. by rewrite orb_assoc.
  - rewrite (Hw (0 :: mask ++ pre)). cbn [mbind outcome_bind].
    replace ((0 :: mask ++ pre) ++ b) with (0 :: mask ++ (pre ++ b)) by (simpl; by rewrite app_assoc).
    destruct (IH (i + 1) mask (pre ++ b)) as (mask' & -> & Hl' & Hb'); [lia|simpl in Hl; lia|]. exists mask'.
    split; [by rewrite <- app_assoc|]. split; [lia|]. intros j Hj. by rewrite Hb', nullAt_cons by lia.
Qed.

Lemma scanCells_payload fs cs bs n i mask pre :
  payload fs cs bs → n = (i + length fs)%nat → (n + 2 ≤ 8 * length mask)%nat → buffer (pre ++ bs) →
  (∀ j, (i ≤ j)%nat → maskBit mask (Z.of_nat j + 2) = nullAt (Z.of_nat i) (Z.of_nat j + 2) cs) →
  scanCells n i fs (pre ++ bs) mask (len pre) = Ok cs.
Proof using.
  intros Hp. revert i pre. induction Hp as [|f fs cs bs Hp IH|f v b fs cs bs [_ Hr] Hp IH]; intros i pre Hn Hl Hb Hm; cbn [scanCells].
  - by replace (n - i)%nat with 0%nat by (simpl in Hn; lia).
  - rewrite isNullBit_mask by (simpl in Hn; lia). cbn [mbind outcome_bind]. rewrite Hm, nullAt_cons by lia.
    rewrite Z.eqb_refl. cbn [orb mbind outcome_bind]. rewrite (proj2 (Nat.ltb_lt i n)) by (simpl in Hn; lia).
    rewrite IH; [done|simpl in Hn; lia|done|done|]. intros j Hj. rewrite Hm, nullAt_cons by lia.
    rewrite (proj2 (Z.eqb_neq (Z.of_nat j + 2) _)) by lia. cbn [orb]. f_equal. lia.
  - rewrite isNullBit_mask by (simpl in Hn; lia). cbn [mbind outcome_bind]. rewrite Hm, nullAt_cons by lia.
    assert (nullAt (Z.of_nat i + 1) (Z.of_nat i + 2) cs = false) as ->.
    { unfold nullAt. rewrite (proj2 (Z.leb_gt (Z.of_nat i + 1 + 2) _)) by lia. by repeat case_match. }
    cbn [orb mbind outcome_bind]. rewrite Hr by (by rewrite <- ?app_assoc). cbn [mbind outcome_bind].
    rewrite (proj2 (Nat.ltb_lt i n)) by (simpl in Hn; lia). rewrite <- len_app, (app_assoc pre).
    rewrite IH; [done|simpl in Hn; lia|done|by rewrite <- app_assoc|]. intros j Hj. rewrite Hm, nullAt_cons by lia.
    cbn [orb]. f_equal. lia.
Qed.

(** *** Cells of the binary protocol *)

(** The bytes of the integers of a type. *)
Definition intWidth (typ : Z) : option nat :=
  if typ =? FieldTypeTiny then Some 1%nat
  else if oneOf [FieldTypeShort; FieldTypeYear] typ then Some 2%nat
  else if oneOf [FieldTypeInt24; FieldTypeLong] typ then Some 4%nat
  else None.

(** The values a column carries: integers of the width and sign of the type,
    strings, doubles, and times with whole microseconds. *)
Inductive carries (f : Field) : ProtoValue → Prop :=
| carries_int n i : intWidth (fieldType f) = Some n →
    (if unsigned f then inU (8 * Z.of_nat n) i else inS (8 * Z.of_nat n) i) → carries f (int64Value i)
| carries_long i : fieldType f = FieldTypeLongLong → unsigned f = false → inS 64 i → carries f (int64Value i)
| carries_ulong u : fieldType f = FieldTypeLongLong → unsigned f = true → inU 64 u → carries f (uint64Value u)
| carries_string s : oneOf stringTypes (fieldType f) = true → buffer (text s) → carries f (stringValue s)
| carries_double d : fieldType f = FieldTypeDouble → isFloat64 d → carries f (float64Value d)
| carries_zero : oneOf [FieldTypeDate; FieldTypeTimestamp; FieldTypeDateTime] (fieldType f) = true → carries f (timeValue zeroTime)
| carries_date y m d : fieldType f = FieldTypeDate → valid (midnight y m d) → carries f (timeValue (time_Date (midnight y m d)))
| carries_datetime c us : oneOf [FieldTypeTimestamp; FieldTypeDateTime] (fieldType f) = true → valid c →
    nanosecond c = us * 1000 → carries f (timeValue (time_Date c)).

Lemma wrapS_wrapU w i : 0 < w → inS w i → wrapS w (wrapU w i) = i.
Proof using.
  intros Hw Hi. unfold wrapU. pose proof (Z.div_mod i (2 ^ w) ltac:(lia)).
  replace (i mod 2 ^ w) with (i + (- (i / 2 ^ w)) * 2 ^ w) by lia. rewrite wrapS_period. by apply wrapS_id.
Qed.

Lemma wrapU_wrapS w i : 0 < w → wrapU w (wrapS w i) = wrapU w i.
Proof using. intros Hw. destruct (wrapS_shift w i Hw) as [q ->]. unfold wrapU. apply Z.mod_add. lia. Qed.

Lemma wrapU_wrapU w i : 0 ≤ w → wrapU w (wrapU w i) = wrapU w i.
Proof using. intros. unfold wrapU. apply Z.mod_mod. lia. Qed.

Lemma scanInteger_written n f i pre post :
  (0 < n)%nat → (if unsigned f then inU (8 * Z.of_nat n) i else inS (8 * Z.of_nat n) i) →
  scanInteger n f (pre ++ littleEndian n (wrapU (8 * Z.of_nat n) i) ++ post) (len pre)
  = Ok (Some (int64Value i), len pre + Z.of_nat n).
Proof using.
  intros Hn Hi. unfold scanInteger. rewrite littleEndianAt_app by (apply wrapU_range; lia). cbn [mbind outcome_bind].
  destruct (unsigned f); [by rewrite wrapU_id|by rewrite wrapS_wrapU by (done || lia)].
Qed.

Lemma int_written f n i :
  intWidth (fieldType f) = Some n → (if unsigned f then inU (8 * Z.of_nat n) i else inS (8 * Z.of_nat n) i) →
  written f (int64Value i) (littleEndian n (wrapU (8 * Z.of_nat n) i)).
Proof using.
  intros Hw Hi. unfold intWidth in Hw.
  assert ((fieldType f = FieldTypeTiny ∧ n = 1%nat) ∨ ((fieldType f = FieldTypeShort ∨ fieldType f = FieldTypeYear) ∧ n = 2%nat) ∨
    ((fieldType f = FieldTypeInt24 ∨ fieldType f = FieldTypeLong) ∧ n = 4%nat)) as Hcases.
  { cbn [oneOf existsb] in Hw. destruct (Z.eqb_spec (fieldType f) FieldTypeTiny); [naive_solver|].
    destruct (Z.eqb_spec (fieldType f) FieldTypeShort); [naive_solver|]. destruct (Z.eqb_spec (fieldType f) FieldTypeYear); [naive_solver|].
    destruct (Z.eqb_spec (fieldType f) FieldTypeInt24); [naive_solver|]. destruct (Z.eqb_spec (fieldType f) FieldTypeLong); naive_solver. }
  clear Hw. split.
  - intros pre. unfold writeCell. destruct Hcases as [[-> ->]|[[[-> | ->] ->]|[[-> | ->] ->]]]; cbn -[littleEndian];
      by rewrite ?wrapU_wrapS by lia.
  - intros pre post _. rewrite length_littleEndian. unfold scanCell.
    destruct Hcases as [[-> ->]|[[[-> | ->] ->]|[[-> | ->] ->]]]; (refine (scanInteger_written _ f i pre post _ Hi); lia).
Qed.

Lemma long_written f v u :
  fieldType f = FieldTypeLongLong → inU 64 u → Uint64 v = Ok u →
  (if unsigned f then uint64Value u else int64Value (i64 u)) = v → written f v (littleEndian 8 u).
Proof using.
  intros Ht Hu Hv Hr. split.
  - intros pre. unfold writeCell. rewrite Ht, Hv. done.
  - intros pre post _. unfold scanCell. rewrite Ht, length_littleEndian. cbn -[littleEndianAt littleEndian len app].
    rewrite littleEndianAt_app by done. cbn [mbind outcome_bind]. by rewrite Hr.
Qed.

Lemma double_written f d :
  fieldType f = FieldTypeDouble → isFloat64 d → written f (float64Value d) (littleEndian 8 (Float64bits d)).
Proof using.
  intros Ht Hd. destruct (Float64bits_roundtrip d Hd) as [Hr Hb]. split.
  - intros pre. unfold writeCell. by rewrite Ht.
  - intros pre post _. unfold scanCell. rewrite Ht, length_littleEndian. cbn -[littleEndianAt littleEndian len app Float64frombits Float64bits].
    rewrite littleEndianAt_app by done. cbn [mbind outcome_bind]. by rewrite Hr.
Qed.

Lemma oneOf_elem l x : oneOf l x = true → x ∈ l.
Proof using. unfold oneOf. rewrite existsb_exists. intros (y & Hin & ->%Z.eqb_eq). by apply list_elem_of_In. Qed.

Lemma slice_rest pre rest : slice (pre ++ rest) (len pre) (len (pre ++ rest)) = Ok rest.
Proof using. rewrite len_app. pose proof (slice_app pre rest []) as E. by rewrite app_nil_r in E. Qed.

Lemma codec_writeLenEncString_bytes b s' : (codec_writeLenEncString b s').1 = b ++ lenEncBytes (len s') ++ s'.
Proof using.
  unfold codec_writeLenEncString, codec_writeEOFString, codec_writeLenEncInt, lenEncBytes.
  repeat case_match; simplify_eq; simpl; by rewrite <- app_assoc.
Qed.

Lemma intWidth_None typ :
  intWidth typ = None → (typ =? FieldTypeTiny) = false ∧ oneOf [FieldTypeShort; FieldTypeYear] typ = false ∧
    oneOf [FieldTypeInt24; FieldTypeLong] typ = false.
Proof using. unfold intWidth. by repeat case_match. Qed.

Lemma string_written f s :
  oneOf stringTypes (fieldType f) = true → buffer (text s) →
  written f (stringValue s) (lenEncBytes (len (text s)) ++ text s).
Proof using.
  intros Ht Hs.
  assert (∃ k, oneOf stringTypes (TypeToMySQL (fieldType f)).1 = true ∧
    intWidth (TypeToMySQL (fieldType f)).1 = None ∧ intWidth (fieldType f) = None ∧
    oneOf [FieldTypeNULL; FieldTypeLongLong; FieldTypeFloat; FieldTypeDouble] (TypeToMySQL (fieldType f)).1 = false ∧
    (fieldType f =? FieldTypeLongLong) = k ∧ k = false) as (k & H1 & H2 & H3 & H4 & H5 & ->).
  { exists false. apply oneOf_elem in Ht. unfold stringTypes in Ht.
    repeat (apply elem_of_cons in Ht as [->|Ht]; [by vm_compute|]). by apply elem_of_nil in Ht. }
  apply intWidth_None in H2 as (A1 & A2 & A3). apply intWidth_None in H3 as (B1 & B2 & B3). cbn [oneOf existsb] in H4. split.
  - intros pre. unfold writeCell, WriteString. rewrite H5, Ht, B1, B2, B3. by rewrite codec_writeLenEncString_bytes.
  - intros pre post Hb. unfold scanCell. rewrite H1.
    apply orb_false_iff in H4 as [C1 (C2 & (C3 & (C4 & _)%orb_false_iff)%orb_false_iff)%orb_false_iff].
    rewrite C1, C2, C3, C4, A1, A2, A3, slice_rest. cbn [mbind outcome_bind].
    rewrite <- app_assoc, readLengthEncodedString_app by done. cbn [mbind outcome_bind].
    by rewrite string_of_text, len_app, len_lenEncBytes.
Qed.

Lemma scanTime_written f pre l body post t :
  fieldType f ≠ FieldTypeTime → 0 ≤ l < 251 → len body = l → buffer (pre ++ (l :: body) ++ post) →
  parseBinaryDateTime l (body ++ post) = Ok t →
  scanTime f (pre ++ (l :: body) ++ post) (len pre) = Ok (Some (timeValue t), len pre + len (l :: body)).
Proof using.
  intros Ht Hl Hlen Hb Hp. unfold scanTime, buffer in *. rewrite slice_rest. cbn [mbind outcome_bind].
  rewrite !len_app, len_cons in Hb. pose proof (len_nonneg pre). pose proof (len_nonneg post).
  cbn [app readLengthEncodedInteger]. rewrite !(proj2 (Z.eqb_neq l _)) by lia. cbn [mbind outcome_bind].
  rewrite (proj2 (Z.eqb_neq (fieldType f) _)) by done.
  assert (pre ++ l :: body ++ post = (pre ++ [l]) ++ (body ++ post)) as -> by (by rewrite <- app_assoc).
  replace (len pre + 1) with (len (pre ++ [l])) by (by rewrite len_app). rewrite slice_rest. cbn [mbind outcome_bind].
  rewrite Hp, wrapS_id by (unfold inS; lia). rewrite add_small by (rewrite len_app; change (len [l]) with 1; lia).
  rewrite (len_cons l body), Hlen, len_app. change (len [l]) with 1. do 2 f_equal. lia.
Qed.

Lemma binaryDate_reads y m d rest :
  0 ≤ y < 2 ^ 16 → binaryDate (littleEndian 2 y ++ [m; d] ++ rest) = Ok (midnight y m d).
Proof using.
  intros Hy. unfold binaryDate. pose proof (littleEndianAt_app 2 [] y ([m; d] ++ rest) Hy) as E.
  change (len []) with 0 in E. cbn [app] in E. cbn [app]. rewrite E. cbn [mbind outcome_bind].
  change (littleEndian 2 y) with [byte (Z.shiftr y (8 * 0)); byte (Z.shiftr y (8 * 1))]. by loads.
Qed.

Lemma binaryClock_reads y m d h mi s c ns rest :
  binaryClock (littleEndian 2 y ++ [m; d] ++ [h; mi; s] ++ rest) c ns = Ok (mkCivil (year c) (month c) (day c) h mi s ns).
Proof using.
  unfold binaryClock. change (littleEndian 2 y) with [byte (Z.shiftr y (8 * 0)); byte (Z.shiftr y (8 * 1))]. by loads.
Qed.

(** The fields of a valid time fit their bytes. *)
Lemma valid_bytes c :
  valid c → u16 (year c) = year c ∧ u8 (month c) = month c ∧ u8 (day c) = day c ∧ u8 (hour c) = hour c ∧
    u8 (minute c) = minute c ∧ u8 (second c) = second c.
Proof using. intros [Hy Hm Hd Hh Hi Hs _]. repeat split; apply wrapU_id; unfold inU; lia. Qed.

Definition timeType (typ : Z) : bool := oneOf [FieldTypeDate; FieldTypeTimestamp; FieldTypeDateTime] typ.

Lemma timeType_scans f raw pos : timeType (fieldType f) = true → scanCell f raw pos = scanTime f raw pos ∧ fieldType f ≠ FieldTypeTime.
Proof using.
  intros Ht%oneOf_elem. unfold scanCell.
  repeat (apply elem_of_cons in Ht as [->|Ht]; [by split|]). by apply elem_of_nil in Ht.
Qed.

Lemma timeType_writes f t pre :
  timeType (fieldType f) = true →
  writeCell pre f (timeValue t) = r ← (if fieldType f =? FieldTypeDate then WriteDate else WriteDateTime) pre t; Ok r.1.
Proof using.
  intros Ht%oneOf_elem. unfold writeCell.
  repeat (apply elem_of_cons in Ht as [->|Ht]; [done|]). by apply elem_of_nil in Ht.
Qed.

Lemma zero_written f : timeType (fieldType f) = true → written f (timeValue zeroTime) [0].
Proof using.
  intros Ht. split.
  - intros pre. rewrite timeType_writes by done. unfold WriteDate, WriteDateTime, writeTimeN, IsZero. rewrite Z.eqb_refl. by destruct (_ =? _).
  - intros pre post Hb. destruct (timeType_scans f (pre ++ [0] ++ post) (len pre) Ht) as [-> Hne].
    by apply (scanTime_written f pre 0 []).
Qed.

Lemma date_written f y m d :
  fieldType f = FieldTypeDate → valid (midnight y m d) → ∃ b, written f (timeValue (time_Date (midnight y m d))) b.
Proof using LL.
  intros Ht Hv. assert (timeType (fieldType f) = true) as Htt by (by rewrite Ht).
  destruct (decide (time_Date (midnight y m d) = zeroTime)) as [->|Hnz]; [eexists; by apply zero_written|].
  destruct (valid_bytes _ Hv) as (E1 & E2 & E3 & _). simpl in E1, E2, E3. pose proof (valid_year _ Hv) as Hy. simpl in Hy.
  exists (4 :: littleEndian 2 y ++ [m; d]). split.
  - intros pre. rewrite timeType_writes, Ht by done. cbn -[WriteDate]. unfold WriteDate, IsZero.
    rewrite (proj2 (Z.eqb_neq _ _) Hnz). unfold writeTimeN. rewrite time_Civil_Date by done. simpl.
    rewrite E1, E2, E3. by rewrite <- app_assoc.
  - intros pre post Hb. destruct (timeType_scans f (pre ++ (4 :: littleEndian 2 y ++ [m; d]) ++ post) (len pre) Htt) as [-> Hne].
    apply scanTime_written; [done|lia|done|done|]. unfold parseBinaryDateTime. cbn [Z.eqb Pos.eqb].
    rewrite <- app_assoc, binaryDate_reads by lia. done.
Qed.

Lemma datetime_written f c us :
  oneOf [FieldTypeTimestamp; FieldTypeDateTime] (fieldType f) = true → valid c → nanosecond c = us * 1000 →
  ∃ b, written f (timeValue (time_Date c)) b.
Proof using LL.
  intros Ht Hv Hus.
  assert (timeType (fieldType f) = true ∧ (fieldType f =? FieldTypeDate) = false) as [Htt Hnd].
  { apply oneOf_elem in Ht. repeat (apply elem_of_cons in Ht as [->|Ht]; [done|]). by apply elem_of_nil in Ht. }
  destruct (decide (time_Date c = zeroTime)) as [->|Hnz]; [eexists; by apply zero_written|].
  destruct (valid_bytes _ Hv) as (E1 & E2 & E3 & E4 & E5 & E6). pose proof (valid_year _ Hv) as Hy.
  pose proof (valid_nanosecond _ Hv) as Hns.
  assert (Z.quot (nanosecond c) Microsecond = us) as Equot by (rewrite Hus; apply Z.quot_mul; done).
  set (date := littleEndian 2 (year c) ++ [month c; day c]). set (clock := [hour c; minute c; second c]).
  assert (∀ l b, IsZero (time_Date c) = false →
    writeTimeN [] (time_Date c) l = Ok (b, l + 1) → ∀ pre, writeTimeN pre (time_Date c) l = Ok (pre ++ b, l + 1)) as Hw.
  { intros l b _ Hb pre. unfold writeTimeN in *. repeat case_match; simplify_eq; by rewrite <- ?app_assoc. }
  assert (IsZero (time_Date c) = false) as Hz by (by apply Z.eqb_neq).
  assert (∀ l body, writeTimeN [] (time_Date c) l = Ok (l :: body, l + 1) → 0 ≤ l < 251 → len body = l →
    (if us =? 0 then 7 else 11) = l → (∀ post, parseBinaryDateTime l (body ++ post) = Ok (time_Date c)) →
    written f (timeValue (time_Date c)) (l :: body)) as Hwr.
  { intros l body Hb Hl Hlen Hus' Hp. split.
    - intros pre. rewrite timeType_writes, Hnd by done. unfold WriteDateTime. rewrite Hz, time_Civil_Date, Equot by done.
      rewrite <- Hus' in *. destruct (us =? 0); rewrite (Hw _ _ Hz Hb pre); done.
    - intros pre post Hbuf. destruct (timeType_scans f (pre ++ (l :: body) ++ post) (len pre) Htt) as [-> Hne].
      by apply scanTime_written. }
  assert (writeTimeN [] (time_Date c) 7 = Ok (7 :: date ++ clock, 8)) as H7.
  { unfold writeTimeN. rewrite time_Civil_Date, E1, E2, E3, E4, E5, E6 by done. done. }
  assert (writeTimeN [] (time_Date c) 11 = Ok (11 :: date ++ clock ++ littleEndian 4 us, 12)) as H11.
  { unfold writeTimeN. rewrite time_Civil_Date, E1, E2, E3, E4, E5, E6, Equot, (wrapU_id 32) by (done || unfold inU; lia). done. }
  destruct (Z.eqb_spec us 0) as [Hz0|Hnz0].
  - exists (7 :: date ++ clock). apply Hwr; [done|lia|done|done|]. intros post. unfold parseBinaryDateTime. cbn [Z.eqb Pos.eqb].
    unfold date. rewrite <- !app_assoc, binaryDate_reads by lia. cbn [mbind outcome_bind]. unfold clock.
    rewrite binaryClock_reads. cbn [mbind outcome_bind]. do 2 f_equal. destruct c; simpl in *. f_equal. lia.
  - exists (11 :: date ++ clock ++ littleEndian 4 us). apply Hwr; [done|lia|done|done|]. intros post.
    unfold parseBinaryDateTime. cbn [Z.eqb Pos.eqb].
    pose proof (littleEndianAt_app 4 (date ++ clock) us post ltac:(lia)) as Eus. change (len (date ++ clock)) with 7 in Eus.
    rewrite <- !app_assoc in *. rewrite Eus. unfold date. rewrite <- !app_assoc, binaryDate_reads by lia.
    cbn [mbind outcome_bind]. unfold clock. rewrite binaryClock_reads. cbn [mbind outcome_bind].
    do 2 f_equal. destruct c; simpl in *. f_equal. lia.
Qed.

Lemma carries_written f v : carries f v → ∃ b, written f v b.
Proof using LL.
  intros [n i Hw Hi|i Ht Hu Hi|u Ht Hu Hi|s Ht Hs|d Ht Hd|Ht|y m d Ht Hv|c us Ht Hv Hus].
  - eexists. by apply int_written.
  - eexists. apply (long_written _ _ (i mod 2 ^ 64)); [done|apply Z.mod_pos_bound; lia|done|]. rewrite Hu. f_equal.
    by apply (wrapS_wrapU 64).
  - eexists. apply (long_written _ _ u); [done..|]. by rewrite Hu.
  - eexists. by apply string_written.
  - eexists. by apply double_written.
  - eexists. by apply zero_written.
  - by apply date_written.
  - by eapply datetime_written.
Qed.

Lemma carries_payload fs cs :
  Forall2 (λ f c, match c with Some v => carries f v | None => True end) fs cs → ∃ bs, payload fs cs bs.
Proof using LL.
  induction 1 as [|f c fs cs Hc _ [bs IH]]; [eexists; constructor|]. destruct c as [v|]; [|eexists; by constructor].
  destruct (carries_written f v Hc) as [b Hb]. eexists. by constructor.
Qed.

Lemma maskBit_zeros n k : maskBit (replicate n 0) k = false.
Proof using.
  unfold maskBit. destruct (replicate n 0 !! Z.to_nat (k / 8)) as [m|] eqn:E; [|done].
  apply lookup_replicate in E as [-> _]. apply Z.bits_0.
Qed.

(** C36: rows in the binary protocol.  A virtual row whose cells are NULL or
    values its columns carry is written without error, and scanning the bytes
    with the same columns gives the cells back, NULLs included. *)
Theorem binary_row_roundtrip fs cs :
  Forall2 (λ f c, match c with Some v => carries f v | None => True end) fs cs →
  ∃ raw, binary_WriteTo (mkVirtual fs cs) = Ok raw ∧
    (buffer raw → Scan (NewBinaryRow fs raw) (length fs) = Ok cs).
Proof using LL.
  intros Hc. pose proof (Forall2_length _ _ _ Hc) as Hlen. destruct (carries_payload fs cs Hc) as [bs Hp].
  unfold binary_WriteTo. cbn [cells fields]. rewrite Z.shiftr_div_pow2 by lia. change (2 ^ 3) with 8.
  set (n := length cs) in *. set (k := Z.to_nat ((Z.of_nat n + 7 + 2) / 8)).
  assert (Z.of_nat n + 2 ≤ 8 * Z.of_nat k ∧ Z.of_nat k = (Z.of_nat n + 7 + 2) / 8) as [Hk Ek].
  { pose proof (Z.div_mod (Z.of_nat n + 7 + 2) 8). pose proof (Z.mod_pos_bound (Z.of_nat n + 7 + 2) 8). lia. }
  destruct (writeCells_payload fs cs bs 0 (replicate k 0) [] Hp) as (mask & Hw & Hml & Hmb); [done|by rewrite length_replicate|].
  rewrite length_replicate in Hml. rewrite app_nil_r in Hw. rewrite Hw. eexists. split; [done|]. intros Hb.
  simpl. unfold binary_Scan. cbn [bi_raw bi_fields]. change (load _ 0) with (Ok 0). cbn [mbind outcome_bind negb Z.eqb].
  rewrite Hlen, Z.shiftr_div_pow2 by lia. change (2 ^ 3) with 8. rewrite <- Ek.
  replace (1 + Z.of_nat k) with (len [0] + len mask) by (unfold len; rewrite Hml; done).
  change (0 :: mask ++ bs) with ([0] ++ mask ++ bs) in *. pose proof (slice_app [0] mask bs) as Es.
  change (slice ([0] ++ mask ++ bs) 1) with (slice ([0] ++ mask ++ bs) (len [0])). rewrite Es. cbn [mbind outcome_bind].
  rewrite <- len_app, app_assoc. apply scanCells_payload; [done|lia|lia|by rewrite <- app_assoc|].
  intros j Hj. by rewrite Hmb, maskBit_zeros by lia.
Qed.

(** *** Cells of the text protocol *)

Definition textTimes : list Z := [FieldTypeTimestamp; FieldTypeDateTime; FieldTypeDate; FieldTypeNewDate].
Definition textIntegers : list Z := [FieldTypeTiny; FieldTypeShort; FieldTypeLong; FieldTypeInt24; FieldTypeLongLong; FieldTypeYear].
Definition textNumbers : list Z := [FieldTypeFloat; FieldTypeDouble; FieldTypeNewDecimal; FieldTypeDecimal].

(** The values a column carries as text: strings where the type is read as a
    string, integers, and times with whole microseconds. *)
Inductive carriesText (f : Field) : ProtoValue → Prop :=
| textString s : oneOf (textTimes ++ textIntegers ++ textNumbers) (fieldType f) = false → carriesText f (stringValue s)
| textInt i : oneOf textIntegers (fieldType f) = true → Z.land (flags f) UnsignedFlag ≤ 0 → inS 64 i → carriesText f (int64Value i)
| textUint u : oneOf textIntegers (fieldType f) = true → 0 < Z.land (flags f) UnsignedFlag → inU 64 u → carriesText f (uint64Value u)
| textTime c us : oneOf textTimes (fieldType f) = true → valid c → nanosecond c = us * 1000 → carriesText f (timeValue (time_Date c)).

Definition writtenText (f : Field) (v : ProtoValue) (s : bytes) : Prop :=
  (∀ pre, writeTextCell pre f (Some v) = Ok (pre ++ lenEncBytes (len s) ++ s)) ∧ scanTextCell f s = Ok v.

Lemma oneOf_app l k x : oneOf (l ++ k) x = oneOf l x || oneOf k x.
Proof using. unfold oneOf. apply existsb_app. Qed.

Lemma ParseUint_FormatInt u : inU 64 u → ParseUint (FormatInt u) = Ok u.
Proof using.
  intros Hu. unfold inU in Hu. destruct (to_int_nonnil u) as [Hn _]. unfold ParseUint, FormatInt.
  pose proof (DecimalZ.of_to u) as E. destruct (Z.to_int u) as [d|d] eqn:Ed.
  - cbn [DecimalString.NilZero.string_of_int]. rewrite DecimalString.NilZero.usu by congruence. rewrite E.
    rewrite (proj2 (Z.ltb_lt u _)) by lia. done.
  - destruct u as [|p|p]; [done|done|lia].
Qed.

Lemma carriesText_written f v : carriesText f v → ∃ s, writtenText f v s.
Proof using LL.
  unfold writtenText, writeTextCell, scanTextCell, WriteString.
  intros [s Ht|i Ht Hu Hi|u Ht Hu Hi|c us Ht Hv Hus].
  - rewrite !oneOf_app, !orb_false_iff in Ht. destruct Ht as (Htimes & Hints & Hnums). exists (text s).
    unfold textTimes in Htimes. unfold textIntegers in Hints. rewrite Htimes, Hints. split; [intros; by rewrite codec_writeLenEncString_bytes|].
    change textNumbers with ([FieldTypeFloat; FieldTypeDouble] ++ [FieldTypeNewDecimal; FieldTypeDecimal]) in Hnums.
    rewrite oneOf_app, orb_false_iff in Hnums. destruct Hnums as [-> ->]. rewrite string_of_text. by case_match.
  - exists (text (FormatInt i)). rewrite string_of_text, ParseInt_FormatInt by done.
    rewrite Z.gtb_ltb, (proj2 (Z.ltb_ge _ _)) by lia. apply oneOf_elem in Ht. split.
    + intros pre. repeat (apply elem_of_cons in Ht as [->|Ht]; [by rewrite codec_writeLenEncString_bytes|]). by apply elem_of_nil in Ht.
    + repeat (apply elem_of_cons in Ht as [->|Ht]; [done|]). by apply elem_of_nil in Ht.
  - exists (text (FormatInt u)). rewrite string_of_text, ParseUint_FormatInt by done.
    rewrite Z.gtb_ltb, (proj2 (Z.ltb_lt _ _)) by lia. apply oneOf_elem in Ht. split.
    + intros pre. repeat (apply elem_of_cons in Ht as [->|Ht]; [by rewrite codec_writeLenEncString_bytes|]). by apply elem_of_nil in Ht.
    + repeat (apply elem_of_cons in Ht as [->|Ht]; [done|]). by apply elem_of_nil in Ht.
  - destruct (AppendDateTime_parses c us Hv Hus) as (b & Hb & Hp & _). exists b. change textTimes with
      [FieldTypeTimestamp; FieldTypeDateTime; FieldTypeDate; FieldTypeNewDate] in Ht. rewrite Ht. split.
    + intros pre. simpl. rewrite Hb. simpl. by rewrite codec_writeLenEncString_bytes.
    + rewrite Hp. apply oneOf_elem in Ht. repeat (apply elem_of_cons in Ht as [->|Ht]; [done|]). by apply elem_of_nil in Ht.
Qed.

Inductive textPayload : list Field → list cell → bytes → Prop :=
| textPayload_nil : textPayload [] [] []
| textPayload_null f fs cs bs : textPayload fs cs bs → textPayload (f :: fs) (None :: cs) (0xfb :: bs)
| textPayload_cell f v s fs cs bs :
    writtenText f v s → textPayload fs cs bs → textPayload (f :: fs) (Some v :: cs) ((lenEncBytes (len s) ++ s) ++ bs).

Lemma writeTextCells_payload fs cs bs pre : textPayload fs cs bs → writeTextCells fs cs pre = Ok (pre ++ bs).
Proof using.
  intros Hp. revert pre. induction Hp as [|f fs cs bs Hp IH|f v s fs cs bs [Hw _] Hp IH]; intros pre; cbn [writeTextCells].
  - by rewrite app_nil_r.
  - cbn [writeTextCell mbind outcome_bind]. by rewrite IH, <- app_assoc.
  - rewrite Hw. cbn [mbind outcome_bind]. by rewrite IH, <- app_assoc.
Qed.

Lemma scanTextCells_payload fs cs bs pre :
  textPayload fs cs bs → buffer (pre ++ bs) → scanTextCells (length fs) fs (pre ++ bs) (len pre) = Ok cs.
Proof using.
  intros Hp. revert pre. induction Hp as [|f fs cs bs Hp IH|f v s fs cs bs [_ Hr] Hp IH]; intros pre Hb; [done|..];
    cbn [scanTextCells length]; rewrite slice_rest; cbn [mbind outcome_bind].
  - assert (readLengthEncodedString (0xfb :: bs) = Ok ([], true, 1)) as E.
    { unfold readLengthEncodedString. pose proof (slice_app [0xfb] [] bs) as E.
      change (len [0xfb]) with 1 in E. change (len []) with 0 in E. change (1 + 0) with 1 in E. simpl in E |- *. by rewrite E. }
    rewrite E. cbn [withStack mbind outcome_bind].
    assert (pre ++ 0xfb :: bs = (pre ++ [0xfb]) ++ bs) as Eapp by (by rewrite <- app_assoc). rewrite Eapp in *.
    replace (len pre + 1) with (len (pre ++ [0xfb])) by (by rewrite len_app). by rewrite IH.
  - rewrite <- app_assoc, readLengthEncodedString_app; cycle 1.
    { unfold buffer in *. rewrite !len_app in Hb. pose proof (len_nonneg pre). pose proof (len_nonneg bs).
      pose proof (len_nonneg (lenEncBytes (len s))). lia. }
    cbn [withStack mbind outcome_bind]. rewrite Hr. cbn [mbind outcome_bind].
    assert (pre ++ lenEncBytes (len s) ++ s ++ bs = (pre ++ lenEncBytes (len s) ++ s) ++ bs) as -> by (by rewrite <- !app_assoc).
    replace (len pre + (lenEncIntSize (len s) + len s)) with (len (pre ++ lenEncBytes (len s) ++ s))
      by (rewrite !len_app, len_lenEncBytes; lia).
    rewrite IH; [done|]. by rewrite <- !app_assoc in *.
Qed.

(** Rows in the text protocol.  A virtual row whose cells are NULL, or
    strings, integers and times its columns carry, is written without error,
    and scanning the text with the same columns gives the cells back. *)
Theorem text_row_roundtrip fs cs :
  Forall2 (λ f c, match c with Some v => carriesText f v | None => True end) fs cs →
  ∃ raw, text_WriteTo (mkVirtual fs cs) = Ok raw ∧ (buffer raw → Scan (NewTextRow fs raw) (length fs) = Ok cs).
Proof using LL.
  intros Hc. assert (∃ bs, textPayload fs cs bs) as [bs Hp].
  { induction Hc as [|f c fs cs Hc _ [bs IH]]; [eexists; constructor|]. destruct c as [v|]; [|eexists; by constructor].
    destruct (carriesText_written f v Hc) as [b Hb]. eexists. by constructor. }
  exists bs. split; [by apply (writeTextCells_payload fs cs bs [])|]. intros Hb. by apply (scanTextCells_payload fs cs bs []).
Qed.
End RowTheory.

Module RowExamples.
Import NoDates NoFloats ExactDecimal MixedCalendar.

Definition columns : list Field := [
  NewField "id" FieldTypeLong; NewField "name" FieldTypeVarChar; NewField "score" FieldTypeDouble;
  NewField "note" FieldTypeVarString; NewField "seen" FieldTypeDateTime].

Definition seen : civil := mkCivil 2022 8 5 13 30 59 500000000.

Definition row : list cell := [
  Some (int64Value (-7)); Some (stringValue "arana"); Some (float64Value (S754_finite false 4503599627370496 (-51)));
  None; Some (timeValue (time_Date seen))].

Lemma seen_valid : valid seen.
Proof. split; simpl; lia. Qed.

Lemma binary_row_roundtrip_witness :
  ∃ raw, binary_WriteTo (mkVirtual columns row) = Ok raw ∧ Scan (NewBinaryRow columns raw) 5 = Ok row.
Proof.
  destruct (binary_row_roundtrip columns row) as (raw & Hw & Hs).
  - constructor; [by eapply (carries_int _ 4)|]. constructor; [by apply carries_string|].
    constructor; [apply carries_double; [done|right; lia]|]. constructor; [done|].
    constructor; [|constructor]. by apply (carries_datetime _ seen 500000); [|apply seen_valid|].
  - exists raw. split; [exact Hw|]. apply Hs. vm_compute in Hw. injection Hw as <-. vm_compute. reflexivity.
Defined.

Definition textColumns : list Field := [
  NewField "id" FieldTypeLong; NewField "name" FieldTypeVarChar; NewField "note" FieldTypeVarString; NewField "seen" FieldTypeDateTime].
Definition textRow : list cell := [
  Some (int64Value (-7)); Some (stringValue "arana"); None; Some (timeValue (time_Date seen))].

Lemma text_row_roundtrip_witness :
  ∃ raw, text_WriteTo (mkVirtual textColumns textRow) = Ok raw ∧ Scan (NewTextRow textColumns raw) 4 = Ok textRow.
Proof.
  destruct (text_row_roundtrip textColumns textRow) as (raw & Hw & Hs).
  - constructor; [by apply textInt|]. constructor; [by apply textString|]. constructor; [done|].
    constructor; [|constructor]. by apply (textTime _ seen 500000); [|apply seen_valid|].
  - exists raw. split; [exact Hw|]. apply Hs. vm_compute in Hw. injection Hw as <-. vm_compute. reflexivity.
Defined.

(** A value of a TIME column is not written at all, so the cell after it is
    read in its place. *)
Lemma time_column_lost : ∀ b v, writeCell b (NewField "t" FieldTypeTime) v = Ok b.
Proof. done. Qed.

(** [WriteDuration] takes the microseconds within a millisecond for those
    within a second: half a second is written without its fraction. *)
Lemma duration_fraction_lost : WriteDuration [] (1500 * Millisecond) = WriteDuration [] (1000 * Millisecond).
Proof. reflexivity. Qed.

(** A time with nanoseconds is printed with more digits than are read. *)
Lemma nanoseconds_unreadable :
  ∃ b, AppendDateTime [] (time_Date (mkCivil 2022 8 5 13 30 59 1)) = Ok b ∧ parseDateTime b = Err (NewError "invalid time bytes").
Proof. eexists. split; vm_compute; reflexivity. Qed.
End RowExamples.
