(* ===== verification/ResultSet.v ===== *)
(** * Result sets: [pkg/mysql/server.go] ([writeFields] and what follows it),
    [pkg/mysql/client.go] ([readComQueryResponse], [ReadColumnDefinition] and
    the like), [pkg/mysql/result.go]

    The server sends a result set as a count, the definitions of the columns
    and the rows, and the client reads it step by step.  The server's
    capabilities and status flags are arguments. *)
From S2P Require Import Prelude GoStd Value Encoding Packet Row MysqlText RowCodec Auth Handshake.

(** A column with what only its definition packet has. *)
Record ColumnDef := mkColumnDef {
  col : Field;
  columnLength : Z;
  defaultValueLength : Z;
  defaultValue : bytes;
}.

Definition zeroColumn : ColumnDef := mkColumnDef (NewField "" 0) 0 0 [].

(** ** The server *)

(** The type and the flags sent for a field: its own flags if it has any. *)
Definition wireType (f : Field) : Z * Z :=
  let '(typ, derived) := TypeToMySQL (fieldType f) in (typ, if negb (flags f =? 0) then flags f else derived).

(** The fields of a column definition. *)
Definition columnFields (c : ColumnDef) : list (bytes → Z → outcome (bytes * Z)) :=
  let f := col c in
  [λ data pos, writeLenEncString data pos (text "def");
   λ data pos, writeLenEncString data pos (text (database f));
   λ data pos, writeLenEncString data pos (text (table f));
   λ data pos, writeLenEncString data pos (text (orgTable f));
   λ data pos, writeLenEncString data pos (text (name f));
   λ data pos, writeLenEncString data pos (text (orgName f));
   λ data pos, writeByte data pos 0x0c;
   λ data pos, writeUint16 data pos (charSet f);
   λ data pos, writeUint32 data pos (columnLength c);
   λ data pos, writeByte data pos (byte (wireType f).1);
   λ data pos, writeUint16 data pos (wrapU 16 (wireType f).2);
   λ data pos, writeByte data pos (byte (decimals f));
   λ data pos, writeUint16 data pos 0].

(** The size of the strings and the fixed fields. *)
Definition columnSize (f : Field) : Z :=
  lenEncStringSize (text (database f)) + lenEncStringSize (text (table f)) + lenEncStringSize (text (orgTable f)) +
  lenEncStringSize (text (name f)) + lenEncStringSize (text (orgName f)) + 1 + 2 + 4 + 1 + 2 + 1 + 2.

(** A packet with its header, for a list of packets sent at once.  Room for
    the default value is taken also where there is none. *)
Definition DefColumnDefinition (c : ColumnDef) : M bytes :=
  let f := col c in
  let length := 4 + lenEncStringSize (text "def") + columnSize f + lenEncStringSize (defaultValue c) in
  conn ← get;
  data ← lift (writeLenEncInt (replicate (Z.to_nat length) 0) 0 (wrapU 64 (length - 4)));
  data ← lift (writeLenEncInt data.1 3 (sequence conn));
  _ ← nextSequence;
  r ← lift (packFields (columnFields c) data.1 4);
  if 0 <? len (defaultValue c) then r ← lift (writeLenEncString r.1 r.2 (defaultValue c)); mret r.1 else mret r.1.

Section ServerResult.
Context (bufPool : Z → bytes) (capabilities statusFlags : Z).

Definition sendColumnCount (count : Z) : M unit :=
  sendFields bufPool (lenEncIntSize count) [λ data pos, writeLenEncInt data pos count].

Definition writeColumnDefinition (c : ColumnDef) : M unit :=
  sendChecked bufPool (4 + columnSize (col c)) (columnFields c) (lift (Err (NewError "packing of column definition"))).

Fixpoint writeColumns (cs : list ColumnDef) : M unit :=
  match cs with
  | [] => mret tt
  | c :: cs => _ ← writeColumnDefinition c; writeColumns cs
  end.

Definition deprecateEOF : bool := has capabilities CapabilityClientDeprecateEOF.

(** The end of the definitions, unless it is deprecated. *)
Definition endOfColumns : M unit := if deprecateEOF then mret tt else writeEOFPacket bufPool statusFlags 0.

Definition writeColumnList (cs : list ColumnDef) : M unit :=
  _ ← sendColumnCount (Z.of_nat (length cs));
  _ ← writeColumns cs;
  endOfColumns.

(** A row is what its [WriteTo] appends to a buffer. *)
Definition writeRow (row : outcome bytes) : M unit :=
  bf ← lift (withStack row);
  sendFields bufPool (len bf) [writeCopy (Ok bf)].

(** The answers of [ds.Next] until the end of the data. *)
Fixpoint writeDataset (ds : list (outcome (outcome bytes))) : M unit :=
  match ds with
  | [] => mret tt
  | next :: ds =>
      match next with
      | Err e => if errors_Is e EOF then mret tt else lift (Err e)
      | _ => row ← lift next; _ ← writeRow row; writeDataset ds
      end
  end.

(** As [writeDataset], with the errors wrapped. *)
Fixpoint writeDatasetBinary (ds : list (outcome (outcome bytes))) : M unit :=
  match ds with
  | [] => mret tt
  | next :: ds =>
      match next with
      | Err e => if errors_Is e EOF then mret tt else lift (Err (WrapError e))
      | _ => row ← lift next; _ ← wrapping (writeRow row); writeDatasetBinary ds
      end
  end.

Definition writeEndResult (more : bool) (affectedRows lastInsertID warnings : Z) : M unit :=
  let flags := if more then Z.lor statusFlags ServerMoreResultsExists else statusFlags in
  if deprecateEOF then writeOKPacketWithEOFHeader bufPool affectedRows lastInsertID flags warnings
  else writeEOFPacket bufPool flags warnings.

(** The parameter every placeholder is described as. *)
Definition placeholder : ColumnDef := mkColumnDef (mkField "" "" "" "?" "" 0 BinaryFlag FieldTypeString 0 63) 0 0 [].

Definition writePrepare (statementID paramsCount : Z) : M unit :=
  _ ← sendFields bufPool 12
    [λ data pos, writeByte data pos 0;
     λ data pos, writeUint32 data pos statementID;
     λ data pos, writeUint16 data pos 0;
     λ data pos, writeUint16 data pos paramsCount;
     λ data pos, writeByte data pos 0;
     λ data pos, writeUint16 data pos 0];
  if paramsCount >? 0 then _ ← writeColumns (replicate (Z.to_nat paramsCount) placeholder); endOfColumns else mret tt.
End ServerResult.

(** ** Reading columns *)

(** [NewSQLError(CRMalformedPacket, ..., "... col %v ...", index)]. *)
Definition needCol {A} (before : string) (index : Z) (after : string) (m : outcome (option A)) : outcome A :=
  need CRMalformedPacket (before ++ " col " ++ FormatInt index ++ " " ++ after ++ " failed") m.

(** A command was a list of fields: the default value, appended to the one
    the field has. *)
Definition readDefault (colDef : bytes) (index pos : Z) (c : ColumnDef) : outcome ColumnDef :=
  if len colDef >? pos then
    rest ← slice colDef pos (len colDef);
    '(l, _, n) ← readLengthEncodedInteger rest;
    let pos := add pos n in
    let end_ := add pos (i64 l) in
    if end_ >? len colDef
    then Err (NewSQLError CRMalformedPacket SSUnknownSQLState (text ("extracting col " ++ FormatInt index ++ " default value failed")))
    else v ← slice colDef pos end_; Ok (mkColumnDef (col c) (columnLength c) l (defaultValue c ++ v))
  else Ok c.

(** The type of a column, an error if there is none of the number. *)
Definition columnType (t flags index : Z) : outcome Z :=
  match MySQLToType t flags with
  | Ok typ => Ok typ
  | _ => Err (NewSQLError CRMalformedPacket SSUnknownSQLState
      (text ("MySQLToType(" ++ FormatInt t ++ "," ++ FormatInt flags ++ ") failed for column " ++ FormatInt index)))
  end.

Definition parseColumnDefinition (colDef : bytes) (field : ColumnDef) (index : Z) : outcome ColumnDef :=
  pos ← needCol "skipping" index "catalog" (skipLenEncString colDef 0);
  db ← needCol "extracting" index "schema" (readLenEncString colDef pos);
  tbl ← needCol "extracting" index "table" (readLenEncString colDef db.2);
  orgTbl ← needCol "extracting" index "org_table" (readLenEncString colDef tbl.2);
  nm ← needCol "extracting" index "name" (readLenEncString colDef orgTbl.2);
  orgNm ← needCol "extracting" index "org_name" (readLenEncString colDef nm.2);
  characterSet ← needCol "extracting" index "characterSet" (readUint16 colDef (add orgNm.2 1));
  colLength ← needCol "extracting" index "columnLength" (readUint32 colDef characterSet.2);
  t ← needCol "extracting" index "type" (readByte colDef colLength.2);
  fl ← needCol "extracting" index "flags" (readUint16 colDef t.2);
  typ ← columnType t.1 fl.1 index;
  dec ← needCol "extracting" index "decimals" (readByte colDef fl.2);
  readDefault colDef index (add dec.2 2)
    (mkColumnDef (mkField (string_of tbl.1) (string_of orgTbl.1) (string_of db.1) (string_of nm.1) (string_of orgNm.1)
       (length_ (col field)) fl.1 typ dec.1 characterSet.1) colLength.1 (defaultValueLength field) (defaultValue field)).

(** Only the type is filled in. *)
Definition parseColumnDefinitionType (colDef : bytes) (field : ColumnDef) (index : Z) : outcome ColumnDef :=
  pos ← needCol "skipping" index "catalog" (skipLenEncString colDef 0);
  pos ← needCol "skipping" index "schema" (skipLenEncString colDef pos);
  pos ← needCol "skipping" index "table" (skipLenEncString colDef pos);
  pos ← needCol "skipping" index "org_table" (skipLenEncString colDef pos);
  pos ← needCol "skipping" index "name" (skipLenEncString colDef pos);
  pos ← needCol "skipping" index "org_name" (skipLenEncString colDef pos);
  characterSet ← needCol "extracting" index "characterSet" (readUint16 colDef (add pos 1));
  colLength ← needCol "extracting" index "columnLength" (readUint32 colDef characterSet.2);
  t ← needCol "extracting" index "type" (readByte colDef colLength.2);
  fl ← needCol "extracting" index "flags" (readUint16 colDef t.2);
  typ ← columnType t.1 fl.1 index;
  let f := col field in
  Ok (mkColumnDef (mkField (table f) (orgTable f) (database f) (name f) (orgName f) (length_ f) (flags f) typ (decimals f) (charSet f))
    (columnLength field) (defaultValueLength field) (defaultValue field)).

Definition lost (e : error) : error := NewSQLError CRServerLost SSUnknownSQLState (errorText e).

(** [data, err := readEphemeralPacket(); defer recycleReadPacket()]. *)
Definition onePacket {A} (f : bytes → outcome A) : M A :=
  data ← mapErr readEphemeralPacket lost;
  deferring (lift (f data)) recycleReadPacket.

Definition ReadColumnDefinition (field : ColumnDef) (index : Z) : M ColumnDef :=
  onePacket (λ colDef, eof ← isEOFPacket colDef; if (eof : bool) then Err EOF else parseColumnDefinition colDef field index).

Definition ReadColumnDefinitionType (field : ColumnDef) (index : Z) : M ColumnDef :=
  onePacket (λ colDef, parseColumnDefinitionType colDef field index).

(** An OK packet, an error, or the number of columns. *)
Definition parseQueryResponse (data : bytes) : outcome (Z * Z * Z * bool * Z) :=
  if len data =? 0
  then Err (NewSQLError CRMalformedPacket SSUnknownSQLState (text "invalid empty COM_QUERY response packet")) else
  b ← load data 0;
  if b =? OKPacket then
    '(affectedRows, lastInsertID, status, warnings) ← parseOKPacket data;
    Ok (affectedRows, lastInsertID, 0, has status ServerMoreResultsExists, warnings)
  else if b =? ErrPacket then packetError data
  else if b =? 0xfb then Err (NewError "not implemented")
  else
    n ← need CRMalformedPacket "cannot get column number" (readLenEncInt data 0);
    if negb (n.2 =? len data)
    then Err (NewSQLError CRMalformedPacket SSUnknownSQLState (text "extra Content in COM_QUERY response"))
    else Ok (0, 0, wrapS 64 n.1, false, 0).

Definition readComQueryResponse : M (Z * Z * Z * bool * Z) := onePacket parseQueryResponse.

(** Every turn takes a packet off the stream. *)
Fixpoint drainLoop (fuel : nat) : M unit :=
  match fuel with
  | O => lift OutOfFuel
  | S fuel =>
      stop ← onePacket (λ data,
        eof ← isEOFPacket data; if (eof : bool) then Ok true else
        err ← isErrorPacket data; if (err : bool) then packetError data else Ok false);
      if (stop : bool) then mret tt else drainLoop fuel
  end.

Definition DrainResults : M unit := c ← get; drainLoop (S (length (incoming c))).

Fixpoint columnsLoop (fuel : nat) (i : Z) : M (list ColumnDef) :=
  match fuel with
  | O => lift OutOfFuel
  | S fuel => λ c,
      match ReadColumnDefinition zeroColumn i c with
      | (c, Err e) => (c, if errors_Is e EOF then Ok [] else Err e)
      | (c, Ok field) => (rest ← columnsLoop fuel (i + 1); mret (field :: rest)) c
      | (c, Panic) => (c, Panic)
      | (c, OutOfFuel) => (c, OutOfFuel)
      end
  end.

Definition ReadColumnDefinitions : M (list ColumnDef) := c ← get; columnsLoop (S (length (incoming c))) 0.

(** ** Results *)

Definition _flagTextMode : Z := 1.
Definition _flagWantFields : Z := 2.

(** A [sync.Once] with the error its function left: not run, or run. *)
Definition once : Type := option (option error).

(** A result with the connection it reads from.  [closeFunc] is the answer
    of the closer, if there is one. *)
Record RawResult := mkRaw {
  rr_flag : Z;
  rr_conn : Conn;
  rr_capabilities : Z;
  rr_lastInsertID : Z;
  rr_affectedRows : Z;
  rr_colNumber : Z;
  rr_more : bool;
  rr_warnings : Z;
  rr_fields : list ColumnDef;
  rr_preflight : once;
  rr_flight : once;
  rr_postFlight : once;
  rr_closeFunc : option (outcome unit);
  rr_close : once;
  rr_eof : bool;
}.

Definition newResult (c : Conn) (capabilities : Z) : RawResult :=
  mkRaw 0 c capabilities 0 0 0 false 0 [] None None None None None false.

Definition rawConn (c : Conn) (r : RawResult) : RawResult :=
  mkRaw (rr_flag r) c (rr_capabilities r) (rr_lastInsertID r) (rr_affectedRows r) (rr_colNumber r) (rr_more r) (rr_warnings r)
    (rr_fields r) (rr_preflight r) (rr_flight r) (rr_postFlight r) (rr_closeFunc r) (rr_close r) (rr_eof r).
Definition rawFlag (f : Z) (r : RawResult) : RawResult :=
  mkRaw f (rr_conn r) (rr_capabilities r) (rr_lastInsertID r) (rr_affectedRows r) (rr_colNumber r) (rr_more r) (rr_warnings r)
    (rr_fields r) (rr_preflight r) (rr_flight r) (rr_postFlight r) (rr_closeFunc r) (rr_close r) (rr_eof r).
Definition rawHeader (h : Z * Z * Z * bool * Z) (r : RawResult) : RawResult :=
  let '(affectedRows, lastInsertID, colNumber, more, warnings) := h in
  mkRaw (rr_flag r) (rr_conn r) (rr_capabilities r) lastInsertID affectedRows colNumber more warnings
    (rr_fields r) (rr_preflight r) (rr_flight r) (rr_postFlight r) (rr_closeFunc r) (rr_close r) (rr_eof r).
Definition rawFields (fs : list ColumnDef) (r : RawResult) : RawResult :=
  mkRaw (rr_flag r) (rr_conn r) (rr_capabilities r) (rr_lastInsertID r) (rr_affectedRows r) (rr_colNumber r) (rr_more r) (rr_warnings r)
    fs (rr_preflight r) (rr_flight r) (rr_postFlight r) (rr_closeFunc r) (rr_close r) (rr_eof r).
Definition rawMore (m : bool) (r : RawResult) : RawResult :=
  mkRaw (rr_flag r) (rr_conn r) (rr_capabilities r) (rr_lastInsertID r) (rr_affectedRows r) (rr_colNumber r) m (rr_warnings r)
    (rr_fields r) (rr_preflight r) (rr_flight r) (rr_postFlight r) (rr_closeFunc r) (rr_close r) (rr_eof r).
Definition rawEOF (r : RawResult) : RawResult :=
  mkRaw (rr_flag r) (rr_conn r) (rr_capabilities r) (rr_lastInsertID r) (rr_affectedRows r) (rr_colNumber r) (rr_more r) (rr_warnings r)
    (rr_fields r) (rr_preflight r) (rr_flight r) (rr_postFlight r) (rr_closeFunc r) (rr_close r) true.
Definition rawOnces (p f q : once) (r : RawResult) : RawResult :=
  mkRaw (rr_flag r) (rr_conn r) (rr_capabilities r) (rr_lastInsertID r) (rr_affectedRows r) (rr_colNumber r) (rr_more r) (rr_warnings r)
    (rr_fields r) p f q (rr_closeFunc r) (rr_close r) (rr_eof r).
Definition rawClose (cl : once) (r : RawResult) : RawResult :=
  mkRaw (rr_flag r) (rr_conn r) (rr_capabilities r) (rr_lastInsertID r) (rr_affectedRows r) (rr_colNumber r) (rr_more r) (rr_warnings r)
    (rr_fields r) (rr_preflight r) (rr_flight r) (rr_postFlight r) (rr_closeFunc r) cl (rr_eof r).
Definition SetCloser (closer : outcome unit) (r : RawResult) : RawResult :=
  mkRaw (rr_flag r) (rr_conn r) (rr_capabilities r) (rr_lastInsertID r) (rr_affectedRows r) (rr_colNumber r) (rr_more r) (rr_warnings r)
    (rr_fields r) (rr_preflight r) (rr_flight r) (rr_postFlight r) (Some closer) (rr_close r) (rr_eof r).

Definition setTextProtocol (r : RawResult) : RawResult := rawFlag (Z.lor (rr_flag r) _flagTextMode) r.
Definition setBinaryProtocol (r : RawResult) : RawResult := rawFlag (Z.land (rr_flag r) (Z.lxor _flagTextMode 255)) r.
Definition setWantFields (b : bool) (r : RawResult) : RawResult :=
  if b then rawFlag (Z.lor (rr_flag r) _flagWantFields) r else rawFlag (Z.land (rr_flag r) (Z.lxor _flagWantFields 255)) r.

Definition onRaw {A} (m : M A) : SM RawResult A := λ r, let '(c, o) := m (rr_conn r) in (rawConn c r, o).

Definition RawClose : SM RawResult unit := λ r,
  match rr_close r with
  | Some None => (r, Ok tt)
  | Some (Some e) => (r, Err e)
  | None =>
      match rr_closeFunc r with
      | None | Some (Ok _) => (rawClose (Some None) r, Ok tt)
      | Some (Err e) => (rawClose (Some (Some e)) r, Err e)
      | Some Panic => (rawClose (Some None) r, Panic)
      | Some OutOfFuel => (r, OutOfFuel)
      end
  end.

(** [defer func() { if cond { _ = rr.Close() } }()], the condition on the
    state and the error at the end. *)
Definition closingWhen {A} (cond : RawResult → bool) (m : SM RawResult A) : SM RawResult A := λ r,
  match m r with
  | (r, Ok a) => if cond r then match RawClose r with (r, Panic) => (r, Panic) | (r, _) => (r, Ok a) end else (r, Ok a)
  | (r, Err e) => match RawClose r with (r, Panic) => (r, Panic) | (r, _) => (r, Err e) end
  | o => o
  end.

(** [once.Do(body)] and the error kept from it. *)
Definition onceDo (state : RawResult → once) (done : once → RawResult → RawResult) (body : SM RawResult unit) : SM RawResult unit := λ r,
  match state r with
  | Some None => (r, Ok tt)
  | Some (Some e) => (r, Err e)
  | None =>
      match body r with
      | (r, Ok _) => (done (Some None) r, Ok tt)
      | (r, Err e) => (done (Some (Some e)) r, Err e)
      | (r, Panic) => (done (Some None) r, Panic)
      | (r, OutOfFuel) => (r, OutOfFuel)
      end
  end.

Definition preflight : SM RawResult unit :=
  closingWhen (λ r, rr_colNumber r <? 1)
    (onceDo rr_preflight (λ o r, rawOnces o (rr_flight r) (rr_postFlight r) r)
      (h ← onRaw readComQueryResponse; modifyS (rawHeader h))).

Definition wantFields (r : RawResult) : bool := negb (Z.land (rr_flag r) _flagWantFields =? 0).

(** The definitions of [n] columns, from the column [i]. *)
Fixpoint readColumns (want : bool) (i : Z) (n : nat) : M (list ColumnDef) :=
  match n with
  | O => mret []
  | S n =>
      field ← (if want then ReadColumnDefinition zeroColumn i else ReadColumnDefinitionType zeroColumn i);
      rest ← readColumns want (i + 1) n; mret (field :: rest)
  end.

Definition flight : SM RawResult unit :=
  _ ← preflight;
  closingWhen (λ _, false)
    (onceDo rr_flight (λ o r, rawOnces (rr_preflight r) o (rr_postFlight r) r)
      (r ← getS;
       if rr_colNumber r <? 1 then mret tt
       else columns ← onRaw (readColumns (wantFields r) 0 (Z.to_nat (rr_colNumber r))); modifyS (rawFields columns))).

Definition checkEndOfColumns (data : bytes) : outcome unit :=
  eof ← isEOFPacket data;
  if (eof : bool) then Ok tt else
  err ← isErrorPacket data;
  if (err : bool) then packetError data else Err (NewError "unexpected packet after fields").

Definition postFlight : SM RawResult unit :=
  _ ← flight;
  closingWhen (λ _, false)
    (onceDo rr_postFlight (λ o r, rawOnces (rr_preflight r) (rr_flight r) o r)
      (r ← getS;
       if (rr_colNumber r <? 1) || has (rr_capabilities r) CapabilityClientDeprecateEOF then mret tt
       else
         onRaw (onePacket checkEndOfColumns))).

(** The raw bytes of the next row.  At an error packet [data] is cleared
    before the packet is parsed. *)
Definition nextRowData : SM RawResult bytes :=
  r ← getS;
  if rr_eof r then liftS (Err EOF) else
  data ← onRaw readPacket;
  eof ← liftS (isEOFPacket data);
  if (eof : bool) then
    _ ← modifyS rawEOF;
    _ ← (if has (rr_capabilities r) CapabilityClientDeprecateEOF
         then ok ← liftS (parseOKPacket data); modifyS (rawMore (has ok.1.2 ServerMoreResultsExists))
         else _ ← modifyS (rawMore false); r ← liftS (parseEOFPacket data); modifyS (rawMore r.2));
    liftS (Err EOF)
  else
    err ← liftS (isErrorPacket data);
    if (err : bool) then _ ← modifyS rawEOF; liftS (packetError []) else mret data.

Section Rows.
Context {L : Location} {FT : FloatText} {DC : DecimalLib}.

Definition rowOf (r : RawResult) (data : bytes) : Row :=
  if negb (Z.land (rr_flag r) _flagTextMode =? 0) then NewTextRow (map col (rr_fields r)) data
  else NewBinaryRow (map col (rr_fields r)) data.

Definition Next : SM RawResult Row := closingWhen (λ _, false) (data ← nextRowData; r ← getS; mret (rowOf r data)).
End Rows.

Definition RawFields : SM RawResult (list ColumnDef) := _ ← flight; r ← getS; mret (rr_fields r).

(** Whether there is a dataset: the result itself. *)
Definition RawDataset : SM RawResult bool :=
  _ ← postFlight; r ← getS; mret (negb (Z.of_nat (length (rr_fields r)) <? 1)).

Definition Warn : SM RawResult Z := _ ← preflight; r ← getS; mret (rr_warnings r).
Definition LastInsertId : SM RawResult Z := _ ← preflight; r ← getS; mret (rr_lastInsertID r).
Definition RowsAffected : SM RawResult Z := _ ← preflight; r ← getS; mret (rr_affectedRows r).

Fixpoint discardLoop (fuel : nat) : SM RawResult unit :=
  match fuel with
  | O => liftS OutOfFuel
  | S fuel => _ ← nextRowData; discardLoop fuel
  end.

(** [defer rr.Close()] whatever the result. *)
Definition Discard : SM RawResult unit :=
  let body : SM RawResult unit :=
    _ ← orElse postFlight WrapError;
    r ← getS;
    if rr_colNumber r <? 1 then mret tt else discardLoop (S (length (incoming (rr_conn r)))) in
  closingWhen (λ _, true) body.
