(* ===== verification/ResultSetTheory.v ===== *)
(** * What a result set guarantees

    A result set the server writes is read by the client as it was: the
    columns, each row's bytes, and its end.  Streams of packets carry the
    statements from one side to the other. *)
From S2P Require Import Prelude GoStd Value Encoding Packet WireTheory Row MysqlText RowCodec RowTheory Auth Handshake HandshakeTheory ResultSet.

(** ** Streams of packets *)

(** The bytes carry the payloads, one after the other, from the number [s] to
    the number [s']. *)
Inductive stream : Z → bytes → list bytes → Z → Prop :=
| stream_nil s : stream s [] [] s
| stream_cons s wire data s' wires rest s'' :
    packets s wire data s' → stream s' wires rest s'' → stream s (wire ++ wires) (data :: rest) s''.

Lemma stream_app s w1 p1 s1 w2 p2 s2 : stream s w1 p1 s1 → stream s1 w2 p2 s2 → stream s (w1 ++ w2) (p1 ++ p2) s2.
Proof. induction 1; intros H2; simpl; [done|]. rewrite <- app_assoc. econstructor; eauto. Qed.

Lemma stream_one s wire data s' : packets s wire data s' → stream s wire [data] s'.
Proof. intros H. rewrite <- (app_nil_r wire). econstructor; [done|constructor]. Qed.

(** Ready, with no buffer in use. *)
Definition idle (c : Conn) : Prop := ready c ∧ currentEphemeralBuffer c = None.

Lemma sent_idle wire s c : idle c → idle (sent wire s c).
Proof. intros [(? & ? & ?) ?]. done. Qed.

Lemma sent_sent w1 s1 w2 s2 c : sent w2 s2 (sent w1 s1 c) = sent (w1 ++ w2) s2 c.
Proof. unfold sent. conn_simpl. by rewrite app_assoc. Qed.

Lemma sent_nothing c : idle c → sent [] (sequence c) c = c.
Proof. intros [(Hq & Hh & Hp) Hb]. unfold sent. conn_simpl. rewrite app_nil_r. destruct c; simpl in *. by subst. Qed.

(** An operation that sends the payloads and nothing else. *)
Definition sends (m : M unit) (payloads : list bytes) : Prop :=
  ∀ c, idle c → ∃ wire s', stream (sequence c) wire payloads s' ∧ m c = (sent wire s' c, Ok tt).

Lemma sends_nothing : sends (mret tt) [].
Proof. intros c Hc. exists [], (sequence c). split; [constructor|]. by rewrite sent_nothing. Qed.

Lemma sends_bind m1 p1 (m2 : unit → M unit) p2 : sends m1 p1 → sends (m2 tt) p2 → sends (m1 ≫= m2) (p1 ++ p2).
Proof.
  intros H1 H2 c Hc. destruct (H1 c Hc) as (w1 & s1 & St1 & E1).
  destruct (H2 (sent w1 s1 c) (sent_idle _ _ _ Hc)) as (w2 & s2 & St2 & E2).
  exists (w1 ++ w2), s2. split; [by eapply stream_app|]. unfold mbind, M_bind. rewrite E1, E2. by rewrite sent_sent.
Qed.

Section Senders.
Context (bufPool : Z → bytes).
Hypothesis pool_sizes : ∀ n, 0 ≤ n → len (bufPool n) = n.

Lemma sends_fields length fields bss :
  Forall2 writes fields bss → len (concat bss) = length → length < 2 ^ 62 → sends (sendFields bufPool length fields) [concat bss].
Proof using pool_sizes.
  intros Hf El Hl c [(Hq & Hh & Hp) _]. pose proof (len_nonneg (concat bss)).
  destruct (sendFields_sends bufPool length fields bss c) as (wire & s' & Hw & E); [apply pool_sizes; lia|done..|].
  exists wire, s'. split; [by apply stream_one|done].
Qed.

Lemma sends_checked length fields bss mismatch :
  Forall2 writes fields bss → len (concat bss) = length → length < 2 ^ 62 →
  sends (sendChecked bufPool length fields mismatch) [concat bss].
Proof using pool_sizes.
  intros Hf El Hl c [(Hq & Hh & Hp) _]. pose proof (len_nonneg (concat bss)).
  destruct (sendChecked_sends bufPool length fields bss mismatch c) as (wire & s' & Hw & E); [apply pool_sizes; lia|done..|].
  exists wire, s'. split; [by apply stream_one|done].
Qed.

End Senders.

(** ** Column definitions *)

Definition columnPayload (c : ColumnDef) : list bytes :=
  let f := col c in
  let str s := lenEncBytes (len (text s)) ++ text s in
  [str "def"; str (database f); str (table f); str (orgTable f); str (name f); str (orgName f); [0x0c];
   littleEndian 2 (charSet f); littleEndian 4 (columnLength c); [byte (wireType f).1]; littleEndian 2 (wrapU 16 (wireType f).2);
   [byte (decimals f)]; littleEndian 2 0].

(** A column a definition can carry: numbers of their widths, a type the
    protocol has a number for, and names of no absurd length. *)
Record transportable (c : ColumnDef) : Prop := mkTransportable {
  t_charSet : inU 16 (charSet (col c));
  t_columnLength : inU 32 (columnLength c);
  t_flags : inU 16 (flags (col c));
  t_decimals : inU 8 (decimals (col c));
  t_type : fieldType (col c) ∈ map fst typeToMySQL;
  t_names : ∀ g, g ∈ [database; table; orgTable; name; orgName] → len (text (g (col c))) < 2 ^ 40;
}.

Lemma lenEncStringSize_len v : len v < 2 ^ 40 → lenEncStringSize v = len (lenEncBytes (len v) ++ v).
Proof.
  intros Hv. pose proof (len_nonneg v). pose proof (lenEncIntSize_range (len v)).
  unfold lenEncStringSize. rewrite len_app, len_lenEncBytes, add_small; lia.
Qed.

Lemma columnPayload_size c : transportable c → len (concat (columnPayload c)) = 4 + columnSize (col c) ∧ len (concat (columnPayload c)) < 2 ^ 44.
Proof.
  intros Hc. assert (∀ g, g ∈ [database; table; orgTable; name; orgName] →
    lenEncStringSize (text (g (col c))) = len (lenEncBytes (len (text (g (col c)))) ++ text (g (col c))) ∧
    len (lenEncBytes (len (text (g (col c)))) ++ text (g (col c))) < 2 ^ 41) as Hs.
  { intros g Hg. pose proof (t_names c Hc g Hg) as Hl. split; [by apply lenEncStringSize_len|].
    rewrite len_app, len_lenEncBytes. pose proof (lenEncIntSize_range (len (text (g (col c))))). lia. }
  destruct (Hs database ltac:(set_solver)) as [E1 L1], (Hs table ltac:(set_solver)) as [E2 L2],
    (Hs orgTable ltac:(set_solver)) as [E3 L3], (Hs name ltac:(set_solver)) as [E4 L4], (Hs orgName ltac:(set_solver)) as [E5 L5].
  unfold columnPayload, columnSize. cbv zeta. rewrite E1, E2, E3, E4, E5. 
  rewrite !len_concat_cons, !length_littleEndian. change (len (concat [])) with 0.
  change (len (lenEncBytes (len (text "def")) ++ text "def")) with 4. change (len [12]) with 1.
  change (len [byte (wireType (col c)).1]) with 1. change (len [byte (decimals (col c))]) with 1. lia.
Qed.

Lemma writeColumnDefinition_sends bufPool c :
  (∀ n, 0 ≤ n → len (bufPool n) = n) → transportable c → sends (writeColumnDefinition bufPool c) [concat (columnPayload c)].
Proof.
  intros Hpool Hc. destruct (columnPayload_size c Hc) as [El Hl]. apply sends_checked; [done| |done|lia].
  unfold columnFields, columnPayload. cbv zeta. repeat apply Forall2_cons_2; auto with wire.
Qed.

(** The column as the client has it: the type's own flags where it had none,
    and neither a length nor a default. *)
Definition received (c : ColumnDef) : ColumnDef :=
  let f := col c in
  mkColumnDef (mkField (table f) (orgTable f) (database f) (name f) (orgName f) 0 (wireType f).2 (fieldType f) (decimals f) (charSet f))
    (columnLength c) 0 [].

Lemma wireType_facts f :
  fieldType f ∈ map fst typeToMySQL → inU 16 (flags f) →
  byte (wireType f).1 = (wireType f).1 ∧ wrapU 16 (wireType f).2 = (wireType f).2 ∧
  ∀ fl, MySQLToType (wireType f).1 fl = Ok (fieldType f).
Proof.
  intros Ht Hf. unfold wireType. set (r := TypeToMySQL (fieldType f)).
  assert (byte r.1 = r.1 ∧ wrapU 16 r.2 = r.2 ∧ ∀ fl, MySQLToType r.1 fl = Ok (fieldType f)) as (H1 & H2 & H3).
  { unfold r. clear r Hf. revert Ht. generalize (fieldType f). intros t Ht. cbn [map fst typeToMySQL] in Ht.
    repeat (apply elem_of_cons in Ht as [->|Ht]; [by vm_compute|]). by apply not_elem_of_nil in Ht. }
  destruct r as [typ fl]. cbn [fst snd] in *. split; [done|]. split; [|done]. case_match; [by apply wrapU_id|done].
Qed.

(** The steps of the parsers. *)
Lemma needCol_bind {A B} before i after (m : outcome (option A)) (f : A → outcome B) x :
  m = Ok (Some x) → needCol before i after m ≫= f = f x.
Proof. intros ->. done. Qed.

Lemma columnType_bind {B} t fl i typ (f : Z → outcome B) : MySQLToType t fl = Ok typ → columnType t fl i ≫= f = f typ.
Proof. unfold columnType. intros ->. done. Qed.

Lemma readDefault_end data i pos c : pos = len data → readDefault data i pos c = Ok c.
Proof. intros ->. unfold readDefault. by rewrite Z.gtb_ltb, Z.ltb_irrefl. Qed.

Lemma parseColumn_payload c i :
  transportable c →
  parseColumnDefinition (concat (columnPayload c)) zeroColumn i = Ok (received c) ∧
  parseColumnDefinitionType (concat (columnPayload c)) zeroColumn i
  = Ok (mkColumnDef (NewField "" (fieldType (col c))) 0 0 []).
Proof.
  intros Hc. destruct (columnPayload_size c Hc) as [El Hl]. destruct (wireType_facts (col c) (t_type c Hc) (t_flags c Hc)) as (W1 & W2 & W3).
  pose proof (fieldsAt_concat (columnPayload c)) as H. pose proof (eq_refl (len (concat (columnPayload c)))) as Esum.
  unfold columnPayload at 2 in Esum. cbv zeta in Esum. rewrite !len_concat_cons in Esum. change (len (concat [])) with 0 in Esum.
  revert El Hl H Esum. generalize (concat (columnPayload c)). intros data El Hl H Esum.
  assert (buffer data) as Hb by (unfold buffer; lia). unfold columnPayload in H. cbv zeta in H. cbn [fieldsAt] in H.
  destruct H as (H1 & H2 & H3 & H4 & H5 & H6 & H7 & H8 & H9 & H10 & H11 & H12 & H13 & Hend).
  assert (byte (decimals (col c)) = decimals (col c)) as Wd by (apply wrapU_id, t_decimals; done).
  rewrite W2 in *. rewrite W1, Wd in *.
  assert (inU 16 (wireType (col c)).2) as Wf by (rewrite <- W2; apply wrapU_range; lia).
  destruct (reads_lenEncString data _ Hb _ H1) as (_ & R1 & _). destruct (reads_lenEncString data _ Hb _ H2) as (R2 & R2' & _).
  destruct (reads_lenEncString data _ Hb _ H3) as (R3 & R3' & _). destruct (reads_lenEncString data _ Hb _ H4) as (R4 & R4' & _).
  destruct (reads_lenEncString data _ Hb _ H5) as (R5 & R5' & _). destruct (reads_lenEncString data _ Hb _ H6) as (R6 & R6' & _).
  pose proof (reads_uint16 data _ Hb _ H8 (t_charSet c Hc)) as R8. pose proof (reads_uint32 data _ Hb _ H9 (t_columnLength c Hc)) as R9.
  pose proof (reads_byte data _ Hb _ H10) as R10. pose proof (reads_uint16 data _ Hb _ H11 Wf) as R11. pose proof (reads_byte data _ Hb _ H12) as R12.
  clear H1 H2 H3 H4 H5 H6 H8 H9 H10 H11 H12 H13.
  assert (∀ p, p + len [12] ≤ len data → 0 ≤ p → add p 1 = p + len [12]) as Eadd.
  { intros p Hp H0. change (len [12]) with 1 in *. apply add_small. unfold buffer in Hb. lia. }
  destruct H7 as (P7 & P7' & _). specialize (Eadd _ P7' P7).
  split.
  - unfold parseColumnDefinition. rewrite (needCol_bind _ _ _ _ _ _ R1), (needCol_bind _ _ _ _ _ _ R2). cbn [fst snd].
    rewrite (needCol_bind _ _ _ _ _ _ R3). cbn [fst snd]. rewrite (needCol_bind _ _ _ _ _ _ R4). cbn [fst snd].
    rewrite (needCol_bind _ _ _ _ _ _ R5). cbn [fst snd]. rewrite (needCol_bind _ _ _ _ _ _ R6). cbn [fst snd].
    rewrite Eadd, (needCol_bind _ _ _ _ _ _ R8). cbn [fst snd]. rewrite (needCol_bind _ _ _ _ _ _ R9). cbn [fst snd].
    rewrite (needCol_bind _ _ _ _ _ _ R10). cbn [fst snd]. rewrite (needCol_bind _ _ _ _ _ _ R11). cbn [fst snd].
    rewrite (columnType_bind _ _ _ _ _ (W3 _)), (needCol_bind _ _ _ _ _ _ R12). cbn [fst snd].
    rewrite readDefault_end; [by rewrite !string_of_text|].
    clear -Hb Hend Esum. rewrite !length_littleEndian in *. unfold buffer in Hb. rewrite add_small; lia.
  - unfold parseColumnDefinitionType. rewrite (needCol_bind _ _ _ _ _ _ R1), (needCol_bind _ _ _ _ _ _ R2').
    rewrite (needCol_bind _ _ _ _ _ _ R3'), (needCol_bind _ _ _ _ _ _ R4'), (needCol_bind _ _ _ _ _ _ R5'), (needCol_bind _ _ _ _ _ _ R6').
    rewrite Eadd, (needCol_bind _ _ _ _ _ _ R8). cbn [fst snd]. rewrite (needCol_bind _ _ _ _ _ _ R9). cbn [fst snd].
    rewrite (needCol_bind _ _ _ _ _ _ R10). cbn [fst snd]. rewrite (needCol_bind _ _ _ _ _ _ R11). cbn [fst snd].
    by rewrite (columnType_bind _ _ _ _ _ (W3 _)).
Qed.

(** ** The packets of a result set *)

Definition eofPayload (status warnings : Z) : bytes := concat [[EOFPacket]; littleEndian 2 warnings; littleEndian 2 status].

(** What ends a result set. *)
Definition endPayload (deprecated : bool) (status warnings : Z) : bytes :=
  if deprecated then concat (okPayload EOFPacket 0 0 status warnings) else eofPayload status warnings.

Definition headPayloads (deprecated : bool) (status : Z) (cs : list ColumnDef) : list bytes :=
  [lenEncBytes (Z.of_nat (length cs))] ++ map (λ c, concat (columnPayload c)) cs ++ (if deprecated then [] else [eofPayload status 0]).

Section ServerSide.
Context (bufPool : Z → bytes) (capabilities status : Z).
Hypothesis pool_sizes : ∀ n, 0 ≤ n → len (bufPool n) = n.

Lemma sends_eof f w : sends (writeEOFPacket bufPool f w) [eofPayload f w].
Proof using pool_sizes.
  apply sends_fields; [done| |done|done]. repeat apply Forall2_cons_2; auto with wire.
Qed.

Lemma writeColumns_sends cs :
  Forall transportable cs → sends (writeColumns bufPool cs) (map (λ c, concat (columnPayload c)) cs).
Proof using pool_sizes.
  induction 1 as [|c cs Hc _ IH]; [apply sends_nothing|]. cbn [writeColumns map].
  apply (sends_bind _ [concat (columnPayload c)]); [by apply writeColumnDefinition_sends|exact IH].
Qed.

Lemma writeColumnList_sends cs :
  Forall transportable cs →
  sends (writeColumnList bufPool capabilities status cs) (headPayloads (deprecateEOF capabilities) status cs).
Proof using pool_sizes.
  intros Hc. apply sends_bind.
  - unfold sendColumnCount. rewrite <- (app_nil_r (lenEncBytes _)). apply (sends_fields _ pool_sizes _ _ [lenEncBytes (Z.of_nat (length cs))]).
    + repeat apply Forall2_cons_2; auto with wire.
    + simpl. by rewrite app_nil_r, len_lenEncBytes.
    + pose proof (lenEncIntSize_range (Z.of_nat (length cs))). lia.
  - apply sends_bind; [by apply writeColumns_sends|]. unfold endOfColumns. destruct (deprecateEOF capabilities).
    + apply sends_nothing.
    + apply sends_eof.
Qed.

Lemma writeRow_sends raw : len raw < 2 ^ 62 → sends (writeRow bufPool (Ok raw)) [raw].
Proof using pool_sizes.
  intros Hl. change raw with (concat [raw]) at 2 || rewrite <- (app_nil_r raw) at 2.
  apply (sends_fields bufPool pool_sizes (len raw) [writeCopy (Ok raw)] [raw]); [|by simpl; rewrite app_nil_r|done].
  repeat apply Forall2_cons_2; auto with wire.
Qed.

Lemma writeDataset_sends rows :
  Forall (λ raw, len raw < 2 ^ 62) rows → sends (writeDataset bufPool (map (λ raw, Ok (Ok raw)) rows)) rows.
Proof using pool_sizes.
  induction 1 as [|raw rows Hl _ IH]; [apply sends_nothing|]. cbn [map writeDataset].
  apply (sends_bind (writeRow bufPool (Ok raw)) [raw] (λ _, writeDataset bufPool _)); [by apply writeRow_sends|exact IH].
Qed.

Lemma writeEndResult_sends warnings :
  sends (writeEndResult bufPool capabilities status false 0 0 warnings) [endPayload (deprecateEOF capabilities) status warnings].
Proof using pool_sizes.
  unfold writeEndResult, endPayload. destruct (deprecateEOF capabilities); [|apply sends_eof].
  apply sends_fields; [done| |by rewrite len_okPayload|done]. repeat apply Forall2_cons_2; auto with wire.
Qed.
End ServerSide.

(** ** The client's steps *)

(** One packet taken off the stream, its buffer recycled. *)
Definition took (tail : bytes) (s : Z) (c : Conn) : Conn := setEphemeral ephemeralUnused None (setSequence s (setIncoming tail c)).

Lemma onePacket_took {A} (f : bytes → outcome A) s wire data s' c tail :
  packets s wire data s' → sequence c = s → incoming c = wire ++ tail → currentEphemeralPolicy c = ephemeralUnused →
  onePacket f c = (took tail s' c, f data).
Proof.
  intros H Hs Hin Hp. destruct (readEphemeralPacket_packets s wire data s' c tail H Hs Hin Hp) as [buf E].
  unfold onePacket, mbind, M_bind, mapErr, orElse. rewrite E. done.
Qed.

(** The payloads [ps] wait on the connection, followed by [tail]. *)
Definition waiting (c : Conn) (ps : list bytes) (tail : bytes) : Prop :=
  currentEphemeralPolicy c = ephemeralUnused ∧ ∃ wire s', incoming c = wire ++ tail ∧ stream (sequence c) wire ps s'.

Lemma onePacket_waiting {A} (f : bytes → outcome A) c p ps tail :
  waiting c (p :: ps) tail → ∃ c', onePacket f c = (c', f p) ∧ waiting c' ps tail.
Proof.
  intros [Hp (wire & s'' & Hin & Hst)]. inversion Hst as [|s w d s' ws rest s2 Hpk Hrest]; subst.
  exists (took (ws ++ tail) s' c). split; [|by split; [|exists ws, s'']].
  apply (onePacket_took f (sequence c) w p s'); [done|done|by rewrite Hin, <- app_assoc|done].
Qed.

Lemma readPacket_waiting c p ps tail : waiting c (p :: ps) tail → ∃ c', readPacket c = (c', Ok p) ∧ waiting c' ps tail.
Proof.
  intros [Hp (wire & s'' & Hin & Hst)]. inversion Hst as [|s w d s' ws rest s2 Hpk Hrest]; subst.
  exists (setSequence s' (setIncoming (ws ++ tail) c)). split; [|by split; [|exists ws, s'']].
  apply (readPacket_packets (sequence c) w p s'); [done|done|by rewrite Hin, <- app_assoc].
Qed.

Lemma readColumns_waiting cs i c ps tail :
  Forall transportable cs → waiting c (map (λ c, concat (columnPayload c)) cs ++ ps) tail →
  ∃ c', readColumns true i (length cs) c = (c', Ok (map received cs)) ∧ waiting c' ps tail.
Proof.
  intros Hc. revert i c. induction Hc as [|d cs Hd _ IH]; intros i c Hw; [by exists c|]. cbn [map app] in Hw. cbn [readColumns length].
  unfold ReadColumnDefinition. unfold mbind at 1, M_bind at 1.
  match goal with |- context [onePacket ?f c] => destruct (onePacket_waiting f c _ _ _ Hw) as (c1 & -> & Hw1) end.
  assert (isEOFPacket (concat (columnPayload d)) = Ok false) as E by done. rewrite E.
  cbn [mbind outcome_bind]. rewrite (proj1 (parseColumn_payload d i Hd)). unfold mbind, M_bind.
  destruct (IH (i + 1) c1 Hw1) as (c2 & -> & Hw2). by exists c2.
Qed.

(** A payload no client takes for the end of the rows or an error. *)
Definition rowLike (raw : bytes) : Prop :=
  len raw < 2 ^ 62 ∧ ∃ b rest, raw = b :: rest ∧ b ≠ ErrPacket ∧ (b = EOFPacket → 9 ≤ len raw).

Lemma rowLike_row raw : rowLike raw → isEOFPacket raw = Ok false ∧ isErrorPacket raw = Ok false.
Proof.
  intros (_ & b & rest & -> & Hb & He). unfold isEOFPacket, isErrorPacket. rewrite load_head. cbn [mbind outcome_bind].
  rewrite (proj2 (Z.eqb_neq b ErrPacket)) by done. split; [|done]. destruct (Z.eqb_spec b EOFPacket) as [E|]; [|done].
  destruct (Z.ltb_spec (len (b :: rest)) 9); [|done]. specialize (He E). lia.
Qed.

Lemma columnCount_payload n :
  1 ≤ n < 2 ^ 62 →
  parseQueryResponse (lenEncBytes n) = Ok (0, 0, n, false, 0).
Proof.
  intros Hn. unfold parseQueryResponse. pose proof (len_lenEncBytes n) as El. pose proof (lenEncIntSize_range n).
  destruct (Z.eqb_spec (len (lenEncBytes n)) 0); [lia|].
  assert (∃ b rest, lenEncBytes n = b :: rest ∧ b ≠ OKPacket ∧ b ≠ ErrPacket ∧ b ≠ 0xfb) as (b & rest & Eb & B1 & B2 & B3).
  { unfold lenEncBytes, byte. destruct (Z.ltb_spec n 251); [rewrite wrapU_id by (unfold inU; lia)|repeat case_match];
      do 2 eexists; (split; [done|]); unfold OKPacket, ErrPacket; lia. }
  assert (readLenEncInt (lenEncBytes n) 0 = Ok (Some (n, 0 + len (lenEncBytes n)))) as E.
  { apply reads_lenEncInt; [unfold buffer; lia|by apply at_all|unfold inU; lia]. }
  rewrite Eb at 1. rewrite load_head. cbn [mbind outcome_bind]. rewrite !(proj2 (Z.eqb_neq b _)) by done.
  unfold need. rewrite E. cbn [mbind outcome_bind fst snd]. rewrite Z.add_0_l, Z.eqb_refl. cbn [negb].
  by rewrite wrapS_id by (unfold inS; lia).
Qed.

(** A result whose columns are read: the rows wait. *)
Record opened (r0 r : RawResult) (fs : list ColumnDef) (ps : list bytes) (tail : bytes) : Prop := mkOpened {
  o_fields : rr_fields r = fs;
  o_flag : rr_flag r = rr_flag r0;
  o_capabilities : rr_capabilities r = rr_capabilities r0;
  o_eof : rr_eof r = rr_eof r0;
  o_closer : rr_closeFunc r = rr_closeFunc r0;
  o_waiting : waiting (rr_conn r) ps tail;
}.

Section ClientSide.
Context (status : Z) (cs : list ColumnDef) (ps : list bytes) (tail : bytes).
Hypothesis columns_ok : Forall transportable cs.
Hypothesis some_columns : (0 < length cs)%nat ∧ Z.of_nat (length cs) < 2 ^ 62.

(** [Dataset] on a new result reads the head of the result set. *)
Lemma RawDataset_opens c capabilities flag :
  negb (Z.land flag _flagWantFields =? 0) = true →
  waiting c (headPayloads (has capabilities CapabilityClientDeprecateEOF) status cs ++ ps) tail →
  let r0 := rawFlag flag (newResult c capabilities) in
  ∃ r, RawDataset r0 = (r, Ok true) ∧ opened r0 r (map received cs) ps tail.
Proof using columns_ok some_columns.
  intros Hflag Hw. cbv zeta. unfold headPayloads in Hw. rewrite <- !app_assoc in Hw. cbn [app] in Hw.
  unfold RawDataset, postFlight, flight, preflight, mbind, SM_bind, closingWhen, onceDo, getS, modifyS.
  cbn [rr_preflight rr_flight rr_postFlight rawFlag newResult]. unfold onRaw at 1.
  cbn [rr_conn rawFlag newResult]. unfold readComQueryResponse.
  match goal with |- context [onePacket ?f c] => destruct (onePacket_waiting f c _ _ _ Hw) as (c1 & -> & Hw1) end.
  rewrite columnCount_payload by lia. cbn -[Z.to_nat readColumns Z.of_nat onePacket wantFields].
  destruct (Z.ltb_spec (Z.of_nat (length cs)) 1); [lia|]. cbn -[Z.to_nat readColumns Z.of_nat onePacket wantFields].
  destruct (Z.ltb_spec (Z.of_nat (length cs)) 1); [lia|]. unfold onRaw, wantFields. cbn -[Z.to_nat readColumns Z.of_nat onePacket Z.land].
  rewrite Hflag, Nat2Z.id. destruct (readColumns_waiting cs 0 c1 _ tail columns_ok Hw1) as (c2 & -> & Hw2).
  cbn -[Z.of_nat onePacket has]. destruct (Z.ltb_spec (Z.of_nat (length cs)) 1); [lia|]. cbn -[Z.of_nat onePacket has].
  destruct (has capabilities CapabilityClientDeprecateEOF).
  - cbn -[Z.of_nat]. rewrite length_map. destruct (Z.ltb_spec (Z.of_nat (length cs)) 1); [lia|]. eexists. split; [done|]. by split.
  - cbn [app] in Hw2. unfold onRaw. cbn -[Z.of_nat onePacket].
    match goal with |- context [onePacket ?f c2] => destruct (onePacket_waiting f c2 _ _ _ Hw2) as (c3 & -> & Hw3) end.
    assert (checkEndOfColumns (eofPayload status 0) = Ok tt) as -> by done.
    cbn -[Z.of_nat]. rewrite length_map. destruct (Z.ltb_spec (Z.of_nat (length cs)) 1); [lia|].
    eexists. split; [done|]. by split.
Qed.
End ClientSide.

(** ** Rows *)

Lemma nextRowData_row r0 r fs raw ps tail :
  rr_eof r0 = false → rowLike raw → opened r0 r fs (raw :: ps) tail →
  ∃ r', nextRowData r = (r', Ok raw) ∧ opened r0 r' fs ps tail.
Proof.
  intros He Hraw [Hf Hfl Hc Heof Hcl Hw]. destruct (rowLike_row raw Hraw) as [E1 E2].
  unfold nextRowData, mbind, SM_bind, getS, onRaw. rewrite Heof, He.
  destruct (readPacket_waiting _ _ _ _ Hw) as (c' & -> & Hw'). unfold liftS. rewrite E1, E2.
  eexists. split; [done|]. by split.
Qed.

Lemma nextRowData_end r0 r fs status warnings tail :
  rr_eof r0 = false → inU 16 status → inU 16 warnings →
  opened r0 r fs [endPayload (has (rr_capabilities r0) CapabilityClientDeprecateEOF) status warnings] tail →
  ∃ r', nextRowData r = (r', Err EOF) ∧ rr_eof r' = true ∧ waiting (rr_conn r') [] tail ∧
    rr_more r' = has status ServerMoreResultsExists ∧ rr_closeFunc r' = rr_closeFunc r0.
Proof.
  intros He Hs Hwn [Hf Hfl Hc Heof Hcl Hw]. unfold nextRowData, mbind, SM_bind, getS, onRaw. rewrite Heof, He.
  destruct (readPacket_waiting _ _ _ _ Hw) as (c' & -> & Hw'). unfold liftS, modifyS. rewrite Hc. unfold endPayload.
  destruct (has (rr_capabilities r0) CapabilityClientDeprecateEOF).
  - assert (isEOFPacket (concat (okPayload EOFPacket 0 0 status warnings)) = Ok true) as -> by done.
    rewrite parseOKPacket_payload by (done || unfold inU; lia). eexists. split; [done|]. done.
  - assert (isEOFPacket (eofPayload status warnings) = Ok true) as -> by done.
    unfold eofPayload. rewrite parseEOFPacket_payload by done. eexists. split; [done|]. done.
Qed.

(** An error of a result without a closer closes it and is returned. *)
Lemma closingWhen_error {A} (m : SM RawResult A) r r' e :
  m r = (r', Err e) → rr_closeFunc r' = None →
  ∃ r'', closingWhen (λ _, false) m r = (r'', Err e) ∧ rr_conn r'' = rr_conn r' ∧ rr_more r'' = rr_more r'.
Proof. intros E Hc. unfold closingWhen, RawClose. rewrite E, Hc. destruct (rr_close r') as [[e'|]|]; eauto. Qed.

(** The rows of a result, read one by one. *)
Fixpoint fetch {L : Location} {FT : FloatText} {DC : DecimalLib} (n : nat) : SM RawResult (list Row) :=
  match n with
  | O => mret []
  | S n => row ← Next; rows ← fetch n; mret (row :: rows)
  end.

Section Fetch.
Context {L : Location} {FT : FloatText} {DC : DecimalLib}.

Lemma fetch_rows r0 raws ps tail fs :
  rr_eof r0 = false → Forall rowLike raws → ∀ r, opened r0 r fs (raws ++ ps) tail →
  ∃ r', fetch (length raws) r = (r', Ok (map (rowOf (rawFields fs r0)) raws)) ∧ opened r0 r' fs ps tail.
Proof.
  intros He. induction 1 as [|raw raws Hraw _ IH]; intros r Ho; [by exists r|]. cbn [app] in Ho.
  destruct (nextRowData_row r0 r fs raw _ tail He Hraw Ho) as (r1 & E1 & Ho1). destruct (IH r1 Ho1) as (r2 & E2 & Ho2).
  exists r2. split; [|done]. cbn [fetch length map]. unfold mbind, SM_bind, Next, closingWhen, mbind, SM_bind, getS.
  rewrite E1. cbv beta iota. unfold mret, SM_ret. rewrite E2. destruct Ho1 as [Hf Hfl _ _ _ _].
  do 3 f_equal. unfold rowOf. cbn [rr_flag rr_fields rawFields]. by rewrite Hf, Hfl.
Qed.
End Fetch.

(** ** The whole result set *)

(** The bytes of a text row are taken for a row. *)
Lemma textPayload_rowLike {TL : TimeLib} {L : Location} {FT : FloatText} {DC : DecimalLib} fs cs bs :
  textPayload fs cs bs → fs ≠ [] → len bs < 2 ^ 62 → rowLike bs.
Proof.
  intros H Hfs Hl. split; [done|]. destruct H as [|f fs cs bs H|f v s fs cs bs _ H]; [done| |].
  - exists 0xfb, bs. split; [done|]. split; done.
  - rewrite !len_app in Hl. pose proof (len_nonneg bs). pose proof (len_nonneg s). rewrite <- app_assoc.
    unfold lenEncBytes, byte in *. destruct (Z.ltb_spec (len s) 251).
    + rewrite wrapU_id by (unfold inU; lia). do 2 eexists. split; [done|]. unfold ErrPacket, EOFPacket. lia.
    + repeat case_match; do 2 eexists; (split; [done|]); unfold ErrPacket, EOFPacket; (split; [done|]); intros [=].
      rewrite !len_app, !len_cons, length_littleEndian. lia.
Qed.

(** Columns that reach the client as they are. *)
Definition settled (c : ColumnDef) : Prop := transportable c ∧ received c = c.

Lemma settled_received cs : Forall settled cs → map received cs = cs.
Proof. induction 1 as [|c cs [_ Hc] _ IH]; [done|]. cbn [map]. by rewrite Hc, IH. Qed.

Section RoundTrip.
Context {TL : TimeLib} {L : Location} {LL : LocationLaws L} {FT : FloatText} {DC : DecimalLib}.
Context (bufPool : Z → bytes) (capabilities status warnings : Z) (cs : list ColumnDef).
Hypothesis pool_sizes : ∀ n, 0 ≤ n → len (bufPool n) = n.
Hypothesis status_range : inU 16 status.
Hypothesis warnings_range : inU 16 warnings.
Hypothesis columns_settled : Forall settled cs.
Hypothesis some_columns : (0 < length cs)%nat ∧ Z.of_nat (length cs) < 2 ^ 62.

(** What [handleQuery] sends for a dataset of virtual rows. *)
Definition sendResultSet (rows : list (list cell)) : M unit :=
  _ ← writeColumnList bufPool capabilities status cs;
  _ ← writeDataset bufPool (map (λ row, Ok (text_WriteTo (mkVirtual (map col cs) row))) rows);
  writeEndResult bufPool capabilities status false 0 0 warnings.

(** The client's result for a text query. *)
Definition textResult (c : Conn) : RawResult := setWantFields true (setTextProtocol (newResult c capabilities)).

Lemma rows_payloads rows :
  Forall (Forall2 (λ f c, match c with Some v => carriesText f v | None => True end) (map col cs)) rows →
  Forall (λ row, ∀ raw, text_WriteTo (mkVirtual (map col cs) row) = Ok raw → len raw < 2 ^ 62) rows →
  ∃ raws, Forall2 (λ row raw, text_WriteTo (mkVirtual (map col cs) row) = Ok raw ∧ rowLike raw ∧
    Scan (NewTextRow (map col cs) raw) (length cs) = Ok row) rows raws.
Proof using LL some_columns.
  induction 1 as [|row rows Hrow _ IH]; intros Hs; [by exists []|]. apply Forall_cons in Hs as [Hs Hss].
  destruct (IH Hss) as [raws Hraws].
  assert (∃ bs, textPayload (map col cs) row bs) as [bs Hp].
  { clear IH Hss Hraws Hs. induction Hrow as [|f c fs' cs' Hc _ [bs IH']]; [eexists; constructor|].
    destruct c as [v|]; [|eexists; by constructor]. destruct (carriesText_written f v Hc) as [b Hb]. eexists. by constructor. }
  assert (text_WriteTo (mkVirtual (map col cs) row) = Ok bs) as E by (apply (writeTextCells_payload _ _ bs []); exact Hp).
  specialize (Hs bs E). exists (bs :: raws). constructor; [|done]. split; [done|]. split.
  - apply (textPayload_rowLike _ _ _ Hp); [|done]. intros E0%(f_equal length). rewrite length_map in E0. simpl in E0. lia.
  - rewrite <- (length_map col cs). exact (scanTextCells_payload (map col cs) row bs [] Hp Hs).
Qed.

End RoundTrip.

(** ** Errors among the rows *)

(** An error the server sends among the rows is lost: the packet is
    cleared before it is parsed, so that whatever its number, state and text the
    client gets error 2000 without a text.  Before the rows, where the columns
    end, the same packet gives the server's error. *)
Theorem row_error_lost r code state msg ps tail :
  rr_eof r = false → inU 16 code → len state = 5 → len msg < 2 ^ 61 →
  waiting (rr_conn r) (concat (errorPayload code state msg) :: ps) tail →
  (∃ r', nextRowData r = (r', Err (SQLError CRUnknownError SSUnknownSQLState [])) ∧ rr_eof r' = true) ∧
  checkEndOfColumns (concat (errorPayload code state msg)) = Err (SQLError code state msg).
Proof.
  intros He Hc Hs Hm Hw. set (p := concat (errorPayload code state msg)) in *.
  assert (isEOFPacket p = Ok false) as E1 by done. assert (isErrorPacket p = Ok true) as E2 by done. split.
  - unfold nextRowData, mbind, SM_bind, getS, onRaw. rewrite He.
    destruct (readPacket_waiting _ _ _ _ Hw) as (c' & -> & _). unfold liftS, modifyS. rewrite E1, E2. eexists. by split.
  - unfold checkEndOfColumns. rewrite E1. cbn [mbind outcome_bind]. rewrite E2. cbn [mbind outcome_bind].
    unfold packetError, p. by rewrite ParseErrorPacket_payload.
Qed.

Module ResultSetExamples.
Import NoDates NoFloats ExactDecimal MixedCalendar.

Definition columns : list ColumnDef := [
  mkColumnDef (mkField "staff" "staff" "employees" "id" "id" 0 1 FieldTypeLongLong 0 63) 20 0 [];
  mkColumnDef (mkField "staff" "staff" "employees" "name" "name" 0 1 FieldTypeVarString 0 33) 255 0 []].

Definition rows : list (list cell) := [
  [Some (int64Value 7); Some (stringValue "ada")];
  [Some (int64Value (-1)); None]].

Definition failed : bytes := concat (errorPayload 1317 (text "70100") (text "Query execution was interrupted")).

(** Types without an entry in the table are announced as DECIMAL. *)
Example varchar_becomes_decimal :
  map (λ t, MySQLToType (TypeToMySQL t).1 0) [FieldTypeVarChar; FieldTypeNewDate; FieldTypeNewDecimal]
  = [Ok FieldTypeDecimal; Ok FieldTypeDecimal; Ok FieldTypeDecimal].
Proof. reflexivity. Qed.

(** The length of a definition sent in a list of fields, as its header says it
    and as it is. *)
Definition announcedLength (c : ColumnDef) : outcome (Z * Z) :=
  data ← (DefColumnDefinition c freshConn).2; Ok (fromLittleEndian (take 3 data), len data - 4).

(** The header is a length-encoded integer: right below 251 bytes, wrong
    above. *)
Example long_definition_header :
  map (λ n, announcedLength (mkColumnDef (NewField (string_of (replicate n 97)) FieldTypeVarString) 0 0 [])) [100%nat; 240%nat]
  = [Ok (123, 123); Ok (67580, 263)].
Proof. by vm_compute. Qed.

Lemma row_error_lost_witness :
  ∃ r', nextRowData (newResult (setIncoming (frame 0 failed) freshConn) 0) = (r', Err (SQLError CRUnknownError SSUnknownSQLState [])) ∧
    rr_eof r' = true.
Proof.
  destruct (row_error_lost (newResult (setIncoming (frame 0 failed) freshConn) 0) 1317 (text "70100")
    (text "Query execution was interrupted") [] []) as [H _].
  - reflexivity.
  - split; by vm_compute.
  - reflexivity.
  - by vm_compute.
  - split; [reflexivity|]. exists (frame 0 failed), 1. split; [by rewrite app_nil_r|]. apply stream_one. apply packets_frame. by vm_compute.
  - exact H.
Defined.

End ResultSetExamples.
