(* ===== verification/Statement.v ===== *)
(** * Prepared statements: [pkg/mysql/statement.go], [pkg/mysql/client.go]
    ([prepare]), [pkg/mysql/server.go] ([parseComStmtExecute],
    [parseStmtArgs]), [pkg/proto/interface.go] ([GetArgs])

    The client side builds the packets that prepare and execute a statement;
    the server side keeps the statements and decodes their arguments. *)
From Stdlib Require Import SpecFloat.
From S2P Require Import Prelude GoStd Value Encoding Packet Row MysqlText RowCodec Auth Handshake ResultSet.

Definition CRCommandsOutOfSync : Z := 2014.
Definition ComPing : Z := 0x0e.
Definition ComPrepare : Z := 0x16.
Definition ComStmtExecute : Z := 0x17.
Definition ComStmtSendLongData : Z := 0x18.
Definition ComStmtClose : Z := 0x19.
Definition ComStmtReset : Z := 0x1a.
Definition ComSetOption : Z := 0x1b.

(** ** Decoding arguments *)

(** [fmt.Sprintf("%06d", n)] of a number that is not negative. *)
Definition sprintf06 (n : Z) : string :=
  let s := FormatInt n in String.append (string_of (replicate (6 - String.length s) 48)) s.

Section Decode.
Context {FT : FloatText} {DC : DecimalLib}.

(** [val, pos, ok := read(data, pos)] and the value made of it. *)
Definition decoded (r : outcome (option (Z * Z))) (f : Z → ProtoValue) : outcome (option (cell * Z)) :=
  r ← r; Ok (match r with Some (v, pos) => Some (Some (f v), pos) | None => None end).

(** Bytes and words read one after the other, [None] if one is missing. *)
Fixpoint readWidths (ws : list nat) (data : bytes) (pos : Z) : outcome (option (list Z * Z)) :=
  match ws with
  | [] => Ok (Some ([], pos))
  | w :: ws =>
      r ← (match w with 1%nat => readByte data pos | 2%nat => readUint16 data pos | _ => readUint32 data pos end);
      match r with
      | None => Ok None
      | Some (v, pos) =>
          rest ← readWidths ws data pos;
          Ok (match rest with Some (vs, pos) => Some (v :: vs, pos) | None => None end)
      end
  end.

Definition dateText (y m d : Z) : string := FormatInt y ++ "-" ++ FormatInt m ++ "-" ++ FormatInt d.
Definition clockText (h m s : Z) : string := FormatInt h ++ ":" ++ FormatInt m ++ ":" ++ FormatInt s.

(** [proto.NewValueTyped(proto.NewValueString(s), proto.ValueFamilyTime)]. *)
Definition timeText (s : string) : cell := Some (typedValue (stringValue s) ValueFamilyTime).

Definition parseDateArg (data : bytes) (pos : Z) : outcome (option (cell * Z)) :=
  size ← readByte data pos;
  match size with
  | None => Ok None
  | Some (size, pos) =>
      if size =? 0 then Ok (Some (timeText "", pos))
      else if size =? 0x0b then
        r ← readWidths [2; 1; 1; 1; 1; 1; 4]%nat data pos;
        Ok (match r with
            | Some ([y; m; d; h; mi; s; us], pos) =>
                Some (timeText (dateText y m d ++ " " ++ clockText h mi s ++ "." ++ sprintf06 us), pos)
            | _ => None
            end)
      else if size =? 0x07 then
        r ← readWidths [2; 1; 1; 1; 1; 1]%nat data pos;
        Ok (match r with
            | Some ([y; m; d; h; mi; s], pos) => Some (timeText (dateText y m d ++ " " ++ clockText h mi s), pos)
            | _ => None
            end)
      else if size =? 0x04 then
        r ← readWidths [2; 1; 1]%nat data pos;
        Ok (match r with Some ([y; m; d], pos) => Some (timeText (dateText y m d), pos) | _ => None end)
      else Ok None
  end.

(** The hours of [days] days and [hour] hours are a [uint32]. *)
Definition durationText (isNegative days hour minute second : Z) : string :=
  String.append (if isNegative =? 1 then "-" else "")
    (clockText (u32 (hour + u32 (days * 24))) minute second).

Definition parseTimeArg (data : bytes) (pos : Z) : outcome (option (cell * Z)) :=
  size ← readByte data pos;
  match size with
  | None => Ok None
  | Some (size, pos) =>
      if size =? 0 then Ok (Some (Some (stringValue "00:00:00"), pos))
      else if size =? 0x0c then
        r ← readWidths [1; 4; 1; 1; 1; 4]%nat data pos;
        Ok (match r with
            | Some ([n; days; h; mi; s; us], pos) =>
                Some (Some (stringValue (durationText n days h mi s ++ "." ++ sprintf06 us)), pos)
            | _ => None
            end)
      else if size =? 0x08 then
        r ← readWidths [1; 4; 1; 1; 1]%nat data pos;
        Ok (match r with
            | Some ([n; days; h; mi; s], pos) => Some (Some (stringValue (durationText n days h mi s)), pos)
            | _ => None
            end)
      else Ok None
  end.

Definition stmtStringTypes : list Z := [
  FieldTypeVarChar; FieldTypeTinyBLOB; FieldTypeMediumBLOB; FieldTypeLongBLOB; FieldTypeBLOB; FieldTypeVarString;
  FieldTypeString; FieldTypeGeometry; FieldTypeJSON; FieldTypeBit; FieldTypeEnum; FieldTypeSet].

(** The value and the next position, [None] where the Go result [ok] is
    false.  The text of a decimal is converted before [ok] is looked at. *)
Definition parseStmtArgs (data : bytes) (typ pos : Z) : outcome (option (cell * Z)) :=
  if typ =? FieldTypeNULL then Ok (Some (None, pos))
  else if typ =? FieldTypeTiny then decoded (readByte data pos) (λ v, int64Value (wrapS 8 v))
  else if oneOf [FieldTypeShort; FieldTypeYear] typ then decoded (readUint16 data pos) (λ v, int64Value (wrapS 16 v))
  else if oneOf [FieldTypeInt24; FieldTypeLong] typ then decoded (readUint32 data pos) (λ v, int64Value (wrapS 32 v))
  else if typ =? FieldTypeFloat then decoded (readUint32 data pos) (λ v, float64Value (Float32frombits v))
  else if typ =? FieldTypeLongLong then decoded (readUint64 data pos) (λ v, int64Value (wrapS 64 v))
  else if typ =? FieldTypeDouble then decoded (readUint64 data pos) (λ v, float64Value (Float64frombits v))
  else if oneOf [FieldTypeTimestamp; FieldTypeDate; FieldTypeDateTime] typ then parseDateArg data pos
  else if typ =? FieldTypeTime then parseTimeArg data pos
  else if oneOf [FieldTypeDecimal; FieldTypeNewDecimal] typ then
    r ← readLenEncStringAsBytesCopy data pos;
    d ← MustNewValueDecimalString (string_of (from_option fst [] r));
    Ok (match r with Some (_, pos) => Some (Some d, pos) | None => None end)
  else if oneOf stmtStringTypes typ then
    r ← readLenEncStringAsBytesCopy data pos;
    Ok (match r with Some (v, pos) => Some (Some (stringValue (string_of v)), pos) | None => None end)
  else Ok None.

(** ** Statements of the server *)

Record Stmt := mkStmt {
  StatementID : Z;
  PrepareStmt : bytes;
  ParamsCount : Z;
  ParamsType : list Z;
  BindVars : gmap string cell;
}.

Definition setParamsType (ts : list Z) (s : Stmt) : Stmt := mkStmt (StatementID s) (PrepareStmt s) (ParamsCount s) ts (BindVars s).
Definition setBindVars (b : gmap string cell) (s : Stmt) : Stmt := mkStmt (StatementID s) (PrepareStmt s) (ParamsCount s) (ParamsType s) b.

Definition badPacket {A} (msg : string) : SM Stmt A := liftS (Err (NewSQLError CRMalformedPacket SSUnknownSQLState (text msg))).

(** The types of the parameters from [i] on. *)
Fixpoint readParamTypes (n i : nat) (payload : bytes) (pos : Z) : SM Stmt Z :=
  match n with
  | O => mret pos
  | S n =>
      t ← liftS (need CRMalformedPacket "reading parameter type failed" (readByte payload pos));
      f ← liftS (need CRMalformedPacket "reading parameter flags failed" (readByte payload t.2));
      match MySQLToType t.1 f.1 with
      | Ok valType =>
          s ← getS;
          if (i <? length (ParamsType s))%nat then
            _ ← modifyS (setParamsType (<[i := valType]> (ParamsType s))); readParamTypes n (S i) payload f.2
          else liftS Panic
      | _ => badPacket "MySQLToType failed"
      end
  end.

Definition parameterID (i : nat) : string := "v" ++ FormatInt (Z.of_nat i + 1).

(** The values of the parameters from [i] on; one that is bound is skipped. *)
Fixpoint readParams (n i : nat) (payload bitMap : bytes) (pos : Z) : SM Stmt unit :=
  match n with
  | O => mret tt
  | S n =>
      s ← getS;
      match BindVars s !! parameterID i with
      | Some (Some _) => readParams n (S i) payload bitMap pos
      | _ =>
          m ← liftS (load bitMap (Z.of_nat i / 8));
          typ ← liftS (match ParamsType s !! i with Some t => Ok t | None => Panic end);
          r ← liftS (if Z.land m (u8 (Z.shiftl 1 (Z.of_nat i mod 8))) >? 0 then parseStmtArgs [] FieldTypeNULL pos
                     else parseStmtArgs payload typ pos);
          match r with
          | None => badPacket "decoding parameter value failed"
          | Some (val, pos) =>
              _ ← modifyS (λ s, setBindVars (<[parameterID i := val]> (BindVars s)) s);
              readParams n (S i) payload bitMap pos
          end
      end
  end.

(** The types, if the packet has them, and the values after the mask of the
    null arguments. *)
Definition bindParams (payload bitMap : bytes) (pos : Z) : SM Stmt unit :=
  s ← getS;
  flag ← liftS (readByte payload pos);
  pos ← match flag with
        | Some (newParamsBoundFlag, pos) =>
            if newParamsBoundFlag =? 1 then readParamTypes (Z.to_nat (ParamsCount s)) 0 payload pos else mret pos
        | None => mret 0
        end;
  readParams (length (ParamsType s)) 0 payload bitMap pos.

(** The packet after the identifier of the statement, which is found. *)
Definition parseExecution (payload : bytes) (pos : Z) : SM Stmt Z :=
  cursor ← liftS (need CRMalformedPacket "reading cursor type flags failed" (readByte payload pos));
  iter ← liftS (need CRMalformedPacket "reading iteration count failed" (readUint32 payload cursor.2));
  if negb (iter.1 =? 1) then badPacket "iteration count is not equal to 1" else
  s ← getS;
  mask ← liftS (if ParamsCount s >? 0
    then need CRMalformedPacket "reading NULL-bitmap failed" (readBytes payload iter.2 (wrapU 16 (ParamsCount s + 7) / 8))
    else Ok ([], iter.2));
  _ ← bindParams payload mask.1 mask.2;
  mret cursor.1.

(** The statements, the identifier read (0 before it is known) and the cursor
    type or the error. *)
Definition parseComStmtExecute (stmts : gmap Z Stmt) (data : bytes) : gmap Z Stmt * Z * outcome Z :=
  match (payload ← slice data 1 (len data); id ← readUint32 payload 0; Ok (payload, id)) with
  | Ok (payload, None) => (stmts, 0, Err (NewSQLError CRMalformedPacket SSUnknownSQLState (text "reading statement ID failed")))
  | Ok (payload, Some (stmtID, pos)) =>
      match stmts !! stmtID with
      | None => (stmts, 0, Err (NewSQLError CRCommandsOutOfSync SSUnknownSQLState (text "statement ID is not found from record")))
      | Some s => let '(s, r) := parseExecution payload pos s in (<[stmtID := s]> stmts, stmtID, r)
      end
  | Err e => (stmts, 0, Err e)
  | Panic => (stmts, 0, Panic)
  | OutOfFuel => (stmts, 0, OutOfFuel)
  end.

End Decode.

(** [Context.GetArgs] of a statement: the values in the order of the keys as
    strings.  The order in which the keys are ranged over is lost in sorting. *)
Definition GetArgs (s : Stmt) : list cell :=
  if (size (BindVars s) <? 1)%nat then []
  else (λ k, default None (BindVars s !! k)) <$> sort_Strings (map_to_list (BindVars s)).*1.

(** ** The client's statements *)

Record BackendStatement := mkBackendStatement { bs_id : Z; bs_paramCount : Z; bs_sql : bytes }.

(** The statement with its identifier and parameters, and the columns.
    [spare] is the capacity of the pooled buffer after the packet, in which
    the slices of a short packet end. *)
Definition readPrepareResultPacket (spare : bytes) (stmt : BackendStatement) : M (BackendStatement * Z) :=
  onePacket (λ data,
    b ← load data 0;
    if negb (b =? OKPacket) then packetError data
    else
      id ← littleEndianAt 4 (data ++ spare) 1;
      columnCount ← littleEndianAt 2 (data ++ spare) 5;
      paramCount ← littleEndianAt 2 (data ++ spare) 7;
      Ok (mkBackendStatement id paramCount (bs_sql stmt), columnCount)).

(** What an error of a write is reported as. *)
Definition serverGone (e : error) : error := NewSQLError CRServerGone SSUnknownSQLState (errorText e).

Section ClientStatement.
Context (bufPool : Z → bytes) (MaxAllowedPacket : Z).

(** A command followed by text. *)
Definition sendCommand (command : Z) (arg : bytes) : M unit :=
  mapErr (sendFields bufPool (len arg + 1) [λ data pos, writeByte data pos command; writeCopy (Ok arg)]) serverGone.

Definition prepare (spare query : bytes) : M BackendStatement :=
  _ ← modify (setSequence 0);
  _ ← sendCommand ComPrepare query;
  r ← readPrepareResultPacket spare (mkBackendStatement 0 0 query);
  _ ← (if bs_paramCount r.1 >? 0 then DrainResults else mret tt);
  _ ← (if r.2 >? 0 then DrainResults else mret tt);
  mret r.1.

Definition longDataOffset : Z := 1 + 4 + 2.

(** The loop sends [data[:4+pktLen]] and steps over the part of the argument
    that was in it; [pktLen] is kept from turn to turn. *)
Fixpoint longDataLoop (fuel : nat) (stmt : BackendStatement) (paramID : Z) (data : bytes) (argLen pktLen : Z) : M unit :=
  if negb (argLen >? 0) then mret tt else
  match fuel with
  | O => lift OutOfFuel
  | S fuel =>
      let pktLen := if longDataOffset + argLen <? MaxAllowedPacket - 1 then longDataOffset + argLen else pktLen in
      _ ← modify (setSequence 0);
      data ← lift (storeAll data 4 ([ComStmtSendLongData] ++ littleEndian 4 (bs_id stmt) ++ littleEndian 2 paramID));
      packet ← lift (slice data 0 (4 + pktLen));
      _ ← writePacket packet;
      data ← lift (slice data (pktLen - longDataOffset) (len data));
      longDataLoop fuel stmt paramID data (argLen - (pktLen - longDataOffset)) pktLen
  end.

Definition writeCommandLongData (stmt : BackendStatement) (paramID : Z) (arg : bytes) : M unit :=
  _ ← longDataLoop (S (length arg)) stmt paramID (replicate 11 0 ++ arg) (len arg) (MaxAllowedPacket - 1);
  modify (setSequence 0).

Context {TL : TimeLib} {FT : FloatText} {DC : DecimalLib} {L : Location}.

(** An error that is not looked at leaves the zero value. *)
Definition ignoring {A} (zero : A) (m : outcome A) : A := match m with Ok a => a | _ => zero end.

(** The type of an argument, its flag, and its bytes; [None] where the bytes
    are a long text. *)
Definition encodeArg (longDataSize : Z) (arg : ProtoValue) : outcome (Z * Z * (bytes + bytes)) :=
  let lenEnc (b : bytes) : bytes := appendLengthEncodedInteger [] (len b) ++ b in
  match Family arg with
  | ValueFamilySign => Ok (FieldTypeLongLong, 0, inl (uint64ToBytes (wrapU 64 (ignoring 0 (Int64 arg)))))
  | ValueFamilyUnsigned => Ok (FieldTypeLongLong, 0x80, inl (uint64ToBytes (ignoring 0 (Uint64 arg))))
  | ValueFamilyFloat => Ok (FieldTypeDouble, 0, inl (uint64ToBytes (Float64bits (ignoring (S754_zero false) (Float64 arg)))))
  | ValueFamilyBool => Ok (FieldTypeTiny, 0, inl [if ignoring false (Bool arg) then 1 else 0])
  | ValueFamilyString | ValueFamilyDecimal =>
      let v := text (Value_String arg) in
      Ok (FieldTypeString, 0, if len v <? longDataSize then inl (lenEnc v) else inr v)
  | ValueFamilyTime =>
      let v := ignoring zeroTime (Value_Time arg) in
      b ← (if IsZero v then Ok (text "0000-00-00") else AppendDateTime [] v);
      Ok (FieldTypeString, 0, inl (lenEnc b))
  | _ => Err (NewError "cannot convert type")
  end.

(** The null mask, the types and the values, three parts of one buffer. *)
Fixpoint encodeArgs (stmt : BackendStatement) (longDataSize : Z) (i : nat) (args : list cell) (mask types values : bytes) :
    M (bytes * bytes * bytes) :=
  match args with
  | [] => mret (mask, types, values)
  | None :: args =>
      mask ← lift (setBit mask (Z.of_nat i / 8) (Z.land (Z.of_nat i) 7));
      encodeArgs stmt longDataSize (S i) args mask (types ++ [FieldTypeNULL; 0]) values
  | Some arg :: args =>
      r ← lift (encodeArg longDataSize arg);
      let '(typ, flag, v) := r in
      match v with
      | inl b => encodeArgs stmt longDataSize (S i) args mask (types ++ [typ; flag]) (values ++ b)
      | inr long =>
          _ ← writeCommandLongData stmt (Z.of_nat i) long;
          encodeArgs stmt longDataSize (S i) args mask (types ++ [typ; flag]) values
      end
  end.

Definition writeExecutePacket (stmt : BackendStatement) (args : list cell) : M unit :=
  if negb (Z.of_nat (length args) =? bs_paramCount stmt) then lift (Err (NewError "argument count mismatch")) else
  let longDataSize := Z.max 64 (Z.quot MaxAllowedPacket (bs_paramCount stmt + 1)) in
  _ ← modify (setSequence 0);
  _ ← startEphemeralPacket bufPool (if (length args =? 0)%nat then 14 else MaxPacketSize);
  deferring
    (let head := [ComStmtExecute] ++ littleEndian 4 (bs_id stmt) ++ [0] ++ [1; 0; 0; 0] in
     match args with
     | [] => writePacket head
     | _ =>
         r ← encodeArgs stmt longDataSize 0 args (replicate (Z.to_nat ((Z.of_nat (length args) + 7) / 8)) 0) [] [];
         let '(mask, types, values) := r in
         writePacket (head ++ mask ++ [1] ++ types ++ values)
     end)
    recycleWritePacket.

(** The result whose packets follow on the connection. *)
Definition ReadQueryRow (capabilities : Z) : M RawResult := c ← get; mret (newResult c capabilities).

Definition ReadQueryResult (capabilities : Z) (wantFields : bool) : M RawResult :=
  r ← ReadQueryRow capabilities; mret (setWantFields wantFields r).

Context (capabilities : Z).

Definition execArgs (stmt : BackendStatement) (args : list cell) : M RawResult :=
  _ ← writeExecutePacket stmt args; ReadQueryRow capabilities.

Definition queryArgs (stmt : BackendStatement) (args : list cell) : M RawResult :=
  _ ← writeExecutePacket stmt args;
  res ← ReadQueryRow capabilities;
  mret (setBinaryProtocol (setWantFields true res)).

(** A packet of another client, sent on with the identifier of this
    statement. *)
Definition forwardExecute (stmt : BackendStatement) (args : bytes) : M unit :=
  args ← lift (storeAll args 1 (littleEndian 4 (bs_id stmt)));
  _ ← modify (setSequence 0);
  writePacket args.

Definition exec (stmt : BackendStatement) (args : bytes) : M RawResult :=
  _ ← forwardExecute stmt args;
  _ ← recycleWritePacket;
  res ← ReadQueryRow capabilities;
  mret (setWantFields true (setBinaryProtocol res)).

Definition query (stmt : BackendStatement) (args : bytes) : M RawResult :=
  _ ← forwardExecute stmt args; ReadQueryResult capabilities true.

Definition PrepareExecuteArgs (spare sql : bytes) (args : list cell) : M RawResult :=
  stmt ← prepare spare sql; execArgs stmt args.

Definition PrepareQueryArgs (spare sql : bytes) (data : list cell) : M RawResult :=
  stmt ← prepare spare sql; queryArgs stmt data.

Definition PrepareExecute (spare sql data : bytes) : M RawResult := stmt ← prepare spare sql; exec stmt data.

Definition PrepareQuery (spare sql data : bytes) : M RawResult := stmt ← prepare spare sql; query stmt data.
End ClientStatement.
