(* ===== verification/StatementTheory.v ===== *)
(** * Prepared statements: theory

    The types of the arguments a statement is executed with, whatever packet
    they come from; the round trip of the arguments from a client to the
    executor; the order they are handed over in. *)
From S2P Require Import Prelude GoStd Value Encoding Packet WireTheory Row MysqlText RowCodec RowTheory Auth Handshake HandshakeTheory ResultSet ResultSetTheory Statement.

(** ** Types *)

(** A value of the type of its parameter: nil, or of the family and within
    the width of the type. *)
Definition fits (typ : Z) (v : cell) : Prop :=
  match v with
  | None => True
  | Some (int64Value n) =>
      (typ = FieldTypeTiny ∧ inS 8 n) ∨ (typ ∈ [FieldTypeShort; FieldTypeYear] ∧ inS 16 n) ∨
      (typ ∈ [FieldTypeInt24; FieldTypeLong] ∧ inS 32 n) ∨ (typ = FieldTypeLongLong ∧ inS 64 n)
  | Some (float64Value _) => typ ∈ [FieldTypeFloat; FieldTypeDouble]
  | Some (decimalValue _) => typ ∈ [FieldTypeDecimal; FieldTypeNewDecimal]
  | Some (stringValue _) => typ = FieldTypeTime ∨ typ ∈ stmtStringTypes
  | Some (typedValue (stringValue _) ValueFamilyTime) => typ ∈ [FieldTypeTimestamp; FieldTypeDate; FieldTypeDateTime]
  | Some _ => False
  end.

Section Types.
Context {FT : FloatText} {DC : DecimalLib}.

Lemma decoded_fits typ r f v pos :
  (∀ n, fits typ (Some (f n))) → decoded r f = Ok (Some (v, pos)) → fits typ v.
Proof. intros Hf. unfold decoded. destruct r as [[[n p]|]| | |]; simpl; intros [= <- <-]; auto. Qed.

(** A reader that gives texts only. *)
Lemma parseDateArg_fits typ data pos v pos' :
  typ ∈ [FieldTypeTimestamp; FieldTypeDate; FieldTypeDateTime] → parseDateArg data pos = Ok (Some (v, pos')) → fits typ v.
Proof.
  intros Ht. unfold parseDateArg, mbind, outcome_bind. intros H. repeat case_match; simplify_eq; exact Ht.
Qed.

Lemma parseTimeArg_fits data pos v pos' : parseTimeArg data pos = Ok (Some (v, pos')) → fits FieldTypeTime v.
Proof.
  unfold parseTimeArg, mbind, outcome_bind. intros H. repeat case_match; simplify_eq; by left.
Qed.

Lemma parseStmtArgs_fits data typ pos v pos' : parseStmtArgs data typ pos = Ok (Some (v, pos')) → fits typ v.
Proof.
  unfold parseStmtArgs. repeat (case_match; [repeat match goal with H : (_ =? _) = true |- _ => apply Z.eqb_eq in H end
    | match goal with H : _ = false |- _ => clear H end]); try match goal with H : oneOf _ _ = true |- _ => apply oneOf_elem in H end.
  - by intros [= <- _].
  - apply decoded_fits. intros n. left. split; [done|]. by apply wrapS_range.
  - apply decoded_fits. intros n. right. left. split; [done|]. by apply wrapS_range.
  - apply decoded_fits. intros n. do 2 right. left. split; [done|]. by apply wrapS_range.
  - apply decoded_fits. intros n. simpl. subst. set_solver.
  - apply decoded_fits. intros n. do 3 right. split; [done|]. by apply wrapS_range.
  - apply decoded_fits. intros n. simpl. subst. set_solver.
  - by apply parseDateArg_fits.
  - subst. apply parseTimeArg_fits.
  - destruct (readLenEncStringAsBytesCopy data pos) as [r| | |]; simpl; try done.
    unfold MustNewValueDecimalString. destruct (dec_NewFromString _); simpl; try done. by destruct r as [[? ?]|]; intros [= <- _].
  - destruct (readLenEncStringAsBytesCopy data pos) as [[[b p]|]| | |]; simpl; try done. intros [= <- _]. by right.
  - done.
Qed.

(** A statement as [handlePrepare] makes it: a type for every parameter. *)
Definition StmtOK (s : Stmt) : Prop := inU 16 (ParamsCount s) ∧ Z.of_nat (length (ParamsType s)) = ParamsCount s.

(** What is bound is a parameter, and of its type. *)
Definition typed (s : Stmt) : Prop :=
  ∀ k v, BindVars s !! k = Some v → ∃ j t, k = parameterID j ∧ ParamsType s !! j = Some t ∧ fits t v.

(** Only the types and the arguments differ. *)
Definition sameStmt (s s' : Stmt) : Prop :=
  StatementID s' = StatementID s ∧ PrepareStmt s' = PrepareStmt s ∧ ParamsCount s' = ParamsCount s ∧
  length (ParamsType s') = length (ParamsType s).

Lemma sameStmt_OK s s' : sameStmt s s' → StmtOK s → StmtOK s'.
Proof. unfold StmtOK. by intros (_ & _ & -> & ->). Qed.

Lemma sameStmt_trans s1 s2 s3 : sameStmt s1 s2 → sameStmt s2 s3 → sameStmt s1 s3.
Proof. unfold sameStmt. intuition congruence. Qed.

Lemma FormatInt_inj a b : FormatInt a = FormatInt b → a = b.
Proof. intros H. apply (f_equal parse_int) in H. rewrite !parse_format in H. by injection H. Qed.

#[global] Instance parameterID_inj : Inj (=) (=) parameterID.
Proof. intros i j H. unfold parameterID in H. injection H as H%FormatInt_inj. lia. Qed.

Lemma readParamTypes_same n i payload pos s s' r :
  readParamTypes n i payload pos s = (s', r) → sameStmt s s' ∧ BindVars s' = BindVars s.
Proof.
  revert i pos s. induction n as [|n IH]; intros i pos s; cbn [readParamTypes].
  - by intros [= <- _].
  - unfold mbind, SM_bind, liftS, getS, modifyS, badPacket, liftS.
    destruct (need _ _ (readByte payload pos)) as [t| | |]; try by intros [= <- _].
    destruct (need _ _ (readByte payload t.2)) as [f| | |]; try by intros [= <- _].
    destruct (MySQLToType t.1 f.1) as [typ| | |]; try by intros [= <- _].
    destruct (i <? _)%nat; [|by intros [= <- _]]. intros H. apply IH in H as [Hs Hb]. split; [|exact Hb].
    eapply sameStmt_trans; [|exact Hs]. unfold sameStmt. simpl. by rewrite length_insert.
Qed.

Lemma readParams_typed n i payload bitMap pos s s' r :
  readParams n i payload bitMap pos s = (s', r) → (i + n = length (ParamsType s))%nat →
  typed s → (∀ j, (i ≤ j)%nat → BindVars s !! parameterID j = None) →
  (∀ j, (j < i)%nat → is_Some (BindVars s !! parameterID j)) →
  sameStmt s s' ∧ typed s' ∧ (r = Ok tt → ∀ j, (j < length (ParamsType s))%nat → is_Some (BindVars s' !! parameterID j)).
Proof.
  revert i pos s. induction n as [|n IH]; intros i pos s H Hn Ht Hnone Hsome; cbn [readParams] in H.
  { injection H as <- _. split; [done|]. split; [done|]. intros _ j Hj. apply Hsome. lia. }
  unfold mbind, SM_bind, liftS, getS, modifyS, badPacket, liftS in H. rewrite (Hnone i) in H by lia.
  destruct (load bitMap _) as [m| | |]; try (injection H as <- <-; by split; [|split]).
  destruct (ParamsType s !! i) as [typ|] eqn:Et; [|injection H as <- <-; by split; [|split]].
  match type of H with context [if ?b then ?x else ?y] => set (o := if b then x else y) in H end.
  assert (∀ v p, o = Ok (Some (v, p)) → fits typ v) as Ho.
  { intros v p. unfold o. destruct (_ >? _); [by intros [= <- _]|apply parseStmtArgs_fits]. }
  destruct o as [[[v p]|]| | |]; try (injection H as <- <-; by split; [|split]).
  apply IH in H as (Hs & Ht' & Hr); simpl.
  - split; [|by split]. eapply sameStmt_trans; [|exact Hs]. done.
  - lia.
  - intros k w. simpl. rewrite lookup_insert_Some. intros [[<- <-]|[_ Hk]]; [|by apply Ht].
    exists i, typ. split; [done|]. split; [done|]. by eapply Ho.
  - intros j Hj. rewrite lookup_insert_ne; [apply Hnone; lia|]. intros ->%parameterID_inj. lia.
  - intros j Hj. destruct (decide (j = i)) as [->|Hne]; [by rewrite lookup_insert_eq|].
    rewrite lookup_insert_ne; [apply Hsome; lia|]. by intros ->%parameterID_inj.
Qed.

Lemma bindParams_typed payload bitMap pos s s' r :
  bindParams payload bitMap pos s = (s', r) → BindVars s = ∅ →
  sameStmt s s' ∧ typed s' ∧ (r = Ok tt → ∀ j, (j < length (ParamsType s'))%nat → is_Some (BindVars s' !! parameterID j)).
Proof.
  intros H Hb. assert (typed s) as Ht by (intros k v; by rewrite Hb).
  unfold bindParams, mbind, SM_bind, liftS, getS in H.
  destruct (readByte payload pos) as [flag| | |]; try (injection H as <- <-; by split; [|split]).
  match type of H with context [match ?m s with _ => _ end] => destruct (m s) as [s1 o1] eqn:E1 end.
  assert (sameStmt s s1 ∧ BindVars s1 = BindVars s) as [Hs1 Hb1].
  { revert E1. destruct flag as [[fl p]|]; [destruct (fl =? 1)|]; try by intros [= <- _]. apply readParamTypes_same. }
  assert (typed s1) as Ht1 by (intros k v; by rewrite Hb1, Hb).
  destruct o1 as [pos1| | |]; try (injection H as <- <-; by split; [|split]).
  apply readParams_typed in H as (Hs2 & Ht2 & Hr); [|symmetry; apply Hs1|done|by intros j _; rewrite Hb1, Hb|lia].
  split; [by eapply sameStmt_trans|]. split; [done|]. intros E j. rewrite (proj2 (proj2 (proj2 Hs2))). by apply Hr.
Qed.

Lemma parseExecution_typed payload pos s s' r :
  parseExecution payload pos s = (s', r) → BindVars s = ∅ →
  sameStmt s s' ∧ typed s' ∧
  (∀ cursor, r = Ok cursor → ∀ j, (j < length (ParamsType s'))%nat → is_Some (BindVars s' !! parameterID j)).
Proof.
  intros H Hb. assert (typed s) as Ht by (intros k v; by rewrite Hb).
  unfold parseExecution, mbind, SM_bind, liftS, getS, badPacket, liftS in H.
  destruct (need _ _ (readByte payload pos)) as [cursor| | |]; try (injection H as <- <-; by split; [|split]).
  destruct (need _ _ (readUint32 payload _)) as [iter| | |]; try (injection H as <- <-; by split; [|split]).
  destruct (negb _); [injection H as <- <-; by split; [|split]|].
  match type of H with context [if ?b then ?x else ?y] => destruct (if b then x else y) as [mask| | |] end;
    try (injection H as <- <-; by split; [|split]).
  destruct (bindParams payload mask.1 mask.2 s) as [s2 o2] eqn:E2. apply bindParams_typed in E2 as (Hs & Ht2 & Hr); [|done].
  destruct o2 as [[]| | |]; injection H as <- <-; split; try done; split; try done. intros c _. by apply Hr.
Qed.

(** C31: Whatever packet is sent to execute a prepared statement, only the
    statement it names changes, its identifier, text and number of parameters
    stay, every value bound is the value of a parameter and is nil or of the
    family and within the width of the parameter's type, and when the packet
    is accepted every parameter is bound. *)
Theorem execution_types stmts data stmts' id r :
  map_Forall (λ _ s, StmtOK s ∧ BindVars s = ∅) stmts → parseComStmtExecute stmts data = (stmts', id, r) →
  (∀ k, k ≠ id → stmts' !! k = stmts !! k) ∧
  (∀ k s', stmts' !! k = Some s' → ∃ s, stmts !! k = Some s ∧ sameStmt s s' ∧ StmtOK s' ∧ typed s') ∧
  (∀ cursor, r = Ok cursor →
    ∃ s', stmts' !! id = Some s' ∧ ∀ j, (j < length (ParamsType s'))%nat → is_Some (BindVars s' !! parameterID j)).
Proof.
  intros Hall H. assert (∀ k s, stmts !! k = Some s → ∃ s0, stmts !! k = Some s0 ∧ sameStmt s0 s ∧ StmtOK s ∧ typed s) as Hkeep.
  { intros k s Hk. destruct (Hall k s Hk) as [Hs Hb]. exists s. split; [done|]. split; [done|]. split; [done|]. intros ? ?. by rewrite Hb. }
  unfold parseComStmtExecute in H. set (head := payload ← _; _) in H.
  destruct head as [[payload [[stmtID pos]|]]| | |]; [|injection H as <- <- <-; by split; [|split]..].
  destruct (stmts !! stmtID) as [s|] eqn:Es; [|injection H as <- <- <-; by split; [|split]].
  destruct (parseExecution payload pos s) as [s' r'] eqn:Ep. injection H as <- <- <-. destruct (Hall stmtID s Es) as [Hs Hb].
  destruct (parseExecution_typed payload pos s s' r' Ep Hb) as (Hsame & Ht & Hr). split; [|split].
  - intros k Hk. by rewrite lookup_insert_ne.
  - intros k s1. rewrite lookup_insert_Some. intros [[<- <-]|[_ Hk]]; [|by apply Hkeep].
    exists s. split; [done|]. split; [done|]. split; [by eapply sameStmt_OK|done].
  - intros cursor ->. exists s'. split; [apply lookup_insert_eq|]. by eapply Hr.
Qed.
End Types.

(** ** Round trip *)

Section Wire.
Context {TL : TimeLib} {FT : FloatText} {DC : DecimalLib} {L : Location}.

(** The text a moment is sent as. *)
Definition momentText (t : Time) : outcome bytes := if IsZero t then Ok (text "0000-00-00") else AppendDateTime [] t.

(** The value the server makes of an argument. *)
Definition delivered (arg : ProtoValue) : ProtoValue :=
  match Family arg with
  | ValueFamilySign => int64Value (ignoring 0 (Int64 arg))
  | ValueFamilyUnsigned => int64Value (wrapS 64 (ignoring 0 (Uint64 arg)))
  | ValueFamilyFloat => float64Value (ignoring (SpecFloat.S754_zero false) (Float64 arg))
  | ValueFamilyBool => int64Value (if ignoring false (Bool arg) then 1 else 0)
  | ValueFamilyTime => stringValue (string_of (ignoring [] (momentText (ignoring zeroTime (Value_Time arg)))))
  | _ => stringValue (Value_String arg)
  end.

Definition deliveredArg (arg : cell) : cell := match arg with Some v => Some (delivered v) | None => None end.

(** An argument within the types, with a text that is sent in the packet. *)
Definition sendable (longDataSize : Z) (arg : ProtoValue) : Prop :=
  match Family arg with
  | ValueFamilySign => inS 64 (ignoring 0 (Int64 arg))
  | ValueFamilyUnsigned => inU 64 (ignoring 0 (Uint64 arg))
  | ValueFamilyFloat => isFloat64 (ignoring (SpecFloat.S754_zero false) (Float64 arg))
  | ValueFamilyBool => True
  | ValueFamilyString | ValueFamilyDecimal => len (text (Value_String arg)) < longDataSize
  | ValueFamilyTime => ∃ b, momentText (ignoring zeroTime (Value_Time arg)) = Ok b ∧ len b < 2 ^ 40
  | _ => False
  end.

(** The bytes of an argument of the type the server reads it as. *)
Definition argument (longDataSize : Z) (arg : ProtoValue) (typ flag t : Z) (b : bytes) : Prop :=
  encodeArg longDataSize arg = Ok (typ, flag, inl b) ∧ MySQLToType typ flag = Ok t ∧ len b < 2 ^ 41 ∧
  ∀ data pos, buffer data → at_ data pos b → parseStmtArgs data t pos = Ok (Some (Some (delivered arg), pos + len b)).

Lemma argument_words longDataSize arg u typ flag t v :
  encodeArg longDataSize arg = Ok (typ, flag, inl (littleEndian 8 u)) → MySQLToType typ flag = Ok t → inU 64 u →
  (∀ data pos, parseStmtArgs data t pos = decoded (readUint64 data pos) v) → v u = delivered arg →
  argument longDataSize arg typ flag t (littleEndian 8 u).
Proof.
  intros He Ht Hu Hp Hv. split; [done|]. split; [done|]. split; [by rewrite length_littleEndian|].
  intros data pos Hb Ha. rewrite Hp. unfold decoded. rewrite (reads_uint64 data pos Hb u Ha Hu). cbn [mbind outcome_bind]. by rewrite Hv.
Qed.

Lemma argument_text longDataSize arg b :
  encodeArg longDataSize arg = Ok (FieldTypeString, 0, inl (appendLengthEncodedInteger [] (len b) ++ b)) → len b < 2 ^ 40 →
  delivered arg = stringValue (string_of b) → argument longDataSize arg FieldTypeString 0 FieldTypeString (lenEncBytes (len b) ++ b).
Proof.
  intros He Hl Hd. rewrite appendLengthEncodedInteger_bytes in He. split; [exact He|]. split; [done|]. split.
  { rewrite len_app, len_lenEncBytes. pose proof (lenEncIntSize_range (len b)). lia. }
  intros data pos Hb Ha. destruct (reads_lenEncString data pos Hb b Ha) as (_ & _ & Hr).
  change (parseStmtArgs data FieldTypeString pos) with
    (r ← readLenEncStringAsBytesCopy data pos;
     Ok (match r with Some (v, pos) => Some (Some (stringValue (string_of v)), pos) | None => None end)).
  rewrite Hr. cbn [mbind outcome_bind]. by rewrite Hd.
Qed.

Lemma sendable_argument longDataSize arg :
  longDataSize ≤ 2 ^ 40 → sendable longDataSize arg → ∃ typ flag t b, argument longDataSize arg typ flag t b.
Proof.
  intros Hlong H. unfold sendable in H. destruct (Family arg) eqn:Ef; try done.
  - exists FieldTypeString, 0, FieldTypeString. eexists. apply (argument_text _ _ (text (Value_String arg))); [|lia|].
    + unfold encodeArg. rewrite Ef. by rewrite (proj2 (Z.ltb_lt _ _) H).
    + unfold delivered. by rewrite Ef, string_of_text.
  - set (n := ignoring 0 (Int64 arg)) in *. exists FieldTypeLongLong, 0, FieldTypeLongLong, (littleEndian 8 (wrapU 64 n)).
    apply argument_words with (v := λ v, int64Value (wrapS 64 v)); [unfold encodeArg; by rewrite Ef|done|by apply Z.mod_pos_bound|done|].
    unfold delivered. rewrite Ef. fold n. by rewrite wrapS_wrapU.
  - set (u := ignoring 0 (Uint64 arg)) in *. exists FieldTypeLongLong, 0x80, FieldTypeLongLong, (littleEndian 8 u).
    apply argument_words with (v := λ v, int64Value (wrapS 64 v)); [unfold encodeArg; by rewrite Ef|done|done|done|].
    unfold delivered. by rewrite Ef.
  - set (f := ignoring _ (Float64 arg)) in *. destruct (Float64bits_roundtrip f H) as [Hr Hb].
    exists FieldTypeDouble, 0, FieldTypeDouble, (littleEndian 8 (Float64bits f)).
    apply argument_words with (v := λ v, float64Value (Float64frombits v)); [unfold encodeArg; by rewrite Ef|done|done|done|].
    unfold delivered. rewrite Ef. by rewrite Hr.
  - exists FieldTypeString, 0, FieldTypeString. eexists. apply (argument_text _ _ (text (Value_String arg))); [|lia|].
    + unfold encodeArg. rewrite Ef. by rewrite (proj2 (Z.ltb_lt _ _) H).
    + unfold delivered. by rewrite Ef, string_of_text.
  - exists FieldTypeTiny, 0, FieldTypeTiny, [if ignoring false (Bool arg) then 1 else 0].
    split; [unfold encodeArg; by rewrite Ef|]. split; [done|]. split; [done|]. intros data pos Hb Ha.
    change (parseStmtArgs data FieldTypeTiny pos) with (decoded (readByte data pos) (λ v, int64Value (wrapS 8 v))).
    unfold decoded. rewrite (reads_byte data pos Hb _ Ha). cbn [mbind outcome_bind]. unfold delivered. rewrite Ef. by destruct (ignoring _ _).
  - destruct H as (b & Hb & Hl). exists FieldTypeString, 0, FieldTypeString. eexists. apply argument_text; [|exact Hl|].
    + unfold encodeArg. rewrite Ef. unfold momentText in Hb. rewrite Hb. done.
    + unfold delivered. rewrite Ef, Hb. done.
Qed.

(** The types and the values of a list of arguments, as sent and as read. *)
Inductive argsWire (longDataSize : Z) : list cell → bytes → list Z → bytes → Prop :=
| aw_nil : argsWire longDataSize [] [] [] []
| aw_null args T ts V :
    argsWire longDataSize args T ts V →
    argsWire longDataSize (None :: args) ([FieldTypeNULL; 0] ++ T) (FieldTypeNULL :: ts) V
| aw_arg a args typ flag t b T ts V :
    argument longDataSize a typ flag t b → argsWire longDataSize args T ts V →
    argsWire longDataSize (Some a :: args) ([typ; flag] ++ T) (t :: ts) (b ++ V).

Lemma argsWire_exists longDataSize args :
  longDataSize ≤ 2 ^ 40 → Forall (from_option (sendable longDataSize) True) args → ∃ T ts V, argsWire longDataSize args T ts V.
Proof.
  intros Hl. induction 1 as [|[a|] args Ha _ (T & ts & V & IH)]; [by exists [], [], []; constructor| |].
  - destruct (sendable_argument longDataSize a Hl Ha) as (typ & flag & t & b & Hb). do 3 eexists. by eapply aw_arg.
  - do 3 eexists. by apply aw_null.
Qed.

Lemma argsWire_sizes longDataSize args T ts V :
  argsWire longDataSize args T ts V →
  length ts = length args ∧ len T = 2 * Z.of_nat (length args) ∧ len V ≤ 2 ^ 41 * Z.of_nat (length args).
Proof.
  induction 1 as [|args T ts V _ (E1 & E2 & E3)|a args typ flag t b T ts V (_ & _ & Hb & _) _ (E1 & E2 & E3)].
  - done.
  - cbn [length]. rewrite len_app. change (len [FieldTypeNULL; 0]) with 2. lia.
  - cbn [length]. rewrite !len_app. change (len [typ; flag]) with 2. lia.
Qed.

(** *** The mask *)

Lemma setBit_cons x mask q b : 0 ≤ q → setBit (x :: mask) (q + 1) b = m ← setBit mask q b; Ok (x :: m).
Proof.
  intros Hq. unfold setBit, load, store. rewrite !(proj2 (Z.ltb_ge _ 0)) by lia. rewrite (Z2Nat.inj_add q 1) by lia.
  change (Z.to_nat 1) with 1%nat. rewrite Nat.add_1_r. cbn [lookup list_lookup]. fold (mask !! Z.to_nat q).
  destruct (mask !! Z.to_nat q); [|done]. cbn [mbind outcome_bind]. rewrite len_cons.
  destruct (Z.leb_spec 0 (q + 1)), (Z.leb_spec 0 q), (Z.ltb_spec (q + 1) (1 + len mask)), (Z.ltb_spec q (len mask)); try lia; done.
Qed.

Lemma setBit_bits mask k :
  0 ≤ k < 8 * Z.of_nat (length mask) →
  ∃ mask', setBit mask (k / 8) (Z.land k 7) = Ok mask' ∧ length mask' = length mask ∧
    ∀ j, 0 ≤ j → maskBit mask' j = maskBit mask j || (j =? k).
Proof.
  intros Hk. destruct (setBit_mask mask [] k Hk) as (mask' & E & Hl & Hb). exists mask'. split; [|by split].
  change 7 with (Z.ones 3). rewrite Z.land_ones by lia. change (2 ^ 3) with 8.
  rewrite !app_nil_r, setBit_cons in E by (apply Z.div_pos; lia).
  destruct (setBit mask (k / 8) (k mod 8)); simplify_eq/=; done.
Qed.

(** The bit of an argument that is null. *)
Definition nullArg (args : list cell) (k : nat) : bool := bool_decide (args !! k = Some None).

Lemma encodeArgs_wire MaxAllowedPacket longDataSize stmt args T ts V i mask types values c :
  argsWire longDataSize args T ts V → Z.of_nat (i + length args) ≤ 8 * Z.of_nat (length mask) →
  (∀ j, (i ≤ j)%nat → maskBit mask (Z.of_nat j) = false) →
  ∃ mask', encodeArgs MaxAllowedPacket stmt longDataSize i args mask types values c = (c, Ok (mask', types ++ T, values ++ V)) ∧
    length mask' = length mask ∧ (∀ j, (j < i)%nat → maskBit mask' (Z.of_nat j) = maskBit mask (Z.of_nat j)) ∧
    ∀ k, maskBit mask' (Z.of_nat (i + k)) = nullArg args k.
Proof.
  intros H. revert i mask types values. induction H as [|args T ts V _ IH|a args typ flag t b T ts V (He & _) _ IH];
    intros i mask types values Hl Hz; cbn [encodeArgs length] in *.
  - exists mask. rewrite !app_nil_r. split; [done|]. split; [done|]. split; [done|]. intros k. rewrite Hz by lia.
    unfold nullArg. by rewrite lookup_nil.
  - destruct (setBit_bits mask (Z.of_nat i)) as (m1 & E1 & Hl1 & Hb1); [lia|].
    destruct (IH (S i) m1 (types ++ [FieldTypeNULL; 0]) values) as (m' & E & Hl' & Hlow & Hbits); [lia| |].
    { intros j Hj. rewrite Hb1 by lia. rewrite Hz by lia. simpl. apply Z.eqb_neq. lia. }
    exists m'. unfold mbind, M_bind, lift. rewrite E1, E. rewrite <- app_assoc. split; [done|]. split; [lia|]. split.
    + intros j Hj. rewrite Hlow by lia. rewrite Hb1 by lia. rewrite (proj2 (Z.eqb_neq _ _)) by lia. by rewrite orb_false_r.
    + intros [|k]; [|rewrite Nat.add_succ_r; apply (Hbits k)]. rewrite Nat.add_0_r, Hlow by lia. rewrite Hb1 by lia.
      by rewrite Z.eqb_refl, orb_true_r.
  - destruct (IH (S i) mask (types ++ [typ; flag]) (values ++ b)) as (m' & E & Hl' & Hlow & Hbits); [lia|by intros j Hj; apply Hz; lia|].
    exists m'. unfold mbind, M_bind, lift. rewrite He, E. rewrite <- !app_assoc. split; [done|]. split; [lia|]. split.
    + intros j Hj. apply Hlow. lia.
    + intros [|k]; [|rewrite Nat.add_succ_r; apply (Hbits k)]. rewrite Nat.add_0_r, Hlow by lia. by apply Hz.
Qed.

(** *** Reading *)

Lemma need_some {A} code msg (m : outcome (option A)) x : m = Ok (Some x) → need code msg m = Ok x.
Proof. by intros ->. Qed.

Lemma readParamTypes_wire longDataSize args T ts V payload pos s before after :
  argsWire longDataSize args T ts V → buffer payload → at_ payload pos T →
  ParamsType s = before ++ after → length after = length args →
  readParamTypes (length args) (length before) payload pos s = (setParamsType (before ++ ts) s, Ok (pos + len T)).
Proof.
  intros H Hb. assert (∀ typ flag t T pos s before after n rest r,
    MySQLToType typ flag = Ok t → at_ payload pos ([typ; flag] ++ T) → ParamsType s = before ++ after → length after = S n →
    (∀ after', length after' = n → at_ payload (pos + 2) T →
      readParamTypes n (length (before ++ [t])) payload (pos + 2) (setParamsType ((before ++ [t]) ++ after') s)
      = (setParamsType ((before ++ [t]) ++ rest) (setParamsType ((before ++ [t]) ++ after') s), r)) →
    readParamTypes (S n) (length before) payload pos s = (setParamsType (before ++ t :: rest) s, r)) as step.
  { intros typ flag t T0 p s0 before0 after0 n rest r Ht Ha Es El Hrec. apply at_app in Ha as [Ha1 Ha2]. change (len [typ; flag]) with 2 in Ha2.
    apply (at_app _ _ [typ] [flag]) in Ha1 as [Hx Hy]. change (len [typ]) with 1 in Hy.
    cbn [readParamTypes]. unfold mbind, SM_bind, liftS, getS, modifyS.
    rewrite (need_some _ _ _ _ (reads_byte payload p Hb typ Hx)). change (len [typ]) with 1. cbn [snd fst].
    rewrite (need_some _ _ _ _ (reads_byte payload (p + 1) Hb flag Hy)). change (len [flag]) with 1. cbn [snd fst]. rewrite Ht, Es.
    destruct after0 as [|x after0]; [done|]. rewrite (proj2 (Nat.ltb_lt _ _)) by (rewrite length_app; simpl; lia).
    rewrite insert_app_r_alt by lia. rewrite Nat.sub_diag. cbn [insert list_insert].
    replace (before0 ++ t :: after0) with ((before0 ++ [t]) ++ after0) by (by rewrite <- app_assoc).
    replace (S (length before0)) with (length (before0 ++ [t])) by (rewrite length_app; simpl; lia).
    replace (p + 1 + 1) with (p + 2) by lia. rewrite Hrec; [|by injection El|done].
    unfold setParamsType. simpl. by rewrite <- app_assoc. }
  revert pos s before after. induction H as [|args T ts V _ IH|a args typ flag t b T ts V (_ & Ht & _) _ IH];
    intros pos s before after Ha Es El; cbn [length] in *.
  - destruct after; [|done]. cbn [readParamTypes]. change (len []) with 0. rewrite Z.add_0_r.
    unfold setParamsType. rewrite <- Es. by destruct s.
  - rewrite len_app. change (len [FieldTypeNULL; 0]) with 2. apply (step FieldTypeNULL 0 FieldTypeNULL T pos s before after); try done.
    intros after' El' Ha'. rewrite (IH (pos + 2) _ _ after'); [by rewrite Z.add_assoc|done..].
  - rewrite len_app. change (len [typ; flag]) with 2. apply (step typ flag t T pos s before after); try done.
    intros after' El' Ha'. rewrite (IH (pos + 2) _ _ after'); [by rewrite Z.add_assoc|done..].
Qed.

(** The arguments bound from the [i]th on. *)
Fixpoint bindAll (i : nat) (vs : list cell) (m : gmap string cell) : gmap string cell :=
  match vs with [] => m | v :: vs => bindAll (S i) vs (<[parameterID i := v]> m) end.

Lemma maskBit_land mask i m :
  mask !! Z.to_nat (Z.of_nat i / 8) = Some m →
  (Z.land m (u8 (Z.shiftl 1 (Z.of_nat i mod 8))) >? 0) = maskBit mask (Z.of_nat i).
Proof.
  intros Hm. unfold maskBit. rewrite Hm.
  set (k := Z.of_nat i mod 8). assert (0 ≤ k < 8) as Hk by (apply Z.mod_pos_bound; lia).
  rewrite (wrapU_id 8 (Z.shiftl 1 k)).
  2:{ rewrite Z.shiftl_1_l. split; [apply Z.pow_nonneg; lia|]. apply Z.pow_lt_mono_r; lia. }
  rewrite Z.shiftl_1_l. rewrite Z.land_comm. destruct (Z.testbit m k) eqn:E.
  - apply Z.gtb_lt. apply Z.le_neq. split; [apply Z.land_nonneg; left; apply Z.pow_nonneg; lia|]. intros H0.
    apply (f_equal (λ z, Z.testbit z k)) in H0. rewrite Z.land_spec, Z.pow2_bits_true, E, Z.bits_0 in H0 by lia. done.
  - rewrite Z.gtb_ltb. apply Z.ltb_ge. enough (Z.land (2 ^ k) m = 0) as -> by done. apply Z.bits_inj'. intros j Hj.
    rewrite Z.land_spec, Z.bits_0. destruct (decide (j = k)) as [->|Hne]; [by rewrite E, andb_false_r|]. by rewrite Z.pow2_bits_false.
Qed.

Lemma readParams_wire longDataSize args T ts V payload bitMap pos i s :
  argsWire longDataSize args T ts V → buffer payload → at_ payload pos V →
  Z.of_nat (i + length args) ≤ 8 * Z.of_nat (length bitMap) →
  (∀ k, maskBit bitMap (Z.of_nat (i + k)) = nullArg args k) →
  (∀ k, (k < length args)%nat → ParamsType s !! (i + k)%nat = ts !! k) →
  (∀ j, (i ≤ j)%nat → BindVars s !! parameterID j = None) →
  readParams (length args) i payload bitMap pos s = (setBindVars (bindAll i (map deliveredArg args) (BindVars s)) s, Ok tt).
Proof.
  intros H Hb. revert pos i s. induction H as [|args T ts V _ IH|a args typ flag t b T ts V (_ & _ & _ & Hparse) _ IH];
    intros pos i s Ha Hl Hbits Hts Hnone; cbn [length readParams] in *.
  { cbn [map bindAll]. unfold setBindVars. by destruct s. }
  all: unfold mbind, SM_bind, liftS, getS, modifyS; rewrite (Hnone i) by lia.
  all: assert (0 ≤ Z.of_nat i / 8 < Z.of_nat (length bitMap)) as Hq by (split; [apply Z.div_pos|apply Z.div_lt_upper_bound]; lia).
  all: destruct (lookup_lt_is_Some_2 bitMap (Z.to_nat (Z.of_nat i / 8))) as [m Hm]; [lia|].
  all: unfold load at 1; rewrite (proj2 (Z.ltb_ge _ 0)) by lia; rewrite Hm, (maskBit_land _ _ _ Hm).
  all: pose proof (Hts 0%nat ltac:(lia)) as Ht0; rewrite Nat.add_0_r in Ht0; rewrite Ht0; cbn [lookup list_lookup].
  all: pose proof (Hbits 0%nat) as Hb0; rewrite Nat.add_0_r in Hb0; rewrite Hb0.
  - change (nullArg (None :: args) 0) with true. cbv iota. change (parseStmtArgs [] FieldTypeNULL pos) with (Ok (A := option (cell * Z)) (Some (None, pos))).
    cbv iota beta. rewrite IH; [done|done|lia| | |].
    + intros k. rewrite Nat.add_succ_comm. apply (Hbits (S k)).
    + intros k Hk. rewrite Nat.add_succ_comm. apply (Hts (S k)). lia.
    + intros j Hj. simpl. rewrite lookup_insert_ne; [apply Hnone; lia|]. intros ->%parameterID_inj. lia.
  - change (nullArg (Some a :: args) 0) with false. cbv iota. apply at_app in Ha as [Ha1 Ha2].
    rewrite (Hparse payload pos Hb Ha1). cbv iota beta. rewrite IH; [done|done|lia| | |].
    + intros k. rewrite Nat.add_succ_comm. apply (Hbits (S k)).
    + intros k Hk. rewrite Nat.add_succ_comm. apply (Hts (S k)). lia.
    + intros j Hj. simpl. rewrite lookup_insert_ne; [apply Hnone; lia|]. intros ->%parameterID_inj. lia.
Qed.

Lemma bindAll_lookup_lt i vs m j : (j < i)%nat → bindAll i vs m !! parameterID j = m !! parameterID j.
Proof.
  revert i m. induction vs as [|v vs IH]; intros i m Hj; [done|]. simpl. rewrite IH by lia.
  apply lookup_insert_ne. intros ->%parameterID_inj. lia.
Qed.

Lemma bindAll_lookup i vs m k v : vs !! k = Some v → bindAll i vs m !! parameterID (i + k) = Some v.
Proof.
  revert i m k. induction vs as [|w vs IH]; intros i m [|k] H; simpl in *; try done.
  - injection H as ->. rewrite Nat.add_0_r, bindAll_lookup_lt by lia. apply lookup_insert_eq.
  - rewrite <- Nat.add_succ_comm. by apply IH.
Qed.

Lemma bindAll_keys i vs m :
  (∀ j, (i ≤ j)%nat → m !! parameterID j = None) →
  (map_to_list (bindAll i vs m)).*1 ≡ₚ (map_to_list m).*1 ++ (parameterID <$> seq i (length vs)).
Proof.
  revert i m. induction vs as [|v vs IH]; intros i m Hnone; simpl; [by rewrite app_nil_r|].
  rewrite IH.
  - rewrite map_to_list_insert by (by apply Hnone). simpl. by rewrite <- Permutation_middle.
  - intros j Hj. rewrite lookup_insert_ne; [apply Hnone; lia|]. intros ->%parameterID_inj. lia.
Qed.

(** The values in the order of the keys that are sorted. *)
Lemma GetArgs_bound s vs :
  BindVars s = bindAll 0 vs ∅ →
  GetArgs s = (λ k, default None (bindAll 0 vs ∅ !! k)) <$> sort_Strings (parameterID <$> seq 0 (length vs)).
Proof.
  intros E. unfold GetArgs. rewrite E. pose proof (bindAll_keys 0 vs ∅ (λ _ _, lookup_empty _)) as Hk.
  rewrite map_to_list_empty in Hk. simpl in Hk. rewrite (sort_Strings_eq _ _ Hk).
  assert (size (bindAll 0 vs ∅) = length vs) as ->; [|by destruct vs].
  rewrite <- length_map_to_list, <- (length_fmap fst), Hk, length_fmap, length_seq. done.
Qed.

(** Up to nine keys are sorted in the order of their numbers. *)
Lemma in_order vs n :
  length vs = n → (n ≤ 9)%nat → ((λ k, default None (bindAll 0 vs ∅ !! k)) <$> sort_Strings (parameterID <$> seq 0 n)) = vs.
Proof.
  intros El Hn. assert (sort_Strings (parameterID <$> seq 0 n) = parameterID <$> seq 0 n) as ->.
  { do 10 (destruct n as [|n]; [by vm_compute|]). lia. }
  apply list_eq. intros j. rewrite !list_lookup_fmap. destruct (decide (j < n)%nat) as [Hj|Hj].
  - rewrite lookup_seq_lt by done. cbn [fmap option_fmap option_map]. destruct (lookup_lt_is_Some_2 vs j) as [v Hv]; [lia|].
    rewrite (bindAll_lookup 0 vs ∅ j v Hv). by rewrite Hv.
  - rewrite lookup_seq_ge, lookup_ge_None_2 by lia. done.
Qed.

(** *** The packet *)

(** The packet that executes a statement. *)
Definition executePayload (id : Z) (args : list cell) (mask T V : bytes) : bytes :=
  [ComStmtExecute] ++ concat ([littleEndian 4 id; [0]; littleEndian 4 1] ++ (match args with [] => [] | _ => [mask; [1]; T; V] end)).

Lemma executePayload_cons id a args mask T V :
  ([ComStmtExecute] ++ littleEndian 4 id ++ [0] ++ [1; 0; 0; 0]) ++ mask ++ [1] ++ T ++ V = executePayload id (a :: args) mask T V.
Proof.
  unfold executePayload. change (littleEndian 4 1) with [1; 0; 0; 0].
  cbn [app concat]. rewrite app_nil_r. rewrite <- app_assoc. done.
Qed.

Lemma executePayload_nil id mask T V : [ComStmtExecute] ++ littleEndian 4 id ++ [0] ++ [1; 0; 0; 0] = executePayload id [] mask T V.
Proof. done. Qed.

Lemma slice_payload b bs : slice (b :: bs) 1 (len (b :: bs)) = Ok bs.
Proof.
  unfold slice. rewrite len_cons. pose proof (len_nonneg bs). destruct (Z.leb_spec 0 1), (Z.leb_spec 1 (1 + len bs)); try lia.
  rewrite Z.leb_refl. simpl. rewrite drop_0, take_ge; [done|]. unfold len. lia.
Qed.

Lemma parse_execute longDataSize id args mask T ts V s stmts :
  inU 32 id → stmts !! id = Some s → ParamsCount s = Z.of_nat (length args) → length (ParamsType s) = length args →
  Z.of_nat (length args) ≤ 65528 → BindVars s = ∅ → argsWire longDataSize args T ts V →
  Z.of_nat (length mask) = (Z.of_nat (length args) + 7) / 8 → (∀ k, maskBit mask (Z.of_nat k) = nullArg args k) →
  parseComStmtExecute stmts (executePayload id args mask T V)
  = (<[id := setBindVars (bindAll 0 (map deliveredArg args) ∅) (setParamsType ts s)]> stmts, id, Ok 0).
Proof.
  intros Hid Hs Hn Hty Hmax Hb Haw Hmask Hbits. destruct (argsWire_sizes _ _ _ _ _ Haw) as (El & ElT & ElV).
  unfold parseComStmtExecute, executePayload. change ([ComStmtExecute] ++ ?x) with (ComStmtExecute :: x). rewrite slice_payload.
  set (fields := _ ++ _). set (payload := concat fields).
  assert (buffer payload) as Hbuf.
  { unfold buffer, payload, fields. pose proof (len_nonneg mask). assert (len mask ≤ 2 ^ 20) by (unfold len; rewrite Hmask; apply Z.div_le_upper_bound; lia).
    destruct args; cbn [app]; repeat rewrite len_concat_cons; rewrite ?length_littleEndian; change (len (concat [])) with 0;
      change (len [0]) with 1; change (len [1]) with 1; lia. }
  pose proof (fieldsAt_concat fields) as Hf. fold payload in Hf. unfold fields in Hf. cbn [app fieldsAt] in Hf.
  destruct Hf as (Fid & Fcur & Fit & Frest). cbn [mbind outcome_bind].
  rewrite (reads_uint32 payload 0 Hbuf id Fid Hid). cbn [mbind outcome_bind]. rewrite Hs.
  assert (parseExecution payload (0 + len (littleEndian 4 id)) s =
    (setBindVars (bindAll 0 (map deliveredArg args) ∅) (setParamsType ts s), Ok 0)) as ->; [|done].
  unfold parseExecution, mbind, SM_bind, liftS, getS.
  rewrite (need_some _ _ _ _ (reads_byte payload _ Hbuf 0 Fcur)). cbn [fst snd].
  rewrite (need_some _ _ _ _ (reads_uint32 payload _ Hbuf 1 Fit ltac:(done))). cbn [fst snd]. change (negb (1 =? 1)) with false. cbv iota beta.
  set (p := _ + len (littleEndian 4 1)) in *. rewrite Hn.
  destruct args as [|a args].
  - inversion Haw; subst. change (Z.of_nat (length []) >? 0) with false. cbv iota beta. cbn [fst snd].
    unfold bindParams, mbind, SM_bind, liftS, getS. destruct Frest as (Hp0 & Hp1).
    assert (p = len payload) as Ep. { unfold p, payload, fields. cbn [app]. repeat rewrite len_concat_cons. change (len (concat [])) with 0. lia. }
    unfold readByte. rewrite Ep. destruct (Z.geb_spec (len payload) (len payload)); [|lia]. cbv iota beta.
    rewrite Hty. cbn [length readParams map bindAll]. unfold setParamsType, setBindVars. cbn [StatementID PrepareStmt ParamsCount ParamsType BindVars].
    apply length_zero_iff_nil in Hty. unfold mret, SM_ret. f_equal. destruct s; simpl in *; by subst.
  - destruct Frest as (Fm & Ffl & FT' & FV & _). destruct (Z.gtb_spec (Z.of_nat (length (a :: args))) 0) as [_|Hneg]; [|simpl in Hneg; lia].
    rewrite (wrapU_id 16) by (unfold inU; lia).
    rewrite (need_some _ _ _ _ (reads_bytes payload p Hbuf _ mask Fm ltac:(unfold len; exact Hmask))). cbn [fst snd].
    unfold bindParams, mbind, SM_bind, liftS, getS. rewrite (reads_byte payload _ Hbuf 1 Ffl). cbv iota beta. change (1 =? 1) with true. cbv iota.
    rewrite Hn, Nat2Z.id.
    pose proof (readParamTypes_wire longDataSize (a :: args) T ts V payload _ s [] (ParamsType s) Haw Hbuf FT' eq_refl Hty) as Et.
    change (length (A := Z) []) with 0%nat in Et. change ([] ++ ts) with ts in Et. rewrite Et. cbv iota beta. rewrite Hty.
    rewrite (readParams_wire longDataSize (a :: args) T ts V payload mask _ 0 _ Haw Hbuf FV); [|cbn [Nat.add]|exact Hbits|done|].
    + cbn [BindVars setParamsType]. rewrite Hb. done.
    + rewrite Hmask. pose proof (Z.mod_pos_bound (Z.of_nat (length (a :: args)) + 7) 8 ltac:(lia)).
      pose proof (Z.div_mod (Z.of_nat (length (a :: args)) + 7) 8 ltac:(lia)). lia.
    + intros j _. cbn [BindVars setParamsType]. by rewrite Hb.
Qed.

(** The length from which a text is sent apart. *)
Definition longSize (MaxAllowedPacket : Z) (args : list cell) : Z :=
  Z.max 64 (Z.quot MaxAllowedPacket (Z.of_nat (length args) + 1)).

Lemma longSize_bound MaxAllowedPacket args : 0 ≤ MaxAllowedPacket ≤ 2 ^ 40 → longSize MaxAllowedPacket args ≤ 2 ^ 40.
Proof.
  intros H. unfold longSize. apply Z.max_lub; [lia|]. etransitivity; [|apply H].
  rewrite Z.quot_div_nonneg by lia. apply Z.div_le_upper_bound; [lia|]. nia.
Qed.

Lemma writeExecutePacket_wire bufPool MaxAllowedPacket stmt args T ts V c :
  idle c → Z.of_nat (length args) = bs_paramCount stmt → argsWire (longSize MaxAllowedPacket args) args T ts V →
  ∃ mask wire s', packets 0 wire (executePayload (bs_id stmt) args mask T V) s' ∧
    writeExecutePacket bufPool MaxAllowedPacket stmt args c = (sent wire s' c, Ok tt) ∧
    Z.of_nat (length mask) = (Z.of_nat (length args) + 7) / 8 ∧ (∀ k, maskBit mask (Z.of_nat k) = nullArg args k).
Proof.
  intros [(Hq & Hh & Hp) _] Hn Haw. set (zeros := replicate (Z.to_nat ((Z.of_nat (length args) + 7) / 8)) 0).
  assert (Z.of_nat (length zeros) = (Z.of_nat (length args) + 7) / 8) as Hz.
  { unfold zeros. rewrite length_replicate, Z2Nat.id; [done|]. apply Z.div_pos; lia. }
  set (c1 := setEphemeral ephemeralWrite (Some (bufPool (if (length args =? 0)%nat then 14 else MaxPacketSize))) (setSequence 0 c)).
  destruct (encodeArgs_wire MaxAllowedPacket (longSize MaxAllowedPacket args) stmt args T ts V 0 zeros [] [] c1)
    as (mask & E & Hl & _ & Hbits); [done| |by intros; apply maskBit_zeros|].
  { rewrite Hz. cbn [Nat.add]. pose proof (Z.mod_pos_bound (Z.of_nat (length args) + 7) 8 ltac:(lia)).
    pose proof (Z.div_mod (Z.of_nat (length args) + 7) 8 ltac:(lia)). lia. }
  assert (∀ data, ∃ wire s', packets 0 wire data s' ∧ deferring (writePacket data) recycleWritePacket c1 = (sent wire s' c, Ok tt)) as Hsend.
  { intros data. destruct (writePacket_packets data c1) as (wire & s' & Hw & Ew); [done..|]. exists wire, s'. split; [done|].
    unfold deferring. rewrite Ew. done. }
  assert (writeExecutePacket bufPool MaxAllowedPacket stmt args c =
    deferring (writePacket (executePayload (bs_id stmt) args mask T V)) recycleWritePacket c1) as Es.
  { unfold writeExecutePacket. rewrite <- Hn, Z.eqb_refl. cbn [negb]. fold (longSize MaxAllowedPacket args).
    unfold startEphemeralPacket, modify, get, mbind, M_bind. cbn [setSequence currentEphemeralPolicy]. rewrite Hp. cbn [negb bool_decide].
    rewrite bool_decide_true by done. cbn [negb]. fold c1. fold zeros.
    unfold mret, M_ret. cbv iota beta. destruct args as [|a args]; [by rewrite <- executePayload_nil|].
    rewrite <- executePayload_cons. unfold deferring. rewrite E. change ([] ++ T) with T. change ([] ++ V) with V. reflexivity. }
  destruct (Hsend (executePayload (bs_id stmt) args mask T V)) as (wire & s' & Hw & Ew). exists mask, wire, s'.
  split; [done|]. split; [by rewrite Es|]. split; [lia|exact Hbits].
Qed.

End Wire.

(** C40: Ten arguments reach the executor in another order than they were
    given: the keys v1 to v10 are sorted as strings, so the tenth value comes
    second. *)
Theorem ten_arguments_reordered s vs :
  length vs = 10%nat → BindVars s = bindAll 0 vs ∅ → GetArgs s = take 1 vs ++ drop 9 vs ++ take 8 (drop 1 vs).
Proof.
  intros El Hb. rewrite (GetArgs_bound s vs Hb), El.
  replace (sort_Strings (parameterID <$> seq 0 10)) with (parameterID <$> [0; 9; 1; 2; 3; 4; 5; 6; 7; 8]%nat) by (by vm_compute).
  do 10 (destruct vs as [|? vs]; [done|]). destruct vs; [|done]. cbn [fmap list_fmap take drop app].
  repeat f_equal; match goal with |- default None (bindAll 0 ?l ∅ !! parameterID ?k) = ?v =>
    by rewrite (bindAll_lookup 0 l ∅ k v eq_refl) end.
Qed.

(** An argument sent apart is framed wrongly: the packet starts with the
    four bytes reserved for its header, so that the server reads command 0
    instead of COM_STMT_SEND_LONG_DATA, and what follows is moved by four. *)
Theorem long_data_misframed MaxAllowedPacket stmt paramID arg c :
  arg ≠ [] → MaxAllowedPacket ≤ 2 ^ 40 → longDataOffset + len arg < MaxAllowedPacket - 1 → quota c = None → healthy c = true →
  ∃ wire s', packets 0 wire ([0; 0; 0; 0] ++ [ComStmtSendLongData] ++ littleEndian 4 (bs_id stmt) ++ littleEndian 2 paramID ++ arg) s' ∧
    writeCommandLongData MaxAllowedPacket stmt paramID arg c = (setSequence 0 (setOutgoing (outgoing c ++ wire) None c), Ok tt).
Proof.
  intros Hne Hmap Hl Hq Hh. assert (0 < len arg) as Hpos by (unfold len; destruct arg; [done|simpl; lia]).
  set (head := [ComStmtSendLongData] ++ littleEndian 4 (bs_id stmt) ++ littleEndian 2 paramID).
  set (data := replicate 4 0 ++ head ++ arg). assert (len head = 7) as E7.
  { unfold head. by rewrite !len_app, !length_littleEndian. }
  assert (len data = 11 + len arg) as El by (unfold data; rewrite !len_app, E7; change (len (replicate 4 0)) with 4; lia).
  assert (storeAll (replicate 11 0 ++ arg) 4 head = Ok data) as Est.
  { assert (len (replicate 11 0 ++ arg) = 11 + len arg) as E11 by (by rewrite len_app). unfold longDataOffset in Hl.
    rewrite storeAll_splice; [|unfold buffer; lia|lia|lia]. unfold splice. rewrite E7. done. }
  destruct (writePacket_packets data (setSequence 0 c)) as (wire & s' & Hw & Ew); [done..|]. exists wire, s'. split; [exact Hw|].
  unfold writeCommandLongData. unfold mbind, M_bind. cbn [longDataLoop].
  rewrite (proj2 (Z.gtb_lt (len arg) 0)) by done. cbn [negb]. rewrite (proj2 (Z.ltb_lt _ _)) by done.
  unfold mbind, M_bind, modify, lift. fold head. rewrite Est.
  assert (4 + (longDataOffset + len arg) = len data) as -> by (rewrite El; unfold longDataOffset; lia). rewrite slice_all, Ew.
  assert (slice data (longDataOffset + len arg - longDataOffset) (len data) = Ok (drop (length arg) data)) as ->.
  { unfold slice. destruct (Z.leb_spec 0 (longDataOffset + len arg - longDataOffset)), (Z.leb_spec (longDataOffset + len arg - longDataOffset) (len data)); try lia.
    rewrite Z.leb_refl. simpl. f_equal. rewrite take_ge; [f_equal; unfold len; lia|]. rewrite length_drop. unfold len in *. lia. }
  replace (len arg - (longDataOffset + len arg - longDataOffset)) with 0 by lia. by destruct arg.
Qed.

Module StatementExamples.
Import NoDates NoFloats ExactDecimal MixedCalendar.

Definition hits : list cell := [Some (int64Value (-5)); None; Some (stringValue "x"); Some (uint64Value (2 ^ 64 - 1)); Some (boolValue true)].
Definition backend : BackendStatement := mkBackendStatement 7 5 [].
Definition kept : Stmt := mkStmt 7 [] 5 [0; 0; 0; 0; 0] ∅.
Definition registered : gmap Z Stmt := {[7 := kept]}.
Definition packet : bytes :=
  [0x17] ++ littleEndian 4 7 ++ [0; 1; 0; 0; 0] ++ [2] ++ [1] ++ [8; 0; 6; 0; 254; 0; 8; 128; 1; 0] ++
  littleEndian 8 (2 ^ 64 - 5) ++ [1; 120] ++ littleEndian 8 (2 ^ 64 - 1) ++ [1].
Definition numbers : list cell := map (λ n, Some (int64Value (Z.of_nat n))) (seq 1 10).

Lemma execution_types_witness :
  let r := parseComStmtExecute registered packet in
  match r.1.1 !! 7 with Some s => typed s | None => False end.
Proof.
  cbv zeta. assert (bool_decide (is_Some ((parseComStmtExecute registered packet).1.1 !! 7)) = true) as Hsome by (vm_compute; reflexivity).
  apply bool_decide_eq_true in Hsome. revert Hsome.
  assert (map_Forall (λ _ s, StmtOK s ∧ BindVars s = ∅) registered) as Hwf.
  { apply map_Forall_singleton. split; [split; [vm_compute; split; congruence|reflexivity]|reflexivity]. }
  pose proof (λ stmts' id o, execution_types registered packet stmts' id o Hwf) as H. revert H.
  generalize (parseComStmtExecute registered packet). intros [[stmts' id] o] H. cbn [fst]. intros [s Hs].
  destruct (H stmts' id o eq_refl) as (_ & Htyped & _). rewrite Hs. destruct (Htyped 7 s Hs) as (_ & _ & _ & _ & Ht). exact Ht.
Defined.


Lemma ten_arguments_reordered_witness :
  GetArgs (setBindVars (bindAll 0 numbers ∅) kept) = Some <$> (int64Value <$> [1; 10; 2; 3; 4; 5; 6; 7; 8; 9]).
Proof. exact (ten_arguments_reordered (setBindVars (bindAll 0 numbers ∅) kept) numbers eq_refl eq_refl). Defined.

Lemma long_data_misframed_witness :
  ∃ wire s', packets 0 wire ([0; 0; 0; 0; 24] ++ littleEndian 4 7 ++ littleEndian 2 1 ++ [65; 66]) s' ∧
    writeCommandLongData 1000 backend 1 [65; 66] freshConn = (setSequence 0 (setOutgoing wire None freshConn), Ok tt).
Proof. exact (long_data_misframed 1000 backend 1 [65; 66] freshConn ltac:(done) ltac:(lia) ltac:(by vm_compute) eq_refl eq_refl). Defined.
End StatementExamples.
