(* ===== verification/Commands.v ===== *)
(** * The command loop: [pkg/mysql/server.go] ([handle], [ExecuteCommand]),
    [pkg/mysql/execute_handle.go], the interface [Executor] of
    [pkg/proto/interface.go]

    A listener serves a connection: it logs the client in, then reads one
    command after the other and hands it to a handler.  What runs the queries
    is an instance of the class [Executor]. *)
From S2P Require Import Prelude GoStd Value Encoding Packet Row MysqlText RowCodec Auth Handshake ResultSet Statement.

Definition ComQuery : Z := 0x03.
Definition ComFieldList : Z := 0x04.
Definition ERNoDb : Z := 1046.
Definition ERUnknownComError : Z := 1047.
Definition ERBadNullError : Z := 1048.
Definition ERBadDb : Z := 1049.
Definition ERParseError : Z := 1064.
Definition EREmptyQuery : Z := 1065.
Definition SSUnknownComError : bytes := text "08S01".
Definition SSNoDatabaseSelected : bytes := text "3D000".
Definition SS42000 : bytes := text "42000".

(** ** The executor *)

(** The connection an executor sees, a [proto.FrontConn]. *)
Record Front := mkFront { fr_server : Server; fr_variables : gmap string cell }.

Definition onFront {A} (m : SM Server A) : SM Front A := λ f,
  let '(s, r) := m (fr_server f) in (mkFront s (fr_variables f), r).

Definition frontSchema (f : Front) : bytes := Schema (sv_conn (fr_server f)).
Definition frontTenant (f : Front) : bytes := sv_tenant (fr_server f).
Definition frontID (f : Front) : Z := sv_connectionID (fr_server f).

Definition SetSchema (schema : bytes) (f : Front) : Front :=
  mkFront (setConn (setSchema schema (sv_conn (fr_server f))) (fr_server f)) (fr_variables f).
Definition SetTransientVariables (v : gmap string cell) (f : Front) : Front := mkFront (fr_server f) v.

(** The columns and the answers of [Next] of a dataset. *)
Record DatasetAnswer := mkDatasetAnswer { da_fields : list ColumnDef; da_rows : list (outcome (outcome bytes)) }.

(** A result: its dataset, and the counts of one that has none. *)
Record Answer := mkAnswer { an_dataset : outcome (option DatasetAnswer); an_affected : Z; an_insertID : Z }.

(** The arguments of the callback of a query. *)
Record composite := mkComposite { cr_result : option Answer; cr_warns : Z; cr_failure : option error }.

(** [E] is the state of the executor.  A query calls back with each of its
    results; the callback has a state [S] of its own. *)
Class Executor (E : Type) := {
  ExecuteUseDB : bytes → SM (E * Front) unit;
  ExecuteFieldList : bytes → SM (E * Front) (list ColumnDef);
  ExecutorComQuery {S : Type} : bytes → (composite → SM (Front * S) unit) → SM (E * (Front * S)) unit;
  ExecutorComStmtExecute : Stmt → SM (E * Front) (option Answer * Z);
  ConnectionClose : SM (E * Front) unit;
}.

(** ** Statements *)

(** The statements of a listener and the counter of their identifiers. *)
Record Statements := mkStatements { statementID : Z; stmts : gmap Z Stmt }.

(** [strings.Count(query, "?")]. *)
Definition countPlaceholders (query : bytes) : Z := Z.of_nat (count_occ Z.eq_dec query 63).

(** The statement kept for a query that parses. *)
Definition newStmt (id : Z) (query : bytes) : Stmt :=
  let paramsCount := wrapU 16 (countPlaceholders query) in
  if paramsCount >? 0 then mkStmt id query paramsCount (replicate (Z.to_nat paramsCount) 0) ∅ else mkStmt id query 0 [] ∅.

(** [fmt.Sprintf("%v", data)]. *)
Definition formatBytes (data : bytes) : string := "[" ++ String.concat " " (FormatInt <$> data) ++ "]".

(** ** Handlers *)

Section Handlers.
Context {FT : FloatText} {DC : DecimalLib} {E : Type} {X : Executor E} {I : MapIter}.
Context (bufPool : Z → bytes) (tm : simpleTenantManager).

(** The parser and the hints of a statement: the outcome of each. *)
Context (ParseOneStmt : bytes → outcome (list (outcome unit))).

(** A connection with the listener's statements and its executor. *)
Record Serving := mkServing { sg_front : Front; sg_statements : Statements; sg_executor : E }.

Definition onWire {A} (m : M A) : SM Serving A := λ s,
  let '(f, r) := onFront (onConn m) (sg_front s) in (mkServing f (sg_statements s) (sg_executor s), r).

Definition onExecutor {A} (m : SM (E * Front) A) : SM Serving A := λ s,
  let '(e, f, r) := m (sg_executor s, sg_front s) in (mkServing f (sg_statements s) e, r).

Definition setStatements (st : Statements) (s : Serving) : Serving := mkServing (sg_front s) st (sg_executor s).

Definition capabilitiesOf (s : Serving) : Z := sv_capabilities (fr_server (sg_front s)).
Definition statusOf (s : Serving) : Z := sv_statusFlags (fr_server (sg_front s)).

Definition writeFailure (e : error) : M unit := writeErrorPacketFromError bufPool (reported e).

(** [c.writeOKPacket(0, 0, c.StatusFlags, 0)]. *)
Definition writeDone : SM Serving unit := s ← getS; onWire (writeOKPacket bufPool 0 0 (statusOf s) 0).

Definition handleInitDB (data : bytes) : SM Serving unit :=
  db ← liftS (slice data 1 (len data));
  _ ← onWire recycleReadPacket;
  s ← getS;
  if negb (bool_decide (db ∈ GetClusters tm (frontTenant (sg_front s))))
  then onWire (writeFailure (NewSQLError ERBadDb SS42000 (text "Unknown database '" ++ db ++ text "'")))
  else _ ← onExecutor (ExecuteUseDB db); writeDone.

(** The columns, the rows and the end of a result. *)
Definition writeResultSet (caps status : Z) (write : list (outcome (outcome bytes)) → M unit) (ds : DatasetAnswer)
    (hasMore : bool) (warn : Z) : M unit :=
  _ ← writeColumnList bufPool caps status (da_fields ds);
  _ ← write (da_rows ds);
  writeEndResult bufPool caps status hasMore 0 0 warn.

(** The answer to one statement of a query. *)
Definition handleOnce (caps status : Z) (r : composite) (hasMore : bool) : M unit :=
  match cr_failure r, cr_result r with
  | Some failure, _ => writeFailure failure
  | None, None => writeFailure (NewSQLError ERBadNullError SSUnknownSQLState (text "un dataset"))
  | None, Some result =>
      match an_dataset result with
      | Err failure => writeFailure failure
      | Ok None =>
          writeOKPacket bufPool (an_affected result) (an_insertID result)
            (if hasMore then Z.lor status ServerMoreResultsExists else status) (cr_warns r)
      | Ok (Some ds) => writeResultSet caps status (writeDataset bufPool) ds hasMore (cr_warns r)
      | Panic => lift Panic
      | OutOfFuel => lift OutOfFuel
      end
  end.

(** [handleOnce] of the result that is held back, if there is one. *)
Definition flushPrev (hasMore : bool) : SM (Front * option composite) unit := λ fp,
  match fp.2 with
  | None => (fp, Ok tt)
  | Some prev =>
      let s := fr_server fp.1 in
      let '(f, r) := onFront (onConn (handleOnce (sv_capabilities s) (sv_statusFlags s) prev hasMore)) fp.1 in ((f, Some prev), r)
  end.

Definition queryCallback (r : composite) : SM (Front * option composite) unit :=
  _ ← flushPrev true; modifyS (λ fp, (fp.1, Some r)).

Definition runQuery (data : bytes) : SM Serving unit := λ s,
  let '((e, fp), r) := ExecutorComQuery data queryCallback (sg_executor s, (sg_front s, None)) in
  match r with
  | Ok _ => let '(fp, r) := flushPrev false fp in (mkServing fp.1 (sg_statements s) e, r)
  | _ => (mkServing fp.1 (sg_statements s) e, r)
  end.

Definition handleQuery (data : bytes) : SM Serving unit := _ ← onWire recycleReadPacket; runQuery data.

(** The definitions of the columns one after the other. *)
Fixpoint defColumns (cs : list ColumnDef) : M bytes :=
  match cs with
  | [] => mret []
  | c :: cs => d ← DefColumnDefinition c; ds ← defColumns cs; mret (d ++ ds)
  end.

(** The executor's answer or its error as a value. *)
Definition catching {S A} (m : SM S A) : SM S (A + error) := λ s,
  match m s with
  | (s, Ok a) => (s, Ok (inl a))
  | (s, Err e) => (s, Ok (inr e))
  | (s, Panic) => (s, Panic)
  | (s, OutOfFuel) => (s, OutOfFuel)
  end.

(** After an error packet the list goes on with no columns. *)
Definition handleFieldList (data : bytes) : SM Serving unit :=
  _ ← onWire recycleReadPacket;
  r ← catching (onExecutor (ExecuteFieldList data));
  fields ← match r with
           | inl fields => mret fields
           | inr e => _ ← onWire (writeFailure e); mret []
           end;
  onWire (des ← defColumns fields; c ← get; eof ← lift (buildEOFPacket c 0 2); writePacketForFieldList (des ++ eof)).

(** [prepareStmt.BindVars = make(...)] of a statement that is there. *)
Definition forgetArgs (id : Z) : SM Serving unit :=
  modifyS (λ s, setStatements (mkStatements (statementID (sg_statements s)) (alter (setBindVars ∅) id (stmts (sg_statements s)))) s).

(** The statement of an execution: the identifier read, and the error or the
    cursor type as a value. *)
Definition bindStmt (data : bytes) : SM Serving (Z * (Z + error)) := λ s,
  let st := sg_statements s in
  let '(ss, id, r) := parseComStmtExecute (stmts st) data in
  let s := setStatements (mkStatements (statementID st) ss) s in
  match r with
  | Ok cursor => (s, Ok (id, inl cursor))
  | Err e => (s, Ok (id, inr e))
  | Panic => (s, Panic)
  | OutOfFuel => (s, OutOfFuel)
  end.

(** The answer to an execution: rows in the binary protocol. *)
Definition answerExecution (result : option Answer) (warn : Z) : SM Serving unit :=
  s ← getS;
  match result with
  | None => liftS Panic
  | Some result =>
      match an_dataset result with
      | Err e => onWire (writeFailure e)
      | Ok None => onWire (writeOKPacket bufPool (an_affected result) (an_insertID result) (statusOf s) warn)
      | Ok (Some ds) => onWire (writeResultSet (capabilitiesOf s) (statusOf s) (writeDatasetBinary bufPool) ds false warn)
      | Panic => liftS Panic
      | OutOfFuel => liftS OutOfFuel
      end
  end.

Definition runStmt (id : Z) (parsed : Z + error) : SM Serving unit :=
  match parsed with
  | inr e => onWire (writeFailure e)
  | inl _ =>
      s ← getS;
      match stmts (sg_statements s) !! id with
      | None => liftS Panic
      | Some stmt =>
          r ← catching (onExecutor (ExecutorComStmtExecute stmt));
          match r with
          | inr e => onWire (writeFailure e)
          | inl (result, warn) => answerExecution result warn
          end
      end
  end.

(** The arguments are forgotten on the way out. *)
Definition handleStmtExecute (data : bytes) : SM Serving unit :=
  parsed ← bindStmt data;
  _ ← onWire recycleReadPacket;
  deferringS (runStmt parsed.1 parsed.2) (if negb (parsed.1 =? 0) then forgetArgs parsed.1 else mret tt).

(** Hints that do not parse are answered, and the handling goes on. *)
Fixpoint reportHints (hints : list (outcome unit)) : M unit :=
  match hints with
  | [] => mret tt
  | Err e :: hints => _ ← writeFailure e; reportHints hints
  | _ :: hints => reportHints hints
  end.

(** After the error of the parser is sent, the statement, which is nil, is
    asked for its hints. *)
Definition handlePrepare (data : bytes) : SM Serving unit :=
  query ← liftS (slice data 1 (len data));
  _ ← onWire recycleReadPacket;
  s ← getS;
  let id := u32 (statementID (sg_statements s) + 1) in
  _ ← modifyS (setStatements (mkStatements id (stmts (sg_statements s))));
  match ParseOneStmt query with
  | Ok hints =>
      _ ← onWire (reportHints hints);
      let stmt := newStmt id query in
      _ ← modifyS (λ s, setStatements (mkStatements id (<[id := stmt]> (stmts (sg_statements s)))) s);
      onWire (writePrepare bufPool (capabilitiesOf s) (statusOf s) id (ParamsCount stmt))
  | Err e => _ ← onWire (writeFailure e); liftS Panic
  | Panic => liftS Panic
  | OutOfFuel => liftS OutOfFuel
  end.

Definition handleStmtReset (data : bytes) : SM Serving unit :=
  r ← liftS (readUint32 data 1);
  _ ← onWire recycleReadPacket;
  _ ← match r with Some (id, _) => forgetArgs id | None => mret tt end;
  writeDone.

(** [case mysql.ComStmtClose]: no answer. *)
Definition handleStmtClose (data : bytes) : SM Serving unit :=
  r ← liftS (readUint32 data 1);
  _ ← onWire recycleReadPacket;
  match r with
  | Some (id, _) =>
      modifyS (λ s, setStatements (mkStatements (statementID (sg_statements s)) (delete id (stmts (sg_statements s)))) s)
  | None => mret tt
  end.

Definition unhandled (data : bytes) : M unit :=
  writeErrorPacket bufPool ERUnknownComError SSUnknownComError (text "error handling packet: " ++ text (formatBytes data)).

Definition setFrontCapabilities (caps : Z) (s : Serving) : Serving :=
  let v := fr_server (sg_front s) in
  mkServing (mkFront (mkServer (sv_listener v) (sv_conn v) (sv_connectionID v) (sv_tenant v) caps (sv_characterSet v)
    (sv_serverVersion v) (sv_statusFlags v)) (fr_variables (sg_front s))) (sg_statements s) (sg_executor s).

(** The error packet at the end is sent in every case. *)
Definition handleSetOption (data : bytes) : SM Serving unit :=
  r ← liftS (readUint16 data 1);
  _ ← onWire recycleReadPacket;
  _ ← match r with
      | None => mret tt
      | Some (operation, _) =>
          s ← getS;
          _ ← (if operation =? 0
               then modifyS (setFrontCapabilities (Z.lor (capabilitiesOf s) CapabilityClientMultiStatements))
               else if operation =? 1
               then modifyS (setFrontCapabilities (Z.ldiff (capabilitiesOf s) CapabilityClientMultiStatements))
               else onWire (unhandled data));
          s ← getS;
          onWire (writeEndResult bufPool (capabilitiesOf s) (statusOf s) false 0 0 0)
      end;
  onWire (unhandled data).

(** ** The loop *)

(** A command that is not in the list is passed over, with its packet. *)
Definition ExecuteCommand (data : bytes) : SM Serving unit :=
  command ← liftS (load data 0);
  if command =? ComQuit then _ ← onWire recycleReadPacket; liftS (Err EOF)
  else if command =? ComInitDB then handleInitDB data
  else if command =? ComQuery then handleQuery data
  else if command =? ComPing then _ ← onWire recycleReadPacket; writeDone
  else if command =? ComFieldList then handleFieldList data
  else if command =? ComPrepare then handlePrepare data
  else if command =? ComStmtExecute then handleStmtExecute data
  else if command =? ComStmtClose then handleStmtClose data
  else if command =? ComStmtReset then handleStmtReset data
  else if command =? ComSetOption then handleSetOption data
  else mret tt.

Definition serveOne : SM Serving unit :=
  _ ← onWire (modify (setSequence 0));
  data ← onWire readEphemeralPacket;
  ExecuteCommand data.

(** Every turn reads the header of a packet at least. *)
Fixpoint serveLoop (fuel : nat) : SM Serving unit := λ s,
  match serveOne s with
  | (s, Ok _) => match fuel with O => (s, OutOfFuel) | S fuel => serveLoop fuel s end
  | r => r
  end.

Definition incomingOf (s : Serving) : bytes := incoming (sv_conn (fr_server (sg_front s))).

Definition serve : SM Serving unit := λ s, serveLoop (length (incomingOf s)) s.

(** [conn.Close()] and [executor.ConnectionClose] on the way out, also after
    a panic, which is recovered. *)
Definition closing : SM Serving unit := _ ← onWire Close; onExecutor ConnectionClose.

Definition handle (rand_Read : outcome bytes) : SM Serving unit := λ s,
  let '(v, r) := login bufPool tm rand_Read (fr_server (sg_front s)) in
  let s := mkServing (mkFront v (fr_variables (sg_front s))) (sg_statements s) (sg_executor s) in
  match r with
  | Ok true =>
      let '(s, r) := serve s in
      match r with OutOfFuel => (s, OutOfFuel) | _ => closing s end
  | OutOfFuel => (s, OutOfFuel)
  | _ => closing s
  end.
End Handlers.
