(* ===== verification/CommandsTheory.v ===== *)
(** * The command loop: theory

    The answers of the server to the commands of a client: one answer to each
    result of a query, two to COM_SET_OPTION, and none to a command it does
    not know, after which it gives the connection up. *)
From S2P Require Import Prelude GoStd Value Encoding Packet WireTheory Row MysqlText RowCodec RowTheory Auth Handshake HandshakeTheory ResultSet ResultSetTheory Statement Commands.

(** ** Operations on the wire *)

Section Wire.
Context {E : Type}.

Definition connOf (s : Serving (E := E)) : Conn := sv_conn (fr_server (sg_front s)).

(** The state with another connection. *)
Definition withConn (c : Conn) (s : Serving (E := E)) : Serving :=
  mkServing (mkFront (setConn c (fr_server (sg_front s))) (fr_variables (sg_front s))) (sg_statements s) (sg_executor s).

Lemma onWire_conn {A} (m : M A) s c r : m (connOf s) = (c, r) → onWire m s = (withConn c s, r).
Proof. unfold onWire, onFront, onConn, connOf, withConn. by intros ->. Qed.

Lemma withConn_withConn c c' s : withConn c (withConn c' s) = withConn c s.
Proof. done. Qed.

(** The connection after a packet was read and its buffer given back. *)
Lemma recycle_read c buf : recycleReadPacket (setEphemeral ephemeralRead buf c) = (setEphemeral ephemeralUnused None c, Ok tt).
Proof. unfold recycleReadPacket, mbind, M_bind, get. simpl. by destruct c. Qed.

End Wire.

Section Answers.
Context {FT : FloatText} {DC : DecimalLib} {E : Type} {X : Executor E} {I : MapIter}.
Context (bufPool : Z → bytes) (tm : simpleTenantManager) (ParseOneStmt : bytes → outcome (list (outcome unit))).

#[local] Notation turn := (serveOne bufPool tm ParseOneStmt).

(** The connection of a turn whose packet is read. *)
Definition reading (buf : option bytes) (n : Z) (tail : bytes) (c : Conn) : Conn :=
  setEphemeral ephemeralRead buf (setSequence n (setIncoming tail c)).

Lemma serveOne_reads s wire data n tail :
  packets 0 wire data n → incoming (connOf s) = wire ++ tail → currentEphemeralPolicy (connOf s) = ephemeralUnused →
  ∃ buf, turn s = ExecuteCommand bufPool tm ParseOneStmt data (withConn (reading buf n tail (connOf s)) s).
Proof.
  intros Hp Hin Hpol.
  destruct (readEphemeralPacket_packets 0 wire data n (setSequence 0 (connOf s)) tail Hp) as [buf Eb]; [done..|].
  exists buf. unfold serveOne, mbind, SM_bind. rewrite (onWire_conn _ s (setSequence 0 (connOf s)) (Ok tt)) by done.
  rewrite (onWire_conn readEphemeralPacket (withConn (setSequence 0 (connOf s)) s) _ _ Eb), withConn_withConn. done.
Qed.

(** The commands that have a handler. *)
Definition handled : list Z :=
  [ComQuit; ComInitDB; ComQuery; ComPing; ComFieldList; ComPrepare; ComStmtExecute; ComStmtClose; ComStmtReset; ComSetOption].

(** C39: A command without a handler, such as COM_STMT_SEND_LONG_DATA or
    COM_RESET_CONNECTION, ends the connection: nothing is answered, the buffer
    of its packet is not given back, and the next read panics on it, whatever
    the client has sent after it. *)
Theorem unknown_command_ends s wire command args n tail :
  packets 0 wire (command :: args) n → incoming (connOf s) = wire ++ tail →
  currentEphemeralPolicy (connOf s) = ephemeralUnused → command ∉ handled →
  ∃ s', serve bufPool tm ParseOneStmt s = (s', Panic) ∧ outgoing (connOf s') = outgoing (connOf s) ∧
    incoming (connOf s') = tail ∧ sg_statements s' = sg_statements s ∧ sg_executor s' = sg_executor s.
Proof.
  intros Hp Hin Hpol Hno. destruct (serveOne_reads s wire (command :: args) n tail Hp Hin Hpol) as [buf E1].
  set (s1 := withConn (reading buf n tail (connOf s)) s) in *.
  assert (ExecuteCommand bufPool tm ParseOneStmt (command :: args) s1 = (s1, Ok tt)) as Eskip.
  { unfold ExecuteCommand, mbind, SM_bind, liftS. change (load (command :: args) 0) with (Ok (A := Z) command). cbv iota beta.
    unfold handled in Hno. rewrite !not_elem_of_cons in Hno.
    destruct Hno as (H0 & H1 & H2 & H3 & H4 & H5 & H6 & H7 & H8 & H9 & _).
    rewrite !(proj2 (Z.eqb_neq _ _)) by done. done. }
  assert (turn s1 = (withConn (setSequence 0 (connOf s1)) s1, Panic)) as Estop.
  { unfold serveOne, mbind, SM_bind. rewrite (onWire_conn _ s1 (setSequence 0 (connOf s1)) (Ok tt)) by done.
    by rewrite (onWire_conn readEphemeralPacket _ (setSequence 0 (connOf s1)) Panic). }
  unfold serve, incomingOf. fold (connOf s). rewrite Hin.
  destruct (length (wire ++ tail)) as [|k] eqn:El.
  { exfalso. assert (length wire = 0%nat) as E0 by (rewrite length_app in El; lia).
    inversion Hp; subst; rewrite length_app in E0; unfold header in E0; rewrite length_app in E0; simpl in E0; lia. }
  cbn [serveLoop]. rewrite E1, Eskip. exists (withConn (setSequence 0 (connOf s1)) s1). destruct k; cbn [serveLoop]; rewrite Estop; done.
Qed.
(** *** What is sent *)

Hypothesis pool_sizes : ∀ n, 0 ≤ n → len (bufPool n) = n.

Lemma sends_error code state msg :
  code ≠ ErrNoSuchTable → len state = 5 → len msg < 2 ^ 61 →
  sends (writeErrorPacket bufPool code state msg) [concat (errorPayload code state msg)].
Proof using pool_sizes.
  intros Hc Hs Hm. pose proof (len_nonneg msg). unfold writeErrorPacket. rewrite (proj2 (Z.eqb_neq _ _) Hc), Hs.
  change (5 =? 0) with false. cbv iota zeta. intros c Hidle. unfold mbind, M_bind, get.
  apply (sends_fields bufPool pool_sizes); [|rewrite len_errorPayload; lia|lia|done].
  unfold errorPayload. repeat apply Forall2_cons_2; auto with wire. rewrite Hs. exact (writes_string state).
Qed.

(** An operation on the wire that sends the payloads. *)
Lemma onWire_sends m ps (s : Serving (E := E)) :
  sends m ps → idle (connOf s) →
  ∃ wire n, stream (sequence (connOf s)) wire ps n ∧ onWire m s = (withConn (sent wire n (connOf s)) s, Ok tt).
Proof using. intros Hm Hi. destruct (Hm (connOf s) Hi) as (wire & n & Hst & Em). exists wire, n. split; [done|]. by apply onWire_conn. Qed.

(** COM_SET_OPTION is answered twice: after the answer to the option, which
    is set, the client is sent an error for the same command, which it takes
    as the answer to its next one. *)
Theorem set_option_two_answers s wire op n tail :
  op ∈ [0; 1] → packets 0 wire [ComSetOption; op; 0] n → incoming (connOf s) = wire ++ tail →
  currentEphemeralPolicy (connOf s) = ephemeralUnused → quota (connOf s) = None → healthy (connOf s) = true →
  let caps := if op =? 0 then Z.lor (capabilitiesOf s) CapabilityClientMultiStatements
              else Z.ldiff (capabilitiesOf s) CapabilityClientMultiStatements in
  ∃ answer n' s', turn s = (s', Ok tt) ∧ capabilitiesOf s' = caps ∧ outgoing (connOf s') = outgoing (connOf s) ++ answer ∧
    stream n answer [endPayload (deprecateEOF caps) (statusOf s) 0;
      concat (errorPayload ERUnknownComError SSUnknownComError
        (text "error handling packet: " ++ text (formatBytes [ComSetOption; op; 0])))] n'.
Proof using pool_sizes.
  intros Hop Hp Hin Hpol Hq Hh caps. destruct (serveOne_reads s wire [ComSetOption; op; 0] n tail Hp Hin Hpol) as [buf E1].
  set (c1 := reading buf n tail (connOf s)) in *.
  assert (readUint16 [ComSetOption; op; 0] 1 = Ok (Some (op, 3))) as Eop.
  { rewrite !elem_of_cons in Hop. destruct Hop as [-> |[-> |[]%elem_of_nil]]; reflexivity. }
  assert (len (text "error handling packet: " ++ text (formatBytes [ComSetOption; op; 0])) < 2 ^ 61) as Hmsg.
  { rewrite !elem_of_cons in Hop. destruct Hop as [-> |[-> |[]%elem_of_nil]]; vm_compute; reflexivity. }
  set (c2 := setEphemeral ephemeralUnused None c1). set (s3 := setFrontCapabilities caps (withConn c2 s)).
  assert (idle c2) as Hi by done.
  destruct (onWire_sends (writeEndResult bufPool caps (statusOf s) false 0 0 0) [endPayload (deprecateEOF caps) (statusOf s) 0] s3)
    as (w1 & n1 & St1 & Ew1); [by apply writeEndResult_sends|done|].
  destruct (onWire_sends (unhandled bufPool [ComSetOption; op; 0]) [concat (errorPayload ERUnknownComError SSUnknownComError
    (text "error handling packet: " ++ text (formatBytes [ComSetOption; op; 0])))] (withConn (sent w1 n1 c2) s3))
    as (w2 & n2 & St2 & Ew2); [unfold unhandled; apply sends_error; [discriminate|reflexivity|exact Hmsg]|exact (sent_idle _ _ _ Hi)|].
  exists (w1 ++ w2), n2, (withConn (sent w2 n2 (sent w1 n1 c2)) s3). split; [|split; [done|split; [|by eapply (stream_app _ _ [_])]]].
  - rewrite E1. unfold ExecuteCommand. change (load [ComSetOption; op; 0] 0) with (Ok (A := Z) ComSetOption).
    unfold mbind, SM_bind, liftS. cbv iota beta. change (handleSetOption bufPool [ComSetOption; op; 0] (withConn c1 s) =
      (withConn (sent w2 n2 (sent w1 n1 c2)) s3, Ok tt)).
    unfold handleSetOption, mbind, SM_bind, liftS, getS, modifyS. rewrite Eop.
    rewrite (onWire_conn recycleReadPacket (withConn c1 s) c2 (Ok tt)) by apply recycle_read. rewrite withConn_withConn. cbv iota beta.
    rewrite !elem_of_cons in Hop. destruct Hop as [-> |[-> |[]%elem_of_nil]]; cbn [Z.eqb Pos.eqb];
      change (setFrontCapabilities _ (withConn c2 s)) with s3; change (capabilitiesOf s3) with caps;
      change (statusOf s3) with (statusOf s); rewrite Ew1; exact Ew2.
  - cbn. by rewrite app_assoc.
Qed.

(** *** The results of a query *)

Definition failurePayload (e : error) : bytes :=
  match reported e with
  | inl (num, state, msg) => concat (errorPayload (wrapU 16 num) state msg)
  | inr msg => concat (errorPayload ERUnknownError SSUnknownSQLState (text "unknown error: " ++ msg))
  end.

(** An error that is sent as it is. *)
Definition plainFailure (e : error) : Prop :=
  match reported e with
  | inl (num, state, msg) => wrapU 16 num ≠ ErrNoSuchTable ∧ len state = 5 ∧ len msg < 2 ^ 60
  | inr msg => len msg < 2 ^ 60
  end.

Lemma sends_failure e : plainFailure e → sends (writeFailure bufPool e) [failurePayload e].
Proof using pool_sizes.
  unfold plainFailure, writeFailure, failurePayload, writeErrorPacketFromError. destruct (reported e) as [[[num state] msg]|msg].
  - intros (Hn & Hs & Hm). apply sends_error; [done|done|lia].
  - intros Hm. apply sends_error; [done|done|]. rewrite len_app. change (len (text "unknown error: ")) with 15. lia.
Qed.

Section Results.
Context (caps status : Z).

Definition flagsFor (more : bool) : Z := if more then Z.lor status ServerMoreResultsExists else status.

(** The packets of a result, and whether it can be sent. *)
Definition reply (more : bool) (r : composite) : list bytes :=
  match cr_failure r, cr_result r with
  | Some e, _ => [failurePayload e]
  | None, None => [failurePayload (NewSQLError ERBadNullError SSUnknownSQLState (text "un dataset"))]
  | None, Some a =>
      match an_dataset a with
      | Ok None => [concat (okPayload OKPacket (an_affected a) (an_insertID a) (flagsFor more) (cr_warns r))]
      | Ok (Some ds) =>
          headPayloads (deprecateEOF caps) status (da_fields ds) ++
          omap (λ row, match row with Ok (Ok raw) => Some raw | _ => None end) (da_rows ds) ++
          [endPayload (deprecateEOF caps) (flagsFor more) (cr_warns r)]
      | Err e => [failurePayload e]
      | _ => []
      end
  end.

Definition repliable (r : composite) : Prop :=
  match cr_failure r, cr_result r with
  | Some e, _ => plainFailure e
  | None, None => True
  | None, Some a =>
      match an_dataset a with
      | Ok None => True
      | Ok (Some ds) => Forall transportable (da_fields ds) ∧ Forall (λ row, ∃ raw, row = Ok (Ok raw) ∧ len raw < 2 ^ 62) (da_rows ds)
      | Err e => plainFailure e
      | _ => False
      end
  end.

Lemma handleOnce_sends r more : repliable r → sends (handleOnce bufPool caps status r more) (reply more r).
Proof using pool_sizes.
  unfold repliable, handleOnce, reply. destruct (cr_failure r) as [e|]; [apply sends_failure|].
  destruct (cr_result r) as [a|]; [|intros _; by apply sends_failure].
  destruct (an_dataset a) as [[ds|]|e| |]; [| |apply sends_failure|done..].
  - intros [Hc Hr]. unfold writeResultSet. apply sends_bind; [by apply writeColumnList_sends|]. apply sends_bind.
    + assert (∃ raws, da_rows ds = map (λ raw, Ok (Ok raw)) raws ∧ Forall (λ raw, len raw < 2 ^ 62) raws) as (raws & -> & Hraws).
      { clear Hc. induction Hr as [|row rows (raw & -> & Hl) _ (raws & -> & Hraws)]; [by exists []|]. exists (raw :: raws). by split; [|constructor]. }
      replace (omap _ _) with raws; [by apply writeDataset_sends|]. clear Hr Hraws. induction raws as [|raw raws IH]; [done|].
      simpl. by f_equal.
    + change (writeEndResult bufPool caps status more 0 0 (cr_warns r)) with (writeEndResult bufPool caps (flagsFor more) false 0 0 (cr_warns r)).
      by apply writeEndResult_sends.
  - intros _. fold (flagsFor more). unfold writeOKPacket, writeOKHeader. pose proof (lenEncIntSize_range (an_affected a)).
    pose proof (lenEncIntSize_range (an_insertID a)).
    apply (sends_fields bufPool pool_sizes); [|by rewrite len_okPayload|lia]. repeat apply Forall2_cons_2; auto with wire.
Qed.

(** All results, each but the last announcing more. *)
Fixpoint replies (rs : list composite) : list bytes :=
  match rs with
  | [] => []
  | r :: rs => reply (match rs with [] => false | _ => true end) r ++ replies rs
  end.
End Results.

(** The front with another connection. *)
Definition frontWith (c : Conn) (f : Front) : Front := mkFront (setConn c (fr_server f)) (fr_variables f).
Definition frontConn (f : Front) : Conn := sv_conn (fr_server f).

#[local] Notation repliesOf f := (replies (sv_capabilities (fr_server f)) (sv_statusFlags (fr_server f))).
#[local] Notation replyOf f := (reply (sv_capabilities (fr_server f)) (sv_statusFlags (fr_server f))).

Lemma flushPrev_sends more prev f :
  repliable prev → idle (frontConn f) →
  ∃ wire n, stream (sequence (frontConn f)) wire (replyOf f more prev) n ∧
    flushPrev bufPool more (f, Some prev) = ((frontWith (sent wire n (frontConn f)) f, Some prev), Ok tt).
Proof using pool_sizes.
  intros Hr Hi. destruct (handleOnce_sends (sv_capabilities (fr_server f)) (sv_statusFlags (fr_server f)) prev more Hr (frontConn f) Hi)
    as (wire & n & Hst & E1). exists wire, n. split; [done|]. unfold flushPrev, onFront, onConn. cbn [fst snd].
  fold (frontConn f). by rewrite E1.
Qed.

(** The callback with each result in turn. *)
Fixpoint callAll {S} (h : composite → SM S unit) (rs : list composite) : SM S unit :=
  match rs with
  | [] => mret tt
  | r :: rs => _ ← h r; callAll h rs
  end.

Lemma callAll_sends prev rs f :
  Forall repliable (prev :: rs) → idle (frontConn f) →
  ∃ wire n last wire' n', stream (sequence (frontConn f)) (wire ++ wire') (repliesOf f (prev :: rs)) n' ∧
    callAll (queryCallback bufPool) rs (f, Some prev) = ((frontWith (sent wire n (frontConn f)) f, Some last), Ok tt) ∧
    flushPrev bufPool false (frontWith (sent wire n (frontConn f)) f, Some last)
    = ((frontWith (sent (wire ++ wire') n' (frontConn f)) f, Some last), Ok tt).
Proof using pool_sizes.
  revert prev f. induction rs as [|r rs IH]; intros prev f Hall Hi; apply Forall_cons in Hall as [Hp Hall].
  - destruct (flushPrev_sends false prev f Hp Hi) as (w & n & Hst & E1).
    exists [], (sequence (frontConn f)), prev, w, n. cbn [app replies callAll]. rewrite app_nil_r, sent_nothing by done.
    replace (frontWith (frontConn f) f) with f; [by rewrite E1|]. destruct f as [[] ?]. done.
  - destruct (flushPrev_sends true prev f Hp Hi) as (w & n & Hst & E1). set (f1 := frontWith (sent w n (frontConn f)) f) in *.
    destruct (IH r f1 Hall (sent_idle _ _ _ Hi)) as (w1 & n1 & last & w2 & n2 & Hst2 & E2 & E3).
    change (frontConn f1) with (sent w n (frontConn f)) in *. rewrite !sent_sent in E2, E3.
    change (sequence (sent w n (frontConn f))) with n in Hst2. change (frontWith (sent ?a ?b ?d) f1) with (frontWith (sent a b d) f) in E2, E3.
    exists (w ++ w1), n1, last, w2, n2. rewrite <- !app_assoc. split; [|split; [|by rewrite sent_sent in E3]].
    + change (repliesOf f (prev :: r :: rs)) with (replyOf f true prev ++ repliesOf f1 (r :: rs)). by eapply stream_app.
    + assert (queryCallback bufPool r (f, Some prev) = ((f1, Some r), Ok tt)) as Eq.
      { unfold queryCallback, mbind, SM_bind, modifyS. by rewrite E1. }
      cbn [callAll]. unfold mbind, SM_bind. rewrite Eq. exact E2.
Qed.

End Answers.

(** ** Examples *)

(** An executor that answers a query with results it was given. *)
Module CannedExecutor.
#[export] Instance executor : Executor (list composite) := {|
  ExecuteUseDB _ := mret tt;
  ExecuteFieldList _ := mret [];
  ExecutorComQuery S _ h := λ x, let '(fs, r) := callAll h x.1 x.2 in ((x.1, fs), r);
  ExecutorComStmtExecute _ := mret (None, 0);
  ConnectionClose := mret tt;
|}.
End CannedExecutor.

Module CommandsExamples.
Import CannedExecutor NoFloats ExactDecimal ForwardIter.

Definition front (c : Conn) : Front := mkFront (mkServer (mkListener (text "5.7.0") 0 0) c 7 (text "blue") 0 0 [] 2) ∅.
Definition serving (c : Conn) (e : list composite) : Serving := mkServing (front c) (mkStatements 0 ∅) e.
Definition noParser (q : bytes) : outcome (list (outcome unit)) := Ok [].

(** An update of three rows and a statement that fails. *)
Definition results : list composite :=
  [mkComposite (Some (mkAnswer (Ok None) 3 0)) 0 None; mkComposite None 0 (Some (NewSQLError 1064 (text "42000") (text "syntax")))].

Lemma zeroPool_sizes n : 0 ≤ n → len (zeroPool n) = n.
Proof. apply len_zeroPool. Qed.

Lemma unknown_command_ends_witness :
  ∃ s', serve zeroPool newSimpleTenantManager noParser
      (serving (setIncoming [2; 0; 0; 0; ComStmtSendLongData; 1; 1; 0; 0; 0; ComPing] freshConn) []) = (s', Panic) ∧
    outgoing (connOf s') = [] ∧ incoming (connOf s') = [1; 0; 0; 0; ComPing].
Proof.
  assert (packets 0 [2; 0; 0; 0; ComStmtSendLongData; 1] [ComStmtSendLongData; 1] 1) as Hp.
  { exact (packets_last 0 [ComStmtSendLongData; 1] ltac:(vm_compute; reflexivity)). }
  assert (ComStmtSendLongData ∉ handled) as Hno by (apply (bool_decide_unpack (ComStmtSendLongData ∉ handled)); vm_compute; exact Logic.I).
  destruct (unknown_command_ends zeroPool newSimpleTenantManager noParser
    (serving (setIncoming [2; 0; 0; 0; ComStmtSendLongData; 1; 1; 0; 0; 0; ComPing] freshConn) []) _ _ _ _ [1; 0; 0; 0; ComPing]
    Hp eq_refl eq_refl Hno) as (s' & H1 & H2 & H3 & _).
  exists s'. split; [exact H1|]. split; [exact H2|exact H3].
Defined.

Lemma set_option_two_answers_witness :
  ∃ answer n' s', serveOne zeroPool newSimpleTenantManager noParser
      (serving (setIncoming [3; 0; 0; 0; ComSetOption; 0; 0] freshConn) []) = (s', Ok tt) ∧
    capabilitiesOf s' = CapabilityClientMultiStatements ∧ outgoing (connOf s') = answer ∧
    stream 1 answer [endPayload false 2 0; concat (errorPayload ERUnknownComError SSUnknownComError
      (text "error handling packet: [27 0 0]"))] n'.
Proof.
  assert (packets 0 [3; 0; 0; 0; ComSetOption; 0; 0] [ComSetOption; 0; 0] 1) as Hp.
  { exact (packets_last 0 [ComSetOption; 0; 0] ltac:(vm_compute; reflexivity)). }
  exact (set_option_two_answers zeroPool newSimpleTenantManager noParser zeroPool_sizes
    (serving (setIncoming [3; 0; 0; 0; ComSetOption; 0; 0] freshConn) []) _ 0 1 [] ltac:(apply elem_of_cons; left; reflexivity) Hp
    eq_refl eq_refl eq_refl eq_refl).
Defined.

End CommandsExamples.
