(* ===== verification/Redirect.v ===== *)
(** * The executor of the server: [pkg/executor/redirect.go]

    It keeps the transaction of every connection, chooses the schema, and
    hands a statement to the runtime of the schema or to the transaction.  The
    parser and the runtime are parameters. *)
From S2P Require Import Prelude GoStd Value Encoding Packet Row RowCodec Auth Handshake ResultSet Statement Commands.

(** ** Statements *)

Inductive ShowType :=
| ShowDatabases | ShowVariables | ShowTopology | ShowStatus | ShowTableStatus | ShowWarnings | ShowCharset | ShowMasterStatus
| ShowProcessList | ShowReplicas | ShowShardingTable | ShowReplicaStatus | ShowNodes | ShowUsers | ShowCreateSequence
| ShowDatabaseRules | ShowTableRules | ShowOther.

Inductive StmtNode :=
| UseStmt (DBName : bytes)
| BeginStmt | CommitStmt | RollbackStmt
| SelectStmt (From : bool)
| InsertStmt | UpdateStmt | DeleteStmt | AlterTableStmt
| ShowStmt (Tp : ShowType)
| TruncateTableStmt | DropTableStmt | ExplainStmt | DropIndexStmt | CreateIndexStmt | AnalyzeTableStmt | OptimizeTableStmt
| CheckTableStmt | RenameTableStmt | RepairTableStmt | CreateTableStmt
| DropTriggerStmt | SetStmt | KillStmt
| OtherStmt.

(** A statement of the parser: its kind, the outcomes of parsing its hints,
    and its text. *)
Record ParsedStmt := mkParsed { ps_node : StmtNode; ps_hints : list (outcome unit); ps_text : bytes }.

Class Parser := {
  ParseOneStmt : bytes → Z → outcome ParsedStmt;
  Parse : bytes → Z → outcome (list ParsedStmt);
}.

(** What a runtime or a transaction is called with. *)
Record execCall := mkCall { call_stmt : ParsedStmt; call_args : list cell; call_direct : bool }.

(** The runtimes, by tenant and schema, and their transactions.  An execution
    sees the variables of the connection and may set them. *)
Class Runtime (W Tx : Type) := {
  rt_Load : bytes → bytes → W → outcome unit;
  NewXAHook : bytes → SM W unit;
  rt_Begin : bytes → bytes → SM W Tx;
  rt_Execute : bytes → bytes → execCall → SM (W * gmap string cell) (option Answer * Z);
  rt_FieldList : bytes → bytes → bytes → bytes → SM W (list ColumnDef);
  tx_Execute : Tx → execCall → SM (W * gmap string cell) (option Answer * Z);
  tx_Commit : Tx → SM W (option Answer * Z);
  tx_Rollback : Tx → SM W (option Answer * Z);
}.

Definition errMissingTx : error := NewError "no transaction found".
Definition errNoDatabaseSelected : error := NewSQLError ERNoDb SSNoDatabaseSelected (text "No database selected").
Definition errEmptyQuery : error := NewSQLError EREmptyQuery SS42000 (text "Query was empty").
Definition wrapParseErr (e : error) : error :=
  NewSQLError ERParseError SS42000 (text "You have an error in your SQL syntax; " ++ errorText e).

(** [resultx.New()]. *)
Definition emptyResult : Answer := mkAnswer (Ok None) 0 0.

Definition allowSchemaless (tp : ShowType) : bool := match tp with ShowOther => false | _ => true end.

Section Redirect.
Context {W Tx : Type} {RT : Runtime W Tx} {P : Parser} {I : MapIter} (tm : simpleTenantManager).

(** The transactions by the identifier of the connection, and the world. *)
Record RedirectExecutor := mkRedirect { localTransactionMap : gmap Z Tx; world : W }.

Definition X : Type := RedirectExecutor * Front.

Definition onWorld {A} (m : SM W A) : SM X A := λ x,
  let '(w, r) := m (world x.1) in ((mkRedirect (localTransactionMap x.1) w, x.2), r).

Definition onRun {A} (m : SM (W * gmap string cell) A) : SM X A := λ x,
  let '((w, vars), r) := m (world x.1, fr_variables x.2) in
  ((mkRedirect (localTransactionMap x.1) w, SetTransientVariables vars x.2), r).

Definition setTxMap (m : gmap Z Tx) (x : X) : X := (mkRedirect m (world x.1), x.2).

Definition putTx (tx : Tx) : SM X unit := modifyS (λ x, setTxMap (<[frontID x.2 := tx]> (localTransactionMap x.1)) x).

Definition getTx : SM X (option Tx) := x ← getS; mret (localTransactionMap x.1 !! frontID x.2).

Definition removeTx : SM X (option Tx) :=
  tx ← getTx;
  _ ← modifyS (λ x, setTxMap (delete (frontID x.2) (localTransactionMap x.1)) x);
  mret tx.

Definition InLocalTransaction : SM X bool := tx ← getTx; mret (match tx with Some _ => true | None => false end).

(** The transaction, if there is one, stays. *)
Definition ExecuteUseDB (db : bytes) : SM X unit :=
  x ← getS;
  if bool_decide (frontSchema x.2 = db) then mret tt
  else if negb (bool_decide (db ∈ GetClusters tm (frontTenant x.2)))
  then liftS (Err (NewSQLError ERBadDb SS42000 (text "Unknown database '" ++ db ++ text "'")))
  else modifyS (λ x, (x.1, SetTransientVariables ∅ (SetSchema db x.2))).

(** [bytes.IndexByte(ctx.Data, 0x00)]: -1 in a slice expression panics. *)
Definition ExecuteFieldList (data : bytes) : SM X (list ColumnDef) :=
  match indexZero data with
  | None => liftS Panic
  | Some index =>
      table ← liftS (slice data 1 (Z.of_nat index));
      wildcard ← liftS (slice data (Z.of_nat index + 1) (len data));
      x ← getS;
      _ ← liftS (withStack (rt_Load (frontTenant x.2) (frontSchema x.2) (world x.1)));
      onWorld (rt_FieldList (frontTenant x.2) (frontSchema x.2) table wildcard)
  end.

(** The first hint that does not parse. *)
Fixpoint parseHints (hints : list (outcome unit)) : outcome unit :=
  match hints with
  | [] => Ok tt
  | h :: hints => _ ← h; parseHints hints
  end.

(** The only cluster of a tenant stands in for a schema that is not chosen,
    and is kept: whether it was not. *)
Definition chooseSchema : SM X bool :=
  x ← getS;
  if len (frontSchema x.2) <? 1 then
    match GetClusters tm (frontTenant x.2) with
    | [cluster] => _ ← modifyS (λ x, (x.1, SetSchema cluster x.2)); mret true
    | _ => liftS (Err errNoDatabaseSelected)
    end
  else mret false.

Definition runRuntime (call : execCall) : SM X (option Answer * Z) :=
  x ← getS; onRun (rt_Execute (frontTenant x.2) (frontSchema x.2) call).

(** In the transaction of the connection, or in the runtime. *)
Definition runAnywhere (call : execCall) : SM X (option Answer * Z) :=
  tx ← getTx;
  match tx with Some tx => onRun (tx_Execute tx call) | None => runRuntime call end.

(** The error of [rt.Begin] is assigned to a variable of the inner block: the
    statement then has neither a result nor an error. *)
Definition beginTx : SM X (option Answer * Z) :=
  x ← getS;
  _ ← onWorld (NewXAHook (frontTenant x.2));
  tx ← catching (onWorld (rt_Begin (frontTenant x.2) (frontSchema x.2)));
  match tx with
  | inl tx => _ ← putTx tx; mret (Some emptyResult, 0)
  | inr _ => mret (None, 0)
  end.

Definition endTx (finish : Tx → SM W (option Answer * Z)) : SM X (option Answer * Z) :=
  tx ← removeTx;
  match tx with
  | Some tx => onWorld (finish tx)
  | None => liftS (Err errMissingTx)
  end.

Definition doExecutorComQuery (act : ParsedStmt) : SM X (option Answer * Z) :=
  match ps_node act with
  | UseStmt db => _ ← ExecuteUseDB db; mret (Some emptyResult, 0)
  | node =>
      _ ← liftS (parseHints (ps_hints act));
      schemaless ← chooseSchema;
      x ← getS;
      _ ← liftS (rt_Load (frontTenant x.2) (frontSchema x.2) (world x.1));
      let refused (run : SM X (option Answer * Z)) := if schemaless : bool then liftS (Err errNoDatabaseSelected) else run in
      let call := mkCall act [] false in
      match node with
      | BeginStmt => refused beginTx
      | CommitStmt => refused (endTx tx_Commit)
      | RollbackStmt => refused (endTx tx_Rollback)
      | SelectStmt from => if from then refused (runAnywhere call) else runAnywhere call
      | InsertStmt | UpdateStmt | DeleteStmt | AlterTableStmt => refused (runAnywhere call)
      | ShowStmt tp => if allowSchemaless tp then runRuntime call else refused (runRuntime call)
      | TruncateTableStmt | DropTableStmt | ExplainStmt | DropIndexStmt | CreateIndexStmt | AnalyzeTableStmt | OptimizeTableStmt
      | CheckTableStmt | RenameTableStmt | RepairTableStmt | CreateTableStmt => refused (runRuntime call)
      | DropTriggerStmt | SetStmt | KillStmt => runRuntime call
      | _ => refused (runAnywhere (mkCall act [] true))
      end
  end.

(** The result of a statement as the arguments of a callback. *)
Definition compositeOf (r : (option Answer * Z) + error) : composite :=
  match r with
  | inl (result, warns) => mkComposite result warns None
  | inr failure => mkComposite None 0 (Some failure)
  end.

Section Query.
Context {S : Type} (h : composite → SM (Front * S) unit).

(** The executor and the callback share the connection. *)
Definition Y : Type := RedirectExecutor * (Front * S).

Definition onExec {A} (m : SM X A) : SM Y A := λ y,
  let '((e, f), r) := m (y.1, y.2.1) in ((e, (f, y.2.2)), r).

Definition onCallback {A} (m : SM (Front * S) A) : SM Y A := λ y, let '(fs, r) := m y.2 in ((y.1, fs), r).

(** A statement that was parsed, or the error. *)
Definition answerStmt (stmt : outcome ParsedStmt) : SM Y ((option Answer * Z) + error) :=
  match stmt with
  | Ok stmt => catching (onExec (doExecutorComQuery stmt))
  | Err e => mret (inr (wrapParseErr e))
  | Panic => liftS Panic
  | OutOfFuel => liftS OutOfFuel
  end.

Definition executeOne (stmt : outcome ParsedStmt) : SM Y unit := r ← answerStmt stmt; onCallback (h (compositeOf r)).

(** The statements one after the other, up to the first failure. *)
Fixpoint executeAll (stmts : list ParsedStmt) : SM Y unit :=
  match stmts with
  | [] => mret tt
  | stmt :: stmts =>
      r ← answerStmt (Ok stmt);
      _ ← onCallback (h (compositeOf r));
      match r with inl _ => executeAll stmts | inr _ => mret tt end
  end.

(** [strings.IndexByte(query, ';')]. *)
Definition indexSemicolon (query : bytes) : option nat := list_find (λ b, b = 59) query ≫= λ kb, Some kb.1.

Definition ExecutorComQuery (data : bytes) : SM Y unit :=
  query ← liftS (slice data 1 (len data));
  if len query <? 1 then onCallback (h (compositeOf (inr errEmptyQuery))) else
  y ← getS;
  let charset := sv_characterSet (fr_server y.2.1) in
  match indexSemicolon query with
  | None => executeOne (ParseOneStmt query charset)
  | Some k =>
      if bool_decide (Z.of_nat k = len query - 1) then executeOne (ParseOneStmt (take k query) charset)
      else
        match Parse query charset with
        | Ok stmts => executeAll stmts
        | Err e => onCallback (h (compositeOf (inr (wrapParseErr e))))
        | Panic => liftS Panic
        | OutOfFuel => liftS OutOfFuel
        end
  end.
End Query.

(** The node of a statement that was prepared is the one it was parsed to. *)
Definition ExecutorComStmtExecute (s : Stmt) : SM X (option Answer * Z) :=
  tx ← getTx;
  x ← getS;
  _ ← (match tx with
       | Some _ => mret tt
       | None => liftS (rt_Load (frontTenant x.2) (frontSchema x.2) (world x.1))
       end);
  act ← liftS (match ParseOneStmt (PrepareStmt s) 0 with Ok act => Ok act | _ => Panic end);
  let direct :=
    match ps_node act with
    | SelectStmt _ | InsertStmt | UpdateStmt | DeleteStmt | AlterTableStmt => false
    | _ => true
    end in
  let call := mkCall act (GetArgs s) direct in
  match tx with Some tx => onRun (tx_Execute tx call) | None => runRuntime call end.

(** An error of the rollback is only logged. *)
Definition ConnectionClose : SM X unit :=
  tx ← removeTx;
  match tx with
  | None => mret tt
  | Some tx => _ ← catching (onWorld (tx_Rollback tx)); mret tt
  end.

#[global] Instance redirect : Executor RedirectExecutor := {|
  Commands.ExecuteUseDB := ExecuteUseDB;
  Commands.ExecuteFieldList := ExecuteFieldList;
  Commands.ExecutorComQuery := λ S data h, ExecutorComQuery h data;
  Commands.ExecutorComStmtExecute := ExecutorComStmtExecute;
  Commands.ConnectionClose := ConnectionClose;
|}.
End Redirect.
