(* ===== verification/ServingTheory.v ===== *)
(** * Serving a connection ends

    Every operation of the server comes to a result, an error or a panic, and
    none puts bytes back into the stream that is read.  A turn of the command
    loop takes a header off the stream, so that the loop ends with it.  The
    executor is an instance of a class with these laws, which the executor of
    the server satisfies over a runtime and a parser that come to an end.  The
    last part shows the same of the loops in which the client reads results
    and sends long texts. *)
From S2P Require Import Prelude GoStd Value Encoding Packet Row MysqlText RowCodec Auth Handshake ResultSet Statement Commands Redirect.

(** ** Outcomes *)

Definition returned {A} (o : outcome A) : Prop := match o with OutOfFuel => False | _ => True end.

Lemma returned_bind {A B} (m : outcome A) (f : A → outcome B) :
  returned m → (∀ a, m = Ok a → returned (f a)) → returned (m ≫= f).
Proof. destruct m; simpl; auto. Qed.

Create HintDb returned discriminated.
#[export] Hint Extern 0 (returned (Ok _)) => exact I : returned.

(** An outcome made of readers and cases. *)
Ltac returning :=
  lazymatch goal with
  | |- returned (mbind _ _) => apply returned_bind; [returning|intros ? ?; returning]
  | |- returned (match ?x with _ => _ end) => destruct x eqn:?; returning
  | |- returned (Ok _) => exact I
  | |- returned (Err _) => exact I
  | |- returned Panic => exact I
  | |- _ => auto with returned
  end.

Lemma returned_load data pos : returned (load data pos).
Proof. unfold load. returning. Qed.

Lemma returned_slice data lo hi : returned (slice data lo hi).
Proof. unfold slice. returning. Qed.

Lemma returned_store data pos b : returned (store data pos b).
Proof. unfold store. returning. Qed.
#[export] Hint Resolve returned_load returned_slice returned_store : returned.

Lemma returned_storeAll bs data pos : returned (storeAll data pos bs).
Proof. revert data pos. induction bs as [|b bs IH]; intros data pos; cbn [storeAll]; returning. Qed.
#[export] Hint Resolve returned_storeAll : returned.

Lemma returned_writeAll data pos bs : returned (writeAll data pos bs).
Proof. unfold writeAll. returning. Qed.

Lemma returned_copyAt data pos bs : returned (copyAt data pos bs).
Proof. unfold copyAt. returning. Qed.
#[export] Hint Resolve returned_writeAll returned_copyAt : returned.

(** The writers of a field. *)
Definition returningField (f : bytes → Z → outcome (bytes * Z)) : Prop := ∀ data pos, returned (f data pos).

Lemma returned_writeByte data pos v : returned (writeByte data pos v).
Proof. apply returned_writeAll. Qed.

Lemma returned_writeUint16 data pos v : returned (writeUint16 data pos v).
Proof. apply returned_writeAll. Qed.

Lemma returned_writeUint32 data pos v : returned (writeUint32 data pos v).
Proof. apply returned_writeAll. Qed.

Lemma returned_writeLenEncInt data pos v : returned (writeLenEncInt data pos v).
Proof. unfold writeLenEncInt. returning. Qed.

Lemma returned_writeZeroes data pos n : returned (writeZeroes data pos n).
Proof. unfold writeZeroes. returning. Qed.

Lemma returned_writeEOFString data pos bs : returned (writeEOFString data pos bs).
Proof. unfold writeEOFString. returning. Qed.
#[export] Hint Resolve returned_writeByte returned_writeUint16 returned_writeUint32 returned_writeLenEncInt returned_writeZeroes
  returned_writeEOFString : returned.

Lemma returned_writeNullString data pos bs : returned (writeNullString data pos bs).
Proof. unfold writeNullString. returning. Qed.

Lemma returned_writeLenEncString data pos bs : returned (writeLenEncString data pos bs).
Proof. unfold writeLenEncString. returning. Qed.

Lemma returned_writeCopy bs data pos : returned bs → returned (writeCopy bs data pos).
Proof. intros H. unfold writeCopy. returning. Qed.
#[export] Hint Resolve returned_writeNullString returned_writeLenEncString returned_writeCopy : returned.

Lemma returned_writeFields fields data pos : Forall returningField fields → returned (Packet.writeFields fields data pos).
Proof.
  intros H. revert data pos. induction H as [|f fields Hf _ IH]; intros data pos; cbn [Packet.writeFields]; [done|].
  apply returned_bind; [apply Hf|]. intros r _. apply IH.
Qed.

Lemma returned_packFields fields data pos : Forall returningField fields → returned (packFields fields data pos).
Proof.
  intros H. revert data pos. induction H as [|f fields Hf _ IH]; intros data pos; cbn [packFields]; [done|].
  apply returned_bind; [apply Hf|]. intros r _. apply IH.
Qed.

(** A list of writers, one by one. *)
Ltac fields := repeat apply List.Forall_cons; try apply List.Forall_nil; intros ? ?; cbv beta; returning.

(** The readers. *)
Lemma returned_readByte data pos : returned (readByte data pos).
Proof. unfold readByte. returning. Qed.

Lemma returned_readFixed n data pos : returned (readFixed n data pos).
Proof. unfold readFixed. returning. Qed.

Lemma returned_readBytes data pos n : returned (readBytes data pos n) ∧ returned (readBytesCopy data pos n).
Proof. unfold readBytes, readBytesCopy. split; returning. Qed.

Lemma returned_readNullString data pos : returned (readNullString data pos).
Proof. unfold readNullString. returning. Qed.
#[export] Hint Resolve returned_readByte returned_readFixed returned_readNullString : returned.
#[export] Hint Extern 1 (returned (readUint16 _ _)) => apply returned_readFixed : returned.
#[export] Hint Extern 1 (returned (readUint32 _ _)) => apply returned_readFixed : returned.
#[export] Hint Extern 1 (returned (readUint64 _ _)) => apply returned_readFixed : returned.
#[export] Hint Extern 1 (returned (readBytes _ _ _)) => apply returned_readBytes : returned.
#[export] Hint Extern 1 (returned (readBytesCopy _ _ _)) => apply returned_readBytes : returned.

Lemma returned_mapM {A B} (f : A → outcome B) l : (∀ a, returned (f a)) → returned (mapM f l).
Proof. intros Hf. induction l as [|a l IH]; cbn [mapM]; [done|]. apply returned_bind; [apply Hf|]. intros b _. by apply returned_bind. Qed.

Lemma returned_readLenEncInt data pos : returned (readLenEncInt data pos).
Proof.
  assert (∀ n, returned (readAfter n data pos)) as Ha.
  { intros n. unfold readAfter. returning. apply returned_mapM. intros k. apply returned_load. }
  unfold readLenEncInt. returning.
Qed.
#[export] Hint Resolve returned_readLenEncInt : returned.

Lemma returned_readLenEncStringAsBytesCopy data pos : returned (readLenEncStringAsBytesCopy data pos).
Proof. unfold readLenEncStringAsBytesCopy. returning. Qed.
#[export] Hint Resolve returned_readLenEncStringAsBytesCopy : returned.

Lemma returned_must {A} msg (m : outcome (option A)) : returned m → returned (must msg m).
Proof. intros H. unfold must. returning. Qed.

Lemma returned_need {A} code msg (m : outcome (option A)) : returned m → returned (need code msg m).
Proof. intros H. unfold need. returning. Qed.
#[export] Hint Resolve returned_must returned_need : returned.

(** ** Operations *)

(** A state with the bytes that are left to be read, and an invariant. *)
Class Fed (S : Type) := {
  left_ : S → nat;
  kept : S → Prop;
}.

(** The operation returns, reads the stream only forwards and keeps the
    invariant; what it answers satisfies [Q]. *)
Definition returns {S A} {F : Fed S} (m : SM S A) (Q : A → Prop) : Prop :=
  ∀ s, kept s → returned (m s).2 ∧ (left_ (m s).1 ≤ left_ s)%nat ∧ kept (m s).1 ∧ ∀ a, (m s).2 = Ok a → Q a.

(** It takes bytes off the stream unless it fails. *)
Definition reads {S A} {F : Fed S} (m : SM S A) : Prop :=
  ∀ s, kept s → ∀ a, (m s).2 = Ok a → (left_ (m s).1 < left_ s)%nat.

Definition any {A} (_ : A) : Prop := True.

Section Operations.
Context {S : Type} {F : Fed S}.

Lemma returns_bind {A B} (m : SM S A) (k : A → SM S B) Q R : returns m Q → (∀ a, Q a → returns (k a) R) → returns (m ≫= k) R.
Proof using.
  intros Hm Hk s Hs. destruct (Hm s Hs) as (H1 & H2 & H3 & H4). unfold mbind, SM_bind. destruct (m s) as [s1 [a|e| |]]; simpl in *; try done.
  destruct (Hk a (H4 a eq_refl) s1 H3) as (K1 & K2 & K3 & K4). repeat split; [done|lia|done|done].
Qed.

Lemma returns_any {A} (m : SM S A) Q : returns m Q → returns m any.
Proof using. intros Hm s Hs. destruct (Hm s Hs) as (H1 & H2 & H3 & _). done. Qed.

Lemma returns_seq {A B} (m : SM S A) (k : A → SM S B) R : returns m any → (∀ a, returns (k a) R) → returns (m ≫= k) R.
Proof using. intros Hm Hk. by apply (returns_bind m k any). Qed.

Lemma returns_ret {A} (a : A) (Q : A → Prop) : Q a → returns (mret a) Q.
Proof using. intros H s Hs. repeat split; [done|done|]. by intros b [= <-]. Qed.

Lemma returns_lift {A} (o : outcome A) (Q : A → Prop) : returned o → (∀ a, o = Ok a → Q a) → returns (liftS o) Q.
Proof using. intros H1 H2 s Hs. by repeat split. Qed.

Lemma returns_get {B} (k : S → SM S B) R : (∀ s, kept s → returns (k s) R) → returns (getS ≫= k) R.
Proof using. intros Hk s Hs. by apply (Hk s Hs s). Qed.

Lemma returns_modify (f : S → S) : (∀ s, (left_ (f s) ≤ left_ s)%nat) → (∀ s, kept s → kept (f s)) → returns (modifyS f) any.
Proof using. intros H1 H2 s Hs. repeat split; simpl; auto. Qed.

Lemma returns_catching {A} (m : SM S A) Q : returns m Q → returns (catching m) (λ r, match r with inl a => Q a | inr _ => True end).
Proof using.
  intros Hm s Hs. destruct (Hm s Hs) as (H1 & H2 & H3 & H4). unfold catching.
  destruct (m s) as [s1 [a|e| |]]; simpl in *; repeat split; try done; intros ? [= <-]; auto.
Qed.

Lemma returns_deferring {A} (m : SM S A) f Q : returns m Q → returns f any → returns (deferringS m f) Q.
Proof using.
  intros Hm Hf s Hs. destruct (Hm s Hs) as (H1 & H2 & H3 & H4). unfold deferringS. destruct (m s) as [s1 r]; simpl in *.
  destruct (Hf s1 H3) as (K1 & K2 & K3 & _). destruct (f s1) as [s2 [[]| | |]]; simpl in *; repeat split; try done; lia.
Qed.

Lemma reads_bind {A B} (m : SM S A) (k : A → SM S B) Q R : reads m → returns m Q → (∀ a, Q a → returns (k a) R) → reads (m ≫= k).
Proof using.
  intros Hr Hm Hk s Hs b. specialize (Hr s Hs). destruct (Hm s Hs) as (_ & _ & H3 & H4). unfold mbind, SM_bind.
  destruct (m s) as [s1 [a|e| |]]; simpl in *; try done. intros Hb.
  destruct (Hk a (H4 a eq_refl) s1 H3) as (_ & K2 & _ & _). specialize (Hr a eq_refl). lia.
Qed.

Lemma reads_later {A B} (m : SM S A) (k : A → SM S B) Q : returns m Q → (∀ a, Q a → reads (k a)) → reads (m ≫= k).
Proof using.
  intros Hm Hk s Hs b. destruct (Hm s Hs) as (_ & H2 & H3 & H4). unfold mbind, SM_bind.
  destruct (m s) as [s1 [a|e| |]]; simpl in *; try done. intros Hb. specialize (Hk a (H4 a eq_refl) s1 H3 b Hb). lia.
Qed.

Lemma reads_error {A} (o : outcome A) : (∀ a, o ≠ Ok a) → reads (liftS o).
Proof using. intros H s _ a Ha. by destruct (H a). Qed.
End Operations.

(** ** The packets *)

#[global] Instance Conn_Fed : Fed Conn := {| left_ c := length (incoming c); kept _ := True |}.

(** The monad of connections is that of states, with names of its own. *)
Lemma connected_bind {A B} (m : M A) (k : A → M B) Q R :
  returns (S := Conn) m Q → (∀ a, Q a → returns (S := Conn) (k a) R) → returns (S := Conn) (m ≫= k) R.
Proof. exact (returns_bind (S := Conn) m k Q R). Qed.

Lemma connected_seq {A B} (m : M A) (k : A → M B) R :
  returns (S := Conn) m any → (∀ a, returns (S := Conn) (k a) R) → returns (S := Conn) (m ≫= k) R.
Proof. exact (returns_seq (S := Conn) m k R). Qed.

Lemma connected_get {B} (k : Conn → M B) R : (∀ c, returns (S := Conn) (k c) R) → returns (S := Conn) (get ≫= k) R.
Proof. intros H. apply (returns_get (S := Conn) k). auto. Qed.

Lemma connected_modify f : (∀ c, incoming (f c) = incoming c) → returns (S := Conn) (modify f) any.
Proof. intros H. apply (returns_modify (S := Conn) f); [|done]. intros c. simpl. by rewrite H. Qed.

Lemma connected_lift {A} (o : outcome A) : returned o → returns (S := Conn) (lift o) any.
Proof. intros H. by apply (returns_lift (S := Conn) o). Qed.

Lemma connected_ret {A} (a : A) : returns (S := Conn) (mret (M := M) a) any.
Proof. by apply (returns_ret (S := Conn) a). Qed.

Lemma connected_wrapping {A} (m : M A) Q : returns (S := Conn) m Q → returns (S := Conn) (wrapping m) Q.
Proof.
  intros Hm c Hc. destruct (Hm c Hc) as (H1 & H2 & H3 & H4). unfold wrapping. by destruct (m c) as [c1 [a|e| |]].
Qed.

Lemma connected_deferring {A} (m : M A) f Q : returns (S := Conn) m Q → returns (S := Conn) f any → returns (S := Conn) (deferring m f) Q.
Proof.
  intros Hm Hf. pose proof (returns_deferring (S := Conn) m f Q Hm Hf) as H. intros c Hc. specialize (H c Hc).
  unfold deferring, deferringS in *. by destruct (m c) as [c1 r], (f c1) as [c2 [[]| | |]].
Qed.

Create HintDb returns discriminated.

(** An operation of the connection, step by step. *)
Ltac connected :=
  lazymatch goal with
  | |- returns (mbind _ get) _ => apply connected_get; intros ?; connected
  | |- returns (mbind _ (modify _)) _ => apply connected_seq; [by apply connected_modify|intros ?; connected]
  | |- returns (mbind _ _) _ => apply connected_seq; [connected|intros ?; connected]
  | |- returns (modify _) _ => by apply connected_modify
  | |- returns (lift _) _ => apply connected_lift; returning
  | |- returns (mret _) _ => apply connected_ret
  | |- returns (wrapping _) _ => apply connected_wrapping; connected
  | |- returns (deferring _ _) _ => apply connected_deferring; connected
  | |- returns (match ?x with _ => _ end) _ => destruct x eqn:?; connected
  | |- _ => auto with returns
  end.

Lemma ReadFull_returns n : returns (S := Conn) (ReadFull n) (λ bs, len bs ≤ Z.max 0 n).
Proof.
  intros c _. unfold ReadFull. destruct (Z.eqb_spec (len (incoming c)) 0); simpl.
  - case_match; repeat split; try done; intros ? [= <-]. unfold len. simpl. lia.
  - case_match; simpl; repeat split; try done; try lia.
    + rewrite length_drop. lia.
    + intros ? [= <-]. unfold len. rewrite length_take. lia.
Qed.

Lemma ReadFull_reads n : 0 < n → reads (S := Conn) (ReadFull n).
Proof.
  intros Hn c _ a. unfold ReadFull. destruct (Z.eqb_spec (len (incoming c)) 0); simpl.
  - destruct (Z.eqb_spec n 0); [lia|done].
  - destruct (Z.ltb_spec (len (incoming c)) n); [done|]. intros _. simpl. rewrite length_drop. unfold len in *. lia.
Qed.

Lemma readHeaderFrom_returns : returns (S := Conn) readHeaderFrom any ∧ reads (S := Conn) readHeaderFrom.
Proof.
  assert (∀ c, returned (readHeaderFrom c).2 ∧ (left_ (readHeaderFrom c).1 ≤ left_ c)%nat ∧
    ∀ a, (readHeaderFrom c).2 = Ok a → (left_ (readHeaderFrom c).1 < left_ c)%nat) as H.
  { intros c. unfold readHeaderFrom. destruct (ReadFull_returns 4 c Logic.I) as (H1 & H2 & _ & _).
    pose proof (ReadFull_reads 4 ltac:(lia) c Logic.I) as Hr.
    destruct (ReadFull 4 c) as [c1 [h|e| |]]; simpl in H1, H2, Hr; [|destruct e; done|done|done].
    specialize (Hr h eq_refl). destruct h as [|h0 [|h1 [|h2 [|h3 [|]]]]]; try done. case_match; repeat split; try done; simpl; simpl in Hr; try lia. }
  split; intros c _; destruct (H c) as (H1 & H2 & H3); [done|]. exact H3.
Qed.

Lemma Write_returns bs : returns (S := Conn) (Write_ bs) any.
Proof. intros c _. unfold Write_. destruct (quota c); [case_match|]; done. Qed.

Lemma nextSequence_returns : returns (S := Conn) nextSequence any.
Proof. by apply connected_modify. Qed.

#[export] Hint Resolve Write_returns nextSequence_returns : returns.
#[export] Hint Extern 1 (returns readHeaderFrom any) => apply readHeaderFrom_returns : returns.
#[export] Hint Extern 2 (returns (ReadFull _) any) => eapply returns_any, ReadFull_returns : returns.

Lemma readOnePacket_returns : returns (S := Conn) readOnePacket any.
Proof. unfold readOnePacket. connected. Qed.

Lemma readOnePacket_reads : reads (S := Conn) readOnePacket.
Proof.
  destruct readHeaderFrom_returns as [H1 H2]. apply (reads_bind (S := Conn) readHeaderFrom _ any any H2 H1). intros n _.
  cbv beta. connected.
Qed.

Lemma readMore_returns fuel data c : (left_ c < fuel)%nat → returned (readMore fuel data c).2 ∧ (left_ (readMore fuel data c).1 ≤ left_ c)%nat.
Proof.
  revert data c. induction fuel as [|fuel IH]; intros data c Hf; [lia|]. cbn [readMore]. unfold mbind, M_bind.
  destruct (readOnePacket_returns c Logic.I) as (H1 & H2 & _ & _). pose proof (readOnePacket_reads c Logic.I) as Hr.
  destruct (readOnePacket c) as [c1 [next|e| |]]; simpl in H1, H2, Hr; try done. specialize (Hr next eq_refl).
  case_match; [done|]. case_match; [done|]. destruct (IH (data ++ next) c1) as [K1 K2]; [simpl in *; lia|]. split; [done|simpl in *; lia].
Qed.

Lemma readRest_returns data : returns (S := Conn) (readRest data) any.
Proof.
  intros c _. unfold readRest, get, mbind, M_bind. destruct (readMore_returns (S (length (incoming c))) data c) as [H1 H2]; [simpl; lia|].
  done.
Qed.

Lemma recycleReadPacket_returns : returns (S := Conn) recycleReadPacket any.
Proof. unfold recycleReadPacket. connected. Qed.
#[export] Hint Resolve recycleReadPacket_returns readRest_returns : returns.

Lemma readBody_returns n : returns (S := Conn) (readBody n) (λ bs, len bs ≤ Z.max 0 n).
Proof.
  intros c _. unfold readBody. set (c0 := setEphemeral _ _ c). destruct (ReadFull_returns n c0 Logic.I) as (H1 & H2 & _ & H4).
  destruct (ReadFull n c0) as [c1 [bs|e| |]]; simpl in *; [|clear H4|done|done].
  - repeat split; [done|]. intros ? [= <-]. by apply H4.
  - unfold recycleReadPacket, get, deferring, lift, modify, mbind, M_bind. by destruct (negb _).
Qed.
#[export] Hint Extern 2 (returns (readBody _) any) => eapply returns_any, readBody_returns : returns.

Lemma readEphemeralPacket_returns : returns (S := Conn) readEphemeralPacket any.
Proof. unfold readEphemeralPacket. connected. Qed.

Lemma readEphemeralPacket_reads : reads (S := Conn) readEphemeralPacket.
Proof.
  destruct readHeaderFrom_returns as [H1 H2].
  apply (reads_later (S := Conn) get _ any); [by intros c _|]. intros c _. cbv beta.
  case_match; [by apply (reads_error (S := Conn))|]. apply (reads_bind (S := Conn) readHeaderFrom _ any any H2 H1). intros n _.
  cbv beta. connected.
Qed.

(** The packet of a handshake is one frame. *)
Lemma readEphemeralPacketDirect_returns : returns (S := Conn) readEphemeralPacketDirect buffer.
Proof.
  unfold readEphemeralPacketDirect. apply connected_get. intros c. case_match; [by apply (returns_lift (S := Conn))|].
  apply connected_seq; [connected|]. intros n. apply connected_seq; [connected|]. intros _.
  case_match; [by apply (returns_ret (S := Conn))|]. destruct (Z.ltb_spec n MaxPacketSize); [|by apply (returns_lift (S := Conn))].
  intros c' Hc'. destruct (readBody_returns n c' Hc') as (K1 & K2 & K3 & K4). repeat split; [done..|].
  intros bs Hbs. specialize (K4 bs Hbs). unfold buffer. change MaxPacketSize with 16777215 in *. lia.
Qed.

(** *** Writing *)

(** What is left after one frame. *)
Lemma frame_left n fuel : n < Z.of_nat (S fuel) → let p := if n >? MaxPacketSize then MaxPacketSize else n in n - p = 0 ∨ 0 ≤ n - p < Z.of_nat fuel.
Proof. change MaxPacketSize with 16777215. destruct (Z.gtb_spec n 16777215); simpl; lia. Qed.

Lemma writeLoop_returns fuel data index n : n < Z.of_nat fuel → (0 < fuel)%nat → returns (S := Conn) (writeLoop fuel data index n) any.
Proof.
  revert index n. induction fuel as [|fuel IH]; intros index n Hn Hf; [lia|]. cbn [writeLoop]. cbv zeta.
  apply connected_get. intros c. do 4 (apply connected_seq; [connected|intros ?]).
  destruct (frame_left n fuel Hn) as [->|Hp]; [simpl; connected|].
  destruct (Z.eqb_spec (n - (if n >? MaxPacketSize then MaxPacketSize else n)) 0); [connected|]. apply IH; lia.
Qed.

Lemma writePacket_returns data : returns (S := Conn) (writePacket data) any.
Proof. unfold writePacket. connected. apply writeLoop_returns; unfold len; lia. Qed.
#[export] Hint Resolve writePacket_returns : returns.

Lemma fieldListLoop_returns fuel data index n :
  n < Z.of_nat fuel → (0 < fuel)%nat → returns (S := Conn) (fieldListLoop fuel data index n) any.
Proof.
  revert index n. induction fuel as [|fuel IH]; intros index n Hn Hf; [lia|]. cbn [fieldListLoop]. cbv zeta.
  apply connected_seq; [connected|intros _].
  destruct (frame_left n fuel Hn) as [->|Hp]; [simpl; connected|].
  destruct (Z.eqb_spec (n - (if n >? MaxPacketSize then MaxPacketSize else n)) 0); [connected|]. apply IH; lia.
Qed.

Lemma writePacketForFieldList_returns data : returns (S := Conn) (writePacketForFieldList data) any.
Proof. apply fieldListLoop_returns; unfold len, packetHeaderSize; lia. Qed.

Lemma startEphemeralPacket_returns bufPool n : returns (S := Conn) (startEphemeralPacket bufPool n) any.
Proof. unfold startEphemeralPacket. connected. Qed.

Lemma recycleWritePacket_returns : returns (S := Conn) recycleWritePacket any.
Proof. unfold recycleWritePacket. connected. Qed.
#[export] Hint Resolve writePacketForFieldList_returns startEphemeralPacket_returns recycleWritePacket_returns : returns.

Lemma writeEphemeralPacket_returns : returns (S := Conn) writeEphemeralPacket any.
Proof. unfold writeEphemeralPacket. connected. Qed.
#[export] Hint Resolve writeEphemeralPacket_returns : returns.

Lemma sendFields_returns bufPool n fields : Forall returningField fields → returns (S := Conn) (sendFields bufPool n fields) any.
Proof. intros H. unfold sendFields. connected. by apply returned_writeFields. Qed.

Lemma sendChecked_returns bufPool n fields mismatch :
  Forall returningField fields → returns (S := Conn) mismatch any → returns (S := Conn) (sendChecked bufPool n fields mismatch) any.
Proof. intros H Hm. unfold sendChecked. connected. by apply returned_packFields. Qed.

#[export] Hint Extern 2 (returns (sendFields _ _ _) any) => apply sendFields_returns; fields : returns.

Section Server.
Context (bufPool : Z → bytes).

Lemma writeOKPacket_returns affected id flags warns : returns (S := Conn) (writeOKPacket bufPool affected id flags warns) any.
Proof. unfold writeOKPacket, writeOKHeader. connected. Qed.

Lemma writeErrorPacket_returns code state msg : returns (S := Conn) (writeErrorPacket bufPool code state msg) any.
Proof. unfold writeErrorPacket. connected. Qed.
#[local] Hint Resolve writeErrorPacket_returns : returns.

Lemma writeFailure_returns e : returns (S := Conn) (writeFailure bufPool e) any.
Proof. unfold writeFailure, writeErrorPacketFromError. connected. Qed.

Lemma writeEOFPacket_returns flags warns : returns (S := Conn) (writeEOFPacket bufPool flags warns) any.
Proof. unfold writeEOFPacket. connected. Qed.
#[local] Hint Resolve writeOKPacket_returns writeEOFPacket_returns : returns.

Lemma columnFields_returning c : Forall returningField (columnFields c).
Proof. unfold columnFields. fields. Qed.

Lemma DefColumnDefinition_returns c : returns (S := Conn) (DefColumnDefinition c) any.
Proof. unfold DefColumnDefinition. connected. apply returned_packFields, columnFields_returning. Qed.

Lemma defColumns_returns cs : returns (S := Conn) (defColumns cs) any.
Proof.
  induction cs as [|c cs IH]; cbn [defColumns]; [connected|]. apply connected_seq; [apply DefColumnDefinition_returns|]. intros d. connected.
Qed.

Lemma writeColumns_returns cs : returns (S := Conn) (writeColumns bufPool cs) any.
Proof.
  induction cs as [|c cs IH]; cbn [writeColumns]; [connected|]. apply connected_seq; [|done].
  apply sendChecked_returns; [apply columnFields_returning|connected].
Qed.
#[local] Hint Resolve defColumns_returns writeColumns_returns : returns.

Lemma writeColumnList_returns caps status cs : returns (S := Conn) (writeColumnList bufPool caps status cs) any.
Proof. unfold writeColumnList, sendColumnCount, endOfColumns. connected. Qed.

Lemma writeEndResult_returns caps status more affected id warns : returns (S := Conn) (writeEndResult bufPool caps status more affected id warns) any.
Proof. unfold writeEndResult, writeOKPacketWithEOFHeader, writeOKHeader. connected. Qed.

Lemma writePrepare_returns caps status id n : returns (S := Conn) (writePrepare bufPool caps status id n) any.
Proof. unfold writePrepare, endOfColumns. connected. Qed.

(** A row, or what reading it came to. *)
Definition returnedRow (row : outcome (outcome bytes)) : Prop := returned row ∧ ∀ r, row = Ok r → returned r.

Lemma writeRow_returns row : returned row → returns (S := Conn) (writeRow bufPool row) any.
Proof. intros H. unfold writeRow, withStack. connected. Qed.

Lemma writeDataset_returns ds :
  Forall returnedRow ds → returns (S := Conn) (writeDataset bufPool ds) any ∧ returns (S := Conn) (writeDatasetBinary bufPool ds) any.
Proof.
  induction 1 as [|row ds [H1 H2] _ [IH1 IH2]]; cbn [writeDataset writeDatasetBinary]; [split; connected|].
  destruct row as [row|e| |]; [|split; connected|by split; intros c _|done]. specialize (H2 row eq_refl).
  assert (returns (S := Conn) (lift (Ok row)) (eq row)) as Hr by (apply (returns_lift (S := Conn)); [done|by intros ? [= <-]]).
  split; (eapply connected_bind; [exact Hr|]; intros ? <-; apply connected_seq; [|done]).
  - by apply writeRow_returns.
  - by apply connected_wrapping, writeRow_returns.
Qed.

(** What the executor answers. *)
Definition returnedAnswer (a : option Answer) : Prop :=
  match a with
  | Some a => returned (an_dataset a) ∧ ∀ ds, an_dataset a = Ok (Some ds) → Forall returnedRow (da_rows ds)
  | None => True
  end.

Definition returnedComposite (c : composite) : Prop := returnedAnswer (cr_result c).

Lemma writeResultSet_returns caps status write ds more warn :
  returns (S := Conn) (write (da_rows ds)) any → returns (S := Conn) (writeResultSet bufPool caps status write ds more warn) any.
Proof.
  intros H. unfold writeResultSet. apply connected_seq; [apply writeColumnList_returns|intros _]. apply connected_seq; [done|intros _].
  apply writeEndResult_returns.
Qed.

Lemma handleOnce_returns caps status c more : returnedComposite c → returns (S := Conn) (handleOnce bufPool caps status c more) any.
Proof.
  intros H. unfold handleOnce. destruct (cr_failure c); [apply writeFailure_returns|]. unfold returnedComposite in H.
  destruct (cr_result c) as [a|]; [|apply writeFailure_returns]. destruct H as [H1 H2]. destruct (an_dataset a) as [[ds|]|e| |]; [|connected|..].
  - apply writeResultSet_returns, writeDataset_returns, H2, eq_refl.
  - apply writeFailure_returns.
  - connected.
  - done.
Qed.

Lemma writeHandshakeV10_returns l id tls salt : returns (S := Conn) (writeHandshakeV10 bufPool l id tls salt) any.
Proof.
  intros c _. unfold writeHandshakeV10. cbv zeta. set (m := sendChecked _ _ _ _).
  assert (returns (S := Conn) m any) as Hm by (apply sendChecked_returns; [fields|connected]).
  destruct (Hm c Logic.I) as (H1 & H2 & _ & _). by destruct (m c) as [c1 [[]|e| |]].
Qed.
End Server.

(** ** The login *)

Lemma readBytesCopy_forward data pos n v pos' : readBytesCopy data pos n = Ok (Some (v, pos')) → 0 ≤ pos ≤ pos' ∧ pos' ≤ len data.
Proof.
  unfold readBytesCopy. case_match; [done|]. case_match; [done|]. unfold slice.
  destruct (Z.leb_spec 0 pos), (Z.leb_spec pos (add pos n)), (Z.leb_spec (add pos n) (len data)); simpl; try done. intros [= _ <-]. lia.
Qed.

Lemma readByte_forward data pos v pos' : buffer data → readByte data pos = Ok (Some (v, pos')) → 0 ≤ pos < len data ∧ pos' = pos + 1.
Proof.
  unfold readByte, load, buffer. intros Hb. destruct (Z.geb_spec pos (len data)); [done|]. destruct (Z.ltb_spec pos 0); [done|].
  destruct (data !! Z.to_nat pos); simpl; [|done]. intros [= _ <-]. rewrite add_small; lia.
Qed.

Lemma must_ok {A} msg (m : outcome (option A)) a : must msg m = Ok a → m = Ok (Some a).
Proof. destruct m as [[b|]| | |]; simpl; [by intros [= ->]|done..]. Qed.

(** A turn of the loop goes forward in the packet, wherever it starts. *)
Lemma connAttrsLoop_returned fuel data pos n attrLen attrs :
  buffer data → (0 < fuel)%nat → (0 ≤ pos → len data - pos < Z.of_nat fuel) → returned (connAttrsLoop fuel data pos n attrLen attrs).
Proof.
  intros Hb. revert pos n attrs. induction fuel as [|fuel IH]; intros pos n attrs Hf Hp; [lia|]. cbn [connAttrsLoop]. case_match; [done|].
  apply returned_bind; [returning|]. intros [k p1] E1%must_ok. apply readByte_forward in E1 as [? ->]; [|done]. cbv zeta.
  apply returned_bind; [returning|]. intros [key p2] E2%must_ok. apply readBytesCopy_forward in E2.
  apply returned_bind; [returning|]. intros [v p3] E3%must_ok. apply readByte_forward in E3 as [? ->]; [|done]. cbv zeta.
  apply returned_bind; [returning|]. intros [val p4] E4%must_ok. apply readBytesCopy_forward in E4.
  simpl in *. apply IH; lia.
Qed.

Lemma parseLogin_returned flags data pos : buffer data → returned (parseLogin flags data pos).
Proof.
  intros Hb.
  assert (∀ p, returned (parseConnAttrs data p)) as Ha.
  { intros p. unfold parseConnAttrs. apply returned_bind; [returning|]. intros r _. apply connAttrsLoop_returned; [done|lia|]. unfold len. lia. }
  assert (∀ p, returned (readAuthResponse flags data p)) as Hr by (intros p; unfold readAuthResponse; returning).
  unfold parseLogin. do 4 (apply returned_bind; [returning|intros ? ?]). cbv zeta. destruct (has flags CapabilityClientConnAttr); [|done].
  specialize (Ha a2.2). by destruct (parseConnAttrs data a2.2).
Qed.

#[global] Instance Listener_Fed : Fed Listener := {| left_ _ := 0%nat; kept _ := True |}.
#[global] Instance Server_Fed : Fed Server := {| left_ s := left_ (sv_conn s); kept _ := True |}.

Lemma onConn_returns {A} (m : M A) Q : returns (S := Conn) m Q → returns (onConn m) Q.
Proof. intros Hm s _. unfold onConn. destruct (Hm (sv_conn s) Logic.I) as (H1 & H2 & _ & H4). by destruct (m (sv_conn s)) as [c r]. Qed.

Lemma onListener_returns {A} (m : SM Listener A) Q : returns m Q → returns (onListener m) Q.
Proof. intros Hm s _. unfold onListener. destruct (Hm (sv_listener s) Logic.I) as (H1 & _ & _ & H4). by destruct (m (sv_listener s)) as [l r]. Qed.

(** An operation of any state, step by step. *)
Ltac stated :=
  lazymatch goal with
  | |- returns (mbind _ getS) _ => apply returns_get; intros ? ?; stated
  | |- returns (mbind _ _) _ => apply returns_seq; [stated|intros ?; stated]
  | |- returns (modifyS _) _ => try by apply returns_modify
  | |- returns (liftS _) _ => apply returns_lift; [returning|done]
  | |- returns (mret _) _ => by apply returns_ret
  | |- returns (catching _) _ => eapply returns_any, returns_catching; stated
  | |- returns (deferringS _ _) _ => apply returns_deferring; stated
  | |- returns (match ?x with _ => _ end) _ => destruct x eqn:?; stated
  | |- _ => auto with returns
  end.

Lemma parseClientHandshakePacket_returns first data : buffer data → returns (parseClientHandshakePacket first data) any.
Proof. intros Hb. unfold parseClientHandshakePacket. cbv zeta. stated. by apply parseLogin_returned. Qed.

Section Login.
Context {I : MapIter} (bufPool : Z → bytes) (tm : simpleTenantManager).

Lemma handshake_returns rand : returned rand → returns (handshake bufPool tm rand) any.
Proof.
  intros Hr. unfold handshake, newSalt. apply returns_seq; [stated|intros salt]. apply returns_get. intros s _.
  apply returns_seq; [apply onConn_returns, writeHandshakeV10_returns|intros _].
  apply (returns_bind _ _ buffer); [apply onConn_returns, readEphemeralPacketDirect_returns|]. intros response Hb.
  apply returns_deferring; [|apply onConn_returns, recycleReadPacket_returns].
  apply returns_seq; [by apply onListener_returns, parseClientHandshakePacket_returns|]. intros h. cbv zeta. stated.
Qed.

Lemma login_returns rand : returned rand → returns (login bufPool tm rand) any.
Proof.
  intros Hr s _. unfold login. destruct (handshake_returns rand Hr s Logic.I) as (H1 & H2 & _ & _).
  destruct (handshake bufPool tm rand s) as [v [[]|e| |]]; simpl in H1, H2; [| |done..].
  - set (v' := mkServer _ _ _ _ _ _ _ _).
    destruct (onConn_returns _ _ (writeOKPacket_returns bufPool 0 0 (sv_statusFlags v') 0) v' Logic.I) as (K1 & K2 & _ & _).
    destruct (onConn _ v') as [v2 [[]| | |]]; simpl in *; repeat split; done || lia.
  - destruct (onConn_returns _ _ (writeFailure_returns bufPool e) v Logic.I) as (K1 & K2 & _ & _). unfold writeFailure in *.
    destruct (onConn _ v) as [v2 [[]| | |]]; simpl in *; repeat split; done || lia.
Qed.
End Login.

(** ** The handlers, over an executor that returns *)

#[global] Instance Front_Fed : Fed Front := {| left_ f := left_ (fr_server f); kept _ := True |}.

(** A connection with the state of a callback. *)
Definition callbackFed {S} (J : S → Prop) : Fed (Front * S) := {| left_ fs := left_ fs.1; kept fs := J fs.2 |}.

(** A state beside the one that is fed. *)
Definition aside {E S} (F : Fed S) : Fed (E * S) := {| left_ es := left_ es.2; kept es := kept es.2 |}.

Class ReturningExecutor {E} (X : Executor E) : Prop := {
  useDB_returns db : returns (F := aside Front_Fed) (Commands.ExecuteUseDB db) any;
  fieldList_returns data : returns (F := aside Front_Fed) (Commands.ExecuteFieldList data) any;
  comQuery_returns {S} (J : S → Prop) (h : composite → SM (Front * S) unit) data :
    (∀ c, returnedComposite c → returns (F := callbackFed J) (h c) any) →
    returns (F := aside (callbackFed J)) (Commands.ExecutorComQuery data h) any;
  stmtExecute_returns s : returns (F := aside Front_Fed) (Commands.ExecutorComStmtExecute s) (λ r, returnedAnswer r.1);
  connectionClose_returns : returns (F := aside Front_Fed) Commands.ConnectionClose any;
}.

#[global] Instance Stmt_Fed : Fed Stmt := {| left_ _ := 0%nat; kept _ := True |}.

Section Handlers.
Context {FT : FloatText} {DC : DecimalLib} {E : Type} {X : Executor E} {RX : ReturningExecutor X} {I : MapIter}.
Context (bufPool : Z → bytes) (tm : simpleTenantManager).
Context (parse : bytes → outcome (list (outcome unit))).
Hypothesis parse_returned : ∀ query, returned (parse query).

#[local] Notation SG := (Serving (E := E)).

#[global] Instance Serving_Fed : Fed SG := {| left_ s := left_ (sg_front s); kept _ := True |}.

(** *** The arguments of a statement *)

Lemma readWidths_returned ws data pos : returned (readWidths ws data pos).
Proof.
  revert pos. induction ws as [|w ws IH]; intros pos; cbn [readWidths]; [done|].
  apply returned_bind; [destruct w as [|[|[|]]]; auto with returned|]. intros [[v p]|] _; [|done]. apply returned_bind; [apply IH|done].
Qed.

Lemma parseStmtArgs_returned data typ pos : returned (parseStmtArgs data typ pos).
Proof.
  assert (∀ r f, returned r → returned (decoded r f)) as Hd by (intros r f Hr; by apply returned_bind).
  assert (∀ s, returned (MustNewValueDecimalString s)) as Hm by (intros s; unfold MustNewValueDecimalString; returning).
  pose proof readWidths_returned as Hw.
  assert (∀ data pos, returned (parseDateArg data pos) ∧ returned (parseTimeArg data pos)) as Ht.
  { intros data' pos'. unfold parseDateArg, parseTimeArg. split; (apply returned_bind; [returning|]; intros [[n p]|] _; [|done]);
      repeat (case_match; [done || (apply returned_bind; [apply Hw|done])|]); done. }
  unfold parseStmtArgs. repeat (case_match; [done || (apply Hd; auto with returned) || apply Ht || returning|]). done.
Qed.

Lemma readParamTypes_returns n i payload pos : returns (readParamTypes n i payload pos) any.
Proof.
  revert i pos. induction n as [|n IH]; intros i pos; cbn [readParamTypes]; [stated|]. unfold badPacket. stated.
Qed.

Lemma readParams_returns n i payload bitMap pos : returns (readParams n i payload bitMap pos) any.
Proof.
  revert i pos. induction n as [|n IH]; intros i pos; cbn [readParams]; [stated|]. unfold badPacket.
  pose proof parseStmtArgs_returned as Ha. stated.
Qed.
#[local] Hint Resolve readParamTypes_returns readParams_returns : returns.

Lemma parseExecution_returns payload pos : returns (parseExecution payload pos) any.
Proof. unfold parseExecution, bindParams, badPacket. stated. Qed.

Lemma bindStmt_returns data : returns (S := SG) (bindStmt data) any.
Proof.
  intros s _. unfold bindStmt, parseComStmtExecute.
  assert (returned (payload ← slice data 1 (len data); id ← readUint32 payload 0; Ok (payload, id))) as Hp by returning.
  destruct (payload ← _; _) as [[payload [[id pos]|]]| | |]; [|done..]. destruct (stmts (sg_statements s) !! id) as [st|]; [|done].
  destruct (parseExecution_returns payload pos st Logic.I) as (H1 & _ & _ & _). by destruct (parseExecution payload pos st) as [st' [| | |]].
Qed.

(** *** The parts of a served connection *)

Lemma onWire_returns {A} (m : M A) Q : returns (S := Conn) m Q → returns (S := SG) (onWire m) Q.
Proof.
  intros Hm s _. unfold onWire, onFront, onConn. destruct (Hm (sv_conn (fr_server (sg_front s))) Logic.I) as (H1 & H2 & _ & H4).
  by destruct (m (sv_conn (fr_server (sg_front s)))) as [c r].
Qed.

Lemma onExecutor_returns {A} (m : SM (E * Front) A) Q : returns (F := aside Front_Fed) m Q → returns (S := SG) (onExecutor m) Q.
Proof.
  intros Hm s _. unfold onExecutor. destruct (Hm (sg_executor s, sg_front s) Logic.I) as (H1 & H2 & _ & H4).
  by destruct (m (sg_executor s, sg_front s)) as [[e f] r].
Qed.

(** The result that is held back is one that returned. *)
Definition heldBack (prev : option composite) : Prop := match prev with Some c => returnedComposite c | None => True end.

Lemma flushPrev_returns more : returns (F := callbackFed heldBack) (flushPrev bufPool more) any.
Proof.
  intros [f [prev|]] Hp; unfold flushPrev; simpl in *; [|done]. unfold onFront, onConn.
  destruct (handleOnce_returns bufPool (sv_capabilities (fr_server f)) (sv_statusFlags (fr_server f)) prev more Hp (sv_conn (fr_server f)) Logic.I)
    as (H1 & H2 & _ & _).
  by destruct (handleOnce _ _ _ prev more (sv_conn (fr_server f))) as [c r].
Qed.

Lemma queryCallback_returns c : returnedComposite c → returns (F := callbackFed heldBack) (queryCallback bufPool c) any.
Proof. intros Hc. unfold queryCallback. apply returns_seq; [apply flushPrev_returns|]. intros _. by apply returns_modify. Qed.

Lemma runQuery_returns data : returns (S := SG) (runQuery bufPool data) any.
Proof.
  intros s _. unfold runQuery.
  destruct (comQuery_returns heldBack (queryCallback bufPool) data queryCallback_returns (sg_executor s, (sg_front s, None)) Logic.I) as (H1 & H2 & H3 & _).
  destruct (Commands.ExecutorComQuery _ _ _) as [[e fp] [[]| | |]]; simpl in *; [|done..].
  destruct (flushPrev_returns false fp H3) as (K1 & K2 & _ & _). destruct (flushPrev bufPool false fp) as [fp' r]. simpl in *.
  repeat split; [done|lia].
Qed.

Lemma forgetArgs_returns id : returns (S := SG) (forgetArgs id) any.
Proof. by apply returns_modify. Qed.

Lemma writeDone_returns : returns (S := SG) (writeDone bufPool) any.
Proof. unfold writeDone. apply returns_get. intros s _. apply onWire_returns, writeOKPacket_returns. Qed.

Lemma answerExecution_returns result warn : returnedAnswer result → returns (S := SG) (answerExecution bufPool result warn) any.
Proof.
  intros H. unfold answerExecution. apply returns_get. intros s _. destruct result as [a|]; [|stated]. destruct H as [H1 H2].
  destruct (an_dataset a) as [[ds|]|e| |]; [..|done].
  - apply onWire_returns, writeResultSet_returns, writeDataset_returns, H2, eq_refl.
  - apply onWire_returns, writeOKPacket_returns.
  - apply onWire_returns, writeFailure_returns.
  - stated.
Qed.

Lemma runStmt_returns id parsed : returns (S := SG) (runStmt bufPool id parsed) any.
Proof.
  unfold runStmt. destruct parsed as [z|e]; [|apply onWire_returns, writeFailure_returns]. apply returns_get. intros s _.
  destruct (stmts (sg_statements s) !! id) as [st|]; [|stated].
  eapply returns_bind; [apply returns_catching, onExecutor_returns, stmtExecute_returns|].
  intros [[result warn]|e] Hr; [by apply answerExecution_returns|apply onWire_returns, writeFailure_returns].
Qed.

Lemma reportHints_returns hints : returns (S := Conn) (reportHints bufPool hints) any.
Proof.
  induction hints as [|h hints IH]; cbn [reportHints]; [connected|]. destruct h; try done. apply connected_seq; [apply writeFailure_returns|done].
Qed.

#[local] Hint Resolve writeOKPacket_returns writeFailure_returns writeErrorPacket_returns writeEndResult_returns writePrepare_returns
  defColumns_returns reportHints_returns useDB_returns fieldList_returns connectionClose_returns : returns.
#[local] Hint Resolve onWire_returns onExecutor_returns runQuery_returns writeDone_returns forgetArgs_returns bindStmt_returns runStmt_returns : returns.

Lemma returned_buildEOFPacket c flags warns : returned (buildEOFPacket c flags warns).
Proof. unfold buildEOFPacket. apply returned_bind; [returning|]. intros data _. apply returned_writeFields. fields. Qed.
#[local] Hint Resolve returned_buildEOFPacket : returned.

Lemma ExecuteCommand_returns data : returns (S := SG) (ExecuteCommand bufPool tm parse data) any.
Proof.
  unfold ExecuteCommand, handleInitDB, handleQuery, handleFieldList, handlePrepare, handleStmtExecute, handleStmtClose, handleStmtReset,
    handleSetOption, unhandled. cbv zeta. stated.
  - apply onWire_returns. connected.
  - match goal with H : parse ?q = OutOfFuel |- _ => specialize (parse_returned q); by rewrite H in parse_returned end.
Qed.

(** *** The loop *)

Lemma serveOne_returns : returns (S := SG) (serveOne bufPool tm parse) any ∧ reads (S := SG) (serveOne bufPool tm parse).
Proof using parse_returned RX.
  assert (returns (S := SG) (onWire (modify (setSequence 0))) any) as H1 by (apply onWire_returns; connected).
  assert (returns (S := SG) (onWire readEphemeralPacket) any) as H2 by apply onWire_returns, readEphemeralPacket_returns.
  assert (reads (S := SG) (onWire readEphemeralPacket)) as H3.
  { intros s _ a. pose proof (readEphemeralPacket_reads (sv_conn (fr_server (sg_front s))) Logic.I) as Hr.
    unfold onWire, onFront, onConn. destruct (readEphemeralPacket _) as [c r]. exact (Hr a). }
  pose proof ExecuteCommand_returns as H4. unfold serveOne. split.
  - by repeat (apply returns_seq; [done|intros ?]).
  - apply (reads_later _ _ any); [done|]. intros _ _. by apply (reads_bind _ _ any any).
Qed.

Lemma serveLoop_returned fuel (s : SG) : (left_ s ≤ fuel)%nat → returned (serveLoop bufPool tm parse fuel s).2.
Proof using parse_returned RX.
  revert s. induction fuel as [|fuel IH]; intros s Hf; cbn [serveLoop]; destruct serveOne_returns as [H1 H2];
    destruct (H1 s Logic.I) as (K1 & _); specialize (H2 s Logic.I); destruct (serveOne bufPool tm parse s) as [s1 [[]| | |]]; try done;
    specialize (H2 tt eq_refl); simpl in Hf, H2; [lia|]. apply IH. simpl. lia.
Qed.

(** Serving a connection ends: the login, any commands the client sends, and
    the close come to a result, an error or a panic. *)
Theorem handle_returned rand (s : SG) : returned rand → returned (handle bufPool tm parse rand s).2.
Proof using parse_returned RX.
  intros Hr. unfold handle. destruct (login_returns bufPool tm rand Hr (fr_server (sg_front s)) Logic.I) as (H1 & _).
  destruct (login bufPool tm rand (fr_server (sg_front s))) as [v r]. simpl in H1. cbv zeta.
  assert (∀ s : SG, returned (closing s).2) as Hc.
  { intros s1. assert (returns (S := SG) closing any) as Hc by (unfold closing, Close; stated; apply onWire_returns; connected). apply (Hc s1 Logic.I). }
  set (s1 := mkServing _ _ _). destruct r as [[|]| | |]; try apply Hc; [|done]. unfold serve.
  pose proof (serveLoop_returned (length (incomingOf s1)) s1 (le_n _)) as Hl.
  destruct (serveLoop bufPool tm parse (length (incomingOf s1)) s1) as [s2 [[]| | |]]; try apply Hc. done.
Qed.
End Handlers.

(** ** The executor of the server returns *)

Class ReturningParser (P : Parser) : Prop := {
  parseOne_returned query charset : returned (Redirect.ParseOneStmt query charset);
  parseOne_hints query charset act : Redirect.ParseOneStmt query charset = Ok act → Forall returned (ps_hints act);
  parseAll_returned query charset : returned (Parse query charset);
  parseAll_hints query charset acts : Parse query charset = Ok acts → Forall (λ act, Forall returned (ps_hints act)) acts;
}.

(** The operation of a runtime returns an answer that returns. *)
Definition answering {W} (m : SM W (option Answer * Z)) : Prop := ∀ w, returned (m w).2 ∧ ∀ r, (m w).2 = Ok r → returnedAnswer r.1.

Class ReturningRuntime {W Tx} (RT : Runtime W Tx) : Prop := {
  load_returned tenant schema w : returned (rt_Load tenant schema w);
  hook_returned tenant w : returned (NewXAHook tenant w).2;
  begin_returned tenant schema w : returned (rt_Begin tenant schema w).2;
  fields_returned tenant schema table wildcard w : returned (rt_FieldList tenant schema table wildcard w).2;
  execute_answering tenant schema call : answering (rt_Execute tenant schema call);
  tx_execute_answering tx call : answering (tx_Execute tx call);
  commit_answering tx : answering (tx_Commit tx);
  rollback_answering tx : answering (tx_Rollback tx);
}.

Section Redirected.
Context {W Tx : Type} {RT : Runtime W Tx} {RR : ReturningRuntime RT} {P : Parser} {RP : ReturningParser P} {I : MapIter}.
Context (tm : simpleTenantManager).

#[local] Notation Exec := (RedirectExecutor (W := W) (Tx := Tx)).
#[local] Notation XS := (Redirect.X (W := W) (Tx := Tx)).

#[global] Instance X_Fed : Fed XS := aside Front_Fed.

Lemma onWorld_returns {A} (m : SM W A) (Q : A → Prop) :
  (∀ w, returned (m w).2 ∧ ∀ a, (m w).2 = Ok a → Q a) → returns (S := XS) (onWorld m) Q.
Proof. intros Hm [e f] _. unfold onWorld. simpl. destruct (Hm (world e)) as [H1 H2]. by destruct (m (world e)) as [w r]. Qed.

Lemma onWorld_any {A} (m : SM W A) : (∀ w, returned (m w).2) → returns (S := XS) (onWorld m) any.
Proof. intros H. apply onWorld_returns. by intros w. Qed.

Lemma onRun_returns m : answering m → returns (S := XS) (onRun (Tx := Tx) m) (λ r, returnedAnswer r.1).
Proof. intros Hm [e f] _. unfold onRun. simpl. destruct (Hm (world e, fr_variables f)) as [H1 H2]. by destruct (m (world e, fr_variables f)) as [[w vars] r]. Qed.

Lemma getTx_returns : returns (S := XS) getTx any.
Proof. unfold getTx. stated. Qed.

Lemma removeTx_returns : returns (S := XS) removeTx any.
Proof. unfold removeTx, getTx. stated. Qed.

Lemma runRuntime_returns call : returns (S := XS) (runRuntime call) (λ r, returnedAnswer r.1).
Proof using RR. unfold runRuntime. apply returns_get. intros x _. apply onRun_returns, execute_answering. Qed.

Lemma runAnywhere_returns call : returns (S := XS) (runAnywhere call) (λ r, returnedAnswer r.1).
Proof using RR.
  unfold runAnywhere. apply returns_seq; [apply getTx_returns|]. intros [tx|]; [apply onRun_returns, tx_execute_answering|apply runRuntime_returns].
Qed.

Lemma ExecuteUseDB_returns db : returns (S := XS) (Redirect.ExecuteUseDB tm db) any.
Proof. unfold Redirect.ExecuteUseDB. stated. Qed.

Lemma chooseSchema_returns : returns (S := XS) (chooseSchema tm) any.
Proof. unfold chooseSchema. stated. Qed.

Lemma beginTx_returns : returns (S := XS) beginTx (λ r, returnedAnswer r.1).
Proof using RR.
  unfold beginTx. apply returns_get. intros x _. apply returns_seq; [apply onWorld_any, hook_returned|intros _].
  apply returns_seq; [eapply returns_any, returns_catching, onWorld_any, begin_returned|]. intros [tx|e]; [|by apply returns_ret].
  apply returns_seq; [by apply returns_modify|]. intros _. by apply returns_ret.
Qed.

Lemma endTx_returns finish : (∀ tx, answering (finish tx)) → returns (S := XS) (endTx finish) (λ r, returnedAnswer r.1).
Proof.
  intros Hf. unfold endTx. apply returns_seq; [apply removeTx_returns|]. intros [tx|]; [|by apply returns_lift]. apply onWorld_returns, Hf.
Qed.

Lemma returned_parseHints hints : Forall returned hints → returned (parseHints hints).
Proof. induction 1 as [|h hints Hh _ IH]; cbn [parseHints]; [done|]. by apply returned_bind. Qed.

Lemma doExecutorComQuery_returns act : Forall returned (ps_hints act) → returns (S := XS) (doExecutorComQuery tm act) (λ r, returnedAnswer r.1).
Proof using RR.
  intros Hh.
  unfold doExecutorComQuery. destruct (ps_node act) eqn:En;
    [apply returns_seq; [apply ExecuteUseDB_returns|]; intros _; by apply returns_ret|..];
    (apply returns_seq; [apply returns_lift; [by apply returned_parseHints|done]|]; intros _;
     apply returns_seq; [apply chooseSchema_returns|]; intros schemaless; apply returns_get; intros x _;
     apply returns_seq; [apply returns_lift; [apply load_returned|done]|]; intros _; cbv zeta);
    repeat case_match; try discriminate;
    first [by apply returns_lift | apply runAnywhere_returns | apply runRuntime_returns | apply beginTx_returns | apply endTx_returns, commit_answering
          | apply endTx_returns, rollback_answering].
Qed.
(** *** With a callback *)

Section Callback.
Context {S : Type} (J : S → Prop) (h : composite → SM (Front * S) unit).
Hypothesis h_returns : ∀ c, returnedComposite c → returns (F := callbackFed J) (h c) any.

#[local] Notation YS := (Y (W := W) (Tx := Tx) (S := S)).
#[local] Instance Y_Fed : Fed YS := aside (callbackFed J).

Lemma onExec_returns {A} (m : SM XS A) Q : returns m Q → returns (S := YS) (onExec m) Q.
Proof.
  intros Hm [e [f q]] Hq. unfold onExec. simpl. destruct (Hm (e, f) Logic.I) as (H1 & H2 & _ & H4). by destruct (m (e, f)) as [[e' f'] r].
Qed.

Lemma onCallback_returns c : returnedComposite c → returns (S := YS) (onCallback (h c)) any.
Proof using h_returns.
  intros Hc [e fs] Hq. unfold onCallback. simpl. destruct (h_returns c Hc fs Hq) as (H1 & H2 & H3 & _). by destruct (h c fs) as [fs' r].
Qed.

Lemma returnedComposite_of r : match r with inl a => returnedAnswer a.1 | inr _ => True end → returnedComposite (compositeOf r).
Proof. by destruct r as [[a w]|e]. Qed.

Lemma answerStmt_returns stmt :
  returned stmt → (∀ act, stmt = Ok act → Forall returned (ps_hints act)) →
  returns (S := YS) (answerStmt tm stmt) (λ r, returnedComposite (compositeOf r)).
Proof using RR.
  intros Hs Hh. destruct stmt as [act|e| |]; [|by apply returns_ret|by apply returns_lift|done]. cbn [answerStmt].
  pose proof (returns_catching _ _ (onExec_returns _ _ (doExecutorComQuery_returns act (Hh act eq_refl)))) as H.
  intros y Hy. destruct (H y Hy) as (H1 & H2 & H3 & H4). repeat split; [done..|]. intros r Hr. apply returnedComposite_of, H4, Hr.
Qed.

Lemma executeOne_returns stmt :
  returned stmt → (∀ act, stmt = Ok act → Forall returned (ps_hints act)) → returns (S := YS) (executeOne tm h stmt) any.
Proof using RR h_returns.
  intros Hs Hh. unfold executeOne. eapply returns_bind; [by apply answerStmt_returns|]. intros r Hr. by apply onCallback_returns.
Qed.

Lemma executeAll_returns acts : Forall (λ act, Forall returned (ps_hints act)) acts → returns (S := YS) (executeAll tm h acts) any.
Proof using RR h_returns.
  induction 1 as [|act acts Ha _ IH]; cbn [executeAll]; [by apply returns_ret|].
  eapply returns_bind; [apply answerStmt_returns; [done|by intros ? [= <-]]|]. intros r Hr.
  apply returns_seq; [by apply onCallback_returns|]. intros _. destruct r; [done|by apply returns_ret].
Qed.

Lemma ExecutorComQuery_returns data : returns (S := YS) (Redirect.ExecutorComQuery tm h data) any.
Proof using RR RP h_returns.
  unfold Redirect.ExecutorComQuery. apply returns_seq; [stated|]. intros query. case_match; [by apply onCallback_returns|].
  apply returns_get. intros y _. cbv zeta. set (charset := sv_characterSet _).
  pose proof (λ q, executeOne_returns _ (parseOne_returned q charset) (parseOne_hints q charset)) as Hone.
  case_match; [|apply Hone]. case_match; [apply Hone|]. pose proof (parseAll_returned query charset) as Hp.
  pose proof (parseAll_hints query charset) as Hh. destruct (Parse query charset) as [acts|e| |]; [|by apply onCallback_returns|by apply returns_lift|done].
  apply executeAll_returns. auto.
Qed.
End Callback.

Lemma ExecuteFieldList_returns data : returns (S := XS) (Redirect.ExecuteFieldList data) any.
Proof using RR.
  unfold Redirect.ExecuteFieldList, withStack. case_match; [|stated]. do 2 (apply returns_seq; [stated|intros ?]).
  apply returns_get. intros x _. apply returns_seq; [|intros _; apply onWorld_any, fields_returned].
  apply returns_lift; [|done]. pose proof (load_returned (frontTenant x.2) (frontSchema x.2) (world x.1)) as Hl. by destruct (rt_Load _ _ _).
Qed.

Lemma ExecutorComStmtExecute_returns s : returns (S := XS) (Redirect.ExecutorComStmtExecute s) (λ r, returnedAnswer r.1).
Proof using RR.
  unfold Redirect.ExecutorComStmtExecute. apply returns_seq; [apply getTx_returns|]. intros tx. apply returns_get. intros x _.
  apply returns_seq; [destruct tx; [by apply returns_ret|apply returns_lift; [apply load_returned|done]]|]. intros _.
  apply returns_seq; [stated|]. intros act. cbv zeta.
  destruct tx as [tx|]; [apply onRun_returns, tx_execute_answering|apply runRuntime_returns].
Qed.

Lemma ConnectionClose_returns : returns (S := XS) Redirect.ConnectionClose any.
Proof using RR.
  unfold Redirect.ConnectionClose. apply returns_seq; [apply removeTx_returns|]. intros [tx|]; [|by apply returns_ret].
  apply returns_seq; [|intros _; by apply returns_ret]. eapply returns_any, returns_catching, onWorld_any. intros w. apply rollback_answering.
Qed.

#[global] Instance redirect_returning : ReturningExecutor (redirect tm).
Proof using RR RP.
  split.
  - apply ExecuteUseDB_returns.
  - apply ExecuteFieldList_returns.
  - intros S J h data Hh. by apply ExecutorComQuery_returns.
  - apply ExecutorComStmtExecute_returns.
  - apply ConnectionClose_returns.
Qed.
End Redirected.

(** ** The loops of the client *)

Lemma returned_packetError {A} data : returned (packetError (A := A) data).
Proof. unfold packetError, ParseErrorPacket. returning. Qed.

Lemma returned_isEOFPacket data : returned (isEOFPacket data) ∧ returned (isErrorPacket data).
Proof. unfold isEOFPacket, isErrorPacket. split; returning. Qed.

Lemma returned_readLenEncString data pos : returned (readLenEncString data pos).
Proof. unfold readLenEncString, readLenEncStringAsBytes. returning. Qed.

Lemma returned_skipLenEncString data pos : returned (skipLenEncString data pos).
Proof. unfold skipLenEncString. returning. Qed.
#[export] Hint Resolve returned_packetError returned_readLenEncString returned_skipLenEncString : returned.
#[export] Hint Extern 1 (returned (isEOFPacket _)) => apply returned_isEOFPacket : returned.
#[export] Hint Extern 1 (returned (isErrorPacket _)) => apply returned_isEOFPacket : returned.

Lemma connected_mapErr {A} (m : M A) f Q : returns (S := Conn) m Q → returns (S := Conn) (mapErr m f) Q.
Proof. intros Hm c Hc. destruct (Hm c Hc) as (H1 & H2 & H3 & H4). unfold mapErr, orElse. by destruct (m c) as [c1 [a|e| |]]. Qed.

Lemma onePacket_returns {A} (f : bytes → outcome A) :
  (∀ data, returned (f data)) → returns (S := Conn) (onePacket f) any ∧ reads (S := Conn) (onePacket f).
Proof.
  intros Hf. pose proof (connected_mapErr _ lost _ readEphemeralPacket_returns) as H1.
  assert (∀ data, returns (S := Conn) (deferring (lift (f data)) recycleReadPacket) any) as H2 by (intros data; connected; apply Hf).
  split; [by apply connected_seq|]. apply (reads_bind (S := Conn) _ _ any any); [|done|by intros data _].
  intros c Hc a. pose proof (readEphemeralPacket_reads c Hc) as Hr. unfold mapErr, orElse.
  destruct (readEphemeralPacket c) as [c1 [b|e| |]]; try done. intros _. by apply (Hr b).
Qed.

Lemma ReadColumnDefinition_returns field index :
  returns (S := Conn) (ReadColumnDefinition field index) any ∧ reads (S := Conn) (ReadColumnDefinition field index).
Proof.
  apply onePacket_returns. intros data. unfold parseColumnDefinition, columnType, needCol.
  apply returned_bind; [returning|]. intros eof _. destruct eof; [done|].
  do 12 (apply returned_bind; [returning|]; intros ? _). unfold readDefault, readLengthEncodedInteger, littleEndianAt. returning.
Qed.

(** Draining a result takes a packet off the stream at every turn. *)
Lemma DrainResults_returns : returns (S := Conn) DrainResults any.
Proof.
  assert (∀ fuel c, (left_ c < fuel)%nat → returned (drainLoop fuel c).2 ∧ (left_ (drainLoop fuel c).1 ≤ left_ c)%nat) as H.
  { induction fuel as [|fuel IH]; intros c Hf; [lia|]. cbn [drainLoop]. set (m := onePacket _).
    assert (returns (S := Conn) m any ∧ reads (S := Conn) m) as [H1 H2] by (apply onePacket_returns; intros data; returning).
    destruct (H1 c Logic.I) as (K1 & K2 & _). specialize (H2 c Logic.I). unfold mbind, M_bind.
    destruct (m c) as [c1 [[]| | |]]; simpl in *; try done. specialize (H2 false eq_refl). destruct (IH c1) as [J1 J2]; [lia|]. split; [done|lia]. }
  intros c _. unfold DrainResults, get, mbind, M_bind. destruct (H (S (length (incoming c))) c) as [H1 H2]; [simpl; lia|]. done.
Qed.

Lemma ReadColumnDefinitions_returns : returns (S := Conn) ReadColumnDefinitions any.
Proof.
  assert (∀ fuel i c, (left_ c < fuel)%nat → returned (columnsLoop fuel i c).2 ∧ (left_ (columnsLoop fuel i c).1 ≤ left_ c)%nat) as H.
  { induction fuel as [|fuel IH]; intros i c Hf; [lia|]. cbn [columnsLoop]. destruct (ReadColumnDefinition_returns zeroColumn i) as [H1 H2].
    destruct (H1 c Logic.I) as (K1 & K2 & _). specialize (H2 c Logic.I).
    destruct (ReadColumnDefinition zeroColumn i c) as [c1 [f|e| |]]; simpl in *; try done; [|by case_match]. specialize (H2 f eq_refl).
    destruct (IH (i + 1) c1) as [J1 J2]; [lia|]. unfold mbind, M_bind. destruct (columnsLoop fuel (i + 1) c1) as [c2 [| | |]]; simpl in *;
      (split; [done|lia]). }
  intros c _. unfold ReadColumnDefinitions, get, mbind, M_bind. destruct (H (S (length (incoming c))) 0 c) as [H1 H2]; [simpl; lia|]. done.
Qed.

(** A long text is sent in packets that each take a part of it, if a packet
    has room for more than the numbers before the text. *)
Lemma writeCommandLongData_returns MaxAllowedPacket stmt paramID arg :
  8 < MaxAllowedPacket → returns (S := Conn) (writeCommandLongData MaxAllowedPacket stmt paramID arg) any.
Proof.
  intros Hmax.
  assert (∀ fuel data argLen pktLen, argLen < Z.of_nat fuel → 7 < pktLen →
    returns (S := Conn) (longDataLoop MaxAllowedPacket fuel stmt paramID data argLen pktLen) any) as H.
  { induction fuel as [|fuel IH]; intros data argLen pktLen Hf Hp; cbn [longDataLoop]; destruct (Z.gtb_spec argLen 0); try lia; try apply connected_ret.
    cbn [negb]. cbv zeta. change longDataOffset with 7.
    assert (7 < if 7 + argLen <? MaxAllowedPacket - 1 then 7 + argLen else pktLen) as Hp' by (case_match; lia).
    generalize dependent (if 7 + argLen <? MaxAllowedPacket - 1 then 7 + argLen else pktLen). intros p Hp'.
    do 5 (apply connected_seq; [connected|intros ?]). apply IH; lia. }
  unfold writeCommandLongData. apply connected_seq; [|intros _; connected]. apply H; unfold len; lia.
Qed.

(** *** A result that is read step by step *)

#[global] Instance RawResult_Fed : Fed RawResult :=
  {| left_ r := left_ (rr_conn r); kept r := match rr_closeFunc r with Some o => returned o | None => True end |}.

Lemma onRaw_returns {A} (m : M A) Q : returns (S := Conn) m Q → returns (onRaw m) Q.
Proof. intros Hm r Hr. unfold onRaw. destruct (Hm (rr_conn r) Logic.I) as (H1 & H2 & _ & H4). by destruct (m (rr_conn r)) as [c o]. Qed.

Lemma RawClose_returns : returns RawClose any.
Proof.
  intros r Hr. unfold RawClose. destruct (rr_close r) as [[e|]|]; [done..|]. simpl in Hr.
  destruct (rr_closeFunc r) as [[[]|e| |]|] eqn:E; try done; simpl; rewrite E; done.
Qed.

Lemma closingWhen_returns {A} cond (m : SM RawResult A) Q : returns m Q → returns (closingWhen cond m) Q.
Proof.
  intros Hm r Hr. destruct (Hm r Hr) as (H1 & H2 & H3 & H4). unfold closingWhen. destruct (m r) as [r1 o]. cbn [fst snd] in *.
  destruct (RawClose_returns r1 H3) as (K1 & K2 & K3 & _). destruct (RawClose r1) as [r2 o2]. cbn [fst snd] in *.
  destruct o as [a|e| |]; [destruct (cond r1); [destruct o2|]|destruct o2|..]; cbn [fst snd]; try done; repeat split; try done; try lia; by auto.
Qed.

Lemma onceDo_returns state done_ body :
  (∀ o r, rr_conn (done_ o r) = rr_conn r ∧ rr_closeFunc (done_ o r) = rr_closeFunc r) →
  returns body any → returns (onceDo state done_ body) any.
Proof.
  intros Hd Hb r Hr. unfold onceDo. destruct (state r) as [[e|]|]; [done..|]. destruct (Hb r Hr) as (H1 & H2 & H3 & _).
  destruct (body r) as [r1 o]. cbn [fst snd] in *.
  assert (∀ oo, (left_ (done_ oo r1) ≤ left_ r)%nat ∧ kept (done_ oo r1)) as Hk.
  { intros oo. destruct (Hd oo r1) as [E1 E2]. simpl in *. by rewrite E1, E2. }
  destruct o as [[]|e| |]; try done; split; try done; split; try apply Hk; split; try apply Hk; done.
Qed.

Lemma postFlight_returns : returns postFlight any.
Proof.
  unfold postFlight, flight, preflight.
  apply returns_seq; [apply returns_seq|]; intros; apply closingWhen_returns, onceDo_returns; try done.
  - apply returns_seq; [|intros [[[[? ?] ?] ?] ?]; by apply returns_modify]. apply onRaw_returns, onePacket_returns. intros data.
    unfold parseQueryResponse, parseOKPacket. returning.
  - apply returns_get. intros r Hr. case_match; [by apply returns_ret|]. apply returns_seq; [|intros cs; by apply returns_modify].
    apply onRaw_returns. generalize 0. induction (Z.to_nat (rr_colNumber r)) as [|n IH]; intros i; cbn [readColumns]; [connected|].
    apply connected_seq; [|intros f; connected]. destruct (wantFields r); [apply ReadColumnDefinition_returns|].
    apply onePacket_returns. intros data. unfold parseColumnDefinitionType, columnType, needCol. returning.
  - apply returns_get. intros r Hr. case_match; [by apply returns_ret|]. apply onRaw_returns, onePacket_returns.
    intros data. unfold checkEndOfColumns. returning.
Qed.

Lemma nextRowData_returns : returns nextRowData any ∧ reads nextRowData.
Proof.
  assert (returns (S := Conn) readPacket any) as Hp.
  { unfold readPacket. apply connected_seq; [apply readOnePacket_returns|]. intros data. connected. }
  assert (reads (S := Conn) readPacket) as Hr.
  { apply (reads_bind (S := Conn) _ _ any any); [apply readOnePacket_reads|apply readOnePacket_returns|]. intros data _. connected. }
  assert (∀ r data, returns (
    eof ← liftS (isEOFPacket data);
    if (eof : bool) then
      _ ← modifyS rawEOF;
      _ ← (if has (rr_capabilities r) CapabilityClientDeprecateEOF
           then ok ← liftS (parseOKPacket data); modifyS (rawMore (has ok.1.2 ServerMoreResultsExists))
           else _ ← modifyS (rawMore false); r ← liftS (parseEOFPacket data); modifyS (rawMore r.2));
      liftS (Err EOF)
    else
      err ← liftS (isErrorPacket data);
      if (err : bool) then _ ← modifyS rawEOF; liftS (packetError []) else mret data) any) as Hrest.
  { intros r data. unfold parseOKPacket, parseEOFPacket. stated. }
  split; unfold nextRowData.
  - apply returns_get. intros r _. case_match; [stated|]. apply returns_seq; [by apply onRaw_returns|]. apply Hrest.
  - apply (reads_later _ _ any); [by intros r|]. intros r _. case_match; [by apply reads_error|].
    apply (reads_bind _ _ any any); [|by apply onRaw_returns|intros data _; apply Hrest].
    intros r0 _ a. pose proof (Hr (rr_conn r0) Logic.I) as H1. unfold onRaw. destruct (readPacket (rr_conn r0)) as [c o]. exact (H1 a).
Qed.

(** Discarding a result ends, with the end of its rows or an error. *)
Lemma Discard_returns : returns Discard any.
Proof.
  assert (∀ fuel r, kept r → (left_ r < fuel)%nat →
    returned (discardLoop fuel r).2 ∧ (left_ (discardLoop fuel r).1 ≤ left_ r)%nat ∧ kept (discardLoop fuel r).1) as H.
  { induction fuel as [|fuel IH]; intros r Hr Hf; [lia|]. cbn [discardLoop]. destruct nextRowData_returns as [H1 H2].
    destruct (H1 r Hr) as (K1 & K2 & K3 & _). specialize (H2 r Hr). unfold mbind, SM_bind.
    destruct (nextRowData r) as [r1 [d|e| |]]; cbn [fst snd] in *; try done. specialize (H2 d eq_refl).
    destruct (IH r1 K3) as (J1 & J2 & J3); [lia|]. split; [done|]. split; [lia|done]. }
  apply closingWhen_returns. apply returns_seq.
  - intros r Hr. destruct (postFlight_returns r Hr) as (H1 & H2 & H3 & _). unfold orElse. by destruct (postFlight r) as [r1 [[]|e| |]].
  - intros _ r Hr. unfold getS, mbind, SM_bind. case_match; [done|].
    destruct (H (S (length (incoming (rr_conn r)))) r Hr) as (H1 & H2 & H3); [simpl; lia|]. done.
Qed.
