(* ===== verification/RedirectTheory.v ===== *)
(** * The executor: theory

    The transactions of all connections are in one map.  Serving a connection
    uses and changes the entry of the connection alone: the bytes sent, the
    calls of the runtime and the state left do not depend on the others'
    entries.  At the end the connection has no transaction. *)
From S2P Require Import Prelude GoStd Value Encoding Packet Row RowCodec Auth Handshake HandshakeTheory ResultSet Statement Commands Redirect ServingTheory.

(** ** Locality *)

(** A state with the transactions and the identifier of the connection that
    is served. *)
Class HasTx (Tx S : Type) := {
  txs : S → gmap Z Tx;
  withTxs : gmap Z Tx → S → S;
  ident : S → Z;
}.

Class HasTxLaws {Tx S} (H : HasTx Tx S) := {
  txs_with t s : txs (withTxs t s) = t;
  ident_with t s : ident (withTxs t s) = ident s;
}.

Section Local.
Context {Tx S : Type} {H : HasTx Tx S} {HL : HasTxLaws H}.

(** The operation sees and changes only the entry of its connection. *)
Definition local {A} (m : SM S A) : Prop :=
  ∀ s t, t !! ident s = txs s !! ident s →
  ∃ t', m (withTxs t s) = (withTxs t' (m s).1, (m s).2) ∧ t' !! ident s = txs (m s).1 !! ident s ∧
    ident (m s).1 = ident s ∧ ∀ j, j ≠ ident s → txs (m s).1 !! j = txs s !! j.

(** The operation does not look at the transactions. *)
Definition blind {A} (m : SM S A) : Prop :=
  ∀ s t, m (withTxs t s) = (withTxs t (m s).1, (m s).2) ∧ txs (m s).1 = txs s ∧ ident (m s).1 = ident s.

Lemma blind_local {A} (m : SM S A) : blind m → local m.
Proof using. intros Hm s t Ht. destruct (Hm s t) as (E & Etx & Ei). exists t. rewrite E, Etx, Ei. done. Qed.

Lemma local_bind {A B} (m : SM S A) (k : A → SM S B) : local m → (∀ a, local (k a)) → local (m ≫= k).
Proof using HL.
  intros Hm Hk s t Ht. destruct (Hm s t Ht) as (t1 & E1 & Et1 & Ei1 & Ek1). unfold mbind, SM_bind. rewrite E1.
  destruct (m s) as [s1 [a| | |]]; cbn [fst snd] in *; [|by exists t1..].
  rewrite <- Ei1 in Et1. destruct (Hk a s1 t1 Et1) as (t2 & E2 & Et2 & Ei2 & Ek2). rewrite Ei1 in *. exists t2.
  split; [done|]. split; [done|]. split; [done|]. intros j Hj. rewrite Ek2, Ek1; done.
Qed.

(** What is made of the state does not depend on the transactions. *)
Lemma local_get {B} (k : S → SM S B) : (∀ s t, k (withTxs t s) = k s) → (∀ s, local (k s)) → local (getS ≫= k).
Proof using. intros Hk Hl s t Ht. unfold mbind, SM_bind, getS. rewrite Hk. by apply Hl. Qed.

Lemma blind_lift {A} (o : outcome A) : blind (liftS o).
Proof using. by intros s t. Qed.

Lemma blind_ret {A} (a : A) : blind (mret a).
Proof using. by intros s t. Qed.

Lemma local_lift {A} (o : outcome A) : local (liftS o).
Proof using. apply blind_local, blind_lift. Qed.

Lemma local_ret {A} (a : A) : local (mret a).
Proof using. apply blind_local, blind_ret. Qed.

Lemma blind_modify (f : S → S) :
  (∀ s t, f (withTxs t s) = withTxs t (f s)) → (∀ s, txs (f s) = txs s) → (∀ s, ident (f s) = ident s) → blind (modifyS f).
Proof using. intros H1 H2 H3 s t. unfold modifyS. rewrite H1. by split; [|split; [apply H2|apply H3]]. Qed.

Lemma local_catching {A} (m : SM S A) : local m → local (catching m).
Proof using.
  intros Hm s t Ht. destruct (Hm s t Ht) as (t' & E & Et & Ei & Ek). unfold catching. rewrite E.
  destruct (m s) as [s' [a|e| |]]; cbn [fst snd] in *; by exists t'.
Qed.

Lemma local_deferring {A} (m : SM S A) (f : SM S unit) : local m → local f → local (deferringS m f).
Proof using HL.
  intros Hm Hf s t Ht. destruct (Hm s t Ht) as (t1 & E1 & Et1 & Ei1 & Ek1). unfold deferringS. rewrite E1.
  destruct (m s) as [s1 r]; cbn [fst snd] in *. rewrite <- Ei1 in Et1. destruct (Hf s1 t1 Et1) as (t2 & E2 & Et2 & Ei2 & Ek2).
  rewrite E2. rewrite Ei1 in *. destruct (f s1) as [s2 [[]| | |]]; cbn [fst snd] in *; exists t2;
    (split; [done|]; split; [done|]; split; [done|]; intros j Hj; rewrite Ek2, Ek1; done).
Qed.
End Local.

(** The operations of a state one by one. *)
Ltac locally :=
  lazymatch goal with
  | |- local (mbind _ getS) => apply local_get; [reflexivity|intros ?; locally]
  | |- local (mbind _ _) => apply local_bind; [locally|intros ?; locally]
  | |- local (catching _) => apply local_catching; locally
  | |- local (deferringS _ _) => apply local_deferring; locally
  | |- local (match ?x with _ => _ end) => destruct x; locally
  | |- local (modifyS _) => try by apply blind_local, blind_modify
  | |- _ => auto with local
  end.

Create HintDb local discriminated.
#[export] Hint Resolve local_lift local_ret local_catching local_deferring blind_lift blind_ret : local.

(** ** The executor is local *)

Section Executor.
Context {W Tx : Type} {RT : Runtime W Tx} {P : Parser} {I : MapIter} (tm : simpleTenantManager).

#[local] Notation Exec := (RedirectExecutor (W := W) (Tx := Tx)).
#[local] Notation XS := (X (W := W) (Tx := Tx)).

#[global] Instance X_HasTx : HasTx Tx XS := {| txs x := localTransactionMap x.1; withTxs := setTxMap; ident x := frontID x.2 |}.

#[global] Instance X_HasTxLaws : HasTxLaws X_HasTx.
Proof. by split. Qed.

Lemma blind_onWorld {A} (m : SM W A) : blind (onWorld (Tx := Tx) m).
Proof. intros [e f] t. unfold onWorld, withTxs, X_HasTx, setTxMap. simpl. by destruct (m (world e)). Qed.

Lemma blind_onRun {A} (m : SM (W * gmap string cell) A) : blind (onRun (Tx := Tx) m).
Proof. intros [e f] t. unfold onRun, withTxs, X_HasTx, setTxMap. simpl. by destruct (m (world e, fr_variables f)) as [[w vars] r]. Qed.

Lemma local_getTx : local (getTx (W := W) (Tx := Tx)).
Proof.
  intros [e f] t Ht. exists t. unfold getTx, mbind, SM_bind, getS, mret, SM_ret. cbn [fst snd] in *.
  simpl in *. rewrite Ht. done.
Qed.

Lemma local_removeTx : local (removeTx (W := W) (Tx := Tx)).
Proof.
  apply local_bind; [apply local_getTx|]. intros tx. apply local_bind; [|by intros; apply local_ret].
  intros [e f] t Ht. simpl in *. exists (delete (frontID f) t). unfold modifyS. simpl. split; [done|].
  split; [by rewrite !lookup_delete_eq|]. split; [done|]. intros j Hj. by rewrite lookup_delete_ne.
Qed.

Lemma local_putTx tx : local (putTx (W := W) (Tx := Tx) tx).
Proof.
  intros [e f] t Ht. simpl in *. exists (<[frontID f := tx]> t). unfold putTx, modifyS. simpl. split; [done|].
  split; [by rewrite !lookup_insert_eq|]. split; [done|]. intros j Hj. by rewrite lookup_insert_ne.
Qed.

Lemma local_onWorld {A} (m : SM W A) : local (onWorld (Tx := Tx) m).
Proof. apply blind_local, blind_onWorld. Qed.

Lemma local_onRun {A} (m : SM (W * gmap string cell) A) : local (onRun (Tx := Tx) m).
Proof. apply blind_local, blind_onRun. Qed.

#[local] Hint Resolve local_getTx local_removeTx local_putTx local_onWorld local_onRun : local.

Lemma local_ExecuteUseDB db : local (Redirect.ExecuteUseDB (W := W) (Tx := Tx) tm db).
Proof. unfold Redirect.ExecuteUseDB. locally. Qed.

Lemma local_ExecuteFieldList data : local (Redirect.ExecuteFieldList data).
Proof. unfold Redirect.ExecuteFieldList. locally. Qed.

Lemma local_chooseSchema : local (chooseSchema (W := W) (Tx := Tx) tm).
Proof. unfold chooseSchema. locally. Qed.

Lemma local_runRuntime call : local (runRuntime call).
Proof. unfold runRuntime. locally. Qed.

#[local] Hint Resolve local_runRuntime : local.

Lemma local_runAnywhere call : local (runAnywhere call).
Proof. unfold runAnywhere. locally. Qed.

Lemma local_beginTx : local beginTx.
Proof. unfold beginTx. locally. Qed.

Lemma local_endTx finish : local (endTx (W := W) (Tx := Tx) finish).
Proof. unfold endTx. locally. Qed.

#[local] Hint Resolve local_ExecuteUseDB local_chooseSchema local_runAnywhere local_beginTx local_endTx : local.

Lemma local_doExecutorComQuery act : local (doExecutorComQuery tm act).
Proof. unfold doExecutorComQuery. destruct (ps_node act); cbv zeta; locally. Qed.

Lemma local_ExecutorComStmtExecute s : local (Redirect.ExecutorComStmtExecute s).
Proof. unfold Redirect.ExecutorComStmtExecute. cbv zeta. locally. Qed.

Lemma local_ConnectionClose : local (Redirect.ConnectionClose (W := W) (Tx := Tx)).
Proof. unfold Redirect.ConnectionClose. locally. Qed.

(** *** With a callback *)

Section Callback.
Context {S : Type} (h : composite → SM (Front * S) unit).
Hypothesis h_ident : ∀ c fs, frontID (h c fs).1.1 = frontID fs.1.

#[local] Notation YS := (Y (W := W) (Tx := Tx) (S := S)).

#[global] Instance Y_HasTx : HasTx Tx YS :=
  {| txs y := localTransactionMap y.1; withTxs t y := (mkRedirect t (world y.1), y.2); ident y := frontID y.2.1 |}.

#[global] Instance Y_HasTxLaws : HasTxLaws Y_HasTx.
Proof. by split. Qed.

Lemma local_onExec {A} (m : SM XS A) : local m → local (onExec (S := S) m).
Proof.
  intros Hm [e [f q]] t Ht. destruct (Hm (e, f) t Ht) as (t' & E & Et & Ei & Ek). unfold onExec. simpl in *.
  unfold setTxMap in E. simpl in E. rewrite E. destruct (m (e, f)) as [[e' f'] r]. by exists t'.
Qed.

Lemma local_callback c : local (onCallback (W := W) (Tx := Tx) (h c)).
Proof using h_ident.
  apply blind_local. intros [e [f q]] t. unfold onCallback. simpl. pose proof (h_ident c (f, q)) as Hid.
  destruct (h c (f, q)) as [[f' q'] r]. by split; [|split].
Qed.

Lemma local_answerStmt stmt : local (answerStmt (S := S) tm stmt).
Proof. unfold answerStmt. locally. apply local_onExec, local_doExecutorComQuery. Qed.

#[local] Hint Resolve local_callback local_answerStmt : local.

Lemma local_ExecutorComQuery data : local (Redirect.ExecutorComQuery tm h data).
Proof using h_ident.
  assert (∀ stmts, local (executeAll tm h stmts)) as Hall.
  { induction stmts as [|stmt stmts IH]; cbn [executeAll]; locally. }
  unfold Redirect.ExecutorComQuery, executeOne. cbv zeta. locally.
Qed.
End Callback.

(** *** Served *)

#[local] Notation SG := (Serving (E := Exec)).

#[global] Instance Serving_HasTx : HasTx Tx SG :=
  {| txs s := localTransactionMap (sg_executor s);
     withTxs t s := mkServing (sg_front s) (sg_statements s) (mkRedirect t (world (sg_executor s)));
     ident s := frontID (sg_front s) |}.

#[global] Instance Serving_HasTxLaws : HasTxLaws Serving_HasTx.
Proof. by split. Qed.

Lemma blind_onWire {A} (m : M A) : blind (S := SG) (onWire m).
Proof.
  intros [f st e] t. unfold onWire. simpl. unfold onFront, onConn. by destruct (m (sv_conn (fr_server f))) as [c r].
Qed.

Lemma local_onWire {A} (m : M A) : local (S := SG) (onWire m).
Proof. apply blind_local, blind_onWire. Qed.

Lemma local_onExecutor {A} (m : SM XS A) : local m → local (S := SG) (onExecutor m).
Proof.
  intros Hm [f st e] t Ht. destruct (Hm (e, f) t Ht) as (t' & E & Et & Ei & Ek). unfold onExecutor. simpl in *.
  unfold setTxMap in E. simpl in E. rewrite E. destruct (m (e, f)) as [[e' f'] r]. by exists t'.
Qed.

Context {FT : FloatText} {DC : DecimalLib} (bufPool : Z → bytes) (parse : bytes → outcome (list (outcome unit))).

Lemma queryCallback_ident c fs : frontID (queryCallback bufPool c fs).1.1 = frontID fs.1.
Proof.
  unfold queryCallback, flushPrev, mbind, SM_bind. destruct fs as [f [prev|]]; [|done]. simpl. unfold onFront, onConn.
  destruct (handleOnce bufPool _ _ prev true (sv_conn (fr_server f))) as [c' [[]| | |]]; done.
Qed.

Lemma flushPrev_ident more fs : frontID (flushPrev bufPool more fs).1.1 = frontID fs.1.
Proof.
  unfold flushPrev. destruct fs as [f [prev|]]; [|done]. simpl. unfold onFront, onConn.
  by destruct (handleOnce bufPool _ _ prev more (sv_conn (fr_server f))) as [c' [[]| | |]].
Qed.

Lemma local_runQuery data : local (S := SG) (runQuery (X := redirect tm) bufPool data).
Proof.
  intros [f st e] t Ht.
  destruct (local_ExecutorComQuery (queryCallback bufPool) queryCallback_ident data (e, (f, None)) t Ht) as (t' & E & Et & Ei & Ek).
  unfold runQuery. cbn [Commands.ExecutorComQuery redirect sg_executor sg_front sg_statements withTxs Serving_HasTx].
  cbn [withTxs Y_HasTx fst snd] in E. rewrite E.
  destruct (Redirect.ExecutorComQuery tm (queryCallback bufPool) data (e, (f, None))) as [[e' fp] r]. cbn [fst snd] in *. exists t'.
  pose proof (flushPrev_ident false fp) as Hf.
  destruct r as [[]| | |]; [destruct (flushPrev bufPool false fp) as [fp' r]|..]; (split; [done|]; split; [done|]; split; [|done]);
    cbn [ident Serving_HasTx Y_HasTx sg_front fst snd] in *; congruence.
Qed.

#[local] Hint Resolve local_onWire local_runQuery : local.

Lemma local_writeDone : local (S := SG) (writeDone bufPool).
Proof. unfold writeDone. locally. Qed.

Lemma local_forgetArgs id : local (S := SG) (forgetArgs id).
Proof. unfold forgetArgs. locally. Qed.

Lemma local_bindStmt data : local (S := SG) (bindStmt data).
Proof.
  apply blind_local. intros [f st e] t. unfold bindStmt. simpl. destruct (parseComStmtExecute (stmts st) data) as [[ss id] r]. by destruct r.
Qed.

#[local] Hint Resolve local_writeDone local_forgetArgs local_bindStmt : local.

(** The executor's operations as the server calls them. *)
Lemma local_calls :
  (∀ db, local (S := SG) (onExecutor (Commands.ExecuteUseDB (Executor := redirect tm) db))) ∧
  (∀ data, local (S := SG) (onExecutor (Commands.ExecuteFieldList (Executor := redirect tm) data))) ∧
  (∀ s, local (S := SG) (onExecutor (Commands.ExecutorComStmtExecute (Executor := redirect tm) s))) ∧
  local (S := SG) (onExecutor (Commands.ConnectionClose (Executor := redirect tm))).
Proof.
  split; [|split; [|split]]; intros; apply local_onExecutor.
  - apply local_ExecuteUseDB.
  - apply local_ExecuteFieldList.
  - apply local_ExecutorComStmtExecute.
  - apply local_ConnectionClose.
Qed.

#[local] Hint Extern 1 (local (onExecutor _)) => apply local_calls : local.

Lemma local_answerExecution result warn : local (S := SG) (answerExecution bufPool result warn).
Proof. unfold answerExecution. locally. Qed.

#[local] Hint Resolve local_answerExecution : local.

Lemma local_runStmt id parsed : local (S := SG) (runStmt (X := redirect tm) bufPool id parsed).
Proof. unfold runStmt. locally. Qed.

#[local] Hint Resolve local_runStmt : local.

Lemma local_ExecuteCommand data : local (S := SG) (ExecuteCommand (X := redirect tm) bufPool tm parse data).
Proof.
  unfold ExecuteCommand, handleInitDB, handleQuery, handleFieldList, handlePrepare, handleStmtExecute, handleStmtClose, handleStmtReset,
    handleSetOption. cbv zeta. locally.
Qed.

Lemma local_serveOne : local (S := SG) (serveOne (X := redirect tm) bufPool tm parse).
Proof. unfold serveOne. locally. apply local_ExecuteCommand. Qed.

Lemma local_serveLoop fuel : local (S := SG) (serveLoop (X := redirect tm) bufPool tm parse fuel).
Proof.
  induction fuel as [|fuel IH]; intros s t Ht; cbn [serveLoop];
    destruct (local_serveOne s t Ht) as (t1 & E1 & Et1 & Ei1 & Ek1); rewrite E1;
    destruct (serveOne bufPool tm parse s) as [s1 [[]| | |]]; cbn [fst snd] in *; try by exists t1.
  rewrite <- Ei1 in Et1. destruct (IH s1 t1 Et1) as (t2 & E2 & Et2 & Ei2 & Ek2). rewrite Ei1 in *. exists t2.
  split; [done|]. split; [done|]. split; [done|]. intros j Hj. rewrite Ek2, Ek1; done.
Qed.

Lemma local_closing : local (S := SG) (closing (X := redirect tm)).
Proof. unfold closing. locally. Qed.

Lemma closing_removes (s : SG) : txs (closing (X := redirect tm) s).1 !! ident s = None.
Proof.
  unfold closing, mbind, SM_bind, onWire, onFront, onConn, Close, modify, onExecutor. simpl.
  unfold Redirect.ConnectionClose, removeTx, getTx, getS, modifyS, mret, SM_ret, mbind, SM_bind. simpl.
  set (f := mkFront _ _). change (frontID f) with (frontID (sg_front s)).
  destruct (localTransactionMap (sg_executor s) !! frontID (sg_front s)) as [tx|]; simpl; [|by rewrite lookup_delete_eq].
  unfold catching, onWorld. simpl. destruct (tx_Rollback tx (world (sg_executor s))) as [w [r| | |]]; simpl; by rewrite lookup_delete_eq.
Qed.

(** The login keeps the identifier of the connection. *)
Definition keepsID {A} (m : SM Server A) : Prop := ∀ s, sv_connectionID (m s).1 = sv_connectionID s.

Lemma keepsID_bind {A B} (m : SM Server A) (k : A → SM Server B) : keepsID m → (∀ a, keepsID (k a)) → keepsID (m ≫= k).
Proof.
  intros Hm Hk s. specialize (Hm s). unfold mbind, SM_bind. destruct (m s) as [s1 [a| | |]]; simpl in *; try done. by rewrite Hk.
Qed.

Lemma keepsID_deferring {A} (m : SM Server A) f : keepsID m → keepsID f → keepsID (deferringS m f).
Proof.
  intros Hm Hf s. specialize (Hm s). unfold deferringS. destruct (m s) as [s1 r]. specialize (Hf s1).
  destruct (f s1) as [s2 [[]| | |]]; simpl in *; congruence.
Qed.

Lemma keepsID_onConn {A} (m : M A) : keepsID (onConn m).
Proof. intros s. unfold onConn. by destruct (m (sv_conn s)). Qed.

Lemma keepsID_onListener {A} (m : SM Listener A) : keepsID (onListener m).
Proof. intros s. unfold onListener. by destruct (m (sv_listener s)). Qed.

Lemma keepsID_handshake rand : keepsID (handshake bufPool tm rand).
Proof.
  unfold handshake. apply keepsID_bind; [done|intros salt]. apply keepsID_bind; [done|intros v].
  apply keepsID_bind; [apply keepsID_onConn|intros _]. apply keepsID_bind; [apply keepsID_onConn|intros response].
  apply keepsID_deferring; [|apply keepsID_onConn]. apply keepsID_bind; [apply keepsID_onListener|intros h]. cbv zeta.
  by destruct (ValidateHash tm _) as [h' [e|]].
Qed.

Lemma login_connectionID rand : keepsID (login bufPool tm rand).
Proof.
  intros s. unfold login. pose proof (keepsID_handshake rand s) as Hh. destruct (handshake bufPool tm rand s) as [v [[]|e| |]]; simpl in *; try done.
  - set (v' := mkServer _ _ _ _ _ _ _ _). pose proof (keepsID_onConn (writeOKPacket bufPool 0 0 (sv_statusFlags v') 0) v') as Hw.
    destruct (onConn _ v') as [v2 [[]| | |]]; simpl in *; congruence.
  - pose proof (keepsID_onConn (writeErrorPacketFromError bufPool (reported e)) v) as Hw.
    destruct (onConn _ v) as [v2 [[]| | |]]; simpl in *; congruence.
Qed.

(** The login does not see the executor. *)
Lemma blind_login rand : blind (S := SG) (λ s,
  let '(v, r) := login bufPool tm rand (fr_server (sg_front s)) in
  (mkServing (mkFront v (fr_variables (sg_front s))) (sg_statements s) (sg_executor s), r)).
Proof.
  intros [f st e] t. simpl. pose proof (login_connectionID rand (fr_server f)) as Hid.
  destruct (login bufPool tm rand (fr_server f)) as [v r]. by split; [|split].
Qed.

Lemma local_handle rand : local (S := SG) (handle (X := redirect tm) bufPool tm parse rand).
Proof.
  intros s t Ht. destruct (blind_login rand s t) as (E & Etx & Ei). unfold handle. cbn [sg_front sg_statements sg_executor withTxs Serving_HasTx] in *.
  destruct (login bufPool tm rand (fr_server (sg_front s))) as [v r]. cbn [fst snd] in *.
  set (s1 := mkServing (mkFront v (fr_variables (sg_front s))) (sg_statements s) (sg_executor s)) in *.
  change (mkServing _ _ (mkRedirect t _)) with (withTxs t s1).
  assert (t !! ident s1 = txs s1 !! ident s1) as Ht1 by (by rewrite Ei, Etx).
  assert (∀ s2 t2, t2 !! ident s2 = txs s2 !! ident s2 → ident s2 = ident s → (∀ j, j ≠ ident s → txs s2 !! j = txs s !! j) →
    ∃ t', closing (X := redirect tm) (withTxs t2 s2) = (withTxs t' (closing (X := redirect tm) s2).1, (closing (X := redirect tm) s2).2) ∧
      t' !! ident s = txs (closing (X := redirect tm) s2).1 !! ident s ∧ ident (closing (X := redirect tm) s2).1 = ident s ∧
      ∀ j, j ≠ ident s → txs (closing (X := redirect tm) s2).1 !! j = txs s !! j) as Hclose.
  { intros s2 t2 Ht2 Ei2 Ek2. destruct (local_closing s2 t2 Ht2) as (t' & Ec & Ect & Eci & Eck). rewrite Ei2 in *. exists t'.
    split; [done|]. split; [done|]. split; [done|]. intros j Hj. rewrite Eck, Ek2; done. }
  destruct r as [[|]| | |]; try (apply Hclose; [done|done|by rewrite Etx]); [|exists t; cbn [fst snd]; split; [done|split; [by rewrite Etx|split; [done|intros j _; by rewrite Etx]]]].
  unfold serve. change (incomingOf (withTxs t s1)) with (incomingOf s1).
  destruct (local_serveLoop (length (incomingOf s1)) s1 t Ht1) as (t2 & E2 & Et2 & Ei2 & Ek2). rewrite E2.
  destruct (serveLoop bufPool tm parse (length (incomingOf s1)) s1) as [s2 r]. cbn [fst snd] in *. rewrite Ei in *.
  destruct r as [[]| | |]; try (apply Hclose; [by rewrite Ei2|done|intros j Hj; by rewrite Ek2, Etx]).
  exists t2. split; [done|]. split; [done|]. split; [done|]. intros j Hj. by rewrite Ek2, Etx.
Qed.

Lemma handle_removes rand (s : SG) :
  returned (handle (X := redirect tm) bufPool tm parse rand s).2 →
  txs (handle (X := redirect tm) bufPool tm parse rand s).1 !! ident s = None.
Proof.
  unfold handle. destruct (blind_login rand s (txs s)) as (_ & Etx & Ei).
  destruct (login bufPool tm rand (fr_server (sg_front s))) as [v r]. cbn [fst snd] in *.
  set (s1 := mkServing (mkFront v (fr_variables (sg_front s))) (sg_statements s) (sg_executor s)) in *.
  destruct r as [[|]| | |]; rewrite <- Ei; try done; try (intros _; apply closing_removes).
  unfold serve. destruct (local_serveLoop (length (incomingOf s1)) s1 (txs s1) eq_refl) as (_ & _ & _ & Ei2 & _).
  destruct (serveLoop bufPool tm parse (length (incomingOf s1)) s1) as [s2 r]. cbn [fst snd] in Ei2. rewrite <- Ei2.
  destruct r as [[]| | |]; try done; intros _; apply closing_removes.
Qed.

(** C7: The connections do not disturb each other's transactions, although
    all are in one map: serving a connection, from the login over any sequence
    of commands to its end, leaves the entry of every other connection as it
    was; the bytes sent, the statements, the state of the runtime and the
    outcome are the same whatever the entries of the others are.  When it is
    over, be it by an error or a panic, the connection has no transaction
    left; and it comes to an end whatever the client sends, provided that the
    parser, the runtime and the random source return. *)
Theorem connection_isolated rand (s : SG) (others : gmap Z Tx) :
  let id := frontID (sg_front s) in
  let run := handle (X := redirect tm) bufPool tm parse rand in
  others !! id = localTransactionMap (sg_executor s) !! id →
  (∃ others', run (mkServing (sg_front s) (sg_statements s) (mkRedirect others (world (sg_executor s)))) =
    (mkServing (sg_front (run s).1) (sg_statements (run s).1) (mkRedirect others' (world (sg_executor (run s).1))), (run s).2)) ∧
  (∀ j, j ≠ id → localTransactionMap (sg_executor (run s).1) !! j = localTransactionMap (sg_executor s) !! j) ∧
  (returned (run s).2 → localTransactionMap (sg_executor (run s).1) !! id = None) ∧
  (ReturningRuntime RT → ReturningParser P → (∀ q, returned (parse q)) → returned rand → returned (run s).2).
Proof.
  intros id run Ht. destruct (local_handle rand s others Ht) as (t' & E & _ & _ & Ek). split; [by exists t'|]. split; [done|].
  split; [apply handle_removes|]. intros HR HP Hparse Hrand. by apply handle_returned.
Qed.
End Executor.

(** ** Statements that go wrong *)

Section Flaws.
Context {W Tx : Type} {RT : Runtime W Tx} {I : MapIter} (tm : simpleTenantManager).

(** A connection without a schema, of a tenant with one cluster, is refused
    its first change of data because no database is selected; but the cluster
    has become its schema by then, so that the same statement is executed when
    it is sent again. *)
Theorem refused_once act cluster (x : X (W := W) (Tx := Tx)) :
  ps_node act ∈ [InsertStmt; UpdateStmt; DeleteStmt; AlterTableStmt] → parseHints (ps_hints act) = Ok tt →
  frontSchema x.2 = [] → GetClusters tm (frontTenant x.2) = [cluster] → cluster ≠ [] →
  rt_Load (frontTenant x.2) cluster (world x.1) = Ok tt →
  let first := doExecutorComQuery tm act x in
  first = ((x.1, SetSchema cluster x.2), Err errNoDatabaseSelected) ∧
  doExecutorComQuery tm act first.1 = runAnywhere (mkCall act [] false) first.1.
Proof.
  intros Hn Hh Hs Hc Hne Hl first. assert (len cluster <? 1 = false) as Hlen.
  { apply Z.ltb_ge. unfold len. destruct cluster; [done|simpl; lia]. }
  assert (first = ((x.1, SetSchema cluster x.2), Err errNoDatabaseSelected)) as ->.
  { unfold first, doExecutorComQuery. rewrite !elem_of_cons in Hn.
    destruct Hn as [-> |[-> |[-> |[-> |[]%elem_of_nil]]]]; unfold chooseSchema, mbind, SM_bind, liftS, getS, modifyS;
      rewrite Hh, Hs; change (len [] <? 1) with true; cbv iota; rewrite Hc; unfold mret, SM_ret; cbn [fst snd];
      change (frontSchema (SetSchema cluster x.2)) with cluster; change (frontTenant (SetSchema cluster x.2)) with (frontTenant x.2);
      by rewrite Hl. }
  split; [done|]. unfold doExecutorComQuery. rewrite !elem_of_cons in Hn. cbn [fst].
  destruct Hn as [-> |[-> |[-> |[-> |[]%elem_of_nil]]]]; unfold chooseSchema, mbind, SM_bind, liftS, getS; rewrite Hh; cbn [fst snd];
    change (frontSchema (SetSchema cluster x.2)) with cluster; rewrite Hlen; unfold mret, SM_ret; cbn [fst snd];
    change (frontSchema (SetSchema cluster x.2)) with cluster; change (frontTenant (SetSchema cluster x.2)) with (frontTenant x.2);
    by rewrite Hl.
Qed.

(** A BEGIN within a transaction abandons it: the new transaction takes the
    place of the old one, which is neither committed nor rolled back, since
    the runtime is called to begin a transaction and for nothing else. *)
Theorem begin_abandons act (x : X (W := W) (Tx := Tx)) old new w1 w2 :
  ps_node act = BeginStmt → parseHints (ps_hints act) = Ok tt → 0 < len (frontSchema x.2) →
  rt_Load (frontTenant x.2) (frontSchema x.2) (world x.1) = Ok tt →
  localTransactionMap x.1 !! frontID x.2 = Some old →
  NewXAHook (frontTenant x.2) (world x.1) = (w1, Ok tt) → rt_Begin (frontTenant x.2) (frontSchema x.2) w1 = (w2, Ok new) →
  doExecutorComQuery tm act x =
    ((mkRedirect (<[frontID x.2 := new]> (localTransactionMap x.1)) w2, x.2), Ok (Some emptyResult, 0)).
Proof.
  intros Hn Hh Hs Hl Ho Hx Hb. unfold doExecutorComQuery. rewrite Hn.
  unfold chooseSchema, mbind, SM_bind, liftS, getS. rewrite Hh. rewrite (proj2 (Z.ltb_ge _ _)) by lia. unfold mret, SM_ret. rewrite Hl.
  unfold beginTx, mbind, SM_bind, getS, onWorld, catching, putTx, modifyS. rewrite Hx. cbn [world localTransactionMap fst snd]. by rewrite Hb.
Qed.

(** A transaction that cannot be begun is reported as a result without data. *)
Lemma failed_begin_hidden act (x : X (W := W) (Tx := Tx)) w1 w2 e :
  ps_node act = BeginStmt → parseHints (ps_hints act) = Ok tt → 0 < len (frontSchema x.2) →
  rt_Load (frontTenant x.2) (frontSchema x.2) (world x.1) = Ok tt →
  NewXAHook (frontTenant x.2) (world x.1) = (w1, Ok tt) → rt_Begin (frontTenant x.2) (frontSchema x.2) w1 = (w2, Err e) →
  (doExecutorComQuery tm act x).2 = Ok (None, 0).
Proof.
  intros Hn Hh Hs Hl Hx Hb. unfold doExecutorComQuery. rewrite Hn.
  unfold chooseSchema, mbind, SM_bind, liftS, getS. rewrite Hh. rewrite (proj2 (Z.ltb_ge _ _)) by lia. unfold mret, SM_ret. rewrite Hl.
  unfold beginTx, mbind, SM_bind, getS, onWorld, catching. rewrite Hx. cbn [world localTransactionMap fst snd]. by rewrite Hb.
Qed.
End Flaws.

(** ** Examples *)

(** A runtime that notes its calls and numbers its transactions. *)
Module NotedRuntime.
Inductive note := NBegin (tx : nat) | NExecute | NTxExecute (tx : nat) | NCommit (tx : nat) | NRollback (tx : nat).

Definition noting {A} (n : note) (a : A) : SM (list note) A := λ w, (w ++ [n], Ok a).
Definition running {A} (n : note) (a : A) : SM (list note * gmap string cell) A := λ w, ((w.1 ++ [n], w.2), Ok a).

#[export] Instance runtime : Runtime (list note) nat := {|
  rt_Load _ _ _ := Ok tt;
  NewXAHook _ := mret tt;
  rt_Begin _ _ := λ w, noting (NBegin (length w)) (length w) w;
  rt_Execute _ _ _ := running NExecute (Some emptyResult, 0);
  rt_FieldList _ _ _ _ := mret [];
  tx_Execute tx _ := running (NTxExecute tx) (Some emptyResult, 0);
  tx_Commit tx := noting (NCommit tx) (Some emptyResult, 0);
  tx_Rollback tx := noting (NRollback tx) (Some emptyResult, 0);
|}.

(** A statement is its first letter. *)
#[export] Instance parser : Parser := {|
  ParseOneStmt q _ := Ok (mkParsed (match q with 66 :: _ => BeginStmt | 67 :: _ => CommitStmt | 73 :: _ => InsertStmt | _ => OtherStmt end) [] q);
  Parse q _ := Err (NewError "not one statement");
|}.

#[export] Instance runtime_returning : ReturningRuntime runtime.
Proof. split; try done; intros; split; try done; by intros ? [= <-]. Qed.

#[export] Instance parser_returning : ReturningParser parser.
Proof. split; try done. by intros q charset act [= <-]. Qed.
End NotedRuntime.

Module RedirectExamples.
Import NotedRuntime NoFloats ExactDecimal ForwardIter HandshakeExamples.

Definition tenants : simpleTenantManager := LoginExamples.registry.

(** The packet of a query of one letter. *)
Definition query (letter : Z) : bytes := [2; 0; 0; 0; ComQuery; letter].

(** A client that logs in, begins a transaction, changes data in it, and
    leaves. *)
Definition bytesOf : bytes :=
  packet2 (K := NoKeys.instance) server (client "s3cret") rand ++ query 66 ++ query 73 ++ [1; 0; 0; 0; ComQuit].

(** Connection 9 has a transaction open. *)
Definition served : Serving (E := RedirectExecutor (W := list note) (Tx := nat)) :=
  mkServing (mkFront (setConn (setIncoming bytesOf freshConn) server) ∅) (mkStatements 0 ∅) (mkRedirect {[9 := 4%nat]} []).

Definition session (s : Serving (E := RedirectExecutor (W := list note) (Tx := nat))) :=
  handle (X := redirect tenants) zeroPool tenants (λ q, p ← ParseOneStmt q 0; Ok (ps_hints p)) (Ok rand) s.

Lemma session_world : world (sg_executor (session served).1) = [NBegin 0; NTxExecute 0; NRollback 0].
Proof. vm_compute. reflexivity. Qed.

Lemma connection_isolated_witness :
  world (sg_executor (session served).1) = [NBegin 0; NTxExecute 0; NRollback 0] ∧
  localTransactionMap (sg_executor (session served).1) !! 9 = Some 4%nat ∧ localTransactionMap (sg_executor (session served).1) !! 7 = None.
Proof.
  split; [exact session_world|].
  assert (localTransactionMap (sg_executor served) !! 9 = Some 4%nat) as Hnine by (vm_compute; reflexivity).
  assert (frontID (sg_front served) = 7) as Hseven by (vm_compute; reflexivity).
  generalize dependent served. intros s Hnine Hseven. unfold session in *.
  destruct (connection_isolated tenants zeroPool (λ q, p ← ParseOneStmt q 0; Ok (ps_hints p)) (Ok rand) s _ eq_refl) as (_ & Hothers & Hown & Hends).
  cbv zeta in Hothers, Hown, Hends. rewrite Hseven in Hothers. rewrite Hseven in Hown. split; [|exact (Hown (Hends _ _ (λ q, Logic.I) Logic.I))].
  rewrite <- Hnine. apply Hothers. discriminate.
Defined.

(** A connection of the tenant blue without a schema. *)
Definition fresh : X (W := list note) (Tx := nat) :=
  (mkRedirect ∅ [], mkFront (mkServer (mkListener (text "5.7.0") 0 0) freshConn 7 (text "blue") 0 0 [] 2) ∅).

Definition insert : ParsedStmt := mkParsed InsertStmt [] (text "I").
Definition begin : ParsedStmt := mkParsed BeginStmt [] (text "B").

Lemma refused_once_witness :
  let first := doExecutorComQuery tenants insert fresh in
  first.2 = Err errNoDatabaseSelected ∧
  doExecutorComQuery tenants insert first.1 = runAnywhere (mkCall insert [] false) first.1.
Proof.
  assert (ps_node insert ∈ [InsertStmt; UpdateStmt; DeleteStmt; AlterTableStmt]) as Hin by (apply elem_of_cons; left; reflexivity).
  assert (GetClusters tenants (frontTenant fresh.2) = [text "employees"]) as Hc by (vm_compute; reflexivity).
  destruct (refused_once tenants insert (text "employees") fresh Hin eq_refl eq_refl Hc ltac:(discriminate) eq_refl) as [H1 H2].
  cbv zeta in *. split; [|exact H2]. rewrite H1. reflexivity.
Defined.

Lemma begin_abandons_witness :
  doExecutorComQuery tenants begin (mkRedirect {[7 := 4%nat]} [], SetSchema (text "employees") fresh.2) =
    ((mkRedirect (<[7 := 0%nat]> {[7 := 4%nat]}) [NBegin 0], SetSchema (text "employees") fresh.2), Ok (Some emptyResult, 0)).
Proof.
  exact (begin_abandons tenants begin (mkRedirect {[7 := 4%nat]} [], SetSchema (text "employees") fresh.2) 4%nat 0%nat [] [NBegin 0]
    eq_refl eq_refl ltac:(vm_compute; reflexivity) eq_refl eq_refl eq_refl eq_refl).
Defined.
End RedirectExamples.
