(* ===== verification/Optimize.v ===== *)
(** * Optimizer: [pkg/runtime/optimize], [pkg/runtime/plan/dml]

    From statements to plans: hints, the tables of UPDATE and DELETE, the
    splitting of INSERT by table, and the execution of the plan of a DELETE.
    The handlers are the bodies that [Optimizer.Optimize] runs with a deferred
    recover, which turns a panic into an error. *)
From S2P Require Import Prelude BTree GoStd Value Cmp Ast ExtValue Shards Range Topology DatabaseTable Rule Calc Visitor Sequence.

Definition ErrDenyFullScan : error := NewError "optimize: the full-scan query is not allowed".
Definition ErrNoShardKeyFound : error := NewError "optimize: no shard key found".

Definition IsDenyFullScanErr (err : error) : bool := errors_Is err ErrDenyFullScan.
Definition IsNoShardKeyFoundErr (err : error) : bool := errors_Is err ErrNoShardKeyFound.

(** ** Hints: [pkg/proto/hint], [hints.go] *)

Inductive hintType := TypeMaster | TypeSlave | TypeRoute | TypeFullScan | TypeDirect | TypeTrace.

#[global] Instance hintType_eq_dec : EqDecision hintType.
Proof. solve_decision. Defined.

Record KeyValue := mkKeyValue { K : string; V : string }.
Record Hint := mkHint { hint_Type : hintType; hint_Inputs : list KeyValue }.

Definition Contains (hType : hintType) (hints : list Hint) : bool := existsb (λ v, bool_decide (hint_Type v = hType)) hints.

(** [strings.Split(s, ".")]. *)
Fixpoint splitDot (s : string) : list string :=
  match s with
  | EmptyString => [""]
  | String c s =>
      if (c =? ".")%char then "" :: splitDot s
      else match splitDot s with x :: l => String c x :: l | [] => [String c ""] end
  end.

(** One turn of the loop of [validate]: the sharding hint and the node hint
    seen so far. *)
Definition validateOne (seen : bool * bool) (v : Hint) : outcome (bool * bool) :=
  let shardingHint := bool_decide (hint_Type v ∈ [TypeFullScan; TypeDirect; TypeRoute]) in
  let nodeHint := bool_decide (hint_Type v ∈ [TypeMaster; TypeSlave]) in
  if shardingHint && seen.1 then Err (NewError "hint type conflict")
  else if nodeHint && seen.2 then Err (NewError "hint type conflict")
  else if bool_decide (hint_Type v = TypeRoute) && existsb (λ i, negb (length (splitDot (V i)) =? 2)%nat) (hint_Inputs v)
  then Err (NewError "route hint format error")
  else Ok (seen.1 || shardingHint, seen.2 || nodeHint).

Fixpoint validate (seen : bool * bool) (hints : list Hint) : outcome unit :=
  match hints with
  | [] => Ok tt
  | v :: hints => seen ← validateOne seen v; validate seen hints
  end.

(** [hintTables[tb[0]] = append(hintTables[tb[0]], tb[1])]. *)
Definition routeInput (m : DatabaseTables) (i : KeyValue) : outcome DatabaseTables :=
  match splitDot (V i) with
  | db :: tb :: _ => Ok (append_table db tb m)
  | _ => Panic
  end.

Fixpoint routeInputs (m : DatabaseTables) (inputs : list KeyValue) : outcome DatabaseTables :=
  match inputs with
  | [] => Ok m
  | i :: inputs => m ← routeInput m i; routeInputs m inputs
  end.

Definition CustomRoute (hints : list Hint) : outcome DatabaseTables :=
  routeInputs ∅ (concat (map hint_Inputs (List.filter (λ h, bool_decide (hint_Type h = TypeRoute)) hints))).

(** [ast.WriteID]: an identifier in backquotes, with its backquotes doubled.
    Identifiers are valid UTF-8, which ranging over their runes copies. *)
Fixpoint doubleQuote (s : string) : string :=
  match s with
  | EmptyString => EmptyString
  | String c s => if (c =? "`")%char then String c (String c (doubleQuote s)) else String c (doubleQuote s)
  end.
Definition WriteID (field : string) : string := ("`" ++ doubleQuote field ++ "`")%string.

(** [TableName.String]. *)
Definition TableName_String (t : list string) : outcome string :=
  match t with
  | [] => Panic
  | x :: l => Ok (foldl (λ sb i, sb ++ "." ++ WriteID i)%string (WriteID x) l)
  end.

Section Hints.
Context {I : MapIter}.

Definition Direct (tableName : list string) (ru : Rule) : outcome DatabaseTables :=
  name ← Suffix tableName;
  vt ← MustVTable ru name;
  smallest ← Smallest (topology vt);
  match smallest with
  | None => Err (NewError "not found db0")
  | Some (db0, _) => s ← TableName_String tableName; Ok {[db0 := [s]]}
  end.

(** The first hint with a handler decides. *)
Definition Hints (tableName : list string) (hints : list Hint) (ru : Rule) : outcome (option DatabaseTables) :=
  _ ← validate (false, false) hints;
  match List.find (λ v, bool_decide (hint_Type v ∈ [TypeDirect; TypeRoute])) hints with
  | None => Ok None
  | Some v =>
      m ← (if decide (hint_Type v = TypeDirect) then Direct tableName ru else CustomRoute hints);
      Ok (Some m)
  end.
End Hints.

(** ** Statements and plans *)

Record UpdateElement := mkUpdateElement { ue_Column : list string; ue_Value : ExpressionNode }.

(** Of the statements, the parts that planning reads or replaces; the others are
    copied. *)
Record UpdateStatement := mkUpdate { us_Table : list string; us_Updated : list UpdateElement; us_Where : option ExpressionNode }.

Record DeleteStatement := mkDelete { ds_Table : list string; ds_Where : option ExpressionNode }.

Record HintItem := mkHintItem { hi_TP : Z; hi_HintExpr : string }.

Record InsertStatement := mkInsert {
  is_flag : Z;
  is_Hint : option (list HintItem);
  is_Table : list string;
  is_Columns : list string;
  is_DuplicatedUpdates : list UpdateElement;
  is_Values : list (list ExpressionNode);
}.

(** [UpdatePlan], with nil shards for a table without sharding, and
    [AlwaysEmptyExecPlan]. *)
Inductive updatePlan := UpdatePlan (stmt : UpdateStatement) (shards : option DatabaseTables) | AlwaysEmptyExecPlan.

(** [TransparentPlan] and [SimpleDeletePlan]. *)
Inductive deletePlan := TransparentPlan (stmt : DeleteStatement) | SimpleDeletePlan (stmt : DeleteStatement) (shards : DatabaseTables).

(** [SimpleInsertPlan]: the statements of each database. *)
Record SimpleInsertPlan := mkInsertPlan { batch : gmap string (list InsertStatement) }.

Definition Put (sp : SimpleInsertPlan) (db : string) (stmt : InsertStatement) : SimpleInsertPlan :=
  mkInsertPlan (<[db := default [] (batch sp !! db) ++ [stmt]]> (batch sp)).

(** [slices.Index] of a string. *)
Definition slices_Index (l : list string) (x : string) : option nat := fst <$> list_find (λ y, y = x) l.
Definition slices_Contains (l : list string) (x : string) : bool := bool_decide (x ∈ l).

(** An element of a slice; out of range panics. *)
Definition at_index {A} (l : list A) (i : option nat) : outcome A :=
  match i with
  | Some i => match l !! i with Some x => Ok x | None => Panic end
  | None => Panic
  end.

(** [Optimizer.Optimize] around the handler of the statement's mode. *)
Definition Optimize {S P} (handler : option (S → outcome P)) (stmt : S) : outcome P :=
  match handler with
  | None => Err (NewError "optimize: no handler found")
  | Some h => match h stmt with Panic => Err (NewError "cannot analyze sql") | r => r end
  end.

(** [value.( *ast.PredicateExpressionNode).P]. *)
Definition buildFilter (column : string) (value : ExpressionNode) : outcome ExpressionNode :=
  match value with
  | PredicateExpressionNode p =>
      Ok (PredicateExpressionNode (BinaryComparisonPredicateNode (AtomPredicateNode (ColumnNameExpressionAtom [column])) p Ceq))
  | _ => Panic
  end.

Definition keyFilter (columns : list string) (values : list ExpressionNode) (key : string) : outcome ExpressionNode :=
  column ← at_index columns (slices_Index columns key);
  value ← at_index values (slices_Index columns key);
  buildFilter column value.

Fixpoint conjoin (columns : list string) (values : list ExpressionNode) (cur : ExpressionNode) (keys : list string) : outcome ExpressionNode :=
  match keys with
  | [] => Ok cur
  | key :: keys => next ← keyFilter columns values key; conjoin columns values (LogicalExpressionNode false cur next) keys
  end.

Definition buildLogicalFilter (columns : list string) (values : list ExpressionNode) (keys : list string) : outcome ExpressionNode :=
  match keys with
  | [] => Panic
  | key :: keys => cur ← keyFilter columns values key; conjoin columns values cur keys
  end.

(** The filter of a row: [key = value] for one key, a conjunction for more. *)
Definition rowFilter (columns : list string) (values : list ExpressionNode) (keys : list string) : outcome ExpressionNode :=
  match keys with
  | [key] => keyFilter columns values key
  | _ => buildLogicalFilter columns values keys
  end.

(** The first vshard whose keys are all inserted. *)
Definition insertShard (vshards : list VShard) (columns : list string) : option VShard :=
  List.find (λ shard, forallb (slices_Contains columns) (VShard_Variables shard)) vshards.

(** ** Planning: [update.go], [delete.go], [insert.go] *)

Section Plans.
Context {B : BTree} {TL : TimeLib} {FT : FloatText} {D : DecimalLib} {O : Opcodes} {SL : SliceLib} {I : MapIter}.
Context (warehouse : gmap string Func) (serverVersion : option string) (args : list (option ProtoValue)).
Context (rnd : ShardMetadata → Comparative → nat → Z) (dbFirst : bool).
Context (ru : Rule) (hints : list Hint).

Abbreviation shardTable := (SimpleShard warehouse serverVersion args rnd dbFirst ru).

(** [if len(o.Hints) > 0 { shards, err = Hints(...) }]. *)
Definition hintShards (table : list string) : outcome (option DatabaseTables) :=
  match hints with [] => Ok None | _ => WithStack (Hints table hints ru) end.

Definition ComputeShards (table : list string) (where_ : option ExpressionNode) : outcome (option DatabaseTables) :=
  name ← Suffix table;
  match Rule_VTable ru name with
  | None => Ok None
  | Some vt =>
      hinted ← hintShards table;
      dt ← match hinted with
           | Some m => Ok (Some m)
           | None =>
               rs ← WithStack (ForSingleSelect warehouse serverVersion args rnd dbFirst ru [] table where_);
               renderAll (Some vt) name rs None
           end;
      if IsFullScan dt && negb (AllowFullScan vt) then Err (WrapError ErrDenyFullScan)
      else if IsEmpty dt then Ok dt
      else match dt with
           | None => all ← Enumerate (topology vt); Ok (Some all)
           | Some _ => Ok dt
           end
  end.

Definition optimizeDelete (stmt : DeleteStatement) : outcome deletePlan :=
  dt ← WithStack (ComputeShards (ds_Table stmt) (ds_Where stmt));
  match dt with
  | None => Ok (TransparentPlan stmt)
  | Some m => Ok (SimpleDeletePlan stmt m)
  end.

(** The check that no sharding key is updated. *)
Fixpoint checkUpdated (vShards : list VShard) (updated : list UpdateElement) : outcome unit :=
  match updated with
  | [] => Ok tt
  | element :: updated =>
      column ← Suffix (ue_Column element);
      if existsb (λ vs, slices_Contains (VShard_Variables vs) column) vShards
      then Err (NewError "your value to be updated is belong to a sharding key")
      else checkUpdated vShards updated
  end.

(** The shards of an UPDATE, and whether it counts as a full scan: hinted
    shards leave the initial true. *)
Definition updateShards (stmt : UpdateStatement) : outcome (option DatabaseTables * bool) :=
  match us_Where stmt with
  | None => Ok (None, true)
  | Some where_ =>
      hinted ← hintShards (us_Table stmt);
      match hinted with
      | Some m => Ok (Some m, true)
      | None =>
          r ← WithStack (shardTable [] (us_Table stmt) (Some where_));
          Ok (r.2, match r.2 with None => true | Some _ => false end)
      end
  end.

Definition optimizeUpdate (stmt : UpdateStatement) : outcome updatePlan :=
  name ← Suffix (us_Table stmt);
  match Rule_VTable ru name with
  | None => Ok (UpdatePlan stmt None)
  | Some vt =>
      _ ← checkUpdated (shards vt) (us_Updated stmt);
      '(dt, fullScan) ← updateShards stmt;
      if (fullScan : bool) && negb (AllowFullScan vt) then Err ErrDenyFullScan
      else if IsEmpty dt then Ok AlwaysEmptyExecPlan
      else if IsFullScan dt then all ← Enumerate (topology vt); Ok (UpdatePlan stmt (Some all))
      else Ok (UpdatePlan stmt dt)
  end.
End Plans.

(** ** Inserting *)

(** Of the metadata, the fields read here. *)
Record ColumnMetadata := mkColumnMetadata { PrimaryKey : bool; Generated : bool }.
Record TableMetadata := mkTableMetadata { md_Columns : gmap string ColumnMetadata; ColumnNames : list string }.

Definition generatedKey (c : ColumnMetadata) : bool := PrimaryKey c && Generated c.

Section Insert.
Context {B : BTree} {TL : TimeLib} {FT : FloatText} {D : DecimalLib} {O : Opcodes} {SL : SliceLib} {I : MapIter}.
Context (warehouse : gmap string Func) (serverVersion : option string) (args : list (option ProtoValue)).
Context (rnd : ShardMetadata → Comparative → nat → Z) (dbFirst : bool).
Context (ru : Rule) (hints : list Hint).

(** The rest of the program: the state [W] of the sequences of type [T], their
    suppliers, [runtime.Load], [Sequence.Start] and [Sequence.Acquire]; and the
    answer of the schema loader for a table of the schema. *)
Context {W T : Type} (suppliers : gmap string (W → W * T)) (Load : string → W → outcome unit).
Context (Start : T → SequenceConfig → W → W * outcome unit) (Acquire : T → W → W * outcome Z).
Context (LoadSchema : string → outcome (gmap string TableMetadata)).
Context (tenant schema : string).

Abbreviation manager := (@sequenceManager T).

(** Some column is generated, and the configured sequence is created. *)
Definition createSequenceIfAbsent (vtab : VTable) (metadata : TableMetadata) (st : manager * W) : (manager * W) * outcome unit :=
  let seqName := BuildAutoIncrementName (vtname vtab) in
  match GetSequence st.1 tenant schema seqName with
  | Ok _ => (st, Ok tt)
  | Err err =>
      if negb (errors_Is err ErrorNotFoundSequence) then (st, Err (WrapError err))
      else if existsb (λ kv, Generated kv.2) (iter_order (md_Columns metadata)) then
        match autoIncrement vtab with
        | None => (st, Panic)
        | Some autoIncr =>
            let '(m, w, r) := CreateSequence suppliers Load Start st.1 tenant schema (mkConf seqName (AIType autoIncr) (AIOption autoIncr)) st.2 in
            ((m, w), WithStack (_ ← r; Ok tt))
        end
      else (st, Ok tt)
  | failed => (st, _ ← failed; Ok tt)
  end.

(** [Topology.Smallest] without its [ok]: the zero names when there is none. *)
Definition smallestTable (vtab : VTable) : outcome string :=
  r ← Smallest (topology vtab); Ok (match r with Some (_, tb) => tb | None => "" end).

Definition getMetadata (vtab : VTable) : outcome TableMetadata :=
  tb0 ← smallestTable vtab;
  metadatas ← WithStack (LoadSchema tb0);
  match metadatas !! tb0 with
  | Some metadata => if (length (ColumnNames metadata) =? 0)%nat then Err (NewError "optimize: cannot get metadata") else Ok metadata
  | None => Err (NewError "optimize: cannot get metadata")
  end.

(** Whether a column the statement names is a generated primary key; a column
    without metadata is a nil pointer. *)
Fixpoint namesGenerated (columns : gmap string ColumnMetadata) (names : list string) : outcome bool :=
  match names with
  | [] => Ok false
  | colName :: names =>
      match columns !! colName with
      | None => Panic
      | Some c => if generatedKey c then Ok true else namesGenerated columns names
      end
  end.

(** [&ast.PredicateExpressionNode{P: &ast.AtomPredicateNode{A: ...}}]. *)
Definition int64Expression (val : Z) : ExpressionNode :=
  PredicateExpressionNode (AtomPredicateNode (ConstantExpressionAtom (basic (Iint64 val)))).

Definition addColumn (stmt : InsertStatement) (column : string) (value : ExpressionNode) : InsertStatement :=
  mkInsert (is_flag stmt) (is_Hint stmt) (is_Table stmt) (is_Columns stmt ++ [column]) (is_DuplicatedUpdates stmt)
    (map (λ values, values ++ [value]) (is_Values stmt)).

(** The part that needs the sequence. *)
Definition acquireKey (vtab : VTable) (pkColName : string) (st : manager * W) (stmt : InsertStatement) : (manager * W) * outcome InsertStatement :=
  match GetSequence st.1 tenant schema (BuildAutoIncrementName (vtname vtab)) with
  | Ok seq =>
      let '(w, r) := Acquire seq st.2 in
      ((st.1, w), val ← r; Ok (addColumn stmt pkColName (int64Expression val)))
  | failed => (st, _ ← failed; Panic)
  end.

(** The pointer is updated last, so an error leaves the statement alone. *)
Definition rewriteInsertStatement (vtab : VTable) (st : manager * W) (stmt : InsertStatement) : (manager * W) * outcome InsertStatement :=
  match getMetadata vtab with
  | Ok metadata =>
      if (length (ColumnNames metadata) =? length (is_Columns stmt))%nat then (st, Ok stmt)
      else match namesGenerated (md_Columns metadata) (is_Columns stmt) with
      | Ok true => (st, Ok stmt)
      | Ok false =>
          let pkColName := match List.find (λ kv, generatedKey kv.2) (iter_order (md_Columns metadata)) with Some kv => kv.1 | None => "" end in
          let '(st, r) := createSequenceIfAbsent vtab metadata st in
          match r with
          | Ok _ => if (pkColName =? "")%string then (st, Ok stmt) else acquireKey vtab pkColName st stmt
          | failed => (st, _ ← failed; Panic)
          end
      | failed => (st, _ ← failed; Panic)
      end
  | failed => (st, _ ← failed; Panic)
  end.

Abbreviation slots := (gmap string (gmap string (list nat))).

Definition putSlot (s : slots) (db table : string) (i : nat) : slots :=
  let slot := default ∅ (s !! db) in
  <[db := <[table := default [] (slot !! table) ++ [i]]> slot]> s.

(** [for k, v := range shards { db = k; table = v[0]; break }]. *)
Definition onlyTable (dt : option DatabaseTables) : outcome (string * string) :=
  match iter_order (default ∅ dt) with
  | (db, table :: _) :: _ => Ok (db, table)
  | (_, []) :: _ => Panic
  | [] => Ok ("", "")
  end.

Abbreviation results := (list (list string * option Shards)).

(** The table of a row.  The sharder keeps the results of the earlier rows. *)
Definition rowTable (table : list string) (columns keys : list string) (rs : results) (values : list ExpressionNode) : outcome (results * (string * string)) :=
  filter ← rowFilter columns values keys;
  hinted ← hintShards ru hints table;
  '(rs, dt) ← match hinted with
              | Some m => Ok (rs, Some m)
              | None => WithStack (SimpleShard warehouse serverVersion args rnd dbFirst ru rs table (Some filter))
              end;
  if negb (DatabaseTables_Len dt =? 1) then Err (WrapError ErrNoShardKeyFound)
  else place ← onlyTable dt; Ok (rs, place).

Fixpoint fillSlots (table : list string) (columns keys : list string) (rs : results) (i : nat) (values : list (list ExpressionNode)) (s : slots) : outcome slots :=
  match values with
  | [] => Ok s
  | v :: values =>
      '(rs, (db, tb)) ← rowTable table columns keys rs v;
      fillSlots table columns keys rs (S i) values (putSlot s db tb i)
  end.

(** A clone of the statement with the rows of one table. *)
Definition newborn (stmt : InsertStatement) (table : string) (indexes : list nat) : InsertStatement :=
  mkInsert (is_flag stmt) (is_Hint stmt) [table] (is_Columns stmt) (is_DuplicatedUpdates stmt)
    (omap (λ i, is_Values stmt !! i) indexes).

(** [ret.Put(db, newborn)] after a rewriting whose error is dropped. *)
Definition putNewborn (vt : VTable) (db : string) (stmt : InsertStatement) (ret : SimpleInsertPlan) (st : manager * W) : (manager * W) * outcome SimpleInsertPlan :=
  let '(st, r) := rewriteInsertStatement vt st stmt in
  (st, match r with
       | Ok stmt => Ok (Put ret db stmt)
       | Err _ => Ok (Put ret db stmt)
       | Panic => Panic
       | OutOfFuel => OutOfFuel
       end).

Fixpoint putNewborns (vt : VTable) (stmts : list (string * InsertStatement)) (ret : SimpleInsertPlan) (st : manager * W) : (manager * W) * outcome SimpleInsertPlan :=
  match stmts with
  | [] => (st, Ok ret)
  | (db, stmt) :: stmts =>
      let '(st, r) := putNewborn vt db stmt ret st in
      match r with
      | Ok ret => putNewborns vt stmts ret st
      | failed => (st, failed)
      end
  end.

(** The iterations of [for db, slot := range slots { for table, indexes := range slot }]. *)
Definition newborns (stmt : InsertStatement) (s : slots) : list (string * InsertStatement) :=
  concat (map (λ kv, map (λ ti, (kv.1, newborn stmt ti.1 ti.2)) (iter_order kv.2)) (iter_order s)).

(** No key of the chosen vshard may be updated on a duplicate. *)
Fixpoint checkDuplicated (keys : list string) (updates : list UpdateElement) : outcome unit :=
  match updates with
  | [] => Ok tt
  | upd :: updates =>
      column ← Suffix (ue_Column upd);
      if slices_Contains keys column then Err (NewError "do not support update sharding key") else checkDuplicated keys updates
  end.

(** The tables of the rows. *)
Definition insertSlots (vt : VTable) (stmt : InsertStatement) : outcome slots :=
  match insertShard (shards vt) (is_Columns stmt) with
  | None => Err (WrapError ErrNoShardKeyFound)
  | Some vShard =>
      let keys := VShard_Variables vShard in
      _ ← checkDuplicated keys (is_DuplicatedUpdates stmt);
      fillSlots (is_Table stmt) (is_Columns stmt) keys [] 0 (is_Values stmt) ∅
  end.

Definition optimizeInsert (stmt : InsertStatement) (st : manager * W) : (manager * W) * outcome SimpleInsertPlan :=
  match Suffix (is_Table stmt) with
  | Ok name =>
      match Rule_VTable ru name with
      | None => (st, Ok (Put (mkInsertPlan ∅) "" stmt))
      | Some vt =>
          match insertSlots vt stmt with
          | Ok s => putNewborns vt (newborns stmt s) (mkInsertPlan ∅) st
          | failed => (st, _ ← failed; Panic)
          end
      end
  | failed => (st, _ ← failed; Panic)
  end.
End Insert.

(** ** Executing: [simple_delete.go], [simple_insert.go] *)

Section Exec.
Context {I : MapIter} {C : Type} (args : list (option ProtoValue)).
(** [conn.Exec] with the affected rows and the last inserted id of its result. *)
Context (Exec : string → string → list (option ProtoValue) → C → C * outcome (Z * Z)).

(** [BasePlan.ToArgs]. *)
Definition ToArgs (indexes : list Z) : outcome (list (option ProtoValue)) :=
  match indexes, args with
  | [], _ | _, [] => Ok []
  | _, _ => mapM (argument args) indexes
  end.

(** [TableName.ResetSuffix]. *)
Definition ResetSuffix (t : list string) (suffix : string) : list string :=
  match t with [] => [] | _ => removelast t ++ [suffix] end.

(** Statements restored to text, with the indexes of their parameters. *)
Context {S : Type} (Restore : S → outcome (string * list Z)).

(** One statement: the affected rows and the id. *)
Definition execOne (db : string) (stmt : S) (c : C) : C * outcome (Z * Z) :=
  match ('(sql, indexes) ← WithStack (Restore stmt); vs ← ToArgs indexes; Ok (sql, vs)) with
  | Ok (sql, vs) => let '(c, r) := Exec db sql vs c in (c, WithStack r)
  | failed => (c, _ ← failed; Panic)
  end.

(** The loops of both plans: affected rows are added as [uint64], the largest
    id is kept, and the first error stops. *)
Fixpoint execAll (stmts : list (string * S)) (total : Z * Z) (c : C) : C * outcome (Z * Z) :=
  match stmts with
  | [] => (c, Ok total)
  | (db, stmt) :: stmts =>
      let '(c, r) := execOne db stmt c in
      match r with
      | Ok (n, id) => execAll stmts (u64 (total.1 + n), if id >? total.2 then id else total.2) c
      | failed => (c, failed)
      end
  end.
End Exec.

Section ExecIn.
Context {I : MapIter} {C : Type} (args : list (option ProtoValue)).
Context (Exec : string → string → list (option ProtoValue) → C → C * outcome (Z * Z)).

(** The statements of a DELETE plan, in the order they run. *)
Definition deletes (stmt : DeleteStatement) (m : DatabaseTables) : list (string * DeleteStatement) :=
  concat (map (λ kv, map (λ table, (kv.1, mkDelete (ResetSuffix (ds_Table stmt) table) (ds_Where stmt))) kv.2) (iter_order m)).

Definition SimpleDeletePlan_ExecIn (Restore : DeleteStatement → outcome (string * list Z)) (stmt : DeleteStatement) (dt : option DatabaseTables) (c : C) : C * outcome Z :=
  match dt with
  | None => (c, Ok 0)
  | Some m =>
      if IsEmpty dt then (c, Ok 0)
      else let '(c, r) := execAll args Exec Restore (deletes stmt m) (0, 0) c in (c, total ← r; Ok total.1)
  end.

(** The answer: rows affected and last inserted id. *)
Definition SimpleInsertPlan_ExecIn (Restore : InsertStatement → outcome (string * list Z)) (sp : SimpleInsertPlan) (c : C) : C * outcome (Z * Z) :=
  execAll args Exec Restore (concat (map (λ kv, map (pair kv.1) kv.2) (iter_order (batch sp)))) (0, 0) c.
End ExecIn.

(** ** Executing concurrently: [plan/dml/update.go] *)

(** [UpdateStatement.ResetTable]. *)
Definition ResetTable (u : UpdateStatement) (table : string) : outcome UpdateStatement :=
  match us_Table u with
  | [] => Panic
  | t => Ok (mkUpdate (removelast t ++ [table]) (us_Updated u) (us_Where u))
  end.

(** The goroutine of one database: its tables still to do.  A goroutine that
    returned has none. *)
Record worker := mkWorker { w_db : string; w_tables : list string }.

(** The shared state: the goroutines, the first error of the group, the atomic
    counters and the connection. *)
Record updateRun {C : Type} := mkRun { workers : list worker; failure : option error; affects : Z; cnt : Z; conn : C }.
Arguments updateRun : clear implicits.
Arguments mkRun {C}.

Section Concurrent.
Context {I : MapIter} {C : Type} (args : list (option ProtoValue)).
Context (Exec : string → string → list (option ProtoValue) → C → C * outcome (Z * Z)).
Context (Restore : UpdateStatement → outcome (string * list Z)).

(** The errgroup keeps the first error and lets the other goroutines run. *)
Definition fails (s : updateRun C) (err : error) : option error :=
  match failure s with Some first => Some first | None => Some err end.

(** Goroutine [i] does one turn of its loop.  The counters are only added to,
    so the turn counts as one step.  A panic ends the process. *)
Definition turnOf (stmt : UpdateStatement) (i : nat) (s : updateRun C) : option (outcome (updateRun C)) :=
  match workers s !! i with
  | Some (mkWorker db (table :: tables)) =>
      let '(c, r) := execOne args Exec (λ t, u ← ResetTable stmt t; Restore u) db table (conn s) in
      Some (match r with
            | Ok (n, _) => Ok (mkRun (<[i := mkWorker db tables]> (workers s)) (failure s) (u64 (affects s + n)) (u32 (cnt s + 1)) c)
            | Err err => Ok (mkRun (<[i := mkWorker db []]> (workers s)) (fails s (WrapError err)) (affects s) (cnt s) c)
            | Panic => Panic
            | OutOfFuel => OutOfFuel
            end)
  | _ => None
  end.

Definition turn (stmt : UpdateStatement) (s s' : updateRun C) : Prop := ∃ i, turnOf stmt i s = Some (Ok s').

Definition startRun (m : DatabaseTables) (c : C) : updateRun C :=
  mkRun (map (λ kv, mkWorker kv.1 kv.2) (iter_order m)) None 0 0 c.

(** [g.Wait] returns when every goroutine has. *)
Definition finished (s : updateRun C) : bool := forallb (λ w, (length (w_tables w) =? 0)%nat) (workers s).

Definition waitResult (s : updateRun C) : outcome Z :=
  match failure s with Some err => Err err | None => Ok (affects s) end.
End Concurrent.
