(* ===== verification/OptimizeTheory.v ===== *)
(** * Statements reach their rows: [pkg/runtime/optimize/dml]

    The plans of UPDATE and DELETE cover the physical table of every row their
    WHERE selects; the plan of INSERT holds every row once, in the physical
    table of the row. *)
From S2P Require Import Prelude BTree GoStd Value Cmp Ast ExtValue Shards Range Topology DatabaseTable Rule Calc CalcTheory Routing RoutingTotal Visitor VisitorTheory Sequence Optimize.

(** A row is stored in the physical table [tbs] of [dbs]: the shard computers
    place it there, and the topology names its tables apart. *)
Record stored {SL : SliceLib} (vt : VTable) (p : string → Z) (row : string → iface) (dbs tbs : string) : Prop := mkStored {
  stored_at : ∃ db tb fd ft, routable vt p row db tb ∧ inU 32 db ∧ inU 32 tb ∧
    dbRender (topology vt) = Some fd ∧ tbRender (topology vt) = Some ft ∧ Inj (=) (=) fd ∧ dbs = fd db ∧ tbs = ft tb;
  stored_wf : wf (topology vt);
}.

Section Reach.
Context {B : BTree} {BL : BTreeLaws B} {TL : TimeLib} {FT : FloatText} {D : DecimalLib} {DL : DecimalLaws D} {O : Opcodes}.
Context {SL : SliceLib} {SLL : SliceLaws SL} {I : MapIter} {IL : MapIterLaws I}.
Context (warehouse : gmap string Func) (serverVersion : option string) (args : list (option ProtoValue)).
Context (rnd : ShardMetadata → Comparative → nat → Z) (dbFirst : bool).
Context (row : string → iface) (opaque : node → Prop).

(** The clause selects the row, and its comparisons are supported. *)
Definition clauseSelects (vt : VTable) (p : string → Z) (e : ExpressionNode) : Prop :=
  Forall (supported vt p row) (comparativesE warehouse serverVersion args e) ∧
  readyE warehouse serverVersion args e ∧ selectsE warehouse serverVersion args row opaque e.

(** No clause selects every row. *)
Definition whereSelects (vt : VTable) (p : string → Z) (where_ : option ExpressionNode) : Prop :=
  match where_ with None => True | Some e => clauseSelects vt p e end.

(** The full scan reads the table. *)
Lemma Enumerate_stored vt p dbs tbs all :
  stored vt p row dbs tbs → Enumerate (topology vt) = Ok all → listed all dbs tbs.
Proof using IL SLL.
  intros [(db & tb & fd & ft & [_ _ _ Hex] & _ & _ & Hd & Ht & Hinj & -> & ->) Hwf] H.
  destruct (Enumerate_exact (topology vt) fd ft Hwf Hd Ht Hinj) as (dt & E & Hdt & _).
  rewrite E in H. injection H as <-. apply Exists_contains in Hex as (ts & Hts & Hin); [|done].
  exists (map ft ts). rewrite Hdt, Hts. split; [done|]. apply list_elem_of_fmap. eauto.
Qed.

(** A result that is not nil lists the table. *)
Lemma renderAll_stored ru vt p dbs tbs table name rs rs' e sh dt :
  Suffix table = Ok name → Rule_VTable ru name = Some vt → stored vt p row dbs tbs → clauseSelects vt p e →
  ForSingleSelect warehouse serverVersion args rnd dbFirst ru rs table (Some e) = Ok rs' →
  renderAll (Some vt) name rs' sh = Ok dt →
  ∃ r, rs' = rs ++ [(table, r)] ∧ (r = None ∨ ∃ m, dt = Some m ∧ listed m dbs tbs).
Proof using BL DL.
  intros Hname Hvt [(db & tb & fd & ft & Hroute & Ud & Ut & Hd & Ht & Hinj & -> & ->) Hwf] (Hs & Hr & He) H Hdt.
  eapply ForSingleSelect_sound in H as (r & -> & Hin); [|done..]. exists r. split; [done|].
  destruct r as [sd|]; [right|by left]. eapply renderAll_last in Hdt as (m & -> & Hm); [|done].
  destruct (Hm _ _ Hin) as (d & t & Hren & Hl). unfold Render in Hren. rewrite Hd, Ht in Hren.
  rewrite !wrapU_id in Hren by done. injection Hren as <- <-. eauto.
Qed.

Lemma listed_nonempty (m : DatabaseTables) db tb : listed m db tb → IsEmpty (Some m) = false.
Proof using.
  intros (l & Hl & _). simpl. apply Nat.eqb_neq. intros E%map_size_empty_inv. subst m. by rewrite lookup_empty in Hl.
Qed.

Lemma renderAll_nil vt name table :
  Suffix table = Ok name → renderAll (Some vt) name [(table, None)] None = Ok None.
Proof using. intros H. simpl. rewrite H. simpl. by rewrite String.eqb_refl. Qed.

(** The tables of a statement without hints, before the full scan. *)
Lemma shards_stored ru vt p dbs tbs table name where_ rs dt :
  Suffix table = Ok name → Rule_VTable ru name = Some vt → stored vt p row dbs tbs → whereSelects vt p where_ →
  ForSingleSelect warehouse serverVersion args rnd dbFirst ru [] table where_ = Ok rs →
  renderAll (Some vt) name rs None = Ok dt →
  dt = None ∨ ∃ m, dt = Some m ∧ listed m dbs tbs.
Proof using BL DL.
  intros Hname Hvt Hst Hw H Hdt. destruct where_ as [e|].
  - destruct (renderAll_stored ru vt p dbs tbs table name [] rs e None dt) as (r & Hrs & [->|Hm]); [done..| |by right].
    left. simpl in Hrs. subst rs. rewrite renderAll_nil in Hdt by done. by injection Hdt as <-.
  - left. unfold ForSingleSelect in H. rewrite Hname in H. simpl in H. rewrite Hvt in H. injection H as <-.
    rewrite (renderAll_nil vt name table Hname) in Hdt. by injection Hdt as <-.
Qed.

(** ** UPDATE and DELETE *)

(** The plan of an UPDATE runs the statement on a table. *)
Definition updates (pl : updatePlan) (dbs tbs : string) : Prop :=
  match pl with UpdatePlan _ (Some m) => listed m dbs tbs | _ => False end.


(** The statement a DELETE plan runs on a table. *)
Definition deletesOn (pl : deletePlan) (stmt : DeleteStatement) (dbs tbs : string) : Prop :=
  match pl with
  | SimpleDeletePlan s m => (dbs, mkDelete (ResetSuffix (ds_Table stmt) tbs) (ds_Where stmt)) ∈ deletes s m
  | TransparentPlan _ => False
  end.

Lemma deletes_listed stmt m db tb :
  listed m db tb → (db, mkDelete (ResetSuffix (ds_Table stmt) tb) (ds_Where stmt)) ∈ deletes stmt m.
Proof using IL.
  intros (l & Hl & Ht). unfold deletes. rewrite list_elem_of_In, in_concat.
  exists (map (λ table, (db, mkDelete (ResetSuffix (ds_Table stmt) table) (ds_Where stmt))) l). split.
  - apply in_map_iff. exists (db, l). split; [done|]. by apply list_elem_of_In, iter_order_lookup.
  - apply in_map_iff. exists tb. split; [done|]. by apply list_elem_of_In.
Qed.

End Reach.

(** ** INSERT *)

(** The entries of a map of collections, in the order they are met. *)
Definition flat {I : MapIter} {V A} (f : string → V → list A) (m : gmap string V) : list A :=
  concat (map (λ kv, f kv.1 kv.2) (iter_order m)).

Lemma Permutation_concat {A} (l k : list (list A)) : l ≡ₚ k → concat l ≡ₚ concat k.
Proof.
  induction 1 as [|x l k _ IH|x y l|]; simpl; [done|by rewrite IH| |by etrans].
  rewrite !app_assoc. by rewrite (Permutation_app_comm y x).
Qed.

Lemma flat_perm {I : MapIter} {IL : MapIterLaws I} {V A} (f : string → V → list A) (m : gmap string V) :
  flat f m ≡ₚ concat (map (λ kv, f kv.1 kv.2) (map_to_list m)).
Proof. apply Permutation_concat. by rewrite iter_order_perm. Qed.

(** Growing the collection of a key grows the entries. *)
Lemma flat_insert {I : MapIter} {IL : MapIterLaws I} {V A} (f : string → V → list A) (m : gmap string V) k d v x :
  f k d = [] → f k v ≡ₚ x :: f k (default d (m !! k)) → flat f (<[k := v]> m) ≡ₚ x :: flat f m.
Proof.
  intros Hd Hv. rewrite !flat_perm, <- insert_delete_eq.
  rewrite map_to_list_insert by apply lookup_delete_eq. simpl. rewrite Hv. simpl. constructor.
  destruct (m !! k) as [v0|] eqn:E; simpl.
  - rewrite <- (insert_delete_id m k v0) at 2 by done. rewrite map_to_list_insert by apply lookup_delete_eq. done.
  - rewrite Hd. simpl. by rewrite delete_id.
Qed.

(** The rows placed in the slots, each with its table. *)
Definition entries {I : MapIter} (s : gmap string (gmap string (list nat))) : list (string * string * nat) :=
  flat (λ db slot, flat (λ tb l, map (pair (db, tb)) l) slot) s.

Lemma entries_put {I : MapIter} {IL : MapIterLaws I} s db tb i :
  entries (putSlot s db tb i) ≡ₚ (db, tb, i) :: entries s.
Proof.
  unfold entries, putSlot. apply (flat_insert _ s db ∅).
  - unfold flat. assert (iter_order (∅ : gmap string (list nat)) = []) as ->; [|done].
    apply Permutation_nil_r. by rewrite iter_order_perm, map_to_list_empty.
  - apply (flat_insert _ _ tb []); [done|]. rewrite map_app. simpl. by rewrite Permutation_app_comm.
Qed.

(** The statements of a plan. *)
Definition planned {I : MapIter} (sp : SimpleInsertPlan) : list (string * InsertStatement) :=
  flat (λ db l, map (pair db) l) (batch sp).

Lemma planned_Put {I : MapIter} {IL : MapIterLaws I} sp db stmt : planned (Put sp db stmt) ≡ₚ (db, stmt) :: planned sp.
Proof.
  apply (flat_insert _ _ db []); [done|]. rewrite map_app. simpl. by rewrite Permutation_app_comm.
Qed.

Section Insert.
Context {B : BTree} {TL : TimeLib} {FT : FloatText} {D : DecimalLib} {O : Opcodes} {SL : SliceLib} {I : MapIter} {IL : MapIterLaws I}.
Context (warehouse : gmap string Func) (serverVersion : option string) (args : list (option ProtoValue)).
Context (rnd : ShardMetadata → Comparative → nat → Z) (dbFirst : bool) (ru : Rule) (hints : list Hint).
Context {W T : Type} (suppliers : gmap string (W → W * T)) (Load : string → W → outcome unit).
Context (Start : T → SequenceConfig → W → W * outcome unit) (Acquire : T → W → W * outcome Z).
Context (LoadSchema : string → outcome (gmap string TableMetadata)) (tenant schema : string).

Abbreviation rowTableOf := (rowTable warehouse serverVersion args rnd dbFirst ru hints).
Abbreviation fill := (fillSlots warehouse serverVersion args rnd dbFirst ru hints).
Abbreviation rewrite_ := (rewriteInsertStatement suppliers Load Start Acquire LoadSchema tenant schema).
Abbreviation putAll := (putNewborns suppliers Load Start Acquire LoadSchema tenant schema).
Abbreviation insert_ := (optimizeInsert warehouse serverVersion args rnd dbFirst ru hints suppliers Load Start Acquire LoadSchema tenant schema).

(** A statement, possibly with a generated key: one column more, with the same
    value in every row. *)
Definition extends (stmt stmt' : InsertStatement) : Prop :=
  stmt' = stmt ∨ ∃ column v, stmt' = addColumn stmt column (int64Expression v).

Lemma rewrite_extends vt st stmt st' stmt' : rewrite_ vt st stmt = (st', Ok stmt') → extends stmt stmt'.
Proof using.
  unfold rewriteInsertStatement, acquireKey. intros H.
  repeat (case_match; simplify_eq; try (by left)); try (by destruct_or?); try done.
  all: repeat match goal with H : (_ ← ?m; _) = Ok _ |- _ => destruct m; simplify_eq/= end; try done.
  all: try (right; eauto).
Qed.

(** Every statement is put under its database. *)
Lemma putNewborns_planned vt stmts ret st st' sp :
  putAll vt stmts ret st = (st', Ok sp) →
  ∃ qs, Forall2 (λ x y, x.1 = y.1 ∧ extends x.2 y.2) stmts qs ∧ planned sp ≡ₚ qs ++ planned ret.
Proof using IL.
  revert ret st. induction stmts as [|[db stmt] stmts IH]; intros ret st H; simpl in H.
  { injection H as <- <-. exists []. by split. }
  unfold putNewborn in H. destruct (rewrite_ vt st stmt) as [st1 r] eqn:Er.
  assert (∃ stmt', extends stmt stmt' ∧ putAll vt stmts (Put ret db stmt') st1 = (st', Ok sp)) as (stmt' & He & H').
  { destruct r as [stmt'|e| |]; try done; [exists stmt'|exists stmt]; split; [by eapply rewrite_extends|done|by left|done]. }
  apply IH in H' as (qs & Hqs & Hp). exists ((db, stmt') :: qs). split; [by constructor|].
  rewrite Hp, planned_Put. simpl. by rewrite Permutation_middle.
Qed.

(** The places of the rows, one per row, and where each comes from. *)
Lemma fillSlots_entries table columns keys rs i values s s' :
  fill table columns keys rs i values s = Ok s' →
  ∃ places, entries s' ≡ₚ zip places (seq i (length values)) ++ entries s ∧
    Forall2 (λ v pl, ∃ rs1 rs2, rowTableOf table columns keys rs1 v = Ok (rs2, pl)) values places.
Proof using IL.
  revert rs i s. induction values as [|v values IH]; intros rs i s H; simpl in H.
  { injection H as <-. by exists []. }
  apply bind_Ok_inv in H as ([rs' [db tb]] & Hr & H). apply IH in H as (places & Hp & HF).
  exists ((db, tb) :: places). split; [|by constructor; eauto].
  rewrite Hp, entries_put. simpl. by rewrite Permutation_middle.
Qed.

Lemma insertSlots_entries vt stmt s :
  insertSlots warehouse serverVersion args rnd dbFirst ru hints vt stmt = Ok s →
  ∃ vs places, insertShard (shards vt) (is_Columns stmt) = Some vs ∧
    entries s ≡ₚ zip places (seq 0 (length (is_Values stmt))) ∧
    Forall2 (λ v pl, ∃ rs1 rs2, rowTableOf (is_Table stmt) (is_Columns stmt) (VShard_Variables vs) rs1 v = Ok (rs2, pl))
      (is_Values stmt) places.
Proof using IL.
  unfold insertSlots. destruct (insertShard _ _) as [vs|]; [|done]. intros H. apply bind_Ok_inv in H as (? & _ & H).
  apply fillSlots_entries in H as (places & Hp & HF). exists vs, places. split; [done|]. split; [|done].
  rewrite Hp. unfold entries, flat.
  assert (iter_order (∅ : gmap string (gmap string (list nat))) = []) as ->.
  { apply Permutation_nil_r. by rewrite iter_order_perm, map_to_list_empty. }
  by rewrite app_nil_r.
Qed.

(** The new statements hold the rows of the slots. *)
Lemma newborns_values stmt s :
  concat (map (λ x, is_Values x.2) (newborns stmt s)) = omap (λ e, is_Values stmt !! e.2) (entries s).
Proof using.
  unfold newborns, entries, flat. induction (iter_order s) as [|[db slot] l IH]; [done|]. simpl.
  rewrite map_app, concat_app, omap_app, IH. f_equal. clear IH.
  induction (iter_order slot) as [|[tb is_] l' IH]; [done|]. simpl. rewrite omap_app, IH. f_equal.
  induction is_ as [|i is_ IH']; [done|]. cbn in IH' |- *. destruct (is_Values stmt !! i); [f_equal|]; exact IH'.
Qed.

Lemma newborns_entry stmt s db tb i v :
  (db, tb, i) ∈ entries s → is_Values stmt !! i = Some v →
  ∃ x, x ∈ newborns stmt s ∧ x.1 = db ∧ is_Table x.2 = [tb] ∧ v ∈ is_Values x.2.
Proof using.
  intros H Hv. unfold entries, flat in H. rewrite list_elem_of_In, in_concat in H. destruct H as (l & Hl & H).
  apply in_map_iff in Hl as ([db' slot] & <- & Hs). apply in_concat in H as (l' & Hl' & H).
  apply in_map_iff in Hl' as ([tb' is_] & <- & Ht). apply in_map_iff in H as (i' & E & Hi). injection E as -> -> ->.
  exists (db, newborn stmt tb is_). split; [|split; [done|]; split; [done|]].
  - unfold newborns. rewrite list_elem_of_In, in_concat. eexists. split; [apply in_map_iff; by exists (db, slot)|].
    apply in_map_iff. by exists (tb, is_).
  - simpl. apply list_elem_of_omap. exists i. split; [by apply list_elem_of_In|done].
Qed.

Lemma omap_zip_seq {X A} (places : list X) (vs all : list A) k :
  length places = length vs → (∀ j, vs !! j = all !! (k + j)%nat) →
  omap (λ e, all !! e.2) (zip places (seq k (length vs))) = vs.
Proof using.
  revert vs k. induction places as [|x places IH]; intros [|v vs] k Hl Ha; simplify_eq/=; [done|].
  pose proof (Ha 0%nat) as H0. rewrite Nat.add_0_r in H0. simpl in H0. rewrite <- H0. f_equal.
  apply IH; [done|]. intros j. specialize (Ha (S j)). simpl in Ha. rewrite Ha. f_equal. lia.
Qed.

Lemma insert_inv vt name stmt st st' sp :
  Suffix (is_Table stmt) = Ok name → Rule_VTable ru name = Some vt → insert_ stmt st = (st', Ok sp) →
  ∃ s qs, insertSlots warehouse serverVersion args rnd dbFirst ru hints vt stmt = Ok s ∧
    Forall2 (λ x y, x.1 = y.1 ∧ extends x.2 y.2) (newborns stmt s) qs ∧ planned sp ≡ₚ qs.
Proof using IL.
  intros Hname Hvt H. unfold optimizeInsert in H. rewrite Hname, Hvt in H.
  destruct (insertSlots _ _ _ _ _ _ _ vt stmt) as [s|e| |]; try done.
  apply putNewborns_planned in H as (qs & Hqs & Hp). exists s, qs. split; [done|]. split; [done|].
  rewrite Hp. unfold planned, flat. simpl.
  assert (iter_order (∅ : gmap string (list InsertStatement)) = []) as ->.
  { apply Permutation_nil_r. by rewrite iter_order_perm, map_to_list_empty. }
  by rewrite app_nil_r.
Qed.

(** C4: an INSERT inserts every row once.  If the optimizer answers a plan for
    a sharded table, its statements are the clones of the statement that share
    its rows out, whatever the hints: their rows together are the rows of the
    statement, none lost and none twice, up to a generated key appended to the
    columns and to the rows of a clone. *)
Theorem insert_shares_rows_out vt name stmt st st' sp :
  Suffix (is_Table stmt) = Ok name → Rule_VTable ru name = Some vt → insert_ stmt st = (st', Ok sp) →
  ∃ clones qs, planned sp ≡ₚ qs ∧ Forall2 (λ x y, x.1 = y.1 ∧ extends x.2 y.2) clones qs ∧
    concat (map (λ x, is_Values x.2) clones) ≡ₚ is_Values stmt ∧
    Forall (λ x, ∃ tb rows, x.2 = mkInsert (is_flag stmt) (is_Hint stmt) [tb] (is_Columns stmt) (is_DuplicatedUpdates stmt) rows) clones.
Proof using IL.
  intros Hname Hvt H. eapply insert_inv in H as (s & qs & Hs & Hqs & Hp); [|done..].
  exists (newborns stmt s), qs. split; [done|]. split; [done|]. split.
  - rewrite newborns_values. apply insertSlots_entries in Hs as (vs & places & _ & Hperm & HF).
    rewrite Hperm, omap_zip_seq; [done|by apply Forall2_length in HF|done].
  - apply Forall_forall. intros x Hx. unfold newborns in Hx. rewrite list_elem_of_In, in_concat in Hx.
    destruct Hx as (l & Hl & Hx). apply in_map_iff in Hl as (kv & <- & _). apply in_map_iff in Hx as (ti & <- & _).
    unfold newborn. simpl. eauto.
Qed.
End Insert.

(** ** A row goes to its table *)

Lemma Len_length {I : MapIter} (m : DatabaseTables) :
  DatabaseTables_Len (Some m) = Z.of_nat (length (flat (λ db l, map (pair db) l) m)).
Proof.
  unfold DatabaseTables_Len, flat. simpl. rewrite <- (Z.add_0_l (Z.of_nat _)). generalize 0 as n.
  induction (iter_order m) as [|[db l] kvs IH]; intros n; simpl; [lia|].
  rewrite IH, length_app, length_map. lia.
Qed.

Lemma onlyTable_unique {I : MapIter} {IL : MapIterLaws I} m db tb pl :
  DatabaseTables_Len (Some m) = 1 → listed m db tb → onlyTable (Some m) = Ok pl → pl = (db, tb).
Proof.
  rewrite Len_length. intros Hlen (l & Hl & Ht) H.
  assert ((db, tb) ∈ flat (λ db l, map (pair db) l) m) as Hin.
  { unfold flat. rewrite list_elem_of_In, in_concat. exists (map (pair db) l). split.
    - apply in_map_iff. exists (db, l). split; [done|]. by apply list_elem_of_In, iter_order_lookup.
    - by apply in_map, list_elem_of_In. }
  unfold onlyTable in H. unfold flat in *. simpl in H. destruct (iter_order m) as [|[d [|t ts]] kvs]; try done.
  injection H as <-. simpl in Hlen, Hin. destruct (map (pair d) ts ++ _) eqn:E; [|simpl in Hlen; lia].
  by apply list_elem_of_singleton in Hin as ->.
Qed.

Section Place.
Context {B : BTree} {BL : BTreeLaws B} {TL : TimeLib} {FT : FloatText} {D : DecimalLib} {DL : DecimalLaws D} {O : Opcodes}.
Context {SL : SliceLib} {I : MapIter} {IL : MapIterLaws I}.
Context (warehouse : gmap string Func) (serverVersion : option string) (args : list (option ProtoValue)).
Context (rnd : ShardMetadata → Comparative → nat → Z) (dbFirst : bool) (ru : Rule).
Context {W T : Type} (suppliers : gmap string (W → W * T)) (Load : string → W → outcome unit).
Context (Start : T → SequenceConfig → W → W * outcome unit) (Acquire : T → W → W * outcome Z).
Context (LoadSchema : string → outcome (gmap string TableMetadata)) (tenant schema : string).
Context (row : string → iface) (opaque : node → Prop).

Abbreviation forSelect := (ForSingleSelect warehouse serverVersion args rnd dbFirst ru).
Abbreviation simpleShard := (SimpleShard warehouse serverVersion args rnd dbFirst ru).

(** The result of a call does not depend on the earlier ones. *)
Lemma ForSingleSelect_app rs table e rs' :
  forSelect rs table e = Ok rs' → ∃ l, rs' = rs ++ l ∧ forSelect [] table e = Ok l.
Proof using.
  unfold ForSingleSelect. intros H. apply bind_Ok_inv in H as (name & -> & H). simpl.
  destruct (Rule_VTable ru name) as [vt|].
  - destruct e as [e|]; [|injection H as <-; eauto].
    apply bind_Ok_inv in H as (l & -> & H). simpl. apply bind_Ok_inv in H as (l' & -> & H). simpl.
    apply bind_Ok_inv in H as (r & -> & H). simpl. injection H as <-. eauto.
  - apply bind_Ok_inv in H as (sd & -> & H). simpl. injection H as <-. eauto.
Qed.

(** Whatever the earlier rows, a row whose own filter gives shards goes to its
    physical table. *)
Lemma rowTable_stored vt p dbs tbs table name columns keys rs v rs' pl e rs0 m0 :
  Suffix table = Ok name → Rule_VTable ru name = Some vt → stored vt p row dbs tbs →
  rowFilter columns v keys = Ok e → clauseSelects warehouse serverVersion args row opaque vt p e →
  simpleShard [] table (Some e) = Ok (rs0, Some m0) →
  rowTable warehouse serverVersion args rnd dbFirst ru [] table columns keys rs v = Ok (rs', pl) → pl = (dbs, tbs).
Proof using BL DL IL.
  intros Hname Hvt Hst He Hsel H0 H. unfold rowTable in H. rewrite He in H. simpl in H.
  apply bind_Ok_inv in H as ([rs1 dt] & Hs & H). rewrite WithStack_Ok in Hs.
  destruct (negb _) eqn:El; [done|]. apply negb_false_iff, Z.eqb_eq in El.
  apply bind_Ok_inv in H as (pl' & Hpl & H). injection H as _ <-.
  unfold SimpleShard in Hs, H0. apply bind_Ok_inv in Hs as (rs2 & Hrs & Hs). rewrite WithStack_Ok in Hrs.
  apply bind_Ok_inv in H0 as (rs3 & Hrs0 & H0). rewrite WithStack_Ok in Hrs0.
  rewrite Hname in Hs, H0. simpl in Hs, H0. rewrite Hvt in Hs, H0.
  apply bind_Ok_inv in Hs as (dt' & Hdt & Hs). injection Hs as <- <-.
  apply bind_Ok_inv in H0 as (dt0 & Hdt0 & H0). injection H0 as <- ->.
  destruct (ForSingleSelect_app _ _ _ _ Hrs) as (l & Hl & Hown). rewrite Hrs0 in Hown. injection Hown as <-.
  destruct (renderAll_stored warehouse serverVersion args rnd dbFirst row opaque ru vt p dbs tbs table name rs rs2 e None dt')
    as (r & Hr & [->|(m & -> & Hm)]); [done..| |by eapply onlyTable_unique].
  rewrite Hl in Hr. apply app_inv_head in Hr as ->. by rewrite renderAll_nil in Hdt0.
Qed.

End Place.

(** ** Executing a plan *)

Section Run.
Context {I : MapIter} {IL : MapIterLaws I} (args : list (option ProtoValue)).
(** A connection that answers by the statement, and the statements it saw. *)
Abbreviation call := (string * string * list (option ProtoValue))%type.
Context (answer : call → outcome (Z * Z)).

Definition logged (db sql : string) (vs : list (option ProtoValue)) (log : list call) : list call * outcome (Z * Z) :=
  (log ++ [(db, sql, vs)], answer (db, sql, vs)).

Section Statements.
Context {S : Type} (Restore : S → outcome (string * list Z)).

(** The call that runs a statement. *)
Definition runs (x : string * S) (k : call) : Prop :=
  ∃ indexes, Restore x.2 = Ok (k.1.2, indexes) ∧ ToArgs args indexes = Ok k.2 ∧ k.1.1 = x.1.

Definition affected (k : call) : Z := match answer k with Ok (n, _) => n | _ => 0 end.

Lemma execOne_logged db stmt log log' r :
  execOne args logged Restore db stmt log = (log', r) →
  (∃ k, runs (db, stmt) k ∧ log' = log ++ [k] ∧ r = WithStack (answer k)) ∨ (log' = log ∧ ∀ x, r ≠ Ok x).
Proof using.
  unfold execOne, logged. destruct (WithStack (Restore stmt)) as [[sql indexes]| | |] eqn:Er; simpl.
  2-4: intros [= <- <-]; by right.
  rewrite WithStack_Ok in Er. destruct (ToArgs args indexes) as [vs| | |] eqn:Ea; simpl.
  2-4: intros [= <- <-]; by right.
  intros [= <- <-]. left. exists (db, sql, vs). split; [by exists indexes|done].
Qed.

(** The calls are the statements from the first on, all of them on success. *)
Lemma execAll_logged stmts total log log' r :
  inU 64 total.1 → execAll args logged Restore stmts total log = (log', r) →
  ∃ done_ rest ks, stmts = done_ ++ rest ∧ log' = log ++ ks ∧ Forall2 runs done_ ks ∧
    ∀ n id, r = Ok (n, id) → rest = [] ∧ n = u64 (total.1 + foldr Z.add 0 (map affected ks)).
Proof using.
  revert total log. induction stmts as [|[db stmt] stmts IH]; intros total log Ht H; simpl in H.
  { injection H as <- <-. exists [], [], []. split; [done|]. split; [by rewrite app_nil_r|]. split; [done|].
    intros n id [= ->]. split; [done|]. simpl in *. by rewrite Z.add_0_r, wrapU_id. }
  destruct (execOne args logged Restore db stmt log) as [log1 r1] eqn:E1.
  apply execOne_logged in E1 as [(k & Hk & -> & ->)|[-> Hno]].
  - destruct (answer k) as [[n id]| | |] eqn:Ea; simpl in H.
    { apply IH in H as (done_ & rest & ks & -> & -> & HF & Hok); [|by apply Z.mod_pos_bound]. exists ((db, stmt) :: done_), rest, (k :: ks).
      rewrite <- app_assoc. split; [done|]. split; [done|]. split; [by constructor|].
      intros n' id' Hr. destruct (Hok _ _ Hr) as [-> Hn]. split; [done|]. rewrite Hn. simpl.
      unfold affected at 2. rewrite Ea. unfold wrapU. rewrite Zplus_mod_idemp_l. f_equal. lia. }
    all: injection H as <- <-; exists [(db, stmt)], stmts, [k]; split; [done|]; split; [done|]; split; [by constructor|done].
  - exists [], ((db, stmt) :: stmts), []. rewrite app_nil_r. destruct r1 as [[n id]| | |]; [by destruct (Hno (n, id))|..];
      injection H as <- <-; repeat split; done.
Qed.
End Statements.

(** Executing a DELETE plan runs, in order, one statement for every listed
    table, and none else; a success has run all of them and answers the sum of
    the affected rows, and a failure has run the statements before it, which
    stay run. *)
Theorem delete_runs_statements Restore stmt m log log' r :
  m ≠ ∅ → SimpleDeletePlan_ExecIn args logged Restore stmt (Some m) log = (log', r) →
  ∃ done_ rest ks, deletes stmt m = done_ ++ rest ∧ log' = log ++ ks ∧ Forall2 (runs Restore) done_ ks ∧
    ∀ n, r = Ok n → rest = [] ∧ n = u64 (foldr Z.add 0 (map affected ks)).
Proof using.
  intros Hm H. unfold SimpleDeletePlan_ExecIn in H.
  assert (IsEmpty (Some m) = false) as Hne by (by apply Nat.eqb_neq; intros ?%map_size_empty_inv).
  rewrite Hne in H. destruct (execAll _ _ _ _ _ _) as [log1 r1] eqn:E. injection H as <- <-.
  apply execAll_logged in E as (done_ & rest & ks & Hd & Hl & HF & Hok); [|by unfold inU; simpl]. exists done_, rest, ks.
  split; [done|]. split; [done|]. split; [done|]. intros n Hn. destruct r1 as [[n' id]| | |]; simplify_eq/=.
  by apply (Hok _ id).
Qed.

(** ** Executing concurrently *)

Abbreviation updateTurn stmt Restore := (turn args logged Restore stmt).
Abbreviation updateRestore stmt Restore := (λ t, u ← ResetTable stmt t; Restore u).

(** The tables still to do. *)
Definition remaining (s : updateRun (list call)) : list (string * string) :=
  concat (map (λ w, map (pair (w_db w)) (w_tables w)) (workers s)).

Lemma remaining_insert ws i db t ts ts' :
  ws !! i = Some (mkWorker db (t :: ts)) →
  ∃ front back, concat (map (λ w, map (pair (w_db w)) (w_tables w)) ws) = front ++ map (pair db) (t :: ts) ++ back ∧
    concat (map (λ w, map (pair (w_db w)) (w_tables w)) (<[i := mkWorker db ts']> ws)) = front ++ map (pair db) ts' ++ back.
Proof using.
  intros H. exists (concat (map (λ w, map (pair (w_db w)) (w_tables w)) (take i ws))),
    (concat (map (λ w, map (pair (w_db w)) (w_tables w)) (drop (S i) ws))). split.
  - rewrite <- (take_drop_middle ws i _ H) at 1. by rewrite map_app, concat_app.
  - rewrite (insert_take_drop ws i) by by eapply lookup_lt_Some. by rewrite map_app, concat_app.
Qed.

(** Without a failure so far, what was run and what remains is everything. *)
Definition onTrack (stmt : UpdateStatement) (Restore : UpdateStatement → outcome (string * list Z)) (all : list (string * string))
  (log : list call) (s : updateRun (list call)) : Prop :=
  ∃ done_ ks, done_ ++ remaining s ≡ₚ all ∧ conn s = log ++ ks ∧ Forall2 (runs (updateRestore stmt Restore)) done_ ks ∧
    affects s = u64 (foldr Z.add 0 (map affected ks)) ∧ cnt s = u32 (Z.of_nat (length ks)).

Lemma turn_cases stmt Restore s s' :
  updateTurn stmt Restore s s' →
  (length (remaining s') < length (remaining s))%nat ∧ (failure s ≠ None → failure s' ≠ None) ∧
  (failure s' ≠ None ∨ failure s' = failure s ∧ ∃ x k n id, remaining s ≡ₚ x :: remaining s' ∧
     runs (updateRestore stmt Restore) x k ∧ answer k = Ok (n, id) ∧ conn s' = conn s ++ [k] ∧
     affects s' = u64 (affects s + n) ∧ cnt s' = u32 (cnt s + 1)).
Proof using.
  intros (i & H). unfold turnOf in H. destruct (workers s !! i) as [[db [|t ts]]|] eqn:Ew; try done.
  destruct (execOne _ _ _ _ _ _) as [c r] eqn:E. injection H as H.
  apply execOne_logged in E as [(k & Hk & -> & ->)|[-> Hno]].
  - destruct (answer k) as [[n id]|err| |] eqn:Ea; simpl in H; try done; injection H as <-; unfold remaining; simpl.
    + destruct (remaining_insert (workers s) i db t ts ts Ew) as (f & b & -> & ->).
      split; [rewrite !length_app; simpl; lia|]. split; [done|]. right. split; [done|]. exists (db, t), k, n, id.
      split; [symmetry; apply Permutation_middle|]. done.
    + destruct (remaining_insert (workers s) i db t ts [] Ew) as (f & b & -> & ->).
      split; [rewrite !length_app; simpl; lia|]. unfold fails. destruct (failure s); split; try done; by left.
  - destruct r as [x|err| |]; [by destruct (Hno x)| |done..]. injection H as <-. unfold remaining; simpl.
    destruct (remaining_insert (workers s) i db t ts [] Ew) as (f & b & -> & ->).
    split; [rewrite !length_app; simpl; lia|]. unfold fails. destruct (failure s); split; try done; by left.
Qed.

Lemma turn_onTrack stmt Restore all log s s' :
  updateTurn stmt Restore s s' → failure s' = None → (failure s = None → onTrack stmt Restore all log s) → onTrack stmt Restore all log s'.
Proof using.
  intros H Hf Hs. apply turn_cases in H as (_ & _ & [H|(Hff & x & k & n & id & Hr & Hk & Ha & Hc & Hn & Ht)]); [done|].
  destruct Hs as (done_ & ks & Hp & Hl & HF & Hsum & Hcnt); [congruence|]. exists (done_ ++ [x]), (ks ++ [k]).
  split; [by rewrite <- Hp, Hr, <- app_assoc|]. split; [by rewrite Hc, Hl, app_assoc|].
  split; [by apply Forall2_app; [|constructor]|]. rewrite Hn, Ht, Hsum, Hcnt. unfold wrapU. rewrite !Zplus_mod_idemp_l.
  rewrite map_app, length_app. simpl. unfold affected at 3. split; f_equal; [|simpl; lia].
  clear -Ha. induction ks as [|y ks IH]; simpl; [unfold affected; rewrite Ha|]; lia.
Qed.

Lemma remaining_start m log : remaining (startRun m log) = flat (λ db l, map (pair db) l) m.
Proof using. unfold remaining, flat. simpl. by rewrite map_map. Qed.

Lemma finished_remaining (s : updateRun (list call)) : finished s = true → remaining s = [].
Proof using.
  unfold finished, remaining. induction (workers s) as [|[db ts] ws IH]; [done|]. simpl. intros [H1 H2]%andb_true_iff.
  destruct ts; [|done]. by apply IH.
Qed.

Lemma unfinished_turn stmt Restore s :
  finished s = false → ∃ i r, turnOf args logged Restore stmt i s = Some r.
Proof using.
  intros H. assert (∃ i db t ts, workers s !! i = Some (mkWorker db (t :: ts))) as (i & db & t & ts & Hi).
  { revert H. unfold finished. induction (workers s) as [|[db [|t ts]] ws IH]; simpl; [done| |].
    - intros (i & H)%IH. by exists (S i).
    - intros _. exists 0%nat. eauto. }
  exists i. unfold turnOf. rewrite Hi. destruct (execOne _ _ _ _ _ _). eauto.
Qed.

Lemma turns_onTrack stmt Restore all log n s s' :
  nsteps (updateTurn stmt Restore) n s s' → (failure s = None → onTrack stmt Restore all log s) →
  (n + length (remaining s') ≤ length (remaining s))%nat ∧ (failure s' = None → onTrack stmt Restore all log s').
Proof using.
  induction 1 as [s|n s s1 s' Ht _ IH]; intros Hs; [split; [simpl; lia|done]|].
  pose proof (turn_cases _ _ _ _ Ht) as (Hlt & _). destruct IH as [IH1 IH2].
  - intros Hf. by eapply turn_onTrack.
  - split; [lia|done].
Qed.

(** C24: executing an UPDATE plan does not depend on the schedule.  However the
    goroutines of the databases are interleaved, there are at most as many
    turns as tables, and a goroutine can go on until all have returned; when
    they have and none failed, every listed table was updated by one statement
    and the answer is the sum of the affected rows. *)
Theorem update_any_schedule Restore stmt m log n s :
  nsteps (updateTurn stmt Restore) n (startRun m log) s →
  (n ≤ length (flat (λ db l, map (pair db) l) m))%nat ∧
  (finished s = false → ∃ i r, turnOf args logged Restore stmt i s = Some r) ∧
  ∀ total, finished s = true → waitResult s = Ok total →
    ∃ done_ ks, done_ ≡ₚ flat (λ db l, map (pair db) l) m ∧ conn s = log ++ ks ∧
      Forall2 (runs (λ t, u ← ResetTable stmt t; Restore u)) done_ ks ∧ total = u64 (foldr Z.add 0 (map affected ks)).
Proof using.
  intros H. apply (turns_onTrack _ _ (flat (λ db l, map (pair db) l) m) log) in H as [Hn Htrack].
  2:{ intros _. exists [], []. rewrite remaining_start, app_nil_r. split; [done|]. split; [done|]. by split. }
  rewrite remaining_start in Hn. split; [lia|]. split; [apply unfinished_turn|].
  intros total Hfin Hr. unfold waitResult in Hr. destruct (failure s); [done|]. injection Hr as <-.
  destruct Htrack as (done_ & ks & Hp & Hl & HF & Hsum & _); [done|]. exists done_, ks.
  rewrite (finished_remaining s Hfin), app_nil_r in Hp. done.
Qed.
End Run.

(** ** Concrete statements *)
Module OptimizeExamples.
Import ListTree NoDates NoFloats ExactDecimal LinearSearch ForwardIter ExtValueExamples RoutingExamples VisitorExamples.

Lemma users_stored : stored rendered period16 row21 "db_0" "users_5".
Proof.
  split; [|by apply (bool_decide_unpack _); vm_compute].
  exists 0, 5, (render "db_"), (render "users_"). split; [apply rendered_routable|].
  unfold inU. split; [lia|]. split; [lia|]. split; [done|]. split; [done|]. split; [|done].
  apply TopologyExamples.render_inj.
Qed.

Abbreviation selected := (clauseSelects ∅ None params row21 (λ _, False) rendered period16).

Lemma clause_selected : selected clause.
Proof.
  split; [|split; [|apply clause_selects]].
  - change (Forall (supported rendered period16 row21)
      [NewInt64 "uid" Cgt 5; NewInt64 "uid" Clte 40; NewInt64 "uid" Ceq 3; NewInt64 "uid" Ceq 7]).
    repeat (apply Forall_cons_2; [apply uid_supported; unfold inS; lia|]). apply Forall_nil_2.
  - repeat split; simpl; try (intros v [= <-]; apply denotes_int; unfold inS; lia).
    intros ei [->|[->|[]%not_elem_of_nil]%elem_of_cons]%elem_of_cons v [= <-]; apply denotes_int; unfold inS; lia.
Qed.

Definition setName : list UpdateElement := [mkUpdateElement ["name"] (PredicateExpressionNode (int 1))].
Definition update_users : UpdateStatement := mkUpdate ["users"] setName (Some clause).
Definition delete_users : DeleteStatement := mkDelete ["users"] (Some clause).



(** The users with a generated primary key [id], by a sequence of numbers. *)
Definition keyed : VTable := SetAutoIncrement rendered (Some {| AIType := "group"; AIOption := {["step" := "100"]} |}).
Definition keyedShop : Rule := {["users" := keyed]}.

Definition users_metadata : TableMetadata :=
  mkTableMetadata (list_to_map [("id", mkColumnMetadata true true); ("uid", mkColumnMetadata false false)]) ["id"; "uid"].

Definition insertInto (ru : Rule) (rows : list PredicateNode) : outcome SimpleInsertPlan :=
  snd (optimizeInsert ∅ None params norand true ru [] SequenceExamples.suppliers (λ _ _, Ok tt) SequenceExamples.Start
    (λ s w, (S w, Ok (Z.of_nat (s + w)))) (λ tb, Ok {[tb := users_metadata]}) "fake" "shop"
    (mkInsert 0 None ["users"] ["uid"] [] (map (λ p, [PredicateExpressionNode p]) rows)) (newSequenceManager, 0%nat)).

(** The rows of each statement of a plan. *)
Definition contents (r : outcome SimpleInsertPlan) : outcome (list (string * list string * list (list ExpressionNode))) :=
  sp ← r; Ok (map (λ q, (q.1, is_Table q.2, is_Values q.2)) (planned sp)).

Definition val (n : Z) : ExpressionNode := PredicateExpressionNode (int n).

Definition insert_users : InsertStatement := mkInsert 0 None ["users"] ["uid"] [] [[val 21]; [val 6]].
Definition uid21 : ExpressionNode := cmpE (column "uid") Ceq (int 21).

Abbreviation planInsert := (optimizeInsert ∅ None params norand true shop [] SequenceExamples.suppliers (λ _ _, Ok tt) SequenceExamples.Start
  (λ s w, (S w, Ok (Z.of_nat (s + w)))) (λ tb, Err (NewError "no schema")) "fake" "shop" insert_users (newSequenceManager, 0%nat)).

Lemma insert_shares_rows_out_witness :
  match planInsert with
  | (_, Ok sp) => ∃ clones qs, planned sp ≡ₚ qs ∧ Forall2 (λ x y, x.1 = y.1 ∧ extends x.2 y.2) clones qs ∧
      concat (map (λ x, is_Values x.2) clones) ≡ₚ [[val 21]; [val 6]]
  | _ => False
  end.
Proof.
  assert (match planInsert with (_, Ok _) => true | _ => false end = true) as Hs by (by vm_compute).
  destruct planInsert as [st' [sp| | |]] eqn:E; [|discriminate Hs..].
  destruct (insert_shares_rows_out ∅ None params norand true shop [] SequenceExamples.suppliers (λ _ _, Ok tt) SequenceExamples.Start
    (λ s w, (S w, Ok (Z.of_nat (s + w)))) (λ tb, Err (NewError "no schema")) "fake" "shop" rendered "users" insert_users
    (newSequenceManager, 0%nat) st' sp eq_refl eq_refl E) as (clones & qs & Hp & HF & Hv & _).
  exists clones, qs. split; [exact Hp|]. split; [exact HF|]. exact Hv.
Defined.

Lemma uid21_selected : selected uid21.
Proof.
  split; [|split].
  - change (Forall (supported rendered period16 row21) [NewInt64 "uid" Ceq 21]).
    apply Forall_cons_2; [apply uid_supported; unfold inS; lia|apply Forall_nil_2].
  - simpl. intros v [= <-]. apply denotes_int. unfold inS. lia.
  - apply compares_int; [unfold inS; lia|done].
Qed.


Definition restoreDelete (s : DeleteStatement) : outcome (string * list Z) :=
  t ← TableName_String (ds_Table s); Ok ("DELETE FROM " +:+ t, []).

(** The second table fails after the first was deleted from. *)
Definition answer (k : string * string * list (option ProtoValue)) : outcome (Z * Z) :=
  if (k.1.2 =? "DELETE FROM `users_6`")%string then Err (NewError "lost connection") else Ok (3, 0).

Lemma delete_runs_statements_witness :
  SimpleDeletePlan_ExecIn [] (logged answer) restoreDelete delete_users (Some {["db_0" := ["users_5"; "users_6"]]}) [] =
    ([("db_0", "DELETE FROM `users_5`", []); ("db_0", "DELETE FROM `users_6`", [])], Err (WrapError (NewError "lost connection"))) ∧
  ∃ done_ rest, deletes delete_users {["db_0" := ["users_5"; "users_6"]]} = done_ ++ rest ∧ length done_ = 2%nat.
Proof.
  assert (SimpleDeletePlan_ExecIn [] (logged answer) restoreDelete delete_users (Some {["db_0" := ["users_5"; "users_6"]]}) [] =
    ([("db_0", "DELETE FROM `users_5`", []); ("db_0", "DELETE FROM `users_6`", [])], Err (WrapError (NewError "lost connection")))) as E
    by by vm_compute.
  split; [exact E|].
  destruct (delete_runs_statements [] answer restoreDelete delete_users _ _ _ _ (map_non_empty_singleton _ _) E) as (done_ & rest & ks & Hd & Hk & HF & _).
  exists done_, rest. split; [exact Hd|]. apply Forall2_length in HF. rewrite HF. simpl in Hk. by subst ks.
Defined.

Definition restoreUpdate (u : UpdateStatement) : outcome (string * list Z) :=
  t ← TableName_String (us_Table u); Ok ("UPDATE " +:+ t, []).

Definition twoDatabases : DatabaseTables := {["db_0" := ["users_5"; "users_6"]; "db_1" := ["users_7"]]}.

(** Turns of the goroutines in the given order. *)
Fixpoint play (schedule : list nat) (s : updateRun (list (string * string * list (option ProtoValue)))) :=
  match schedule with
  | [] => Some s
  | i :: schedule => match turnOf [] (logged answer) restoreUpdate update_users i s with Some (Ok s) => play schedule s | _ => None end
  end.

Lemma play_turns schedule s s' : play schedule s = Some s' → nsteps (turn [] (logged answer) restoreUpdate update_users) (length schedule) s s'.
Proof.
  revert s. induction schedule as [|i schedule IH]; intros s H; simpl in H; [injection H as <-; constructor|].
  destruct (turnOf _ _ _ _ _ _) as [[s1| | |]|] eqn:E; try done. econstructor; [by exists i|by apply IH].
Qed.

Lemma update_any_schedule_witness :
  match play [1; 0; 1]%nat (startRun twoDatabases []) with
  | Some s => ∃ done_ : list (string * string), done_ ≡ₚ flat (λ db l, map (pair db) l) twoDatabases ∧ waitResult s = Ok 9
  | None => False
  end.
Proof.
  assert (match play [1; 0; 1]%nat (startRun twoDatabases []) with
    | Some s => finished s && match waitResult s with Ok n => n =? 9 | _ => false end | None => false end = true) as Hs by (by vm_compute).
  destruct (play [1; 0; 1]%nat (startRun twoDatabases [])) as [s|] eqn:E; [|discriminate Hs].
  apply andb_true_iff in Hs as [Hf Hw].
  assert (waitResult s = Ok 9) as Hw' by (destruct (waitResult s) as [x| | |]; [apply Z.eqb_eq in Hw as ->; reflexivity|discriminate Hw..]).
  destruct (update_any_schedule [] answer restoreUpdate update_users twoDatabases [] 3 s (play_turns _ _ _ E)) as (_ & _ & H).
  destruct (H 9 Hf Hw') as (done_ & ks & Hp & _). exists done_. split; [exact Hp|exact Hw'].
Defined.

(** [@@server_id], which the proxy cannot compute. *)
Definition serverId : PredicateNode := AtomPredicateNode (SystemVariableExpressionAtom "server_id" true false).

(** Generated keys and rows without a shard.  The rows of a statement that
    are stored in one table share one generated key: 5 and 21 both get the key
    1.  A row whose key the proxy cannot compute has no shard, and is refused on its
    own, but after another row it is sent to that row's table, which the
    sharder still remembers. *)
Theorem insert_batch_faults :
  contents (insertInto keyedShop [int 5; int 21]) = Ok [("db_0", ["users_5"], [[val 5; val 1]; [val 21; val 1]])] ∧
  insertInto keyedShop [serverId] = Err (WrapError ErrNoShardKeyFound) ∧
  contents (insertInto keyedShop [int 21; serverId]) =
    Ok [("db_0", ["users_5"], [[val 21; val 1]; [PredicateExpressionNode serverId; val 1]])].
Proof. split; [|split]; by vm_compute. Qed.

(** Hints of an UPDATE.  With a ROUTE hint to one table, an UPDATE of a
    table that denies full scans is refused as a full scan, although a DELETE
    with the same hint and clause is planned on that table; where full scans
    are allowed, the hint is followed, but not without a WHERE, when every
    table is updated. *)
Lemma update_hint_faults :
  let route := [mkHint TypeRoute [mkKeyValue "" "db_0.users_5"]] in
  let m : DatabaseTables := {["db_0" := ["users_5"]]} in
  let open_ : Rule := {["users" := SetAllowFullScan rendered true]} in
  let unbounded := mkUpdate ["users"] setName None in
  optimizeUpdate ∅ None params norand true shop route update_users = Err ErrDenyFullScan ∧
  optimizeDelete ∅ None params norand true shop route delete_users = Ok (SimpleDeletePlan delete_users m) ∧
  optimizeUpdate ∅ None params norand true open_ route update_users = Ok (UpdatePlan update_users (Some m)) ∧
  (all ← Enumerate (topology rendered); Ok (UpdatePlan unbounded (Some all))) = optimizeUpdate ∅ None params norand true open_ route unbounded.
Proof. split; [|split; [|split]]; by vm_compute. Qed.
End OptimizeExamples.
