(* ===== verification/Utf8.v ===== *)
(** * Runes: the Go library's [unicode/utf8]

    Decoding and encoding of one rune, and ranging over the runes of a string.
    A byte that does not start a valid encoding is the replacement rune, of
    width one. *)
From S2P Require Import Prelude.

Definition byte (c : ascii) : Z := Z.of_N (N_of_ascii c).
Definition char (z : Z) : ascii := ascii_of_N (Z.to_N z).

Definition RuneError : Z := 0xFFFD.

Lemma byte_range c : 0 ≤ byte c < 256.
Proof. unfold byte. pose proof (N_ascii_bounded c). lia. Qed.

Lemma char_byte c : char (byte c) = c.
Proof. unfold char, byte. rewrite N2Z.id. apply ascii_N_embedding. Qed.

Lemma byte_char z : 0 ≤ z < 256 → byte (char z) = z.
Proof. intros H. unfold char, byte. rewrite N_ascii_embedding by lia. lia. Qed.

(** A continuation byte within bounds. *)
Definition within (lo hi : Z) (c : ascii) : bool := (lo <=? byte c) && (byte c <=? hi).

Abbreviation cont := (within 0x80 0xBF).

(** The bounds of the second byte after a first byte of three or four. *)
Definition second (b0 : Z) : Z * Z :=
  if b0 =? 0xE0 then (0xA0, 0xBF)
  else if b0 =? 0xED then (0x80, 0x9F)
  else if b0 =? 0xF0 then (0x90, 0xBF)
  else if b0 =? 0xF4 then (0x80, 0x8F)
  else (0x80, 0xBF).

(** [utf8.DecodeRuneInString]: the rune and the rest of the string. *)
Definition decodeRune (s : string) : Z * string :=
  match s with
  | EmptyString => (RuneError, "")
  | String c0 s1 =>
      let b0 := byte c0 in
      let invalid := (RuneError, s1) in
      if b0 <? 0x80 then (b0, s1)
      else if (0xC2 <=? b0) && (b0 <=? 0xDF) then
        match s1 with
        | String c1 s2 => if cont c1 then ((b0 - 0xC0) * 64 + (byte c1 - 0x80), s2) else invalid
        | _ => invalid
        end
      else if (0xE0 <=? b0) && (b0 <=? 0xEF) then
        match s1 with
        | String c1 (String c2 s3) =>
            if within (fst (second b0)) (snd (second b0)) c1 && cont c2
            then ((b0 - 0xE0) * 4096 + (byte c1 - 0x80) * 64 + (byte c2 - 0x80), s3) else invalid
        | _ => invalid
        end
      else if (0xF0 <=? b0) && (b0 <=? 0xF4) then
        match s1 with
        | String c1 (String c2 (String c3 s4)) =>
            if within (fst (second b0)) (snd (second b0)) c1 && cont c2 && cont c3
            then ((b0 - 0xF0) * 262144 + (byte c1 - 0x80) * 4096 + (byte c2 - 0x80) * 64 + (byte c3 - 0x80), s4) else invalid
        | _ => invalid
        end
      else invalid
  end.

(** [utf8.EncodeRune], [strings.Builder.WriteRune]. *)
Definition encodeRune (r : Z) : string :=
  let r := if (r <? 0) || (0x10FFFF <? r) || ((0xD800 <=? r) && (r <=? 0xDFFF)) then RuneError else r in
  if r <? 0x80 then String (char r) ""
  else if r <? 0x800 then String (char (0xC0 + r / 64)) (String (char (0x80 + r mod 64)) "")
  else if r <? 0x10000 then
    String (char (0xE0 + r / 4096)) (String (char (0x80 + r / 64 mod 64)) (String (char (0x80 + r mod 64)) ""))
  else
    String (char (0xF0 + r / 262144)) (String (char (0x80 + r / 4096 mod 64))
      (String (char (0x80 + r / 64 mod 64)) (String (char (0x80 + r mod 64)) ""))).

(** A Unicode scalar value. *)
Definition scalar (r : Z) : Prop := 0 ≤ r ≤ 0x10FFFF ∧ ¬ 0xD800 ≤ r ≤ 0xDFFF.

(** [for _, r := range s]. *)
Fixpoint runesLoop (fuel : nat) (s : string) : list Z :=
  match fuel, s with
  | O, _ | _, EmptyString => []
  | S fuel, _ => let '(r, s) := decodeRune s in r :: runesLoop fuel s
  end.

Definition runes (s : string) : list Z := runesLoop (String.length s) s.

(** The text of runes. *)
Definition encode (rs : list Z) : string := foldr (λ r s, (encodeRune r ++ s)%string) "" rs.

(** ** Theory *)

#[local] Ltac Zify.zify_post_hook ::= Z.to_euclidean_division_equations.

Lemma scalar_encode r : scalar r →
  (r <? 0) || (0x10FFFF <? r) || ((0xD800 <=? r) && (r <=? 0xDFFF)) = false.
Proof.
  intros [H1 H2]. destruct (Z.ltb_spec r 0), (Z.ltb_spec 0x10FFFF r), (Z.leb_spec 0xD800 r), (Z.leb_spec r 0xDFFF); simpl; done || lia.
Qed.

Lemma within_char lo hi z : 0 ≤ z < 256 → within lo hi (char z) = (lo <=? z) && (z <=? hi).
Proof. intros H. unfold within. by rewrite byte_char. Qed.

Ltac eqbs := repeat match goal with |- context [?a =? ?b] => destruct (Z.eqb_spec a b); try lia end.

Ltac bools := repeat match goal with
  | |- context [?a <? ?b] => destruct (Z.ltb_spec a b); try lia
  | |- context [?a <=? ?b] => destruct (Z.leb_spec a b); try lia
  | |- context [?a =? ?b] => destruct (Z.eqb_spec a b); try lia
  end.

(** The encoding of a rune is read back. *)
Lemma decode_encode r s : scalar r → decodeRune (encodeRune r ++ s)%string = (r, s).
Proof.
  intros Hr. unfold encodeRune. rewrite (scalar_encode r Hr). destruct Hr as [H1 H2].
  destruct (Z.ltb_spec r 0x80); [|destruct (Z.ltb_spec r 0x800); [|destruct (Z.ltb_spec r 0x10000)]].
  - change (decodeRune (String (char r) s) = (r, s)). unfold decodeRune. rewrite !byte_char by lia. bools. done.
  - assert (0xC2 ≤ 0xC0 + r / 64 ≤ 0xDF) by lia.
    change (decodeRune (String (char (0xC0 + r / 64)) (String (char (0x80 + r mod 64)) s)) = (r, s)).
    unfold decodeRune. rewrite !within_char, !byte_char by lia. bools; simpl; f_equal; lia.
  - assert (0xE0 ≤ 0xE0 + r / 4096 ≤ 0xEF) by lia.
    change (decodeRune (String (char (0xE0 + r / 4096)) (String (char (0x80 + r / 64 mod 64)) (String (char (0x80 + r mod 64)) s))) = (r, s)).
    assert (fst (second (0xE0 + r / 4096)) ≤ 0x80 + r / 64 mod 64 ≤ snd (second (0xE0 + r / 4096))) by (unfold second; eqbs; simpl; lia).
    unfold decodeRune. rewrite !within_char, !byte_char by lia. bools; cbn [andb]; f_equal; lia.
  - assert (0xF0 ≤ 0xF0 + r / 262144 ≤ 0xF4) by lia.
    change (decodeRune (String (char (0xF0 + r / 262144)) (String (char (0x80 + r / 4096 mod 64))
      (String (char (0x80 + r / 64 mod 64)) (String (char (0x80 + r mod 64)) s)))) = (r, s)).
    assert (fst (second (0xF0 + r / 262144)) ≤ 0x80 + r / 4096 mod 64 ≤ snd (second (0xF0 + r / 262144))) by (unfold second; eqbs; simpl; lia).
    unfold decodeRune. rewrite !within_char, !byte_char by lia. bools; cbn [andb]; f_equal; lia.
Qed.

Lemma encodeRune_cons r : ∃ c s, encodeRune r = String c s.
Proof. unfold encodeRune. repeat case_match; eauto. Qed.

Lemma decodeRune_shorter s : s ≠ "" → (String.length (snd (decodeRune s)) < String.length s)%nat.
Proof.
  destruct s as [|c0 s1]; [done|]. intros _. unfold decodeRune. repeat case_match; cbn [snd String.length]; lia.
Qed.

(** Enough fuel is enough. *)
Lemma runesLoop_fuel n m s : (String.length s ≤ n)%nat → (String.length s ≤ m)%nat → runesLoop n s = runesLoop m s.
Proof.
  revert m s. induction n as [|n IH]; intros m s Hn Hm.
  - destruct s; [by destruct m|simpl in Hn; lia].
  - destruct s as [|c s]; [by destruct m|]. destruct m as [|m]; [simpl in Hm; lia|].
    pose proof (decodeRune_shorter (String c s) ltac:(done)) as Hs. cbn [runesLoop]. destruct (decodeRune (String c s)) as [r s'] eqn:E.
    cbn [snd String.length] in *. f_equal. apply IH; lia.
Qed.

Lemma runes_cons s r s' : s ≠ "" → decodeRune s = (r, s') → runes s = r :: runes s'.
Proof.
  intros Hs E. unfold runes. destruct s as [|c s]; [done|]. pose proof (decodeRune_shorter (String c s) Hs) as Hl. rewrite E in Hl.
  cbn [String.length runesLoop snd] in *. rewrite E. f_equal. apply runesLoop_fuel; lia.
Qed.

(** Ranging over a valid text visits its runes. *)
Lemma runes_encode rs : Forall scalar rs → runes (encode rs) = rs.
Proof.
  induction 1 as [|r rs Hr _ IH]; [done|]. cbn [encode foldr]. fold (encode rs). rewrite <- IH at 2. apply runes_cons; [|by apply decode_encode].
  destruct (encodeRune_cons r) as (c & s & ->). done.
Qed.

Lemma append_assoc (a b c : string) : (a ++ (b ++ c) = (a ++ b) ++ c)%string.
Proof. induction a as [|x a IH]; [done|]. change (String x (a ++ (b ++ c)) = String x ((a ++ b) ++ c))%string. by rewrite IH. Qed.

Lemma encode_app rs ks : encode (rs ++ ks) = (encode rs ++ encode ks)%string.
Proof.
  induction rs as [|r rs IH]; [done|]. cbn. fold (encode rs) (encode (rs ++ ks)). rewrite IH.
  apply append_assoc.
Qed.

(** ASCII characters are their own encodings. *)
Lemma encodeRune_ascii c : byte c < 0x80 → encodeRune (byte c) = String c "".
Proof.
  intros H. pose proof (byte_range c). unfold encodeRune. rewrite scalar_encode by (split; lia).
  destruct (Z.ltb_spec (byte c) 0x80); [|lia]. by rewrite char_byte.
Qed.

Lemma scalar_ascii c : byte c < 0x80 → scalar (byte c).
Proof. intros H. pose proof (byte_range c). split; lia. Qed.
