(* ===== verification/Escape.v ===== *)
(** * Escaping: [pkg/runtime/misc/escape.go], [pkg/runtime/misc/strings.go],
    [pkg/runtime/ast/misc.go]

    The quoting of texts and identifiers in printed SQL.  Texts are sequences
    of runes; what a builder is given is appended to it. *)
From S2P Require Import Prelude Utf8.

(** Runes of ASCII characters. *)
Definition backslash : Z := byte "\".
Definition quote : Z := byte "'".
Definition dquote : Z := 34.
Definition percent : Z := byte "%".
Definition underscore : Z := byte "_".

(** [EscapeSingleQuote], [EscapeDoubleQuote] and [EscapeLike]: consecutive
    numbers, so the last has the bits of the other two. *)
Definition EscapeSingleQuote : Z := 1.
Definition EscapeDoubleQuote : Z := 2.
Definition EscapeLike : Z := 3.

Definition hasFlag (flag f : Z) : bool := negb (Z.land flag f =? 0).

(** The runes written for one rune, given the next. *)
Definition escapeRune (flag : Z) (s next : Z) : list Z :=
  if s =? 10 then [backslash; byte "n"]
  else if s =? 8 then [backslash; byte "b"]
  else if s =? 9 then [backslash; byte "t"]
  else if s =? 13 then [backslash; byte "r"]
  else if s =? backslash then
    let isLikeEscape := hasFlag flag EscapeLike && ((next =? percent) || (next =? underscore)) in
    if isLikeEscape then [backslash] else [backslash; backslash]
  else if s =? quote then (if hasFlag flag EscapeSingleQuote then [backslash; quote] else [quote])
  else if s =? dquote then (if hasFlag flag EscapeDoubleQuote then [backslash; dquote] else [dquote])
  else [s].

Fixpoint escaped (flag : Z) (rs : list Z) : list Z :=
  match rs with
  | [] => []
  | s :: rs => escapeRune flag s (default RuneError (head rs)) ++ escaped flag rs
  end.

Definition WriteEscape (sb input : string) (flag : Z) : string := (sb ++ encode (escaped flag (runes input)))%string.

Definition Escape (input : string) (flag : Z) : string := WriteEscape "" input flag.

(** The rune an escape sequence stands for. *)
Definition unescapeRune (ignores : list Z) (c : Z) : list Z :=
  if c =? byte "b" then [8]
  else if c =? byte "n" then [10]
  else if c =? byte "t" then [9]
  else if c =? byte "r" then [13]
  else if c =? byte "v" then [11]
  else if c =? dquote then [dquote]
  else if c =? quote then [quote]
  else if bool_decide (c ∈ ignores) then [backslash; c] else [c].

Fixpoint unescaped (ignores : list Z) (escape : bool) (rs : list Z) : list Z :=
  match rs with
  | [] => []
  | c :: rs =>
      if c =? backslash then (if escape then [backslash] else []) ++ unescaped ignores (negb escape) rs
      else if escape then unescapeRune ignores c ++ unescaped ignores false rs
      else c :: unescaped ignores false rs
  end.

(** [strings.ContainsRune(s, '\\')]: a byte of its own in every text. *)
Fixpoint containsByte (c : ascii) (s : string) : bool :=
  match s with EmptyString => false | String x s => (x =? c)%char || containsByte c s end.

Definition Unescape (s : string) (ignores : list Z) : string :=
  if containsByte "\" s then encode (unescaped ignores false (runes s)) else s.

(** [ast.WriteString]. *)
Definition WriteString (sb str : string) : string := (WriteEscape (sb ++ "'") str EscapeSingleQuote ++ "'")%string.

(** ** Padding *)

Definition str_take (n : nat) (s : string) : string := String.substring 0 n s.

(** [str[:length]]; a bound that is not in the string panics. *)
Definition slicePrefix (s : string) (n : Z) : outcome string :=
  if (n <? 0) || (Z.of_nat (String.length s) <? n) then Panic else Ok (str_take (Z.to_nat n) s).

(** The loop that writes [pad] until the builder is long enough; an empty pad
    never gets there. *)
Fixpoint padLoop (fuel : nat) (sb pad : string) (n : Z) : outcome string :=
  if n <=? Z.of_nat (String.length sb) then Ok sb
  else match fuel with O => OutOfFuel | S fuel => padLoop fuel (sb ++ pad)%string pad n end.

Definition PadRight (str pad : string) (length : Z) : outcome string :=
  if length <=? Z.of_nat (String.length str) then slicePrefix str length
  else sb ← padLoop (Z.to_nat length) str pad length; slicePrefix sb length.

Definition PadLeft (str pad : string) (length : Z) : outcome string :=
  let n := Z.of_nat (String.length str) in
  if n =? length then Ok str
  else if length <? n then slicePrefix str length
  else sb ← padLoop (Z.to_nat length) "" pad (length - n); p ← slicePrefix sb (length - n); Ok (p ++ str)%string.

Definition FirstNonEmptyString (first second : string) (others : list string) : string :=
  default "" (List.find (λ s, (0 <? String.length s)%nat) (first :: second :: others)).

Definition MustFirstNonEmptyString (first second : string) (others : list string) : outcome string :=
  let v := FirstNonEmptyString first second others in
  if (String.length v <? 1)%nat then Panic else Ok v.

(** [FirstNonZeroInt] and its copies for other widths. *)
Definition FirstNonZeroInt (first second : Z) (others : list Z) : Z :=
  default 0 (List.find (λ n, negb (n =? 0)) (first :: second :: others)).

(** ** Reading back *)

(** The end of a literal: the first quote that no backslash escapes, the runes
    before it and the runes after it. *)
Fixpoint splitLiteral (escape : bool) (rs : list Z) : option (list Z * list Z) :=
  match rs with
  | [] => None
  | c :: rs =>
      if negb escape && (c =? quote) then Some ([], rs)
      else match splitLiteral (negb escape && (c =? backslash)) rs with
           | Some (content, rest) => Some (c :: content, rest)
           | None => None
           end
  end.

(** What the escaping of a rune is, by cases. *)
Inductive escapes (flag s next : Z) : list Z → Prop :=
| escapes_plain : s ≠ backslash → (s = quote → hasFlag flag EscapeSingleQuote = false) → escapes flag s next [s]
| escapes_sequence c :
    c ≠ backslash → (∀ ignores, unescapeRune ignores c = [s]) → escapes flag s next [backslash; c]
| escapes_backslash : s = backslash → escapes flag s next [backslash; backslash]
| escapes_like : s = backslash → next = percent ∨ next = underscore → escapes flag s next [backslash].

Lemma escapeRune_escapes flag s next : escapes flag s next (escapeRune flag s next).
Proof.
  unfold escapeRune.
  destruct (Z.eqb_spec s 10) as [->|]; [by apply escapes_sequence|].
  destruct (Z.eqb_spec s 8) as [->|]; [by apply escapes_sequence|].
  destruct (Z.eqb_spec s 9) as [->|]; [by apply escapes_sequence|].
  destruct (Z.eqb_spec s 13) as [->|]; [by apply escapes_sequence|].
  destruct (Z.eqb_spec s backslash) as [->|].
  { destruct (hasFlag flag EscapeLike), (Z.eqb_spec next percent), (Z.eqb_spec next underscore); simpl;
      (apply escapes_like; [done|by (left + right)]) || by apply escapes_backslash. }
  destruct (Z.eqb_spec s quote) as [->|]; [destruct (hasFlag flag EscapeSingleQuote) eqn:E; [by apply escapes_sequence|by apply escapes_plain]|].
  destruct (Z.eqb_spec s dquote) as [->|]; [destruct (hasFlag flag EscapeDoubleQuote); [by apply escapes_sequence|by apply escapes_plain]|].
  by apply escapes_plain.
Qed.

(** After a backslash that is kept, the wildcard is kept too. *)
Lemma escape_wildcard flag n next : n = percent ∨ n = underscore → escapeRune flag n next = [n].
Proof. by intros [-> | ->]. Qed.

(** Reading an escaped text rune by rune gives the text. *)
Lemma unescaped_escaped flag rs : unescaped [percent; underscore] false (escaped flag rs) = rs.
Proof.
  induction rs as [|s rs IH]; [done|]. cbn [escaped].
  destruct (escapeRune_escapes flag s (default RuneError (head rs))) as [Hb _|c Hc Hu| -> | -> Hn].
  - cbn. destruct (Z.eqb_spec s backslash); [done|]. by rewrite IH.
  - cbn. destruct (Z.eqb_spec c backslash); [done|]. by rewrite Hu, IH.
  - cbn. by rewrite IH.
  - destruct rs as [|n rs]; [by destruct Hn|]. cbn [head default] in Hn.
    simpl in Hn. cbn [escaped] in IH |- *. rewrite escape_wildcard in * by done. cbn in IH |- *.
    destruct (Z.eqb_spec n backslash) as [->|]; [by destruct Hn|]. injection IH as IH. rewrite IH.
    by destruct Hn as [-> | ->].
Qed.

(** The runes of an escape sequence are skipped, and so is a plain one. *)
Lemma splitLiteral_plain c l :
  c ≠ quote → c ≠ backslash → splitLiteral false (c :: l) = option_map (prod_map (cons c) id) (splitLiteral false l).
Proof.
  intros Hq Hb. cbn [splitLiteral negb andb]. destruct (Z.eqb_spec c quote); [done|]. destruct (Z.eqb_spec c backslash); [done|].
  by destruct (splitLiteral false l) as [[]|].
Qed.

Lemma splitLiteral_sequence c l :
  splitLiteral false (backslash :: c :: l) = option_map (prod_map (λ s, backslash :: c :: s) id) (splitLiteral false l).
Proof.
  cbn [splitLiteral negb andb]. change (backslash =? quote) with false. change (backslash =? backslash) with true. cbn.
  by destruct (splitLiteral false l) as [[]|].
Qed.

(** No rune of an escaped text ends the literal. *)
Lemma splitLiteral_escaped flag rs rest :
  hasFlag flag EscapeSingleQuote = true → splitLiteral false (escaped flag rs ++ quote :: rest) = Some (escaped flag rs, rest).
Proof.
  intros Hf. induction rs as [|s rs IH]; [done|]. cbn [escaped]. rewrite <- app_assoc.
  destruct (escapeRune_escapes flag s (default RuneError (head rs))) as [Hb Hq|c Hc Hu| -> | -> Hn].
  - cbn [app]. rewrite splitLiteral_plain, IH; [done| |done]. intros ->. by rewrite Hq in Hf.
  - cbn [app]. by rewrite splitLiteral_sequence, IH.
  - cbn [app]. by rewrite splitLiteral_sequence, IH.
  - destruct rs as [|n rs]; [by destruct Hn|]. simpl in Hn. cbn [escaped] in IH |- *. rewrite escape_wildcard in * by done.
    assert (n ≠ quote ∧ n ≠ backslash) as [Hq Hb] by (by destruct Hn as [-> | ->]). cbn [app] in IH |- *.
    rewrite splitLiteral_plain in IH by done. rewrite splitLiteral_sequence.
    destruct (splitLiteral false _) as [[content rest']|]; [|done]. by injection IH as -> ->.
Qed.

Lemma scalar_escaped flag rs : Forall scalar rs → Forall scalar (escaped flag rs).
Proof.
  induction 1 as [|s rs Hs _ IH]; [constructor|]. cbn [escaped]. apply Forall_app. split; [|done].
  assert (scalar backslash) by (by apply scalar_ascii).
  assert (scalar dquote) by (split; [done|by intros [? ?]]).
  unfold escapeRune. repeat case_match; repeat (apply Forall_nil_2 || (apply Forall_cons; split)); assumption || (by apply scalar_ascii).
Qed.

Lemma byte_inj a b : byte a = byte b → a = b.
Proof. intros H. by rewrite <- (char_byte a), H, char_byte. Qed.

(** A text without the byte of an ASCII rune does not contain the rune. *)
Lemma containsByte_app c s t : containsByte c (s ++ t)%string = containsByte c s || containsByte c t.
Proof.
  induction s as [|x s IH]; [done|]. change ((x =? c)%char || containsByte c (s ++ t)%string = (x =? c)%char || containsByte c s || containsByte c t).
  by rewrite IH, orb_assoc.
Qed.

Lemma containsByte_encode c rs : byte c < 0x80 → byte c ∈ rs → containsByte c (encode rs) = true.
Proof.
  intros Hc. induction rs as [|r rs IH]; [by intros ?%not_elem_of_nil|]. change (encode (r :: rs)) with (encodeRune r ++ encode rs)%string.
  rewrite containsByte_app. intros [<-|Hin]%elem_of_cons; [|by rewrite IH, orb_true_r].
  rewrite encodeRune_ascii by done. simpl. by rewrite Ascii.eqb_refl.
Qed.

(** Without a backslash nothing is escaped. *)
Lemma escaped_plain flag rs : backslash ∉ escaped flag rs → escaped flag rs = rs.
Proof.
  induction rs as [|s rs IH]; [done|]. cbn [escaped]. rewrite not_elem_of_app. intros [H1 H2].
  destruct (escapeRune_escapes flag s (default RuneError (head rs))) as [Hb Hq|c Hc Hu| -> | -> Hn]; [by rewrite IH| | |];
    (exfalso; apply H1; by left).
Qed.



Lemma append_nil_r (s : string) : (s ++ "")%string = s.
Proof. induction s as [|c s IH]; [done|]. change (String c (s ++ "") = String c s). by rewrite IH. Qed.

Lemma length_append' (s t : string) : String.length (s ++ t) = (String.length s + String.length t)%nat.
Proof. induction s as [|c s IH]; [done|]. change (S (String.length (s ++ t)) = S (String.length s + String.length t)). by rewrite IH. Qed.

(** A pad that is not empty is enough: the padded text has the length asked for
    and starts with the text. *)
Lemma padLoop_total fuel sb pad n :
  pad ≠ "" → n ≤ Z.of_nat (fuel + String.length sb) → ∃ t, padLoop fuel sb pad n = Ok (sb ++ t)%string ∧ n ≤ Z.of_nat (String.length (sb ++ t)).
Proof.
  intros Hp. revert sb. induction fuel as [|fuel IH]; intros sb Hn; cbn [padLoop]; destruct (Z.leb_spec n (Z.of_nat (String.length sb))) as [Hl|Hl].
  - exists "". by rewrite append_nil_r.
  - lia.
  - exists "". by rewrite append_nil_r.
  - destruct (IH (sb ++ pad)%string) as (t & -> & Ht).
    + rewrite length_append'. destruct pad; [done|]. simpl. lia.
    + exists (pad ++ t)%string. by rewrite append_assoc.
Qed.

Lemma length_str_take n s : (n ≤ String.length s)%nat → String.length (str_take n s) = n.
Proof.
  revert s. induction n as [|n IH]; intros [|c s] Hn; simpl in *; try done; try lia. f_equal. apply (IH s). lia.
Qed.

Lemma slicePrefix_length s n :
  0 ≤ n ≤ Z.of_nat (String.length s) → ∃ t, slicePrefix s n = Ok t ∧ Z.of_nat (String.length t) = n.
Proof.
  intros [H0 H1]. unfold slicePrefix. destruct (Z.ltb_spec n 0); [lia|]. destruct (Z.ltb_spec (Z.of_nat (String.length s)) n); [lia|]. simpl.
  eexists. split; [done|]. rewrite length_str_take; lia.
Qed.

(** Padding gives a text of exactly the length asked for. *)
Lemma pad_length str pad n :
  pad ≠ "" → 0 ≤ n →
  (∃ t, PadRight str pad n = Ok t ∧ Z.of_nat (String.length t) = n) ∧ (∃ t, PadLeft str pad n = Ok t ∧ Z.of_nat (String.length t) = n).
Proof.
  intros Hp Hn. unfold PadRight, PadLeft. split.
  - destruct (Z.leb_spec n (Z.of_nat (String.length str))); [apply slicePrefix_length; lia|].
    destruct (padLoop_total (Z.to_nat n) str pad n Hp) as (t & -> & Ht); [lia|]. apply slicePrefix_length; lia.
  - destruct (Z.eqb_spec (Z.of_nat (String.length str)) n); [by eexists|].
    destruct (Z.ltb_spec n (Z.of_nat (String.length str))); [apply slicePrefix_length; lia|].
    destruct (padLoop_total (Z.to_nat n) "" pad (n - Z.of_nat (String.length str)) Hp) as (t & -> & Ht); [simpl; lia|].
    change (String.length ("" ++ t)) with (String.length t) in Ht.
    destruct (slicePrefix_length t (n - Z.of_nat (String.length str))) as (u & Hu & Hl); [lia|].
    exists (u ++ str)%string. split; [|rewrite length_append'; lia].
    change ("" ++ t)%string with t. cbn [mbind outcome_bind]. by rewrite Hu.
Qed.
