(* ===== verification/Base58.v ===== *)
(** * Base 58: [third_party/base58/base58.go]

    Byte sequences as texts over 58 letters and digits.  The code works on ten
    digits at a time, which fit an [int64]. *)
From S2P Require Import Prelude Utf8 Escape.

#[local] Ltac Zify.zify_post_hook ::= Z.to_euclidean_division_equations.

Definition alphabet : list ascii := String.list_ascii_of_string "123456789ABCDEFGHJKLMNPQRSTUVWXYZabcdefghijkmnopqrstuvwxyz".
Definition alphabetIdx0 : ascii := "1".

(** The table [b58] of 256 entries; 255 marks what is not a digit. *)
Fixpoint indexOf (c : Z) (i : Z) (l : list ascii) : Z :=
  match l with [] => 255 | x :: l => if byte x =? c then i else indexOf c (i + 1) l end.
Definition b58 (v : Z) : outcome Z := if v <? 256 then Ok (indexOf v 0 alphabet) else Panic.

Definition digit (d : Z) : ascii := default alphabetIdx0 (alphabet !! Z.to_nat d).

Definition bigRadix10 : Z := 58 ^ 10.

(** [big.Int.SetBytes] and [big.Int.Bytes]. *)
Definition SetBytes (b : list Z) : Z := foldl (λ x c, x * 256 + c) 0 b.
Fixpoint bytesLoop (fuel : nat) (x : Z) (acc : list Z) : list Z :=
  match fuel with O => acc | S fuel => if x <=? 0 then acc else bytesLoop fuel (x / 256) (x mod 256 :: acc) end.
Definition Bytes (x : Z) : list Z := bytesLoop (S (Z.to_nat (Z.log2 x))) x [].

(** The digits of a number, least first: ten of them, or as many as it has. *)
Fixpoint digitsOf (n : nat) (m : Z) : list ascii :=
  match n with O => [] | S n => digit (m mod 58) :: digitsOf n (m / 58) end.
Fixpoint digitsLoop (fuel : nat) (m : Z) : list ascii :=
  match fuel with O => [] | S fuel => if m >? 0 then digit (m mod 58) :: digitsLoop fuel (m / 58) else [] end.

Fixpoint encodeLoop (fuel : nat) (x : Z) : list ascii :=
  match fuel with
  | O => []
  | S fuel =>
      if x >? 0 then
        let m := x mod bigRadix10 in
        let x := x / bigRadix10 in
        (if x =? 0 then digitsLoop 10 m else digitsOf 10 m) ++ encodeLoop fuel x
      else []
  end.

(** The elements in front that satisfy a condition. *)
Fixpoint leading {A} (p : A → bool) (l : list A) : nat := match l with x :: l => if p x then S (leading p l) else 0%nat | [] => 0%nat end.

Definition Encode (b : list Z) : string :=
  let x := SetBytes b in
  String.string_of_list_ascii (reverse (encodeLoop (S (length b)) x ++ replicate (leading (λ c, c =? 0) b) alphabetIdx0)).

(** The number of one chunk: [None] when some character is not a digit. *)
Fixpoint totalOf (total : Z) (vs : list Z) : outcome (option Z) :=
  match vs with
  | [] => Ok (Some total)
  | v :: vs => tmp ← b58 v; if tmp =? 255 then Ok None else totalOf (u64 (total * 58 + tmp)) vs
  end.

Fixpoint decodeLoop (fuel : nat) (answer : Z) (t : string) : outcome (option Z) :=
  match fuel with
  | O => Ok (Some answer)
  | S fuel =>
      if (0 <? String.length t)%nat then
        let n := Nat.min (String.length t) 10 in
        total ← totalOf 0 (runes (String.substring 0 n t));
        match total with
        | None => Ok None
        | Some total => decodeLoop fuel (answer * 58 ^ Z.of_nat n + total) (String.substring n (String.length t - n) t)
        end
      else Ok (Some answer)
  end.

Definition Decode (b : string) : outcome (list Z) :=
  answer ← decodeLoop (S (String.length b)) 0 b;
  match answer with
  | None => Ok []
  | Some answer =>
      let numZeros := leading (λ c, (c =? alphabetIdx0)%char) (String.list_ascii_of_string b) in
      Ok (replicate numZeros 0 ++ Bytes answer)
  end.

(** ** Digits *)

Lemma digit_table d : 0 ≤ d < 58 → b58 (byte (digit d)) = Ok d ∧ byte (digit d) < 128 ∧ (digit d = alphabetIdx0 → d = 0).
Proof.
  intros Hd. assert (forallb (λ d, match b58 (byte (digit d)) with Ok x => x =? d | _ => false end && (byte (digit d) <? 128) &&
    implb (digit d =? alphabetIdx0)%char (d =? 0)) (seqZ 0 58) = true) as H by by vm_compute.
  rewrite forallb_forall in H. specialize (H d). rewrite !andb_true_iff in H. destruct H as [[H1 H2] H3]; [apply list_elem_of_In, elem_of_seqZ; lia|].
  split_and!; [|lia|].
  - destruct (b58 (byte (digit d))); try done. f_equal. lia.
  - intros E. rewrite E in H3. simpl in H3. lia.
Qed.

(** The number a list of digits stands for, least first. *)
Fixpoint value (ds : list Z) : Z := match ds with [] => 0 | d :: ds => d + 58 * value ds end.

Lemma value_app ds es : value (ds ++ es) = value ds + 58 ^ Z.of_nat (length ds) * value es.
Proof.
  induction ds as [|d ds IH]; simpl; [lia|]. rewrite IH. rewrite Nat2Z.inj_succ, Z.pow_succ_r by lia. lia.
Qed.

(** Texts of digits, least first, for a number: in range, and the last digit
    that is written is not 0. *)
Inductive spells (cs : list ascii) (x : Z) : Prop :=
| spells_digits ds :
    cs = map digit ds → Forall (λ d, 0 ≤ d < 58) ds → value ds = x → (∀ d, last ds = Some d → d ≠ 0) → spells cs x.

Lemma digitsOf_spec n m : 0 ≤ m < 58 ^ Z.of_nat n → ∃ ds, digitsOf n m = map digit ds ∧ Forall (λ d, 0 ≤ d < 58) ds ∧ value ds = m ∧ length ds = n.
Proof.
  revert m. induction n as [|n IH]; intros m Hm; [exists []; simpl in *; split_and!; [done|done|lia|done]|].
  rewrite Nat2Z.inj_succ, Z.pow_succ_r in Hm by lia. destruct (IH (m / 58)) as (ds & E & Hr & Hv & Hl); [lia|].
  exists (m mod 58 :: ds). simpl. rewrite E, Hl. split_and!; [done|constructor; [lia|done]|lia|done].
Qed.

Lemma digitsLoop_spec n m : 0 ≤ m < 58 ^ Z.of_nat n → spells (digitsLoop n m) m.
Proof.
  revert m. induction n as [|n IH]; intros m Hm; simpl; [exists []; simpl in *; done || lia|].
  rewrite Nat2Z.inj_succ, Z.pow_succ_r in Hm by lia. destruct (Z.gtb_spec m 0) as [Hpos|Hneg]; [|exists []; simpl; done || lia].
  destruct (IH (m / 58)) as [ds E Hr Hv Ht]; [lia|]. exists (m mod 58 :: ds); simpl; [by rewrite E|constructor; [lia|done]|lia|].
  intros d. rewrite last_cons. destruct (last ds) as [d'|] eqn:El; [intros [= <-]; by apply Ht|]. intros [= <-].
  apply last_None in El. subst ds. simpl in Hv. lia.
Qed.

Lemma encodeLoop_spec n x : 0 ≤ x < 58 ^ (10 * Z.of_nat n) → spells (encodeLoop n x) x.
Proof.
  revert x. induction n as [|n IH]; intros x Hx; cbn [encodeLoop]; [exists []; simpl in *; done || lia|].
  destruct (Z.gtb_spec x 0) as [Hpos|Hneg]; [|exists []; cbn; done || lia]. assert (bigRadix10 = 58 ^ 10) as E10 by done.
  rewrite Nat2Z.inj_succ, Z.mul_succ_r, Z.pow_add_r, <- E10 in Hx by lia. set (r := bigRadix10) in *. assert (0 < r) by done.
  destruct (Z.eqb_spec (x / r) 0) as [Hz|Hnz].
  - rewrite Hz. assert (encodeLoop n 0 = []) as -> by (by destruct n). rewrite app_nil_r. replace (x mod r) with x by lia. apply digitsLoop_spec.
    change (58 ^ Z.of_nat 10) with r. lia.
  - destruct (digitsOf_spec 10 (x mod r)) as (ds & Ed & Hr & Hv & Hl); [change (58 ^ Z.of_nat 10) with r; lia|].
    destruct (IH (x / r)) as [es Ee Hre Hve Hte]; [split; [lia|]; apply Z.div_lt_upper_bound; lia|].
    exists (ds ++ es).
    + rewrite Ed, Ee. symmetry. apply map_app.
    + apply Forall_app. by split.
    + rewrite value_app, Hl, Hv, Hve. replace (58 ^ Z.of_nat 10) with r by done. rewrite Z.add_comm. symmetry. apply Z.div_mod. lia.
    + intros d. rewrite last_app. destruct (last es) as [d'|] eqn:El; [intros [= <-]; by apply Hte|].
      apply last_None in El. subst es. cbn [value] in Hve. by destruct (Hnz (eq_sym Hve)).
Qed.

(** ** Bytes *)

Definition isByte (c : Z) : Prop := 0 ≤ c < 256.

Lemma SetBytes_snoc b c : SetBytes (b ++ [c]) = SetBytes b * 256 + c.
Proof. unfold SetBytes. by rewrite foldl_app. Qed.

Lemma SetBytes_range b : Forall isByte b → 0 ≤ SetBytes b < 256 ^ Z.of_nat (length b).
Proof.
  induction b as [|c b IH] using rev_ind; [done|]. intros [Hb Hc]%Forall_app. apply Forall_cons in Hc as [Hc _]. unfold isByte in Hc. specialize (IH Hb).
  rewrite SetBytes_snoc, length_app, Nat.add_1_r, Nat2Z.inj_succ, Z.pow_succ_r by lia. lia.
Qed.

Lemma leading_le {A} (p : A → bool) l : (leading p l ≤ length l)%nat.
Proof. induction l as [|x l IH]; simpl; [done|]. destruct (p x); lia. Qed.

Lemma leading_snoc {A} (p : A → bool) l x : p x = false ∨ (leading p l < length l)%nat → leading p (l ++ [x]) = leading p l.
Proof.
  induction l as [|y l IH]; simpl; [intros [->|?]; [done|lia]|]. intros H. destruct (p y); [|done]. rewrite IH; [done|]. destruct H; [by left|right; lia].
Qed.

Lemma leading_app {A} (p : A → bool) n x l : p x = true → leading p (replicate n x ++ l) = (n + leading p l)%nat.
Proof. intros Hp. induction n as [|n IH]; simpl; [done|]. by rewrite Hp, IH. Qed.

Lemma SetBytes_zero b : Forall isByte b → SetBytes b = 0 ↔ leading (λ c, c =? 0) b = length b.
Proof.
  induction b as [|c b IH] using rev_ind; [done|]. intros [Hb Hc]%Forall_app. apply Forall_cons in Hc as [Hc _]. unfold isByte in Hc.
  rewrite SetBytes_snoc, length_app. pose proof (SetBytes_range b Hb) as [Hr _]. pose proof (leading_le (λ c, c =? 0) b) as Hl. simpl. split.
  - intros E. assert (SetBytes b = 0 ∧ c = 0) as [Hz ->] by lia. apply IH in Hz; [|done].
    clear -Hz. revert Hz. induction b as [|y b IH]; simpl; [done|]. destruct (y =? 0); [|done]. intros [= Hz]. f_equal. by apply IH.
  - intros E. destruct (decide (leading (λ c, c =? 0) b = length b)) as [Hz|Hz]; [|rewrite leading_snoc in E by lia; lia].
    destruct (Z.eqb_spec c 0) as [->|Hne]; [|rewrite leading_snoc in E by (left; lia); lia]. apply IH in Hz; [lia|done].
Qed.

(** The bytes of a number are those it was made of, without zeros in front. *)
Lemma bytesLoop_spec fuel b acc :
  Forall isByte b → SetBytes b < 256 ^ Z.of_nat fuel →
  bytesLoop fuel (SetBytes b) acc = drop (leading (λ c, c =? 0) b) b ++ acc.
Proof.
  assert (∀ b acc, Forall isByte b → SetBytes b ≤ 0 → drop (leading (λ c, c =? 0) b) b ++ acc = acc) as Hzero.
  { intros b' acc' Hb' Hz. pose proof (SetBytes_range b' Hb'). rewrite (proj1 (SetBytes_zero b' Hb')) by lia. by rewrite drop_all. }
  revert b acc. induction fuel as [|fuel IH]; intros b acc Hb Hf; cbn [bytesLoop].
  { rewrite Hzero; [done|done|]. change (256 ^ Z.of_nat 0) with 1 in Hf. lia. }
  destruct (Z.leb_spec (SetBytes b) 0) as [Hz|Hz]; [by rewrite Hzero|].
  destruct b as [|c b _] using rev_ind; [done|]. apply Forall_app in Hb as [Hb Hc]. apply Forall_cons in Hc as [Hc _]. unfold isByte in Hc.
  rewrite SetBytes_snoc in *. rewrite Nat2Z.inj_succ, Z.pow_succ_r in Hf by lia.
  replace ((SetBytes b * 256 + c) / 256) with (SetBytes b) by lia. replace ((SetBytes b * 256 + c) mod 256) with c by lia.
  rewrite IH by (done || lia). pose proof (leading_le (λ c, c =? 0) b). rewrite leading_snoc.
  - by rewrite drop_app_le, <- app_assoc by done.
  - destruct (decide (leading (λ c, c =? 0) b = length b)) as [E|]; [left|right; lia]. apply SetBytes_zero in E; [|done]. lia.
Qed.

Lemma Bytes_SetBytes b : Forall isByte b → replicate (leading (λ c, c =? 0) b) 0 ++ Bytes (SetBytes b) = b.
Proof.
  intros Hb. unfold Bytes. pose proof (SetBytes_range b Hb) as [H0 _]. rewrite bytesLoop_spec, app_nil_r.
  - clear. induction b as [|c b IH]; simpl; [done|]. destruct (Z.eqb_spec c 0) as [->|]; simpl; [by rewrite IH|done].
  - done.
  - rewrite Nat2Z.inj_succ, Z2Nat.id by apply Z.log2_nonneg. apply Z.lt_le_trans with (2 ^ Z.succ (Z.log2 (SetBytes b))).
    + destruct (decide (SetBytes b = 0)) as [->|]; [done|]. apply Z.log2_spec. lia.
    + apply Z.pow_le_mono_l. lia.
Qed.

(** ** Texts of digits *)

Lemma runes_digits cs : Forall (λ c, byte c < 0x80) cs → runes (String.string_of_list_ascii cs) = map byte cs.
Proof.
  intros Hc. rewrite <- (runes_encode (map byte cs)).
  - f_equal. induction Hc as [|c cs Hc _ IH]; [done|]. simpl. rewrite encodeRune_ascii by done. by rewrite <- IH.
  - induction Hc; constructor; [by apply scalar_ascii|done].
Qed.

Lemma substring_take n cs : String.substring 0 n (String.string_of_list_ascii cs) = String.string_of_list_ascii (take n cs).
Proof. revert n. induction cs as [|c cs IH]; intros [|n]; simpl; try done. by rewrite IH. Qed.

Lemma substring_drop n m cs :
  (length cs ≤ n + m)%nat → String.substring n m (String.string_of_list_ascii cs) = String.string_of_list_ascii (drop n cs).
Proof.
  revert n m. induction cs as [|c cs IH]; intros [|n] m Hm; simpl in *; try done.
  - by destruct m.
  - destruct m as [|m]; [lia|]. f_equal. rewrite (IH 0%nat) by (simpl; lia). done.
  - apply IH. lia.
Qed.

Lemma length_text cs : String.length (String.string_of_list_ascii cs) = length cs.
Proof. induction cs as [|c cs IH]; simpl; [done|by rewrite IH]. Qed.

(** The number of digits, greatest first. *)
Definition number (x : Z) (ds : list Z) : Z := foldl (λ x d, x * 58 + d) x ds.

Lemma number_app x ds es : number x (ds ++ es) = number (number x ds) es.
Proof. apply foldl_app. Qed.

Lemma number_snoc x ds d : number x (ds ++ [d]) = number x ds * 58 + d.
Proof. by rewrite number_app. Qed.

Lemma number_shift x ds : number x ds = x * 58 ^ Z.of_nat (length ds) + number 0 ds.
Proof.
  induction ds as [|d ds IH] using rev_ind; [unfold number; simpl; lia|]. rewrite !number_snoc.
  rewrite IH, length_app, Nat.add_1_r, Nat2Z.inj_succ, Z.pow_succ_r by lia. lia.
Qed.

Lemma number_range ds : Forall (λ d, 0 ≤ d < 58) ds → 0 ≤ number 0 ds < 58 ^ Z.of_nat (length ds).
Proof.
  induction ds as [|d ds IH] using rev_ind; [done|]. intros [Hd Hl]%Forall_app. apply Forall_cons in Hl as [Hl _]. specialize (IH Hd).
  rewrite number_snoc, length_app, Nat.add_1_r, Nat2Z.inj_succ, Z.pow_succ_r by lia. lia.
Qed.

Lemma number_zeros n ds : number 0 (replicate n 0 ++ ds) = number 0 ds.
Proof. induction n as [|n IH]; [done|]. exact IH. Qed.

Lemma number_value ds : number 0 (reverse ds) = value ds.
Proof.
  induction ds as [|d ds IH]; [done|]. rewrite reverse_cons, number_app, IH. unfold number. simpl. lia.
Qed.

(** A chunk of at most ten digits does not overflow. *)
Lemma totalOf_digits t ds :
  Forall (λ d, 0 ≤ d < 58) ds → 0 ≤ t → number t ds < 2 ^ 64 → totalOf t (map (λ d, byte (digit d)) ds) = Ok (Some (number t ds)).
Proof.
  revert t. induction ds as [|d ds IH]; intros t Hds Ht Hn; [done|]. apply Forall_cons in Hds as [Hd Hds]. cbn [totalOf map].
  destruct (digit_table d Hd) as [-> _]. cbn [mbind outcome_bind]. destruct (Z.eqb_spec d 255); [lia|].
  change (number t (d :: ds)) with (number (t * 58 + d) ds) in *. rewrite wrapU_id; [apply IH; done || lia|].
  rewrite number_shift in Hn. pose proof (number_range ds Hds). unfold inU. assert (1 ≤ 58 ^ Z.of_nat (length ds)) by (apply Z.pow_pos_nonneg || lia; lia). nia.
Qed.

Lemma ascii_digits ds : Forall (λ d, 0 ≤ d < 58) ds → Forall (λ c, byte c < 0x80) (map digit ds).
Proof. intros H. apply Forall_map. eapply Forall_impl; [done|]. intros d Hd. apply digit_table in Hd. lia. Qed.

Lemma decodeLoop_digits fuel answer ds :
  Forall (λ d, 0 ≤ d < 58) ds → (length ds < fuel)%nat →
  decodeLoop fuel answer (String.string_of_list_ascii (map digit ds)) = Ok (Some (number answer ds)).
Proof.
  revert answer ds. induction fuel as [|fuel IH]; intros answer ds Hds Hf; [lia|]. cbn [decodeLoop]. rewrite length_text, length_map.
  destruct (Nat.ltb_spec 0 (length ds)) as [Hpos|]; [|destruct ds; [done|simpl in *; lia]].
  set (n := Nat.min (length ds) 10). rewrite substring_take, substring_drop, firstn_map, skipn_map by (rewrite length_map; lia).
  assert (Forall (λ d, 0 ≤ d < 58) (take n ds)) as Ht by by apply Forall_take. assert (length (take n ds) = n) as Hl by (rewrite length_take; lia).
  rewrite runes_digits by by apply ascii_digits. rewrite map_map, totalOf_digits; [|done|done|].
  - cbn [mbind outcome_bind]. rewrite IH; [|by apply Forall_drop|rewrite length_drop; lia].
    rewrite <- Hl at 1. rewrite <- number_shift, <- number_app, take_drop. done.
  - pose proof (number_range _ Ht) as [_ Hr]. rewrite Hl in Hr. eapply Z.lt_trans; [exact Hr|].
    apply Z.le_lt_trans with (58 ^ 10); [apply Z.pow_le_mono_r; lia|done].
Qed.

Lemma map_zeros n : map digit (replicate n 0) = replicate n alphabetIdx0.
Proof. exact (fmap_replicate digit n 0). Qed.

Lemma leading_digits n ds :
  Forall (λ d, 0 ≤ d < 58) ds → (∀ d, last ds = Some d → d ≠ 0) →
  leading (λ c, (c =? alphabetIdx0)%char) (map digit (replicate n 0 ++ reverse ds)) = n.
Proof.
  intros Hd Ht. rewrite map_app, map_zeros, leading_app by done. rewrite <- (Nat.add_0_r n) at 2. f_equal.
  destruct ds as [|d ds _] using rev_ind; [done|]. rewrite reverse_snoc. simpl. apply Forall_app in Hd as [_ Hd]. apply Forall_cons in Hd as [Hd _].
  destruct (Ascii.eqb_spec (digit d) alphabetIdx0) as [E|]; [|done]. exfalso. apply (Ht d); [by rewrite last_snoc|by apply (digit_table d Hd)].
Qed.

(** The text of a byte sequence: its zeros and the digits of its number. *)
Lemma Encode_text b :
  Forall isByte b → ∃ ds, Encode b = String.string_of_list_ascii (map digit (replicate (leading (λ c, c =? 0) b) 0 ++ reverse ds)) ∧
    Forall (λ d, 0 ≤ d < 58) ds ∧ value ds = SetBytes b ∧ (∀ d, last ds = Some d → d ≠ 0).
Proof.
  intros Hb. pose proof (SetBytes_range b Hb) as [H0 Hr]. destruct (encodeLoop_spec (S (length b)) (SetBytes b)) as [ds E Hds Hv Ht].
  { split; [done|]. eapply Z.lt_le_trans; [exact Hr|]. rewrite Z.pow_mul_r by lia. apply Z.pow_le_mono; [split; [done|]|lia].
    change (58 ^ 10) with 430804206899405824. lia. }
  exists ds. split_and!; try done. unfold Encode. rewrite E. f_equal.
  rewrite reverse_app, map_app, map_zeros, reverse_replicate. f_equal. symmetry. exact (fmap_reverse digit ds).
Qed.

(** Base 58.  Decoding what was encoded gives the bytes back, zeros in
    front included; so different bytes have different texts. *)
Theorem base58_roundtrip b : Forall isByte b → Decode (Encode b) = Ok b.
Proof.
  intros Hb. destruct (Encode_text b Hb) as (ds & -> & Hds & Hv & Ht). unfold Decode. set (fs := replicate _ 0 ++ reverse ds).
  assert (Forall (λ d, 0 ≤ d < 58) fs) as Hfs.
  { apply Forall_app. split; [by apply Forall_replicate|]. by rewrite Forall_reverse. }
  rewrite decodeLoop_digits; [|done|rewrite length_text, length_map; lia]. cbn [mbind outcome_bind].
  rewrite String.list_ascii_of_string_of_list_ascii. unfold fs. rewrite leading_digits by done.
  rewrite number_zeros, number_value, Hv. f_equal. by apply Bytes_SetBytes.
Qed.

Lemma base58_roundtrip_witness : Decode (Encode [0; 255; 7]) = Ok [0; 255; 7].
Proof. apply (base58_roundtrip [0; 255; 7]). repeat constructor; done. Defined.
