(* ===== verification/Pool.v ===== *)
(** * Pools: [third_party/pools/resource_pool.go], [third_party/pools/id_pool.go]

    The pool of connections and the pool of identifiers.  A channel is the list
    of the values sent and not yet received, with its capacity and whether it
    is closed.  An operation that waits has no successor, [None], until the
    channel has what it waits for.  The methods of one pool are atomic except
    for a shrinking [SetCapacity], which takes the resources one by one.  The
    clock and the factory are arguments. *)
From S2P Require Import Prelude GoStd.

Definition ErrClosed : error := NewError "resource pool is closed".
Definition ErrTimeout : error := NewError "resource pool timed out".
Definition ErrCtxTimeout : error := NewError "resource pool context already expired".

(** ** The resource pool *)

Section ResourcePool.
Context {R : Type}.

Record resourceWrapper := mkWrapper { resource : option R; timeUsed : Z }.

(** The counters, the channel and its capacity. *)
Record ResourcePool := mkPool {
  available : Z;
  active : Z;
  inUse : Z;
  waitCount : Z;
  idleClosed : Z;
  exhausted : Z;
  capacity : Z;
  idleTimeout : Z;
  resources : list resourceWrapper;
  maxCap : Z;
  chanClosed : bool;
}.

Definition emptyWrapper : resourceWrapper := mkWrapper None 0.

(** [NewResourcePool] without prefilling. *)
Definition NewResourcePool (cap max timeout : Z) : outcome ResourcePool :=
  if (cap <=? 0) || (max <=? 0) || (cap >? max) then Panic
  else Ok (mkPool cap 0 0 0 0 0 cap timeout (replicate (Z.to_nat cap) emptyWrapper) max false).

Definition setResources (rp : ResourcePool) (l : list resourceWrapper) : ResourcePool :=
  mkPool (available rp) (active rp) (inUse rp) (waitCount rp) (idleClosed rp) (exhausted rp) (capacity rp) (idleTimeout rp) l (maxCap rp) (chanClosed rp).

Definition addActive (rp : ResourcePool) (n : Z) : ResourcePool :=
  mkPool (available rp) (i64 (active rp + n)) (inUse rp) (waitCount rp) (idleClosed rp) (exhausted rp) (capacity rp) (idleTimeout rp) (resources rp) (maxCap rp) (chanClosed rp).

Definition addAvailable (rp : ResourcePool) (n : Z) : ResourcePool :=
  mkPool (i64 (available rp + n)) (active rp) (inUse rp) (waitCount rp) (idleClosed rp) (exhausted rp) (capacity rp) (idleTimeout rp) (resources rp) (maxCap rp) (chanClosed rp).

Definition addInUse (rp : ResourcePool) (n : Z) : ResourcePool :=
  mkPool (available rp) (active rp) (i64 (inUse rp + n)) (waitCount rp) (idleClosed rp) (exhausted rp) (capacity rp) (idleTimeout rp) (resources rp) (maxCap rp) (chanClosed rp).

Definition addExhausted (rp : ResourcePool) : ResourcePool :=
  mkPool (available rp) (active rp) (inUse rp) (waitCount rp) (idleClosed rp) (i64 (exhausted rp + 1)) (capacity rp) (idleTimeout rp) (resources rp) (maxCap rp) (chanClosed rp).

Definition recordWait (rp : ResourcePool) : ResourcePool :=
  mkPool (available rp) (active rp) (inUse rp) (i64 (waitCount rp + 1)) (idleClosed rp) (exhausted rp) (capacity rp) (idleTimeout rp) (resources rp) (maxCap rp) (chanClosed rp).

Definition addIdleClosed (rp : ResourcePool) : ResourcePool :=
  mkPool (available rp) (active rp) (inUse rp) (waitCount rp) (i64 (idleClosed rp + 1)) (exhausted rp) (capacity rp) (idleTimeout rp) (resources rp) (maxCap rp) (chanClosed rp).

Definition setCap (rp : ResourcePool) (cap : Z) : ResourcePool :=
  mkPool (available rp) (active rp) (inUse rp) (waitCount rp) (idleClosed rp) (exhausted rp) cap (idleTimeout rp) (resources rp) (maxCap rp) (chanClosed rp).

Definition closeChan (rp : ResourcePool) : ResourcePool :=
  mkPool (available rp) (active rp) (inUse rp) (waitCount rp) (idleClosed rp) (exhausted rp) (capacity rp) (idleTimeout rp) (resources rp) (maxCap rp) true.

Definition IsClosed (rp : ResourcePool) : bool := capacity rp =? 0.

(** What a context does while [Get] looks at it. *)
Inductive deadline := Live | Expired | ExpiresWaiting.

(** The end of [get]: a resource is made if the wrapper has none. *)
Definition unwrap (made : outcome R) (rp : ResourcePool) (w : resourceWrapper) : ResourcePool * outcome R :=
  let taken rp r :=
    let rp := addAvailable rp (-1) in
    let rp := if available rp <=? 0 then addExhausted rp else rp in
    (addInUse rp 1, Ok r) in
  match resource w with
  | Some r => taken rp r
  | None =>
      match made with
      | Ok r => taken (addActive rp 1) r
      | Err e => (setResources rp (resources rp ++ [emptyWrapper]), Err e)
      | Panic => (rp, Panic)
      | OutOfFuel => (rp, OutOfFuel)
      end
  end.

(** [get]: [waited] when the first look at the channel found nothing. *)
Definition Get (ctx : deadline) (waited : bool) (made : outcome R) (rp : ResourcePool) : option (ResourcePool * outcome R) :=
  match ctx with
  | Expired => Some (rp, Err ErrCtxTimeout)
  | _ =>
      match resources rp with
      | w :: l => Some (unwrap made (setResources (if waited then recordWait rp else rp) l) w)
      | [] =>
          if chanClosed rp then Some (if waited then recordWait rp else rp, Err ErrClosed)
          else match ctx with ExpiresWaiting => Some (rp, Err ErrTimeout) | _ => None end
      end
  end.

Definition reopenResource (made : outcome R) (now : Z) (rp : ResourcePool) : ResourcePool * resourceWrapper :=
  match made with
  | Ok r => (rp, mkWrapper (Some r) now)
  | _ => (addActive rp (-1), mkWrapper None 0)
  end.

(** Sending on a closed channel panics, and so does the code on a full one. *)
Definition Put (res : option R) (made : outcome R) (now : Z) (rp : ResourcePool) : outcome ResourcePool :=
  let '(rp, w) := match res with
                  | Some r => (rp, mkWrapper (Some r) now)
                  | None => reopenResource made now rp
                  end in
  if chanClosed rp then Panic
  else if Z.of_nat (length (resources rp)) <? maxCap rp then
    Ok (addAvailable (addInUse (setResources rp (resources rp ++ [w])) (-1)) 1)
  else Panic.

(** ** Resizing *)

(** What [SetCapacity] has left to do once the capacity is swapped: to receive
    or to send so many wrappers. *)
Inductive resize := Shrink (n : nat) (target : Z) | Grow (n : nat) | Unchanged.

Definition SetCapacity (cap : Z) (rp : ResourcePool) : ResourcePool * outcome resize :=
  if (cap <? 0) || (cap >? maxCap rp) then (rp, Err (NewError "capacity is out of range"))
  else if capacity rp =? 0 then (rp, Err ErrClosed)
  else if capacity rp =? cap then (rp, Ok Unchanged)
  else (setCap rp cap, Ok (if cap <? capacity rp then Shrink (Z.to_nat (capacity rp - cap)) cap else Grow (Z.to_nat (cap - capacity rp)))).

(** One turn of the shrinking loop; the channel must have a wrapper. *)
Definition takeOne (rp : ResourcePool) : option ResourcePool :=
  match resources rp with
  | [] => None
  | w :: l =>
      let rp := setResources rp l in
      let rp := match resource w with Some _ => addActive rp (-1) | None => rp end in
      Some (addAvailable rp (-1))
  end.

(** One turn of the growing loop; the channel must have room. *)
Definition addOne (rp : ResourcePool) : option ResourcePool :=
  if Z.of_nat (length (resources rp)) <? maxCap rp then Some (addAvailable (setResources rp (resources rp ++ [emptyWrapper])) 1)
  else None.

Fixpoint addMany (n : nat) (rp : ResourcePool) : option ResourcePool :=
  match n with O => Some rp | S n => rp ← addOne rp; addMany n rp end.

(** [Close] is [SetCapacity(0)], whose error is dropped. *)
Definition Close (rp : ResourcePool) : ResourcePool * outcome resize := SetCapacity 0 rp.

(** ** Idle resources *)

(** One turn of the loop of [closeIdleResources]: the oldest wrapper goes back,
    reopened if it was idle for too long. *)
Definition closeIdle (made : outcome R) (now : Z) (timeout : Z) (rp : ResourcePool) : option ResourcePool :=
  match resources rp with
  | [] => None
  | w :: l =>
      let rp := setResources rp l in
      let '(rp, w) :=
        if bool_decide (is_Some (resource w)) && (timeout >? 0) && (timeUsed w + timeout - now <? 0)
        then reopenResource made now (addIdleClosed rp) else (rp, w) in
      Some (setResources rp (resources rp ++ [w]))
  end.

(** The loop; [made] lists what the factory answers, and nothing new in the
    pool stops early. *)
Fixpoint closeIdleLoop (n : nat) (made : nat → outcome R) (now timeout : Z) (rp : ResourcePool) : ResourcePool :=
  match n with
  | O => rp
  | S n => match closeIdle (made n) now timeout rp with Some rp => closeIdleLoop n made now timeout rp | None => rp end
  end.

Definition closeIdleResources (made : nat → outcome R) (now : Z) (rp : ResourcePool) : ResourcePool :=
  closeIdleLoop (Z.to_nat (available rp)) made now (idleTimeout rp) rp.
End ResourcePool.
Arguments ResourcePool : clear implicits.
Arguments resourceWrapper : clear implicits.

(** ** The identifier pool *)

Record IDPool := mkIDPool { used : gmap Z bool; maxUsed : Z }.

Definition NewIDPool : IDPool := mkIDPool ∅ 0.

(** Some recycled identifier, or a new one. *)
Definition IDPool_Get {I : MapIter} (pool : IDPool) : IDPool * Z :=
  match iter_order (used pool) with
  | (key, _) :: _ => (mkIDPool (delete key (used pool)) (maxUsed pool), key)
  | [] => let m := u32 (maxUsed pool + 1) in (mkIDPool (used pool) m, m)
  end.

Definition IDPool_Put (pool : IDPool) (id : Z) : outcome IDPool :=
  if (id <? 1) || (id >? maxUsed pool) then Panic
  else if default false (used pool !! id) then Panic
  else if id =? maxUsed pool then Ok (mkIDPool (used pool) (u32 (id - 1)))
  else Ok (mkIDPool (<[id := true]> (used pool)) (maxUsed pool)).
