(* ===== verification/PoolTheory.v ===== *)
(** * What the pools promise

    The resource pool as a state machine over its clients: its counters are
    exact, a resource that was taken can always be put back, and closing waits
    for the resources that are out and for nothing else.  The identifier pool
    never hands out an identifier that is out. *)
From S2P Require Import Prelude GoStd Pool.

(** ** The machine *)

Section Machine.
Context {R : Type}.

(** The pool, the resources its clients hold, and the shrinking under way. *)
Record system := mkSystem { pool : ResourcePool R; held : list R; shrinking : option (nat * Z) }.

(** One operation of some client, or one turn of a shrinking [SetCapacity].
    A pool is resized by one caller at a time. *)
Inductive step : system → system → Prop :=
| step_get ctx waited made rp rp' r h sh :
    Get ctx waited made rp = Some (rp', Ok r) → step (mkSystem rp h sh) (mkSystem rp' (r :: h) sh)
| step_get_fails ctx waited made rp rp' e h sh :
    Get ctx waited made rp = Some (rp', Err e) → step (mkSystem rp h sh) (mkSystem rp' h sh)
| step_put r made now rp rp' h1 h2 sh :
    Put (Some r) made now rp = Ok rp' → step (mkSystem rp (h1 ++ r :: h2) sh) (mkSystem rp' (h1 ++ h2) sh)
| step_put_lost r made now rp rp' h1 h2 sh :
    Put None made now rp = Ok rp' → step (mkSystem rp (h1 ++ r :: h2) sh) (mkSystem rp' (h1 ++ h2) sh)
| step_idle made now rp h sh :
    step (mkSystem rp h sh) (mkSystem (closeIdleResources made now rp) h sh)
| step_shrink cap n target rp rp' h :
    SetCapacity cap rp = (rp', Ok (Shrink n target)) → step (mkSystem rp h None) (mkSystem rp' h (Some (n, target)))
| step_grow cap n rp rp' rp'' h :
    SetCapacity cap rp = (rp', Ok (Grow n)) → addMany n rp' = Some rp'' → step (mkSystem rp h None) (mkSystem rp'' h None)
| step_take n target rp rp' h :
    takeOne rp = Some rp' → step (mkSystem rp h (Some (S n, target))) (mkSystem rp' h (Some (n, target)))
| step_done target rp h :
    step (mkSystem rp h (Some (0%nat, target))) (mkSystem (if target =? 0 then closeChan rp else rp) h None).

(** ** The invariant *)

Definition nonNil (l : list (resourceWrapper R)) : nat := length (filter (λ w, is_Some (resource w)) l).

(** Wrappers that the shrinking has still to take. *)
Definition owed (sh : option (nat * Z)) : Z := match sh with Some (n, _) => Z.of_nat n | None => 0 end.

(** The counters are what they count. *)
Record exact (s : system) : Prop := mkExact {
  exact_max : 0 ≤ maxCap (pool s) < 2 ^ 62;
  exact_available : available (pool s) = Z.of_nat (length (resources (pool s)));
  exact_inUse : inUse (pool s) = Z.of_nat (length (held s));
  exact_active : active (pool s) = Z.of_nat (nonNil (resources (pool s))) + Z.of_nat (length (held s));
  exact_total : Z.of_nat (length (resources (pool s))) + Z.of_nat (length (held s)) = capacity (pool s) + owed (shrinking s);
  exact_room : 0 ≤ capacity (pool s) ∧ capacity (pool s) + owed (shrinking s) ≤ maxCap (pool s);
  exact_target : ∀ n target, shrinking s = Some (n, target) → capacity (pool s) = target ∧ chanClosed (pool s) = false;
  exact_closed : chanClosed (pool s) = true → capacity (pool s) = 0;
}.

Lemma nonNil_nil : nonNil [] = 0%nat.
Proof using. done. Qed.

Lemma nonNil_app l k : nonNil (l ++ k) = (nonNil l + nonNil k)%nat.
Proof using. unfold nonNil. by rewrite filter_app, length_app. Qed.

Lemma nonNil_cons w l : nonNil (w :: l) = (match resource w with Some _ => 1 | None => 0 end + nonNil l)%nat.
Proof using.
  unfold nonNil. rewrite filter_cons. destruct (resource w); case_decide as H; try done; by destruct H.
Qed.

Lemma nonNil_le l : (nonNil l ≤ length l)%nat.
Proof using. apply length_filter. Qed.

(** Computes the fields of an updated pool. *)
Ltac pool_simpl :=
  unfold addActive, addAvailable, addInUse, addExhausted, recordWait, addIdleClosed, setCap, closeChan, setResources in *;
  cbn [available active inUse waitCount idleClosed exhausted capacity idleTimeout resources maxCap chanClosed pool held shrinking resource] in *.
(** Solves the equations of the counters, none of which overflows. *)
Ltac pool_arith :=
  unfold emptyWrapper in *; rewrite ?nonNil_app, ?nonNil_cons, ?nonNil_nil, ?length_app in *; cbn [length resource] in *;
  rewrite ?(wrapS_id 64) by (unfold inS; lia); try done; lia.
Ltac split_exact := split; pool_simpl; [pool_arith..|split; pool_arith|done|done].

Lemma exact_unwrap made rp w h sh rp' r :
  exact (mkSystem (setResources rp (w :: resources rp)) h sh) → unwrap made rp w = (rp', r) →
  (∀ x, r = Ok x → exact (mkSystem rp' (x :: h) sh)) ∧ (∀ e, r = Err e → exact (mkSystem rp' h sh)).
Proof using.
  intros [Hm Ha Hi Hc Ht Hr Hg Hcl] H. pool_simpl. pose proof (nonNil_le (resources rp)). rewrite nonNil_cons in Hc. cbn [length] in *.
  unfold unwrap in H. destruct (resource w) as [x|] eqn:Ew.
  - injection H as <- <-. split; [|done]. intros y [= <-]. destruct (_ <=? 0); split_exact.
  - destruct made as [x|e| |]; injection H as <- <-; split; try done.
    + intros y [= <-]. destruct (_ <=? 0); split_exact.
    + intros y [= <-]. split_exact.
Qed.

Lemma exact_get ctx waited made rp rp' r h sh :
  exact (mkSystem rp h sh) → Get ctx waited made rp = Some (rp', r) →
  (∀ x, r = Ok x → exact (mkSystem rp' (x :: h) sh)) ∧ (∀ e, r = Err e → exact (mkSystem rp' h sh)).
Proof using.
  intros He H. unfold Get in H.
  assert (∀ q, q = rp ∨ q = recordWait rp → exact (mkSystem q h sh)) as Hsame.
  { intros q [->| ->]; [done|]. destruct He as [Hm Ha Hi Hc Ht Hr Hg Hcl]. by split. }
  destruct ctx; [|injection H as <- <-; split; [done|]; intros e _; auto|].
  all: destruct (resources rp) as [|w l] eqn:El;
    [destruct (chanClosed rp); try done; injection H as <- <-; (split; [done|]); intros e _; try destruct waited; by auto|].
  all: injection H as H; eapply (exact_unwrap made _ w); [|exact H].
  all: assert (exact (mkSystem (if waited then recordWait rp else rp) h sh)) as [Hm Ha Hi Hc Ht Hr Hg Hcl] by (destruct waited; auto).
  all: destruct waited; pool_simpl; rewrite El in *; by split.
Qed.

Lemma exact_put res made now rp rp' h1 r h2 sh :
  exact (mkSystem rp (h1 ++ r :: h2) sh) → Put res made now rp = Ok rp' → exact (mkSystem rp' (h1 ++ h2) sh).
Proof using.
  intros [Hm Ha Hi Hc Ht Hr Hg Hcl] H. pose proof (nonNil_le (resources rp)). pool_simpl. rewrite length_app in *. cbn [length] in *.
  unfold Put in H. destruct res as [x|]; [|destruct made as [x|e| |]]; simpl in H.
  all: destruct (chanClosed rp) eqn:Ec; [done|]; destruct (_ <? maxCap rp) eqn:El; [|done]; injection H as <-.
  all: pool_simpl; split; pool_simpl; rewrite ?Ec; [pool_arith..|split; pool_arith|done|done].
Qed.

(** Turns of the idle loop keep the number of wrappers and count exactly. *)
Lemma exact_closeIdle made now timeout rp rp' h sh :
  exact (mkSystem rp h sh) → closeIdle made now timeout rp = Some rp' → exact (mkSystem rp' h sh).
Proof using.
  intros [Hm Ha Hi Hc Ht Hr Hg Hcl] H. pool_simpl. unfold closeIdle in H.
  destruct (resources rp) as [|w l] eqn:El; [done|]. pose proof (nonNil_le l). rewrite nonNil_cons in Hc. cbn [length] in *.
  destruct (_ && _) eqn:Eb.
  - assert (∃ x, resource w = Some x) as [x Ex].
    { apply andb_true_iff in Eb as [[Eb _]%andb_true_iff _]. by apply bool_decide_eq_true in Eb. }
    rewrite Ex in Hc. destruct made as [y|e| |]; simpl in H; injection H as <-; split_exact.
  - injection H as <-. split_exact.
Qed.

Lemma exact_closeIdleLoop n made now timeout rp h sh :
  exact (mkSystem rp h sh) → exact (mkSystem (closeIdleLoop n made now timeout rp) h sh).
Proof using.
  revert rp. induction n as [|n IH]; intros rp H; [done|]. simpl.
  destruct (closeIdle _ _ _ rp) as [rp'|] eqn:E; [|done]. apply IH. by eapply exact_closeIdle.
Qed.

Lemma exact_addMany n rp rp' h :
  exact (mkSystem (setCap rp (capacity rp - Z.of_nat n)) h None) → 0 ≤ capacity rp ≤ maxCap rp → chanClosed rp = false →
  addMany n rp = Some rp' → exact (mkSystem rp' h None).
Proof using.
  revert rp. induction n as [|n IH]; intros rp He Hcap Hc H; simpl in H.
  - injection H as <-. rewrite Z.sub_0_r in He. by destruct rp.
  - unfold addOne in H. destruct (_ <? maxCap rp) eqn:El; [|done]. simpl in H.
    apply (IH (addAvailable (setResources rp (resources rp ++ [emptyWrapper])) 1)); [|done..].
    destruct He as [Hm Ha Hi Hac Ht Hr Hg Hcl]. pose proof (nonNil_le (resources rp)). pool_simpl. simpl owed in *.
    split; pool_simpl; simpl owed; [pool_arith..|split; pool_arith|done|by rewrite Hc].
Qed.

Lemma step_exact s s' : exact s → step s s' → exact s'.
Proof using.
  intros He H. destruct H as [ctx waited made rp rp' r h sh H|ctx waited made rp rp' e h sh H|r made now rp rp' h1 h2 sh H
    |r made now rp rp' h1 h2 sh H|made now rp h sh|cap n target rp rp' h H|cap n rp rp' rp'' h H Ha|n target rp rp' h H|target rp h].
  - destruct (exact_get _ _ _ _ _ _ _ _ He H) as [H1 H2]. by eauto.
  - destruct (exact_get _ _ _ _ _ _ _ _ He H) as [H1 H2]. by eauto.
  - by eapply exact_put.
  - by eapply exact_put.
  - by apply exact_closeIdleLoop.
  - unfold SetCapacity in H. repeat case_match; simplify_eq. destruct He as [Hm Ha Hi Hac Ht Hr Hg Hcl]. pool_simpl. simpl owed in *.
    split; pool_simpl; simpl owed; try done; try lia.
    + intros ? ? [= <- <-]. split; [done|]. destruct (chanClosed rp); [|done]. specialize (Hcl eq_refl). lia.
    + intros Hc. specialize (Hcl Hc). lia.
  - unfold SetCapacity in H. repeat case_match; simplify_eq. destruct He as [Hm Ha' Hi Hac Ht Hr Hg Hcl]. pool_simpl. simpl owed in *.
    eapply exact_addMany; [|..|exact Ha]; pool_simpl; simpl owed; [|lia|].
    + split; pool_simpl; simpl owed; try done; try lia. intros Hc. specialize (Hcl Hc). lia.
    + destruct (chanClosed rp); [|done]. specialize (Hcl eq_refl). lia.
  - unfold takeOne in H. destruct (resources rp) as [|w l] eqn:El; [done|]. destruct He as [Hm Ha Hi Hac Ht Hr Hg Hcl]. pool_simpl.
    rewrite El in *. rewrite nonNil_cons in Hac. pose proof (nonNil_le l). cbn [length owed] in *.
    destruct (resource w) as [x|]; injection H as <-; split; pool_simpl; cbn [owed]; try pool_arith; try done.
    all: intros ? ? [= <- <-]; by eapply Hg.
  - destruct He as [Hm Ha Hi Hac Ht Hr Hg Hcl]. destruct (Z.eqb_spec target 0) as [->|Ht0]; pool_simpl.
    + split; pool_simpl; try done. intros _. by apply (Hg 0%nat 0).
    + by split.
Qed.

Lemma exact_new cap max timeout rp :
  NewResourcePool cap max timeout = Ok rp → max < 2 ^ 62 → exact (mkSystem rp [] None).
Proof using.
  unfold NewResourcePool. destruct (_ || _) eqn:E; [done|]. intros [= <-] Hmax.
  apply orb_false_iff in E as [[E1 E2]%orb_false_iff E3].
  assert (∀ n, nonNil (replicate n emptyWrapper) = 0%nat) as Hn by (induction n as [|n IH]; [done|]; simpl; by rewrite nonNil_cons).
  split; simpl; rewrite ?length_replicate, ?Hn; try done; lia.
Qed.

(** A resource that is out, or a lost one in its place, can be put back. *)
Lemma exact_put_ok s res made now : exact s → held s ≠ [] → ∃ rp', Put res made now (pool s) = Ok rp'.
Proof using.
  destruct s as [q h sh]. intros [Hm Ha Hi Hac Ht Hr Hg Hcl] Hne. simpl in *.
  assert (0 < Z.of_nat (length h)) by (destruct h; [done|simpl; lia]).
  assert (chanClosed q = false) as Ec.
  { destruct (chanClosed q) eqn:Ec; [|done]. specialize (Hcl eq_refl).
    destruct sh as [[n t]|]; [by destruct (Hg n t)|]. simpl in *. lia. }
  unfold Put, reopenResource. destruct res as [x|]; [|destruct made]; pool_simpl; rewrite Ec;
    (destruct (Z.ltb_spec (Z.of_nat (length (resources q))) (maxCap q)); [eauto|lia]).
Qed.

End Machine.

(** ** Identifiers *)

Section Ids.
Context {I : MapIter} {IL : MapIterLaws I}.

(** The pool, the identifiers that are out, and the largest number of them
    there has been. *)
Record ids := mkIds { idPool : IDPool; out : gset Z; peak : Z }.

Inductive idStep : ids → ids → Prop :=
| id_get ip ip' id o pk :
    Z.of_nat (size o) < 2 ^ 32 - 1 → IDPool_Get ip = (ip', id) →
    idStep (mkIds ip o pk) (mkIds ip' ({[id]} ∪ o) (Z.max pk (Z.of_nat (size ({[id]} ∪ o)))))
| id_put ip ip' id o pk :
    id ∈ o → IDPool_Put ip id = Ok ip' → idStep (mkIds ip o pk) (mkIds ip' (o ∖ {[id]}) pk).

(** Every identifier up to the largest is out or recycled. *)
Record idsOk (s : ids) : Prop := mkIdsOk {
  ids_range : 0 ≤ maxUsed (idPool s) < 2 ^ 32;
  ids_used k b : used (idPool s) !! k = Some b → b = true ∧ 1 ≤ k ≤ maxUsed (idPool s);
  ids_out k : k ∈ out s ↔ 1 ≤ k ≤ maxUsed (idPool s) ∧ used (idPool s) !! k = None;
  ids_peak : maxUsed (idPool s) ≤ peak s;
}.

(** With nothing recycled, as many are out as the largest says. *)
Lemma out_all (o : gset Z) m : 0 ≤ m → (∀ k, k ∈ o ↔ 1 ≤ k ≤ m) → Z.of_nat (size o) = m.
Proof using.
  intros Hm Ho. assert (o = list_to_set (seqZ 1 m)) as -> by (apply set_eq; intros k; rewrite Ho, elem_of_list_to_set, elem_of_seqZ; lia).
  rewrite size_list_to_set by apply NoDup_seqZ. rewrite length_seqZ. lia.
Qed.

Lemma iter_nil {V} (m : gmap Z V) : iter_order m = [] → m = ∅.
Proof using IL. intros E. apply map_to_list_empty_iff, Permutation_nil_r. by rewrite <- iter_order_perm, E. Qed.

(** What [Get] answers is not out, and below the peak. *)
Lemma get_fresh s ip id :
  idsOk s → Z.of_nat (size (out s)) < 2 ^ 32 - 1 → IDPool_Get (idPool s) = (ip, id) →
  id ∉ out s ∧ idsOk (mkIds ip ({[id]} ∪ out s) (Z.max (peak s) (Z.of_nat (size ({[id]} ∪ out s))))).
Proof using IL.
  intros [Hr Hu Ho Hp] Hsize H. unfold IDPool_Get in H. destruct (iter_order (used (idPool s))) as [|[k b] l] eqn:E.
  - apply iter_nil in E. assert (Z.of_nat (size (out s)) = maxUsed (idPool s)) as Hall.
    { apply out_all; [lia|]. intros k. rewrite Ho, E, lookup_empty. naive_solver. }
    rewrite wrapU_id in H by (unfold inU; lia). injection H as <- <-.
    assert (maxUsed (idPool s) + 1 ∉ out s) as Hnew by (rewrite Ho; lia). split; [done|].
    rewrite size_union, size_singleton by set_solver. rewrite E in *. split; simpl; try lia.
    + intros k b. rewrite lookup_empty. done.
    + intros k. rewrite elem_of_union, elem_of_singleton, Ho, lookup_empty. split; [intros [->|[? _]]; split; done || lia|].
      intros [? _]. destruct (decide (k = maxUsed (idPool s) + 1)); [by left|right; split; [lia|done]].
  - injection H as <- <-. assert (used (idPool s) !! k = Some b) as Hk by (apply iter_order_lookup; rewrite E; by left).
    destruct (Hu k b Hk) as [-> Hkr]. assert (k ∉ out s) as Hnew by (rewrite Ho, Hk; naive_solver). split; [done|].
    split; simpl; [done| |..|lia].
    + intros j c. rewrite lookup_delete_Some. intros [_ ?]. eauto.
    + intros j. rewrite elem_of_union, elem_of_singleton, Ho, lookup_delete_None. destruct (decide (j = k)) as [->|]; naive_solver.
Qed.

(** Putting back an identifier that is out succeeds. *)
Lemma put_out s id :
  idsOk s → id ∈ out s → ∃ ip, IDPool_Put (idPool s) id = Ok ip ∧ idsOk (mkIds ip (out s ∖ {[id]}) (peak s)).
Proof using.
  intros [Hr Hu Ho Hp] Hid. pose proof (proj1 (Ho id) Hid) as [Hrange Hnone]. unfold IDPool_Put.
  destruct (Z.ltb_spec id 1), (Z.gtb_spec id (maxUsed (idPool s))); try lia. simpl. rewrite Hnone. simpl.
  destruct (Z.eqb_spec id (maxUsed (idPool s))) as [->|Hne]; eexists; (split; [done|]); split; simpl.
  - rewrite wrapU_id by (unfold inU; lia). lia.
  - rewrite wrapU_id by (unfold inU; lia). intros k b Hk. destruct (Hu k b Hk). split; [done|].
    destruct (decide (k = maxUsed (idPool s))); [congruence|lia].
  - rewrite wrapU_id by (unfold inU; lia). intros k. rewrite elem_of_difference, elem_of_singleton, Ho. naive_solver lia.
  - rewrite wrapU_id by (unfold inU; lia). lia.
  - done.
  - intros k b. rewrite lookup_insert_Some. intros [[<- <-]|[_ Hk]]; [split; [done|lia]|eauto].
  - intros k. rewrite elem_of_difference, elem_of_singleton, Ho, lookup_insert_None. naive_solver.
  - done.
Qed.

Lemma idStep_ok s s' : idsOk s → idStep s s' → idsOk s'.
Proof using IL.
  intros Hs H. destruct H as [ip ip' id o pk Hsize H|ip ip' id o pk Hid H].
  - by apply (get_fresh (mkIds ip o pk)).
  - destruct (put_out (mkIds ip o pk) id Hs Hid) as (ip2 & E & Hok). simpl in E. rewrite H in E. by injection E as <-.
Qed.

(** The identifier pool.  An identifier [Get] answers is at least 1, is not
    out, and is at most the largest number of identifiers that were out at one
    time; putting back an identifier that is out never panics. *)
Theorem id_pool_unique s ip id :
  rtc idStep (mkIds NewIDPool ∅ 0) s →
  (Z.of_nat (size (out s)) < 2 ^ 32 - 1 → IDPool_Get (idPool s) = (ip, id) →
   id ∉ out s ∧ 1 ≤ id ≤ Z.max (peak s) (Z.of_nat (size (out s)) + 1)) ∧
  (id ∈ out s → ∃ ip', IDPool_Put (idPool s) id = Ok ip').
Proof using IL.
  intros Hs. assert (idsOk s) as Hok.
  { assert (idsOk (mkIds NewIDPool ∅ 0)) as H0 by (split; simpl; try done; intros k; set_solver by lia).
    induction Hs; [done|]. eauto using idStep_ok. }
  split; [|intros Hid; destruct (put_out s id Hok Hid) as (ip' & ? & _); eauto].
  intros Hsize H. destruct (get_fresh s ip id Hok Hsize H) as [Hnew [Hr _ Ho Hp]]. split; [done|]. simpl in *.
  rewrite size_union, size_singleton in Hp by set_solver.
  pose proof (proj1 (Ho id) ltac:(set_solver)) as [? _]. lia.
Qed.
End Ids.

(** ** Concrete runs *)
Module PoolExamples.
Import ForwardIter.

Definition small : ResourcePool nat := mkPool 2 0 0 0 0 0 2 0 [emptyWrapper; emptyWrapper] 4 false.

(** One resource is taken, and then the pool is closed. *)
Definition taken : ResourcePool nat := mkPool 1 1 1 0 0 0 2 0 [emptyWrapper] 4 false.
Definition closing : ResourcePool nat := mkPool 1 1 1 0 0 0 0 0 [emptyWrapper] 4 false.

Lemma closing_reachable : rtc step (mkSystem small [] None) (mkSystem closing [7%nat] (Some (2%nat, 0))).
Proof.
  eapply rtc_l; [by apply (step_get Live false (Ok 7%nat) small taken)|].
  eapply rtc_l; [by apply (step_shrink 0 2 0 taken closing)|]. apply rtc_refl.
Qed.


(** Two overlapping resizes: shrinking to one and closing.  The second takes
    the wrapper that is there and closes the channel while the first still
    waits, and the client that holds the other resource panics when it puts it
    back. *)
Definition overlapping : option (outcome (ResourcePool nat)) :=
  let '(rp, _) := SetCapacity 1 taken in
  let '(rp, _) := Close rp in
  rp ← takeOne rp;
  Some (Put (Some 7%nat) Panic 0 (closeChan rp)).

Lemma overlapping_resizes_panic : overlapping = Some Panic.
Proof. by vm_compute. Qed.

Lemma id_pool_unique_witness :
  let s := mkIds (mkIDPool ∅ 1) {[1]} 1 in
  ∃ ip, IDPool_Get (idPool s) = (ip, 2) ∧ 2 ∉ out s.
Proof.
  set (s := mkIds (mkIDPool ∅ 1) {[1]} 1).
  assert (rtc idStep (mkIds NewIDPool ∅ 0) s) as Hs.
  { eapply rtc_l; [|apply rtc_refl]. replace s with (mkIds (mkIDPool ∅ 1) ({[1]} ∪ ∅) (Z.max 0 (Z.of_nat (size ({[1]} ∪ ∅ : gset Z))))) by (by vm_compute).
    by apply (id_get NewIDPool _ 1 ∅ 0). }
  exists (mkIDPool ∅ 2). split; [by vm_compute|].
  exact (proj1 (proj1 (id_pool_unique s (mkIDPool ∅ 2) 2 Hs) ltac:(by vm_compute) ltac:(by vm_compute))).
Defined.
End PoolExamples.
