(* ===== verification/Lru.v ===== *)
(** * Caches and numbered resources: [third_party/cache/lru_cache.go],
    [third_party/pools/numbered.go]

    The cache is a linked list of elements, most recently used first, and a
    table from keys to elements.  An element is a reference: the store maps it
    to its entry, and list and table share it.  The clock is an argument.  The
    theorems show that the cache is a list of items in the order of their use,
    cut off at its capacity, and that it never fails. *)
From S2P Require Import Prelude GoStd.

(** ** The cache *)

Section Cache.
Context {V : Type} (Size : V → Z).

Record entry := mkEntry { key : string; value : V; esize : Z; timeAccessed : Z }.

Record LRUCache := mkLRU {
  elements : gmap nat entry;
  order : list nat;
  table : gmap string nat;
  csize : Z;
  ccapacity : Z;
  evictions : Z;
}.

Definition NewLRUCache (capacity : Z) : LRUCache := mkLRU ∅ [] ∅ 0 capacity 0.

(** [container/list]: a new element, the front, removal. *)
Definition newElement (lru : LRUCache) : nat := fresh (dom (elements lru) : gset nat).

Definition without (e : nat) (l : list nat) : list nat := filter (λ x, x ≠ e) l.

Definition setEntry (lru : LRUCache) (e : nat) (en : entry) : LRUCache :=
  mkLRU (<[e := en]> (elements lru)) (order lru) (table lru) (csize lru) (ccapacity lru) (evictions lru).

(** [moveToFront]; an element has an entry. *)
Definition moveToFront (now : Z) (lru : LRUCache) (e : nat) : outcome LRUCache :=
  match elements lru !! e with
  | None => Panic
  | Some en =>
      Ok (setEntry (mkLRU (elements lru) (e :: without e (order lru)) (table lru) (csize lru) (ccapacity lru) (evictions lru))
            e (mkEntry (key en) (value en) (esize en) now))
  end.

(** One turn of [checkCapacity]: the back of an empty list is nil. *)
Definition evict (lru : LRUCache) : outcome LRUCache :=
  match last (order lru) with
  | None => Panic
  | Some e =>
      match elements lru !! e with
      | None => Panic
      | Some en =>
          Ok (mkLRU (delete e (elements lru)) (without e (order lru)) (delete (key en) (table lru))
                (i64 (csize lru - esize en)) (ccapacity lru) (i64 (evictions lru + 1)))
      end
  end.

Fixpoint checkLoop (fuel : nat) (lru : LRUCache) : outcome LRUCache :=
  if csize lru >? ccapacity lru then
    match fuel with
    | O => OutOfFuel
    | S fuel => lru ← evict lru; checkLoop fuel lru
    end
  else Ok lru.

(** Every turn takes an element from the list. *)
Definition checkCapacity (lru : LRUCache) : outcome LRUCache := checkLoop (S (length (order lru))) lru.

Definition Get (now : Z) (lru : LRUCache) (k : string) : outcome (LRUCache * option V) :=
  match table lru !! k with
  | None => Ok (lru, None)
  | Some e =>
      lru ← moveToFront now lru e;
      match elements lru !! e with Some en => Ok (lru, Some (value en)) | None => Panic end
  end.

Definition Peek (lru : LRUCache) (k : string) : outcome (option V) :=
  match table lru !! k with
  | None => Ok None
  | Some e => match elements lru !! e with Some en => Ok (Some (value en)) | None => Panic end
  end.

Definition updateInplace (now : Z) (lru : LRUCache) (e : nat) (v : V) : outcome LRUCache :=
  match elements lru !! e with
  | None => Panic
  | Some en =>
      let sizeDiff := i64 (Size v - esize en) in
      let lru := setEntry lru e (mkEntry (key en) v (Size v) (timeAccessed en)) in
      lru ← moveToFront now (mkLRU (elements lru) (order lru) (table lru) (i64 (csize lru + sizeDiff)) (ccapacity lru) (evictions lru)) e;
      checkCapacity lru
  end.

Definition addNew (now : Z) (lru : LRUCache) (k : string) (v : V) : outcome LRUCache :=
  let e := newElement lru in
  checkCapacity (mkLRU (<[e := mkEntry k v (Size v) now]> (elements lru)) (e :: order lru) (<[k := e]> (table lru))
    (i64 (csize lru + Size v)) (ccapacity lru) (evictions lru)).

Definition Set_ (now : Z) (lru : LRUCache) (k : string) (v : V) : outcome LRUCache :=
  match table lru !! k with
  | Some e => updateInplace now lru e v
  | None => addNew now lru k v
  end.

Definition SetIfAbsent (now : Z) (lru : LRUCache) (k : string) (v : V) : outcome LRUCache :=
  match table lru !! k with
  | Some e => moveToFront now lru e
  | None => addNew now lru k v
  end.

Definition Delete (lru : LRUCache) (k : string) : outcome (LRUCache * bool) :=
  match table lru !! k with
  | None => Ok (lru, false)
  | Some e =>
      match elements lru !! e with
      | None => Panic
      | Some en =>
          Ok (mkLRU (delete e (elements lru)) (without e (order lru)) (delete k (table lru)) (i64 (csize lru - esize en))
                (ccapacity lru) (evictions lru), true)
      end
  end.

Definition Clear (lru : LRUCache) : LRUCache := mkLRU ∅ [] ∅ 0 (ccapacity lru) (evictions lru).

Definition SetCapacity (lru : LRUCache) (capacity : Z) : outcome LRUCache :=
  checkCapacity (mkLRU (elements lru) (order lru) (table lru) (csize lru) capacity (evictions lru)).

Definition Length (lru : LRUCache) : Z := Z.of_nat (length (order lru)).

(** The entries, most recently used first; [Keys] and [Items] list them. *)
Definition entries (lru : LRUCache) : list entry := omap (λ e, elements lru !! e) (order lru).

Definition Keys (lru : LRUCache) : list string := map key (entries lru).
Definition Items (lru : LRUCache) : list (string * V) := map (λ en, (key en, value en)) (entries lru).

(** The zero time without entries. *)
Definition Oldest (zero : Z) (lru : LRUCache) : Z := match last (entries lru) with Some en => timeAccessed en | None => zero end.

(** ** The abstract cache: a list of items *)

Definition sizeOf (l : list (string * V)) : Z := foldr Z.add 0 (map (λ x, Size x.2) l).

(** As many items from the front as fit. *)
Fixpoint trim (cap : Z) (l : list (string * V)) : list (string * V) :=
  match l with
  | [] => []
  | x :: l => if Size x.2 <=? cap then x :: trim (cap - Size x.2) l else []
  end.

Definition find_ (l : list (string * V)) (k : string) : option V := snd <$> (snd <$> list_find (λ x, x.1 = k) l).

Definition remove (k : string) (l : list (string * V)) : list (string * V) := filter (λ x, x.1 ≠ k) l.

(** ** The invariant *)

Record wf (lru : LRUCache) : Prop := mkWf {
  wf_nodup : NoDup (order lru);
  wf_elements e : is_Some (elements lru !! e) ↔ e ∈ order lru;
  wf_table k e : table lru !! k = Some e ↔ ∃ en, elements lru !! e = Some en ∧ key en = k;
  wf_sizes e en : elements lru !! e = Some en → esize en = Size (value en);
  wf_size : csize lru = sizeOf (Items lru);
}.

Context (Size_range : ∀ v, 0 ≤ Size v < 2 ^ 62).

(** ** The list *)

Lemma sizeOf_nonneg l : 0 ≤ sizeOf l.
Proof using Size_range. induction l as [|x l IH]; [done|]. unfold sizeOf in *. simpl. pose proof (Size_range x.2). lia. Qed.

Lemma sizeOf_app l k : sizeOf (l ++ k) = sizeOf l + sizeOf k.
Proof using. unfold sizeOf. induction l as [|x l IH]; simpl; lia. Qed.

Lemma trim_fits cap l : sizeOf l ≤ cap → trim cap l = l.
Proof using Size_range.
  revert cap. induction l as [|x l IH]; intros cap H; [done|]. simpl. unfold sizeOf in H. simpl in H. fold (sizeOf l) in H.
  pose proof (sizeOf_nonneg l). destruct (Z.leb_spec (Size x.2) cap); [|lia]. rewrite IH; [done|lia].
Qed.

Lemma trim_snoc cap l x : cap < sizeOf (l ++ [x]) → trim cap (l ++ [x]) = trim cap l.
Proof using.
  revert cap. induction l as [|y l IH]; intros cap H; simpl in *.
  - unfold sizeOf in H. simpl in H. destruct (Z.leb_spec (Size x.2) cap); [lia|done].
  - unfold sizeOf in H. simpl in H. fold (sizeOf (l ++ [x])) in H.
    destruct (Size y.2 <=? cap) eqn:E; [|done]. rewrite IH; [done|lia].
Qed.

(** ** References *)

Lemma without_notin e l : e ∉ l → without e l = l.
Proof using.
  unfold without. induction l as [|x l IH]; intros H; [done|]. rewrite filter_cons. apply not_elem_of_cons in H as [H1 H2].
  rewrite decide_True by done. by rewrite IH.
Qed.

Lemma elem_without x e l : x ∈ without e l ↔ x ≠ e ∧ x ∈ l.
Proof using. unfold without. by rewrite list_elem_of_filter. Qed.

Definition itemsOf (els : gmap nat entry) (l : list nat) : list (string * V) :=
  map (λ en, (key en, value en)) (omap (λ e, els !! e) l).

Lemma itemsOf_cons els e l :
  itemsOf els (e :: l) = match els !! e with Some en => (key en, value en) :: itemsOf els l | None => itemsOf els l end.
Proof using. unfold itemsOf. cbn. by destruct (els !! e). Qed.

Lemma itemsOf_app els l k : itemsOf els (l ++ k) = itemsOf els l ++ itemsOf els k.
Proof using. unfold itemsOf. by rewrite omap_app, map_app. Qed.

(** Items depend only on the keys and values of the listed elements. *)
Lemma itemsOf_ext els els' l :
  (∀ e, e ∈ l → (λ en, (key en, value en)) <$> els !! e = (λ en, (key en, value en)) <$> els' !! e) → itemsOf els l = itemsOf els' l.
Proof using.
  induction l as [|e l IH]; intros H; [done|]. pose proof (H e ltac:(by left)) as He. rewrite !itemsOf_cons.
  rewrite IH by (intros x Hx; apply H; by right). destruct (els !! e), (els' !! e); simplify_eq/=; congruence.
Qed.

Lemma itemsOf_without els l e en :
  (∀ x y, x ∈ l → els !! x = Some y → key y = key en → x = e) → els !! e = Some en →
  itemsOf els (without e l) = remove (key en) (itemsOf els l).
Proof using.
  intros Hkey He. unfold without, remove. induction l as [|x l IH]; [done|].
  assert (IH' := IH ltac:(intros ?? Hx; apply Hkey; by right)). clear IH. rewrite filter_cons, !itemsOf_cons.
  destruct (els !! x) as [y|] eqn:Ex.
  - rewrite filter_cons. simpl. destruct (decide (x = e)) as [->|Hne].
    + rewrite He in Ex. injection Ex as <-. rewrite !decide_False by (intros Hc; by apply Hc). done.
    + rewrite !decide_True; [|intros E; apply Hne, (Hkey x y); [by left|done|done]|done].
      by rewrite itemsOf_cons, Ex, IH'.
  - rewrite decide_True by congruence. by rewrite itemsOf_cons, Ex.
Qed.

(** ** Operations preserve the invariant *)

Definition fits (lru : LRUCache) : Prop := csize lru ≤ ccapacity lru.

Lemma wf_key lru : wf lru → ∀ e en x y,
  elements lru !! e = Some en → elements lru !! x = Some y → key y = key en → x = e.
Proof using.
  intros [_ _ Ht _ _] e en x y He Hx Hk.
  assert (table lru !! key en = Some e) by (apply Ht; eauto). assert (table lru !! key en = Some x) by (apply Ht; eauto). congruence.
Qed.

Lemma wf_in lru e en : wf lru → elements lru !! e = Some en → e ∈ order lru.
Proof using. intros [_ He _ _ _] H. apply He. eauto. Qed.

(** The size of an element, and of the others. *)
Lemma sizeOf_split els l e en :
  NoDup l → e ∈ l → els !! e = Some en → (∀ x y, els !! x = Some y → key y = key en → x = e) →
  sizeOf (itemsOf els l) = Size (value en) + sizeOf (remove (key en) (itemsOf els l)).
Proof using.
  intros Hn Hin He Hkey. rewrite <- (itemsOf_without els l e en) by eauto.
  apply list_elem_of_split in Hin as (l1 & l2 & ->). apply NoDup_app in Hn as (_ & H1 & H2). apply NoDup_cons in H2 as [H2 _].
  unfold without. rewrite filter_app, filter_cons, decide_False by (intros Hc; by apply Hc).
  fold (without e l1) (without e l2). rewrite !without_notin; [|done|intros Hx; by apply (H1 e Hx); left].
  rewrite !itemsOf_app, itemsOf_cons, He, !sizeOf_app. unfold sizeOf. simpl. lia.
Qed.

Lemma size_split lru e en :
  wf lru → elements lru !! e = Some en → sizeOf (Items lru) = Size (value en) + sizeOf (remove (key en) (Items lru)).
Proof using.
  intros Hwf He. apply (sizeOf_split (elements lru) (order lru) e en); [apply Hwf|by eapply wf_in|done|]. intros. by eapply (wf_key lru).
Qed.

(** Removing an element, whatever becomes of the counters. *)
Lemma wf_remove lru e en ev :
  wf lru → elements lru !! e = Some en → csize lru < 2 ^ 63 →
  let lru' := mkLRU (delete e (elements lru)) (without e (order lru)) (delete (key en) (table lru)) (i64 (csize lru - esize en)) (ccapacity lru) ev in
  wf lru' ∧ Items lru' = remove (key en) (Items lru) ∧ csize lru' = csize lru - esize en ∧ 0 ≤ esize en.
Proof using Size_range.
  intros Hwf He Hmax lru'. pose proof (wf_key lru Hwf) as Hkey. pose proof Hwf as [Hn Hel Ht Hs Hsz].
  assert (Items lru' = remove (key en) (Items lru)) as Hitems.
  { change (itemsOf (delete e (elements lru)) (without e (order lru)) = remove (key en) (itemsOf (elements lru) (order lru))).
    rewrite <- (itemsOf_without (elements lru) (order lru) e en) by eauto. apply itemsOf_ext.
    intros x [Hx _]%elem_without. by rewrite lookup_delete_ne. }
  pose proof (size_split lru e en Hwf He) as Hsum.
  pose proof (sizeOf_nonneg (remove (key en) (Items lru))). pose proof (Size_range (value en)).
  assert (csize lru' = csize lru - esize en) as Hcs.
  { simpl. rewrite (Hs e en He). apply wrapS_id; [lia|]. unfold inS. lia. }
  split; [|split; [done|split; [done|rewrite (Hs e en He); lia]]]. split; simpl.
  - by apply NoDup_filter.
  - intros x. rewrite elem_without, <- Hel. destruct (decide (x = e)) as [->|Hx]; [rewrite lookup_delete_eq|rewrite lookup_delete_ne by done]; [|naive_solver].
    split; [by intros []|naive_solver].
  - intros k x. rewrite lookup_delete_Some, Ht. split.
    + intros [Hk (y & Hy & <-)]. exists y. rewrite lookup_delete_ne by (intros ->; congruence). done.
    + intros (y & [Hxe Hy]%lookup_delete_Some & <-). split; [|eauto]. intros E. by apply Hxe, eq_sym, (Hkey e en x y).
  - intros x y [_ Hy]%lookup_delete_Some. eauto.
  - rewrite Hitems. change (i64 (csize lru - esize en)) with (csize lru'). rewrite Hcs, (Hs e en He). lia.
Qed.

Lemma wf_front lru e en now :
  wf lru → elements lru !! e = Some en →
  ∃ lru', moveToFront now lru e = Ok lru' ∧ wf lru' ∧ Items lru' = (key en, value en) :: remove (key en) (Items lru) ∧
    csize lru' = csize lru ∧ ccapacity lru' = ccapacity lru ∧ elements lru' !! e = Some (mkEntry (key en) (value en) (esize en) now).
Proof using.
  intros Hwf He. pose proof (wf_key lru Hwf) as Hkey. pose proof Hwf as [Hn Hel Ht Hs Hsz].
  unfold moveToFront. rewrite He. eexists. split; [done|].
  set (lru' := setEntry _ e _). assert (Items lru' = (key en, value en) :: remove (key en) (Items lru)) as Hitems.
  { change (itemsOf (<[e := mkEntry (key en) (value en) (esize en) now]> (elements lru)) (e :: without e (order lru)) =
      (key en, value en) :: remove (key en) (itemsOf (elements lru) (order lru))).
    rewrite itemsOf_cons, lookup_insert_eq. simpl. f_equal.
    rewrite <- (itemsOf_without (elements lru) (order lru) e en) by eauto. apply itemsOf_ext.
    intros x [Hx _]%elem_without. by rewrite lookup_insert_ne. }
  split; [|split; [done|split; [done|split; [done|simpl; apply lookup_insert_eq]]]]. split; simpl.
  - apply NoDup_cons. split; [rewrite elem_without; by intros []|by apply NoDup_filter].
  - intros x. rewrite elem_of_cons, elem_without, <- Hel. destruct (decide (x = e)) as [->|Hx].
    + rewrite lookup_insert_eq. split; [by left|eauto].
    + rewrite lookup_insert_ne by done. split; [by right; split|intros [?|[_ ?]]; done].
  - intros k x. rewrite Ht. destruct (decide (x = e)) as [->|Hx].
    + rewrite lookup_insert_eq, He. split; intros (y & [= <-] & Hk); eauto.
    + by rewrite lookup_insert_ne.
  - intros x y. destruct (decide (x = e)) as [->|Hx]; [|rewrite lookup_insert_ne by done; eauto].
    rewrite lookup_insert_eq. intros [= <-]. simpl. eauto.
  - rewrite Hitems, Hsz, (size_split lru e en Hwf He). done.
Qed.

Lemma wf_evict lru :
  wf lru → 0 ≤ ccapacity lru → ccapacity lru < csize lru < 2 ^ 63 →
  ∃ lru' e, evict lru = Ok lru' ∧ wf lru' ∧ order lru = order lru' ++ [e] ∧ ccapacity lru' = ccapacity lru ∧ csize lru' ≤ csize lru ∧
    trim (ccapacity lru) (Items lru') = trim (ccapacity lru) (Items lru).
Proof using Size_range.
  intros Hwf Hcap Hsize. pose proof Hwf as [Hn Hel Ht Hs Hsz]. unfold evict.
  destruct (last (order lru)) as [e|] eqn:El.
  2:{ apply last_None in El. change (Items lru) with (itemsOf (elements lru) (order lru)) in Hsz. rewrite El in Hsz. unfold sizeOf in Hsz. simpl in Hsz. lia. }
  apply last_Some in El as [l Hl]. assert (e ∈ order lru) as Hin by (rewrite Hl; apply elem_of_app; right; by left).
  apply Hel in Hin as [en He]. rewrite He.
  destruct (wf_remove lru e en (i64 (evictions lru + 1)) Hwf He ltac:(lia)) as (Hwf' & Hit & Hcs & Hpos).
  eexists _, e. split; [done|]. split; [done|]. simpl. rewrite Hl in Hn. apply NoDup_app in Hn as (_ & Hd & _).
  assert (without e (order lru) = l) as Hwo.
  { rewrite Hl. unfold without. rewrite filter_app, filter_cons, decide_False by (intros Hc; by apply Hc).
    fold (without e l). rewrite without_notin, app_nil_r; [done|]. intros Hx. apply (Hd e Hx). by left. }
  split; [by rewrite Hwo|]. split; [done|]. simpl in Hcs. split; [lia|]. rewrite Hit.
  change (Items lru) with (itemsOf (elements lru) (order lru)) in Hsz |- *.
  rewrite <- (itemsOf_without (elements lru) (order lru) e en); [|intros; by eapply (wf_key lru)|done]. rewrite Hwo, Hl in *.
  rewrite itemsOf_app in Hsz |- *. symmetry.
  assert (itemsOf (elements lru) [e] = [(key en, value en)]) as E by (rewrite itemsOf_cons, He; done).
  rewrite E in *. apply trim_snoc. lia.
Qed.

(** The loop returns, with as many items from the front as fit. *)
Lemma checkCapacity_trims lru :
  wf lru → 0 ≤ ccapacity lru → csize lru < 2 ^ 63 →
  ∃ lru', checkCapacity lru = Ok lru' ∧ wf lru' ∧ fits lru' ∧ ccapacity lru' = ccapacity lru ∧ Items lru' = trim (ccapacity lru) (Items lru).
Proof using Size_range.
  unfold checkCapacity. assert (length (order lru) < S (length (order lru)))%nat as Hf by lia. revert Hf.
  generalize (S (length (order lru))) as fuel. intros fuel. revert lru. induction fuel as [|fuel IH]; intros lru Hf Hwf Hcap Hmax; [lia|].
  simpl. rewrite Z.gtb_ltb. destruct (Z.ltb_spec (ccapacity lru) (csize lru)) as [Hlt|Hle].
  - destruct (wf_evict lru Hwf Hcap ltac:(lia)) as (lru1 & e & -> & Hwf1 & Ho & Hc1 & Hs1 & Ht1). simpl.
    rewrite Ho, length_app in Hf. simpl in Hf. destruct (IH lru1) as (lru' & E & Hwf' & Hfit & Hc' & Hi); [lia|done|lia|lia|].
    exists lru'. rewrite Hc', Hi, Hc1, Ht1. done.
  - exists lru. split; [done|]. split; [done|]. split; [done|]. split; [done|]. destruct Hwf as [_ _ _ _ Hsz]. rewrite trim_fits; [done|lia].
Qed.

Lemma find_absent l k : (∀ x, x ∈ l → x.1 ≠ k) → find_ l k = None ∧ remove k l = l.
Proof using.
  unfold find_, remove. induction l as [|x l IH]; intros H; [done|]. destruct IH as [IH1 IH2]; [intros; apply H; by right|].
  simpl. rewrite filter_cons, decide_False by (apply H; by left). rewrite decide_True by (apply H; by left). rewrite IH2. split; [|done].
  destruct (list_find _ l) as [[j y]|] eqn:E; simpl in *; done.
Qed.

Lemma itemsOf_elem els l x : x ∈ itemsOf els l ↔ ∃ e en, e ∈ l ∧ els !! e = Some en ∧ x = (key en, value en).
Proof using.
  unfold itemsOf. rewrite list_elem_of_fmap. setoid_rewrite list_elem_of_omap. split.
  - intros (en & -> & e & Hin & He). eauto 6.
  - intros (e & en & Hin & He & ->). eauto 6.
Qed.

(** Looking up the table finds the item. *)
Lemma find_present lru e en :
  wf lru → elements lru !! e = Some en → find_ (Items lru) (key en) = Some (value en).
Proof using.
  intros Hwf He. pose proof (wf_in lru e en Hwf He) as Hin. pose proof (wf_key lru Hwf) as Hkey.
  change (Items lru) with (itemsOf (elements lru) (order lru)). clear Hwf.
  induction (order lru) as [|x l IH]; [by apply not_elem_of_nil in Hin|]. rewrite itemsOf_cons. apply elem_of_cons in Hin.
  destruct (elements lru !! x) as [y|] eqn:Ex; [|destruct Hin as [->|?]; [congruence|auto]].
  unfold find_ in *. simpl. case_decide as Hk.
  - simpl. assert (x = e) as -> by eauto. congruence.
  - destruct Hin as [->|Hin]; [rewrite He in Ex; injection Ex as <-; done|]. specialize (IH Hin).
    destruct (list_find _ (itemsOf (elements lru) l)) as [[j z]|]; simpl in *; done.
Qed.

Lemma table_none lru k : wf lru → table lru !! k = None → ∀ x, x ∈ Items lru → x.1 ≠ k.
Proof using.
  intros [_ _ Ht _ _] Hk x Hx. apply itemsOf_elem in Hx as (e & en & _ & He & ->). simpl. intros E.
  assert (table lru !! k = Some e) by (apply Ht; eauto). congruence.
Qed.

Lemma addNew_adds lru now k v :
  wf lru → fits lru → 0 ≤ ccapacity lru < 2 ^ 62 → table lru !! k = None →
  ∃ lru', addNew now lru k v = Ok lru' ∧ wf lru' ∧ fits lru' ∧ ccapacity lru' = ccapacity lru ∧ Items lru' = trim (ccapacity lru) ((k, v) :: Items lru).
Proof using Size_range.
  intros Hwf Hfit Hcap Hk. pose proof Hwf as [Hn Hel Ht Hs Hsz]. unfold fits in Hfit. pose proof (Size_range v).
  pose proof (sizeOf_nonneg (Items lru)). unfold addNew. set (e := newElement lru).
  assert (elements lru !! e = None) as He by exact (not_elem_of_dom_1 _ _ (is_fresh (dom (elements lru) : gset nat))).
  assert (e ∉ order lru) as Ho by (rewrite <- Hel, He; by intros []).
  set (lru1 := mkLRU _ _ _ _ _ _).
  assert (Items lru1 = (k, v) :: Items lru) as Hitems.
  { change (itemsOf (<[e := mkEntry k v (Size v) now]> (elements lru)) (e :: order lru) = (k, v) :: itemsOf (elements lru) (order lru)).
    rewrite itemsOf_cons, lookup_insert_eq. simpl. f_equal. apply itemsOf_ext. intros x Hx. by rewrite lookup_insert_ne by congruence. }
  assert (csize lru1 = csize lru + Size v) as Hcs by (simpl; apply wrapS_id; unfold inS; lia).
  rewrite <- Hitems. apply (checkCapacity_trims lru1); [|simpl; lia|lia]. split.
  - simpl. by apply NoDup_cons.
  - intros x. simpl. rewrite elem_of_cons, <- Hel. destruct (decide (x = e)) as [->|Hx].
    + rewrite lookup_insert_eq. split; [by left|eauto].
    + rewrite lookup_insert_ne by done. split; [by right|by intros [?|?]].
  - intros k' x. simpl. rewrite lookup_insert_Some, Ht. split.
    + intros [[<- <-]|[Hne (y & Hy & <-)]]; [rewrite lookup_insert_eq; eauto|].
      exists y. rewrite lookup_insert_ne by congruence. done.
    + intros (y & [[<- <-]|[Hne Hy]]%lookup_insert_Some & <-); [by left|]. right. split; [|eauto].
      intros E. assert (table lru !! k = Some x) by (apply Ht; eauto). congruence.
  - intros x y. simpl. intros [[<- <-]|[_ Hy]]%lookup_insert_Some; [done|eauto].
  - rewrite Hitems, Hcs, Hsz. unfold sizeOf. simpl. lia.
Qed.

Lemma updateInplace_updates lru now e en v :
  wf lru → fits lru → 0 ≤ ccapacity lru < 2 ^ 62 → elements lru !! e = Some en →
  ∃ lru', updateInplace now lru e v = Ok lru' ∧ wf lru' ∧ fits lru' ∧ ccapacity lru' = ccapacity lru ∧
    Items lru' = trim (ccapacity lru) ((key en, v) :: remove (key en) (Items lru)).
Proof using Size_range.
  intros Hwf Hfit Hcap He. pose proof (wf_key lru Hwf) as Hkey. pose proof Hwf as [Hn Hel Ht Hs Hsz]. unfold fits in Hfit.
  pose proof (size_split lru e en Hwf He) as Hsplit. pose proof (sizeOf_nonneg (remove (key en) (Items lru))).
  pose proof (Size_range v). pose proof (Size_range (value en)). unfold updateInplace. rewrite He.
  set (en' := mkEntry (key en) v (Size v) (timeAccessed en)). simpl setEntry.
  set (lru1 := mkLRU _ _ _ _ _ _).
  assert (remove (key en) (Items lru1) = remove (key en) (Items lru)) as Hrem.
  { change (remove (key en) (itemsOf (<[e := en']> (elements lru)) (order lru)) = remove (key en) (itemsOf (elements lru) (order lru))).
    change (key en) with (key en') at 1. rewrite <- (itemsOf_without _ _ e en'), <- (itemsOf_without _ _ e en).
    - apply itemsOf_ext. intros x [Hx _]%elem_without. by rewrite lookup_insert_ne.
    - eauto.
    - done.
    - intros x y _ [[-> _]|[_ Hy]]%lookup_insert_Some Hk; [done|eauto].
    - apply lookup_insert_eq. }
  assert (csize lru1 = csize lru + (Size v - esize en)) as Hcs.
  { simpl. rewrite (Hs e en He). rewrite (wrapS_id 64 (Size v - _)) by (unfold inS; lia). apply wrapS_id; unfold inS; lia. }
  assert (wf lru1) as Hwf1.
  { split; simpl.
    - done.
    - intros x. rewrite <- Hel. destruct (decide (x = e)) as [->|Hx]; [rewrite lookup_insert_eq, He|by rewrite lookup_insert_ne].
      split; eauto.
    - intros k x. rewrite Ht. destruct (decide (x = e)) as [->|Hx]; [|by rewrite lookup_insert_ne].
      rewrite lookup_insert_eq, He. split; intros (y & [= <-] & Hk); eauto.
    - intros x y [[<- <-]|[_ Hy]]%lookup_insert_Some; [done|eauto].
    - change (csize lru1 = sizeOf (Items lru1)). rewrite Hcs, Hsz, (Hs e en He), Hsplit, <- Hrem.
      assert (sizeOf (Items lru1) = Size v + sizeOf (remove (key en) (Items lru1))) as ->; [|lia].
      apply (sizeOf_split (<[e := en']> (elements lru)) (order lru) e en'); [done|by eapply wf_in|apply lookup_insert_eq|].
      intros x y [[-> _]|[_ Hy]]%lookup_insert_Some Hk; [done|eauto]. }
  destruct (wf_front lru1 e en' now Hwf1) as (lru2 & -> & Hwf2 & Hi2 & Hc2 & Hcap2 & _); [apply lookup_insert_eq|]. simpl.
  destruct (checkCapacity_trims lru2 Hwf2) as (lru3 & -> & Hwf3 & Hfit3 & Hcap3 & Hi3); [rewrite Hcap2; simpl; lia|rewrite Hc2, (Hs e en He) in *; lia|].
  exists lru3. rewrite Hcap3, Hi3, Hi2, Hcap2. simpl. rewrite Hrem. done.
Qed.

(** A cache as its operations build it. *)
Definition valid (lru : LRUCache) : Prop := wf lru ∧ fits lru ∧ 0 ≤ ccapacity lru < 2 ^ 62.

(** C25: the cache is a list of items, most recently used first.  From a valid
    cache every operation returns a valid cache, without a panic: a lookup
    answers the value of the item and moves it to the front; setting a value
    puts it in front of the other items and keeps as many items from the front
    as fit into the capacity; setting an absent value leaves a present one but
    for its place; deleting removes the item; a new capacity keeps as many
    items as fit. *)
Theorem lru_refines lru now k v cap :
  valid lru → 0 ≤ cap < 2 ^ 62 →
  (∃ lru', Get now lru k = Ok (lru', find_ (Items lru) k) ∧ valid lru' ∧
     Items lru' = match find_ (Items lru) k with Some w => (k, w) :: remove k (Items lru) | None => Items lru end) ∧
  Peek lru k = Ok (find_ (Items lru) k) ∧
  (∃ lru', Set_ now lru k v = Ok lru' ∧ valid lru' ∧ Items lru' = trim (ccapacity lru) ((k, v) :: remove k (Items lru))) ∧
  (∃ lru', SetIfAbsent now lru k v = Ok lru' ∧ valid lru' ∧
     Items lru' = match find_ (Items lru) k with Some w => (k, w) :: remove k (Items lru) | None => trim (ccapacity lru) ((k, v) :: Items lru) end) ∧
  (∃ lru', Delete lru k = Ok (lru', bool_decide (is_Some (find_ (Items lru) k))) ∧ valid lru' ∧ Items lru' = remove k (Items lru)) ∧
  (∃ lru', SetCapacity lru cap = Ok lru' ∧ valid lru' ∧ Items lru' = trim cap (Items lru)).
Proof using Size_range.
  intros (Hwf & Hfit & Hcap) Hc. pose proof Hwf as [_ _ Ht _ _]. unfold Get, Peek, Set_, SetIfAbsent, Delete.
  assert (∃ lru', SetCapacity lru cap = Ok lru' ∧ valid lru' ∧ Items lru' = trim cap (Items lru)) as Hset.
  { unfold SetCapacity. destruct (checkCapacity_trims (mkLRU (elements lru) (order lru) (table lru) (csize lru) cap (evictions lru)))
      as (lru' & E & H1 & H2 & H3 & H4); [by destruct Hwf|simpl; lia|unfold fits in *; simpl; lia|].
    exists lru'. unfold valid. rewrite H3. done. }
  destruct (table lru !! k) as [e|] eqn:Ek.
  - apply Ht in Ek as (en & He & <-). rewrite He, (find_present lru e en Hwf He).
    destruct (wf_front lru e en now Hwf He) as (lru1 & -> & Hwf1 & Hi1 & Hs1 & Hc1 & He1). simpl. rewrite He1.
    destruct (updateInplace_updates lru now e en v Hwf Hfit Hcap He) as (lru2 & -> & Hwf2 & Hfit2 & Hc2 & Hi2).
    assert (valid lru1) as Hv1 by (unfold valid, fits in *; rewrite Hs1, Hc1; done).
    assert (valid lru2) as Hv2 by (unfold valid; rewrite Hc2; done). split_and!; eauto.
    destruct (wf_remove lru e en (evictions lru) Hwf He) as (Hwf3 & Hi3 & Hs3 & Hpos); [unfold fits in Hfit; lia|].
    eexists. split; [done|]. split; [|done]. split; [done|]. unfold fits in *. simpl in *. lia.
  - destruct (find_absent (Items lru) k (table_none lru k Hwf Ek)) as [-> ->].
    destruct (addNew_adds lru now k v Hwf Hfit Hcap Ek) as (lru2 & -> & Hwf2 & Hfit2 & Hc2 & Hi2).
    assert (valid lru2) as Hv2 by (unfold valid; rewrite Hc2; done).
    assert (valid lru) as Hv by done. split_and!; eauto.
Qed.
End Cache.
Arguments LRUCache : clear implicits.
Arguments entry : clear implicits.

(** ** Numbered resources *)

Section Numbered.
Context {I : MapIter} {X : Type}.

Record numberedWrapper := mkNumberedWrapper { val : X; nInUse : bool; purpose : string; timeCreated : Z; nTimeUsed : Z; enforceTimeout : bool }.

Record unregistered := mkUnregistered { reason : string; timeUnregistered : Z }.
Definition unregistered_Size (_ : unregistered) : Z := 1.

Record Numbered := mkNumbered { nresources : gmap Z numberedWrapper; recentlyUnregistered : LRUCache unregistered }.

Definition NewNumbered : Numbered := mkNumbered ∅ (NewLRUCache 1000).

Definition Register (now : Z) (nu : Numbered) (id : Z) (x : X) (enforce : bool) : outcome Numbered :=
  match nresources nu !! id with
  | Some _ => Err (NewError "already present")
  | None => Ok (mkNumbered (<[id := mkNumberedWrapper x false "" now now enforce]> (nresources nu)) (recentlyUnregistered nu))
  end.

Definition Unregister (now : Z) (nu : Numbered) (id : Z) (why : string) : outcome Numbered :=
  match nresources nu !! id with
  | Some _ =>
      recent ← Set_ unregistered_Size now (recentlyUnregistered nu) (FormatInt id) (mkUnregistered why now);
      Ok (mkNumbered (delete id (nresources nu)) recent)
  | None => Ok (mkNumbered (delete id (nresources nu)) (recentlyUnregistered nu))
  end.

Definition lock (nw : numberedWrapper) (why : string) : numberedWrapper :=
  mkNumberedWrapper (val nw) true why (timeCreated nw) (nTimeUsed nw) (enforceTimeout nw).

(** A resource that is gone may be remembered, which counts as a use. *)
Definition Numbered_Get (now : Z) (nu : Numbered) (id : Z) (why : string) : Numbered * outcome X :=
  match nresources nu !! id with
  | None =>
      match Get now (recentlyUnregistered nu) (FormatInt id) with
      | Ok (recent, Some _) => (mkNumbered (nresources nu) recent, Err (NewError "ended"))
      | Ok (recent, None) => (mkNumbered (nresources nu) recent, Err (NewError "not found"))
      | failed => (nu, _ ← failed; Panic)
      end
  | Some nw =>
      if nInUse nw then (nu, Err (NewError "in use"))
      else (mkNumbered (<[id := lock nw why]> (nresources nu)) (recentlyUnregistered nu), Ok (val nw))
  end.

Definition Numbered_Put (now : Z) (nu : Numbered) (id : Z) : Numbered :=
  match nresources nu !! id with
  | None => nu
  | Some nw => mkNumbered (<[id := mkNumberedWrapper (val nw) false "" (timeCreated nw) now (enforceTimeout nw)]> (nresources nu)) (recentlyUnregistered nu)
  end.

Definition GetAll (nu : Numbered) : list X := map (λ kv, val kv.2) (iter_order (nresources nu)).

(** The unlocked resources that satisfy a condition, which are locked. *)
Definition lockAll (cond : numberedWrapper → bool) (why : string) (nu : Numbered) : Numbered * list X :=
  let picked nw := negb (nInUse nw) && cond nw in
  (mkNumbered ((λ nw, if picked nw then lock nw why else nw) <$> nresources nu) (recentlyUnregistered nu),
   map (λ kv, val kv.2) (List.filter (λ kv, picked kv.2) (iter_order (nresources nu)))).

Definition GetOutdated (now age : Z) (why : string) (nu : Numbered) : Numbered * list X :=
  lockAll (λ nw, enforceTimeout nw && (timeCreated nw + age - now <=? 0)) why nu.

Definition GetIdle (now timeout : Z) (why : string) (nu : Numbered) : Numbered * list X :=
  lockAll (λ nw, nTimeUsed nw + timeout - now <=? 0) why nu.

Definition Numbered_Size (nu : Numbered) : Z := Z.of_nat (size (nresources nu)).

(** The resources that are locked. *)
Definition locked (nu : Numbered) (id : Z) : Prop := ∃ nw, nresources nu !! id = Some nw ∧ nInUse nw = true.

(** Locking hands out unlocked resources only, and leaves them locked. *)
Lemma lockAll_locks {IL : MapIterLaws I} cond why nu nu' l :
  lockAll cond why nu = (nu', l) →
  ∃ ids, NoDup ids ∧ Forall2 (λ id x, ¬ locked nu id ∧ locked nu' id ∧ ∃ nw, nresources nu !! id = Some nw ∧ val nw = x) ids l.
Proof using.
  intros [= <- <-]. set (picked := λ nw, negb (nInUse nw) && cond nw).
  exists (map fst (List.filter (λ kv, picked kv.2) (iter_order (nresources nu)))). split.
  - pose proof (iter_order_NoDup (nresources nu)) as Hn. revert Hn. induction (iter_order (nresources nu)) as [|[k v] l IH]; [done|].
    simpl. intros [Hk Hn]%NoDup_cons. destruct (picked v); simpl; [|by apply IH]. apply NoDup_cons. split; [|by apply IH].
    intros Hin. apply Hk. apply list_elem_of_fmap in Hin as (x & -> & Hx). apply list_elem_of_fmap. exists x. split; [done|].
    apply list_elem_of_In, filter_In in Hx as [Hx _]. by apply list_elem_of_In.
  - assert (∀ kv, kv ∈ iter_order (nresources nu) → nresources nu !! kv.1 = Some kv.2) as Hall.
    { intros [k v] Hkv. by apply iter_order_lookup. }
    induction (iter_order (nresources nu)) as [|[k v] l IH]; [constructor|]. simpl.
    assert (IH' := IH ltac:(intros kv Hkv; apply Hall; by right)). clear IH. pose proof (Hall (k, v) ltac:(by left)) as Hk. simpl in Hk.
    change (negb (nInUse v) && cond v) with (picked v). destruct (picked v) eqn:Ep; [|exact IH']. simpl. constructor; [|exact IH']. unfold picked in Ep. apply andb_true_iff in Ep as [Eu Ec].
    apply negb_true_iff in Eu. split; [|split; [|eauto]].
    + intros (nw & Hnw & E). congruence.
    + exists (lock v why). split; [|done]. simpl. rewrite lookup_fmap, Hk. simpl. by rewrite Eu, Ec.
Qed.
End Numbered.

(** ** A concrete cache *)
Module LruExamples.

Definition one (_ : string) : Z := 1.

Lemma one_range v : 0 ≤ one v < 2 ^ 62.
Proof. unfold one. lia. Qed.

Lemma new_valid : valid one (NewLRUCache 2).
Proof.
  split; [|by unfold fits; simpl; lia]. split; simpl; try done; [constructor|..].
  - intros e. rewrite lookup_empty. split; [by intros []|by intros ?%not_elem_of_nil].
  - intros k e. rewrite lookup_empty. split; [done|]. intros (en & Hen & _). by rewrite lookup_empty in Hen.
Qed.

Lemma lru_refines_witness :
  ∃ lru, Set_ one 5 (NewLRUCache 2) "a" "x" = Ok lru ∧ Items lru = [("a", "x")] ∧
    ∃ lru', Set_ one 6 lru "b" "y" = Ok lru' ∧ Items lru' = [("b", "y"); ("a", "x")].
Proof.
  destruct (lru_refines one one_range (NewLRUCache 2) 5 "a" "x" 0 new_valid ltac:(lia)) as (_ & _ & (lru & E & Hv & Hi) & _).
  exists lru. split; [exact E|]. split; [exact Hi|].
  assert (ccapacity lru = 2) as Hc by (vm_compute in E; injection E as <-; reflexivity).
  destruct (lru_refines one one_range lru 6 "b" "y" 0 Hv ltac:(lia)) as (_ & _ & (lru' & E' & _ & Hi') & _).
  exists lru'. split; [exact E'|]. rewrite Hi', Hi, Hc. reflexivity.
Defined.
End LruExamples.
