(* ===== verification/Namespace.v ===== *)
(** * Namespaces and the choice of a node: [pkg/runtime/namespace/namespace.go],
    [pkg/runtime/namespace/command.go], [pkg/selector/weight_random.go],
    [pkg/runtime/context/context.go], [pkg/runtime/runtime.go] ([selectDB])

    A namespace is the record of what its atomic fields hold.  The nodes of a
    group are distinct objects, and a weight is set on the node in place. *)
From S2P Require Import Prelude GoStd Optimize.

(** A Go pair of a value and an error. *)
Definition result (A : Type) : Type := (A + error)%type.

(** ** Flags of a context *)

Definition _flagDirect : Z := 1.
Definition _flagRead : Z := 2.
Definition _flagWrite : Z := 4.

(** The values a context carries. *)
Record context := mkContext { flag : Z; hints : list Hint; transactionID : string; ctxTenant : string }.

Definition withFlag (f : Z) (ctx : context) : context := mkContext (Z.lor f (flag ctx)) (hints ctx) (transactionID ctx) (ctxTenant ctx).
Definition WithDirect (ctx : context) : context := withFlag _flagDirect ctx.
Definition WithWrite (ctx : context) : context := withFlag _flagWrite ctx.
Definition WithRead (ctx : context) : context := withFlag _flagRead ctx.
Definition hasFlag (ctx : context) (f : Z) : bool := negb (Z.land (flag ctx) f =? 0).
Definition IsRead (ctx : context) : bool := hasFlag ctx _flagRead.
Definition IsWrite (ctx : context) : bool := hasFlag ctx _flagWrite.
Definition IsDirect (ctx : context) : bool := hasFlag ctx _flagDirect.
Definition WithTransactionID (ctx : context) (id : string) : context := mkContext (flag ctx) (hints ctx) id (ctxTenant ctx).
Definition WithHints (ctx : context) (hs : list Hint) : context := mkContext (flag ctx) hs (transactionID ctx) (ctxTenant ctx).

(** ** Choice by weight *)

(** The running sums of the weights. *)
Fixpoint areaEnds (sum : Z) (weights : list Z) : list Z :=
  match weights with [] => [] | w :: ws => let sum := i64 (sum + w) in sum :: areaEnds sum ws end.

Definition genAreaEnds (weights : list Z) : list Z := areaEnds 0 weights.

(** The first area that ends after the seed, 0 if none does. *)
Fixpoint firstArea (i : Z) (seed : Z) (ends : list Z) : Z :=
  match ends with [] => 0 | e :: es => if seed <? e then i else firstArea (i + 1) seed es end.

(** [rand.Intn] panics unless its bound is positive; indexing the last area of
    no weights panics too. *)
Definition GetDataSourceNo (Intn : Z → Z) (weights : list Z) : outcome Z :=
  match last (genAreaEnds weights) with
  | None => Panic
  | Some n => if n <=? 0 then Panic else Ok (firstArea 0 (Intn n) (genAreaEnds weights))
  end.

(** ** Namespaces *)

Record Weight := mkWeight { weight_R : Z; weight_W : Z }.
Record DB := mkDB { db_ID : string; db_Weight : Weight; db_closed : bool }.

Section Namespace.
Context {Ru : Type}.

Record Namespace := mkNamespace {
  ns_closed : bool; ns_name : string; ns_rule : Ru; dss : gmap string (list DB); parameters : gmap string string; slowThreshold : Z
}.

Definition Command : Type := Namespace → Namespace.

Definition setDss (ns : Namespace) (m : gmap string (list DB)) : Namespace :=
  mkNamespace (ns_closed ns) (ns_name ns) (ns_rule ns) m (parameters ns) (slowThreshold ns).

(** [New]: the commands run in order on an empty namespace. *)
Definition New (name : string) (emptyRule : Ru) (commands : list Command) : Namespace :=
  foldl (λ ns cmd, cmd ns) (mkNamespace false name emptyRule ∅ ∅ 0) commands.

Definition DBGroups {I : MapIter} (ns : Namespace) : list string := sort_Strings ((iter_order (dss ns)).*1).

Definition DBs (ns : Namespace) (group : string) : list DB := default [] (dss ns !! group).

(** The weights [DB] chooses by; none for a context that neither reads nor
    writes. *)
Definition wrList (ctx : context) (nodes : list DB) : list Z :=
  if IsRead ctx then map (λ db, weight_R (db_Weight db)) nodes
  else if IsWrite ctx then map (λ db, weight_W (db_Weight db)) nodes else [].

(** A node by its index. *)
Definition nth_DB (l : list DB) (i : Z) : outcome (option DB) :=
  match l !! Z.to_nat i with Some db => Ok (Some db) | None => Panic end.

Definition Namespace_DB (Intn : Z → Z) (ns : Namespace) (ctx : context) (group : string) : outcome (option DB) :=
  match dss ns !! group with
  | None => Ok None
  | Some nodes =>
      let ws := wrList ctx nodes in
      target ← (if (0 <? length ws)%nat then GetDataSourceNo Intn ws else Ok 0);
      match nodes with [] => Ok None | _ => nth_DB nodes target end
  end.

Definition DBMaster (ns : Namespace) (group : string) : option DB :=
  List.find (λ db, (weight_W (db_Weight db) >? 0) && (weight_R (db_Weight db) >? 0)) (DBs ns group).

(** [DBSlave]: the first node without weights, or a choice among those that
    only read. *)
Fixpoint slaveLoop (l : list DB) (acc : list DB) : DB + list DB :=
  match l with
  | [] => inr acc
  | db :: l =>
      if negb (weight_W (db_Weight db) =? 0) then slaveLoop l acc
      else if weight_R (db_Weight db) =? 0 then inl db
      else slaveLoop l (if weight_R (db_Weight db) >? 0 then acc ++ [db] else acc)
  end.

Definition DBSlave (Intn : Z → Z) (ns : Namespace) (group : string) : outcome (option DB) :=
  match slaveLoop (DBs ns group) [] with
  | inl db => Ok (Some db)
  | inr readDBList =>
      match readDBList with
      | [] => Ok None
      | _ => target ← GetDataSourceNo Intn (map (λ db, weight_R (db_Weight db)) readDBList); nth_DB readDBList target
      end
  end.

Definition DB0 {I : MapIter} (Intn : Z → Z) (ns : Namespace) (ctx : context) : outcome (option DB) :=
  match DBGroups ns with [] => Ok None | g :: _ => Namespace_DB Intn ns ctx g end.

(** The first hint about masters and slaves. *)
Definition masterHint (hs : list Hint) : option hintType :=
  hint_Type <$> List.find (λ h, match hint_Type h with TypeMaster | TypeSlave => true | _ => false end) hs.

Definition selectDB {I : MapIter} (Intn : Z → Z) (ctx : context) (group : string) (ns : Namespace) : outcome (option DB) :=
  let group := if (String.length group <? 1)%nat then match DBGroups ns with g :: _ => g | [] => group end else group in
  if negb (IsRead ctx) then Ok (DBMaster ns group)
  else match masterHint (hints ctx) with
       | Some TypeMaster => Ok (DBMaster ns group)
       | Some TypeSlave => DBSlave Intn ns group
       | _ => Namespace_DB Intn ns ctx group
       end.

(** ** Commands *)

(** The weight of the first node with the identifier is set. *)
Fixpoint setFirst (id : string) (w : Weight) (l : list DB) : list DB :=
  match l with
  | [] => []
  | db :: l => if decide (db_ID db = id) then mkDB (db_ID db) w (db_closed db) :: l else db :: setFirst id w l
  end.

Definition UpdateWeight (group id : string) (w : Weight) : Command := λ ns,
  match dss ns !! group with Some nodes => setDss ns (<[group := setFirst id w nodes]> (dss ns)) | None => ns end.

(** Nodes with another identifier. *)
Definition others (id : string) (l : list DB) : list DB := List.filter (λ db, negb (bool_decide (db_ID db = id))) l.

(** The node that is removed and closed is the last with the identifier. *)
Definition removedNode (group node : string) (ns : Namespace) : option DB :=
  last (List.filter (λ db, bool_decide (db_ID db = node)) (DBs ns group)).

Definition RemoveNode (group node : string) : Command := λ ns,
  setDss ns (map_imap (λ k v, Some (if decide (k = group) then others node v else v)) (dss ns)).

Definition RemoveGroup (group : string) : Command := λ ns, setDss ns (filter (λ kv, kv.1 ≠ group) (dss ns)).

Definition RemoveDB (group id : string) : Command := λ ns,
  if existsb (λ db, bool_decide (db_ID db = id)) (DBs ns group) then setDss ns (<[group := others id (DBs ns group)]> (dss ns)) else ns.

Definition UpsertDB (group : string) (ds : DB) : Command := λ ns,
  setDss ns (<[group := others (db_ID ds) (DBs ns group) ++ [ds]]> (dss ns)).

Definition UpdateRule (r : Ru) : Command := λ ns, mkNamespace (ns_closed ns) (ns_name ns) r (dss ns) (parameters ns) (slowThreshold ns).

Definition UpdateParameters (p : gmap string string) : Command := λ ns,
  mkNamespace (ns_closed ns) (ns_name ns) (ns_rule ns) (dss ns) p (slowThreshold ns).

(** [Close]: the nodes are closed once. *)
Definition closeDB (db : DB) : DB := mkDB (db_ID db) (db_Weight db) true.

Definition Namespace_Close (ns : Namespace) : Namespace :=
  if ns_closed ns then ns
  else mkNamespace true (ns_name ns) (ns_rule ns) (map closeDB <$> dss ns) (parameters ns) (slowThreshold ns).

(** ** The registry *)

Definition getLoadKey (tenant name : string) : string := (tenant ++ ":" ++ name)%string.

Definition Namespace_Load (reg : gmap string Namespace) (tenant name : string) : option Namespace := reg !! getLoadKey tenant name.

Definition Namespace_Register (reg : gmap string Namespace) (tenant : string) (ns : Namespace) : result (gmap string Namespace) :=
  let key := getLoadKey tenant (ns_name ns) in
  match reg !! key with
  | Some _ => inr (NewError "cannot register conflict namespace")
  | None => inl (<[key := ns]> reg)
  end.

(** The namespace that was registered is closed. *)
Definition Namespace_Unregister (reg : gmap string Namespace) (tenant name : string) : gmap string Namespace * option Namespace :=
  (delete (getLoadKey tenant name) reg, Namespace_Close <$> reg !! getLoadKey tenant name).
End Namespace.

(** ** The choice *)

Fixpoint total (ws : list Z) : Z := match ws with [] => 0 | w :: ws => w + total ws end.

Lemma total_nonneg ws : Forall (λ w, 0 ≤ w) ws → 0 ≤ total ws.
Proof. induction 1; simpl; lia. Qed.

Lemma areaEnds_cons sum w ws :
  0 ≤ sum → 0 ≤ w → sum + w < 2 ^ 63 → areaEnds sum (w :: ws) = sum + w :: areaEnds (sum + w) ws.
Proof. intros. simpl. by rewrite wrapS_id by (unfold inS; lia). Qed.

(** The last area ends at the sum of the weights. *)
Lemma areaEnds_last sum ws :
  0 ≤ sum → Forall (λ w, 0 ≤ w) ws → sum + total ws < 2 ^ 63 → ws ≠ [] → last (areaEnds sum ws) = Some (sum + total ws).
Proof.
  intros Hs Hw. revert sum Hs. induction Hw as [|w ws Hw Hws IH]; intros sum Hs Ht Hne; [done|]. pose proof (total_nonneg ws Hws). simpl in Ht.
  rewrite areaEnds_cons by lia. destruct ws as [|w' ws]; [simpl; f_equal; lia|].
  rewrite last_cons, IH; [f_equal; simpl; lia|lia|lia|done].
Qed.

(** A seed of an area chooses it. *)
Lemma firstArea_range i sum ws seed j :
  0 ≤ sum → Forall (λ w, 0 ≤ w) ws → sum + total ws < 2 ^ 63 → sum ≤ seed < sum + total ws → 0 ≤ i →
  firstArea i seed (areaEnds sum ws) = j ↔
  ∃ k w, ws !! k = Some w ∧ j = i + Z.of_nat k ∧ sum + total (take k ws) ≤ seed < sum + total (take k ws) + w.
Proof.
  intros Hs Hw. revert i sum Hs. induction Hw as [|w ws Hw Hws IH]; intros i sum Hs Ht Hseed Hi; [simpl in *; lia|].
  pose proof (total_nonneg ws Hws). simpl in Ht, Hseed. rewrite areaEnds_cons by lia. cbn [firstArea].
  assert (∀ k, 0 ≤ total (take k ws)) as Hk by (intros k; by apply total_nonneg, Forall_take).
  destruct (Z.ltb_spec seed (sum + w)) as [Hlt|Hge].
  - split.
    + intros <-. exists 0%nat, w. simpl. split_and!; [done|lia|lia|lia].
    + intros (k & v & Hv & -> & Hr). destruct k as [|k]; [simpl; lia|]. simpl in Hr. specialize (Hk k). lia.
  - rewrite IH by lia. split.
    + intros (k & v & Hv & -> & Hr). exists (S k), v. simpl. split_and!; [done|lia|lia|lia].
    + intros (k & v & Hv & -> & Hr). destruct k as [|k]; [simpl in *; simplify_eq; lia|]. simpl in *. exists k, v. split_and!; [done|lia|lia|lia].
Qed.

Lemma total_take ws i w : Forall (λ w, 0 ≤ w) ws → ws !! i = Some w → total (take i ws) + w ≤ total ws.
Proof.
  intros Hw. revert i. induction Hw as [|v ws Hv Hws IH]; intros [|i] Hi; simpl in *; simplify_eq.
  - pose proof (total_nonneg ws Hws). lia.
  - specialize (IH i Hi). lia.
Qed.

(** The choice by weight.  With weights that are not negative and not all
    zero, as many seeds of [rand.Intn] choose a node as its weight says, so a
    uniform seed chooses each node with its share of the weights. *)
Theorem weight_share Intn ws i w :
  Forall (λ w, 0 ≤ w) ws → 0 < total ws < 2 ^ 63 → ws !! i = Some w →
  GetDataSourceNo Intn ws = Ok (firstArea 0 (Intn (total ws)) (genAreaEnds ws)) ∧
  length (filter (λ seed, firstArea 0 seed (genAreaEnds ws) = Z.of_nat i) (seqZ 0 (total ws))) = Z.to_nat w.
Proof.
  intros Hw Ht Hi. split.
  - unfold GetDataSourceNo, genAreaEnds. rewrite areaEnds_last; [|lia|done|lia|by intros ->]. rewrite Z.add_0_l.
    destruct (Z.leb_spec (total ws) 0); [lia|done].
  - rewrite <- (length_seqZ (total (take i ws)) w). apply Permutation_length, NoDup_Permutation; [apply NoDup_filter, NoDup_seqZ|apply NoDup_seqZ|].
    pose proof (total_take ws i w Hw Hi). pose proof (total_nonneg (take i ws) (Forall_take _ _ _ Hw)).
    intros s. rewrite list_elem_of_filter, !elem_of_seqZ. split.
    + intros [Hf Hs]. apply (firstArea_range 0 0 ws s) in Hf as (k & v & Hk & Hik & Hr); [|done || lia..].
      assert (k = i) as -> by lia. simplify_eq. lia.
    + intros Hs. split; [|lia]. apply (firstArea_range 0 0 ws s); [done || lia..|]. exists i, w. split_and!; [done|lia|lia|lia].
Qed.

Lemma weight_share_witness : length (filter (λ seed, firstArea 0 seed (genAreaEnds [10; 0; 3]) = 2) (seqZ 0 13)) = 3%nat.
Proof. apply (weight_share (λ _, 0) [10; 0; 3] 2 3); [repeat constructor; done|done|done]. Defined.

(** ** Nodes of a group *)

Section Selection.
Context {Ru : Type} {I : MapIter} (Intn : Z → Z).
Implicit Types ns : Namespace (Ru := Ru).

Lemma DBMaster_role ns group db :
  DBMaster ns group = Some db → db ∈ DBs ns group ∧ 0 < weight_W (db_Weight db) ∧ 0 < weight_R (db_Weight db).
Proof using.
  intros H. apply find_some in H as [Hin [Hw Hr]%andb_true_iff]. split; [by apply list_elem_of_In|lia].
Qed.

Lemma slaveLoop_role l acc :
  Forall (λ db, weight_W (db_Weight db) = 0) acc →
  match slaveLoop l acc with
  | inl db => db ∈ l ∧ weight_W (db_Weight db) = 0
  | inr k => Forall (λ db, weight_W (db_Weight db) = 0) k ∧ k ⊆ acc ++ l
  end.
Proof using.
  revert acc. induction l as [|x l IH]; intros acc Hacc; cbn [slaveLoop]; [split; [done|set_solver]|].
  destruct (Z.eqb_spec (weight_W (db_Weight x)) 0) as [Hx|Hx]; cbn [negb].
  - destruct (_ =? 0); [split; [by left|done]|].
    assert (Forall (λ db, weight_W (db_Weight db) = 0) (if weight_R (db_Weight x) >? 0 then acc ++ [x] else acc)) as H0
      by (destruct (_ >? 0); [apply Forall_app; split; [done|by constructor]|done]).
    specialize (IH _ H0). destruct (slaveLoop l _) as [db|k]; [destruct IH; split; [by right|done]|].
    destruct IH as [H1 H2]. split; [done|]. intros y Hy. specialize (H2 y Hy). destruct (_ >? 0); set_solver.
  - specialize (IH acc Hacc). destruct (slaveLoop l acc) as [db|k]; [destruct IH; split; [by right|done]|]. destruct IH. split; [done|set_solver].
Qed.

Lemma DBSlave_role ns group db : DBSlave Intn ns group = Ok (Some db) → db ∈ DBs ns group ∧ weight_W (db_Weight db) = 0.
Proof using.
  unfold DBSlave. pose proof (slaveLoop_role (DBs ns group) [] (Forall_nil_2 _)) as H.
  destruct (slaveLoop _ _) as [x|k]; [by intros [= ->]|]. destruct H as [H1 H2]. destruct k as [|x k]; [done|].
  intros (i & _ & Hi)%bind_Ok_inv. unfold nth_DB in Hi. destruct (_ !! Z.to_nat i) as [y|] eqn:E; [|done]. injection Hi as ->.
  apply list_elem_of_lookup_2 in E. split; [exact (H2 _ E)|]. by eapply Forall_forall in H1.
Qed.

(** Writes go to masters.  A context that was not marked for reading, or
    reads with a master hint, is only given a node of the group that is both
    written and read; one with a slave hint only a node that is never written. *)
Theorem selectDB_role ctx group ns db :
  group ≠ "" → selectDB Intn ctx group ns = Ok (Some db) →
  (IsRead ctx = false ∨ masterHint (hints ctx) = Some TypeMaster → db ∈ DBs ns group ∧ 0 < weight_W (db_Weight db) ∧ 0 < weight_R (db_Weight db)) ∧
  (IsRead ctx = true → masterHint (hints ctx) = Some TypeSlave → db ∈ DBs ns group ∧ weight_W (db_Weight db) = 0).
Proof using.
  intros Hg. unfold selectDB. destruct group as [|c g]; [done|]. cbn [String.length Nat.ltb Nat.leb]. intros H. split.
  - intros [Hr | Hm]; [rewrite Hr in H; injection H as H; by apply DBMaster_role|]. rewrite Hm in H.
    destruct (negb (IsRead ctx)); injection H as H; by apply DBMaster_role.
  - intros Hr Hm. rewrite Hr, Hm in H. by apply DBSlave_role.
Qed.

(** ** Commands *)

(** No group has two nodes of one name. *)
Definition distinct ns : Prop := ∀ g, NoDup (map db_ID (DBs ns g)).

Lemma DBs_insert ns g l g' : DBs (setDss ns (<[g := l]> (dss ns))) g' = if decide (g' = g) then l else DBs ns g'.
Proof using.
  unfold DBs, setDss. cbn [dss]. case_decide as E; [subst; by rewrite lookup_insert_eq|by rewrite lookup_insert_ne].
Qed.

Lemma DBs_RemoveNode g id ns g' : DBs (RemoveNode g id ns) g' = if decide (g' = g) then others id (DBs ns g') else DBs ns g'.
Proof using.
  unfold DBs, RemoveNode, setDss. cbn [dss]. rewrite map_lookup_imap. destruct (dss ns !! g') as [v|]; simpl; by case_decide.
Qed.

Lemma elem_of_others id l db : db ∈ others id l ↔ db ∈ l ∧ db_ID db ≠ id.
Proof using.
  unfold others. rewrite !list_elem_of_In, filter_In, negb_true_iff, bool_decide_eq_false. done.
Qed.

Lemma others_distinct id l : NoDup (map db_ID l) → NoDup (map db_ID (others id l)).
Proof using.
  induction l as [|x l IH]; [done|]. intros [Hx Hl]%NoDup_cons. simpl. case_bool_decide; simpl; [by apply IH|].
  apply NoDup_cons. split; [|by apply IH]. intros (y & Hy & Hin)%list_elem_of_In%in_map_iff. apply Hx.
  apply list_elem_of_In, in_map_iff. exists y. split; [done|]. by apply filter_In in Hin as [? _].
Qed.

Lemma setFirst_ids id w l : map db_ID (setFirst id w l) = map db_ID l.
Proof using. induction l as [|x l IH]; [done|]. simpl. case_decide; simpl; [done|by rewrite IH]. Qed.

Lemma UpsertDB_distinct g ds ns : distinct ns → distinct (UpsertDB g ds ns).
Proof using.
  intros H g'. unfold UpsertDB. rewrite DBs_insert. case_decide; [|apply H]. rewrite map_app. apply NoDup_app. split_and!.
  - apply others_distinct, H.
  - intros x (y & <- & Hy)%list_elem_of_In%in_map_iff Hx. apply list_elem_of_In, elem_of_others in Hy as [_ Hy].
    simpl in Hx. by apply list_elem_of_singleton in Hx.
  - apply NoDup_singleton.
Qed.

(** The nodes of a namespace.  The commands keep the names of the nodes of
    a group distinct; a node that was added is found in its group and no older
    one of its name is; one that was removed is not found; the other groups
    are untouched. *)
Theorem commands_keep_nodes group ds id w ns :
  distinct ns →
  (distinct (UpsertDB group ds ns) ∧ distinct (RemoveDB group id ns) ∧ distinct (RemoveNode group id ns) ∧
   distinct (RemoveGroup group ns) ∧ distinct (UpdateWeight group id w ns)) ∧
  (∀ db, db ∈ DBs (UpsertDB group ds ns) group ↔ db = ds ∨ db ∈ DBs ns group ∧ db_ID db ≠ db_ID ds) ∧
  (∀ db, db ∈ DBs (RemoveNode group id ns) group ↔ db ∈ DBs ns group ∧ db_ID db ≠ id) ∧
  DBs (RemoveDB group id ns) group = DBs (RemoveNode group id ns) group ∧ DBs (RemoveGroup group ns) group = [] ∧
  (∀ g, g ≠ group → DBs (UpsertDB group ds ns) g = DBs ns g ∧ DBs (RemoveDB group id ns) g = DBs ns g ∧
                    DBs (RemoveNode group id ns) g = DBs ns g ∧ DBs (RemoveGroup group ns) g = DBs ns g ∧ DBs (UpdateWeight group id w ns) g = DBs ns g).
Proof using.
  intros H. assert (∀ g, DBs (RemoveGroup group ns) g = if decide (g = group) then [] else DBs ns g) as Hgroup.
  { intros g. unfold DBs, RemoveGroup, setDss. cbn [dss]. case_decide as E.
    - subst. rewrite map_lookup_filter_None_2; [done|]. right. intros v _ Hv. by apply Hv.
    - destruct (dss ns !! g) as [v|] eqn:Eg; [by rewrite (map_lookup_filter_Some_2 _ _ _ v)|]. rewrite map_lookup_filter_None_2; [done|by left]. }
  assert (∀ g, DBs (RemoveDB group id ns) g = if decide (g = group) then others id (DBs ns g) else DBs ns g) as Hdb.
  { intros g. unfold RemoveDB. destruct (existsb _ _) eqn:E; [rewrite DBs_insert; case_decide; by subst|]. case_decide; [subst|done].
    symmetry. apply forallb_filter_id, forallb_forall. intros x Hx. apply negb_true_iff. destruct (bool_decide (db_ID x = id)) eqn:Ex; [|done].
    rewrite <- not_true_iff_false, existsb_exists in E. exfalso. by apply E; eauto. }
  assert (∀ g, DBs (UpdateWeight group id w ns) g = if decide (g = group) then setFirst id w (DBs ns g) else DBs ns g) as Hw.
  { intros g. unfold UpdateWeight. destruct (dss ns !! group) as [v|] eqn:E; [rewrite DBs_insert|]; case_decide; try done; subst;
      unfold DBs; by rewrite E. }
  split_and!.
  - by apply UpsertDB_distinct.
  - intros g. rewrite Hdb. case_decide; [by apply others_distinct|done].
  - intros g. rewrite DBs_RemoveNode. case_decide; [by apply others_distinct|done].
  - intros g. rewrite Hgroup. case_decide; [apply NoDup_nil_2|done].
  - intros g. rewrite Hw. case_decide; [by rewrite setFirst_ids|done].
  - intros db. unfold UpsertDB. rewrite DBs_insert, decide_True by done. rewrite elem_of_app, elem_of_others, list_elem_of_singleton. naive_solver.
  - intros db. rewrite DBs_RemoveNode, decide_True by done. apply elem_of_others.
  - by rewrite Hdb, DBs_RemoveNode.
  - by rewrite Hgroup, decide_True.
  - intros g Hg. unfold UpsertDB. by rewrite DBs_insert, Hdb, DBs_RemoveNode, Hgroup, Hw, !decide_False.
Qed.
End Selection.

(** ** A namespace *)
Module NamespaceExamples.
Import ForwardIter.

Definition node (id : string) (r w : Z) : DB := mkDB id (mkWeight r w) false.
Definition ns : Namespace (Ru := unit) := New "employees" tt [UpsertDB "g0" (node "a" 10 10); UpsertDB "g0" (node "b" 5 0); UpsertDB "g0" (node "b" 3 0)].

Lemma selectDB_role_witness :
  ∃ db, selectDB (λ _, 0) (mkContext _flagWrite [] "" "") "g0" ns = Ok (Some db) ∧ 0 < weight_W (db_Weight db).
Proof.
  exists (node "a" 10 10). assert (selectDB (λ _, 0) (mkContext _flagWrite [] "" "") "g0" ns = Ok (Some (node "a" 10 10))) as H by by vm_compute.
  split; [exact H|]. destruct (selectDB_role (λ _, 0) (mkContext _flagWrite [] "" "") "g0" ns (node "a" 10 10) ltac:(done) H) as [Hm _].
  apply Hm. by left.
Defined.

Lemma ns_distinct : distinct ns.
Proof. unfold ns, New. simpl. repeat apply UpsertDB_distinct. intros g. apply NoDup_nil_2. Qed.

Lemma commands_keep_nodes_witness : node "b" 7 0 ∈ DBs (UpsertDB "g0" (node "b" 7 0) ns) "g0".
Proof. apply (commands_keep_nodes "g0" (node "b" 7 0) "a" (mkWeight 1 1) ns ns_distinct). by left. Defined.
End NamespaceExamples.
