(* ===== verification/Transaction.v ===== *)
(** * Transactions: [pkg/runtime/tx.go], [pkg/runtime/runtime.go] (atom
    databases), [pkg/runtime/conn_pool.go], [pkg/runtime/transaction/hook.go],
    [pkg/runtime/transaction/xa.go]

    The code runs in many goroutines over shared objects.  A goroutine is a
    program of atomic effects on a world of atom databases, transactions,
    hooks and error groups; the machine at the end interleaves goroutines in
    any order, one effect at a time.  What the servers, the clock and the
    network answer is given to each step. *)
From S2P Require Import Prelude GoStd Value Optimize Namespace Pool PoolTheory.

Inductive TxState :=
| TrxActive | TrxPreparing | TrxPrepared | TrxCommitting | TrxCommitted | TrxAborting | TrxRollback | TrxFinish | TrxRolledBack.

#[global] Instance TxState_eq_dec : EqDecision TxState.
Proof. solve_decision. Defined.

(** The functions a transaction is given to begin, prepare, commit and roll
    back a branch: the closures of [newCompositeTx] and [newBranchTx] and the
    functions of [xa.go]. *)
Inductive dbFunc := beginPlain | prepareNothing | commitPlain | rollbackPlain | StartXA | EndXA | PrepareXA | CommitXA | RollbackXA.

(** What a connection is asked, and what the server answers. *)
Inductive command :=
| ExecuteWithWarningCount (sql : string)
| ExecuteIterRow (sql : string)
| PrepareQueryArgs (sql : string) (args : list ProtoValue)
| SyncVariables (vars : gmap string ProtoValue)
| PersistVariables
| ComFieldList (table wildcard : string).

Record reply := mkReply { rowsAffected : result Z; lastInsertId : result Z; persistVars : gmap string ProtoValue; replyFields : list string }.

(** ** The objects *)

Record AtomDB := mkAtomDB { sys : system (R := nat); closed : bool; pendingRequests : Z }.

Record branchTx := mkBranch { bclosed : bool; parent : option string; bstate : option TxState; prepare : dbFunc; commit : dbFunc; rollback : dbFunc; bc : option nat }.

(** [rt] is whether the runtime is set; [txs] is [None] when it is nil. *)
Record compositeTx := mkTx {
  tenant : string; tclosed : bool; trxID : string; txState : option TxState; beginFunc : dbFunc;
  rt : bool; txs : option (gmap string nat); txHooks : list nat
}.

Record TrxParticipant := mkParticipant { NodeID : string; RemoteAddr : string; Schema : string }.
Record TrxLog := mkTrxLog { log_TrxID : string; log_ServerID : Z; log_State : option TxState; log_Participants : list TrxParticipant; log_Tenant : string }.
Record xaHook := mkHook { enable : bool; trxLog : TrxLog }.

(** An [errgroup.Group]: the goroutines under way and the first error. *)
Record errgroup := mkGroup { running : nat; failed : option error }.

(** The objects by their identity, and the commands that succeeded. *)
Record world := mkWorld {
  dbs : string → AtomDB; branches : list branchTx; composites : list compositeTx; hooks : list xaHook; groups : list errgroup;
  ran : list (nat * command)
}.

(** ** Effects *)

Inductive effect : Type → Type :=
| ELoad (db : string) : effect bool
| ECas (db : string) : effect bool
| EPending (db : string) : effect Z
| EInc (db : string) : effect Z
| EDec (db : string) : effect Z
| EGrow (db : string) : effect unit
| EGet (db : string) : effect (result nat)
| EPut (db : string) (c : nat) : effect unit
| EPutNil (db : string) (c : nat) : effect unit
| EClose (db : string) : effect (option nat)
| ETake (db : string) : effect unit
| ECloseChan (db : string) : effect unit
| ECheck (c : nat) : effect bool
| ESend (c : nat) (cmd : command) : effect (result reply)
| ENewBranch (b : branchTx) : effect nat
| EBranch (b : nat) : effect branchTx
| EModBranch (b : nat) (f : branchTx → branchTx) : effect unit
| ECasBranch (b : nat) : effect bool
| ENewTx (t : compositeTx) : effect nat
| ETx (t : nat) : effect compositeTx
| EModTx (t : nat) (f : compositeTx → compositeTx) : effect unit
| ECasTx (t : nat) : effect bool
| ENewHook (h : xaHook) : effect nat
| EHook (h : nat) : effect xaHook
| EModHook (h : nat) (f : xaHook → xaHook) : effect unit
| EAddOrUpdateTxLog (l : TrxLog) : effect (option error)
| EGroup : effect nat
| EDone (g : nat) (err : option error) : effect unit
| EWait (g : nat) : effect (option error).

(** A goroutine: it is over, it has panicked, it has an effect to do, or it
    starts another goroutine of a group. *)
Inductive prog : Type :=
| Halt
| Crash
| Vis {X : Type} (e : effect X) (k : X → prog)
| Go (g : nat) (p k : prog).

(** Code with a value, as a function of what is done with the value. *)
Definition M (A : Type) : Type := (A → prog) → prog.
Definition ret {A} (a : A) : M A := λ k, k a.
Definition bind {A B} (m : M A) (f : A → M B) : M B := λ k, m (λ a, f a k).
Definition eff {X} (e : effect X) : M X := λ k, Vis e k.
Definition crash {A} : M A := λ _, Crash.

Declare Scope tx_scope.
Delimit Scope tx_scope with tx.
Notation "x <- m ;; f" := (bind m (λ x, f)) (at level 100, m at next level, f at level 200, right associativity) : tx_scope.
Notation "m ;;; f" := (bind m (λ _, f)) (at level 100, f at level 200, right associativity) : tx_scope.
#[local] Open Scope tx_scope.

Fixpoint each {A} (l : list A) (f : A → M unit) : M unit :=
  match l with [] => ret tt | x :: l => f x ;;; each l f end.

(** [g.Go(f)]: the goroutine tells the group its error. *)
Definition go (g : nat) (body : M (option error)) : M unit := λ k, Go g (body (λ err, Vis (EDone g err) (λ _, Halt))) (k tt).

(** ** Atom databases *)

Definition errClosedDB : error := NewError "the db instance is closed already".

(** [pool.Close]: the capacity is swapped for 0, and the resources are taken
    out one by one. *)
Fixpoint takeAll (db : string) (n : nat) : M unit :=
  match n with O => ret tt | S n => eff (ETake db) ;;; takeAll db n end.

Definition closePool (db : string) : M unit :=
  r <- eff (EClose db) ;;
  match r with Some n => takeAll db n ;;; eff (ECloseChan db) | None => ret tt end.

(** [BackendResourcePool.Get]: the pool grows by one when nothing is
    available, and a connection that is broken is replaced once. *)
Definition BackendResourcePool_Get (db : string) : M (result nat) :=
  eff (EGrow db) ;;;
  r <- eff (EGet db) ;;
  match r with
  | inr e => ret (inr e)
  | inl c =>
      alive <- eff (ECheck c) ;;
      if alive : bool then ret (inl c) else eff (EPutNil db c) ;;; eff (EGet db)
  end.

Definition borrowConnection (db : string) : M (result nat) :=
  r <- BackendResourcePool_Get db ;;
  ret (match r with inr e => inr (WrapError e) | inl c => inl c end).

Definition returnConnection (db : string) (c : nat) : M unit := eff (EPut db c).

(** The function [pending] returns. *)
Definition undoPending (db : string) : M unit :=
  cnt <- eff (EDec db) ;;
  if (cnt =? 0)%Z then closed <- eff (ELoad db) ;; (if closed : bool then closePool db else ret tt) else ret tt.

(** What [begin] and [branchTx.dispose] do with a connection they give up. *)
Definition giveUp (db : string) (c : nat) : M unit :=
  cnt <- eff (EDec db) ;;
  returnConnection db c ;;;
  if (cnt =? 0)%Z then closed <- eff (ELoad db) ;; (if closed : bool then closePool db else ret tt) else ret tt.

Definition AtomDB_Variable (db : string) (transient : gmap string ProtoValue) (name : string) : M (result (option ProtoValue)) :=
  closed <- eff (ELoad db) ;;
  if closed : bool then ret (inr errClosedDB)
  else match transient !! name with
       | Some v => ret (inl (Some v))
       | None =>
           r <- borrowConnection db ;;
           match r with
           | inr e => ret (inr (WrapError e))
           | inl c =>
               eff (EInc db) ;;;
               r <- eff (ESend c PersistVariables) ;;
               undoPending db ;;;
               returnConnection db c ;;;
               ret (match r with inr e => inr (WrapError e) | inl rep => inl (persistVars rep !! name) end)
           end
       end.

Definition AtomDB_CallFieldList (db table wildcard : string) : M (result (list string)) :=
  closed <- eff (ELoad db) ;;
  if closed : bool then ret (inr errClosedDB)
  else r <- borrowConnection db ;;
       match r with
       | inr e => ret (inr (WrapError e))
       | inl c =>
           eff (EInc db) ;;;
           r <- eff (ESend c (ComFieldList table wildcard)) ;;
           undoPending db ;;;
           returnConnection db c ;;;
           ret (match r with inr e => inr (WrapError e) | inl rep => inl (replyFields rep) end)
       end.

(** What is asked for a statement with or without arguments. *)
Definition queryCommand (sql : string) (args : list ProtoValue) : command :=
  match args with [] => ExecuteIterRow sql | _ => PrepareQueryArgs sql args end.

(** The result comes with the connection its closer gives back. *)
Definition AtomDB_Call (db : string) (transient : gmap string ProtoValue) (sql : string) (args : list ProtoValue) : M (result (reply * nat)) :=
  closed <- eff (ELoad db) ;;
  if closed : bool then ret (inr errClosedDB)
  else r <- borrowConnection db ;;
       match r with
       | inr e => ret (inr (WrapError e))
       | inl c =>
           eff (EInc db) ;;;
           r <- eff (ESend c (SyncVariables transient)) ;;
           match r with
           | inr e => undoPending db ;;; returnConnection db c ;;; ret (inr e)
           | inl _ =>
               r <- eff (ESend c (queryCommand sql args)) ;;
               match r with
               | inr e => undoPending db ;;; returnConnection db c ;;; ret (inr e)
               | inl rep => ret (inl (rep, c))
               end
           end
       end.

(** The closer [AtomDB.Call] sets on its result. *)
Definition closeResult (db : string) (c : nat) : M unit := undoPending db ;;; returnConnection db c.

Definition AtomDB_Close (db : string) : M unit :=
  first <- eff (ECas db) ;;
  if first : bool then n <- eff (EPending db) ;; (if (n =? 0)%Z then closePool db else ret tt) else ret tt.

(** ** The functions of a branch *)

Definition ErrorInvalidTxId : error := NewError "invalid transaction id".

(** The statement a function sends; [None] is an error about the identifier. *)
Definition xaText (verb txId : string) : option string :=
  if decide (txId = "") then None else Some ("XA " ++ verb ++ " '" ++ txId ++ "'")%string.

Definition funcText (f : dbFunc) (txId : string) : option string :=
  match f with
  | beginPlain => Some "begin" | prepareNothing => None | commitPlain => Some "commit" | rollbackPlain => Some "rollback"
  | StartXA => xaText "START" txId | EndXA => xaText "END" txId | PrepareXA => xaText "PREPARE" txId
  | CommitXA => xaText "COMMIT" txId | RollbackXA => xaText "ROLLBACK" txId
  end.

(** A call of a function on a connection; a nil connection panics. *)
Definition callFunc (f : dbFunc) (txId : string) (c : option nat) : M (result (option reply)) :=
  match f with
  | prepareNothing => ret (inl None)
  | _ =>
      match funcText f txId with
      | None => ret (inr ErrorInvalidTxId)
      | Some sql =>
          match c with
          | None => crash
          | Some c => r <- eff (ESend c (ExecuteWithWarningCount sql)) ;;
                      ret (match r with inr e => inr e | inl rep => inl (Some rep) end)
          end
      end
  end.

Definition newBranchTx (db : string) (c : nat) : branchTx :=
  mkBranch false (Some db) None prepareNothing commitPlain rollbackPlain (Some c).

(** [AtomDB.begin]: the branch on its connection. *)
Definition AtomDB_begin (db : string) (f : dbFunc) (txId : string) : M (result nat) :=
  closed <- eff (ELoad db) ;;
  if closed : bool then ret (inr errClosedDB)
  else r <- borrowConnection db ;;
       match r with
       | inr e => ret (inr (WrapError e))
       | inl c =>
           eff (EInc db) ;;;
           r <- callFunc f txId (Some c) ;;
           match r with
           | inr e => giveUp db c ;;; ret (inr (WrapError e))
           | inl None => crash
           | inl (Some rep) =>
               match rowsAffected rep with
               | inr e => giveUp db c ;;; ret (inr (WrapError e))
               | inl _ => b <- eff (ENewBranch (newBranchTx db c)) ;; ret (inl b)
               end
           end
       end.

(** ** Branches *)

Definition setState (s : TxState) (b : branchTx) : branchTx :=
  mkBranch (bclosed b) (parent b) (Some s) (prepare b) (commit b) (rollback b) (bc b).
Definition SetPrepareFunc (f : dbFunc) (b : branchTx) : branchTx :=
  mkBranch (bclosed b) (parent b) (bstate b) f (commit b) (rollback b) (bc b).
Definition SetCommitFunc (f : dbFunc) (b : branchTx) : branchTx :=
  mkBranch (bclosed b) (parent b) (bstate b) (prepare b) f (rollback b) (bc b).
Definition SetRollbackFunc (f : dbFunc) (b : branchTx) : branchTx :=
  mkBranch (bclosed b) (parent b) (bstate b) (prepare b) (commit b) f (bc b).
Definition disconnect (b : branchTx) : branchTx :=
  mkBranch (bclosed b) None (bstate b) (prepare b) (commit b) (rollback b) None.

Definition branchTx_dispose (b : nat) : M unit :=
  tx <- eff (EBranch b) ;;
  match parent tx, bc tx with
  | Some db, Some c => giveUp db c ;;; eff (EModBranch b disconnect)
  | _, _ => crash
  end.

Definition branchTx_Commit (b : nat) (txId : string) : M (result (Z * Z)) :=
  eff (EModBranch b (setState TrxCommitting)) ;;;
  first <- eff (ECasBranch b) ;;
  if first : bool then
    tx <- eff (EBranch b) ;;
    r <- callFunc (commit tx) txId (bc tx) ;;
    res <- match r with
           | inr e => eff (EModBranch b (setState TrxAborting)) ;;; ret (inr e)
           | inl None => crash
           | inl (Some rep) =>
               match rowsAffected rep, lastInsertId rep with
               | inr e, _ => ret (inr e)
               | inl _, inr e => ret (inr e)
               | inl affected, inl lastInsertId => eff (EModBranch b (setState TrxCommitted)) ;;; ret (inl (affected, lastInsertId))
               end
           end ;;
    branchTx_dispose b ;;; ret res
  else ret (inr ErrTxClosed).

Definition errOf {A} (r : result A) : option error := match r with inr e => Some e | inl _ => None end.

Definition branchTx_Prepare (b : nat) (txId : string) : M (option error) :=
  eff (EModBranch b (setState TrxPreparing)) ;;;
  tx <- eff (EBranch b) ;;
  r <- callFunc (prepare tx) txId (bc tx) ;;
  eff (EModBranch b (setState TrxPrepared)) ;;; ret (errOf r).

Definition branchTx_Rollback (b : nat) (txId : string) : M (option error) :=
  first <- eff (ECasBranch b) ;;
  if first : bool then
    eff (EModBranch b (setState TrxRollback)) ;;;
    tx <- eff (EBranch b) ;;
    r <- callFunc (rollback tx) txId (bc tx) ;;
    eff (EModBranch b (setState TrxRolledBack)) ;;;
    branchTx_dispose b ;;; ret (errOf r)
  else ret (Some ErrTxClosed).

Definition branchTx_Call (b : nat) (sql : string) (args : list ProtoValue) : M (result reply) :=
  tx <- eff (EBranch b) ;;
  match bc tx with Some c => eff (ESend c (queryCommand sql args)) | None => crash end.

Definition branchTx_CallFieldList (b : nat) (table wildcard : string) : M (result (list string)) :=
  tx <- eff (EBranch b) ;;
  match bc tx with
  | Some c => r <- eff (ESend c (ComFieldList table wildcard)) ;; ret (match r with inr e => inr (WrapError e) | inl rep => inl (replyFields rep) end)
  | None => crash
  end.

(** ** Hooks *)

Section Transactions.
Context {I : MapIter} {Ru : Type} (Intn : Z → Z) (ns : Namespace (Ru := Ru)).

(** [Range]: the branches in some order. *)
Definition Range (t : nat) (f : nat → M unit) : M unit :=
  tx <- eff (ETx t) ;; each (iter_order (default ∅ (txs tx))) (λ kv, f kv.2).

Definition setLog (f : TrxLog → TrxLog) (h : xaHook) : xaHook := mkHook (enable h) (f (trxLog h)).
Definition setLogState (s : option TxState) (l : TrxLog) : TrxLog := mkTrxLog (log_TrxID l) (log_ServerID l) s (log_Participants l) (log_Tenant l).

Definition SetBeginFunc (f : dbFunc) (t : compositeTx) : compositeTx :=
  mkTx (tenant t) (tclosed t) (trxID t) (txState t) f (rt t) (txs t) (txHooks t).

Definition onActive (h t : nat) : M (option error) :=
  eff (EModTx t (SetBeginFunc StartXA)) ;;;
  tx <- eff (ETx t) ;;
  eff (EModHook h (setLog (λ l, mkTrxLog (trxID tx) (log_ServerID l) (txState tx) (log_Participants l) (tenant tx)))) ;;; ret None.

(** The log as the hook has it is written. *)
Definition writeLog (h : nat) : M (option error) := hk <- eff (EHook h) ;; eff (EAddOrUpdateTxLog (trxLog hk)).

Definition onPreparing (h t : nat) : M (option error) :=
  Range t (λ b, eff (EModBranch b (SetPrepareFunc PrepareXA))) ;;; writeLog h.

Definition onCommitting (h t : nat) : M (option error) :=
  Range t (λ b, eff (EModBranch b (SetCommitFunc CommitXA))) ;;; writeLog h.

(** The rollback of the branches is left to [rollback]: it is [commit] that is
    replaced. *)
Definition onAborting (h t : nat) (txId : string) : M (option error) :=
  Range t (λ b, eff (EModBranch b (SetCommitFunc RollbackXA))) ;;;
  err <- writeLog h ;;
  match err with
  | Some e => ret (Some e)
  | None => Range t (λ b, branchTx_Rollback b txId ;;; ret tt) ;;; ret None
  end.

Definition onRollbackOnly (h t : nat) : M (option error) :=
  Range t (λ b, eff (EModBranch b (SetCommitFunc RollbackXA))) ;;; writeLog h.

Definition onRolledBack (h : nat) : M (option error) :=
  eff (EModHook h (setLog (setLogState (Some TrxRolledBack)))) ;;; writeLog h.

Definition OnTxStateChange (h : nat) (state : TxState) (t : nat) (txId : string) : M (option error) :=
  hk <- eff (EHook h) ;;
  if negb (enable hk) then ret None
  else eff (EModHook h (setLog (setLogState (Some state)))) ;;;
       match state with
       | TrxActive => onActive h t
       | TrxPreparing => onPreparing h t
       | TrxPrepared | TrxCommitted => writeLog h
       | TrxCommitting => onCommitting h t
       | TrxAborting => onAborting h t txId
       | TrxRollback => onRollbackOnly h t
       | TrxRolledBack => onRolledBack h
       | TrxFinish => ret None
       end.

(** ** Composite transactions *)

(** The errors of the hooks are logged and dropped. *)
Definition setTxState (t : nat) (state : TxState) (txId : string) : M unit :=
  eff (EModTx t (λ tx, mkTx (tenant tx) (tclosed tx) (trxID tx) (Some state) (beginFunc tx) (rt tx) (txs tx) (txHooks tx))) ;;;
  tx <- eff (ETx t) ;;
  each (txHooks tx) (λ h, OnTxStateChange h state t txId ;;; ret tt).

Definition newCompositeTx (ctx : context) (id : string) (hs : list nat) : M nat :=
  t <- eff (ENewTx (mkTx (ctxTenant ctx) false id None beginPlain true (Some ∅) hs)) ;;
  setTxState t TrxActive (transactionID ctx) ;;; ret t.

(** [begin]: the branch of a group, a new one on the master of the group. *)
Definition compositeTx_begin (t : nat) (ctx : context) (group : string) : M (result nat) :=
  tx <- eff (ETx t) ;;
  match default ∅ (txs tx) !! group with
  | Some b => ret (inl b)
  | None =>
      if negb (rt tx) then crash
      else match selectDB Intn (WithWrite ctx) group ns with
           | Ok None => ret (inr (NewError "cannot get upstream database"))
           | Ok (Some db) =>
               r <- AtomDB_begin (db_ID db) (beginFunc tx) (transactionID ctx) ;;
               match r with
               | inr e => ret (inr e)
               | inl b =>
                   match txs tx with
                   | None => crash
                   | Some _ =>
                       eff (EModTx t (λ tx, mkTx (tenant tx) (tclosed tx) (trxID tx) (txState tx) (beginFunc tx) (rt tx)
                                              ((<[group := b]>) <$> txs tx) (txHooks tx))) ;;; ret (inl b)
                   end
               end
           | _ => crash
           end
  end.

(** [DBGroups()[0]]. *)
Definition firstGroup (t : nat) : M string :=
  tx <- eff (ETx t) ;;
  if negb (rt tx) then crash else match DBGroups ns with [] => crash | g :: _ => ret g end.

Definition compositeTx_call (t : nat) (ctx : context) (db query : string) (args : list ProtoValue) : M (result reply) :=
  group <- (if (String.length db <? 1)%nat then firstGroup t else ret db) ;;
  r <- compositeTx_begin t ctx group ;;
  match r with
  | inr e => ret (inr e)
  | inl b => r <- branchTx_Call b query args ;; ret (match r with inr e => inr (WrapError e) | inl rep => inl rep end)
  end.

(** The calls a plan makes on a transaction, one after the other; the first
    error ends the plan. *)
Fixpoint execIn (t : nat) (ctx : context) (calls : list (string * string * list ProtoValue)) : M (result unit) :=
  match calls with
  | [] => ret (inl tt)
  | (db, query, args) :: calls =>
      r <- compositeTx_call t ctx db query args ;;
      match r with inr e => ret (inr e) | inl _ => execIn t ctx calls end
  end.

(** [Execute] of a statement, given what the optimizer answers for it. *)
Definition compositeTx_Execute (t : nat) (ctx : context) (query : string) (args : list ProtoValue)
    (plan : result (list (string * string * list ProtoValue))) : M (result unit) :=
  tx <- eff (ETx t) ;;
  if tclosed tx then ret (inr ErrTxClosed)
  else if IsDirect ctx then
    group <- firstGroup t ;;
    r <- compositeTx_begin t (WithWrite ctx) group ;;
    match r with
    | inr e => ret (inr e)
    | inl b => r <- branchTx_Call b query args ;; ret (match r with inr e => inr (WrapError e) | inl _ => inl tt end)
    end
  else match plan with
       | inr e => ret (inr (WrapError e))
       | inl calls => r <- execIn t ctx calls ;; ret (match r with inr e => inr (WrapError e) | inl _ => inl tt end)
       end.

(** The goroutines of a phase, one for each branch, and their first error. *)
Definition phase (t : nat) (f : nat → M (option error)) : M (option error) :=
  tx <- eff (ETx t) ;;
  g <- eff EGroup ;;
  each (iter_order (default ∅ (txs tx))) (λ kv, go g (f kv.2)) ;;;
  eff (EWait g).

Definition doPrepareCommit (t : nat) (txId : string) : M (option error) :=
  setTxState t TrxPreparing txId ;;;
  err <- phase t (λ b, branchTx_Prepare b txId) ;;
  match err with
  | Some e => setTxState t TrxAborting txId ;;; ret (Some e)
  | None => setTxState t TrxPrepared txId ;;; ret None
  end.

(** It has the same body. *)
Definition doPrepareRollback (t : nat) (txId : string) : M (option error) := doPrepareCommit t txId.

Definition doCommit (t : nat) (txId : string) : M (option error) :=
  setTxState t TrxCommitting txId ;;;
  err <- phase t (λ b, r <- branchTx_Commit b txId ;; ret (errOf r)) ;;
  match err with Some e => ret (Some e) | None => setTxState t TrxCommitted txId ;;; ret None end.

Definition doRollback (t : nat) (txId : string) : M (option error) :=
  setTxState t TrxRollback txId ;;;
  err <- phase t (λ b, branchTx_Rollback b txId) ;;
  match err with Some e => ret (Some e) | None => setTxState t TrxRolledBack txId ;;; ret None end.

(** What [Commit] and [Rollback] do in the end. *)
Definition cleanup (t : nat) : M unit :=
  eff (EModTx t (λ tx, mkTx (tenant tx) (tclosed tx) (trxID tx) (txState tx) (beginFunc tx) false None (txHooks tx))).

Definition compositeTx_Commit (t : nat) (txId : string) : M (option error) :=
  first <- eff (ECasTx t) ;;
  if first : bool then
    err <- doPrepareCommit t txId ;;
    err <- match err with Some e => ret (Some e) | None => doCommit t txId end ;;
    cleanup t ;;; ret err
  else ret (Some ErrTxClosed).

Definition compositeTx_Rollback (t : nat) (txId : string) : M (option error) :=
  first <- eff (ECasTx t) ;;
  if first : bool then
    err <- doPrepareRollback t txId ;;
    err <- match err with Some e => ret (Some e) | None => doRollback t txId end ;;
    cleanup t ;;; ret err
  else ret (Some ErrTxClosed).

(** ** Clients *)

(** A statement of a transaction, with what the optimizer answers for it. *)
Record txStmt := mkStmt { st_direct : bool; st_query : string; st_args : list ProtoValue; st_plan : result (list (string * string * list ProtoValue)) }.

(** What a client asks: reads of an atom database, a statement outside of a
    transaction whose result is closed, the end of an atom database, and a
    transaction with its statements and its end. *)
Inductive request :=
| ReqVariable (db : string) (transient : gmap string ProtoValue) (name : string)
| ReqFieldList (db table wildcard : string)
| ReqCall (db : string) (transient : gmap string ProtoValue) (sql : string) (args : list ProtoValue)
| ReqClose (db : string)
| ReqTransaction (xa : bool) (tenantName id : string) (stmts : list txStmt) (toCommit : bool).

(** [NewXAHook]. *)
Definition NewXAHook (xa : bool) : M nat := eff (ENewHook (mkHook xa (mkTrxLog "" 0 None [] ""))).

(** The context of a connection with a transaction. *)
Definition txContext (tenantName id : string) : context := mkContext 0 [] id tenantName.

Definition serve (r : request) : M unit :=
  match r with
  | ReqVariable db transient name => AtomDB_Variable db transient name ;;; ret tt
  | ReqFieldList db table wildcard => AtomDB_CallFieldList db table wildcard ;;; ret tt
  | ReqCall db transient sql args =>
      r <- AtomDB_Call db transient sql args ;;
      match r with inl (_, c) => closeResult db c | inr _ => ret tt end
  | ReqClose db => AtomDB_Close db
  | ReqTransaction xa tenantName id stmts toCommit =>
      h <- NewXAHook xa ;;
      t <- newCompositeTx (mkContext 0 [] "" tenantName) id [h] ;;
      each stmts (λ st, let ctx := txContext tenantName id in
                        compositeTx_Execute t (if st_direct st then WithDirect ctx else ctx) (st_query st) (st_args st) (st_plan st) ;;; ret tt) ;;;
      (if toCommit then compositeTx_Commit t id else compositeTx_Rollback t id) ;;; ret tt
  end.

Definition client (rs : list request) : prog := each rs serve (λ _, Halt).
End Transactions.

(** ** The machine *)

(** What the world outside answers to an effect. *)
Record answers := mkAnswers {
  a_ctx : deadline; a_waited : bool; a_made : result nat; a_now : Z; a_alive : bool; a_reply : result reply; a_log : option error
}.

Definition toOutcome {A} (r : result A) : outcome A := match r with inl a => Ok a | inr e => Err e end.

(** Takes the first occurrence out of a list. *)
Fixpoint takeOut (c : nat) (l : list nat) : list nat :=
  match l with [] => [] | x :: l => if decide (x = c) then l else x :: takeOut c l end.

Definition setDB (w : world) (db : string) (d : AtomDB) : world :=
  mkWorld (λ x, if decide (x = db) then d else dbs w x) (branches w) (composites w) (hooks w) (groups w) (ran w).
Definition setSys (w : world) (db : string) (s : system (R := nat)) : world :=
  setDB w db (mkAtomDB s (closed (dbs w db)) (pendingRequests (dbs w db))).
Definition setPending (w : world) (db : string) (n : Z) : world :=
  setDB w db (mkAtomDB (sys (dbs w db)) (closed (dbs w db)) n).
Definition setBranches (w : world) (l : list branchTx) : world := mkWorld (dbs w) l (composites w) (hooks w) (groups w) (ran w).
Definition setComposites (w : world) (l : list compositeTx) : world := mkWorld (dbs w) (branches w) l (hooks w) (groups w) (ran w).
Definition setHooks (w : world) (l : list xaHook) : world := mkWorld (dbs w) (branches w) (composites w) l (groups w) (ran w).
Definition setGroups (w : world) (l : list errgroup) : world := mkWorld (dbs w) (branches w) (composites w) (hooks w) l (ran w).
Definition addRan (w : world) (c : nat) (cmd : command) : world := mkWorld (dbs w) (branches w) (composites w) (hooks w) (groups w) (ran w ++ [(c, cmd)]).

(** An effect: [None] waits, [Some (None, _)] panics.  The growth of a pool is
    one step: the counters it reads are those it resizes by. *)
Definition perform (a : answers) (w : world) {X} (e : effect X) : option (option X * world) :=
  match e in effect X return option (option X * world) with
  | ELoad db => Some (Some (closed (dbs w db)), w)
  | ECas db =>
      if closed (dbs w db) then Some (Some false, w)
      else Some (Some true, setDB w db (mkAtomDB (sys (dbs w db)) true (pendingRequests (dbs w db))))
  | EPending db => Some (Some (pendingRequests (dbs w db)), w)
  | EInc db => let n := i64 (pendingRequests (dbs w db) + 1) in Some (Some n, setPending w db n)
  | EDec db => let n := i64 (pendingRequests (dbs w db) - 1) in Some (Some n, setPending w db n)
  | EGrow db =>
      let s := sys (dbs w db) in
      if available (pool s) <? 1 then
        match SetCapacity (capacity (pool s) + 1) (pool s) with
        | (rp, Ok (Grow n)) => match addMany n rp with Some rp => Some (Some tt, setSys w db (mkSystem rp (held s) (shrinking s))) | None => None end
        | (_, Ok (Shrink _ _)) => None
        | _ => Some (Some tt, w)
        end
      else Some (Some tt, w)
  | EGet db =>
      let s := sys (dbs w db) in
      match Get (a_ctx a) (a_waited a) (toOutcome (a_made a)) (pool s) with
      | None => None
      | Some (rp, Ok c) => Some (Some (inl c), setSys w db (mkSystem rp (c :: held s) (shrinking s)))
      | Some (rp, Err e) => Some (Some (inr e), setSys w db (mkSystem rp (held s) (shrinking s)))
      | Some _ => Some (None, w)
      end
  | EPut db c =>
      let s := sys (dbs w db) in
      match Put (Some c) (toOutcome (a_made a)) (a_now a) (pool s) with
      | Ok rp => Some (Some tt, setSys w db (mkSystem rp (takeOut c (held s)) (shrinking s)))
      | _ => Some (None, w)
      end
  | EPutNil db c =>
      let s := sys (dbs w db) in
      match Put None (toOutcome (a_made a)) (a_now a) (pool s) with
      | Ok rp => Some (Some tt, setSys w db (mkSystem rp (takeOut c (held s)) (shrinking s)))
      | _ => Some (None, w)
      end
  | EClose db =>
      let s := sys (dbs w db) in
      match Close (pool s) with
      | (rp, Ok (Shrink n target)) => Some (Some (Some n), setSys w db (mkSystem rp (held s) (Some (n, target))))
      | _ => Some (Some None, w)
      end
  | ETake db =>
      let s := sys (dbs w db) in
      match shrinking s, takeOne (pool s) with
      | Some (S n, target), Some rp => Some (Some tt, setSys w db (mkSystem rp (held s) (Some (n, target))))
      | _, _ => None
      end
  | ECloseChan db =>
      let s := sys (dbs w db) in
      Some (Some tt, setSys w db (mkSystem (closeChan (pool s)) (held s) None))
  | ECheck c => Some (Some (a_alive a), w)
  | ESend c cmd => match a_reply a with inl r => Some (Some (inl r), addRan w c cmd) | inr e => Some (Some (inr e), w) end
  | ENewBranch b => Some (Some (length (branches w)), setBranches w (branches w ++ [b]))
  | EBranch b => Some (branches w !! b, w)
  | EModBranch b f => match branches w !! b with Some r => Some (Some tt, setBranches w (<[b := f r]> (branches w))) | None => Some (None, w) end
  | ECasBranch b =>
      match branches w !! b with
      | Some r =>
          if bclosed r then Some (Some false, w)
          else Some (Some true, setBranches w (<[b := mkBranch true (parent r) (bstate r) (prepare r) (commit r) (rollback r) (bc r)]> (branches w)))
      | None => Some (None, w)
      end
  | ENewTx t => Some (Some (length (composites w)), setComposites w (composites w ++ [t]))
  | ETx t => Some (composites w !! t, w)
  | EModTx t f => match composites w !! t with Some r => Some (Some tt, setComposites w (<[t := f r]> (composites w))) | None => Some (None, w) end
  | ECasTx t =>
      match composites w !! t with
      | Some r =>
          if tclosed r then Some (Some false, w)
          else Some (Some true, setComposites w (<[t := mkTx (tenant r) true (trxID r) (txState r) (beginFunc r) (rt r) (txs r) (txHooks r)]> (composites w)))
      | None => Some (None, w)
      end
  | ENewHook h => Some (Some (length (hooks w)), setHooks w (hooks w ++ [h]))
  | EHook h => Some (hooks w !! h, w)
  | EModHook h f => match hooks w !! h with Some r => Some (Some tt, setHooks w (<[h := f r]> (hooks w))) | None => Some (None, w) end
  | EAddOrUpdateTxLog l => Some (Some (a_log a), w)
  | EGroup => Some (Some (length (groups w)), setGroups w (groups w ++ [mkGroup 0 None]))
  | EDone g err =>
      match groups w !! g with
      | Some gr => Some (Some tt, setGroups w (<[g := mkGroup (pred (running gr)) (match failed gr with Some e => Some e | None => err end)]> (groups w)))
      | None => Some (None, w)
      end
  | EWait g =>
      match groups w !! g with
      | Some gr => match running gr with O => Some (Some (failed gr), w) | S _ => None end
      | None => Some (None, w)
      end
  end.

(** One effect of a goroutine; [None] if it waits, is over or has panicked. *)
Definition stepAt (i : nat) (a : answers) (s : list prog * world) : option (list prog * world) :=
  let '(ps, w) := s in
  match ps !! i with
  | Some (Vis e k) =>
      match perform a w e with
      | Some (Some x, w') => Some (<[i := k x]> ps, w')
      | Some (None, w') => Some (<[i := Crash]> ps, w')
      | None => None
      end
  | Some (Go g p k) =>
      match groups w !! g with
      | Some gr => Some (<[i := k]> ps ++ [p], setGroups w (<[g := mkGroup (S (running gr)) (failed gr)]> (groups w)))
      | None => Some (<[i := Crash]> ps, w)
      end
  | _ => None
  end.

(** A step of the machine: some goroutine, or the timer of a pool that closes
    its idle connections. *)
Inductive mstep : list prog * world → list prog * world → Prop :=
| mstep_thread i a s s' : stepAt i a s = Some s' → mstep s s'
| mstep_idle db made now ps w :
    mstep (ps, w) (ps, setSys w db (mkSystem (closeIdleResources made now (pool (sys (dbs w db)))) (held (sys (dbs w db))) (shrinking (sys (dbs w db))))).

(** A run of chosen goroutines with chosen answers. *)
Fixpoint runMachine (sched : list (nat * answers)) (s : list prog * world) : option (list prog * world) :=
  match sched with [] => Some s | (i, a) :: sched => s ← stepAt i a s; runMachine sched s end.
