(* ===== verification/TransactionTheory.v ===== *)
(** * What transactions promise

    A logic of tokens for the goroutines of the transactions: a goroutine that
    holds the token of a connection, of a request, of a branch or of a
    transaction may do what the token allows, and a goroutine that is started
    takes tokens with it and leaves tokens for the group.  The logic is sound
    for every interleaving, so connections and requests are balanced whatever
    the servers answer. *)
From S2P Require Import Prelude GoStd Value Optimize Namespace Pool PoolTheory Transaction.

(** ** Tokens *)

(** A connection that is out of its pool, one that counts as a request, the
    closing of a pool, the contents of an object, a command that succeeded, a
    group with what its goroutines leave, and the promise of a goroutine. *)
Inductive token :=
| TConn (db : string) (c : nat)
| TReq (db : string) (c : nat)
| TClosing (db : string) (n : nat)
| TBranch (b : nat) (r : branchTx)
| TTx (t : nat) (r : compositeTx)
| THook (h : nat) (r : xaHook)
| TRan (c : nat) (cmd : command)
| TGroup (g : nat) (posts : list (option error → list (list token)))
| TClaim (g : nat) (post : option error → list (list token)).

Abbreviation post := (option error → list (list token)).

Definition conns (db : string) : list token → list nat :=
  omap (λ t, match t with TConn d c | TReq d c => if decide (d = db) then Some c else None | _ => None end).
Definition reqs (db : string) : list token → list nat :=
  omap (λ t, match t with TReq d c => if decide (d = db) then Some c else None | _ => None end).
Definition closings (db : string) : list token → list nat :=
  omap (λ t, match t with TClosing d n => if decide (d = db) then Some n else None | _ => None end).
Definition branchesOf : list token → list (nat * branchTx) := omap (λ t, match t with TBranch b r => Some (b, r) | _ => None end).
Definition txsOf : list token → list (nat * compositeTx) := omap (λ t, match t with TTx t r => Some (t, r) | _ => None end).
Definition hooksOf : list token → list (nat * xaHook) := omap (λ t, match t with THook h r => Some (h, r) | _ => None end).
Definition ransOf : list token → list (nat * command) := omap (λ t, match t with TRan c cmd => Some (c, cmd) | _ => None end).
Definition groupsOf : list token → list (nat * list post) := omap (λ t, match t with TGroup g ps => Some (g, ps) | _ => None end).
Definition claimsOf (g : nat) : list token → list post :=
  omap (λ t, match t with TClaim g' p => if decide (g' = g) then Some p else None | _ => None end).

(** A heap has what the tokens of its objects say, one token for each. *)
Definition heapOk {A} (l : list A) (pts : list (nat * A)) : Prop := NoDup pts.*1 ∧ ∀ i a, (i, a) ∈ pts → l !! i = Some a.

Lemma heapOk_perm {A} (l : list A) pts pts' : pts ≡ₚ pts' → heapOk l pts → heapOk l pts'.
Proof. intros Hp [Hn Hl]. split; [by rewrite <- Hp|]. intros i a. rewrite <- Hp. apply Hl. Qed.

Lemma heapOk_alloc {A} (l : list A) pts a : heapOk l pts → heapOk (l ++ [a]) ((length l, a) :: pts).
Proof.
  intros [Hn Hl]. split.
  - apply NoDup_cons. split; [|done]. intros ([i b] & Hi & Hin)%list_elem_of_fmap. simpl in Hi. subst i. apply Hl in Hin.
    apply lookup_lt_Some in Hin. lia.
  - intros i b [[= -> ->]|Hin]%elem_of_cons; [by rewrite list_lookup_middle|]. by apply lookup_app_l_Some, Hl.
Qed.

Lemma heapOk_update {A} (l : list A) pts i a a' : heapOk l ((i, a) :: pts) → heapOk (<[i := a']> l) ((i, a') :: pts).
Proof.
  intros [Hn Hl]. split; [done|]. intros j b [[= -> ->]|Hin]%elem_of_cons.
  - apply list_lookup_insert_eq. apply (lookup_lt_Some l i a), Hl. by left.
  - apply NoDup_cons in Hn as [Hi _]. rewrite list_lookup_insert_ne; [apply Hl; by right|]. intros ->. apply Hi.
    apply list_elem_of_fmap. by exists (j, b).
Qed.

Lemma heapOk_head {A} (l : list A) pts i a : heapOk l ((i, a) :: pts) → l !! i = Some a.
Proof. intros [_ H]. apply H. by left. Qed.

(** Requests are connections. *)
Lemma reqs_conns db T : (length (reqs db T) ≤ length (conns db T))%nat.
Proof. induction T as [|[] T IH]; simpl; try done; case_decide; simpl; lia. Qed.

(** ** The logic *)

Section Logic.
(** Whether a goroutine may wait for a pool it holds a connection of. *)
Context (strict : bool).

Definition setBClosed (r : branchTx) : branchTx := mkBranch true (parent r) (bstate r) (prepare r) (commit r) (rollback r) (bc r).
Definition setTClosed (r : compositeTx) : compositeTx :=
  mkTx (tenant r) true (trxID r) (txState r) (beginFunc r) (rt r) (txs r) (txHooks r).

(** What an effect needs and leaves. *)
Definition pre {X} (e : effect X) (Q : X → list token → Prop) (c : list token) : Prop :=
  match e in effect X return (X → list token → Prop) → Prop with
  | ELoad db => λ Q, ∀ b, Q b c
  | ECas db => λ Q, ∀ b, Q b c
  | EPending db => λ Q, ∀ n, (n = 0 → reqs db c = []) → Q n c
  | EInc db => λ Q, ∃ x c', c ≡ₚ TConn db x :: c' ∧ ∀ n, Q n (TReq db x :: c')
  | EDec db => λ Q, ∃ x c', c ≡ₚ TReq db x :: c' ∧ ∀ n, (n = 0 → reqs db c' = []) → Q n (TConn db x :: c')
  | EGrow db => λ Q, Q tt c
  | EGet db => λ Q, (∀ x, Q (inl x) (TConn db x :: c)) ∧ (∀ e, Q (inr e) c)
  | EPut db x => λ Q, ∃ c', c ≡ₚ TConn db x :: c' ∧ Q tt c'
  | EPutNil db x => λ Q, ∃ c', c ≡ₚ TConn db x :: c' ∧ Q tt c'
  | EClose db => λ Q, Q None c ∧ ∀ n, Q (Some n) (TClosing db n :: c)
  | ETake db => λ Q, (strict = true → conns db c = [] ∧ groupsOf c = []) ∧ ∃ n c', c ≡ₚ TClosing db (S n) :: c' ∧ Q tt (TClosing db n :: c')
  | ECloseChan db => λ Q, ∃ c', c ≡ₚ TClosing db 0 :: c' ∧ Q tt c'
  | ECheck x => λ Q, ∀ b, Q b c
  | ESend x cmd => λ Q, (∀ r, Q (inl r) (TRan x cmd :: c) ∨ Q (inl r) c) ∧ (∀ e, Q (inr e) c)
  | ENewBranch r => λ Q, ∀ b, Q b (TBranch b r :: c)
  | EBranch b => λ Q, ∃ r c', c ≡ₚ TBranch b r :: c' ∧ Q r (TBranch b r :: c')
  | EModBranch b f => λ Q, ∃ r c', c ≡ₚ TBranch b r :: c' ∧ Q tt (TBranch b (f r) :: c')
  | ECasBranch b => λ Q, ∃ r c', c ≡ₚ TBranch b r :: c' ∧ Q (negb (bclosed r)) (TBranch b (setBClosed r) :: c')
  | ENewTx r => λ Q, ∀ t, Q t (TTx t r :: c)
  | ETx t => λ Q, ∃ r c', c ≡ₚ TTx t r :: c' ∧ Q r (TTx t r :: c')
  | EModTx t f => λ Q, ∃ r c', c ≡ₚ TTx t r :: c' ∧ Q tt (TTx t (f r) :: c')
  | ECasTx t => λ Q, ∃ r c', c ≡ₚ TTx t r :: c' ∧ Q (negb (tclosed r)) (TTx t (setTClosed r) :: c')
  | ENewHook r => λ Q, ∀ h, Q h (THook h r :: c)
  | EHook h => λ Q, ∃ r c', c ≡ₚ THook h r :: c' ∧ Q r (THook h r :: c')
  | EModHook h f => λ Q, ∃ r c', c ≡ₚ THook h r :: c' ∧ Q tt (THook h (f r) :: c')
  | EAddOrUpdateTxLog l => λ Q, ∀ err, Q err c
  | EGroup => λ Q, ∀ g, Q g (TGroup g [] :: c)
  | EDone g err => λ Q, ∃ p d, c ≡ₚ TClaim g p :: d ∧ d ∈ p err ∧ groupsOf d = [] ∧ Q tt []
  | EWait g => λ Q, ∃ ps c', c ≡ₚ TGroup g ps :: c' ∧
      ∀ err (deps : list (option error * list token)),
        Forall2 (λ (p : post) d, d.2 ∈ p d.1) ps deps → (err = None ↔ Forall (λ d, d.1 = None) deps) → Q err (concat deps.*2 ++ c')
  end Q.

(** Tokens a goroutine may be left with in the end. *)
Definition inert (t : token) : Prop :=
  match t with TConn _ _ | TReq _ _ | TClosing _ _ | TClaim _ _ | TGroup _ _ => False | _ => True end.

(** A goroutine with tokens is safe. *)
Fixpoint wp (p : prog) (c : list token) : Prop :=
  match p with
  | Halt => Forall inert c
  | Crash => False
  | Vis e k => pre e (λ x c, wp (k x) c) c
  | Go g p k => ∃ ps q c1 c2, c ≡ₚ TGroup g ps :: c1 ++ c2 ∧ wp p (TClaim g q :: c1) ∧ wp k (TGroup g (q :: ps) :: c2)
  end.

Lemma pre_perm {X} (e : effect X) Q c c' :
  (∀ x c c', c ≡ₚ c' → Q x c → Q x c') → c ≡ₚ c' → pre e Q c → pre e Q c'.
Proof using.
  intros HQ Hc. destruct e; simpl; intros H;
    try (by eauto using Permutation_skip); try (destruct H as [H1 H2]; split; by naive_solver eauto using Permutation_skip);
    try (repeat match goal with H : ex _ |- _ => destruct H as [? H] end; destruct H as [E H];
         repeat match goal with |- ex _ => eexists end; split; [rewrite <- Hc; exact E|exact H]).
  - intros n Hn. apply (HQ n c); [done|]. apply H. intros Hz. specialize (Hn Hz). apply Permutation_nil_r. by rewrite <- Hn, Hc.
  - destruct H as [Hs (n & d & Hd & H)]. split; [|exists n, d; by rewrite <- Hc].
    intros [H1 H2]%Hs. split; apply Permutation_nil_r; [rewrite <- H1|rewrite <- H2]; by apply omap_Permutation.
Qed.

Lemma wp_perm p c c' : c ≡ₚ c' → wp p c → wp p c'.
Proof using.
  revert c c'. induction p as [| |X e k IH|g p IHp k IHk]; intros c c' Hc; simpl.
  - intros H. by rewrite <- Hc.
  - done.
  - apply pre_perm; [|done]. intros x d d'. apply IH.
  - setoid_rewrite <- Hc. naive_solver.
Qed.

(** ** Consistency *)

(** What a goroutine that is done has left for its group. *)
Record deposit := mkDep { d_group : nat; d_post : post; d_err : option error; d_toks : list token }.
Definition dtoks (D : list deposit) : list token := concat (map d_toks D).
Definition depsOf (g : nat) (D : list deposit) : list deposit := filter (λ d, d_group d = g) D.

(** An atom database and the tokens about it. *)
Record dbOk (d : AtomDB) (cs rs cl : list nat) : Prop := mkDbOk {
  db_exact : exact (sys d);
  db_held : held (sys d) ≡ₚ cs;
  db_pending : pendingRequests d = Z.of_nat (length rs);
  db_bound : (length rs ≤ length cs)%nat;
  db_shrink : match shrinking (sys d) with None => cl = [] | Some (n, target) => cl = [n] ∧ target = 0 end;
}.

(** A group, its promises and what was left for it. *)
Record groupOk (gr : errgroup) (ps claims : list post) (ds : list deposit) : Prop := mkGroupOk {
  g_running : running gr = length claims;
  g_posts : ps ≡ₚ claims ++ map d_post ds;
  g_failed : failed gr = None ↔ Forall (λ d, d_err d = None) ds;
}.

(** The world and all tokens. *)
Record worldOk (w : world) (T : list token) (D : list deposit) : Prop := mkWorldOk {
  w_dbs : ∀ db, dbOk (dbs w db) (conns db T) (reqs db T) (closings db T);
  w_branches : heapOk (branches w) (branchesOf T);
  w_txs : heapOk (composites w) (txsOf T);
  w_hooks : heapOk (hooks w) (hooksOf T);
  w_ran : ∀ x, x ∈ ransOf T → x ∈ ran w;
  w_unique : NoDup (groupsOf T).*1;
  w_groups : ∀ g ps, (g, ps) ∈ groupsOf T → ∃ gr, groups w !! g = Some gr ∧ groupOk gr ps (claimsOf g T) (depsOf g D);
  w_claims : ∀ g, claimsOf g T ≠ [] ∨ depsOf g D ≠ [] → g ∈ (groupsOf T).*1;
  w_deps : Forall (λ d, d_toks d ∈ d_post d (d_err d) ∧ groupsOf (d_toks d) = []) D;
}.

Definition consistent (w : world) (T : list token) (D : list deposit) : Prop := worldOk w (T ++ dtoks D) D.

Lemma dbOk_perm d cs rs cl cs' rs' cl' :
  cs ≡ₚ cs' → rs ≡ₚ rs' → cl ≡ₚ cl' → dbOk d cs rs cl → dbOk d cs' rs' cl'.
Proof using.
  intros Hc Hr Hl [He Hh Hp Hb Hs]. split; [done|by rewrite <- Hc|by rewrite <- Hr|by rewrite <- Hc, <- Hr|].
  destruct (shrinking (sys d)) as [[n t]|]; [destruct Hs as [-> ->]|subst cl].
  - split; [|done]. symmetry in Hl. by apply Permutation_singleton_r in Hl.
  - by apply Permutation_nil_l in Hl.
Qed.

Lemma groupOk_perm gr ps cl ds cl' : cl ≡ₚ cl' → groupOk gr ps cl ds → groupOk gr ps cl' ds.
Proof using. intros Hc [H1 H2 H3]. split; [by rewrite <- Hc|by rewrite <- Hc|done]. Qed.

Lemma worldOk_perm w T T' D : T ≡ₚ T' → worldOk w T D → worldOk w T' D.
Proof using.
  intros HT [H1 H2 H3 H4 H5 H6 H7 H8 H9].
  assert (∀ {B} (f : token → option B), omap f T ≡ₚ omap f T') as Hf by (intros; by apply omap_Permutation).
  split; [|eapply heapOk_perm; [apply Hf|done]..| |unfold groupsOf; by rewrite <- Hf| | |done].
  - intros db. eapply dbOk_perm; [apply Hf..|done].
  - intros x. unfold ransOf. rewrite <- Hf. apply H5.
  - intros g ps Hin. destruct (H7 g ps) as (gr & Hg & Hok); [unfold groupsOf; by rewrite Hf|]. exists gr. split; [done|].
    eapply groupOk_perm; [apply Hf|done].
  - intros g Hne. unfold groupsOf. rewrite <- Hf. apply H8. destruct Hne as [Hne|Hne]; [left|by right]. intros E. apply Hne.
    apply Permutation_nil_r. unfold claimsOf in *. by rewrite <- Hf, E.
Qed.

Lemma consistent_perm w T T' D : T ≡ₚ T' → consistent w T D → consistent w T' D.
Proof using. intros HT. unfold consistent. apply worldOk_perm. by rewrite HT. Qed.

(** ** Effects on an atom database *)

Definition withSys (d : AtomDB) (s : system (R := nat)) : AtomDB := mkAtomDB s (closed d) (pendingRequests d).

Lemma held_bound s : exact (R := nat) s → Z.of_nat (length (held s)) < 2 ^ 62.
Proof using. intros [Hm _ _ _ Ht Hr _ _]. lia. Qed.

Lemma dbOk_inc d cs rs cl x :
  (length rs ≤ length cs)%nat → dbOk d (x :: cs) rs cl → dbOk (mkAtomDB (sys d) (closed d) (i64 (pendingRequests d + 1))) (x :: cs) (x :: rs) cl.
Proof using.
  intros Hb [He Hh Hp _ Hs]. split; simpl; try done; [|lia]. pose proof (held_bound _ He) as Hlt. rewrite Hh in Hlt. simpl in Hlt.
  rewrite wrapS_id by (unfold inS; lia). lia.
Qed.

Lemma dbOk_dec d cs rs cl x :
  dbOk d (x :: cs) (x :: rs) cl →
  dbOk (mkAtomDB (sys d) (closed d) (i64 (pendingRequests d - 1))) (x :: cs) rs cl ∧ i64 (pendingRequests d - 1) = Z.of_nat (length rs).
Proof using.
  intros [He Hh Hp Hb Hs]. simpl in *. pose proof (held_bound _ He) as Hlt. rewrite Hh in Hlt. simpl in Hlt.
  assert (i64 (pendingRequests d - 1) = Z.of_nat (length rs)) as E by (rewrite wrapS_id by (unfold inS; lia); lia).
  split; [|done]. split; simpl; try done; lia.
Qed.

(** A step of the pool that keeps the resources that are out. *)
Lemma dbOk_step d cs rs cl s cs' :
  step (sys d) s → held s ≡ₚ cs' → (length rs ≤ length cs')%nat → shrinking s = shrinking (sys d) → dbOk d cs rs cl → dbOk (withSys d s) cs' rs cl.
Proof using.
  intros Hst Hh Hb Hsh [He _ Hp _ Hs]. split; simpl; try done; [by eapply step_exact|by rewrite Hsh].
Qed.

Lemma Get_answers ctx waited r (rp rp' : ResourcePool nat) o :
  Get ctx waited (toOutcome r) rp = Some (rp', o) → (∃ x, o = Ok x) ∨ (∃ e, o = Err e).
Proof using.
  unfold Get, unwrap. destruct r as [x|e]; simpl; intros H; repeat case_match; simplify_eq; eauto.
Qed.

Lemma dbOk_get d cs rs cl ctx waited made rp x :
  Get ctx waited made (pool (sys d)) = Some (rp, Ok x) → dbOk d cs rs cl →
  dbOk (withSys d (mkSystem rp (x :: held (sys d)) (shrinking (sys d)))) (x :: cs) rs cl.
Proof using.
  intros H Hok. eapply dbOk_step; [|by simpl; rewrite (db_held _ _ _ _ Hok)|simpl; pose proof (db_bound _ _ _ _ Hok); lia|done|done].
  destruct (sys d). by eapply step_get.
Qed.

Lemma dbOk_get_fails d cs rs cl ctx waited made rp e :
  Get ctx waited made (pool (sys d)) = Some (rp, Err e) → dbOk d cs rs cl →
  dbOk (withSys d (mkSystem rp (held (sys d)) (shrinking (sys d)))) cs rs cl.
Proof using.
  intros H Hok. eapply dbOk_step; [|by apply Hok|by apply Hok|done|done]. destruct (sys d). by eapply step_get_fails.
Qed.

Lemma takeOut_split x l : x ∈ l → ∃ h1 h2, l = h1 ++ x :: h2 ∧ takeOut x l = h1 ++ h2.
Proof using.
  induction l as [|y l IH]; [by intros ?%not_elem_of_nil|]. intros Hin. simpl. case_decide as E.
  - subst. by exists [], l.
  - apply elem_of_cons in Hin as [->|Hin]; [done|]. destruct (IH Hin) as (h1 & h2 & -> & ->). by exists (y :: h1), h2.
Qed.

(** Putting back a connection, or nothing in its place, never panics. *)
Lemma dbOk_put d cs rs cl x made now res :
  res = None ∨ res = Some x → (length rs ≤ length cs)%nat → dbOk d (x :: cs) rs cl →
  ∃ rp, Put res made now (pool (sys d)) = Ok rp ∧ dbOk (withSys d (mkSystem rp (takeOut x (held (sys d))) (shrinking (sys d)))) cs rs cl.
Proof using.
  intros Hres Hb Hok. pose proof (db_held _ _ _ _ Hok) as Hh. assert (x ∈ held (sys d)) as Hin by (rewrite Hh; by left).
  destruct (exact_put_ok (sys d) res made now) as [rp Hput]; [apply Hok|intros E; rewrite E in Hin; by apply not_elem_of_nil in Hin|].
  exists rp. split; [done|]. destruct (takeOut_split x _ Hin) as (h1 & h2 & E & Et). rewrite Et. eapply dbOk_step; [| |done|done|done].
  - destruct (sys d) as [q h sh]. simpl in *. subst h. destruct Hres as [-> | ->]; [by eapply step_put_lost|by eapply step_put].
  - simpl. rewrite E in Hh. apply (Permutation_cons_inv (a := x)). by rewrite <- Hh, Permutation_middle.
Qed.

(** Nothing is being resized while the capacity is not 0. *)
Lemma dbOk_idle_shrink d cs rs cl : dbOk d cs rs cl → capacity (pool (sys d)) ≠ 0 → shrinking (sys d) = None ∧ cl = [].
Proof using.
  intros [He _ _ _ Hs] Hc. destruct (shrinking (sys d)) as [[n t]|] eqn:E; [|by auto]. destruct Hs as [_ ->].
  destruct (exact_target _ He n 0 E) as [? _]. done.
Qed.

Lemma dbOk_grow d cs rs cl n rp rp' cap :
  SetCapacity cap (pool (sys d)) = (rp, Ok (Grow n)) → addMany n rp = Some rp' → dbOk d cs rs cl →
  dbOk (withSys d (mkSystem rp' (held (sys d)) (shrinking (sys d)))) cs rs cl.
Proof using.
  intros Hset Hadd Hok. assert (capacity (pool (sys d)) ≠ 0) as Hc.
  { unfold SetCapacity in Hset. destruct (_ || _); [done|]. destruct (Z.eqb_spec (capacity (pool (sys d))) 0); done. }
  destruct (dbOk_idle_shrink _ _ _ _ Hok Hc) as [Hs _]. eapply dbOk_step; [|by apply Hok|by apply Hok|done|done].
  rewrite Hs. destruct (sys d) as [q h sh]. simpl in *. subst sh. by eapply step_grow.
Qed.

Lemma dbOk_close d cs rs cl n target rp :
  Close (pool (sys d)) = (rp, Ok (Shrink n target)) → dbOk d cs rs cl →
  cl = [] ∧ dbOk (withSys d (mkSystem rp (held (sys d)) (Some (n, target)))) cs rs [n].
Proof using.
  intros Hset Hok. assert (capacity (pool (sys d)) ≠ 0 ∧ target = 0) as [Hc ->].
  { unfold Close, SetCapacity in Hset. destruct (_ || _); [done|]. destruct (Z.eqb_spec (capacity (pool (sys d))) 0); [done|].
    split; [done|]. repeat case_match; by simplify_eq. }
  destruct (dbOk_idle_shrink _ _ _ _ Hok Hc) as [Hs ->]. split; [done|]. destruct Hok as [He Hh Hp Hb _]. split; simpl; try done.
  apply (step_exact (sys d)); [done|]. destruct (sys d) as [q h sh]. simpl in *. subst sh. by eapply step_shrink.
Qed.

Lemma dbOk_take d cs rs cl n rp :
  takeOne (pool (sys d)) = Some rp → dbOk d cs rs (S n :: cl) →
  shrinking (sys d) = Some (S n, 0) ∧ dbOk (withSys d (mkSystem rp (held (sys d)) (Some (n, 0)))) cs rs (n :: cl).
Proof using.
  intros Ht [He Hh Hp Hb Hs]. destruct (shrinking (sys d)) as [[m t]|] eqn:E; [|done]. destruct Hs as [[= <- ->] ->]. split; [done|].
  split; simpl; try done. apply (step_exact (sys d)); [done|]. destruct (sys d) as [q h sh]. simpl in *. subst sh. by eapply step_take.
Qed.

Lemma dbOk_closeChan d cs rs cl :
  dbOk d cs rs (0%nat :: cl) → dbOk (withSys d (mkSystem (closeChan (pool (sys d))) (held (sys d)) None)) cs rs cl.
Proof using.
  intros [He Hh Hp Hb Hs]. destruct (shrinking (sys d)) as [[m t]|] eqn:E; [|done]. destruct Hs as [[= <- ->] ->].
  split; simpl; try done. apply (step_exact (sys d)); [done|]. destruct (sys d) as [q h sh]. simpl in *. subst sh. apply (step_done 0).
Qed.

(** The atom database a token is about. *)
Definition tokDb (t : token) : option string := match t with TConn db _ | TReq db _ | TClosing db _ => Some db | _ => None end.

Lemma omap_tokDb {B} (f : token → option B) db ts T :
  (∀ t, tokDb t = Some db → f t = None) → Forall (λ t, tokDb t = Some db) ts → omap f (ts ++ T) = omap f T.
Proof using. intros Hf. induction 1 as [|t ts Ht _ IH]; [done|]. simpl. rewrite Hf by done. exact IH. Qed.

(** Tokens about one atom database change with it and with nothing else. *)
Lemma worldOk_db w db d ts ts' T D :
  Forall (λ t, tokDb t = Some db) ts → Forall (λ t, tokDb t = Some db) ts' →
  worldOk w (ts ++ T) D → dbOk d (conns db (ts' ++ T)) (reqs db (ts' ++ T)) (closings db (ts' ++ T)) → worldOk (setDB w db d) (ts' ++ T) D.
Proof using.
  intros Hts Hts' [H1 H2 H3 H4 H5 H6 H7 H8 H9] Hd.
  assert (∀ B (f : token → option B), (∀ t, is_Some (tokDb t) → f t = None) → omap f (ts' ++ T) = omap f (ts ++ T)) as E.
  { intros B f Hf. assert (∀ t, tokDb t = Some db → f t = None) by (intros t Ht; apply Hf; by rewrite Ht).
    by rewrite (omap_tokDb f db ts T), (omap_tokDb f db ts' T). }
  assert (∀ x B (f : token → option B), x ≠ db → (∀ t, tokDb t ≠ Some x → f t = None) → omap f (ts' ++ T) = omap f (ts ++ T)) as Ex.
  { intros x B f Hx Hf. assert (∀ t, tokDb t = Some db → f t = None) by (intros t Ht; apply Hf; rewrite Ht; congruence).
    by rewrite (omap_tokDb f db ts T), (omap_tokDb f db ts' T). }
  split; simpl.
  - intros x. case_decide as Hx; [by subst|]. specialize (H1 x). unfold conns, reqs, closings in *.
    rewrite !(Ex x); try done; intros []; simpl; try done; case_decide; naive_solver.
  - unfold branchesOf in *. rewrite E; [done|]. by intros [] [? [=]].
  - unfold txsOf in *. rewrite E; [done|]. by intros [] [? [=]].
  - unfold hooksOf in *. rewrite E; [done|]. by intros [] [? [=]].
  - unfold ransOf in *. rewrite E; [done|]. by intros [] [? [=]].
  - unfold groupsOf in *. rewrite E; [done|]. by intros [] [? [=]].
  - unfold groupsOf, claimsOf in *. rewrite E; [|by intros [] [? [=]]]. intros g ps Hin. rewrite E; [by apply H7|]. by intros [] [? [=]].
  - unfold groupsOf, claimsOf in *. rewrite E; [|by intros [] [? [=]]]. intros g. rewrite E; [by apply H8|]. by intros [] [? [=]].
  - done.
Qed.

(** ** Effects on groups *)

Lemma worldOk_newGroup w T D :
  worldOk w T D → worldOk (setGroups w (groups w ++ [mkGroup 0 None])) (TGroup (length (groups w)) [] :: T) D.
Proof using.
  intros [H1 H2 H3 H4 H5 H6 H7 H8 H9]. assert (length (groups w) ∉ (groupsOf T).*1) as Hnew.
  { intros ([g ps] & Hg & Hin)%list_elem_of_fmap. simpl in Hg. destruct (H7 g ps Hin) as (gr & E & _). apply lookup_lt_Some in E. lia. }
  split; simpl; try done.
  - by apply NoDup_cons.
  - intros g ps [[= -> ->]|Hin]%elem_of_cons.
    + exists (mkGroup 0 None). split; [by rewrite list_lookup_middle|].
      destruct (decide (claimsOf (length (groups w)) T = [])) as [Ec|Ec]; [|exfalso; by apply Hnew, H8; left].
      destruct (decide (depsOf (length (groups w)) D = [])) as [Ed|Ed]; [|exfalso; by apply Hnew, H8; right].
      unfold claimsOf in *. rewrite Ec, Ed. by split.
    + destruct (H7 g ps Hin) as (gr & Hg & Hok). exists gr. split; [by apply lookup_app_l_Some|done].
  - intros g Hne. right. by apply H8.
Qed.

Lemma group_unique T g ps ps' : NoDup (groupsOf T).*1 → (g, ps) ∈ groupsOf T → (g, ps') ∈ groupsOf T → ps = ps'.
Proof using.
  induction (groupsOf T) as [|[h qs] l IH]; [by intros _ ?%not_elem_of_nil|]. simpl. intros [Hh Hl]%NoDup_cons.
  intros [[= -> ->]|H1]%elem_of_cons [[= ->]|H2]%elem_of_cons; subst; try done.
  - destruct Hh. apply list_elem_of_fmap. by exists (h, ps').
  - destruct Hh. apply list_elem_of_fmap. by exists (h, ps).
  - by apply IH.
Qed.

(** A goroutine that is done leaves what it promised. *)
Lemma worldOk_done w T D g q err d :
  worldOk w (TClaim g q :: T) D → d ∈ q err → groupsOf d = [] →
  ∃ gr, groups w !! g = Some gr ∧
    worldOk (setGroups w (<[g := mkGroup (pred (running gr)) (match failed gr with Some e => Some e | None => err end)]> (groups w)))
      T (mkDep g q err d :: D).
Proof using.
  intros [H1 H2 H3 H4 H5 H6 H7 H8 H9] Hd Hgd. simpl in *.
  assert (g ∈ (groupsOf T).*1) as Hg by (apply H8; left; by rewrite decide_True).
  apply list_elem_of_fmap in Hg as ([g' ps] & Eg & Hin). simpl in Eg. subst g'.
  destruct (H7 g ps Hin) as (gr & Hgr & Hok). exists gr. split; [done|]. rewrite decide_True in Hok by done.
  split; simpl; try done.
  - intros g' ps' Hin'. destruct (decide (g' = g)) as [->|Hne].
    + assert (ps' = ps) as -> by by eapply group_unique. eexists. split; [apply list_lookup_insert_eq; by eapply lookup_lt_Some|].
      destruct Hok as [Hr Hp Hf]. simpl in *. unfold depsOf. rewrite filter_cons_True by done. split; simpl.
      * by rewrite Hr.
      * by rewrite Hp, Permutation_middle.
      * unfold depsOf in *. rewrite Forall_cons. simpl. destruct (failed gr); naive_solver.
    + destruct (H7 g' ps' Hin') as (gr' & Hgr' & Hok'). exists gr'. split; [by rewrite list_lookup_insert_ne|].
      rewrite decide_False in Hok' by done. unfold depsOf. by rewrite filter_cons_False.
  - intros g' Hne. destruct (decide (g' = g)) as [->|Hg']; [apply list_elem_of_fmap; by exists (g, ps)|]. apply H8.
    rewrite decide_False by done. unfold depsOf in *. by rewrite filter_cons_False in Hne.
  - by constructor.
Qed.

Lemma worldOk_go w T D g ps q :
  worldOk w (TGroup g ps :: T) D →
  ∃ gr, groups w !! g = Some gr ∧ worldOk (setGroups w (<[g := mkGroup (S (running gr)) (failed gr)]> (groups w))) (TGroup g (q :: ps) :: TClaim g q :: T) D.
Proof using.
  intros [H1 H2 H3 H4 H5 H6 H7 H8 H9]. simpl in *. destruct (H7 g ps) as (gr & Hgr & Hok); [by left|]. exists gr. split; [done|].
  assert (∀ ps', (g, ps') ∉ groupsOf T) as Hnot by (intros ps' Hin; apply NoDup_cons in H6 as [H6 _]; apply H6, list_elem_of_fmap; by exists (g, ps')).
  split; simpl; try done.
  - intros g' ps' [[= -> ->]|Hin]%elem_of_cons.
    + eexists. split; [apply list_lookup_insert_eq; by eapply lookup_lt_Some|]. rewrite decide_True by done.
      destruct Hok as [Hr Hp Hf]. split; simpl; [by rewrite Hr|by rewrite Hp|done].
    + destruct (decide (g' = g)) as [->|Hne]; [by destruct (Hnot ps')|]. destruct (H7 g' ps') as (gr' & Hgr' & Hok'); [by right|].
      exists gr'. rewrite list_lookup_insert_ne, decide_False by done. done.
  - intros g' Hne. destruct (decide (g' = g)) as [->|Hg']; [by left|]. rewrite decide_False in Hne by done. by apply H8.
Qed.

Lemma dtoks_perm D D' : D ≡ₚ D' → dtoks D ≡ₚ dtoks D'.
Proof using. intros H. unfold dtoks. by rewrite H. Qed.

Lemma depsOf_split g D : D ≡ₚ depsOf g D ++ filter (λ d, d_group d ≠ g) D.
Proof using.
  induction D as [|d D IH]; [done|]. unfold depsOf in *. destruct (decide (d_group d = g)).
  - rewrite filter_cons_True, filter_cons_False by naive_solver. by rewrite IH at 1.
  - rewrite filter_cons_False, filter_cons_True by done. rewrite IH at 1. by rewrite Permutation_middle.
Qed.

Lemma deps_toks ds : concat (map (λ d, (d_err d, d_toks d)) ds).*2 = dtoks ds.
Proof using. unfold dtoks. induction ds as [|d ds IH]; simpl; [done|by f_equal]. Qed.

(** When no goroutine of a group is left, what they left is taken. *)
Lemma worldOk_wait w T D g ps :
  worldOk w (TGroup g ps :: T ++ dtoks D) D →
  ∃ gr, groups w !! g = Some gr ∧
    (running gr = 0%nat → ∃ deps D', Forall2 (λ (p : post) d, d.2 ∈ p d.1) ps deps ∧ (failed gr = None ↔ Forall (λ d, d.1 = None) deps) ∧
                                     worldOk w (concat deps.*2 ++ T ++ dtoks D') D').
Proof using.
  intros HW. pose proof HW as [H1 H2 H3 H4 H5 H6 H7 H8 H9]. simpl in *. destruct (H7 g ps) as (gr & Hgr & Hok); [by left|]. exists gr. split; [done|].
  intros Hr. destruct Hok as [Hrun Hp Hf]. rewrite Hr in Hrun. symmetry in Hrun. apply nil_length_inv in Hrun. rewrite Hrun in Hp. simpl in Hp.
  apply Permutation_map_inv in Hp as (ds & -> & Hds). set (D' := filter (λ d, d_group d ≠ g) D).
  exists (map (λ d, (d_err d, d_toks d)) ds), D'.
  rewrite deps_toks.
  assert (D ≡ₚ ds ++ D') as HD by (rewrite <- Hds; apply depsOf_split).
  assert (Forall (λ d, d_toks d ∈ d_post d (d_err d) ∧ groupsOf (d_toks d) = []) (ds ++ D')) as Hdeps by by rewrite <- HD.
  apply Forall_app in Hdeps as [Hdeps Hdeps'].
  split_and!.
  - clear -Hdeps. induction Hdeps as [|d ds [? _]]; constructor; done.
  - rewrite Hf, Hds, Forall_map. done.
  - assert (T ++ dtoks D ≡ₚ dtoks ds ++ T ++ dtoks D') as HT.
    { rewrite (dtoks_perm _ _ HD). unfold dtoks. rewrite map_app, concat_app. by rewrite !app_assoc, (Permutation_app_comm T). }
    apply (worldOk_perm w (T ++ dtoks D)); [done|]. clear HT. apply NoDup_cons in H6 as [Hg H6].
    split; try done.
    + intros g' ps' Hin. assert (g' ≠ g) by (intros ->; apply Hg, list_elem_of_fmap; by exists (g, ps')).
      destruct (H7 g' ps') as (gr' & Hgr' & [Hr' Hp' Hf']); [by right|]. exists gr'. split; [done|].
      assert (depsOf g' D' = depsOf g' D) as ->.
      { unfold depsOf, D'. rewrite list_filter_filter. apply list_filter_iff. naive_solver. }
      by split.
    + intros g' Hne. assert (g' ≠ g) as Hg'.
      { intros ->. destruct Hne as [Hne|Hne]; [done|]. apply Hne. apply elem_of_nil_inv. intros d.
        unfold depsOf, D'. rewrite !list_elem_of_filter. naive_solver. }
      assert (g' ∈ g :: (groupsOf (T ++ dtoks D)).*1) as [->|Hin]%elem_of_cons; [|done..]. apply H8. destruct Hne as [Hne|Hne]; [by left|right]. intros E. apply Hne, elem_of_nil_inv.
      intros d. unfold depsOf, D'. rewrite !list_elem_of_filter. intros (Hd & _ & Hin).
      apply (not_elem_of_nil d). rewrite <- E. unfold depsOf. by apply list_elem_of_filter.
Qed.

(** ** Soundness *)

(** What an effect does to the tokens, given those of the others. *)
Definition good {X} (Q : X → list token → Prop) (R : list token) (r : option (option X * world)) : Prop :=
  match r with
  | None => True
  | Some (None, _) => False
  | Some (Some x, w) => ∃ c D, consistent w (c ++ R) D ∧ Q x c
  end.

Lemma reqs_conns_le db T : (length (reqs db T) ≤ length (conns db T))%nat.
Proof using. apply reqs_conns. Qed.

Ltac tok_simpl := cbn [conns reqs closings omap list_omap app]; rewrite ?decide_True by done.

Lemma good_db w db d ts ts' c R D {X} (Q : X → list token → Prop) x :
  Forall (λ t, tokDb t = Some db) ts → Forall (λ t, tokDb t = Some db) ts' →
  consistent w ((ts ++ c) ++ R) D → (∀ T, T = (c ++ R) ++ dtoks D → dbOk (dbs w db) (conns db (ts ++ T)) (reqs db (ts ++ T)) (closings db (ts ++ T)) →
     dbOk d (conns db (ts' ++ T)) (reqs db (ts' ++ T)) (closings db (ts' ++ T))) →
  Q x (ts' ++ c) → good Q R (Some (Some x, setDB w db d)).
Proof using.
  intros Hts Hts' HW Hd HQ. exists (ts' ++ c), D. split; [|done]. unfold consistent in *. rewrite <- !app_assoc in *.
  eapply worldOk_db; [exact Hts|done|done|]. apply Hd; [done|]. apply HW.
Qed.

Lemma good_conn a w X (e : effect X) db Q c R D :
  match e with EInc d | EDec d | EPut d _ | EPutNil d _ => d = db | _ => False end →
  consistent w (c ++ R) D → pre e Q c → good Q R (perform a w e).
Proof using.
  intros He HW H. destruct e; try done; simpl in H, He; subst.
  - destruct H as (x & c' & Hc & H). apply (consistent_perm _ _ ((TConn db x :: c') ++ R)) in HW; [|by rewrite Hc].
    eapply (good_db w db _ [TConn db x] [TReq db x]); [by repeat constructor..|exact HW| |apply H].
    intros T _. tok_simpl. apply dbOk_inc, reqs_conns_le.
  - destruct H as (x & c' & Hc & H). apply (consistent_perm _ _ ((TReq db x :: c') ++ R)) in HW; [|by rewrite Hc].
    assert (dbOk (dbs w db) (x :: conns db ((c' ++ R) ++ dtoks D)) (x :: reqs db ((c' ++ R) ++ dtoks D)) (closings db ((c' ++ R) ++ dtoks D))) as Hd.
    { pose proof (w_dbs _ _ _ HW db) as Hd. revert Hd. tok_simpl. done. }
    apply dbOk_dec in Hd as [Hd En].
    eapply (good_db w db _ [TReq db x] [TConn db x]); [by repeat constructor..|exact HW| |].
    + intros T -> _. tok_simpl. exact Hd.
    + apply H. rewrite En. intros Hz. assert (length (reqs db ((c' ++ R) ++ dtoks D)) = 0%nat) as Hl by lia.
      apply nil_length_inv in Hl. unfold reqs in Hl. rewrite !omap_app in Hl. by apply app_eq_nil in Hl as [[? _]%app_eq_nil _].
  - destruct H as (c' & Hc & H). apply (consistent_perm _ _ ((TConn db c0 :: c') ++ R)) in HW; [|by rewrite Hc].
    pose proof (w_dbs _ _ _ HW db) as Hd. revert Hd. tok_simpl. intros Hd.
    destruct (dbOk_put _ _ _ _ c0 (toOutcome (a_made a)) (a_now a) (Some c0) (or_intror eq_refl) (reqs_conns_le _ _) Hd) as (rp & Hput & Hok).
    simpl. rewrite Hput. eapply (good_db w db _ [TConn db c0] []); [by repeat constructor..|exact HW| |exact H]. intros T -> _. exact Hok.
  - destruct H as (c' & Hc & H). apply (consistent_perm _ _ ((TConn db c0 :: c') ++ R)) in HW; [|by rewrite Hc].
    pose proof (w_dbs _ _ _ HW db) as Hd. revert Hd. tok_simpl. intros Hd.
    destruct (dbOk_put _ _ _ _ c0 (toOutcome (a_made a)) (a_now a) None (or_introl eq_refl) (reqs_conns_le _ _) Hd) as (rp & Hput & Hok).
    simpl. rewrite Hput. eapply (good_db w db _ [TConn db c0] []); [by repeat constructor..|exact HW| |exact H]. intros T -> _. exact Hok.
Qed.

Lemma good_same w c R D {X} (Q : X → list token → Prop) x : consistent w (c ++ R) D → Q x c → good Q R (Some (Some x, w)).
Proof using. intros HW HQ. by exists c, D. Qed.

Lemma good_pool a w X (e : effect X) db Q c R D :
  match e with EGrow d | EGet d | EClose d | ETake d | ECloseChan d | ECas d => d = db | _ => False end →
  consistent w (c ++ R) D → pre e Q c → good Q R (perform a w e).
Proof using.
  intros He HW H. pose proof (w_dbs _ _ _ HW db) as Hdb. destruct e; try done; simpl in H, He; subst; simpl.
  - destruct (closed (dbs w db)); [by eapply good_same|]. eapply (good_db w db _ [] []); [constructor..|exact HW| |apply H].
    intros T _ [? ? ? ? ?]. by split.
  - destruct (_ <? 1); [|by eapply good_same]. destruct (SetCapacity _ _) as [rp [[n t|n|]|e| |]] eqn:Es; try (by eapply good_same); [done|].
    destruct (addMany n rp) as [rp'|] eqn:Ea; [|done]. eapply (good_db w db _ [] []); [constructor..|exact HW| |exact H].
    intros T _ Hok. by eapply dbOk_grow.
  - destruct (Get _ _ _ _) as [[rp o]|] eqn:Eg; [|done]. destruct (Get_answers _ _ _ _ _ _ Eg) as [[x ->]|[e ->]].
    + eapply (good_db w db _ [] [TConn db x]); [by repeat constructor..|exact HW| |apply H]. intros T _ Hok. tok_simpl. by eapply dbOk_get.
    + eapply (good_db w db _ [] []); [constructor..|exact HW| |apply H]. intros T _ Hok. by eapply dbOk_get_fails.
  - destruct H as [H1 H2]. destruct (Close _) as [rp [[n t|n|]|e| |]] eqn:Ec; try (by eapply good_same).
    eapply (good_db w db _ [] [TClosing db n]); [by repeat constructor..|exact HW| |apply H2]. intros T _ Hok.
    destruct (dbOk_close _ _ _ _ _ _ _ Ec Hok) as [E Hok'].
    assert (closings db ([TClosing db n] ++ T) = [n]) as -> by (unfold closings; simpl; rewrite decide_True by done; f_equal; exact E).
    exact Hok'.
  - destruct H as (_ & n & c' & Hc & H). apply (consistent_perm _ _ ((TClosing db (S n) :: c') ++ R)) in HW; [|by rewrite Hc].
    pose proof (w_dbs _ _ _ HW db) as Hd. revert Hd. tok_simpl. intros Hd. destruct (takeOne _) as [rp|] eqn:Et.
    + destruct (dbOk_take _ _ _ _ _ _ Et Hd) as [-> Hok].
      eapply (good_db w db _ [TClosing db (S n)] [TClosing db n]); [by repeat constructor..|exact HW| |exact H]. intros T -> _. tok_simpl. exact Hok.
    + by destruct (shrinking _) as [[[] ]|].
  - destruct H as (c' & Hc & H). apply (consistent_perm _ _ ((TClosing db 0 :: c') ++ R)) in HW; [|by rewrite Hc].
    pose proof (w_dbs _ _ _ HW db) as Hd. revert Hd. tok_simpl. intros Hd.
    eapply (good_db w db _ [TClosing db 0] []); [by repeat constructor..|exact HW| |exact H]. intros T -> _. by apply dbOk_closeChan.
Qed.

Ltac take_token HW E := apply (consistent_perm _ _ _ _ (Permutation_app_tail _ E)) in HW.
Lemma good_heap a w X (e : effect X) Q c R D :
  match e with
  | ENewBranch _ | EBranch _ | EModBranch _ _ | ECasBranch _ | ENewTx _ | ETx _ | EModTx _ _ | ECasTx _ | ENewHook _ | EHook _ | EModHook _ _ => True
  | _ => False end →
  consistent w (c ++ R) D → pre e Q c → good Q R (perform a w e).
Proof using.
  intros He HW H. destruct e; try done; simpl in H; simpl.
  - destruct HW as [H1 H2 H3 H4 H5 H6 H7 H8 H9]. eexists (_ :: _), D. split; [|apply H]. split; try done. by apply heapOk_alloc.
  - destruct H as (r & c' & Hc & H). take_token HW Hc. pose proof (heapOk_head _ _ _ _ (w_branches _ _ _ HW)) as ->. by eapply good_same.
  - destruct H as (r & c' & Hc & H). take_token HW Hc. pose proof (heapOk_head _ _ _ _ (w_branches _ _ _ HW)) as ->.
    destruct HW as [H1 H2 H3 H4 H5 H6 H7 H8 H9]. eexists (_ :: _), D. split; [|exact H]. split; try done. exact (heapOk_update _ _ _ _ _ H2).
  - destruct H as (r & c' & Hc & H). take_token HW Hc. pose proof (heapOk_head _ _ _ _ (w_branches _ _ _ HW)) as ->.
    destruct (bclosed r) eqn:Eb.
    + eapply good_same; [exact HW|]. unfold setBClosed in H. rewrite <- Eb in H at 2. by destruct r.
    + destruct HW as [H1 H2 H3 H4 H5 H6 H7 H8 H9]. eexists (_ :: _), D. split; [|exact H]. split; try done. exact (heapOk_update _ _ _ _ _ H2).
  - destruct HW as [H1 H2 H3 H4 H5 H6 H7 H8 H9]. eexists (_ :: _), D. split; [|apply H]. split; try done. by apply heapOk_alloc.
  - destruct H as (r & c' & Hc & H). take_token HW Hc. pose proof (heapOk_head _ _ _ _ (w_txs _ _ _ HW)) as ->. by eapply good_same.
  - destruct H as (r & c' & Hc & H). take_token HW Hc. pose proof (heapOk_head _ _ _ _ (w_txs _ _ _ HW)) as ->.
    destruct HW as [H1 H2 H3 H4 H5 H6 H7 H8 H9]. eexists (_ :: _), D. split; [|exact H]. split; try done. exact (heapOk_update _ _ _ _ _ H3).
  - destruct H as (r & c' & Hc & H). take_token HW Hc. pose proof (heapOk_head _ _ _ _ (w_txs _ _ _ HW)) as ->.
    destruct (tclosed r) eqn:Eb.
    + eapply good_same; [exact HW|]. unfold setTClosed in H. rewrite <- Eb in H at 2. by destruct r.
    + destruct HW as [H1 H2 H3 H4 H5 H6 H7 H8 H9]. eexists (_ :: _), D. split; [|exact H]. split; try done. exact (heapOk_update _ _ _ _ _ H3).
  - destruct HW as [H1 H2 H3 H4 H5 H6 H7 H8 H9]. eexists (_ :: _), D. split; [|apply H]. split; try done. by apply heapOk_alloc.
  - destruct H as (r & c' & Hc & H). take_token HW Hc. pose proof (heapOk_head _ _ _ _ (w_hooks _ _ _ HW)) as ->. by eapply good_same.
  - destruct H as (r & c' & Hc & H). take_token HW Hc. pose proof (heapOk_head _ _ _ _ (w_hooks _ _ _ HW)) as ->.
    destruct HW as [H1 H2 H3 H4 H5 H6 H7 H8 H9]. eexists (_ :: _), D. split; [|exact H]. split; try done. exact (heapOk_update _ _ _ _ _ H4).
Qed.

Lemma perform_ok a w X (e : effect X) Q c R D : consistent w (c ++ R) D → pre e Q c → good Q R (perform a w e).
Proof using.
  intros HW H. destruct e as [db|db|db|db|db|db|db|db x|db x|db|db|db|x|x cmd|r|b|b f|b|r|t|t f|t|r|h|h f|l| |g err|g];
    try (by eapply good_conn); try (by eapply good_pool); try (by eapply good_heap).
  - by eapply good_same.
  - simpl in H. eapply good_same; [done|]. apply H. rewrite (db_pending _ _ _ _ (w_dbs _ _ _ HW db)). intros Hz.
    assert (length (reqs db ((c ++ R) ++ dtoks D)) = 0%nat) as Hl by lia. apply nil_length_inv in Hl.
    unfold reqs in Hl. rewrite !omap_app in Hl. by apply app_eq_nil in Hl as [[? _]%app_eq_nil _].
  - by eapply good_same.
  - simpl in *. destruct H as [Hok Hfail]. destruct (a_reply a) as [r|e]; [|eapply good_same; [exact HW|apply Hfail]].
    destruct HW as [H1 H2 H3 H4 H5 H6 H7 H8 H9]. destruct (Hok r) as [Hran|Hno].
    + exists (TRan x cmd :: c), D. split; [|done]. split; try done.
      intros y [->|Hy]%elem_of_cons; apply elem_of_app; [right; by left|left; by apply H5].
    + exists c, D. split; [|done]. split; try done. intros y Hy. apply elem_of_app. left. by apply H5.
  - simpl in *. eapply good_same; [done|apply H].
  - exists (TGroup (length (groups w)) [] :: c), D. split; [by apply worldOk_newGroup|apply H].
  - destruct H as (q & d & Hc & Hd & Hg & H). take_token HW Hc. destruct (worldOk_done _ _ _ _ _ err d HW Hd Hg) as (gr & Hgr & Hok).
    simpl. rewrite Hgr. exists [], (mkDep g q err d :: D). split; [|done]. eapply worldOk_perm; [|exact Hok].
    unfold dtoks. simpl. by rewrite !app_assoc, (Permutation_app_comm d R).
  - destruct H as (ps & c' & Hc & H). take_token HW Hc. destruct (worldOk_wait _ _ _ _ _ HW) as (gr & Hgr & Hw). simpl. rewrite Hgr.
    destruct (running gr) as [|n]; [|done]. destruct (Hw eq_refl) as (deps & D' & Hdeps & Hf & Hok).
    exists (concat deps.*2 ++ c'), D'. split; [|by apply H]. unfold consistent. by rewrite <- !app_assoc in *.
Qed.

(** ** The machine *)

(** The goroutines have tokens, all of them consistent with the world. *)
Definition invariant (s : list prog * world) : Prop :=
  ∃ rs D, Forall2 wp (fst s) rs ∧ consistent (snd s) (concat rs) D.

Lemma concat_tokens (rs : list (list token)) i c :
  rs !! i = Some c → ∃ R, concat rs ≡ₚ c ++ R ∧ ∀ c', concat (<[i := c']> rs) ≡ₚ c' ++ R.
Proof using.
  intros Hi. exists (concat (take i rs) ++ concat (drop (S i) rs)).
  assert (∀ c', concat (<[i := c']> rs) ≡ₚ c' ++ concat (take i rs) ++ concat (drop (S i) rs)) as H.
  { intros c'. rewrite insert_take_drop by (by eapply lookup_lt_Some). rewrite concat_app. simpl.
    rewrite !app_assoc. apply Permutation_app_tail, Permutation_app_comm. }
  split; [|done]. rewrite <- H. by rewrite list_insert_id.
Qed.

Lemma stepAt_invariant i a s s' : invariant s → stepAt i a s = Some s' → invariant s'.
Proof using.
  destruct s as [ps w]. intros (rs & D & Hps & HW) Hstep. simpl in *. destruct (ps !! i) as [p|] eqn:Ei; [|done].
  destruct (Forall2_lookup_l _ _ _ _ _ Hps Ei) as (c & Hc & Hp). destruct (concat_tokens _ _ _ Hc) as (R & HR & HR').
  apply (consistent_perm _ _ _ _ HR) in HW. destruct p as [| |X e k|g p k]; try done.
  - pose proof (perform_ok a w X e _ c R D HW Hp) as Hgood. destruct (perform a w e) as [[[x|] w']|]; [|done..]. injection Hstep as <-.
    destruct Hgood as (c' & D' & HW' & Hk). exists (<[i := c']> rs), D'. split; [by apply Forall2_insert|].
    by apply (consistent_perm _ (c' ++ R)); [rewrite HR'|].
  - destruct Hp as (qs & q & c1 & c2 & Ec & Hp & Hk). take_token HW Ec. destruct (worldOk_go w _ D g qs q HW) as (gr & Hgr & Hok).
    rewrite Hgr in Hstep. injection Hstep as <-. exists (<[i := TGroup g (q :: qs) :: c2]> rs ++ [TClaim g q :: c1]), D. split.
    + apply Forall2_app; [by apply Forall2_insert|by constructor].
    + simpl. apply (worldOk_perm _ (TGroup g (q :: qs) :: TClaim g q :: ((c1 ++ c2) ++ R) ++ dtoks D)); [|exact Hok].
      rewrite concat_app, HR'. simpl. rewrite app_nil_r. constructor.
      rewrite <- Permutation_middle. constructor. apply Permutation_app_tail. rewrite <- app_assoc. apply Permutation_app_comm.
Qed.

Lemma mstep_invariant s s' : invariant s → mstep s s' → invariant s'.
Proof using.
  intros Hs H. destruct H as [i a s s' H|db made now ps w]; [by eapply stepAt_invariant|]. destruct Hs as (rs & D & Hps & HW).
  exists rs, D. split; [done|]. apply (worldOk_db w db _ [] [] (concat rs ++ dtoks D)); [constructor..|done|].
  eapply dbOk_step; [| | |done|apply HW]; [|apply (w_dbs _ _ _ HW db)..]. simpl. destruct (sys (dbs w db)). apply step_idle.
Qed.

Lemma msteps_invariant s s' : rtc mstep s s' → invariant s → invariant s'.
Proof using. induction 1; eauto using mstep_invariant. Qed.
End Logic.
