(* ===== verification/TransactionSpecs.v ===== *)
(** * The transactions in the logic

    What the operations of [Transaction] need and leave, and what follows for
    all interleavings of clients: connections and requests are balanced, a
    commit that succeeds has committed every branch, and a transaction that
    closes a pool never waits for itself. *)
From S2P Require Import Prelude GoStd Value Optimize Namespace Pool PoolTheory Transaction TransactionTheory.

(** ** Atom databases *)

Section Specs.
Context (strict : bool).
#[local] Abbreviation wp := (wp strict).

(** Computes the continuations of the code. *)
Ltac run := cbv beta iota delta [bind ret eff crash].

(** Every connection counts as a request. *)
Definition settled (c : list token) : Prop := ∀ db, conns db c = reqs db c.

Lemma wp_takeAll db n k c :
  (strict = true → conns db c = [] ∧ groupsOf c = []) → wp (k tt) (TClosing db 0 :: c) → wp (takeAll db n k) (TClosing db n :: c).
Proof using.
  intros Hs Hk. induction n as [|n IH]; [done|]. simpl. split; [exact Hs|]. by exists n, c.
Qed.

Lemma wp_closePool db k c : (strict = true → conns db c = [] ∧ groupsOf c = []) → wp (k tt) c → wp (closePool db k) c.
Proof using.
  intros Hs Hk. split; [done|]. intros n. apply wp_takeAll; [done|]. by exists c.
Qed.

Lemma wp_undoPending db x k c : strict = false → wp (k tt) (TConn db x :: c) → wp (undoPending db k) (TReq db x :: c).
Proof using.
  intros Hs Hk. exists x, c. split; [done|]. intros n _. destruct (n =? 0)%Z; [|done]. intros b. destruct b; [|done].
  apply wp_closePool; [congruence|done].
Qed.

(** A connection that is given up leaves nothing behind, and the pool is not
    closed before. *)
Lemma wp_giveUp db x k c : settled c → groupsOf c = [] → wp (k tt) c → wp (giveUp db x k) (TReq db x :: c).
Proof using.
  intros Hset Hg Hk. exists x, c. split; [done|]. intros n Hn. exists c. split; [done|]. destruct (Z.eqb_spec n 0) as [Hz|]; [|done].
  intros b. destruct b; [|done]. apply wp_closePool; [|done]. intros _. split; [|done]. rewrite Hset. by apply Hn.
Qed.

Lemma wp_borrowConnection db k c :
  (∀ x, wp (k (inl x)) (TConn db x :: c)) → (∀ e, wp (k (inr e)) c) → wp (borrowConnection db k) c.
Proof using.
  intros Hok Hfail. split; [|by intros e; apply Hfail]. intros x b. destruct b; [apply Hok|]. exists c. split; [done|]. split; [apply Hok|].
  intros e. apply Hfail.
Qed.

(** A command whose success need not be remembered. *)
Lemma wp_send x cmd k c : (∀ r, wp (k (inl r)) c) → (∀ e, wp (k (inr e)) c) → wp (eff (ESend x cmd) k) c.
Proof using. intros Hok Hfail. split; [|done]. intros r. right. apply Hok. Qed.

Lemma wp_callFunc f txId x sql k c :
  f ≠ prepareNothing → funcText f txId = Some sql →
  (∀ r, wp (k (inl (Some r))) (TRan x (ExecuteWithWarningCount sql) :: c) ∨ wp (k (inl (Some r))) c) → (∀ e, wp (k (inr e)) c) →
  wp (callFunc f txId (Some x) k) c.
Proof using.
  intros Hf Hsql Hok Hfail. destruct f; try done; unfold callFunc; rewrite Hsql; (split; [|done]); intros r; apply Hok.
Qed.

Lemma wp_AtomDB_Close db k c : settled c → groupsOf c = [] → wp (k tt) c → wp (AtomDB_Close db k) c.
Proof using.
  intros Hset Hg Hk. intros b. destruct b; [|done]. intros n Hn. destruct (Z.eqb_spec n 0) as [Hz|]; [|done].
  apply wp_closePool; [|done]. intros _. split; [|done]. rewrite Hset. by apply Hn.
Qed.

(** The operations outside of transactions; they close a pool while they hold
    one of its connections. *)
Lemma wp_AtomDB_Variable db transient name k c : strict = false → (∀ r, wp (k r) c) → wp (AtomDB_Variable db transient name k) c.
Proof using.
  intros Hs Hk b. destruct b; [apply Hk|]. unfold AtomDB_Variable. simpl. destruct (transient !! name); [apply Hk|].
  apply wp_borrowConnection; [|intros e; apply Hk]. intros x. exists x, c. split; [done|]. intros n.
  apply wp_send; intros r; (apply wp_undoPending; [done|]); exists c; (split; [done|]); apply Hk.
Qed.

Lemma wp_AtomDB_CallFieldList db table wildcard k c :
  strict = false → (∀ r, wp (k r) c) → wp (AtomDB_CallFieldList db table wildcard k) c.
Proof using.
  intros Hs Hk b. destruct b; [apply Hk|]. apply wp_borrowConnection; [|intros e; apply Hk]. intros x. exists x, c. split; [done|]. intros n.
  apply wp_send; intros r; (apply wp_undoPending; [done|]); exists c; (split; [done|]); apply Hk.
Qed.

Lemma wp_AtomDB_Call db transient sql args k c :
  strict = false → (∀ rep x, wp (k (inl (rep, x))) (TReq db x :: c)) → (∀ e, wp (k (inr e)) c) → wp (AtomDB_Call db transient sql args k) c.
Proof using.
  intros Hs Hok Hfail b. destruct b; [apply Hfail|]. apply wp_borrowConnection; [|intros e; apply Hfail]. intros x. exists x, c. split; [done|]. intros n.
  assert (∀ e, wp (undoPending db (λ _, returnConnection db x (λ _, k (inr e)))) (TReq db x :: c)) as Hgive.
  { intros e. apply wp_undoPending; [done|]. exists c. split; [done|]. apply Hfail. }
  apply wp_send; [|apply Hgive]. intros _. apply wp_send; [|apply Hgive]. intros r. apply Hok.
Qed.

Lemma wp_closeResult db x k c : strict = false → wp (k tt) c → wp (closeResult db x k) (TReq db x :: c).
Proof using. intros Hs Hk. apply wp_undoPending; [done|]. by exists c. Qed.

(** ** Branches *)

(** A branch that is open on a connection, and one that is over. *)
Definition openBranch (db : string) (x : nat) (st : option TxState) : branchTx :=
  mkBranch false (Some db) st prepareNothing commitPlain rollbackPlain (Some x).
Definition closedBranch (st : TxState) : branchTx := mkBranch true None (Some st) prepareNothing commitPlain rollbackPlain None.

Lemma wp_AtomDB_begin db txId k c :
  settled c → groupsOf c = [] → (∀ b x, wp (k (inl b)) (TBranch b (openBranch db x None) :: TReq db x :: c)) → (∀ e, wp (k (inr e)) c) →
  wp (AtomDB_begin db beginPlain txId k) c.
Proof using.
  intros Hset Hg Hok Hfail b. destruct b; [apply Hfail|]. apply wp_borrowConnection; [|intros e; apply Hfail]. intros x. exists x, c. split; [done|]. intros n.
  assert (∀ e, wp (giveUp db x (λ _, k (inr e))) (TReq db x :: c)) as Hgive by (intros e; by apply wp_giveUp).
  run. apply (wp_callFunc beginPlain txId x "begin"); [done|done| |intros e; apply Hgive].
  intros rep. right. destruct (rowsAffected rep); [|apply Hgive]. intros b. apply Hok.
Qed.

Lemma wp_dispose b r db x k c :
  settled c → groupsOf c = [] → parent r = Some db → bc r = Some x →
  wp (k tt) (TBranch b (disconnect r) :: c) → wp (branchTx_dispose b k) (TBranch b r :: TReq db x :: c).
Proof using.
  intros Hset Hg Hp Hb Hk. exists r, (TReq db x :: c). split; [done|]. rewrite Hp, Hb.
  eapply wp_perm; [apply Permutation_swap|]. apply wp_giveUp; [done..|]. by exists r, c.
Qed.

Lemma wp_branchTx_Prepare b db x st txId k c :
  wp (k None) (TBranch b (openBranch db x (Some TrxPrepared)) :: c) → wp (branchTx_Prepare b txId k) (TBranch b (openBranch db x st) :: c).
Proof using.
  intros Hk. eexists _, c. split; [done|]. eexists _, c. split; [done|]. eexists _, c. by split.
Qed.

Lemma wp_branchTx_Commit b db x st txId k c :
  settled c → groupsOf c = [] →
  (∀ r, wp (k (inl r)) (TBranch b (closedBranch TrxCommitted) :: TRan x (ExecuteWithWarningCount "commit") :: c)) →
  (∀ e st, st = TrxAborting ∨ st = TrxCommitting → wp (k (inr e)) (TBranch b (closedBranch st) :: c)) →
  wp (branchTx_Commit b txId k) (TBranch b (openBranch db x st) :: TReq db x :: c).
Proof using.
  intros Hset Hg Hok Hfail. do 3 (eexists _, (TReq db x :: c); split; [done|]). run.
  set (r := setBClosed (setState TrxCommitting (openBranch db x st))).
  apply (wp_callFunc commitPlain txId x "commit"); [done|done| |].
  - intros rep. assert (∀ e, wp (branchTx_dispose b (λ _, k (inr e))) (TBranch b r :: TReq db x :: c)) as Hbad.
    { intros e. apply (wp_dispose _ _ db x); [done..|]. by apply Hfail; right. }
    destruct (rowsAffected rep) as [affected|e]; [|right; apply Hbad]. destruct (lastInsertId rep) as [id|e]; [|right; apply Hbad]. left.
    eexists r, (TRan x (ExecuteWithWarningCount "commit") :: TReq db x :: c). split; [apply Permutation_swap|].
    eapply wp_perm; [apply Permutation_skip, Permutation_swap|]. by apply (wp_dispose _ _ db x).
  - intros e. eexists _, _. split; [done|]. apply (wp_dispose _ _ db x); [done..|]. by apply Hfail; left.
Qed.

Lemma wp_branchTx_Rollback b db x st txId k c :
  settled c → groupsOf c = [] →
  wp (k None) (TBranch b (closedBranch TrxRolledBack) :: TRan x (ExecuteWithWarningCount "rollback") :: c) →
  (∀ e, wp (k (Some e)) (TBranch b (closedBranch TrxRolledBack) :: c)) →
  wp (branchTx_Rollback b txId k) (TBranch b (openBranch db x st) :: TReq db x :: c).
Proof using.
  intros Hset Hg Hok Hfail. do 3 (eexists _, (TReq db x :: c); split; [done|]). run.
  apply (wp_callFunc rollbackPlain txId x "rollback"); [done|done| |].
  - intros rep. left. eexists _, (TRan x (ExecuteWithWarningCount "rollback") :: TReq db x :: c). split; [apply Permutation_swap|].
    eapply wp_perm; [apply Permutation_skip, Permutation_swap|]. by apply (wp_dispose _ _ db x).
  - intros e. eexists _, _. split; [done|]. apply (wp_dispose _ _ db x); [done..|]. apply Hfail.
Qed.

Lemma wp_branchTx_Call b r x sql args k c c' :
  c ≡ₚ TBranch b r :: c' → bc r = Some x → (∀ rep, wp (k rep) c) → wp (branchTx_Call b sql args k) c.
Proof using.
  intros Hc Hb Hk. exists r, c'. split; [done|]. rewrite Hb. apply wp_send; intros rep; (eapply wp_perm; [by symmetry|]); apply Hk.
Qed.

(** ** Hooks that are not enabled *)

Definition quiet (hs : list nat) (c : list token) : Prop := ∀ h, h ∈ hs → ∃ hk c', c ≡ₚ THook h hk :: c' ∧ enable hk = false.

Lemma quiet_perm hs c c' : c ≡ₚ c' → quiet hs c → quiet hs c'.
Proof using. intros Hc Hq h Hh. destruct (Hq h Hh) as (hk & d & Hd & He). exists hk, d. by rewrite <- Hc. Qed.

Lemma quiet_cons hs t c : quiet hs c → quiet hs (t :: c).
Proof using.
  intros Hq h Hh. destruct (Hq h Hh) as (hk & d & Hd & He). exists hk, (t :: d). split; [|done]. rewrite Hd. apply Permutation_swap.
Qed.

Section Composite.
Context {I : MapIter} {IL : MapIterLaws I} {Ru : Type} (Intn : Z → Z) (ns : Namespace (Ru := Ru)).

Lemma wp_hooks hs state t txId k c :
  quiet hs c → wp (k tt) c → wp (each hs (λ h, bind (OnTxStateChange h state t txId) (λ _, ret tt)) k) c.
Proof using.
  intros Hq Hk. induction hs as [|h hs IH]; [done|]. destruct (Hq h) as (hk & d & Hd & He); [by left|].
  exists hk, d. split; [done|]. rewrite He. run. simpl negb. eapply wp_perm; [exact Hd|]. apply IH. intros h' Hh'. apply Hq. by right.
Qed.

Definition setTrxState (state : TxState) (tx : compositeTx) : compositeTx :=
  mkTx (tenant tx) (tclosed tx) (trxID tx) (Some state) (beginFunc tx) (rt tx) (txs tx) (txHooks tx).

Lemma wp_setTxState t r state txId k c :
  quiet (txHooks r) c → wp (k tt) (TTx t (setTrxState state r) :: c) → wp (setTxState t state txId k) (TTx t r :: c).
Proof using.
  intros Hq Hk. do 2 (eexists _, c; split; [done|]). apply wp_hooks; [by apply quiet_cons|done].
Qed.

(** ** Composite transactions *)

(** A branch of a transaction, and its tokens. *)
Record item := mkItem { it_b : nat; it_db : string; it_x : nat; it_st : option TxState }.
Definition toks (it : item) : list token := [TBranch (it_b it) (openBranch (it_db it) (it_x it) (it_st it)); TReq (it_db it) (it_x it)].
Definition itemsToks (l : list item) : list token := concat (map toks l).
Definition infoToks (info : gmap string item) : list token := itemsToks (map_to_list info).*2.

(** A transaction that is open: its branches are open on their connections. *)
Record txOwn (t : nat) (hs : list nat) (r : compositeTx) (info : gmap string item) (c T : list token) : Prop := mkOwn {
  own_toks : T ≡ₚ TTx t r :: infoToks info ++ c;
  own_closed : tclosed r = false;
  own_rt : rt r = true;
  own_txs : txs r = Some (it_b <$> info);
  own_begin : beginFunc r = beginPlain;
  own_hooks : txHooks r = hs;
}.

Lemma omap_itemsToks {B} (f : token → option B) l : (∀ it, omap f (toks it) = []) → omap f (itemsToks l) = [].
Proof using. intros Hf. induction l as [|it l IH]; [done|]. change (itemsToks (it :: l)) with (toks it ++ itemsToks l). by rewrite omap_app, Hf, IH. Qed.

Lemma settled_itemsToks l c : settled c → settled (itemsToks l ++ c).
Proof using.
  intros Hc db. induction l as [|it l IH]; [apply Hc|]. unfold itemsToks in *. simpl.
  unfold conns, reqs in *. simpl. case_decide; [by f_equal|done].
Qed.

Lemma groups_itemsToks l c : groupsOf c = [] → groupsOf (itemsToks l ++ c) = [].
Proof using. intros Hc. unfold groupsOf in *. by rewrite omap_app, omap_itemsToks. Qed.

Lemma infoToks_insert info group it : info !! group = None → infoToks (<[group := it]> info) ≡ₚ toks it ++ infoToks info.
Proof using. intros Hn. unfold infoToks, itemsToks. by rewrite map_to_list_insert. Qed.

Lemma infoToks_lookup info group it c :
  info !! group = Some it → ∃ T, infoToks info ++ c ≡ₚ TBranch (it_b it) (openBranch (it_db it) (it_x it) (it_st it)) :: T.
Proof using.
  intros Hi. exists (TReq (it_db it) (it_x it) :: infoToks (delete group info) ++ c).
  rewrite <- (insert_delete_id info group it) at 1 by done. rewrite infoToks_insert; [done|]. apply lookup_delete_eq.
Qed.

Lemma selectDB_write ctx group : IsRead ctx = false → ∃ o, selectDB Intn (WithWrite ctx) group ns = Ok o.
Proof using.
  intros Hr. assert (IsRead (WithWrite ctx) = false) as E.
  { unfold IsRead, hasFlag, WithWrite, withFlag in *. cbn [flag]. by rewrite Z.land_lor_distr_l. }
  unfold selectDB. rewrite E. simpl. by eexists.
Qed.

Lemma own_perm t hs r info c T T' : T ≡ₚ T' → txOwn t hs r info c T → txOwn t hs r info c T'.
Proof using. intros HT [H1 H2 H3 H4 H5 H6]. split; try done. by rewrite <- HT. Qed.

Lemma own_branch t hs r info c T group it :
  txOwn t hs r info c T → info !! group = Some it → ∃ T', T ≡ₚ TBranch (it_b it) (openBranch (it_db it) (it_x it) (it_st it)) :: T'.
Proof using.
  intros [HT _ _ _ _ _] Hi. destruct (infoToks_lookup info group it c Hi) as [T' E]. exists (TTx t r :: T'). rewrite HT, E. apply Permutation_swap.
Qed.

(** Starting a branch: the transaction stays open, with the branch. *)
Lemma wp_compositeTx_begin t hs r info c T ctx group k :
  settled c → groupsOf c = [] → IsRead ctx = false → txOwn t hs r info c T →
  (∀ r' info' it T', txOwn t hs r' info' c T' → info' !! group = Some it → wp (k (inl (it_b it))) T') →
  (∀ e T', txOwn t hs r info c T' → wp (k (inr e)) T') → wp (compositeTx_begin Intn ns t ctx group k) T.
Proof using.
  intros Hset Hg Hr Hown Hok Hfail. pose proof Hown as [HT Hcl Hrt Htx Hbe Hho]. exists r, (infoToks info ++ c). split; [done|]. run.
  rewrite Htx. change (default ∅ (Some (it_b <$> info))) with (it_b <$> info). rewrite lookup_fmap. destruct (info !! group) as [it|] eqn:Ei; simpl.
  { eapply wp_perm; [by symmetry|]. by eapply Hok. }
  rewrite Hrt. simpl. assert (∀ e, wp (k (inr e)) (TTx t r :: infoToks info ++ c)) as Hbad by (intros e; apply Hfail; by eapply own_perm).
  destruct (selectDB_write ctx group Hr) as [[db|] ->]; [|apply Hbad]. rewrite Hbe.
  apply wp_AtomDB_begin; [by apply (settled_itemsToks _ c)|by apply (groups_itemsToks _ c)| |apply Hbad].
  intros b x. eexists r, (toks (mkItem b (db_ID db) x None) ++ infoToks info ++ c). split.
  { symmetry. apply (Permutation_middle (toks (mkItem b (db_ID db) x None))). }
  eapply (Hok (mkTx (tenant r) (tclosed r) (trxID r) (txState r) (beginFunc r) (rt r) (insert group b <$> txs r) (txHooks r))
    (<[group := mkItem b (db_ID db) x None]> info) (mkItem b (db_ID db) x None)); [|apply lookup_insert_eq].
  split; simpl; try done; [by rewrite infoToks_insert|by rewrite Htx, fmap_insert].
Qed.

Lemma wp_firstGroup t hs r info c T k :
  DBGroups ns ≠ [] → txOwn t hs r info c T → (∀ g T', txOwn t hs r info c T' → wp (k g) T') → wp (firstGroup ns t k) T.
Proof using.
  intros Hne Hown Hk. pose proof Hown as [HT Hcl Hrt Htx Hbe Hho]. exists r, (infoToks info ++ c). split; [done|]. run. rewrite Hrt. simpl.
  destruct (DBGroups ns) as [|g l]; [done|]. apply Hk. by eapply own_perm.
Qed.

(** What a statement leaves: the transaction, open, with its branches. *)
Definition keeps (t : nat) (hs : list nat) (c : list token) (p : prog) : Prop := ∀ r info T, txOwn t hs r info c T → wp p T.

Lemma wp_begin_Call t hs r info c T ctx group sql args (k : result reply → prog) (K : result nat → prog) :
  settled c → groupsOf c = [] → IsRead ctx = false → txOwn t hs r info c T → (∀ b, K (inl b) = branchTx_Call b sql args k) →
  (∀ rep, keeps t hs c (k rep)) → (∀ e, keeps t hs c (K (inr e))) → wp (compositeTx_begin Intn ns t ctx group K) T.
Proof using.
  intros Hset Hg Hr Hown HK Hk Hk'. eapply wp_compositeTx_begin; [done..| |intros e T' ?; by eapply Hk'].
  intros r' info' it T' Hown' Hi. destruct (own_branch _ _ _ _ _ _ _ _ Hown' Hi) as [T'' HT''].
  rewrite HK. eapply wp_branchTx_Call; [done..|]. intros rep. by eapply Hk.
Qed.

Lemma wp_compositeTx_call t hs c ctx db query args k :
  settled c → groupsOf c = [] → IsRead ctx = false → DBGroups ns ≠ [] → (∀ res, keeps t hs c (k res)) →
  keeps t hs c (compositeTx_call Intn ns t ctx db query args k).
Proof using.
  intros Hset Hg Hr Hne Hk r info T Hown. unfold compositeTx_call, bind.
  destruct (_ <? 1)%nat; [eapply wp_firstGroup; [done..|]; intros g T' Hown'|];
    (eapply wp_begin_Call; [done..|intros b; reflexivity|intros rep; apply Hk|intros e; apply Hk]).
Qed.

Lemma wp_execIn t hs c ctx calls k :
  settled c → groupsOf c = [] → IsRead ctx = false → DBGroups ns ≠ [] → (∀ res, keeps t hs c (k res)) → keeps t hs c (execIn Intn ns t ctx calls k).
Proof using.
  intros Hset Hg Hr Hne Hk. induction calls as [|[[db query] args] calls IH]; [apply Hk|]. apply wp_compositeTx_call; [done..|].
  intros [rep|e]; [apply IH|apply Hk].
Qed.

Lemma IsRead_flags f ctx : Z.land f _flagRead = 0 → IsRead (withFlag f ctx) = IsRead ctx.
Proof using. intros Hf. unfold IsRead, hasFlag, withFlag. cbn [flag]. by rewrite Z.land_lor_distr_l, Hf. Qed.

Lemma wp_compositeTx_Execute t hs c ctx query args plan k :
  settled c → groupsOf c = [] → IsRead ctx = false → DBGroups ns ≠ [] → (∀ res, keeps t hs c (k res)) →
  keeps t hs c (compositeTx_Execute Intn ns t ctx query args plan k).
Proof using.
  intros Hset Hg Hr Hne Hk r info T Hown. pose proof Hown as [HT Hcl Hrt Htx Hbe Hho]. exists r, (infoToks info ++ c). split; [done|].
  apply (own_perm _ _ _ _ _ _ _ HT) in Hown. rewrite Hcl. destruct (IsDirect ctx).
  - eapply wp_firstGroup; [done..|]. intros g T' Hown'.
    eapply wp_begin_Call; [done|done|by unfold WithWrite; rewrite IsRead_flags|done|intros b; reflexivity|intros rep; apply Hk|intros e; apply Hk].
  - destruct plan as [calls|e]; [|by eapply Hk]. eapply wp_execIn; [done..| |done]. intros res. apply Hk.
Qed.

(** ** Phases *)

(** A goroutine for each branch, each with a promise. *)
Lemma wp_goAll g (f : nat → M (option error)) (Φ : item → post) (l : list (string * item)) ps c k :
  (∀ it, wp (f (it_b it) (λ err, Vis (EDone g err) (λ _, Halt))) (TClaim g (Φ it) :: toks it)) →
  wp (k tt) (TGroup g (rev (map Φ l.*2) ++ ps) :: c) →
  wp (each (prod_map id it_b <$> l) (λ kv, go g (f kv.2)) k) (TGroup g ps :: itemsToks l.*2 ++ c).
Proof using.
  intros Hf. revert ps. induction l as [|[s it] l IH]; intros ps Hk; [done|]. exists ps, (Φ it), (toks it), (itemsToks l.*2 ++ c). split_and!.
  - done.
  - apply Hf.
  - apply IH. simpl in Hk. by rewrite <- app_assoc in Hk.
Qed.

Lemma wp_phase t r info c f (Φ : item → post) k :
  txs r = Some (it_b <$> info) →
  (∀ g it, wp (f (it_b it) (λ err, Vis (EDone g err) (λ _, Halt))) (TClaim g (Φ it) :: toks it)) →
  (∀ err l deps, l ≡ₚ (map_to_list info).*2 → Forall2 (λ it (d : option error * list token), d.2 ∈ Φ it d.1) l deps →
     (err = None ↔ Forall (λ d, d.1 = None) deps) → wp (k err) (TTx t r :: concat deps.*2 ++ c)) →
  wp (phase t f k) (TTx t r :: infoToks info ++ c).
Proof using IL.
  intros Htx Hf Hk. exists r, (infoToks info ++ c). split; [done|]. intros g. rewrite Htx. change (default ∅ (Some (it_b <$> info))) with (it_b <$> info).
  pose proof (iter_order_perm string nat (it_b <$> info)) as Hperm. rewrite map_to_list_fmap in Hperm.
  apply Permutation_map_inv in Hperm as (l & El & Hl). unfold bind. rewrite El.
  assert (infoToks info ≡ₚ itemsToks l.*2) as Htoks by (unfold infoToks, itemsToks; by rewrite Hl).
  eapply wp_perm; [|apply (wp_goAll g f Φ l [] (TTx t r :: c)); [apply Hf|]].
  { apply Permutation_skip. rewrite Htoks. by rewrite Permutation_middle. }
  rewrite app_nil_r. exists (rev (map Φ l.*2)), (TTx t r :: c). split; [done|]. intros err deps Hdeps Herr.
  eapply wp_perm; [apply Permutation_middle|]. apply (Hk err (rev l.*2)); [|by rewrite <- map_rev, Forall2_fmap_l in Hdeps|done].
  rewrite <- Permutation_rev. by rewrite Hl.
Qed.

Lemma infoToks_fmap (f : item → item) info : infoToks (f <$> info) = concat (map (λ it, toks (f it)) (map_to_list info).*2).
Proof using.
  unfold infoToks, itemsToks. f_equal. rewrite map_to_list_fmap, <- !list_fmap_compose. done.
Qed.

(** Without hooks, preparing succeeds and changes the states of the branches. *)
Lemma wp_prepare t r info txId k c :
  quiet (txHooks r) c → txs r = Some (it_b <$> info) →
  wp (k None) (TTx t (setTrxState TrxPrepared (setTrxState TrxPreparing r)) ::
               infoToks ((λ it, mkItem (it_b it) (it_db it) (it_x it) (Some TrxPrepared)) <$> info) ++ c) →
  wp (doPrepareCommit t txId k) (TTx t r :: infoToks info ++ c).
Proof using IL.
  intros Hq Htx Hk. set (up it := mkItem (it_b it) (it_db it) (it_x it) (Some TrxPrepared)) in *.
  assert (∀ l, quiet (txHooks r) (l ++ c)) as Hquiet by (intros l; induction l; [done|by apply quiet_cons]).
  apply wp_setTxState; [apply Hquiet|]. apply (wp_phase _ _ _ _ _ (λ it err, match err with None => [toks (up it)] | Some _ => [] end)); [done|..].
  - intros g it. apply wp_perm with (TBranch (it_b it) (openBranch (it_db it) (it_x it) (it_st it)) :: TClaim g (λ err, match err with None => [toks (up it)] | Some _ => [] end) :: [TReq (it_db it) (it_x it)]).
    { apply Permutation_swap. }
    apply wp_branchTx_Prepare. eexists _, (toks (up it)). split_and!; [apply Permutation_swap|by left|done|constructor].
  - intros err l deps Hl Hdeps Herr. assert (deps = map (λ it, (None, toks (up it))) l) as ->.
    { clear -Hdeps. induction Hdeps as [|it [e d] l deps Hd _ IH]; [done|]. destruct e; [by apply not_elem_of_nil in Hd|].
      apply list_elem_of_singleton in Hd. simpl in *. by subst. }
    assert (err = None) as -> by (apply Herr; clear; induction l; by constructor).
    eapply wp_perm; [|apply wp_setTxState; [|exact Hk]].
    + apply Permutation_skip, Permutation_app_tail. rewrite infoToks_fmap, <- Hl. clear. induction l as [|it l IH]; [done|]. simpl. by rewrite IH.
    + apply Hquiet.
Qed.

(** What the end of a transaction leaves: every branch is closed and off its
    connection, and without an error the command succeeded on each. *)
Definition ended (sql : string) (err : option error) (info : gmap string item) (T : list token) : Prop :=
  Forall inert T ∧
  ∀ group it, info !! group = Some it →
    (∃ st, TBranch (it_b it) (closedBranch st) ∈ T) ∧ (err = None → TRan (it_x it) (ExecuteWithWarningCount sql) ∈ T).

(** A promise to end a branch. *)
Definition endsBranch (sql : string) (it : item) (p : post) : Prop := ∀ err d, d ∈ p err →
  Forall inert d ∧ (∃ st, TBranch (it_b it) (closedBranch st) ∈ d) ∧ (err = None → TRan (it_x it) (ExecuteWithWarningCount sql) ∈ d).

Lemma ended_deps sql (Φ : item → post) err info l (deps : list (option error * list token)) :
  (∀ it, endsBranch sql it (Φ it)) → l ≡ₚ (map_to_list info).*2 → Forall2 (λ it d, d.2 ∈ Φ it d.1) l deps →
  (err = None ↔ Forall (λ d, d.1 = None) deps) → ended sql err info (concat deps.*2).
Proof using.
  intros HΦ Hl Hdeps Herr. split.
  - clear -HΦ Hdeps. induction Hdeps as [|it [e d] l deps Hd _ IH]; [constructor|]. apply Forall_app. split; [by eapply HΦ|done].
  - intros group it Hi. assert (it ∈ l) as Hin by (rewrite Hl, list_elem_of_fmap; exists (group, it); by rewrite elem_of_map_to_list).
    apply list_elem_of_lookup in Hin as [i Hi']. destruct (Forall2_lookup_l _ _ _ _ _ Hdeps Hi') as ([e d] & Hd & Hin).
    destruct (HΦ it e d Hin) as (_ & [st Hst] & Hran).
    assert (∀ x, x ∈ d → x ∈ concat deps.*2) as Hsub.
    { intros x Hx. apply list_elem_of_In, in_concat. exists d. split; [|by apply list_elem_of_In].
      apply list_elem_of_In, list_elem_of_fmap. exists (e, d). split; [done|]. by eapply list_elem_of_lookup_2. }
    split; [by eauto|]. intros ->. apply Hsub, Hran. by eapply Forall_lookup_1 in Hd; [|apply Herr].
Qed.

Definition commitPost (it : item) : post := λ err,
  match err with
  | None => [[TBranch (it_b it) (closedBranch TrxCommitted); TRan (it_x it) (ExecuteWithWarningCount "commit")]]
  | Some _ => [[TBranch (it_b it) (closedBranch TrxAborting)]; [TBranch (it_b it) (closedBranch TrxCommitting)]]
  end.

Definition rollbackPost (it : item) : post := λ err,
  match err with
  | None => [[TBranch (it_b it) (closedBranch TrxRolledBack); TRan (it_x it) (ExecuteWithWarningCount "rollback")]]
  | Some _ => [[TBranch (it_b it) (closedBranch TrxRolledBack)]]
  end.

Lemma commitPost_ends it : endsBranch "commit" it (commitPost it).
Proof using.
  intros [e|] d; simpl; rewrite ?elem_of_cons; [intros [-> |[-> |[]%not_elem_of_nil]]|intros [-> |[]%not_elem_of_nil]];
    (split_and!; [repeat constructor|eexists; by left|try done]). intros _. by right; left.
Qed.

Lemma rollbackPost_ends it : endsBranch "rollback" it (rollbackPost it).
Proof using.
  intros [e|] d; simpl; intros ->%list_elem_of_singleton; (split_and!; [repeat constructor|eexists; by left|try done]). intros _. by right; left.
Qed.

(** The last phase of a transaction, after which only its closed branches and
    the commands that succeeded are left. *)
Lemma wp_lastPhase sql t r info c state done_ f (Φ : item → post) txId k :
  quiet (txHooks r) c → txs r = Some (it_b <$> info) →
  (∀ g it, wp (f (it_b it) (λ err, Vis (EDone g err) (λ _, Halt))) (TClaim g (Φ it) :: toks it)) → (∀ it, endsBranch sql it (Φ it)) →
  (∀ err r' T, ended sql err info T → tclosed r' = tclosed r → wp (k err) (TTx t r' :: T ++ c)) →
  wp (bind (setTxState t state txId) (λ _, bind (phase t f) (λ err,
        match err with Some e => ret (Some e) | None => bind (setTxState t done_ txId) (λ _, ret None) end)) k) (TTx t r :: infoToks info ++ c).
Proof using IL.
  intros Hq Htx Hf HΦ Hk. assert (∀ l, quiet (txHooks r) (l ++ c)) as Hquiet by (intros l; induction l; [done|by apply quiet_cons]).
  apply wp_setTxState; [apply Hquiet|]. apply (wp_phase _ _ _ _ _ Φ); [done..|]. intros err l deps Hl Hdeps Herr.
  pose proof (ended_deps _ _ _ _ _ _ HΦ Hl Hdeps Herr) as Hend. destruct err as [e|].
  - by apply (Hk (Some e) (setTrxState state r)).
  - apply wp_setTxState; [apply Hquiet|]. by apply (Hk None (setTrxState done_ (setTrxState state r))).
Qed.

Lemma wp_doCommit t r info c txId k :
  quiet (txHooks r) c → txs r = Some (it_b <$> info) →
  (∀ err r' T, ended "commit" err info T → tclosed r' = tclosed r → wp (k err) (TTx t r' :: T ++ c)) → wp (doCommit t txId k) (TTx t r :: infoToks info ++ c).
Proof using IL.
  intros Hq Htx Hk. apply (wp_lastPhase "commit" _ _ _ _ _ _ _ commitPost); [done|done| |apply commitPost_ends|done]. intros g it. unfold bind.
  eapply wp_perm; [|apply (wp_branchTx_Commit (it_b it) (it_db it) (it_x it) (it_st it) txId _ [TClaim g (commitPost it)]); [done|done|..]].
  { apply (Permutation_app_comm (toks it) [_]). }
  - intros res. eexists _, _. split_and!; [symmetry; apply (Permutation_middle [_; _] [])|by left|done|constructor].
  - intros e st Hst. eexists _, _. split_and!; [symmetry; apply (Permutation_middle [_] [])| |done|constructor]. destruct Hst as [-> | ->]; [by left|by right; left].
Qed.

Lemma wp_doRollback t r info c txId k :
  quiet (txHooks r) c → txs r = Some (it_b <$> info) →
  (∀ err r' T, ended "rollback" err info T → tclosed r' = tclosed r → wp (k err) (TTx t r' :: T ++ c)) → wp (doRollback t txId k) (TTx t r :: infoToks info ++ c).
Proof using IL.
  intros Hq Htx Hk. apply (wp_lastPhase "rollback" _ _ _ _ _ _ _ rollbackPost); [done|done| |apply rollbackPost_ends|done]. intros g it.
  eapply wp_perm; [|apply (wp_branchTx_Rollback (it_b it) (it_db it) (it_x it) (it_st it) txId _ [TClaim g (rollbackPost it)]); [done|done|..]].
  { apply (Permutation_app_comm (toks it) [_]). }
  - eexists _, _. split_and!; [symmetry; apply (Permutation_middle [_; _] [])|by left|done|constructor].
  - intros e. eexists _, _. split_and!; [symmetry; apply (Permutation_middle [_] [])|by left|done|constructor].
Qed.

Lemma ended_states f sql err info T :
  (∀ it, it_b (f it) = it_b it ∧ it_x (f it) = it_x it) → ended sql err (f <$> info) T → ended sql err info T.
Proof using.
  intros Hf [Hi Hend]. split; [done|]. intros group it Hg. destruct (Hf it) as [<- <-]. apply (Hend group). by rewrite lookup_fmap, Hg.
Qed.

(** Preparing and ending an open transaction. *)
Lemma wp_end sql t hs r info c T txId (last : M (option error)) k :
  quiet hs c → txOwn t hs r info c T →
  (∀ r info k, quiet (txHooks r) c → txs r = Some (it_b <$> info) →
     (∀ err r' T, ended sql err info T → tclosed r' = tclosed r → wp (k err) (TTx t r' :: T ++ c)) → wp (last k) (TTx t r :: infoToks info ++ c)) →
  (∀ err r' T, ended sql err info T → tclosed r' = true → wp (k err) (TTx t r' :: T ++ c)) →
  wp (bind (eff (ECasTx t)) (λ first : bool, if first then
        bind (doPrepareCommit t txId) (λ err, bind (match err with Some e => ret (Some e) | None => last end) (λ err, bind (cleanup t) (λ _, ret err)))
      else ret (Some ErrTxClosed)) k) T.
Proof using IL.
  intros Hq [HT Hcl Hrt Htx Hbe Hho] Hlast Hk. exists r, (infoToks info ++ c). split; [done|]. rewrite Hcl. run. simpl negb. cbv iota.
  apply wp_prepare; [simpl; by rewrite Hho|done|]. apply Hlast; [simpl; by rewrite Hho|simpl; by rewrite Htx, <- map_fmap_compose|].
  intros err r' T' Hend Hr'. eexists r', (T' ++ c). split; [done|]. apply Hk; [|done]. by eapply ended_states in Hend.
Qed.

(** C8: commit.  A transaction with branches open on their connections, whose
    hooks are not enabled, may be committed whatever the servers answer: the
    commit never panics, and when it answers, the transaction is closed and
    every branch is closed and off its connection; without an error, [commit]
    succeeded on the connection of every branch. *)
Theorem commit_spec t hs r info c T txId k :
  quiet hs c → txOwn t hs r info c T →
  (∀ err r' T, ended "commit" err info T → tclosed r' = true → wp (k err) (TTx t r' :: T ++ c)) → wp (compositeTx_Commit t txId k) T.
Proof using IL. intros Hq Hown Hk. eapply wp_end; [done|done| |done]. intros ????. by apply wp_doCommit. Qed.

Lemma wp_compositeTx_Commit t hs r info c T txId k :
  quiet hs c → txOwn t hs r info c T →
  (∀ err r' T, ended "commit" err info T → tclosed r' = true → wp (k err) (TTx t r' :: T ++ c)) → wp (compositeTx_Commit t txId k) T.
Proof using IL. intros Hq Hown Hk. eapply wp_end; [done|done| |done]. intros ????. by apply wp_doCommit. Qed.

Lemma wp_compositeTx_Rollback t hs r info c T txId k :
  quiet hs c → txOwn t hs r info c T →
  (∀ err r' T, ended "rollback" err info T → tclosed r' = true → wp (k err) (TTx t r' :: T ++ c)) → wp (compositeTx_Rollback t txId k) T.
Proof using IL. intros Hq Hown Hk. eapply wp_end; [done|done| |done]. intros ????. by apply wp_doRollback. Qed.

(** ** Clients *)

Lemma inert_settled c : Forall inert c → settled c ∧ groupsOf c = [].
Proof using.
  intros Hc. split; [intros db|]; induction Hc as [|[] c Ht _ IH]; try done; by destruct Ht.
Qed.

(** Transactions without enabled hooks; the rest only where a goroutine may
    wait for its own connection. *)
Definition allowed (r : request) : Prop :=
  match r with ReqTransaction xa _ _ _ _ => xa = false | ReqClose _ => True | _ => strict = false end.

Lemma wp_serve req k c :
  DBGroups ns ≠ [] → allowed req → Forall inert c → (∀ c', Forall inert c' → wp (k tt) c') → wp (serve Intn ns req k) c.
Proof using IL.
  intros Hne Hreq Hc Hk. destruct (inert_settled c Hc) as [Hset Hg]. destruct req as [db tr name|db table wc|db tr sql args|db|xa tn id stmts cm]; simpl in Hreq.
  - apply wp_AtomDB_Variable; auto.
  - apply wp_AtomDB_CallFieldList; auto.
  - apply wp_AtomDB_Call; [done| |auto]. intros rep x. apply wp_closeResult; auto.
  - apply wp_AtomDB_Close; auto.
  - subst xa. intros h. set (c' := THook h (mkHook false (mkTrxLog "" 0 None [] "")) :: c).
    assert (quiet [h] c') as Hq by (intros h' ->%list_elem_of_singleton; exists (mkHook false (mkTrxLog "" 0 None [] "")), c; by split). assert (Forall inert c') as Hc' by by constructor.
    destruct (inert_settled c' Hc') as [Hset' Hg']. intros t. apply wp_setTxState; [done|].
    assert (keeps t [h] c' ((if cm then compositeTx_Commit t id else compositeTx_Rollback t id) (λ _, k tt))) as Hend.
    { intros r info T Hown. destruct cm; [eapply wp_compositeTx_Commit|eapply wp_compositeTx_Rollback]; try done;
        (intros err r' T' [Hin _] _; apply Hk, Forall_cons; split; [done|apply Forall_app; by split]). }
    assert (∀ l, keeps t [h] c' (each l (λ st, bind (compositeTx_Execute Intn ns t (if st_direct st then WithDirect (txContext tn id) else txContext tn id)
              (st_query st) (st_args st) (st_plan st)) (λ _, ret tt)) (λ _, (if cm then compositeTx_Commit t id else compositeTx_Rollback t id) (λ _, k tt)))) as Hst.
    { intros l. induction l as [|st l IH]; [exact Hend|]. apply wp_compositeTx_Execute; [done|done| |done|intros res; exact IH]. by destruct (st_direct st). }
    eapply (Hst stmts _ ∅). by split.
Qed.

Lemma wp_client rs c : DBGroups ns ≠ [] → Forall allowed rs → Forall inert c → wp (client Intn ns rs) c.
Proof using IL.
  intros Hne Hrs Hc. revert c Hc. induction Hrs as [|r rs Hr _ IH]; intros c Hc; [done|]. apply wp_serve; [done..|]. exact IH.
Qed.
End Composite.
End Specs.

(** ** All interleavings *)

(** Pools that were just made, no transaction and no request. *)
Definition fresh (mk : string → AtomDB) : Prop := ∀ db, ∃ cap max timeout rp,
  NewResourcePool cap max timeout = Ok rp ∧ max < 2 ^ 62 ∧ mk db = mkAtomDB (mkSystem rp [] None) false 0.

Definition startWorld (mk : string → AtomDB) : world := mkWorld mk [] [] [] [] [].

Section Results.
Context {I : MapIter} {IL : MapIterLaws I} {Ru : Type} (Intn : Z → Z) (ns : Namespace (Ru := Ru)).

Lemma start_invariant strict mk clients :
  fresh mk → DBGroups ns ≠ [] → Forall (Forall (allowed strict)) clients → invariant strict (map (client Intn ns) clients, startWorld mk).
Proof using IL.
  intros Hmk Hne Hcl. exists (map (λ _, []) clients), []. split.
  - simpl. induction Hcl as [|rs l Hrs _ IH]; [constructor|]. simpl. constructor; [by apply wp_client|done].
  - assert (concat (map (λ _ : list request, @nil token) clients) = []) as -> by (clear; by induction clients).
    split; simpl; [|split; [apply NoDup_nil_2|by intros ?? ?%not_elem_of_nil]..|by intros x ?%not_elem_of_nil|apply NoDup_nil_2
      |by intros g ps ?%not_elem_of_nil|by intros g [] |constructor].
    intros db. destruct (Hmk db) as (cap & max & timeout & rp & Hnew & Hmax & ->). split; simpl; try done. by eapply exact_new.
Qed.

(** Nothing is left for a group that no goroutine has. *)
Lemma no_groups_no_deposits w rs D : worldOk w (concat rs ++ dtoks D) D → groupsOf (concat rs) = [] → D = [].
Proof using.
  intros HW Hg. assert (groupsOf (dtoks D) = []) as Hd.
  { pose proof (w_deps _ _ _ HW) as Hd. unfold dtoks. clear -Hd. induction Hd as [|d D [_ Hd] _ IH]; [done|].
    unfold groupsOf in *. simpl. by rewrite omap_app, Hd, IH. }
  destruct D as [|d D]; [done|]. pose proof (w_claims _ _ _ HW (d_group d)) as Hc. unfold groupsOf in *. rewrite omap_app, Hg, Hd in Hc.
  exfalso. eapply not_elem_of_nil, Hc. right. unfold depsOf. by rewrite filter_cons_True.
Qed.

Lemma inert_omap {B} (f : token → option B) rs :
  (∀ t, inert t → f t = None) → Forall (Forall inert) rs → omap f (concat rs) = [].
Proof using.
  intros Hf. induction 1 as [|c rs Hc _ IH]; [done|]. simpl. rewrite omap_app, IH, app_nil_r. induction Hc as [|t c Ht _ IHc]; [done|]. simpl. by rewrite Hf.
Qed.


(** A goroutine with tokens that are not inert is not over. *)
Lemma live_goroutine {B} (f : token → option B) strict ps rs i c :
  (∀ t, inert t → f t = None) → Forall2 (wp strict) ps rs → rs !! i = Some c → omap f c = [] → omap f (concat rs) ≠ [] →
  ∃ j p, j ≠ i ∧ ps !! j = Some p ∧ p ≠ Halt.
Proof using.
  intros Hf Hps Hc Hnone Hne. assert (∃ j d, rs !! j = Some d ∧ omap f d ≠ []) as (j & d & Hj & Hd).
  { clear -Hne. induction rs as [|d rs IH]; [done|]. simpl in Hne. rewrite omap_app in Hne. destruct (omap f d) eqn:E.
    - destruct IH as (j & d' & Hj & Hd); [done|]. by exists (S j), d'.
    - exists 0%nat, d. simpl. by rewrite E. }
  destruct (Forall2_lookup_r _ _ _ _ _ Hps Hj) as (p & Hp & Hwp). exists j, p. split_and!; [|done|].
  - intros ->. by simplify_eq.
  - intros ->. apply Hd. pose proof (inert_omap f [d] Hf) as H. simpl in H. rewrite app_nil_r in H. apply H. by constructor.
Qed.

(** Who has a connection that is out, or waits for one who left it, is not over. *)
Lemma holder_live strict ps w rs D i c db :
  Forall2 (wp strict) ps rs → consistent w (concat rs) D → rs !! i = Some c → conns db c = [] → groupsOf c = [] →
  held (sys (dbs w db)) ≠ [] → ∃ j p, j ≠ i ∧ ps !! j = Some p ∧ p ≠ Halt.
Proof using.
  intros Hps HW Hc Hnone Hnog Hne. pose proof (db_held _ _ _ _ (w_dbs _ _ _ HW db)) as Hh.
  destruct (conns db (concat rs)) as [|x l] eqn:E.
  - apply (live_goroutine (λ t, match t with TGroup g ps => Some (g, ps) | _ => None end) strict ps rs i c); [by intros []|done..|].
    intros Hg. apply Hne. pose proof (no_groups_no_deposits w rs D HW Hg) as ->. unfold conns in *. simpl in Hh. rewrite app_nil_r, E in Hh.
    by apply Permutation_nil_r in Hh.
  - eapply (live_goroutine (λ t, match t with TConn d c | TReq d c => if decide (d = db) then Some c else None | _ => None end)); [by intros []|done..|].
    unfold conns in E. by rewrite E.
Qed.

(** C9: a transaction never waits for itself.  When clients only run
    transactions and close databases, a goroutine that closes a pool and waits
    for a connection is never alone: some other goroutine is not over, and the
    connection it waits for is out. *)
Theorem closing_waits_for_others mk clients ps w i db k :
  fresh mk → DBGroups ns ≠ [] → Forall (Forall (allowed true)) clients → rtc mstep (map (client Intn ns) clients, startWorld mk) (ps, w) →
  ps !! i = Some (Vis (ETake db) k) → (∀ a, perform a w (ETake db) = None) →
  held (sys (dbs w db)) ≠ [] ∧ ∃ j p, j ≠ i ∧ ps !! j = Some p ∧ p ≠ Halt.
Proof using IL.
  intros Hmk Hne Hcl Hsteps Hi Hwait.
  destruct (msteps_invariant true _ _ Hsteps (start_invariant _ _ _ Hmk Hne Hcl)) as (rs & D & Hps & HW). simpl in *.
  destruct (Forall2_lookup_l _ _ _ _ _ Hps Hi) as (c & Hc & Hs & n & c' & Hcl' & _). destruct (Hs eq_refl) as [Hnone Hnog].
  destruct (w_dbs _ _ _ HW db) as [He Hh _ _ Hsh]. destruct (concat_tokens rs i c Hc) as (R & HR & _).
  assert (closings db (concat rs ++ dtoks D) ≡ₚ S n :: closings db (c' ++ R ++ dtoks D)) as Hcls.
  { unfold closings. rewrite HR, Hcl', <- app_assoc. simpl. by rewrite decide_True. }
  assert (held (sys (dbs w db)) ≠ []) as Hne'.
  { intros E. specialize (Hwait (mkAnswers Live false (inl 0%nat) 0 true (inr EOF) None)). simpl in Hwait.
    destruct (shrinking (sys (dbs w db))) as [[m t]|] eqn:Es; [|rewrite Hsh in Hcls; by apply Permutation_nil_l in Hcls].
    destruct Hsh as [Hm ->]. rewrite Hm in Hcls. apply Permutation_singleton_l in Hcls. injection Hcls as Hmn _. subst m.
    destruct (takeOne (pool (sys (dbs w db)))) eqn:Et; [done|]. unfold takeOne in Et.
    destruct (resources (pool (sys (dbs w db)))) eqn:Er; [|done]. destruct He as [_ _ _ _ Ht Hr Htg _]. rewrite Er, E, Es in Ht. simpl in Ht. lia. }
  split; [done|]. by eapply holder_live.
Qed.
End Results.

(** ** Runs *)

Lemma runMachine_reachable sched s s' : runMachine sched s = Some s' → rtc mstep s s'.
Proof.
  revert s. induction sched as [|[i a] sched IH]; intros s H; [by injection H as ->|]. simpl in H.
  destruct (stepAt i a s) as [s1|] eqn:E; [|done]. simpl in H. eapply rtc_l; [by eapply mstep_thread|by apply IH].
Qed.

(** Runs the first goroutine that can go on, again and again. *)
Definition firstStep (a : answers) (s : list prog * world) : option (list prog * world) :=
  list_find (λ i, is_Some (stepAt i a s)) (seq 0 (length (fst s))) ≫= λ ix, stepAt ix.2 a s.

Fixpoint drive (fuel : nat) (a : answers) (s : list prog * world) : list prog * world :=
  match fuel with O => s | S fuel => match firstStep a s with Some s' => drive fuel a s' | None => s end end.

Lemma drive_reachable fuel a s : rtc mstep s (drive fuel a s).
Proof.
  revert s. induction fuel as [|fuel IH]; intros s; [apply rtc_refl|]. simpl. destruct (firstStep a s) as [s'|] eqn:E; [|apply rtc_refl].
  eapply rtc_l; [|apply IH]. unfold firstStep in E. destruct (list_find _ _) as [[n i]|]; [|done]. simpl in E. by eapply mstep_thread.
Qed.

Definition isHalt (p : prog) : bool := match p with Halt => true | _ => false end.

(** The goroutine waits to take a resource out of a pool. *)
Definition waitsTake (db : string) (s : list prog * world) (i : nat) : bool :=
  match fst s !! i with
  | Some (Vis (ETake d) _) =>
      bool_decide (d = db) && match perform (mkAnswers Live false (inl 0%nat) 0 true (inr EOF) None) (snd s) (ETake db) with None => true | _ => false end
  | _ => false
  end.

Lemma waitsTake_spec db s i :
  waitsTake db s i = true → ∃ k, fst s !! i = Some (Vis (ETake db) k) ∧ ∀ a, perform a (snd s) (ETake db) = None.
Proof.
  unfold waitsTake. destruct (fst s !! i) as [[| |X e k|]|]; try done. destruct e; try done.
  intros [->%bool_decide_eq_true H]%andb_true_iff. exists k. split; [done|]. intros a. change (perform a (snd s) (ETake db)) with
    (perform (mkAnswers Live false (inl 0%nat) 0 true (inr EOF) None) (snd s) (ETake db)). by destruct (perform _ _ _).
Qed.

(** Nothing helps a pool without resources but a resource that is put back. *)
Lemma closeIdleResources_empty made now (rp : ResourcePool nat) : resources rp = [] → closeIdleResources made now rp = rp.
Proof.
  intros E. unfold closeIdleResources. destruct (Z.to_nat (available rp)); [done|]. simpl. unfold closeIdle. by rewrite E.
Qed.

Lemma waiting_forever db k w s :
  (∀ a, perform a w (ETake db) = None) → resources (pool (sys (dbs w db))) = [] → rtc mstep ([Vis (ETake db) k; Halt], w) s →
  fst s = [Vis (ETake db) k; Halt] ∧ ∀ a, perform a (snd s) (ETake db) = None.
Proof.
  intros Hw He Hr. remember ([Vis (ETake db) k; Halt], w) as s0 eqn:E0. revert w Hw He E0.
  induction Hr as [s|s s1 s2 Hstep _ IH]; intros w Hw He ->; [done|]. inversion Hstep as [i a ? ? H|db' made now ps w' E]; subst.
  - exfalso. destruct i as [|[|i]]; [|discriminate H..].
    change (match perform a w (ETake db) with
            | Some (Some x, w') => Some ([k x; Halt], w') | Some (None, w') => Some ([Crash; Halt], w') | None => None end = Some s1) in H.
    by rewrite Hw in H.
  - set (w1 := setSys _ _ _) in *. assert (sys (dbs w1 db) = sys (dbs w db)) as E.
    { unfold w1. simpl. case_decide as Ed; [subst db'; simpl; rewrite closeIdleResources_empty by done; by destruct (sys _)|done]. }
    eapply IH; [| |reflexivity]; [|by rewrite E]. intros a. specialize (Hw a). unfold perform in *. cbv zeta in *. rewrite E.
    by destruct (shrinking (sys (dbs w db))) as [[[|n] t]|]; [..|destruct (takeOne (pool (sys (dbs w db))))|].
Qed.

Module TransactionExamples.
Import ForwardIter NamespaceExamples.

(** Two groups with a master each, and pools of one connection. *)
Definition twoGroups : Namespace (Ru := unit) := New "s" tt [UpsertDB "g0" (node "a" 10 10); UpsertDB "g1" (node "b" 10 10)].
Definition onePool : ResourcePool nat := mkPool 1 0 0 0 0 0 1 0 [emptyWrapper] 4 false.
Definition pools (db : string) : AtomDB := mkAtomDB (mkSystem onePool [] None) false 0.

Lemma pools_fresh : fresh pools.
Proof. intros db. by exists 1, 4, 0, onePool. Qed.

(** Everything succeeds; a new connection is number 7. *)
Definition fine : answers := mkAnswers Live false (inl 7%nat) 0 true (inl (mkReply (inl 1) (inl 0) ∅ [])) None.

Definition update (g : string) : string * string * list ProtoValue := (g, "update", []).
Definition bothGroups (xa toCommit : bool) : request := ReqTransaction xa "tenant" "id" [mkStmt false "update" [] (inl [update "g0"; update "g1"])] toCommit.

Definition start (clients : list (list request)) : list prog * world := (map (client (λ _, 0) twoGroups) clients, startWorld pools).

(** Two clients commit and roll back transactions on both groups. *)
Definition allDone : list prog * world := drive 300 fine (start [[bothGroups false true]; [bothGroups false false]]).

Lemma allDone_halts : forallb isHalt (fst allDone) = true.
Proof. by vm_compute. Qed.


(** The commands of a transaction that is committed. *)
Lemma committed_commands :
  ran (snd (drive 300 fine (start [[bothGroups false true]]))) =
  [(7%nat, ExecuteWithWarningCount "begin"); (7%nat, ExecuteIterRow "update"); (7%nat, ExecuteWithWarningCount "begin"); (7%nat, ExecuteIterRow "update");
   (7%nat, ExecuteWithWarningCount "commit"); (7%nat, ExecuteWithWarningCount "commit")].
Proof. by vm_compute. Qed.

(** With the hook enabled no branch is ended before it is prepared. *)
Lemma xa_commands :
  ran (snd (drive 300 fine (start [[ReqTransaction true "tenant" "id" [mkStmt false "update" [] (inl [update "g0"])] true]]))) =
  [(7%nat, ExecuteWithWarningCount "XA START 'id'"); (7%nat, ExecuteIterRow "update");
   (7%nat, ExecuteWithWarningCount "XA PREPARE 'id'"); (7%nat, ExecuteWithWarningCount "XA COMMIT 'id'")].
Proof. by vm_compute. Qed.

(** A rollback with the hook enabled: the plain command is sent. *)
Lemma xa_rollback_commands :
  ran (snd (drive 300 fine (start [[ReqTransaction true "tenant" "id" [mkStmt false "update" [] (inl [update "g0"])] false]]))) =
  [(7%nat, ExecuteWithWarningCount "XA START 'id'"); (7%nat, ExecuteIterRow "update");
   (7%nat, ExecuteWithWarningCount "XA PREPARE 'id'"); (7%nat, ExecuteWithWarningCount "rollback")].
Proof. by vm_compute. Qed.

(** A transaction with one branch is committed. *)
Definition oneBranch : gmap string item := {["g0" := mkItem 0 "a" 7 None]}.
Definition openTx : compositeTx := mkTx "tenant" false "id" (Some TrxActive) beginPlain true (Some (it_b <$> oneBranch)) [].

Lemma commit_spec_witness :
  wp true (compositeTx_Commit 0 "id" (λ _, Halt)) [TTx 0 openTx; TBranch 0 (openBranch "a" 7 None); TReq "a" 7].
Proof.
  apply (commit_spec true 0 [] openTx oneBranch []); [by intros h ?%not_elem_of_nil|by split|].
  intros err r' T [Hin _] _. apply Forall_cons. split; [exact Logic.I|]. apply Forall_app. by split.
Defined.

(** A transaction that has just borrowed its connection, and a client that
    closes the database. *)
Definition closingClients : list (list request) := [[bothGroups false true]; [ReqClose "a"]].
Definition whileClosing : option (list prog * world) :=
  runMachine (replicate 11 (0%nat, fine) ++ replicate 3 (1%nat, fine)) (start closingClients).

Lemma closing_waits_for_others_witness :
  match whileClosing with Some (ps, w) => ∃ j p, j ≠ 1%nat ∧ ps !! j = Some p ∧ p ≠ Halt | None => False end.
Proof.
  assert (match whileClosing with Some s => waitsTake "a" s 1 | None => false end = true) as Hw by by vm_compute.
  destruct whileClosing as [[ps w]|] eqn:E; [|discriminate Hw]. destruct (waitsTake_spec _ _ _ Hw) as (k & Hk & Hp).
  apply (closing_waits_for_others (λ _, 0) twoGroups pools closingClients ps w 1 "a" k); [exact pools_fresh|by vm_compute|repeat constructor| |exact Hk|exact Hp].
  by apply runMachine_reachable in E.
Defined.

(** A statement outside of a transaction whose database is closed before its
    result is. *)
Definition callClients : list (list request) := [[ReqCall "a" ∅ "select" []]; [ReqClose "a"]].
Definition closerRuns : list (nat * answers) := replicate 7 (0%nat, fine) ++ replicate 2 (1%nat, fine) ++ replicate 3 (0%nat, fine).

(** One goroutine waits for connection 7, and the other is over. *)
Definition stuckOn7 (r : option (list prog * world)) : bool :=
  match r with
  | Some s => waitsTake "a" s 0 && match fst s with [_; Halt] => true | _ => false end &&
              match resources (pool (sys (dbs (snd s) "a"))) with [] => bool_decide (held (sys (dbs (snd s) "a")) = [7%nat]) | _ => false end
  | None => false
  end.

Lemma stuckOn7_spec r :
  stuckOn7 r = true → ∃ k w, r = Some ([Vis (ETake "a") k; Halt], w) ∧ held (sys (dbs w "a")) = [7%nat] ∧
    resources (pool (sys (dbs w "a"))) = [] ∧ ∀ a, perform a w (ETake "a") = None.
Proof.
  destruct r as [[ps w]|]; [|done]. intros [[Hw Hps]%andb_true_iff H]%andb_true_iff. destruct (waitsTake_spec _ _ _ Hw) as (k & Hk & Hp).
  cbn [fst snd] in *. destruct (resources (pool (sys (dbs w "a")))) eqn:He; [|done]. apply bool_decide_eq_true in H.
  exists k, w. split_and!; [|done..]. f_equal. f_equal. destruct ps as [|p0 [|p1 [|p2 ps]]]; [done|done| |by destruct p1].
  injection Hk as ->. by destruct p1.
Qed.

(** A statement can wait for itself.  The closer of the result of
    [AtomDB.Call] gives up the request before it gives back the connection:
    when the database was closed while the result was open, it closes the pool
    and waits for its own connection, forever. *)
Theorem call_waits_for_itself :
  ∃ k w, rtc mstep (start callClients) ([Vis (ETake "a") k; Halt], w) ∧ held (sys (dbs w "a")) = [7%nat] ∧
         ∀ s, rtc mstep ([Vis (ETake "a") k; Halt], w) s → fst s = [Vis (ETake "a") k; Halt] ∧ ∀ a, perform a (snd s) (ETake "a") = None.
Proof.
  destruct (stuckOn7_spec (runMachine closerRuns (start callClients))) as (k & w & E & Hh & He & Hp); [vm_compute; reflexivity|].
  exists k, w. split_and!; [by apply runMachine_reachable in E|done|]. intros s Hs. by eapply waiting_forever.
Qed.
End TransactionExamples.
